(* ===== verification/_CoqProject ===== *)
-Q . S2P
Prelude.v
RustStd.v
Url.v
Md5.v
Json.v
Utf8.v
Chrono.v
Core.v
Ports.v
Service.v
Fakes.v
ServiceTraces.v
ServiceWorld.v
Api.v
Discipline.v
Concurrency.v
Server.v
Ledger.v
Cleanup.v
Stream.v
Delivery.v
Prost.v
Messages.v
Grpc.v
Rpc.v
Pg.v
Drive.v
DriveStorage.v
DriveContract.v
GoogleApis.v
DriveHttp.v
HttpFake.v
Compression.v
SocketAddr.v
Settings.v
System.v
SystemSafety.v
Timing.v
Logger.v
Startup.v
Assertions.v
CoreTests.v
PgTests.v
DriveTests.v
StorageTests.v
ServiceTests.v
ServerTests.v
Integration.v
