(* ===== verification/Prelude.v ===== *)
(** * FastBackup: a verification development

    FastBackup (under [src/crates]) is a gRPC server that backs up a
    PostgreSQL database to a Google Drive folder and restores it from there.

    ** The program and its model

    Every [async fn] is a program tree, [prog E A] below: its nodes are the
    calls the code makes to an interface [E], with one branch per answer, its
    leaves the values it returns.  [let*] is [.await], [let?] is [.await?].
    Trees are inductive, so every modelled function terminates whatever it is
    answered; loops with a bound in the code ([list_pages], [latest_pages],
    [retry_loop]) recurse on that bound.  Errors are values of [result].

    - [backup-core] (domain types, retention, names and formats): [Core].
      What it uses of Rust's std and of chrono is in [RustStd], [Utf8] and
      [Chrono].  The traits of [ports.rs] are the interface [PortE] of
      [Ports], which also has the contract [port_step]: what each method may
      do to the database, the stored backups and the local files, for each
      answer, failures with and without effect included.
      [compression.rs] is in [Compression].
    - [backup-server/service.rs]: [Service], the use cases over the ports,
      with the write lock and the temporary files as explicit calls; its test
      doubles are [Fakes].  [grpc.rs], [convert.rs], [status.rs] and the
      messages of [backup.proto]: [Api]; the streaming task of a download,
      with its bounded channel and its client: [Stream].  [settings.rs]:
      [Settings] (std's address parser in [SocketAddr]).  [main.rs]:
      [System], where every call of a port is replaced by the code behind it,
      and [Startup], [main] itself with the signal handler and the Drive
      client of [client.rs].  [logger.rs], with the filter env_logger makes of
      [RUST_LOG]: [Logger].
    - The server as a whole: [Concurrency] runs any number of requests against
      one lock and one data folder, [Server] adds the database, the storage
      and the disk they share.
    - [backup-pg]: [Pg], the command lines, the process runner and [PgTools].
    - [backup-gdrive]: [Drive] (errors, retries, queries, mapping),
      [DriveStorage] (the six operations of [GoogleDriveStorage]) and
      [DriveContract] (what Drive promises, and the proofs).  [fake.rs], the
      HTTP server its tests talk to: [HttpFake].
    - The libraries between [GoogleDriveStorage] and the wire, from
      [src/vendor]: [GoogleApis] (the five calls of google-drive3 as HTTP
      requests and what becomes of the responses), [Url] (the crates url,
      form_urlencoded, percent-encoding and http), [Json] (the values of
      serde_json, its printer and its parser) and [Md5] (the crate md-5 with
      its block buffer).  [DriveHttp] has the theorems on them.
    - [backup-proto] and the libraries between the handlers and a gRPC client:
      [Prost] (the crate prost: numbers, fields, messages, unknown fields),
      [Messages] (every message of [backup.proto] as the generated code
      encodes and decodes it), [Grpc] (the crate tonic: frames, limits,
      buffering, statuses as headers, both halves of a call) and [Rpc] (the
      generated service: paths, dispatch, routing, and the client's calls).
    - The tests, as computations over the model that evaluate to true:
      [CoreTests], [PgTests], [DriveTests], [StorageTests], [ServiceTests] and
      [ServerTests], with the assertions they share in [Assertions].  They
      tie the definitions to what the authors of the code expect of it.  Those
      of [storage.rs] go all the way: storage, client library, request line,
      server of the tests, JSON.  [Integration] has the tests that need a
      PostgreSQL server or a Drive folder, with the server as a parameter.

    ** What is shown

    - From the bottom to the top ([System]): a request run over child
      processes, Drive's HTTP API and the file system refines the request run
      over the contract of the ports, and a restore is atomic through all the
      layers.  It is put together from [Pg] ([PgTools] meets the contract of
      the database ports) and [DriveContract] ([GoogleDriveStorage] meets
      that of the storage port, through retries, lost answers and pages).
      [SystemSafety] follows the layers call by call: at every instant of a
      request the old database is in place or stored; the listing read in
      pages is the listing of the whole folder; retention leaves the newest.
      The world is the database (a finite map of objects), the backups in the
      folder, the local files and the ids of other files of the account.
      Restoring is what [pg_restore --clean] does: the objects of the archive
      are dropped and made again, the others stay ([restored_over]).
    - Time ([Timing]): the time limits and pauses of a request add up to at
      most a bound, computed from the settings and, where a file is fetched,
      from the number of frames in which Drive sends it.
    - Start-up ([Startup]): [main] reports bad settings before it does
      anything else, and serves once, with the objects of the settings.
    - What the use cases do to the world ([ServiceWorld]): a restore is all
      or nothing, never loses the old database, not even when cut short, and
      can be undone; a backup stores a dump of the database and removes
      nothing but old regular backups; a download delivers the stored bytes.
    - What they do in which order ([ServiceTraces]): a copy is stored before
      anything is overwritten, deletes follow a successful upload, retention
      deletes its candidates and nothing else.
    - Concurrency ([Discipline], [Concurrency]): every request writes only
      under the lock and uses only files it owns; with any number of requests
      interleaved and cancelled anywhere, writers exclude each other, the
      lock is never leaked and files are private.
    - What all requests do together ([Server], [Ledger], [Cleanup]): the
      server never loses the database or a protected backup, and refines a
      ledger, a database and a list of stored files with three rules: a dump
      of the database is stored, a regular backup is pruned, a stored backup
      is restored over the database while a dump of it is stored.  When it is
      idle no file is left, unless a request was cancelled in the middle of a
      download from the storage or of a decompression.
    - The API ([Api], [Stream]): messages read back as the backups they come
      from, details of failed use cases stay in the log, listings are single
      bounded pages, streams are whole or end in an error, and end, held up
      by nothing but a full channel.
      [Delivery] puts download and stream together: what a client reads to
      the end is the stored backup, whatever other requests do meanwhile.
    - The way to the client ([Prost], [Messages], [Grpc], [Rpc]): messages
      survive the wire and newer fields are ignored; whatever bytes come in, a
      handler only gets values of their types; a call and its answer or error
      arrive as they were made, and a download is whole, however HTTP/2 cuts
      the bytes.
    - The log ([Logger]): which records [RUST_LOG] lets through.
    - The way to Drive ([DriveHttp], [Json], [Md5]): requests read back as the
      calls they come from, an upload carries the whole file in order and says
      what the backup is, JSON without floats reads back, what is read is
      bounded, and a digest does not
      depend on the pieces a body comes in.
    - The details the rest relies on: retention and names ([Core]), command
      lines, password handling and [tail] ([Pg]), queries, metadata, retries
      and error classes ([Drive]), checksums and absence of panics
      ([DriveContract]), the ranges and errors of settings ([Settings]).
    - Defects: cancelling the download of a legacy backup can leave a file
      that nobody owns ([Compression]); the id of a client goes into the path
      of a request unescaped, a long id or page token makes the client
      library panic, and the library ignores how much of a part a 308 answer
      confirms, so that an upload of which Drive keeps less cannot succeed
      ([DriveHttp]).  A restore leaves objects that the backup does not have,
      where the documentation says that it overwrites the database ([System]).

    ** Assumptions

    Code that is not part of the repository is a parameter, and what is
    relied on is stated in a class, each with an instance that shows it can
    hold: [PgFormat] (which files are dumps of which database, a database
    having many, and that an archive can be read back; zstd's decoder),
    [PgPrograms] (what the PostgreSQL programs do with the options they are
    given, as their manual says: [pg_restore] runs a script of [DROP IF EXISTS]
    and [CREATE], in one transaction when told so), [DriveApi] and [DriveServer]
    (Drive's API), [ClientLibs] and [F64] (decoding of files, times and floats
    by libraries), [Postgres] (what psql answers), [RustFmt] (texts printed by
    std).  Regular expressions in [RUST_LOG] are an argument of [Logger].
    [Md5] is the interface of the digest, which the crate implements.
    [System] ends with an environment that can be run: a restore
    is evaluated in it from the use case down to command lines and HTTP calls.

    Strings are sequences of bytes; integers are [Z] with the widths of the
    code written out where they matter ([try_from], parsers, durations in
    nanoseconds, the wrap-around of the download size).  Byte counts of files
    and lengths of lists are taken to fit their types.

    ** Bounds

    [retry_loop] has as much fuel as the policy has attempts and stops by its
    own test before the fuel does.  The page loops have the limits of the
    code, 100 pages for retention and 10 for the latest backup.  A connection
    of [HttpFake] is served for a given number of rounds; the theorem holds
    for any number that is at least that of the requests.  [digits] has one
    more step than the number has bits.  The parser of [Json] recurses on the
    128 levels [serde_json] allows, and its loops have the length of the text
    as fuel, which is enough since every round takes a byte ([visit_seq_fuel],
    [visit_map_fuel], [parse_str_bytes_fuel]).  The loops of [Prost] and
    [Grpc] have the length of their buffer as fuel for the same reason
    ([decode_fuel], [buffered_step]); nested messages recurse on the 100
    levels prost allows.  [upload_chunks] has as many
    rounds as there is time for chunks; one more than the whole chunks of the
    file is enough when the server takes the parts whole.  [Timing] assumes of
    the environment only that Drive keeps to the page size; its bound for a
    download grows with the number of frames, for which the code has no limit.

    ** Not modelled

    TLS, OAuth and hyper are libraries: [Startup] has their calls with
    their failures, not what they do, and not the options [client.rs] sets on
    its connectors.  HTTP/2 is the relation [transported] of [Grpc]: it keeps
    the bytes and their order, and may lose a connection, which cancels the
    request ([Concurrency]).  tonic's compression is not enabled, and details
    and metadata of statuses, interceptors and client streaming are not used;
    fields of [prost] the messages do not have (packed, maps, floats) are left
    out.  [build.rs] only runs the generator.  The derived
    [Deserialize] of Drive's files, which has some sixty fields the storage
    does not ask for, and 64-bit floats are parameters. *)

From Stdlib Require Import ZArith Lia.
From stdpp Require Import base numbers gmap sorting strings list.

#[export] Set Warnings "-clear-no-such-hyp".

(** ** Results: [std::result::Result] *)

Inductive result (A E : Type) : Type :=
| Ok (a : A)
| Err (e : E).
Arguments Ok {A E} a.
Arguments Err {A E} e.

#[global] Instance result_eq_dec {A E} `{EqDecision A, EqDecision E} : EqDecision (result A E).
Proof. solve_decision. Defined.

Definition result_map_err {A E F} (f : E -> F) (r : result A E) : result A F :=
  match r with Ok a => Ok a | Err e => Err (f e) end.

Definition result_ok {A E} (r : result A E) : option A :=
  match r with Ok a => Some a | Err _ => None end.

Definition ok_or {A E} (o : option A) (e : E) : result A E :=
  match o with Some a => Ok a | None => Err e end.

Declare Scope rust_scope.
Delimit Scope rust_scope with rust.

(** The [?] operator of a pure function that returns a [Result]. *)
Notation "'try' x := r 'in' k" :=
  (match r with Ok x => k | Err e => Err e end)
  (at level 10, x pattern, r at level 100, k at level 200) : rust_scope.

(** ** Programs

    An [async fn] is a [prog]: a tree whose nodes are the calls the code makes
    to its environment, with one branch per answer, and whose leaves are the
    values it returns.  The tree is inductive: every program terminates
    whatever the environment answers. *)

Inductive prog (E : Type -> Type) (A : Type) : Type :=
| Ret (a : A)
| Vis {T : Type} (e : E T) (k : T -> prog E A).
Arguments Ret {E A} a.
Arguments Vis {E A T} e k.

Fixpoint bind {E A B} (p : prog E A) (f : A -> prog E B) : prog E B :=
  match p with
  | Ret a => f a
  | Vis e k => Vis e (fun r => bind (k r) f)
  end.

Definition trigger {E T} (e : E T) : prog E T := Vis e Ret.

(** The interface is known from the expected type before the call is read. *)
Arguments bind {E A B} & p f.
Arguments trigger {E T} & e /.

(** [let* x := p in k] is [let x = p.await; k]; [let? x := p in k] is
    [let x = p.await?; k]. *)
Notation "'let*' x := p 'in' k" := (bind p (fun x => k))
  (at level 10, x pattern, p at level 100, k at level 200) : rust_scope.
Notation "'let?' x := p 'in' k" :=
  (bind p (fun r => match r with Ok x => k | Err e => Ret (Err e) end))
  (at level 10, x pattern, p at level 100, k at level 200) : rust_scope.
Notation "'call' e" := (trigger e) (at level 20, e at level 9) : rust_scope.

(** A [for] loop over a list whose body only has effects. *)
Fixpoint for_each {E A} (l : list A) (body : A -> prog E unit) : prog E unit :=
  match l with
  | [] => Ret tt
  | x :: l => bind (body x) (fun _ => for_each l body)
  end.

(** Interpreting the calls of one interface by programs over another. *)
Fixpoint interp {E F A} (h : forall T, E T -> prog F T) (p : prog E A) : prog F A :=
  match p with
  | Ret a => Ret a
  | Vis e k => bind (h _ e) (fun r => interp h (k r))
  end.

(** ** Executions *)

(** One call together with the answer it got. *)
Record event (E : Type -> Type) : Type := Ev { ev_ty : Type; ev_op : E ev_ty; ev_ans : ev_ty }.
Arguments Ev {E ev_ty} ev_op ev_ans.

(** [steps p tr q]: [p] makes the calls [tr], gets the answers recorded there,
    and [q] is left to run.  [steps p tr (Ret a)] is a complete run; any [q]
    is a point where the future may be dropped. *)
Fixpoint steps {E A} (p : prog E A) (tr : list (event E)) (q : prog E A) {struct tr} : Prop :=
  match tr with
  | [] => q = p
  | e :: tr =>
      match p with
      | Ret _ => False
      | Vis op k => exists r, e = Ev op r /\ steps (k r) tr q
      end
  end.

(** A deterministic environment with state [S]. *)
Definition handler (E : Type -> Type) (S : Type) : Type := forall T, E T -> S -> T * S.

Fixpoint run {E S A} (h : handler E S) (p : prog E A) (s : S) : A * S :=
  match p with
  | Ret a => (a, s)
  | Vis e k => let '(r, s') := h _ e s in run h (k r) s'
  end.

Lemma run_bind {E S A B} (h : handler E S) (p : prog E A) (f : A -> prog E B) s :
  run h (bind p f) s = let '(a, s') := run h p s in run h (f a) s'.
Proof. revert s. induction p as [a|T e k IH]; intros s; simpl; [done|]. destruct (h T e s). apply IH. Qed.

(** The calls made against such an environment. *)
Fixpoint trace {E S A} (h : handler E S) (p : prog E A) (s : S) : list (event E) :=
  match p with
  | Ret _ => []
  | Vis e k => let '(r, s') := h _ e s in Ev e r :: trace h (k r) s'
  end.

(** ** A program logic

    [pre s op] says when a call is allowed in state [s]; [step s ev s'] how
    the state moves when the call is answered.  [wp] is the weakest
    precondition for every call of the program to be allowed and for its
    result and final state to satisfy [Q]. *)
Section Wp.
Context {E : Type -> Type} {S : Type}.
Context (pre : S -> forall T, E T -> Prop) (step : S -> event E -> S -> Prop).

Fixpoint wp {A} (p : prog E A) (Q : A -> S -> Prop) (s : S) : Prop :=
  match p with
  | Ret a => Q a s
  | Vis e k => pre s _ e /\ forall r s', step s (Ev e r) s' -> wp (k r) Q s'
  end.

(** The states an execution goes through. *)
Fixpoint wsteps {A} (p : prog E A) (s : S) (tr : list (event E)) (q : prog E A) (s' : S)
    {struct tr} : Prop :=
  match tr with
  | [] => q = p /\ s' = s
  | e :: tr =>
      match p with
      | Ret _ => False
      | Vis op k => exists r s1, e = Ev op r /\ step s e s1 /\ wsteps (k r) s1 tr q s'
      end
  end.
End Wp.

(** ** Tactics *)

(** Case analysis on every [match] and [if] of the goal, closing the trivial
    branches. *)
Ltac split_matches := repeat (case_match || case_decide); simplify_eq/=; try done.

Section WpFacts.
Context {E : Type -> Type} {S : Type}.
Context (pre : S -> forall T, E T -> Prop) (step : S -> event E -> S -> Prop).

Lemma wp_mono {A} (p : prog E A) (Q R : A -> S -> Prop) s :
  (forall a s, Q a s -> R a s) -> wp pre step p Q s -> wp pre step p R s.
Proof.
  intros HQR. revert s. induction p as [a|T e k IH]; intros s; simpl; [apply HQR|].
  intros [Hpre Hk]. split; [done|]. eauto.
Qed.

Lemma wp_bind {A B} (p : prog E A) (f : A -> prog E B) (Q : B -> S -> Prop) s :
  wp pre step (bind p f) Q s <-> wp pre step p (fun a s' => wp pre step (f a) Q s') s.
Proof.
  revert s. induction p as [a|T e k IH]; intros s; simpl; [done|].
  split; intros [Hpre Hk]; (split; [done|]); intros r s' Hs; by apply IH, Hk.
Qed.

Lemma wp_bind_2 {A B} (p : prog E A) (f : A -> prog E B) (P : A -> S -> Prop) Q s :
  wp pre step p P s -> (forall a s', P a s' -> wp pre step (f a) Q s') ->
  wp pre step (bind p f) Q s.
Proof. intros Hp Hf. apply wp_bind. eauto using wp_mono. Qed.

Lemma wp_for_each {A} (l : list A) (body : A -> prog E unit) (I : S -> Prop) s :
  (forall x s, x ∈ l -> I s -> wp pre step (body x) (fun _ => I) s) ->
  I s -> wp pre step (for_each l body) (fun _ => I) s.
Proof.
  revert s. induction l as [|x l IH]; intros s Hbody HI; simpl; [done|].
  eapply wp_bind_2; [apply Hbody; [left|done]|].
  intros u s' HI'. apply IH; [|exact HI']. intros y s1 Hy. apply Hbody. by right.
Qed.

(** An allowed program stays allowed along its executions. *)
Lemma wp_wsteps {A} (p q : prog E A) Q s s' tr :
  wp pre step p Q s -> wsteps step p s tr q s' -> wp pre step q Q s'.
Proof.
  revert p s. induction tr as [|e tr IH]; intros p s Hp; simpl; [by intros [-> ->]|].
  destruct p as [a|T op k]; [done|]. intros (r & s1 & -> & Hs & Hk).
  destruct Hp as [_ Hp]. eauto.
Qed.

End WpFacts.

Lemma trace_steps {E S A} (h : handler E S) (p : prog E A) s :
  steps p (trace h p s) (Ret (run h p s).1).
Proof.
  revert s. induction p as [a|T e k IH]; intros s; simpl; [done|].
  destruct (h T e s) as [r s']. simpl. eauto.
Qed.

Lemma trace_wsteps {E S A} (step : S -> event E -> S -> Prop) (h : handler E S) (p : prog E A) s :
  (forall T (e : E T) s, step s (Ev e (h T e s).1) (h T e s).2) ->
  wsteps step p s (trace h p s) (Ret (run h p s).1) (run h p s).2.
Proof.
  intros Hh. revert s. induction p as [a|T e k IH]; intros s; simpl; [done|].
  specialize (Hh T e s). destruct (h T e s) as [r s']. simpl in *.
  exists r, s'. split_and!; [done..|apply IH].
Qed.

(** A history: the state is the list of the calls made so far. *)
Definition history {E} (s : list (event E)) (e : event E) (s' : list (event E)) : Prop :=
  s' = s ++ [e].

Section StepsFacts.
Context {E : Type -> Type}.

Lemma steps_wsteps {A} (p q : prog E A) s tr :
  steps p tr q -> wsteps history p s tr q (s ++ tr).
Proof.
  revert p s. induction tr as [|e tr IH]; intros p s; simpl.
  - intros ->. by rewrite app_nil_r.
  - destruct p as [a|T op k]; [done|]. intros (r & -> & Hk).
    exists r, (s ++ [Ev op r]). split_and!; [done..|].
    specialize (IH _ (s ++ [Ev op r]) Hk). by rewrite <-app_assoc in IH.
Qed.

Lemma steps_bind {A B} (p : prog E A) (f : A -> prog E B) tr q :
  steps (bind p f) tr q ->
  (exists p', steps p tr p' /\ q = bind p' f) \/
  (exists a tr1 tr2, tr = tr1 ++ tr2 /\ steps p tr1 (Ret a) /\ steps (f a) tr2 q).
Proof.
  revert p. induction tr as [|e tr IH]; intros p; simpl.
  - intros ->. left. by exists p.
  - destruct p as [a|T op k]; simpl.
    + intros Hf. right. by exists a, [], (e :: tr).
    + intros (r & -> & Hk). destruct (IH _ Hk) as [(p' & Hp' & ->)|(a & tr1 & tr2 & -> & Hp & Hf)].
      * left. exists p'. eauto.
      * right. exists a, (Ev op r :: tr1), tr2. split_and!; [done| |done]. simpl. eauto.
Qed.

(** A complete run of a sequence is a complete run of each part. *)
Lemma steps_bind_Ret {A B} (p : prog E A) (f : A -> prog E B) tr b :
  steps (bind p f) tr (Ret b) ->
  exists a tr1 tr2, tr = tr1 ++ tr2 /\ steps p tr1 (Ret a) /\ steps (f a) tr2 (Ret b).
Proof.
  intros [(p' & Hp & Hq)|?]%steps_bind; [|done]. destruct p' as [a|]; [|done]. simpl in Hq.
  exists a, tr, []. rewrite app_nil_r. done.
Qed.

End StepsFacts.

(** ** Combining and implementing interfaces *)

(** An environment that answers some calls only. *)
Fixpoint run_partial {E S A} (h : forall T, E T -> S -> option (T * S)) (p : prog E A) (s : S) : option (A * S) :=
  match p with
  | Ret a => Some (a, s)
  | Vis e k => match h _ e s with Some (r, s') => run_partial h (k r) s' | None => None end
  end.

Lemma run_partial_reaches {E S A} (step : S -> event E -> S -> Prop) h (p : prog E A) s a s' :
  (forall T (e : E T) s r s', h T e s = Some (r, s') -> step s (Ev e r) s') ->
  run_partial h p s = Some (a, s') -> exists tr, wsteps step p s tr (Ret a) s'.
Proof.
  intros Hh. revert s. induction p as [b|T e k IH]; intros s; simpl; [intros [= -> ->]; by exists []|].
  destruct (h T e s) as [[r s1]|] eqn:He; [|done]. intros [tr Htr]%IH.
  exists (Ev e r :: tr), r, s1. split_and!; [done|by apply Hh|done].
Qed.

(** Every complete run of a program ends in a state it can reach. *)
Lemma wp_reaches {E S A} (step : S -> event E -> S -> Prop) (p : prog E A) s :
  wp (fun _ _ _ => True) step p (fun a s' => exists tr, wsteps step p s tr (Ret a) s') s.
Proof.
  revert s. induction p as [a|T e k IH]; intros s; simpl; [by exists []|].
  split; [done|]. intros r s1 Hs. eapply wp_mono; [|apply IH].
  intros a s2 [tr Htr]. exists (Ev e r :: tr), r, s1. by split_and!.
Qed.

(** Two proofs about the same program. *)
Lemma wp_both {E S1 S2 A} pre1 step1 pre2 step2 (p : prog E A) Q1 Q2 (s1 : S1) (s2 : S2) :
  wp pre1 step1 p Q1 s1 -> wp pre2 step2 p Q2 s2 ->
  wp (fun (s : S1 * S2) T e => pre1 s.1 T e /\ pre2 s.2 T e)
     (fun s e s' => step1 s.1 e s'.1 /\ step2 s.2 e s'.2) p
     (fun a s => Q1 a s.1 /\ Q2 a s.2) (s1, s2).
Proof.
  revert s1 s2. induction p as [a|T e k IH]; intros s1 s2; simpl; [done|].
  intros [Hp1 Hk1] [Hp2 Hk2]. split; [done|]. intros r [s1' s2'] [Hs1 Hs2]. simpl in *. auto.
Qed.

(** If the code [h e] behind each call does what the interface promises, a
    proof against the interface is a proof about the code. *)
Lemma wp_interp {E F S1 S2 A} pre1 step1 pre2 step2 (h : forall T, E T -> prog F T)
    (Rel : S1 -> S2 -> Prop) (p : prog E A) Q s1 s2 :
  (forall T (e : E T) s1 s2, pre1 s1 T e -> Rel s1 s2 ->
     wp pre2 step2 (h T e) (fun r s2' => exists s1', step1 s1 (Ev e r) s1' /\ Rel s1' s2') s2) ->
  wp pre1 step1 p Q s1 -> Rel s1 s2 ->
  wp pre2 step2 (interp h p) (fun a s2' => exists s1', Q a s1' /\ Rel s1' s2') s2.
Proof.
  intros Hh. revert s1 s2. induction p as [a|T e k IH]; intros s1 s2; simpl; [eauto|].
  intros [Hpre Hk] HR. eapply wp_bind_2; [by apply Hh|].
  intros r s2' (s1' & Hs & HR'). eapply IH; [|done]. by apply Hk.
Qed.

Lemma wp_interp_bind {E F S A B} pre step (h : forall T, E T -> prog F T) (p : prog E A) (f : A -> prog E B)
    (P : A -> S -> Prop) Q (s : S) :
  wp pre step (interp h p) P s -> (forall a s', P a s' -> wp pre step (interp h (f a)) Q s') ->
  wp pre step (interp h (bind p f)) Q s.
Proof.
  intros Hp Hf. revert s Hp. induction p as [a|T e k IH]; intros s Hp; simpl in *; [auto|].
  rewrite wp_bind in Hp |- *. eapply wp_mono; [|exact Hp]. intros r s'. apply IH.
Qed.

(** Every call of a program satisfies [P]. *)
Fixpoint calls {E A} (P : forall T, E T -> Prop) (p : prog E A) : Prop :=
  match p with
  | Ret _ => True
  | Vis e k => P _ e /\ forall r, calls P (k r)
  end.

Lemma calls_bind {E A B} (P : forall T, E T -> Prop) (p : prog E A) (f : A -> prog E B) :
  calls P p -> (forall a, calls P (f a)) -> calls P (bind p f).
Proof. intros Hp Hf. induction p as [a|T e k IH]; simpl in *; [done|]. destruct Hp. auto. Qed.

Lemma calls_for_each {E A} (P : forall T, E T -> Prop) (l : list A) (body : A -> prog E unit) :
  (forall x, calls P (body x)) -> calls P (for_each l body).
Proof. intros Hb. induction l as [|x l IH]; simpl; [done|]. by apply calls_bind. Qed.

Lemma calls_wp {E S A} (P : forall T, E T -> Prop) pre step (p : prog E A) Q (s : S) :
  calls P p -> wp pre step p Q s -> wp (fun s T e => pre s T e /\ P T e) step p Q s.
Proof.
  revert s. induction p as [a|T e k IH]; intros s; simpl; [done|].
  intros [HP Hk] [Hpre Hs]. split; [done|]. intros r s' Hr. apply IH; auto.
Qed.

Lemma calls_mono {E A} (P Q : forall T, E T -> Prop) (p : prog E A) :
  (forall T e, P T e -> Q T e) -> calls P p -> calls Q p.
Proof. intros HPQ. induction p as [a|T e k IH]; simpl; [done|]. intros [HP Hk]. auto. Qed.

Lemma calls_any {E A} (p : prog E A) : calls (fun _ _ => True) p.
Proof. by induction p. Qed.

Lemma calls_interp {E F A} (P : forall T, E T -> Prop) (P' : forall T, F T -> Prop)
    (h : forall T, E T -> prog F T) (p : prog E A) :
  calls P p -> (forall T e, P T e -> calls P' (h T e)) -> calls P' (interp h p).
Proof.
  intros Hp Hh. induction p as [a|T e k IH]; simpl in *; [done|]. destruct Hp as [He Hk].
  apply calls_bind; [by apply Hh|]. intros r. by apply IH.
Qed.

(** A flag that stays up until an event [bad] occurs. *)
Section Flag.
Context {E : Type -> Type} {S : Type} (step : S -> event E -> S -> Prop) (bad : event E -> bool).

Definition flag_step (s : S * bool) (e : event E) (s' : S * bool) : Prop :=
  step s.1 e s'.1 /\ s'.2 = s.2 && negb (bad e).

Lemma wsteps_flag {A} (p q : prog E A) s tr s' ok :
  wsteps step p s tr q s' -> wsteps flag_step p (s, ok) tr q (s', ok && forallb (fun e => negb (bad e)) tr).
Proof.
  revert p s ok. induction tr as [|e tr IH]; intros p s ok; simpl; [intros [-> ->]; by rewrite andb_true_r|].
  destruct p as [a|T op k]; [done|]. intros (r & s1 & -> & Hs & Hk). exists r, (s1, ok && negb (bad (Ev op r))).
  split_and!; [done..|]. rewrite andb_assoc. by apply IH.
Qed.

Lemma wp_flag {A} pre (p : prog E A) Q s ok :
  calls (fun T op => forall r, bad (Ev op r) = false) p -> wp pre step p Q s ->
  wp (fun s => pre s.1) flag_step p (fun a s' => Q a s'.1 /\ s'.2 = ok) (s, ok).
Proof.
  revert s. induction p as [a|T op k IH]; intros s; simpl; [done|]. intros [Hq Hc] [Hpre Hk]. split; [done|].
  intros r [s1 ok1] [Hs Hok]. cbn [fst snd] in *. rewrite Hq, andb_true_r in Hok. subst ok1. by apply IH; [|apply Hk].
Qed.
End Flag.

(** What follows from an invariant every call of the program keeps holds at
    each of its points. *)
Lemma wp_inv {E S A} (I J : S -> Prop) (P : forall T, E T -> Prop) pre step (p : prog E A) Q (s : S) :
  (forall s, I s -> J s) ->
  (forall s T (e : E T) r s', P T e -> I s -> step s (Ev e r) s' -> I s') ->
  calls P p -> wp pre step p Q s -> I s ->
  wp (fun s _ _ => J s) step p (fun a s' => Q a s' /\ J s') s.
Proof.
  intros HIJ Hstep. revert s. induction p as [a|T e k IH]; intros s; simpl; [auto|].
  intros [HP Hk] [_ Hs] HI. split; [auto|]. intros r s' Hr. apply IH; eauto.
Qed.

(** ** Lists with a key *)

#[global] Instance filter_Permutation {A} (f : A -> bool) : Proper ((≡ₚ) ==> (≡ₚ)) (List.filter f).
Proof.
  induction 1 as [|x l l' _ IH|x y l|l1 l2 l3 _ IH1 _ IH2]; simpl; [done| | |by etrans].
  - destruct (f x); by rewrite IH.
  - destruct (f x), (f y); try done. constructor.
Qed.

Lemma NoDup_key {A B} (key : A -> B) (l : list A) x y :
  NoDup (key <$> l) -> x ∈ l -> y ∈ l -> key x = key y -> x = y.
Proof.
  intros Hnd Hx Hy Hk. apply list_elem_of_lookup in Hx as [i Hi], Hy as [j Hj].
  assert (i = j) as ->; [|congruence].
  eapply (NoDup_lookup _ _ _ (key x)); [exact Hnd|..]; rewrite list_lookup_fmap.
  - by rewrite Hi.
  - by rewrite Hj, Hk.
Qed.
