(* ===== verification/RustStd.v ===== *)
(** * The parts of Rust's standard library the program uses

    Machine integers ([Z] with explicit ranges), their [FromStr] and
    [Display]; [str] operations on the UTF-8 bytes of a string ([string] is a
    sequence of bytes); [Path::extension]; [Duration].  The lemmas are the
    round trips and decompositions the components rely on. *)

From Stdlib Require Import ZArith Lia Ascii.
From stdpp Require Import base numbers strings list.
From S2P Require Import Prelude.
Open Scope Z_scope.

(** ** Machine integers *)

Definition U8_MAX : Z := 255.
Definition U16_MAX : Z := 65535.
Definition U32_MAX : Z := 4294967295.
Definition I32_MAX : Z := 2147483647.
Definition U64_MAX : Z := 18446744073709551615.
Definition I64_MIN : Z := -9223372036854775808.
Definition I64_MAX : Z := 9223372036854775807.
(** [usize] on the 64-bit targets the image is built for. *)
Definition USIZE_MAX : Z := U64_MAX.

(** [T::try_from(z)] for an integer type with the range [lo..=hi]. *)
Definition try_from (lo hi z : Z) : option Z :=
  if (lo <=? z) && (z <=? hi) then Some z else None.

(** ** Strings as bytes *)

Definition bytes := list ascii.

Abbreviation chars := String.list_ascii_of_string.
Abbreviation of_chars := String.string_of_list_ascii.

(** The byte at a position, as a number. *)
Definition code (c : ascii) : Z := Z.of_N (N_of_ascii c).
Definition chr (z : Z) : ascii := ascii_of_N (Z.to_N z).

Definition str_is_empty (s : string) : bool := match s with EmptyString => true | _ => false end.

(** [s.replace(c, by)] for a one-byte [c]. *)
Definition str_replace (c : ascii) (by_ : string) (s : string) : string :=
  of_chars (flat_map (fun x => if Ascii.eqb x c then chars by_ else [x]) (chars s)).

Definition to_ascii_lowercase (c : ascii) : ascii :=
  if (65 <=? code c) && (code c <=? 90) then chr (code c + 32) else c.

Definition eq_ignore_ascii_case (s t : string) : bool :=
  String.eqb (of_chars (to_ascii_lowercase <$> chars s)) (of_chars (to_ascii_lowercase <$> chars t)).

(** ** [Display] of integers *)

Definition digit_char (d : Z) : ascii := chr (48 + d).

Fixpoint digits (fuel : nat) (n : Z) : list ascii :=
  match fuel with
  | O => []
  | S fuel => if n <? 10 then [digit_char n] else digits fuel (n / 10) ++ [digit_char (n mod 10)]
  end.

(** Enough fuel for [n]: its number of bits. *)
Definition nat_digits (n : Z) : list ascii := digits (S (Z.to_nat (Z.log2 n))) n.

Definition int_to_string (n : Z) : string :=
  if n <? 0 then of_chars ("-"%char :: nat_digits (- n)) else of_chars (nat_digits n).

(** A digit of [{:x}]. *)
Definition hex_digit (d : Z) : ascii := if d <? 10 then chr (48 + d) else chr (87 + d).

(** ** [FromStr] of integers: [core::num::from_str_radix] with radix 10 *)

Inductive IntErrorKind := Empty | InvalidDigit | PosOverflow | NegOverflow.

Definition IntErrorKind_display (e : IntErrorKind) : string :=
  match e with
  | Empty => "cannot parse integer from empty string"
  | InvalidDigit => "invalid digit found in string"
  | PosOverflow => "number too large to fit in target type"
  | NegOverflow => "number too small to fit in target type"
  end.

Definition to_digit (c : ascii) : option Z :=
  if (48 <=? code c) && (code c <=? 57) then Some (code c - 48) else None.

Fixpoint parse_digits (neg : bool) (lo hi acc : Z) (l : list ascii) : result Z IntErrorKind :=
  match l with
  | [] => Ok acc
  | c :: l =>
      let over := if neg then NegOverflow else PosOverflow in
      match to_digit c with
      | None => Err InvalidDigit
      | Some d =>
          match try_from lo hi (acc * 10) with
          | None => Err over
          | Some m =>
              match try_from lo hi (if neg then m - d else m + d) with
              | None => Err over
              | Some acc => parse_digits neg lo hi acc l
              end
          end
      end
  end.

Definition parse_int (lo hi : Z) (s : string) : result Z IntErrorKind :=
  match chars s with
  | [] => Err Empty
  | ["+"%char] | ["-"%char] => Err InvalidDigit
  | "+"%char :: l => parse_digits false lo hi 0 l
  | "-"%char :: l =>
      if lo <? 0 then parse_digits true lo hi 0 l else parse_digits false lo hi 0 (chars s)
  | l => parse_digits false lo hi 0 l
  end.

Definition parse_u16 := parse_int 0 U16_MAX.
Definition parse_u64 := parse_int 0 U64_MAX.
Definition parse_usize := parse_int 0 USIZE_MAX.
Definition parse_i64 := parse_int I64_MIN I64_MAX.

(** ** [Path::new(s).extension()] on Unix *)

Fixpoint split_on (c : ascii) (l : list ascii) : list (list ascii) :=
  match l with
  | [] => [[]]
  | x :: l =>
      match split_on c l with
      | [] => [[x]]
      | w :: ws => if Ascii.eqb x c then [] :: w :: ws else (x :: w) :: ws
      end
  end.

(** Empty and [.] components are skipped; a last [..] is not a file name. *)
Definition path_file_name (s : string) : option (list ascii) :=
  match last (List.filter (fun c => negb (bool_decide (c = []) || bool_decide (c = ["."%char])))
                (split_on "/"%char (chars s))) with
  | Some c => if bool_decide (c = ["."%char; "."%char]) then None else Some c
  | None => None
  end.

(** Split at the last dot: what precedes it, if there is one, and what follows. *)
Fixpoint rsplit_dot (l : list ascii) : option (list ascii) * list ascii :=
  match l with
  | [] => (None, [])
  | x :: l =>
      match rsplit_dot l with
      | (Some before, after) => (Some (x :: before), after)
      | (None, after) => if Ascii.eqb x "."%char then (Some [], after) else (None, x :: after)
      end
  end.

Definition path_extension (s : string) : option string :=
  match path_file_name s with
  | None => None
  | Some file =>
      match rsplit_dot file with
      | (Some (_ :: _), after) => Some (of_chars after)
      | _ => None
      end
  end.

(** ** [std::time::Duration], in nanoseconds *)

Definition Duration := Z.
Definition NANOS_PER_SEC : Z := 1000000000.
Definition from_secs (s : Z) : Duration := s * NANOS_PER_SEC.
Definition from_millis (ms : Z) : Duration := ms * 1000000.
(** [Duration::MAX]: [u64::MAX] seconds and 999999999 nanoseconds. *)
Definition DURATION_MAX : Duration := U64_MAX * NANOS_PER_SEC + 999999999.

(** Decimal digits of [n < 10 ^ k], padded to [k] and without trailing zeros. *)
Fixpoint frac_digits (k : nat) (n : Z) : list ascii :=
  match k with
  | O => []
  | S k =>
      if n =? 0 then []
      else digit_char (n / 10 ^ Z.of_nat k) :: frac_digits k (n mod 10 ^ Z.of_nat k)
  end.

Definition fmt_decimal (int : Z) (k : nat) (frac : Z) (unit : string) : string :=
  int_to_string int +:+
  (if frac =? 0 then "" else "." +:+ of_chars (frac_digits k frac)) +:+ unit.

(** [impl Debug for Duration]; the micro sign is U+00B5. *)
Definition duration_debug (d : Duration) : string :=
  let secs := d / NANOS_PER_SEC in
  let nanos := d mod NANOS_PER_SEC in
  if 0 <? secs then fmt_decimal secs 9 nanos "s"
  else if 1000000 <=? nanos then fmt_decimal (nanos / 1000000) 6 (nanos mod 1000000) "ms"
  else if 1000 <=? nanos then
    fmt_decimal (nanos / 1000) 3 (nanos mod 1000) (of_chars [chr 194; chr 181; "s"%char])
  else fmt_decimal nanos 0 0 "ns".

(** ** Strings and lists of characters *)

Lemma chars_app s t : chars (s +:+ t) = chars s ++ chars t.
Proof. induction s as [|c s IH]; [done|]. simpl. by rewrite <-IH. Qed.

Lemma of_chars_app l k : of_chars (l ++ k) = of_chars l +:+ of_chars k.
Proof. induction l as [|c l IH]; [done|]. simpl. by rewrite IH. Qed.

Lemma chars_of_chars l : chars (of_chars l) = l.
Proof. apply String.list_ascii_of_string_of_list_ascii. Qed.

Lemma of_chars_chars s : of_chars (chars s) = s.
Proof. apply String.string_of_list_ascii_of_string. Qed.

Lemma chars_inj s t : chars s = chars t -> s = t.
Proof. intros H. rewrite <-(of_chars_chars s), <-(of_chars_chars t). by rewrite H. Qed.

Lemma str_app_assoc (s t u : string) : (s +:+ t) +:+ u = s +:+ (t +:+ u).
Proof. apply chars_inj. by rewrite !chars_app, app_assoc. Qed.

Lemma length_chars s : length (chars s) = String.length s.
Proof. induction s; simpl; congruence. Qed.

Lemma str_app_inv_l (s t u : string) : s +:+ t = s +:+ u -> t = u.
Proof. apply (inj (String.append s)). Qed.

Create Rewrite HintDb rust_str.
#[export] Hint Rewrite chars_app of_chars_app chars_of_chars of_chars_chars : rust_str.

Lemma code_range c : 0 <= code c <= 255.
Proof. unfold code. pose proof (N_ascii_bounded c). lia. Qed.

Lemma code_chr z : 0 <= z <= 255 -> code (chr z) = z.
Proof.
  intros Hz. unfold code, chr. rewrite N_ascii_embedding; [|lia]. lia.
Qed.

Lemma chr_code c : chr (code c) = c.
Proof. unfold code, chr. rewrite N2Z.id. apply ascii_N_embedding. Qed.

Lemma code_inj c d : code c = code d -> c = d.
Proof. intros H. by rewrite <-(chr_code c), <-(chr_code d), H. Qed.

(** A boolean property of every number of a range, by enumeration. *)
Lemma forallb_range (P : Z -> bool) lo n :
  forallb P (seqZ lo n) = true -> forall x, lo <= x < lo + n -> P x = true.
Proof.
  intros Hall x Hx. rewrite forallb_forall in Hall. apply Hall.
  apply list_elem_of_In, elem_of_seqZ. lia.
Qed.

(** ** Integers: [parse] inverts [to_string] *)

Lemma to_digit_char d : 0 <= d < 10 -> to_digit (digit_char d) = Some d.
Proof.
  intros Hd. unfold to_digit, digit_char. rewrite code_chr by lia.
  replace ((48 <=? 48 + d) && (48 + d <=? 57)) with true by lia. f_equal; lia.
Qed.

Lemma try_from_in lo hi z : lo <= z <= hi -> try_from lo hi z = Some z.
Proof. intros Hz. unfold try_from. by replace ((lo <=? z) && (z <=? hi)) with true by lia. Qed.

Lemma try_from_Some lo hi z y : try_from lo hi z = Some y <-> y = z /\ lo <= z <= hi.
Proof.
  unfold try_from. destruct ((lo <=? z) && (z <=? hi)) eqn:Hb; split;
    [intros [= <-]; lia|intros [-> _]; done|done|lia].
Qed.

Lemma parse_digits_app neg lo hi acc l k :
  parse_digits neg lo hi acc (l ++ k) =
  match parse_digits neg lo hi acc l with
  | Ok a => parse_digits neg lo hi a k
  | Err e => Err e
  end.
Proof.
  revert acc. induction l as [|c l IH]; intros acc; simpl; [done|].
  destruct (to_digit c); [|done]. destruct (try_from _ _ (acc * 10)); [|done].
  destruct (try_from _ _ _); [apply IH|done].
Qed.

Definition signed (neg : bool) (n : Z) : Z := if neg then - n else n.

Lemma parse_digits_digits fuel neg lo hi n :
  0 <= n < 2 ^ Z.of_nat fuel -> lo <= 0 <= hi -> lo <= signed neg n <= hi ->
  parse_digits neg lo hi 0 (digits fuel n) = Ok (signed neg n).
Proof.
  revert n. induction fuel as [|fuel IH]; intros n Hn Hlh Hr.
  { change (2 ^ Z.of_nat 0) with 1 in Hn. assert (n = 0) as -> by lia. by destruct neg. }
  rewrite Nat2Z.inj_succ, Z.pow_succ_r in Hn by lia.
  simpl. destruct (Z.ltb_spec n 10).
  - simpl. rewrite to_digit_char by lia. rewrite (try_from_in _ _ (0 * 10)) by lia.
    destruct neg; simpl in *; rewrite try_from_in by lia; f_equal; lia.
  - pose proof (Z.div_mod n 10 ltac:(lia)). pose proof (Z.mod_pos_bound n 10 ltac:(lia)).
    assert (lo <= signed neg (n / 10) <= hi) by (destruct neg; simpl in *; lia).
    rewrite parse_digits_app, IH by (destruct neg; simpl in *; lia). simpl.
    rewrite to_digit_char by lia.
    destruct neg; simpl in *; rewrite !try_from_in by lia; f_equal; lia.
Qed.

Lemma digits_nonempty fuel n : digits (S fuel) n <> [].
Proof. simpl. destruct (n <? 10); [done|]. by destruct (digits fuel (n / 10)). Qed.

Lemma digits_decimal fuel n : 0 <= n -> Forall (fun c => 48 <= code c <= 57) (digits fuel n).
Proof.
  revert n. induction fuel as [|fuel IH]; intros n Hn; simpl; [done|].
  pose proof (Z.mod_pos_bound n 10 ltac:(lia)). pose proof (Z.div_pos n 10 ltac:(lia) ltac:(lia)).
  destruct (Z.ltb_spec n 10).
  - apply Forall_singleton. unfold digit_char. rewrite code_chr; lia.
  - apply Forall_app. split; [by apply IH|]. apply Forall_singleton.
    unfold digit_char. rewrite code_chr; lia.
Qed.

Lemma nat_digits_fuel n : 0 <= n -> 0 <= n < 2 ^ Z.of_nat (S (Z.to_nat (Z.log2 n))).
Proof.
  intros Hn. pose proof (Z.log2_nonneg n).
  destruct (Z.eq_dec n 0) as [->|]; [by vm_compute|].
  pose proof (Z.log2_spec n ltac:(lia)).
  rewrite Nat2Z.inj_succ, Z2Nat.id by lia. lia.
Qed.

Lemma parse_nat_digits neg lo hi n :
  0 <= n -> lo <= 0 <= hi -> lo <= signed neg n <= hi ->
  parse_digits neg lo hi 0 (nat_digits n) = Ok (signed neg n).
Proof. intros. apply parse_digits_digits; [by apply nat_digits_fuel|done..]. Qed.

(** Text that starts with a digit is parsed as digits. *)
Lemma parse_int_digits lo hi c l :
  48 <= code c <= 57 -> parse_int lo hi (of_chars (c :: l)) = parse_digits false lo hi 0 (c :: l).
Proof.
  intros Hc. unfold parse_int. rewrite chars_of_chars.
  destruct (Ascii.eqb_spec c "+"); [subst; change (code _) with 43 in Hc; lia|].
  destruct (Ascii.eqb_spec c "-"); [subst; change (code _) with 45 in Hc; lia|].
  destruct c as [[] [] [] [] [] [] [] []]; destruct l; done.
Qed.

Lemma int_to_string_roundtrip lo hi n :
  lo <= 0 <= hi -> lo <= n <= hi -> parse_int lo hi (int_to_string n) = Ok n.
Proof.
  intros Hlh Hn. unfold int_to_string. destruct (Z.ltb_spec n 0).
  - pose proof (parse_nat_digits true lo hi (-n) ltac:(lia) Hlh ltac:(simpl; lia)) as Hp.
    unfold parse_int. rewrite chars_of_chars.
    destruct (nat_digits (-n)) as [|c l] eqn:Hd; [by destruct (digits_nonempty _ _ Hd)|].
    replace (lo <? 0) with true by lia. rewrite Hp. simpl. f_equal; lia.
  - pose proof (parse_nat_digits false lo hi n ltac:(lia) Hlh Hn) as Hp.
    pose proof (digits_decimal (S (Z.to_nat (Z.log2 n))) n ltac:(lia)) as Hf.
    change (digits _ n) with (nat_digits n) in Hf.
    destruct (nat_digits n) as [|c l] eqn:Hd; [by destruct (digits_nonempty _ _ Hd)|].
    apply Forall_cons in Hf as [Hc _]. by rewrite parse_int_digits.
Qed.

Lemma int_to_string_digits n : 0 <= n -> Forall (fun c => 48 <= code c <= 57) (chars (int_to_string n)).
Proof.
  intros Hn. unfold int_to_string. replace (n <? 0) with false by lia. rewrite chars_of_chars.
  by apply digits_decimal.
Qed.

(** Distinct integers print differently. *)
Lemma int_to_string_inj n m : int_to_string n = int_to_string m -> n = m.
Proof.
  intros H. set (b := Z.abs n + Z.abs m).
  pose proof (int_to_string_roundtrip (-b) b n ltac:(lia) ltac:(lia)) as Hn.
  pose proof (int_to_string_roundtrip (-b) b m ltac:(lia) ltac:(lia)) as Hm.
  congruence.
Qed.

(** ** Paths *)

Lemma split_on_notin c l : c ∉ l -> split_on c l = [l].
Proof.
  induction l as [|x l IH]; [done|]. intros [Hx Hl]%not_elem_of_cons. simpl.
  rewrite IH by done. by destruct (Ascii.eqb_spec x c) as [->|].
Qed.

Lemma split_on_app c l1 l2 :
  c ∉ l2 -> exists ws w, split_on c l1 = ws ++ [w] /\ split_on c (l1 ++ l2) = ws ++ [w ++ l2].
Proof.
  intros Hl2. induction l1 as [|x l1 (ws & w & H1 & H2)]; simpl.
  - exists [], []. by rewrite split_on_notin.
  - rewrite H1, H2. destruct ws as [|w' ws]; simpl; destruct (Ascii.eqb x c).
    + by exists [[]], w.
    + by exists [], (x :: w).
    + by exists ([] :: w' :: ws), w.
    + by exists ((x :: w') :: ws), w.
Qed.

Lemma rsplit_dot_app l1 l2 : "."%char ∉ l2 -> rsplit_dot (l1 ++ "."%char :: l2) = (Some l1, l2).
Proof.
  intros Hl2. assert (rsplit_dot l2 = (None, l2)) as Hn.
  { induction l2 as [|x l2 IH]; [done|]. apply not_elem_of_cons in Hl2 as [Hx Hl2]. simpl.
    rewrite IH by done. by destruct (Ascii.eqb_spec x ".") as [->|]. }
  induction l1 as [|x l1 IH]; simpl; [by rewrite Hn|by rewrite IH].
Qed.

(** A name that ends in [c.ext], [c] not a separator, has the extension [ext]. *)
Lemma path_extension_app p c ext :
  c <> "/"%char -> "/"%char ∉ chars ext -> "."%char ∉ chars ext -> ext <> "" ->
  path_extension (p +:+ String c "" +:+ "." +:+ ext) = Some ext.
Proof.
  intros Hc Hs Hd He. unfold path_extension, path_file_name.
  rewrite !chars_app. change (chars (String c "")) with [c]. change (chars ".") with ["."%char].
  destruct (split_on_app "/" (chars p) ([c] ++ ["."%char] ++ chars ext)) as (ws & w & _ & ->).
  { rewrite !not_elem_of_app, !list_elem_of_singleton. naive_solver. }
  rewrite List.filter_app. simpl.
  destruct (chars ext) as [|e es] eqn:Hext.
  { destruct He. apply chars_inj. by rewrite Hext. }
  assert (forall k, w ++ c :: "."%char :: e :: es <> k \/ 3 <= length k)%nat as Hlen.
  { intros k. destruct (decide (3 <= length k)%nat); [by right|]. left. intros <-.
    rewrite length_app in *. simpl in *. lia. }
  rewrite bool_decide_false by (destruct w; done).
  rewrite bool_decide_false by (destruct (Hlen ["."%char]); [done|simpl in *; lia]).
  simpl. rewrite last_snoc.
  destruct (Hlen ["."%char; "."%char]) as [Hne|]; [|simpl in *; lia].
  rewrite bool_decide_false by done.
  change (w ++ c :: "."%char :: e :: es) with (w ++ [c] ++ "."%char :: e :: es).
  rewrite (app_assoc w), rsplit_dot_app by done.
  destruct (w ++ [c]) eqn:Hw; [by destruct w|]. rewrite <-Hext. by rewrite of_chars_chars.
Qed.
