(* ===== verification/Url.v ===== *)
(** * URLs: the [url], [form_urlencoded], [percent-encoding] and [http] crates

    What the Drive client makes of a URL with a query: parsing (the path with
    its dot segments, the query, the fragment), adding parameters, and the
    check of the [http] crate on the text that is sent.  The scheme is always
    [http] or [https]; scheme, host and port are kept as one text, the origin.
    Everything works on the bytes of UTF-8 strings: the characters the parsers
    look for are single bytes. *)

From Stdlib Require Import ZArith Lia Ascii.
From stdpp Require Import base numbers gmap sorting strings list.
From S2P Require Import Prelude RustStd.
Open Scope Z_scope.

Definition one_of (l : list Z) (c : ascii) : bool := existsb (Z.eqb (code c)) l.

(** ** Percent-encoding *)

(** [{:X}] of a digit. *)
Definition hex_upper (d : Z) : ascii := if d <? 10 then chr (48 + d) else chr (55 + d).

Definition percent_encode_byte (c : ascii) : list ascii :=
  ["%"%char; hex_upper (code c / 16); hex_upper (code c mod 16)].

(** An [AsciiSet] is a predicate; bytes that are not ASCII are always encoded. *)
Definition percent_encode_one (set : ascii -> bool) (c : ascii) : list ascii :=
  if (128 <=? code c) || set c then percent_encode_byte c else [c].

Definition percent_encode (set : ascii -> bool) (l : list ascii) : list ascii :=
  flat_map (percent_encode_one set) l.

Definition CONTROLS (c : ascii) : bool := (code c <? 32) || (code c =? 127).
(* space, quote, <, >, backquote *)
Definition FRAGMENT (c : ascii) : bool := CONTROLS c || one_of [32; 34; 60; 62; 96] c.
(* #, ?, braces *)
Definition PATH (c : ascii) : bool := FRAGMENT c || one_of [35; 63; 123; 125] c.
Definition QUERY (c : ascii) : bool := CONTROLS c || one_of [32; 34; 35; 60; 62] c.
(* and the apostrophe *)
Definition SPECIAL_QUERY (c : ascii) : bool := QUERY c || one_of [39] c.

(** ** Parsing *)

Record Url := mkUrl {
  origin : list ascii;
  url_path : list ascii;
  url_query : option (list ascii);
  url_fragment : option (list ascii);
}.

Definition tab_or_new_line (c : ascii) : bool := one_of [9; 10; 13] c.
Definition slash : ascii := "/"%char.
Definition is_slash (c : ascii) : bool := one_of [47; 92] c.
Definition query_or_fragment (c : ascii) : bool := one_of [63; 35] c.

Definition ends_with_slash (l : list ascii) : bool :=
  match rev l with c :: _ => Ascii.eqb c slash | [] => false end.

(** What is left after the last slash is cut off, that slash included. *)
Fixpoint after_slash (r : list ascii) : list ascii :=
  match r with [] => [] | c :: r => if Ascii.eqb c slash then c :: r else after_slash r end.

Definition double_dot (seg : list ascii) : bool :=
  bool_decide (of_chars seg ∈ ["..";"%2e%2e";"%2e%2E";"%2E%2e";"%2E%2E";"%2e.";"%2E.";".%2e";".%2E"]%string).
Definition single_dot (seg : list ascii) : bool := bool_decide (of_chars seg ∈ [".";"%2e";"%2E"]%string).

(** [/c:] at the start of [l]; checked for every scheme. *)
Definition ascii_alpha (c : ascii) : bool :=
  ((65 <=? code c) && (code c <=? 90)) || ((97 <=? code c) && (code c <=? 122)).
Definition drive_letter (l : list ascii) : bool :=
  match l with
  | a :: b :: l =>
      ascii_alpha a && one_of [58; 124] b &&
      match l with [] => true | c :: _ => one_of [47; 92; 63; 35] c end
  | _ => false
  end.

(** [last_slash_can_be_removed], on a path that ends with a slash: the last
    segment, with the slash before it, is there and is no drive letter. *)
Definition last_slash_can_be_removed (path : list ascii) : bool :=
  match after_slash (tl (rev path)) with
  | [] => false
  | before => negb (drive_letter (drop (length before) path))
  end.

(** [shorten_path] and [pop_path]: the last segment goes. *)
Definition shorten_path (path : list ascii) : list ascii := rev (after_slash (rev path)).

(** The end of a segment: [path] ends where it starts. *)
Definition end_segment (path seg : list ascii) (slashed : bool) : list ascii :=
  if double_dot seg then
    let path := if ends_with_slash path && last_slash_can_be_removed path
                then rev (tl (rev path)) else path in
    let path := shorten_path path in
    if slashed && negb (ends_with_slash path) then path ++ [slash] else path
  else if single_dot seg then
    if negb (ends_with_slash path) then path ++ [slash] else path
  else path ++ seg ++ (if slashed then [slash] else []).

(** [parse_path]: the path and the input that is left. *)
Fixpoint parse_path (path seg input : list ascii) : list ascii * list ascii :=
  match input with
  | [] => (end_segment path seg false, [])
  | c :: rest =>
      if tab_or_new_line c then parse_path path seg rest
      else if is_slash c then parse_path (end_segment path seg true) [] rest
      else if query_or_fragment c then (end_segment path seg false, input)
      else parse_path path (seg ++ percent_encode_one PATH c) rest
  end.

(** [parse_query]: the query and, after a [#], the input that is left. *)
Fixpoint parse_query (input : list ascii) : list ascii * option (list ascii) :=
  match input with
  | [] => ([], None)
  | c :: rest =>
      if tab_or_new_line c then parse_query rest
      else if code c =? 35 then ([], Some rest)
      else let '(q, r) := parse_query rest in (percent_encode_one SPECIAL_QUERY c ++ q, r)
  end.

Definition parse_fragment (input : list ascii) : list ascii :=
  percent_encode FRAGMENT (List.filter (fun c => negb (tab_or_new_line c)) input).

Definition parse_query_and_fragment (input : list ascii) : option (list ascii) * option (list ascii) :=
  match input with
  | [] => (None, None)
  | c :: rest =>
      if code c =? 63 then
        let '(q, r) := parse_query rest in (Some q, parse_fragment <$> r)
      else (None, Some (parse_fragment rest))
  end.

(** [trim_matches(c0_control_or_space)], at the end: the text starts with the
    scheme. *)
Fixpoint trim_front (l : list ascii) : list ascii :=
  match l with [] => [] | c :: r => if code c <=? 32 then trim_front r else l end.
Definition trim_end_c0 (l : list ascii) : list ascii := rev (trim_front (rev l)).

(** [parse_path_start]: one slash, whether there is one or not. *)
Definition parse_path_start (input : list ascii) : list ascii * list ascii :=
  match input with
  | c :: rest => if is_slash c then parse_path [slash] [] rest else parse_path [slash] [] input
  | [] => parse_path [slash] [] input
  end.

(** [Url::parse] of [origin] followed by [rest]. *)
Definition parse_url (origin rest : list ascii) : Url :=
  let '(path, rest) := parse_path_start (trim_end_c0 rest) in
  let '(query, fragment) := parse_query_and_fragment rest in
  mkUrl origin path query fragment.

(** ** Parameters: [query_pairs_mut().extend_pairs(..)] *)

Definition byte_serialized_unchanged (c : ascii) : bool :=
  one_of [42; 45; 46; 95] c || ((48 <=? code c) && (code c <=? 57)) || ascii_alpha c.

Definition byte_serialize (l : list ascii) : list ascii :=
  flat_map (fun c => if byte_serialized_unchanged c then [c]
                     else if code c =? 32 then ["+"%char] else percent_encode_byte c) l.

Definition append_pair (query : list ascii) (p : string * string) : list ascii :=
  query ++ (match query with [] => [] | _ => ["&"%char] end) ++
  byte_serialize (chars p.1) ++ ["="%char] ++ byte_serialize (chars p.2).

Definition extend_pairs (u : Url) (params : list (string * string)) : Url :=
  mkUrl (origin u) (url_path u) (Some (foldl append_pair (default [] (url_query u)) params)) (url_fragment u).

Definition parse_with_params (origin rest : list ascii) (params : list (string * string)) : Url :=
  extend_pairs (parse_url origin rest) params.

(** ** The text, and what [http::Uri] makes of it *)

Definition target (u : Url) : list ascii :=
  url_path u ++ match url_query u with Some q => "?"%char :: q | None => [] end.

Definition url_as_str (u : Url) : list ascii :=
  origin u ++ target u ++ match url_fragment u with Some f => "#"%char :: f | None => [] end.

Definition MAX_LEN : Z := 65535 - 1.

(** The classes of [scan_path_and_query]. *)
Definition path_valid (c : ascii) : bool :=
  let n := code c in
  (n =? 33) || ((36 <=? n) && (n <=? 59)) || (n =? 61) || ((64 <=? n) && (n <=? 95)) ||
  ((97 <=? n) && (n <=? 122)) || (n =? 124) || (n =? 126) || one_of [34; 123; 125] c.
Definition query_valid (c : ascii) : bool :=
  let n := code c in
  (n =? 33) || ((36 <=? n) && (n <=? 59)) || (n =? 61) || ((63 <=? n) && (n <=? 126)).

Fixpoint scan_query (l : list ascii) : bool :=
  match l with [] => true | c :: l => (code c =? 35) || (query_valid c && scan_query l) end.
Fixpoint scan_path (l : list ascii) : bool :=
  match l with
  | [] => true
  | c :: l =>
      if code c =? 63 then scan_query l else (code c =? 35) || (path_valid c && scan_path l)
  end.

(** [Uri::try_from(url.as_str())] succeeds.  The bytes above 127 that the scan
    would leave to a UTF-8 check do not occur. *)
Definition uri_ok (u : Url) : bool :=
  (Z.of_nat (length (url_as_str u)) <=? MAX_LEN) &&
  let rest := drop (length (origin u)) (url_as_str u) in
  match rest with c :: _ => one_of [47; 63; 35] c | [] => false end && scan_path rest.

(** ** Specification: how a server reads a query

    The [application/x-www-form-urlencoded] parser of the URL standard. *)

Definition hex_value (c : ascii) : option Z :=
  let n := code c in
  if (48 <=? n) && (n <=? 57) then Some (n - 48)
  else if (65 <=? n) && (n <=? 70) then Some (n - 55)
  else if (97 <=? n) && (n <=? 102) then Some (n - 87) else None.

Fixpoint percent_decode (l : list ascii) : list ascii :=
  match l with
  | [] => []
  | c :: l =>
      match l with
      | h :: k :: rest =>
          match (if Ascii.eqb c "%" then hex_value h else None), hex_value k with
          | Some a, Some b => chr (16 * a + b) :: percent_decode rest
          | _, _ => c :: percent_decode l
          end
      | _ => c :: percent_decode l
      end
  end.

Definition form_decode (l : list ascii) : string :=
  of_chars (percent_decode ((fun c => if Ascii.eqb c "+" then " "%char else c) <$> l)).

Fixpoint cut_at (c : ascii) (l : list ascii) : list ascii * list ascii :=
  match l with
  | [] => ([], [])
  | x :: l => if Ascii.eqb x c then ([], l) else let '(a, b) := cut_at c l in (x :: a, b)
  end.

Definition form_pair (l : list ascii) : string * string :=
  let '(a, b) := cut_at "="%char l in (form_decode a, form_decode b).

Definition form_parse (l : list ascii) : list (string * string) :=
  form_pair <$> List.filter (fun s => match s with [] => false | _ => true end) (split_on "&"%char l).

(** ** Facts *)

(** A statement about one byte, checked on all of them. *)
Ltac every_byte c := destruct c as [[] [] [] [] [] [] [] []]; vm_compute; done.

Definition serialize_one (c : ascii) : list ascii :=
  if byte_serialized_unchanged c then [c] else if code c =? 32 then ["+"%char] else percent_encode_byte c.

Lemma byte_serialize_one l : byte_serialize l = flat_map serialize_one l.
Proof. done. Qed.

Definition unplus (c : ascii) : ascii := if Ascii.eqb c "+" then " "%char else c.

Lemma percent_decode_one c l : percent_decode ((unplus <$> serialize_one c) ++ l) = c :: percent_decode l.
Proof. destruct c as [[] [] [] [] [] [] [] []], l as [|h [|k l]]; reflexivity. Qed.

Lemma form_decode_serialize l : form_decode (byte_serialize l) = of_chars l.
Proof.
  unfold form_decode. fold unplus. f_equal. rewrite byte_serialize_one.
  induction l as [|c l IH]; [done|]. cbn [flat_map]. by rewrite fmap_app, percent_decode_one, IH.
Qed.

Lemma serialize_one_safe c x : x ∈ serialize_one c -> query_valid x = true /\ x <> "&"%char /\ x <> "="%char /\ x <> "#"%char.
Proof.
  intros Hx. assert (forallb (fun x => query_valid x && negb (Ascii.eqb x "&") && negb (Ascii.eqb x "=") &&
    negb (Ascii.eqb x "#")) (serialize_one c) = true) as Hall by (clear Hx; every_byte c).
  rewrite forallb_forall in Hall. specialize (Hall x (proj1 (list_elem_of_In _ _) Hx)).
  rewrite !andb_true_iff, !negb_true_iff, !Ascii.eqb_neq in Hall. naive_solver.
Qed.

Lemma byte_serialize_safe l x : x ∈ byte_serialize l -> query_valid x = true /\ x <> "&"%char /\ x <> "="%char /\ x <> "#"%char.
Proof.
  rewrite byte_serialize_one, list_elem_of_In, in_flat_map. intros (c & _ & Hx).
  by eapply serialize_one_safe, list_elem_of_In.
Qed.

Lemma cut_at_app c l k : c ∉ l -> cut_at c (l ++ c :: k) = (l, k).
Proof.
  induction l as [|x l IH]; simpl.
  - by rewrite Ascii.eqb_refl.
  - intros [Hx Hl]%not_elem_of_cons. rewrite IH by done. by destruct (Ascii.eqb_spec x c) as [->|].
Qed.

Lemma split_on_cons c l : exists w ws, split_on c l = w :: ws.
Proof.
  induction l as [|x l (w & ws & IH)]; simpl; [eauto|]. rewrite IH. destruct (Ascii.eqb x c); eauto.
Qed.

Lemma split_on_sep c l k : split_on c (l ++ c :: k) = split_on c l ++ split_on c k.
Proof.
  induction l as [|x l IH]; simpl.
  - destruct (split_on_cons c k) as (w & ws & ->). by rewrite Ascii.eqb_refl.
  - rewrite IH. destruct (split_on_cons c l) as (w & ws & ->). simpl. by destruct (Ascii.eqb x c).
Qed.

(** A parameter that is appended is read back, after what was there before. *)
Lemma form_parse_append query p : form_parse (append_pair query p) = form_parse query ++ [p].
Proof.
  destruct p as [n v]. unfold append_pair. cbn [fst snd].
  set (pair := byte_serialize (chars n) ++ ["="%char] ++ byte_serialize (chars v)).
  assert (form_parse pair = [(n, v)]) as Hpair.
  { unfold form_parse. rewrite split_on_notin.
    - destruct pair as [|x l] eqn:Hp; [by apply app_eq_nil in Hp as [_ ?]|]. cbn [List.filter fmap list_fmap].
      rewrite <-Hp. unfold pair, form_pair. cbn [app]. rewrite cut_at_app.
      + by rewrite !form_decode_serialize, !of_chars_chars.
      + intros Hin. by apply byte_serialize_safe in Hin as (_ & _ & ? & _).
    - unfold pair. intros Hin. rewrite !elem_of_app, list_elem_of_singleton in Hin.
      destruct Hin as [Hin|[Hin|Hin]]; [|discriminate|];
        by apply byte_serialize_safe in Hin as (_ & ? & _ & _). }
  destruct query as [|x l]; [by cbn [app]|]. rewrite <-Hpair. unfold form_parse.
  cbn [app]. rewrite app_comm_cons, split_on_sep, List.filter_app, fmap_app. done.
Qed.

Lemma params_read_back origin rest params :
  form_parse (default [] (url_query (parse_with_params origin rest params))) =
  form_parse (default [] (url_query (parse_url origin rest))) ++ params.
Proof.
  unfold parse_with_params, extend_pairs. cbn [url_query default from_option id].
  generalize (default [] (url_query (parse_url origin rest))). intros q.
  change (form_parse (foldl append_pair q params) = form_parse q ++ params). revert q.
  induction params as [|p params IH]; intros q; simpl; [by rewrite app_nil_r|].
  by rewrite IH, form_parse_append, <-app_assoc.
Qed.

(** *** The texts that are built are ones the [http] crate takes *)

Definition good_path (c : ascii) : Prop := path_valid c = true /\ query_or_fragment c = false.
Definition good_query (c : ascii) : Prop := query_valid c = true /\ code c <> 35.

Definition rooted (path : list ascii) : Prop := exists l, path = slash :: l.

Lemma after_slash_app r : exists k, after_slash (r ++ [slash]) = k ++ [slash].
Proof.
  induction r as [|c r [k IH]]; simpl; [by exists []|]. destruct (Ascii.eqb c slash); [|by exists k].
  by exists (c :: r).
Qed.

Lemma after_slash_Forall (P : ascii -> Prop) r : Forall P r -> Forall P (after_slash r).
Proof. induction 1 as [|c r Hc Hr IH]; simpl; [done|]. destruct (Ascii.eqb c slash); [by constructor|done]. Qed.

Lemma shorten_path_rooted path : rooted path -> rooted (shorten_path path).
Proof.
  intros [l ->]. unfold shorten_path. cbn [rev]. destruct (after_slash_app (rev l)) as [k ->].
  rewrite rev_unit. by eexists.
Qed.

Lemma removed_slash_rooted path :
  rooted path -> last_slash_can_be_removed path = true -> rooted (rev (tl (rev path))).
Proof.
  intros [l ->]. unfold last_slash_can_be_removed. cbn [rev]. destruct (rev l) as [|c r]; [done|]. intros _.
  cbn [app tl]. rewrite rev_unit. by eexists.
Qed.

Lemma rooted_app path l : rooted path -> rooted (path ++ l).
Proof. intros [k ->]. by eexists. Qed.

Lemma end_segment_rooted path seg slashed : rooted path -> rooted (end_segment path seg slashed).
Proof.
  intros Hp. unfold end_segment. destruct (double_dot seg); [|destruct (single_dot seg)].
  - set (path' := if ends_with_slash path && last_slash_can_be_removed path then rev (tl (rev path)) else path).
    assert (rooted path') as Hp'.
    { unfold path'. destruct (_ && _) eqn:Hr; [|done]. apply andb_true_iff in Hr as [_ Hr].
      by apply removed_slash_rooted. }
    destruct (slashed && _); [apply rooted_app|]; by apply shorten_path_rooted.
  - destruct (negb _); [by apply rooted_app|done].
  - by apply rooted_app.
Qed.

Lemma end_segment_Forall (P : ascii -> Prop) path seg slashed :
  P slash -> Forall P path -> Forall P seg -> Forall P (end_segment path seg slashed).
Proof.
  intros Hs Hp Hseg. assert (forall l, Forall P l -> Forall P (rev (tl (rev l)))) as Htl.
  { intros l Hl. apply Forall_rev. destruct (rev l) as [|c r] eqn:Hr; [done|]. simpl.
    apply Forall_rev in Hl. rewrite Hr in Hl. by inversion Hl. }
  assert (forall l, Forall P l -> Forall P (shorten_path l)) as Hsh.
  { intros l Hl. by apply Forall_rev, after_slash_Forall, Forall_rev. }
  unfold end_segment. repeat case_match; rewrite ?Forall_app, ?Forall_singleton; auto.
Qed.

Lemma parse_path_ok path seg input :
  rooted path -> Forall good_path path -> Forall good_path seg ->
  rooted (parse_path path seg input).1 /\ Forall good_path (parse_path path seg input).1 /\
  match (parse_path path seg input).2 with [] => True | c :: _ => query_or_fragment c = true end.
Proof.
  assert (good_path slash) as Hs by done.
  revert path seg. induction input as [|c input IH]; intros path seg Hr Hp Hseg; cbn [parse_path].
  - cbn [fst snd]. auto using end_segment_rooted, end_segment_Forall.
  - destruct (tab_or_new_line c) eqn:Ht; [by apply IH|]. destruct (is_slash c) eqn:Hsl.
    { apply IH; auto using end_segment_rooted, end_segment_Forall. }
    destruct (query_or_fragment c) eqn:Hq.
    { cbn [fst snd]. auto using end_segment_rooted, end_segment_Forall. }
    apply IH; [done..|]. apply Forall_app. split; [done|].
    assert (forallb (fun x => path_valid x && negb (query_or_fragment x)) (percent_encode_one PATH c) = true) as Hall
      by (clear -Ht Hsl Hq; destruct c as [[] [] [] [] [] [] [] []]; vm_compute in *; done).
    rewrite forallb_forall in Hall. apply Forall_forall. intros x Hx%list_elem_of_In%Hall.
    apply andb_true_iff in Hx as [? ?%negb_true_iff]. by split.
Qed.

Lemma parse_query_ok input : Forall good_query (parse_query input).1.
Proof.
  induction input as [|c input IH]; cbn [parse_query]; [done|].
  destruct (tab_or_new_line c) eqn:Ht; [done|]. destruct (code c =? 35) eqn:Hc; [done|].
  destruct (parse_query input) as [q r]. cbn [fst] in *. apply Forall_app. split; [|done].
  assert (forallb (fun x => query_valid x && negb (code x =? 35)) (percent_encode_one SPECIAL_QUERY c) = true) as Hall
    by (clear -Ht Hc; destruct c as [[] [] [] [] [] [] [] []]; vm_compute in *; done).
  rewrite forallb_forall in Hall. apply Forall_forall. intros x Hx%list_elem_of_In%Hall.
  apply andb_true_iff in Hx as [? ?%negb_true_iff%Z.eqb_neq]. by split.
Qed.

Lemma append_pair_ok query p : Forall good_query query -> Forall good_query (append_pair query p).
Proof.
  assert (forall l, Forall good_query (byte_serialize l)) as Hser.
  { intros l. apply Forall_forall. intros x (Hv & _ & _ & Hx)%byte_serialize_safe. split; [done|].
    intros Hc. by apply Hx, code_inj. }
  intros Hq. unfold append_pair. rewrite !Forall_app, Forall_singleton. split_and!; auto; try done.
  by destruct query; [|apply Forall_singleton].
Qed.

Lemma scan_query_ok q f : Forall good_query q -> scan_query (q ++ match f with Some f => "#"%char :: f | None => [] end) = true.
Proof.
  induction 1 as [|c q [Hv Hc] _ IH]; simpl; [by destruct f|]. rewrite Hv, IH. by destruct (_ =? 35).
Qed.

Lemma scan_path_ok path q f :
  Forall good_path path -> Forall good_query q ->
  scan_path (path ++ "?"%char :: q ++ match f with Some f => "#"%char :: f | None => [] end) = true.
Proof.
  intros Hp Hq. induction Hp as [|c path [Hv Hc] _ IH]; simpl; [by apply scan_query_ok|].
  rewrite Hv, IH. unfold query_or_fragment, one_of in Hc. simpl in Hc.
  apply orb_false_iff in Hc as [-> Hc]. by destruct (_ =? 35).
Qed.

(** The parts of a URL that was built. *)
Lemma parse_with_params_ok o rest params :
  let u := parse_with_params o rest params in
  origin u = o /\ rooted (url_path u) /\ Forall good_path (url_path u) /\
  exists q, url_query u = Some q /\ Forall good_query q.
Proof.
  unfold parse_with_params, parse_url, parse_path_start.
  assert (Forall good_path [slash]) as Hs by (by apply Forall_singleton).
  assert (rooted [slash]) as Hr by by eexists.
  set (input := trim_end_c0 rest).
  set (pp := match input with _ :: _ => _ | [] => _ end).
  assert (rooted pp.1 /\ Forall good_path pp.1) as [Hpr Hpp].
  { unfold pp. destruct input as [|c l]; [|destruct (is_slash c)];
      (edestruct parse_path_ok as (? & ? & _); [exact Hr|exact Hs|apply Forall_nil_2|by split]). }
  destruct pp as [path left]. cbn [fst] in *.
  destruct (parse_query_and_fragment left) as [q f] eqn:Hqf. cbn. split_and!; [done..|].
  eexists. split; [done|].
  assert (Forall good_query (default [] q)) as Hq.
  { destruct left as [|c left]; cbn in Hqf; [by simplify_eq|]. destruct (code c =? 63); [|by simplify_eq].
    pose proof (parse_query_ok left) as Hok. destruct (parse_query left). by simplify_eq. }
  revert Hq. generalize (default [] q). induction params as [|p params IH]; intros l Hl; [done|].
  cbn [foldl]. by apply IH, append_pair_ok.
Qed.

(** The [http] crate refuses a URL only for its length. *)
Lemma uri_ok_length o rest params :
  let u := parse_with_params o rest params in
  uri_ok u = (Z.of_nat (length (url_as_str u)) <=? MAX_LEN).
Proof.
  destruct (parse_with_params_ok o rest params) as (Ho & [l Hl] & Hp & q & Hq & Hgq).
  set (u := parse_with_params o rest params) in *. cbv zeta.
  unfold uri_ok. replace (drop (length (origin u)) (url_as_str u)) with
    (url_path u ++ "?"%char :: q ++ match url_fragment u with Some f => "#"%char :: f | None => [] end).
  - rewrite scan_path_ok by done. rewrite Hl. cbn. by rewrite !andb_true_r.
  - unfold url_as_str, target. rewrite drop_app_length, Hq, <-app_assoc. done.
Qed.

(** *** Plain ids *)

(** The characters of the ids Drive gives out. *)
Definition plain_char (c : ascii) : bool :=
  ascii_alpha c || ((48 <=? code c) && (code c <=? 57)) || one_of [45; 95] c.

Definition plain (s : string) : bool := forallb plain_char (chars s).

Lemma plain_char_path c :
  plain_char c = true ->
  tab_or_new_line c = false /\ is_slash c = false /\ query_or_fragment c = false /\
  percent_encode_one PATH c = [c] /\ c <> "."%char /\ c <> "%"%char /\ (code c <=? 32) = false.
Proof. destruct c as [[] [] [] [] [] [] [] []]; vm_compute; intros H; try discriminate H; done. Qed.

Lemma no_dots l : "."%char ∉ l -> "%"%char ∉ l -> double_dot l = false /\ single_dot l = false.
Proof.
  intros Hd Hp. unfold double_dot, single_dot. split; apply bool_decide_eq_false; intros Hin.
  all: repeat match type of Hin with _ ∈ _ :: _ => apply elem_of_cons in Hin as [Hin|Hin] end.
  all: try by apply not_elem_of_nil in Hin.
  all: apply (f_equal String.list_ascii_of_string) in Hin; rewrite chars_of_chars in Hin; subst l.
  all: first [apply Hd; apply (bool_decide_unpack _); by vm_compute|apply Hp; apply (bool_decide_unpack _); by vm_compute].
Qed.

(** A last segment of plain characters, before the end or a query. *)
Lemma parse_path_segment path seg l rest :
  forallb plain_char l = true -> "."%char ∉ seg -> "%"%char ∉ seg ->
  match rest with [] => True | c :: _ => c = "?"%char end ->
  parse_path path seg (l ++ rest) = (path ++ seg ++ l, rest).
Proof.
  intros Hl Hd Hp Hr. revert seg Hl Hd Hp. induction l as [|c l IH]; intros seg; cbn [parse_path forallb app].
  - intros _ Hd Hp. destruct rest as [|c rest]; [|subst c]; cbn [parse_path];
      unfold end_segment; destruct (no_dots seg Hd Hp) as [Hdd Hsd]; cbn; by rewrite ?Hdd, ?Hsd.
  - intros [Hc Hl]%andb_true_iff Hd Hp. destruct (plain_char_path c Hc) as (-> & -> & -> & -> & ? & ? & _).
    rewrite IH; [by rewrite <-app_assoc|done|set_solver..].
Qed.

Lemma parse_path_plain path seg l :
  forallb plain_char l = true -> "."%char ∉ seg -> "%"%char ∉ seg ->
  parse_path path seg l = (path ++ seg ++ l, []).
Proof. intros. rewrite <-(app_nil_r l) at 1. by apply parse_path_segment. Qed.

Lemma plain_app a b : plain (a +:+ b) = plain a && plain b.
Proof. unfold plain. by rewrite chars_app, forallb_app. Qed.

Lemma int_to_string_plain n : 0 <= n -> plain (int_to_string n) = true.
Proof.
  intros Hd%int_to_string_digits. rewrite Forall_forall in Hd. apply forallb_forall.
  intros c Hc%list_elem_of_In%Hd. unfold plain_char. lia.
Qed.
