(* ===== verification/Md5.v ===== *)
(** * The [md-5] crate

    What the storage asks of MD5, as a class: a hasher that is fed piece by
    piece, with the law that only the concatenation of the pieces matters; and
    the crate's implementation, on 32-bit words with wrap-around, with its block
    buffer and padding, which meets the law. *)

From Stdlib Require Import ZArith Lia Ascii.
From stdpp Require Import base numbers strings list.
From S2P Require Import Prelude RustStd.
Open Scope Z_scope.

(** ** The interface *)

Class Md5 := {
  Hasher : Type;
  Md5_new : Hasher;
  Md5_update : Hasher -> bytes -> Hasher;
  Md5_finalize : Hasher -> bytes;
  Md5_update_nil : Md5_update Md5_new [] = Md5_new;
  Md5_update_app : forall a b, Md5_update (Md5_update Md5_new a) b = Md5_update Md5_new (a ++ b);
}.

(** [Md5::digest]. *)
Definition md5_digest `{Md5} (b : bytes) : bytes := Md5_finalize (Md5_update Md5_new b).

(** ** The implementation *)

Module Crate.

(** *** Words of 32 bits *)

Definition WORD : Z := 4294967296.
Definition wrapping_add (a b : Z) : Z := (a + b) mod WORD.
Definition word_not (a : Z) : Z := U32_MAX - a.
Definition rotate_left (a s : Z) : Z := Z.lor (Z.shiftl a s mod WORD) (Z.shiftr a (32 - s)).

Definition from_le_bytes (l : bytes) : Z := foldr (fun c acc => code c + 256 * acc) 0 l.
Fixpoint to_le_bytes (n : nat) (v : Z) : bytes :=
  match n with O => [] | S n => chr (v mod 256) :: to_le_bytes n (v / 256) end.

(** *** The compression function *)

(** What all four rounds do with the value of their function. *)
Definition op_with (f w x m c s : Z) : Z :=
  wrapping_add (rotate_left (wrapping_add (wrapping_add (wrapping_add f w) m) c) s) x.

Definition op_f (w x y z m c s : Z) : Z := op_with (Z.lor (Z.land x y) (Z.land (word_not x) z)) w x m c s.
Definition op_g (w x y z m c s : Z) : Z := op_with (Z.lor (Z.land x z) (Z.land y (word_not z))) w x m c s.
Definition op_h (w x y z m c s : Z) : Z := op_with (Z.lxor (Z.lxor x y) z) w x m c s.
Definition op_i (w x y z m c s : Z) : Z := op_with (Z.lxor y (Z.lor x (word_not z))) w x m c s.

Definition RC : list Z :=
  [0xd76aa478; 0xe8c7b756; 0x242070db; 0xc1bdceee; 0xf57c0faf; 0x4787c62a; 0xa8304613; 0xfd469501;
   0x698098d8; 0x8b44f7af; 0xffff5bb1; 0x895cd7be; 0x6b901122; 0xfd987193; 0xa679438e; 0x49b40821;
   0xf61e2562; 0xc040b340; 0x265e5a51; 0xe9b6c7aa; 0xd62f105d; 0x02441453; 0xd8a1e681; 0xe7d3fbc8;
   0x21e1cde6; 0xc33707d6; 0xf4d50d87; 0x455a14ed; 0xa9e3e905; 0xfcefa3f8; 0x676f02d9; 0x8d2a4c8a;
   0xfffa3942; 0x8771f681; 0x6d9d6122; 0xfde5380c; 0xa4beea44; 0x4bdecfa9; 0xf6bb4b60; 0xbebfbc70;
   0x289b7ec6; 0xeaa127fa; 0xd4ef3085; 0x04881d05; 0xd9d4d039; 0xe6db99e5; 0x1fa27cf8; 0xc4ac5665;
   0xf4292244; 0x432aff97; 0xab9423a7; 0xfc93a039; 0x655b59c3; 0x8f0ccc92; 0xffeff47d; 0x85845dd1;
   0x6fa87e4f; 0xfe2ce6e0; 0xa3014314; 0x4e0811a1; 0xf7537e82; 0xbd3af235; 0x2ad7d2bb; 0xeb86d391].

Record Words := mkWords { wa : Z; wb : Z; wc : Z; wd : Z }.

Definition STATE_INIT : Words := mkWords 0x67452301 0xEFCDAB89 0x98BADCFE 0x10325476.

(** Which word of the block each of the 16 steps of a round takes, and its
    four rotations in turn. *)
Definition rounds : list ((Z -> Z -> Z -> Z -> Z -> Z -> Z -> Z) * list nat * list Z) :=
  [(op_f, [0; 1; 2; 3; 4; 5; 6; 7; 8; 9; 10; 11; 12; 13; 14; 15]%nat, [7; 12; 17; 22]);
   (op_g, [1; 6; 11; 0; 5; 10; 15; 4; 9; 14; 3; 8; 13; 2; 7; 12]%nat, [5; 9; 14; 20]);
   (op_h, [5; 8; 11; 14; 1; 4; 7; 10; 13; 0; 3; 6; 9; 12; 15; 2]%nat, [4; 11; 16; 23]);
   (op_i, [0; 7; 14; 5; 12; 3; 10; 1; 8; 15; 6; 13; 4; 11; 2; 9]%nat, [6; 10; 15; 21])].

(** The four variables trade places: the one just assigned is the second
    operand of the next step. *)
Definition step (op : Z -> Z -> Z -> Z -> Z -> Z -> Z -> Z) (v : Words) (m c s : Z) : Words :=
  mkWords (wd v) (op (wa v) (wb v) (wc v) (wd v) m c s) (wb v) (wc v).

Fixpoint round (op : Z -> Z -> Z -> Z -> Z -> Z -> Z -> Z) (data : list Z) (v : Words)
    (indices : list nat) (constants shifts : list Z) : Words :=
  match indices, constants, shifts with
  | i :: indices, c :: constants, s :: shifts =>
      round op data (step op v (nth i data 0) c s) indices constants (shifts ++ [s])
  | _, _, _ => v
  end.

Fixpoint all_rounds (data : list Z) (v : Words) (constants : list Z)
    (rs : list ((Z -> Z -> Z -> Z -> Z -> Z -> Z -> Z) * list nat * list Z)) : Words :=
  match rs with
  | [] => v
  | (op, indices, shifts) :: rs =>
      all_rounds data (round op data v indices (take 16 constants) shifts) (drop 16 constants) rs
  end.

(** [chunks_exact(n)] of the first [k * n] bytes. *)
Fixpoint blocks (n k : nat) (l : bytes) : list bytes :=
  match k with O => [] | S k => take n l :: blocks n k (drop n l) end.

Definition compress_block (state : Words) (input : bytes) : Words :=
  let data := from_le_bytes <$> blocks 4 16 input in
  let v := all_rounds data state RC rounds in
  mkWords (wrapping_add (wa state) (wa v)) (wrapping_add (wb state) (wb v))
          (wrapping_add (wc state) (wc v)) (wrapping_add (wd state) (wd v)).

Definition compress (state : Words) (l : list bytes) : Words := foldl compress_block state l.

(** *** The hasher: [Md5Core] and its block buffer *)

Definition BLOCK_SIZE : nat := 64.

Record Md5Core := mkMd5Core { block_len : Z; state : Words; buffered : bytes }.

Definition Md5Core_default : Md5Core := mkMd5Core 0 STATE_INIT [].

(** [update_blocks]. *)
Definition update_blocks (h : Md5Core) (l : list bytes) (rest : bytes) : Md5Core :=
  mkMd5Core ((block_len h + Z.of_nat (length l)) mod (U64_MAX + 1)) (compress (state h) l) rest.

(** [BlockBuffer::digest_blocks], for an eager buffer. *)
Definition digest_blocks (h : Md5Core) (input : bytes) : Md5Core :=
  let pos := length (buffered h) in
  let rem := (BLOCK_SIZE - pos)%nat in
  if (length input <? rem)%nat then mkMd5Core (block_len h) (state h) (buffered h ++ input)
  else
    let '(h, input) :=
      if (pos =? 0)%nat then (h, input)
      else (update_blocks h [buffered h ++ take rem input] [], drop rem input) in
    let nb := (length input / BLOCK_SIZE)%nat in
    let h := if (nb =? 0)%nat then h else update_blocks h (blocks BLOCK_SIZE nb input) [] in
    mkMd5Core (block_len h) (state h) (drop (nb * BLOCK_SIZE) input).

(** [len64_padding_le] and [finalize_fixed_core]. *)
Definition finalize (h : Md5Core) : bytes :=
  let pos := length (buffered h) in
  let bit_len := ((((block_len h * 64) mod (U64_MAX + 1) + Z.of_nat pos) mod (U64_MAX + 1)) * 8) mod (U64_MAX + 1) in
  let suffix := to_le_bytes 8 bit_len in
  let padded := buffered h ++ [chr 128] ++ replicate (BLOCK_SIZE - pos - 1) (chr 0) in
  let s :=
    if (BLOCK_SIZE - pos - 1 <? length suffix)%nat
    then compress (state h) [padded; replicate (BLOCK_SIZE - length suffix) (chr 0) ++ suffix]
    else compress (state h) [take (BLOCK_SIZE - length suffix) padded ++ suffix] in
  concat (to_le_bytes 4 <$> [wa s; wb s; wc s; wd s]).

(** ** Pieces do not matter *)

Lemma blocks_app n k m l : blocks n (k + m) l = blocks n k l ++ blocks n m (drop (k * n) l).
Proof.
  revert l. induction k as [|k IH]; intros l; [done|]. cbn [blocks Nat.add app]. by rewrite IH, drop_drop.
Qed.

Lemma length_blocks n k l : length (blocks n k l) = k.
Proof. revert l. induction k as [|k IH]; intros l; simpl; [done|]. by rewrite IH. Qed.

(** What [l] comes to on top of a state. *)
Definition fed (n : Z) (s : Words) (l : bytes) : Md5Core :=
  let nb := (length l / BLOCK_SIZE)%nat in
  mkMd5Core ((n + Z.of_nat nb) mod (U64_MAX + 1)) (compress s (blocks BLOCK_SIZE nb l)) (drop (nb * BLOCK_SIZE) l).

Lemma length_drop_blocks (l : bytes) :
  (length (drop (length l / BLOCK_SIZE * BLOCK_SIZE) l) < BLOCK_SIZE)%nat.
Proof.
  rewrite length_drop. pose proof (Nat.div_mod_eq (length l) BLOCK_SIZE).
  pose proof (Nat.mod_upper_bound (length l) BLOCK_SIZE ltac:(done)). unfold BLOCK_SIZE in *. lia.
Qed.

Lemma compress_app s a b : compress s (a ++ b) = compress (compress s a) b.
Proof. apply foldl_app. Qed.

(** The buffer is gone through as if everything had come at once. *)
Lemma digest_blocks_fed h input :
  (length (buffered h) < BLOCK_SIZE)%nat -> 0 <= block_len h <= U64_MAX ->
  digest_blocks h input = fed (block_len h) (state h) (buffered h ++ input).
Proof.
  destruct h as [n s buf]. cbn [buffered block_len state]. intros Hbuf Hn. unfold digest_blocks, fed.
  cbn [buffered block_len state]. rewrite length_app. pose proof (Z.mod_small n (U64_MAX + 1) ltac:(lia)) as Hmod.
  destruct (Nat.ltb_spec (length input) (BLOCK_SIZE - length buf)) as [Hlt|Hge].
  { rewrite Nat.div_small by lia. cbn [blocks Nat.mul drop]. by rewrite Z.add_0_r, Hmod. }
  destruct (Nat.eqb_spec (length buf) 0) as [H0|H0].
  - apply length_zero_iff_nil in H0 as ->. cbn [app length Nat.add].
    destruct (Nat.eqb_spec (length input / BLOCK_SIZE) 0) as [->|]; unfold update_blocks; cbn [block_len state buffered].
    + cbn [blocks]. by rewrite Z.add_0_r, Hmod.
    + by rewrite length_blocks.
  - set (rem := (BLOCK_SIZE - length buf)%nat) in *.
    assert (((length buf + length input) / BLOCK_SIZE)%nat = S (length (drop rem input) / BLOCK_SIZE)) as Hnb.
    { rewrite length_drop. replace (length buf + length input)%nat with (1 * BLOCK_SIZE + (length input - rem))%nat by lia.
      by rewrite Nat.div_add_l. }
    rewrite Hnb. cbn [blocks Nat.mul]. rewrite <-drop_drop.
    assert (take BLOCK_SIZE (buf ++ input) = buf ++ take rem input) as ->
      by (rewrite take_app, take_ge by lia; done).
    assert (drop BLOCK_SIZE (buf ++ input) = drop rem input) as ->
      by (rewrite drop_app, drop_ge by lia; done).
    generalize (length (drop rem input) / BLOCK_SIZE)%nat. intros nb.
    destruct (Nat.eqb_spec nb 0) as [->|]; unfold update_blocks; cbn [block_len state buffered length].
    + done.
    + rewrite length_blocks, Zplus_mod_idemp_l. do 2 f_equal. lia.
Qed.

Lemma fed_app n s a b :
  let h := fed n s a in fed (block_len h) (state h) (buffered h ++ b) = fed n s (a ++ b).
Proof.
  unfold fed. cbn [block_len state buffered]. set (k := (length a / BLOCK_SIZE)%nat).
  pose proof (Nat.Div0.mul_div_le (length a) BLOCK_SIZE) as Hle. fold k in Hle.
  assert (length (drop (k * BLOCK_SIZE) a ++ b) = (length (a ++ b) - k * BLOCK_SIZE)%nat) as Hlen
    by (rewrite !length_app, length_drop; lia).
  assert ((length (a ++ b) / BLOCK_SIZE)%nat = (k + length (drop (k * BLOCK_SIZE) a ++ b) / BLOCK_SIZE)%nat) as ->.
  { rewrite Hlen. rewrite length_app in *.
    replace (length a + length b)%nat with (k * BLOCK_SIZE + (length a + length b - k * BLOCK_SIZE))%nat at 1 by lia.
    by rewrite Nat.div_add_l. }
  generalize (length (drop (k * BLOCK_SIZE) a ++ b) / BLOCK_SIZE)%nat. intros m.
  assert (drop (k * BLOCK_SIZE) (a ++ b) = drop (k * BLOCK_SIZE) a ++ b) as Hdrop by (apply drop_app_le; lia).
  assert (blocks BLOCK_SIZE k (a ++ b) = blocks BLOCK_SIZE k a) as Hblk.
  { clear -Hle. clearbody k. revert a Hle. induction k as [|k IH]; intros a Hle; [done|]. cbn [blocks].
    rewrite take_app_le, drop_app_le by lia. rewrite IH; [done|]. rewrite length_drop. lia. }
  rewrite blocks_app, compress_app, Hblk, Hdrop. f_equal.
  - rewrite Zplus_mod_idemp_l. f_equal. lia.
  - rewrite Nat.mul_add_distr_r, <-drop_drop, Hdrop. done.
Qed.

(** Hashing in pieces is hashing the whole. *)
Lemma digest_blocks_app a b :
  digest_blocks (digest_blocks Md5Core_default a) b = digest_blocks Md5Core_default (a ++ b).
Proof.
  rewrite !(digest_blocks_fed Md5Core_default) by (unfold BLOCK_SIZE, U64_MAX; cbn; lia).
  cbn [Md5Core_default buffered block_len state app]. rewrite digest_blocks_fed.
  - apply fed_app.
  - apply length_drop_blocks.
  - unfold fed. cbn [block_len].
    pose proof (Z.mod_pos_bound (0 + Z.of_nat (length a / BLOCK_SIZE)) (U64_MAX + 1) ltac:(done)). lia.
Qed.

End Crate.

#[export] Instance md5_crate : Md5 :=
  {| Hasher := Crate.Md5Core; Md5_new := Crate.Md5Core_default; Md5_update := Crate.digest_blocks;
     Md5_finalize := Crate.finalize; Md5_update_nil := eq_refl; Md5_update_app := Crate.digest_blocks_app |}.

(** The test vectors of RFC 1321. *)
Example md5_vectors :
  map (fun s => concat (map (fun c => [hex_digit (code c / 16); hex_digit (code c mod 16)]) (md5_digest (chars s))))
    ["a"; "abc"; "12345678901234567890123456789012345678901234567890123456789012345678901234567890"]%string =
  map chars ["0cc175b9c0f1b6a831c399e269772661"; "900150983cd24fb0d6963f7d28e17f72"; "57edf4a22be3c955ac49da2e2107b67a"]%string.
Proof. by vm_compute. Qed.
