(* ===== verification/Json.v ===== *)
(** * [serde_json]: values, their text and the parser

    [serde_json::Value] with its compact [Display], and [from_str] for values,
    over the bytes of the text.  The positions of errors are left out.  64-bit
    floats are outside: a float is the text [serde_json] prints for it, and the
    class [F64] stands for the conversions of the parser. *)

From Stdlib Require Import ZArith Lia Ascii.
From stdpp Require Import base numbers strings list.
From S2P Require Import Prelude RustStd.
Open Scope Z_scope.
Open Scope rust_scope.

(** ** Values: the keys of an object are distinct and sorted, as in a [BTreeMap] *)

#[local] Set Warnings "-register-all".

Inductive Number := PosInt (n : Z) | NegInt (n : Z) | Float (text : string).

Inductive Value :=
| Null
| Bool (b : bool)
| Num (n : Number)
| Str (s : string)
| Array (l : list Value)
| Object (l : list (string * Value)).

(** [value["key"]] and [value[0]] give [Null] when there is no such element. *)
Definition index_key (v : Value) (k : string) : Value :=
  match v with
  | Object l => default Null (snd <$> List.find (fun kv => String.eqb kv.1 k) l)
  | _ => Null
  end.

Definition index_pos (v : Value) (i : nat) : Value :=
  match v with Array l => default Null (l !! i) | _ => Null end.

Definition as_u64 (v : Value) : option Z := match v with Num (PosInt n) => Some n | _ => None end.
Definition as_str (v : Value) : option string := match v with Str s => Some s | _ => None end.

(** [Map::insert]. *)
Fixpoint map_insert (k : string) (v : Value) (l : list (string * Value)) : list (string * Value) :=
  match l with
  | [] => [(k, v)]
  | (k', v') :: l' =>
      match String.compare k k' with
      | Lt => (k, v) :: l
      | Eq => (k', v) :: l'
      | Gt => (k', v') :: map_insert k v l'
      end
  end.

(** [json!] of an object, and [to_value] of a struct or map: its entries one after the other. *)
Definition object_of (l : list (string * Value)) : Value :=
  Object (foldl (fun m kv => map_insert kv.1 kv.2 m) [] l).

(** ** [Display for Value] *)

Definition DQUOTE : ascii := chr 34.
Definition BACKSLASH : ascii := chr 92.

(** The table [ESCAPE] and [write_char_escape]. *)
Definition escape_byte (c : ascii) : list ascii :=
  let n := code c in
  if n =? 34 then [BACKSLASH; DQUOTE]
  else if n =? 92 then [BACKSLASH; BACKSLASH]
  else if 32 <=? n then [c]
  else if n =? 8 then [BACKSLASH; "b"%char]
  else if n =? 9 then [BACKSLASH; "t"%char]
  else if n =? 10 then [BACKSLASH; "n"%char]
  else if n =? 12 then [BACKSLASH; "f"%char]
  else if n =? 13 then [BACKSLASH; "r"%char]
  else [BACKSLASH; "u"%char; "0"%char; "0"%char; hex_digit (n / 16); hex_digit (n mod 16)].

Definition format_escaped_str (s : string) : list ascii :=
  DQUOTE :: flat_map escape_byte (chars s) ++ [DQUOTE].

Definition Number_display (n : Number) : list ascii :=
  match n with PosInt n | NegInt n => chars (int_to_string n) | Float t => chars t end.

(** The elements of an array or object, with commas between them. *)
Definition commas (l : list (list ascii)) : list ascii :=
  match l with [] => [] | x :: l => x ++ flat_map (cons ","%char) l end.

Fixpoint value_chars (v : Value) : list ascii :=
  match v with
  | Null => chars "null"
  | Bool b => chars (if b then "true" else "false")
  | Num n => Number_display n
  | Str s => format_escaped_str s
  | Array l => "["%char :: commas (map value_chars l) ++ ["]"%char]
  | Object l =>
      "{"%char :: commas (map (fun kv => format_escaped_str kv.1 ++ ":"%char :: value_chars kv.2) l) ++ ["}"%char]
  end.

Definition value_display (v : Value) : string := of_chars (value_chars v).

(** ** [from_str] *)

Inductive ErrorCode :=
| EofWhileParsingList | EofWhileParsingObject | EofWhileParsingString | EofWhileParsingValue
| ExpectedColon | ExpectedListCommaOrEnd | ExpectedObjectCommaOrEnd | ExpectedSomeIdent | ExpectedSomeValue
| InvalidEscape | InvalidNumber | NumberOutOfRange | ControlCharacterWhileParsingString | KeyMustBeAString
| LoneLeadingSurrogateInHexEscape | UnexpectedEndOfHexEscape | TrailingComma | TrailingCharacters
| RecursionLimitExceeded.

(** What a function of the parser reads, and the bytes that are left. *)
Abbreviation parsed A := (result (A * list ascii) ErrorCode).

(** [f64_from_parts] gives nothing for an infinite result; [f64_neg] is
    [-(n as f64)]; [f64_zero] has a sign. *)
Class F64 := {
  f64_from_parts : bool -> Z -> Z -> option string;
  f64_neg : Z -> string;
  f64_zero : bool -> string;
}.

Fixpoint parse_whitespace (l : list ascii) : list ascii :=
  match l with
  | c :: l' => if existsb (Z.eqb (code c)) [32; 10; 9; 13] then parse_whitespace l' else l
  | [] => []
  end.

Fixpoint parse_ident (ident l : list ascii) : result (list ascii) ErrorCode :=
  match ident with
  | [] => Ok l
  | expected :: ident =>
      match l with
      | [] => Err EofWhileParsingValue
      | next :: l => if Ascii.eqb next expected then parse_ident ident l else Err ExpectedSomeIdent
      end
  end.

(** *** Numbers *)

(** [overflow!(a * 10 + b, c)]. *)
Definition overflow (a b c : Z) : bool := (c / 10 <=? a) && ((c / 10 <? a) || (c mod 10 <? b)).

Definition is_digit (c : ascii) : bool := bool_decide (is_Some (to_digit c)).
Definition is_e (c : ascii) : bool := Ascii.eqb c "e" || Ascii.eqb c "E".

Fixpoint skip_digits (l : list ascii) : list ascii :=
  match l with c :: l' => if is_digit c then skip_digits l' else l | [] => [] end.

Section Floats.
Context `{F64}.

Definition float_of (positive : bool) (significand exponent : Z) (l : list ascii) : parsed string :=
  match f64_from_parts positive significand exponent with
  | Some t => Ok (t, l)
  | None => Err NumberOutOfRange
  end.

(** The digits of an exponent; nothing when they overflow. *)
Fixpoint exponent_digits (exp : Z) (l : list ascii) : option Z * list ascii :=
  match l with
  | [] => (Some exp, [])
  | c :: l' =>
      match to_digit c with
      | Some d => if overflow exp d I32_MAX then (None, l') else exponent_digits (exp * 10 + d) l'
      | None => (Some exp, l)
      end
  end.

(** After the [e]. *)
Definition parse_exponent (positive : bool) (significand starting_exp : Z) (l : list ascii) : parsed string :=
  let '(positive_exp, l) :=
    match l with
    | c :: l' => if Ascii.eqb c "+" then (true, l') else if Ascii.eqb c "-" then (false, l') else (true, l)
    | [] => (true, l)
    end in
  match l with
  | [] => Err EofWhileParsingValue
  | c :: l =>
      match to_digit c with
      | None => Err InvalidNumber
      | Some d =>
          match exponent_digits d l with
          | (None, l) =>
              if negb (significand =? 0) && positive_exp then Err NumberOutOfRange
              else Ok (f64_zero positive, skip_digits l)
          | (Some exp, l) =>
              let final_exp := if positive_exp then starting_exp + exp else starting_exp - exp in
              float_of positive significand (Z.max (- I32_MAX - 1) (Z.min I32_MAX final_exp)) l
          end
      end
  end.

(** An exponent, if there is one. *)
Definition parse_opt_exponent (positive : bool) (significand exponent : Z) (l : list ascii) : parsed string :=
  match l with
  | c :: l' => if is_e c then parse_exponent positive significand exponent l'
               else float_of positive significand exponent l
  | [] => float_of positive significand exponent l
  end.

(** The digits after the point: the significand, minus their number, and
    whether they ended because the significand is full. *)
Fixpoint decimal_digits (significand after : Z) (l : list ascii) : Z * Z * bool * list ascii :=
  match l with
  | [] => (significand, after, false, l)
  | c :: l' =>
      match to_digit c with
      | Some d =>
          if overflow significand d U64_MAX then (significand, after, true, l)
          else decimal_digits (significand * 10 + d) (after - 1) l'
      | None => (significand, after, false, l)
      end
  end.

(** After the point. *)
Definition parse_decimal (positive : bool) (significand before : Z) (l : list ascii) : parsed string :=
  let '(significand, after, full, l) := decimal_digits significand 0 l in
  if full then parse_opt_exponent positive significand (before + after) (skip_digits l)
  else if after =? 0 then Err (match l with [] => EofWhileParsingValue | _ => InvalidNumber end)
  else parse_opt_exponent positive significand (before + after) l.

Fixpoint parse_long_integer (positive : bool) (significand exponent : Z) (l : list ascii) : parsed string :=
  match l with
  | [] => float_of positive significand exponent l
  | c :: l' =>
      if is_digit c then parse_long_integer positive significand (exponent + 1) l'
      else if Ascii.eqb c "." then parse_decimal positive significand exponent l'
      else parse_opt_exponent positive significand exponent l
  end.

Definition as_i64 (n : Z) : Z := if n <=? I64_MAX then n else n - (U64_MAX + 1).
Definition wrapping_neg (n : Z) : Z := if n =? I64_MIN then n else - n.

Definition parse_number (positive : bool) (significand : Z) (l : list ascii) : parsed Number :=
  let integer :=
    if positive then PosInt significand
    else
      let neg := wrapping_neg (as_i64 significand) in
      if 0 <=? neg then Float (f64_neg significand) else NegInt neg in
  match l with
  | [] => Ok (integer, l)
  | c :: l' =>
      if Ascii.eqb c "." then try (t, l) := parse_decimal positive significand 0 l' in Ok (Float t, l)
      else if is_e c then try (t, l) := parse_exponent positive significand 0 l' in Ok (Float t, l)
      else Ok (integer, l)
  end.

Fixpoint integer_digits (positive : bool) (significand : Z) (l : list ascii) : parsed Number :=
  match l with
  | [] => parse_number positive significand l
  | c :: l' =>
      match to_digit c with
      | Some d =>
          if overflow significand d U64_MAX
          then try (t, l) := parse_long_integer positive significand 0 l in Ok (Float t, l)
          else integer_digits positive (significand * 10 + d) l'
      | None => parse_number positive significand l
      end
  end.

Definition parse_integer (positive : bool) (l : list ascii) : parsed Number :=
  match l with
  | [] => Err EofWhileParsingValue
  | c :: l =>
      match to_digit c with
      | None => Err InvalidNumber
      | Some d =>
          if d =? 0 then
            match l with
            | c :: _ => if is_digit c then Err InvalidNumber else parse_number positive 0 l
            | [] => parse_number positive 0 l
            end
          else integer_digits positive d l
      end
  end.
End Floats.

(** *** Strings *)

(** [decode_hex_val_slow]. *)
Definition hex_val (c : ascii) : option Z :=
  let n := code c in
  if (48 <=? n) && (n <=? 57) then Some (n - 48)
  else if (65 <=? n) && (n <=? 70) then Some (n - 55)
  else if (97 <=? n) && (n <=? 102) then Some (n - 87)
  else None.

Definition decode_hex_escape (l : list ascii) : parsed Z :=
  match l with
  | a :: b :: c :: d :: l =>
      match hex_val a, hex_val b, hex_val c, hex_val d with
      | Some a, Some b, Some c, Some d => Ok (4096 * a + 256 * b + 16 * c + d, l)
      | _, _, _, _ => Err InvalidEscape
      end
  | _ => Err EofWhileParsingString
  end.

(** [push_wtf8_codepoint]. *)
Definition codepoint (n : Z) : bytes :=
  let tail s := chr (Z.lor (Z.land (Z.shiftr n s) 63) 128) in
  if n <? 128 then [chr n]
  else if n <? 2048 then [chr (Z.lor (Z.land (Z.shiftr n 6) 31) 192); tail 0]
  else if n <? 65536 then [chr (Z.lor (Z.land (Z.shiftr n 12) 15) 224); tail 6; tail 0]
  else [chr (Z.lor (Z.land (Z.shiftr n 18) 7) 240); tail 12; tail 6; tail 0].

(** The next byte, when it is [c]. *)
Definition eat (c : ascii) (l : list ascii) : result (list ascii) ErrorCode :=
  match l with
  | [] => Err EofWhileParsingString
  | x :: l => if Ascii.eqb x c then Ok l else Err UnexpectedEndOfHexEscape
  end.

(** Surrogates must come in pairs. *)
Definition parse_unicode_escape (l : list ascii) : parsed bytes :=
  try (n1, l) := decode_hex_escape l in
  if (56320 <=? n1) && (n1 <=? 57343) then Err LoneLeadingSurrogateInHexEscape
  else if (n1 <? 55296) || (56319 <? n1) then Ok (codepoint n1, l)
  else
    try l := eat BACKSLASH l in
    try l := eat "u" l in
    try (n2, l) := decode_hex_escape l in
    if (n2 <? 56320) || (57343 <? n2) then Err LoneLeadingSurrogateInHexEscape
    else Ok (codepoint (Z.lor (Z.shiftl (n1 - 55296) 10) (n2 - 56320) + 65536), l).

(** After the backslash. *)
Definition parse_escape (l : list ascii) : parsed bytes :=
  match l with
  | [] => Err EofWhileParsingString
  | c :: l =>
      if Ascii.eqb c DQUOTE || Ascii.eqb c BACKSLASH || Ascii.eqb c "/" then Ok ([c], l)
      else if Ascii.eqb c "b" then Ok ([chr 8], l)
      else if Ascii.eqb c "f" then Ok ([chr 12], l)
      else if Ascii.eqb c "n" then Ok ([chr 10], l)
      else if Ascii.eqb c "r" then Ok ([chr 13], l)
      else if Ascii.eqb c "t" then Ok ([chr 9], l)
      else if Ascii.eqb c "u" then parse_unicode_escape l
      else Err InvalidEscape
  end.

(** After the opening quote.  Every round takes a byte, so that the length of
    the text is enough fuel. *)
Fixpoint parse_str_bytes (fuel : nat) (l : list ascii) : parsed bytes :=
  match fuel, l with
  | O, _ | _, [] => Err EofWhileParsingString
  | S fuel, c :: l =>
      if Ascii.eqb c DQUOTE then Ok ([], l)
      else if Ascii.eqb c BACKSLASH then
        try (b, l) := parse_escape l in
        try (s, l) := parse_str_bytes fuel l in
        Ok (b ++ s, l)
      else if code c <? 32 then Err ControlCharacterWhileParsingString
      else try (s, l) := parse_str_bytes fuel l in Ok (c :: s, l)
  end.

Definition parse_str (l : list ascii) : parsed string :=
  try (s, l) := parse_str_bytes (length l) l in Ok (of_chars s, l).

(** *** Arrays and objects *)

(** [has_next_element]: [None] at the bracket. *)
Definition has_next_element (first : bool) (l : list ascii) : result (option (list ascii)) ErrorCode :=
  match parse_whitespace l with
  | [] => Err EofWhileParsingList
  | c :: l' =>
      if Ascii.eqb c "]" then Ok None
      else if first then Ok (Some (c :: l'))
      else if Ascii.eqb c "," then
        match parse_whitespace l' with
        | [] => Err EofWhileParsingValue
        | c :: l => if Ascii.eqb c "]" then Err TrailingComma else Ok (Some (c :: l))
        end
      else Err ExpectedListCommaOrEnd
  end.

Definition end_seq (l : list ascii) : result (list ascii) ErrorCode :=
  match parse_whitespace l with
  | [] => Err EofWhileParsingList
  | c :: l =>
      if Ascii.eqb c "]" then Ok l
      else if Ascii.eqb c "," then
        Err (match parse_whitespace l with
             | c :: _ => if Ascii.eqb c "]" then TrailingComma else TrailingCharacters
             | [] => TrailingCharacters
             end)
      else Err TrailingCharacters
  end.

(** [has_next_key]: [None] at the brace. *)
Definition has_next_key (first : bool) (l : list ascii) : result (option (list ascii)) ErrorCode :=
  match parse_whitespace l with
  | [] => Err EofWhileParsingObject
  | c :: l' =>
      if Ascii.eqb c "}" then Ok None
      else if first then if Ascii.eqb c DQUOTE then Ok (Some (c :: l')) else Err KeyMustBeAString
      else if Ascii.eqb c "," then
        match parse_whitespace l' with
        | [] => Err EofWhileParsingValue
        | c :: l => if Ascii.eqb c DQUOTE then Ok (Some (c :: l))
                    else Err (if Ascii.eqb c "}" then TrailingComma else KeyMustBeAString)
        end
      else Err ExpectedObjectCommaOrEnd
  end.

Definition parse_object_colon (l : list ascii) : result (list ascii) ErrorCode :=
  match parse_whitespace l with
  | [] => Err EofWhileParsingObject
  | c :: l => if Ascii.eqb c ":" then Ok l else Err ExpectedColon
  end.

Definition end_map (l : list ascii) : result (list ascii) ErrorCode :=
  match parse_whitespace l with
  | [] => Err EofWhileParsingObject
  | c :: l =>
      if Ascii.eqb c "}" then Ok l else Err (if Ascii.eqb c "," then TrailingComma else TrailingCharacters)
  end.

Section Containers.
Context (parse : list ascii -> parsed Value).

(** [visit_seq] and [visit_map] of [ValueVisitor]; every round takes a byte. *)
Fixpoint visit_seq (fuel : nat) (first : bool) (l : list ascii) : parsed (list Value) :=
  match fuel with
  | O => Err EofWhileParsingList
  | S fuel =>
      try next := has_next_element first l in
      match next with
      | None => Ok ([], l)
      | Some l =>
          try (v, l) := parse l in
          try (vs, l) := visit_seq fuel false l in
          Ok (v :: vs, l)
      end
  end.

Fixpoint visit_map (fuel : nat) (first : bool) (values : list (string * Value)) (l : list ascii)
    : parsed (list (string * Value)) :=
  match fuel with
  | O => Err EofWhileParsingObject
  | S fuel =>
      try next := has_next_key first l in
      match next with
      | None => Ok (values, l)
      | Some l =>
          try (k, l) := parse_str (tail l) in
          try l := parse_object_colon l in
          try (v, l) := parse l in
          visit_map fuel false (map_insert k v values) l
      end
  end.
End Containers.

(** [deserialize_any], with the recursion that [remaining_depth] allows. *)
Fixpoint parse_value `{F64} (remaining_depth : nat) (l : list ascii) : parsed Value :=
  match parse_whitespace l with
  | [] => Err EofWhileParsingValue
  | c :: l' =>
      if Ascii.eqb c "n" then try l := parse_ident (chars "ull") l' in Ok (Null, l)
      else if Ascii.eqb c "t" then try l := parse_ident (chars "rue") l' in Ok (Bool true, l)
      else if Ascii.eqb c "f" then try l := parse_ident (chars "alse") l' in Ok (Bool false, l)
      else if Ascii.eqb c "-" then try (n, l) := parse_integer false l' in Ok (Num n, l)
      else if is_digit c then try (n, l) := parse_integer true (c :: l') in Ok (Num n, l)
      else if Ascii.eqb c DQUOTE then try (s, l) := parse_str l' in Ok (Str s, l)
      else if Ascii.eqb c "[" then
        match remaining_depth with
        | O | 1%nat => Err RecursionLimitExceeded
        | S remaining_depth =>
            try (vs, l) := visit_seq (parse_value remaining_depth) (length l) true l' in
            try l := end_seq l in
            Ok (Array vs, l)
        end
      else if Ascii.eqb c "{" then
        match remaining_depth with
        | O | 1%nat => Err RecursionLimitExceeded
        | S remaining_depth =>
            try (vs, l) := visit_map (parse_value remaining_depth) (length l) true [] l' in
            try l := end_map l in
            Ok (Object vs, l)
        end
      else Err ExpectedSomeValue
  end.

Definition REMAINING_DEPTH : nat := 128.

Definition from_str `{F64} (s : string) : result Value ErrorCode :=
  try (v, l) := parse_value REMAINING_DEPTH (chars s) in
  match parse_whitespace l with [] => Ok v | _ => Err TrailingCharacters end.

(** ** The parser ends by itself: more fuel changes nothing *)

Lemma parse_whitespace_length l : (length (parse_whitespace l) <= length l)%nat.
Proof. induction l as [|c l IH]; simpl; [done|]. case_match; simpl; lia. Qed.

Lemma parse_ident_length ident l l' : parse_ident ident l = Ok l' -> (length l' <= length l)%nat.
Proof.
  revert l. induction ident as [|c ident IH]; intros l; simpl; [by intros [= ->]|].
  destruct l as [|x l]; [done|]. case_match; [|done]. intros Hl%IH. simpl. lia.
Qed.

Lemma skip_digits_length l : (length (skip_digits l) <= length l)%nat.
Proof. induction l as [|c l IH]; simpl; [done|]. case_match; simpl; lia. Qed.

Lemma decode_hex_escape_length l n l' : decode_hex_escape l = Ok (n, l') -> (length l' < length l)%nat.
Proof.
  destruct l as [|a [|b [|c [|d l]]]]; try done. unfold decode_hex_escape.
  destruct (hex_val a), (hex_val b), (hex_val c), (hex_val d); try done. intros [= _ <-]. simpl. lia.
Qed.

Lemma eat_length c l l' : eat c l = Ok l' -> (length l' < length l)%nat.
Proof. destruct l as [|x l]; simpl; [done|]. case_match; [|done]. intros [= <-]. lia. Qed.

Lemma parse_unicode_escape_length l b l' : parse_unicode_escape l = Ok (b, l') -> (length l' < length l)%nat.
Proof.
  unfold parse_unicode_escape. destruct (decode_hex_escape l) as [[n1 l1]|] eqn:E1; [|done].
  apply decode_hex_escape_length in E1. case_match; [done|]. case_match; [intros [= _ <-]; lia|].
  destruct (eat _ l1) as [l2|] eqn:E2; [|done]. apply eat_length in E2.
  destruct (eat _ l2) as [l3|] eqn:E3; [|done]. apply eat_length in E3.
  destruct (decode_hex_escape l3) as [[n2 l4]|] eqn:E4; [|done]. apply decode_hex_escape_length in E4.
  case_match; [done|]. intros [= _ <-]. lia.
Qed.

Lemma parse_escape_length l b l' : parse_escape l = Ok (b, l') -> (length l' < length l)%nat.
Proof.
  destruct l as [|c l]; [done|]. unfold parse_escape. cbn [length].
  repeat (case_match; [by intros [= _ <-]; lia|]).
  case_match; [|done]. intros ?%parse_unicode_escape_length. lia.
Qed.

Lemma parse_str_bytes_length fuel l s l' : parse_str_bytes fuel l = Ok (s, l') -> (length l' < length l)%nat.
Proof.
  revert l s l'. induction fuel as [|fuel IH]; intros l s l'; simpl; [by destruct l|].
  destruct l as [|c l]; [done|]. case_match; [intros [= _ <-]; simpl; lia|]. case_match.
  - destruct (parse_escape l) as [[b l1]|] eqn:He; [|done]. apply parse_escape_length in He.
    destruct (parse_str_bytes fuel l1) as [[s1 l2]|] eqn:Hs; [|done]. apply IH in Hs.
    intros [= _ <-]. simpl. lia.
  - case_match; [done|]. destruct (parse_str_bytes fuel l) as [[s1 l2]|] eqn:Hs; [|done]. apply IH in Hs.
    intros [= _ <-]. simpl. lia.
Qed.

Lemma parse_str_bytes_fuel n m l :
  (length l <= n)%nat -> (length l <= m)%nat -> parse_str_bytes n l = parse_str_bytes m l.
Proof.
  revert m l. induction n as [|n IH]; intros m l Hn Hm.
  { destruct l; [by destruct m|simpl in Hn; lia]. }
  destruct l as [|c l]; [by destruct m|]. destruct m as [|m]; [simpl in Hm; lia|]. simpl in *.
  case_match; [done|]. case_match.
  - destruct (parse_escape l) as [[b l1]|] eqn:He; [|done]. apply parse_escape_length in He.
    rewrite (IH m) by lia. done.
  - case_match; [done|]. rewrite (IH m) by lia. done.
Qed.

Lemma parse_str_length l s l' : parse_str l = Ok (s, l') -> (length l' < length l)%nat.
Proof.
  unfold parse_str. destruct (parse_str_bytes _ l) as [[b l1]|] eqn:Hs; [|done].
  intros [= _ <-]. by eapply parse_str_bytes_length.
Qed.

Section Length.
Context `{F64}.

Lemma float_of_length p s e l t l' : float_of p s e l = Ok (t, l') -> l' = l.
Proof. unfold float_of. case_match; [|done]. by intros [= _ <-]. Qed.

Lemma exponent_digits_length e l : (length (exponent_digits e l).2 <= length l)%nat.
Proof.
  revert e. induction l as [|c l IH]; intros e; simpl; [done|]. case_match; [|done].
  case_match; simpl; [lia|]. etrans; [apply IH|lia].
Qed.

Lemma parse_exponent_length p s e l t l' : parse_exponent p s e l = Ok (t, l') -> (length l' <= length l)%nat.
Proof.
  unfold parse_exponent. set (q := match l with [] => _ | _ => _ end).
  assert (length q.2 <= length l)%nat as Hq.
  { unfold q. destruct l as [|c l0]; [done|]. repeat case_match; simpl; lia. }
  destruct q as [pe l1]. simpl in Hq. destruct l1 as [|c l1]; [done|]. destruct (to_digit c) as [d|]; [|done].
  pose proof (exponent_digits_length d l1) as Hd. destruct (exponent_digits d l1) as [[x|] l2]; simpl in Hd, Hq.
  - intros ->%float_of_length. lia.
  - case_match; [done|]. intros [= _ <-]. pose proof (skip_digits_length l2). lia.
Qed.

Lemma parse_opt_exponent_length p s e l t l' :
  parse_opt_exponent p s e l = Ok (t, l') -> (length l' <= length l)%nat.
Proof.
  unfold parse_opt_exponent. destruct l as [|c l]; [by intros ->%float_of_length|]. case_match.
  - intros ?%parse_exponent_length. simpl. lia.
  - by intros ->%float_of_length.
Qed.

Lemma decimal_digits_length s a l : (length (decimal_digits s a l).2 <= length l)%nat.
Proof.
  revert s a. induction l as [|c l IH]; intros s a; simpl; [done|]. case_match; [|done].
  case_match; simpl; [lia|]. etrans; [apply IH|lia].
Qed.

Lemma parse_decimal_length p s b l t l' : parse_decimal p s b l = Ok (t, l') -> (length l' <= length l)%nat.
Proof.
  unfold parse_decimal. pose proof (decimal_digits_length s 0 l) as Hd.
  destruct (decimal_digits s 0 l) as [[[s1 a1] full] l1]. simpl in Hd. pose proof (skip_digits_length l1).
  case_match; [intros ?%parse_opt_exponent_length; lia|]. case_match; [done|].
  intros ?%parse_opt_exponent_length. lia.
Qed.

Lemma parse_long_integer_length p s e l t l' : parse_long_integer p s e l = Ok (t, l') -> (length l' <= length l)%nat.
Proof.
  revert e. induction l as [|c l IH]; intros e; cbn [parse_long_integer]; [by intros ->%float_of_length|]. case_match.
  - intros ?%IH. simpl. lia.
  - case_match; [intros ?%parse_decimal_length; simpl; lia|]. apply parse_opt_exponent_length.
Qed.

Lemma parse_number_length p s l n l' : parse_number p s l = Ok (n, l') -> (length l' <= length l)%nat.
Proof.
  unfold parse_number. destruct l as [|c l]; [by intros [= _ <-]|]. cbn [length].
  case_match; [destruct (parse_decimal _ _ _ _) as [[t l1]|] eqn:Ht; [|done];
    apply parse_decimal_length in Ht; intros [= _ <-]; lia|].
  case_match; [destruct (parse_exponent _ _ _ _) as [[t l1]|] eqn:Ht; [|done];
    apply parse_exponent_length in Ht; intros [= _ <-]; lia|].
  by intros [= _ <-].
Qed.

Lemma integer_digits_length p s l n l' : integer_digits p s l = Ok (n, l') -> (length l' <= length l)%nat.
Proof.
  revert s. induction l as [|c l IH]; intros s; cbn [integer_digits]; [apply parse_number_length|].
  destruct (to_digit c); [|apply parse_number_length]. case_match.
  - destruct (parse_long_integer _ _ _ _) as [[t l1]|] eqn:Ht; [|done].
    apply parse_long_integer_length in Ht. by intros [= _ <-].
  - intros ?%IH. simpl. lia.
Qed.

Lemma parse_integer_length p l n l' : parse_integer p l = Ok (n, l') -> (length l' < length l)%nat.
Proof.
  destruct l as [|c l]; [done|]. unfold parse_integer. cbn [length]. destruct (to_digit c) as [d|]; [|done]. case_match.
  - destruct l as [|x l]; [intros ?%parse_number_length; simpl in *; lia|].
    case_match; [done|]. intros ?%parse_number_length. simpl in *. lia.
  - intros ?%integer_digits_length. lia.
Qed.

Lemma has_next_element_length first l l' : has_next_element first l = Ok (Some l') -> (length l' <= length l)%nat.
Proof.
  unfold has_next_element. pose proof (parse_whitespace_length l). destruct (parse_whitespace l) as [|c k]; [done|].
  case_match; [done|]. case_match; [by intros [= <-]|]. case_match; [|done].
  pose proof (parse_whitespace_length k). destruct (parse_whitespace k); [done|]. case_match; [done|].
  intros [= <-]. simpl in *. lia.
Qed.

Lemma has_next_key_length first l l' : has_next_key first l = Ok (Some l') -> (length l' <= length l)%nat /\ l' <> [].
Proof.
  unfold has_next_key. pose proof (parse_whitespace_length l). destruct (parse_whitespace l) as [|c k]; [done|].
  case_match; [done|]. case_match; [case_match; [by intros [= <-]|done]|]. case_match; [|done].
  pose proof (parse_whitespace_length k). destruct (parse_whitespace k); [done|]. case_match; [|done].
  intros [= <-]. split; [|done]. simpl in *. lia.
Qed.

Lemma parse_object_colon_length l l' : parse_object_colon l = Ok l' -> (length l' < length l)%nat.
Proof.
  unfold parse_object_colon. pose proof (parse_whitespace_length l). destruct (parse_whitespace l); [done|].
  case_match; [|done]. intros [= <-]. simpl in *. lia.
Qed.

Lemma end_seq_length l l' : end_seq l = Ok l' -> (length l' < length l)%nat.
Proof.
  unfold end_seq. pose proof (parse_whitespace_length l). destruct (parse_whitespace l); [done|].
  case_match; [intros [= <-]; simpl in *; lia|]. by case_match.
Qed.

Lemma end_map_length l l' : end_map l = Ok l' -> (length l' < length l)%nat.
Proof.
  unfold end_map. pose proof (parse_whitespace_length l). destruct (parse_whitespace l); [done|].
  case_match; [intros [= <-]; simpl in *; lia|done].
Qed.

(** A parser that takes at least one byte. *)
Definition consumes (parse : list ascii -> parsed Value) : Prop :=
  forall l v l', parse l = Ok (v, l') -> (length l' < length l)%nat.

Lemma visit_seq_length parse fuel first l vs l' :
  consumes parse -> visit_seq parse fuel first l = Ok (vs, l') -> (length l' <= length l)%nat.
Proof.
  intros Hp. revert first l vs. induction fuel as [|fuel IH]; intros first l vs; simpl; [done|].
  destruct (has_next_element first l) as [[l1|]|] eqn:Hn; [|by intros [= _ <-]|done].
  apply has_next_element_length in Hn. destruct (parse l1) as [[v l2]|] eqn:Hv; [|done]. apply Hp in Hv.
  destruct (visit_seq parse fuel false l2) as [[ws l3]|] eqn:Hs; [|done]. intros [= _ <-]. apply IH in Hs. lia.
Qed.

Lemma visit_map_length parse fuel first acc l vs l' :
  consumes parse -> visit_map parse fuel first acc l = Ok (vs, l') -> (length l' <= length l)%nat.
Proof.
  intros Hp. revert first acc l. induction fuel as [|fuel IH]; intros first acc l; simpl; [done|].
  destruct (has_next_key first l) as [[l1|]|] eqn:Hn; [|by intros [= _ <-]|done].
  apply has_next_key_length in Hn as [Hn _]. destruct (parse_str (tail l1)) as [[k l2]|] eqn:Hk; [|done].
  apply parse_str_length in Hk. destruct (parse_object_colon l2) as [l3|] eqn:Hc; [|done].
  apply parse_object_colon_length in Hc. destruct (parse l3) as [[v l4]|] eqn:Hv; [|done]. apply Hp in Hv.
  intros Hs%IH. destruct l1; simpl in *; lia.
Qed.

Lemma parse_value_length r : consumes (parse_value r).
Proof.
  induction r as [r IH] using lt_wf_ind. intros l v l'. pose proof (parse_whitespace_length l) as Hw.
  destruct r as [|r]; cbn [parse_value]; (destruct (parse_whitespace l) as [|c k]; [done|]); cbn [length] in Hw.
  all: do 3 (case_match; [destruct (parse_ident _ k) eqn:Hi; [|done]; apply parse_ident_length in Hi;
    intros [= _ <-]; lia|]).
  all: case_match; [destruct (parse_integer _ k) as [[n l1]|] eqn:Hi; [|done]; apply parse_integer_length in Hi;
    intros [= _ <-]; lia|].
  all: case_match; [destruct (parse_integer _ (c :: k)) as [[n l1]|] eqn:Hi; [|done];
    apply parse_integer_length in Hi; simpl in Hi; intros [= _ <-]; lia|].
  all: case_match; [destruct (parse_str k) as [[s l1]|] eqn:Hi; [|done]; apply parse_str_length in Hi;
    intros [= _ <-]; lia|].
  { repeat (case_match; try done). }
  destruct r as [|r]; [by repeat case_match|]. case_match.
  - destruct (visit_seq _ _ _ k) as [[vs l1]|] eqn:Hs; [|done].
    apply visit_seq_length in Hs; [|apply IH; lia]. destruct (end_seq l1) eqn:He; [|done].
    apply end_seq_length in He. intros [= _ <-]. lia.
  - case_match; [|done]. destruct (visit_map _ _ _ _ k) as [[vs l1]|] eqn:Hs; [|done].
    apply visit_map_length in Hs; [|apply IH; lia]. destruct (end_map l1) eqn:He; [|done].
    apply end_map_length in He. intros [= _ <-]. lia.
Qed.

Lemma visit_seq_fuel parse n m first l :
  consumes parse -> (length l < n)%nat -> (length l < m)%nat -> visit_seq parse n first l = visit_seq parse m first l.
Proof.
  intros Hp. revert m first l. induction n as [|n IH]; intros m first l Hn Hm; [lia|]. destruct m as [|m]; [lia|].
  simpl. destruct (has_next_element first l) as [[l1|]|] eqn:Hl; [|done..]. apply has_next_element_length in Hl.
  destruct (parse l1) as [[v l2]|] eqn:Hv; [|done]. apply Hp in Hv. by rewrite (IH m) by lia.
Qed.

Lemma visit_map_fuel parse n m first acc l :
  consumes parse -> (length l < n)%nat -> (length l < m)%nat ->
  visit_map parse n first acc l = visit_map parse m first acc l.
Proof.
  intros Hp. revert m first acc l. induction n as [|n IH]; intros m first acc l Hn Hm; [lia|].
  destruct m as [|m]; [lia|]. simpl.
  destruct (has_next_key first l) as [[l1|]|] eqn:Hl; [|done..]. apply has_next_key_length in Hl as [Hl _].
  destruct (parse_str (tail l1)) as [[k l2]|] eqn:Hk; [|done]. apply parse_str_length in Hk.
  destruct (parse_object_colon l2) as [l3|] eqn:Hc; [|done]. apply parse_object_colon_length in Hc.
  destruct (parse l3) as [[v l4]|] eqn:Hv; [|done]. apply Hp in Hv. apply IH; destruct l1; simpl in *; lia.
Qed.
End Length.

(** ** Well-formed values *)

(** How deep arrays and objects are nested. *)
Fixpoint depth (v : Value) : nat :=
  match v with
  | Array l => S (foldr Nat.max O (map depth l))
  | Object l => S (foldr Nat.max O (map (fun kv => depth kv.2) l))
  | _ => O
  end.

Definition number_ok (floats : bool) (n : Number) : bool :=
  match n with
  | PosInt n => (0 <=? n) && (n <=? U64_MAX)
  | NegInt n => (I64_MIN <=? n) && (n <? 0)
  | Float _ => floats
  end.

Definition str_ltb (a b : string) : bool := match String.compare a b with Lt => true | _ => false end.

Fixpoint keys_sorted (ks : list string) : bool :=
  match ks with [] => true | k :: ks => forallb (str_ltb k) ks && keys_sorted ks end.

(** Integers in range and sorted keys; [floats] says whether floats may
    occur. *)
Fixpoint value_ok (floats : bool) (v : Value) : bool :=
  match v with
  | Num n => number_ok floats n
  | Array l => forallb (value_ok floats) l
  | Object l => keys_sorted (map fst l) && forallb (fun kv => value_ok floats kv.2) l
  | _ => true
  end.

Lemma Value_nested_ind (P : Value -> Prop) :
  P Null -> (forall b, P (Bool b)) -> (forall n, P (Num n)) -> (forall s, P (Str s)) ->
  (forall l, Forall P l -> P (Array l)) -> (forall l, Forall (fun kv => P kv.2) l -> P (Object l)) ->
  forall v, P v.
Proof.
  intros Hnull Hb Hn Hs Ha Ho. fix IH 1. intros [|b|n|s|l|l]; [done..| |].
  - apply Ha. induction l; constructor; [apply IH|done].
  - apply Ho. induction l; constructor; [apply IH|done].
Qed.

(** ** A value reads back from its text *)

Lemma escape_byte_step c n k :
  parse_str_bytes (S n) (escape_byte c ++ k) =
  match parse_str_bytes n k with Ok (s, l) => Ok (c :: s, l) | Err e => Err e end.
Proof. destruct c as [[] [] [] [] [] [] [] []]; reflexivity. Qed.

Lemma parse_escaped_bytes s n k :
  (length s < n)%nat -> parse_str_bytes n (flat_map escape_byte s ++ DQUOTE :: k) = Ok (s, k).
Proof.
  revert n. induction s as [|c s IH]; intros n Hn; (destruct n as [|n]; [simpl in Hn; lia|]); [done|].
  cbn [flat_map]. rewrite <-app_assoc, escape_byte_step, IH by (simpl in Hn; lia). done.
Qed.

Lemma escape_byte_length c : (1 <= length (escape_byte c))%nat.
Proof. by destruct c as [[] [] [] [] [] [] [] []]; apply Nat.leb_le; vm_compute. Qed.

Lemma escaped_length s : (length s <= length (flat_map escape_byte s))%nat.
Proof. induction s as [|c s IH]; simpl; [done|]. rewrite length_app. pose proof (escape_byte_length c). lia. Qed.

Lemma parse_escaped_str s k : parse_str (flat_map escape_byte (chars s) ++ DQUOTE :: k) = Ok (s, k).
Proof.
  unfold parse_str. rewrite parse_escaped_bytes.
  - by rewrite of_chars_chars.
  - pose proof (escaped_length (chars s)). rewrite length_app. simpl. lia.
Qed.

(** What may follow a number. *)
Definition ends_number (l : list ascii) : bool :=
  match l with c :: _ => negb (is_digit c || Ascii.eqb c "." || is_e c) | [] => true end.

Section RoundTrip.
Context `{F64}.

Lemma parse_number_end p s l :
  ends_number l = true ->
  parse_number p s l =
  Ok (if p then PosInt s
      else if 0 <=? wrapping_neg (as_i64 s) then Float (f64_neg s) else NegInt (wrapping_neg (as_i64 s)), l).
Proof.
  unfold parse_number. destruct l as [|c l]; [done|]. simpl.
  destruct (is_digit c), (Ascii.eqb c "."), (is_e c); done.
Qed.

Lemma overflow_fits a d : a * 10 + d <= U64_MAX -> 0 <= d < 10 -> overflow a d U64_MAX = false.
Proof. unfold overflow, U64_MAX. intros. change (_ / 10) with 1844674407370955161. change (_ mod 10) with 5. lia. Qed.

Lemma to_digit_range c d : to_digit c = Some d -> 0 <= d < 10.
Proof. unfold to_digit. case_match; [|done]. intros [= <-]. lia. Qed.

Lemma integer_digits_parse p ds acc n l :
  0 <= acc -> parse_digits false 0 U64_MAX acc ds = Ok n -> ends_number l = true ->
  integer_digits p acc (ds ++ l) = parse_number p n l.
Proof.
  intros Hacc Hn Hl. revert acc Hacc Hn. induction ds as [|c ds IH]; intros acc Hacc; simpl.
  - intros [= ->]. destruct l as [|c l]; [done|]. cbn [integer_digits]. unfold ends_number, is_digit in Hl.
    destruct (to_digit c) eqn:Hc; [|done]. rewrite bool_decide_true in Hl by done. done.
  - destruct (to_digit c) as [d|] eqn:Hc; [|done]. pose proof (to_digit_range c d Hc).
    destruct (try_from _ _ (acc * 10)) as [x|] eqn:Hx; [|done]. apply try_from_Some in Hx as [-> Hx].
    destruct (try_from _ _ (acc * 10 + d)) as [y|] eqn:Hy; [|done]. apply try_from_Some in Hy as [-> Hy].
    intros Hr. rewrite overflow_fits by lia. by apply IH; [lia|].
Qed.

Lemma digits_head fuel n :
  0 < n < 2 ^ Z.of_nat fuel -> exists d ds, digits fuel n = digit_char d :: ds /\ 1 <= d <= 9.
Proof.
  revert n. induction fuel as [|fuel IH]; intros n Hn; [simpl in Hn; lia|].
  rewrite Nat2Z.inj_succ, Z.pow_succ_r in Hn by lia. simpl. destruct (Z.ltb_spec n 10) as [Hlt|Hge].
  - exists n, []. split; [done|lia].
  - pose proof (Z.div_mod n 10 ltac:(lia)). pose proof (Z.mod_pos_bound n 10 ltac:(lia)).
    destruct (IH (n / 10) ltac:(lia)) as (d & ds & -> & Hd). by exists d, (ds ++ [digit_char (n mod 10)]).
Qed.

Lemma parse_integer_digits p n l :
  0 <= n <= U64_MAX -> ends_number l = true -> parse_integer p (nat_digits n ++ l) = parse_number p n l.
Proof.
  intros Hn Hl. destruct (Z.eq_dec n 0) as [->|Hnz].
  { change (nat_digits 0) with ["0"%char]. cbn [app]. unfold parse_integer. change (to_digit "0") with (Some 0).
    cbn [Z.eqb]. destruct l as [|c l]; [done|]. unfold ends_number in Hl. destruct (is_digit c); done. }
  pose proof (parse_nat_digits false 0 U64_MAX n ltac:(lia) ltac:(done) Hn) as Hp.
  destruct (digits_head _ n ltac:(split; [lia|apply nat_digits_fuel; lia])) as (d & ds & Hd & Hr).
  unfold nat_digits in *. rewrite Hd in *. cbn [app]. unfold parse_integer. cbn [parse_digits] in Hp.
  rewrite to_digit_char in * by lia. rewrite !try_from_in in Hp by (unfold U64_MAX; lia).
  replace (d =? 0) with false by lia. by apply integer_digits_parse; [lia|exact Hp|].
Qed.

(** A text that starts with a value: its first byte is not white space, and is
    not one that ends a list or an object or separates elements. *)
Definition starts_value (l : list ascii) : bool :=
  match l with
  | c :: _ => negb (existsb (Z.eqb (code c)) [32; 10; 9; 13; 93; 125; 44])
  | [] => false
  end.

Lemma digit_first n l : 0 <= n -> exists d k, nat_digits n ++ l = digit_char d :: k /\ 0 <= d <= 9.
Proof.
  intros Hn. destruct (Z.eq_dec n 0) as [->|Hnz]; [by exists 0, l|].
  destruct (digits_head _ n ltac:(split; [lia|apply nat_digits_fuel; lia])) as (d & ds & Hd & Hr).
  exists d, (ds ++ l). unfold nat_digits. rewrite Hd. split; [done|lia].
Qed.

Lemma digit_char_cases (P : ascii -> Prop) d :
  0 <= d <= 9 -> Forall P (chars "0123456789") -> P (digit_char d).
Proof.
  intros Hd HP. rewrite Forall_forall in HP. apply HP.
  assert (d = 0 \/ d = 1 \/ d = 2 \/ d = 3 \/ d = 4 \/ d = 5 \/ d = 6 \/ d = 7 \/ d = 8 \/ d = 9) as Hc by lia.
  destruct_or! Hc; subst d; apply list_elem_of_In; simpl; auto 20.
Qed.

Lemma int_to_string_neg n : n < 0 -> chars (int_to_string n) = "-"%char :: nat_digits (- n).
Proof. intros Hn. unfold int_to_string. replace (n <? 0) with true by lia. by rewrite chars_of_chars. Qed.

Lemma int_to_string_pos n : 0 <= n -> chars (int_to_string n) = nat_digits n.
Proof. intros Hn. unfold int_to_string. replace (n <? 0) with false by lia. by rewrite chars_of_chars. Qed.

Lemma value_chars_starts v l : value_ok false v = true -> starts_value (value_chars v ++ l) = true.
Proof.
  destruct v as [|[]|[n|n|t]|s|vs|vs]; cbn [value_ok number_ok value_chars Number_display]; intros Hok; try done.
  - rewrite int_to_string_pos by lia. destruct (digit_first n l ltac:(lia)) as (d & k & -> & Hd).
    apply (digit_char_cases (fun c => starts_value (c :: k) = true)); [done|]. by repeat constructor.
  - by rewrite int_to_string_neg by lia.
Qed.

Lemma starts_value_ws l : starts_value l = true -> parse_whitespace l = l.
Proof.
  destruct l as [|c l]; [done|]. unfold starts_value, parse_whitespace. simpl. fold parse_whitespace.
  destruct (code c =? 32), (code c =? 10), (code c =? 9), (code c =? 13); done.
Qed.

(** [v] reads back from its text, whatever may follow it. *)
Definition reads_back (parse : list ascii -> parsed Value) (v : Value) : Prop :=
  forall l, ends_number l = true -> parse (value_chars v ++ l) = Ok (v, l).

Lemma commas_cons x xs : commas (x :: xs) = x ++ flat_map (cons ","%char) xs.
Proof. done. Qed.

Lemma starts_value_next l :
  starts_value l = true ->
  has_next_element true l = Ok (Some l) /\ has_next_element false (","%char :: l) = Ok (Some l).
Proof.
  intros Hl. unfold has_next_element. change (parse_whitespace (","%char :: l)) with (","%char :: l).
  cbn [Ascii.eqb Bool.eqb]. rewrite (starts_value_ws l Hl). destruct l as [|c l]; [done|].
  assert (Ascii.eqb c "]" = false) as ->; [|done]. destruct (Ascii.eqb_spec c "]"); [by subst|done].
Qed.

Lemma visit_seq_rest parse vs fuel l :
  Forall (reads_back parse) vs -> forallb (value_ok false) vs = true -> (length vs < fuel)%nat ->
  visit_seq parse fuel false (flat_map (cons ","%char) (map value_chars vs) ++ "]"%char :: l) = Ok (vs, "]"%char :: l).
Proof.
  intros Hvs. revert fuel. induction Hvs as [|v vs Hv Hvs IH]; intros fuel Hok Hf; (destruct fuel; [simpl in Hf; lia|]); [done|].
  cbn [forallb] in Hok. apply andb_true_iff in Hok as [Hokv Hok]. cbn [map flat_map app length] in *.
  rewrite <-app_assoc. cbn [visit_seq].
  destruct (starts_value_next _ (value_chars_starts v (flat_map (cons ","%char) (map value_chars vs) ++ "]"%char :: l) Hokv)) as [_ ->].
  rewrite Hv by (by destruct vs). rewrite IH by (done || lia). done.
Qed.

Lemma visit_seq_all parse vs fuel l :
  Forall (reads_back parse) vs -> forallb (value_ok false) vs = true -> (length vs < fuel)%nat ->
  visit_seq parse fuel true (commas (map value_chars vs) ++ "]"%char :: l) = Ok (vs, "]"%char :: l).
Proof.
  intros Hvs Hok Hf. destruct fuel as [|fuel]; [lia|]. destruct Hvs as [|v vs Hv Hvs]; [done|].
  cbn [forallb] in Hok. apply andb_true_iff in Hok as [Hokv Hok]. cbn [map length] in *. rewrite commas_cons, <-app_assoc.
  cbn [visit_seq].
  destruct (starts_value_next _ (value_chars_starts v (flat_map (cons ","%char) (map value_chars vs) ++ "]"%char :: l) Hokv)) as [-> _].
  rewrite Hv by (by destruct vs). rewrite visit_seq_rest by (done || lia). done.
Qed.

Lemma str_ltb_gt a b : str_ltb a b = true -> String.compare b a = Gt.
Proof. unfold str_ltb. rewrite String.compare_antisym. by destruct (String.compare b a). Qed.

Lemma map_insert_last k v acc :
  forallb (fun kv => str_ltb kv.1 k) acc = true -> map_insert k v acc = acc ++ [(k, v)].
Proof.
  induction acc as [|[k' v'] acc IH]; simpl; [done|]. intros [Hk Hacc]%andb_true_iff.
  by rewrite (str_ltb_gt _ _ Hk), IH.
Qed.

Lemma keys_sorted_app_last (acc rest : list string) k :
  keys_sorted (acc ++ k :: rest) = true -> forallb (fun k' => str_ltb k' k) acc = true.
Proof.
  induction acc as [|k' acc IH]; simpl; [done|]. rewrite forallb_app. simpl.
  intros [Hk Hs]%andb_true_iff. apply andb_true_iff in Hk as [_ Hk]. apply andb_true_iff in Hk as [Hk _].
  by rewrite Hk, IH.
Qed.

Definition entry_chars (kv : string * Value) : list ascii := format_escaped_str kv.1 ++ ":"%char :: value_chars kv.2.

Lemma entry_next k l :
  has_next_key true (format_escaped_str k ++ l) = Ok (Some (format_escaped_str k ++ l)) /\
  has_next_key false (","%char :: format_escaped_str k ++ l) = Ok (Some (format_escaped_str k ++ l)).
Proof. done. Qed.

Lemma visit_map_entry parse fuel first acc sep kv l :
  (sep = [] /\ first = true \/ sep = [","%char] /\ first = false) ->
  reads_back parse kv.2 -> ends_number l = true -> forallb (fun kv' => str_ltb kv'.1 kv.1) acc = true ->
  visit_map parse (S fuel) first acc (sep ++ entry_chars kv ++ l) = visit_map parse fuel false (acc ++ [kv]) l.
Proof.
  intros Hsep Hv Hl Hacc. destruct kv as [k v]. cbn [fst snd] in *. unfold entry_chars. cbn [fst snd visit_map].
  rewrite <-app_assoc. cbn [app].
  assert (has_next_key first (sep ++ format_escaped_str k ++ ":"%char :: value_chars v ++ l) =
          Ok (Some (format_escaped_str k ++ ":"%char :: value_chars v ++ l))) as ->
    by (destruct Hsep as [[-> ->]|[-> ->]]; apply entry_next).
  unfold format_escaped_str. cbn [app tail]. rewrite <-app_assoc. cbn [app]. rewrite parse_escaped_str.
  change (parse_object_colon (":"%char :: ?x)) with (Ok (E := ErrorCode) x). cbn iota.
  rewrite Hv by done. by rewrite map_insert_last.
Qed.

Lemma visit_map_rest parse kvs fuel acc l :
  Forall (fun kv => reads_back parse kv.2) kvs -> keys_sorted (map fst (acc ++ kvs)) = true -> (length kvs < fuel)%nat ->
  visit_map parse fuel false acc (flat_map (cons ","%char) (map entry_chars kvs) ++ "}"%char :: l) =
  Ok (acc ++ kvs, "}"%char :: l).
Proof.
  intros Hvs. revert fuel acc.
  induction Hvs as [|kv kvs Hv Hvs IH]; intros fuel acc Hs Hf; (destruct fuel; [simpl in Hf; lia|]).
  { by rewrite app_nil_r. }
  cbn [map flat_map]. rewrite <-app_assoc. change (?c :: ?x) with ([c] ++ x) at 1. rewrite <-!app_assoc.
  rewrite visit_map_entry; [|by right|done|by destruct kvs|].
  - rewrite IH; [by rewrite <-app_assoc|by rewrite <-app_assoc|simpl in Hf; lia].
  - rewrite map_app in Hs. apply keys_sorted_app_last in Hs. clear -Hs.
    induction acc; simpl in *; [done|]. apply andb_true_iff in Hs as [-> ?]. by apply IHacc.
Qed.

Lemma visit_map_all parse kvs fuel l :
  Forall (fun kv => reads_back parse kv.2) kvs -> keys_sorted (map fst kvs) = true -> (length kvs < fuel)%nat ->
  visit_map parse fuel true [] (commas (map entry_chars kvs) ++ "}"%char :: l) = Ok (kvs, "}"%char :: l).
Proof.
  intros Hvs Hs Hf. destruct fuel as [|fuel]; [lia|]. destruct Hvs as [|kv kvs Hv Hvs]; [done|].
  cbn [map]. rewrite commas_cons, <-app_assoc.
  etrans; [apply (visit_map_entry parse fuel true [] [] kv); [by left|done|by destruct kvs|done]|].
  by rewrite (visit_map_rest parse kvs fuel [kv]) by (done || (simpl in Hf; lia)).
Qed.

Lemma Forall_depth {A} (f : A -> nat) l r :
  (foldr Nat.max O (map f l) < r)%nat -> Forall (fun x => (f x < r)%nat) l.
Proof. induction l as [|x l IH]; simpl; constructor; [lia|apply IH; lia]. Qed.

Lemma commas_length {A} (f : A -> list ascii) l c k :
  (length l < S (length (commas (map f l) ++ c :: k)))%nat.
Proof.
  rewrite length_app. destruct l as [|x l]; simpl; [lia|]. rewrite length_app.
  assert (length l <= length (flat_map (cons ","%char) (map f l)))%nat; [|lia].
  induction l as [|y l IH]; simpl; [done|]. rewrite length_app. lia.
Qed.

Lemma parse_value_digit r d k :
  0 <= d <= 9 ->
  parse_value r (digit_char d :: k) =
  match parse_integer true (digit_char d :: k) with Ok (n, l) => Ok (Num n, l) | Err e => Err e end.
Proof.
  intros Hd. apply (digit_char_cases (fun c => parse_value r (c :: k) =
    match parse_integer true (c :: k) with Ok (n, l) => Ok (Num n, l) | Err e => Err e end) d Hd).
  by destruct r; repeat constructor.
Qed.

Lemma parse_value_minus r k :
  parse_value r ("-"%char :: k) = match parse_integer false k with Ok (n, l) => Ok (Num n, l) | Err e => Err e end.
Proof. by destruct r. Qed.

Lemma number_reads r n l :
  number_ok false n = true -> ends_number l = true ->
  parse_value r (Number_display n ++ l) = Ok (Num n, l).
Proof.
  intros Hok Hl. destruct n as [n|n|t]; cbn [number_ok Number_display] in *; [| |done].
  - rewrite int_to_string_pos by lia. pose proof (parse_integer_digits true n l ltac:(lia) Hl) as Hp.
    rewrite parse_number_end in Hp by done.
    destruct (digit_first n l ltac:(lia)) as (d & k & Hk & Hd). rewrite Hk in *.
    by rewrite parse_value_digit, Hp by done.
  - rewrite int_to_string_neg by lia. cbn [app]. rewrite parse_value_minus.
    unfold I64_MIN in *. rewrite parse_integer_digits, parse_number_end by (done || unfold U64_MAX; lia).
    assert (wrapping_neg (as_i64 (- n)) = n) as ->; [|by replace (0 <=? n) with false by lia].
    unfold wrapping_neg, as_i64, I64_MAX, I64_MIN, U64_MAX. repeat case_match; lia.
Qed.

Lemma parse_value_array r k :
  parse_value (S (S r)) ("["%char :: k) =
  match visit_seq (parse_value (S r)) (S (length k)) true k with
  | Ok (vs, l) => match end_seq l with Ok l => Ok (Array vs, l) | Err e => Err e end
  | Err e => Err e
  end.
Proof. done. Qed.

Lemma parse_value_object r k :
  parse_value (S (S r)) ("{"%char :: k) =
  match visit_map (parse_value (S r)) (S (length k)) true [] k with
  | Ok (vs, l) => match end_map l with Ok l => Ok (Object vs, l) | Err e => Err e end
  | Err e => Err e
  end.
Proof. done. Qed.

Lemma value_reads_back v : value_ok false v = true -> forall r, (depth v < r)%nat -> reads_back (parse_value r) v.
Proof.
  induction v as [|b|n|s|vs IH|vs IH] using Value_nested_ind; intros Hok r Hr l Hl; cbn [value_chars].
  - by destruct r.
  - by destruct r, b.
  - by apply number_reads.
  - unfold format_escaped_str. cbn [app]. rewrite <-app_assoc. cbn [app].
    destruct r; cbn [parse_value parse_whitespace]; [cbn in Hr; lia|].
    change (existsb _ _) with false. cbn iota.
    change (parse_str _) with (parse_str (flat_map escape_byte (chars s) ++ DQUOTE :: l)).
    by rewrite parse_escaped_str.
  - cbn [depth] in Hr. destruct r as [|[|r]]; [lia..|]. cbn [value_ok] in Hok.
    apply Nat.succ_lt_mono, Forall_depth in Hr.
    assert (Forall (reads_back (parse_value (S r))) vs) as Hall.
    { rewrite !Forall_forall in *. rewrite forallb_forall in Hok. intros v Hv.
      apply IH; [done|by apply Hok, list_elem_of_In|by apply Hr]. }
    cbn [app]. rewrite <-app_assoc. cbn [app]. rewrite parse_value_array.
    by rewrite visit_seq_all by (done || apply commas_length).
  - cbn [depth] in Hr. destruct r as [|[|r]]; [lia..|]. cbn [value_ok] in Hok.
    apply andb_true_iff in Hok as [Hs Hok]. apply Nat.succ_lt_mono, Forall_depth in Hr.
    assert (Forall (fun kv => reads_back (parse_value (S r)) kv.2) vs) as Hall.
    { rewrite !Forall_forall in *. rewrite forallb_forall in Hok. intros kv Hv.
      apply IH; [done|by apply Hok, list_elem_of_In|by apply Hr]. }
    cbn [app]. rewrite <-app_assoc. cbn [app]. rewrite parse_value_object.
    change (map _ vs) with (map entry_chars vs).
    by rewrite visit_map_all by (done || apply commas_length).
Qed.

Lemma from_str_display v :
  value_ok false v = true -> (depth v < REMAINING_DEPTH)%nat -> from_str (value_display v) = Ok v.
Proof.
  intros Hok Hd. unfold from_str, value_display. rewrite chars_of_chars.
  pose proof (value_reads_back v Hok _ Hd [] eq_refl) as Hv. rewrite app_nil_r in Hv. by rewrite Hv.
Qed.
End RoundTrip.

(** ** What the parser can return *)

Lemma str_ltb_trans a b c : str_ltb a b = true -> str_ltb b c = true -> str_ltb a c = true.
Proof.
  unfold str_ltb. revert b c. induction a as [|x a IH]; intros [|y b] [|z c]; simpl; try done.
  unfold Ascii.compare.
  destruct (N.compare_spec (N_of_ascii x) (N_of_ascii y)), (N.compare_spec (N_of_ascii y) (N_of_ascii z)),
    (N.compare_spec (N_of_ascii x) (N_of_ascii z)); try done; try lia; eauto.
Qed.

Lemma map_insert_above k0 k v l :
  str_ltb k0 k = true -> forallb (str_ltb k0) (map fst l) = true ->
  forallb (str_ltb k0) (map fst (map_insert k v l)) = true.
Proof.
  intros Hk. induction l as [|[k' v'] l IH]; simpl; [by rewrite Hk|]. intros [Hk' Hl]%andb_true_iff.
  destruct (String.compare k k'); simpl; by rewrite ?Hk, Hk', ?Hl, ?IH.
Qed.

Lemma map_insert_sorted k v l :
  keys_sorted (map fst l) = true -> keys_sorted (map fst (map_insert k v l)) = true.
Proof.
  induction l as [|[k' v'] l IH]; simpl; [done|]. intros [Hk' Hl]%andb_true_iff.
  destruct (String.compare k k') eqn:Hc; simpl.
  - by rewrite Hk', Hl.
  - assert (str_ltb k k' = true) as Hlt by (unfold str_ltb; by rewrite Hc). rewrite Hlt, Hk', Hl.
    assert (forallb (str_ltb k) (map fst l) = true) as ->; [|done].
    rewrite forallb_forall in *. intros x Hx. by eapply str_ltb_trans, Hk'.
  - rewrite IH, map_insert_above; [done| |done|done]. unfold str_ltb.
    rewrite String.compare_antisym, Hc. done.
Qed.

Lemma map_insert_forall (P : Value -> Prop) k v l :
  P v -> Forall (fun kv => P kv.2) l -> Forall (fun kv => P kv.2) (map_insert k v l).
Proof.
  intros Hv Hl. induction Hl as [|[k' v'] l Hv' Hl IH]; simpl; [by repeat constructor|].
  destruct (String.compare k k'); repeat constructor; done.
Qed.

Section Bounds.
Context `{F64}.

Lemma overflow_false a d : 0 <= a <= U64_MAX -> 0 <= d < 10 -> overflow a d U64_MAX = false -> a * 10 + d <= U64_MAX.
Proof. unfold overflow, U64_MAX. change (_ / 10) with 1844674407370955161. change (_ mod 10) with 5. lia. Qed.

Lemma parse_number_ok p s l n l' : 0 <= s <= U64_MAX -> parse_number p s l = Ok (n, l') -> number_ok true n = true.
Proof.
  intros Hs. unfold parse_number. set (i := if p then PosInt s else _).
  assert (number_ok true i = true) as Hi.
  { unfold i, wrapping_neg, as_i64, number_ok, I64_MIN, I64_MAX, U64_MAX in *. repeat case_match; simplify_eq; lia. }
  destruct l as [|c l]; [by intros [= <- _]|].
  case_match; [destruct (parse_decimal _ _ _ _) as [[]|]; [|done]; by intros [= <- _]|].
  case_match; [destruct (parse_exponent _ _ _ _) as [[]|]; [|done]; by intros [= <- _]|]. by intros [= <- _].
Qed.

Lemma integer_digits_ok p s l n l' : 0 <= s <= U64_MAX -> integer_digits p s l = Ok (n, l') -> number_ok true n = true.
Proof.
  revert s. induction l as [|c l IH]; intros s Hs; cbn [integer_digits]; [by apply parse_number_ok|].
  destruct (to_digit c) as [d|] eqn:Hd; [|by apply parse_number_ok]. apply to_digit_range in Hd.
  destruct (overflow s d U64_MAX) eqn:Ho.
  - destruct (parse_long_integer _ _ _ _) as [[]|]; [|done]. by intros [= <- _].
  - apply overflow_false in Ho; [|done..]. apply IH. lia.
Qed.

Lemma parse_integer_ok p l n l' : parse_integer p l = Ok (n, l') -> number_ok true n = true.
Proof.
  unfold parse_integer. destruct l as [|c l]; [done|]. destruct (to_digit c) as [d|] eqn:Hd; [|done].
  apply to_digit_range in Hd. case_match.
  - destruct l; [by apply parse_number_ok|]. case_match; [done|]. by apply parse_number_ok.
  - apply integer_digits_ok. unfold U64_MAX. lia.
Qed.

Lemma visit_seq_forall (P : Value -> Prop) parse fuel first l vs l' :
  (forall l v l', parse l = Ok (v, l') -> P v) -> visit_seq parse fuel first l = Ok (vs, l') -> Forall P vs.
Proof.
  intros Hp. revert first l vs. induction fuel as [|fuel IH]; intros first l vs; simpl; [done|].
  destruct (has_next_element first l) as [[l1|]|]; [|by intros [= <- _]|done].
  destruct (parse l1) as [[v l2]|] eqn:Hv; [|done].
  destruct (visit_seq parse fuel false l2) as [[ws l3]|] eqn:Hs; [|done]. intros [= <- <-]. constructor; eauto.
Qed.

Lemma visit_map_forall (P : Value -> Prop) parse fuel first acc l vs l' :
  (forall l v l', parse l = Ok (v, l') -> P v) ->
  Forall (fun kv => P kv.2) acc -> keys_sorted (map fst acc) = true ->
  visit_map parse fuel first acc l = Ok (vs, l') -> Forall (fun kv => P kv.2) vs /\ keys_sorted (map fst vs) = true.
Proof.
  intros Hp. revert first acc l. induction fuel as [|fuel IH]; intros first acc l Hacc Hs; simpl; [done|].
  destruct (has_next_key first l) as [[l1|]|]; [|by intros [= <- _]|done].
  destruct (parse_str (tail l1)) as [[k l2]|]; [|done]. destruct (parse_object_colon l2) as [l3|]; [|done].
  destruct (parse l3) as [[v l4]|] eqn:Hv; [|done]. apply IH.
  - apply map_insert_forall; eauto.
  - by apply map_insert_sorted.
Qed.

Lemma foldr_max_lt {A} (f : A -> nat) l r :
  (0 < r)%nat -> Forall (fun x => (f x < r)%nat) l -> (foldr Nat.max O (map f l) < r)%nat.
Proof. intros Hr. induction 1; simpl; lia. Qed.

(** A value of at most [r - 1] levels. *)
Definition within (r : nat) (v : Value) : Prop := value_ok true v = true /\ (depth v < r)%nat.

Lemma parse_value_within r l v l' : (0 < r)%nat -> parse_value r l = Ok (v, l') -> within r v.
Proof.
  revert l v l'. induction r as [r IH] using lt_wf_ind. intros l v l' Hr.
  destruct r as [|r]; [lia|]. cbn [parse_value]. destruct (parse_whitespace l) as [|c k]; [done|].
  do 3 (case_match; [destruct (parse_ident _ k); [|done]; intros [= <- _]; split; [done|simpl; lia]|]).
  case_match; [destruct (parse_integer _ k) as [[n l1]|] eqn:Hi; [|done]; apply parse_integer_ok in Hi;
    intros [= <- _]; split; [done|simpl; lia]|].
  case_match; [destruct (parse_integer _ (c :: k)) as [[n l1]|] eqn:Hi; [|done];
    apply parse_integer_ok in Hi; intros [= <- _]; split; [done|simpl; lia]|].
  case_match; [destruct (parse_str k) as [[s l1]|]; [|done]; intros [= <- _]; split; [done|simpl; lia]|].
  destruct r as [|r]; [by repeat case_match|]. case_match.
  - destruct (visit_seq _ _ _ k) as [[vs l1]|] eqn:Hs; [|done].
    apply (visit_seq_forall (within (S r))) in Hs; [|intros l2 v2 l3; apply IH; lia].
    destruct (end_seq l1); [|done]. intros [= <- _]. rewrite Forall_forall in Hs. split; cbn [value_ok depth].
    + apply forallb_forall. intros v Hv. by apply Hs, list_elem_of_In.
    + apply le_n_S, foldr_max_lt; [lia|]. apply Forall_forall. intros v Hv. by apply Hs.
  - case_match; [|done]. destruct (visit_map _ _ _ _ k) as [[vs l1]|] eqn:Hs; [|done].
    apply (visit_map_forall (within (S r))) in Hs as [Hs Hk]; [|intros l2 v2 l3; apply IH; lia|done..].
    destruct (end_map l1); [|done]. intros [= <- _]. rewrite Forall_forall in Hs. split; cbn [value_ok depth].
    + rewrite Hk. apply forallb_forall. intros v Hv. by apply Hs, list_elem_of_In.
    + apply le_n_S, foldr_max_lt; [lia|]. apply Forall_forall. intros v Hv. by apply Hs.
Qed.
End Bounds.

(** C21. JSON without floating-point numbers reads back, and what is read is
    bounded.  What [to_string] prints for a value whose numbers are integers of
    64 bits and which is nested less than 128 levels deep, [from_str] reads as
    that value, whatever quotes, backslashes, control characters or other bytes
    its strings have.  (Floats are left out: how they are printed and read is a
    parameter, and serde_json does not promise that they read back.)  And whatever text a server sends, a value that is
    read has at most 127 levels, so that working through it recursively cannot
    exhaust the stack, its integers fit into 64 bits and its keys are distinct. *)
Theorem json_roundtrip `{F64} :
  (forall v, value_ok false v = true -> (depth v < REMAINING_DEPTH)%nat -> from_str (value_display v) = Ok v) /\
  (forall s v, from_str s = Ok v -> value_ok true v = true /\ (depth v < REMAINING_DEPTH)%nat).
Proof.
  split; [apply from_str_display|]. intros s v.
  unfold from_str. destruct (parse_value _ _) as [[w l]|] eqn:Hv; [|done].
  apply parse_value_within in Hv; [|unfold REMAINING_DEPTH; lia]. case_match; [|done]. by intros [= <-].
Qed.

Lemma json_roundtrip_witness :
  from_str (H := {| f64_from_parts := fun _ _ _ => None; f64_neg := fun _ => "-0.0"; f64_zero := fun _ => "0.0" |})
    (value_display (Object [("a", Array [Num (NegInt (-5)); Null]); ("b", Str (of_chars [DQUOTE; chr 10; chr 200]))])) =
  Ok (Object [("a", Array [Num (NegInt (-5)); Null]); ("b", Str (of_chars [DQUOTE; chr 10; chr 200]))]).
Proof. apply json_roundtrip; [by vm_compute|unfold REMAINING_DEPTH; simpl; lia]. Defined.

(** The parser at work: escapes, surrogates, numbers at the limits, duplicate
    keys and errors. *)
Definition some_floats : F64 :=
  {| f64_from_parts := fun _ _ _ => None; f64_neg := fun _ => "-0.0"; f64_zero := fun _ => "0.0" |}.

Example from_str_examples :
  let q s := of_chars (map (fun c => if Ascii.eqb c "'" then DQUOTE else c) (chars s)) in
  let parse s := from_str (H := some_floats) (q s) in
  parse " {'b': [1, -1, true], 'a': null, 'b': 'x\u00e9\n'} " =
    Ok (Object [("a", Null); ("b", Str (of_chars (chars "x" ++ [chr 195; chr 169; chr 10])))]) /\
  parse "['\ud83d\ude00', 18446744073709551615, -9223372036854775808]" =
    Ok (Array [Str (of_chars [chr 240; chr 159; chr 152; chr 128]); Num (PosInt U64_MAX); Num (NegInt I64_MIN)]) /\
  map parse [""; "[1,]"; "[1 2]"; "01"; "-"; "'\ud83d'"; "'\x'"; "{1:2}"; "{'a' 1}"; "nul"; "1 1"; "1e400";
             of_chars (replicate 128 "["%char)]%string =
    map Err [EofWhileParsingValue; TrailingComma; ExpectedListCommaOrEnd; InvalidNumber; EofWhileParsingValue;
             UnexpectedEndOfHexEscape; InvalidEscape; KeyMustBeAString; ExpectedColon; EofWhileParsingValue;
             TrailingCharacters; NumberOutOfRange; RecursionLimitExceeded].
Proof. by vm_compute. Qed.
