(* ===== verification/Utf8.v ===== *)
(** * UTF-8 text: [String::from_utf8_lossy], [trim], [is_char_boundary]

    A Rust [str] is a sequence of UTF-8 bytes.  The functions here work on the
    bytes, as [core::str] does: lossy decoding replaces every maximal invalid
    sequence by U+FFFD, trimming removes the encodings of the characters with
    the [White_Space] property, and a position is a character boundary when
    the byte there is not a continuation byte. *)

From Stdlib Require Import ZArith Lia Ascii.
From stdpp Require Import base numbers strings list.
From S2P Require Import Prelude RustStd.
Open Scope Z_scope.

(** ** Lossy decoding: [core::str::lossy::Utf8Chunks] *)

(** [safe_get]: bytes past the end read as 0. *)
Definition safe_get (l : list ascii) (i : nat) : Z := from_option code 0 (l !! i).

Definition in_range (lo hi z : Z) : bool := (lo <=? z) && (z <=? hi).
Definition is_cont (z : Z) : bool := in_range 128 191 z.

Definition utf8_char_width (b : Z) : nat :=
  if in_range 0 127 b then 1
  else if in_range 194 223 b then 2
  else if in_range 224 239 b then 3
  else if in_range 240 244 b then 4
  else 0.

(** Second byte of a three-byte sequence: no overlong forms, no surrogates. *)
Definition second_of_three (b c : Z) : bool :=
  (b =? 224) && in_range 160 191 c || in_range 225 236 b && is_cont c ||
  (b =? 237) && in_range 128 159 c || in_range 238 239 b && is_cont c.

Definition second_of_four (b c : Z) : bool :=
  (b =? 240) && in_range 144 191 c || in_range 241 243 b && is_cont c ||
  (b =? 244) && in_range 128 143 c.

(** The first chunk of a non-empty input: whether it is a character, and how
    many bytes it takes. *)
Definition utf8_first (l : list ascii) : bool * nat :=
  let b := safe_get l 0 in
  match utf8_char_width b with
  | 1%nat => (true, 1%nat)
  | 2%nat => if is_cont (safe_get l 1) then (true, 2%nat) else (false, 1%nat)
  | 3%nat =>
      if second_of_three b (safe_get l 1) then
        if is_cont (safe_get l 2) then (true, 3%nat) else (false, 2%nat)
      else (false, 1%nat)
  | 4%nat =>
      if second_of_four b (safe_get l 1) then
        if is_cont (safe_get l 2) then
          if is_cont (safe_get l 3) then (true, 4%nat) else (false, 3%nat)
        else (false, 2%nat)
      else (false, 1%nat)
  | _ => (false, 1%nat)
  end.

Fixpoint utf8_chunks (fuel : nat) (l : list ascii) : list (bool * list ascii) :=
  match fuel, l with
  | O, _ | _, [] => []
  | S fuel, _ =>
      let '(valid, n) := utf8_first l in
      (valid, take n l) :: utf8_chunks fuel (drop n l)
  end.

(** U+FFFD. *)
Definition replacement : list ascii := [chr 239; chr 191; chr 189].

Definition from_utf8_lossy (l : list ascii) : string :=
  of_chars (concat ((fun c : bool * list ascii => if c.1 then c.2 else replacement)
    <$> utf8_chunks (length l) l)).

(** What makes a byte sequence a [str]. *)
Definition utf8_valid (l : list ascii) : bool := forallb fst (utf8_chunks (length l) l).

(** ** White space and trimming *)

(** The encodings of the [White_Space] characters: U+0009..U+000D, U+0020,
    U+0085, U+00A0, U+1680, U+2000..U+200A, U+2028, U+2029, U+202F, U+205F,
    U+3000. *)
Definition white_space (l : list ascii) : bool :=
  match code <$> l with
  | [a] => in_range 9 13 a || (a =? 32)
  | [a; b] => (a =? 194) && ((b =? 133) || (b =? 160))
  | [a; b; c] =>
      (a =? 225) && (b =? 154) && (c =? 128) ||
      (a =? 226) && (b =? 128) && (in_range 128 138 c || (c =? 168) || (c =? 169) || (c =? 175)) ||
      (a =? 226) && (b =? 129) && (c =? 159) ||
      (a =? 227) && (b =? 128) && (c =? 128)
  | _ => false
  end.

Fixpoint trim_front (fuel : nat) (l : list ascii) : list ascii :=
  match fuel with
  | O => l
  | S fuel =>
      if white_space (take 1 l) then trim_front fuel (drop 1 l)
      else if white_space (take 2 l) then trim_front fuel (drop 2 l)
      else if white_space (take 3 l) then trim_front fuel (drop 3 l)
      else l
  end.

(** The same from the end, on the reversed bytes. *)
Fixpoint trim_back (fuel : nat) (r : list ascii) : list ascii :=
  match fuel with
  | O => r
  | S fuel =>
      if white_space (reverse (take 1 r)) then trim_back fuel (drop 1 r)
      else if white_space (reverse (take 2 r)) then trim_back fuel (drop 2 r)
      else if white_space (reverse (take 3 r)) then trim_back fuel (drop 3 r)
      else r
  end.

Definition trim_end_chars (l : list ascii) : list ascii :=
  reverse (trim_back (length l) (reverse l)).
Definition trim_end (s : string) : string := of_chars (trim_end_chars (chars s)).
Definition trim (s : string) : string :=
  of_chars (trim_end_chars (trim_front (String.length s) (chars s))).

(** ** Character boundaries *)

Definition is_char_boundary (l : list ascii) (i : nat) : bool :=
  match l !! i with
  | Some c => negb (is_cont (code c)) || (i =? 0)%nat
  | None => (i =? length l)%nat
  end.

(** ** Facts *)

Lemma utf8_first_pos l : (1 <= (utf8_first l).2)%nat.
Proof. unfold utf8_first. repeat case_match; simpl; lia. Qed.

Lemma safe_get_app_l l k i : (i < length l)%nat -> safe_get (l ++ k) i = safe_get l i.
Proof. intros Hi. unfold safe_get. by rewrite lookup_app_l. Qed.

Lemma safe_get_take l n i : (i < n)%nat -> safe_get (take n l) i = safe_get l i.
Proof. intros Hi. unfold safe_get. by rewrite lookup_take_lt. Qed.

Lemma safe_get_cont l i : is_cont (safe_get l i) = true -> (i < length l)%nat.
Proof.
  unfold safe_get. destruct (l !! i) eqn:Hi; [intros _; by eapply lookup_lt_Some|done].
Qed.

Lemma second_of_three_cont b c : second_of_three b c = true -> is_cont c = true.
Proof. unfold second_of_three, is_cont, in_range. lia. Qed.

Lemma second_of_four_cont b c : second_of_four b c = true -> is_cont c = true.
Proof. unfold second_of_four, is_cont, in_range. lia. Qed.

#[local] Hint Resolve safe_get_cont second_of_three_cont second_of_four_cont : core.

(** A character fits in the input. *)
Lemma utf8_first_length l n : l <> [] -> utf8_first l = (true, n) -> (n <= length l)%nat.
Proof.
  intros Hl. unfold utf8_first.
  assert (0 < length l)%nat by (destruct l; simpl; [done|lia]).
  repeat case_match; intros; simplify_eq; try lia; apply Nat.le_succ_l; eauto.
Qed.

(** One character, whatever follows it. *)
Definition is_char (c : list ascii) : Prop :=
  c <> [] /\ forall k, utf8_first (c ++ k) = (true, length c).

Lemma utf8_first_is_char l n : l <> [] -> utf8_first l = (true, n) -> is_char (take n l).
Proof.
  intros Hl Hf. pose proof (utf8_first_length _ _ Hl Hf). pose proof (utf8_first_pos l) as Hpos.
  rewrite Hf in Hpos. simpl in Hpos. split.
  { intros H'%(f_equal length). rewrite length_take in H'. simpl in H'. lia. }
  intros k. rewrite length_take, Nat.min_l by lia. rewrite <-Hf.
  assert (forall i, (i < n)%nat -> safe_get (take n l ++ k) i = safe_get l i) as Hg.
  { intros i Hi. rewrite safe_get_app_l by (rewrite length_take; lia). by apply safe_get_take. }
  revert Hf. unfold utf8_first. rewrite (Hg 0%nat) by lia.
  repeat case_match; intros; simplify_eq; rewrite ?Hg in * by lia; congruence.
Qed.

Lemma utf8_chunks_sound fuel l :
  Forall (fun c : bool * list ascii => c.1 = true -> is_char c.2) (utf8_chunks fuel l).
Proof.
  revert l. induction fuel as [|fuel IH]; intros [|x l]; [constructor..|]. cbn [utf8_chunks].
  destruct (utf8_first (x :: l)) as [v n] eqn:Hf. constructor; [|apply IH].
  intros Hv. simpl in Hv. subst v. by apply utf8_first_is_char.
Qed.

Lemma utf8_chunks_concat fuel l :
  (length l <= fuel)%nat -> concat (utf8_chunks fuel l).*2 = l.
Proof.
  revert l. induction fuel as [|fuel IH]; intros [|x l] Hlen; simpl in Hlen; [done|lia|done|].
  cbn [utf8_chunks]. pose proof (utf8_first_pos (x :: l)) as Hpos.
  destruct (utf8_first (x :: l)) as [v n]. cbn [fmap list_fmap concat snd] in *.
  rewrite IH; [apply take_drop|]. rewrite length_drop. simpl. lia.
Qed.

Lemma utf8_chunks_chars cs fuel :
  Forall is_char cs -> (length (concat cs) <= fuel)%nat ->
  utf8_chunks fuel (concat cs) = (fun c => (true, c)) <$> cs.
Proof.
  revert fuel. induction cs as [|c cs IH]; intros fuel Hcs Hlen; [by destruct fuel|].
  apply Forall_cons in Hcs as [[Hne Hc] Hcs]. cbn [concat] in *.
  rewrite length_app in Hlen. destruct c as [|x c]; [done|].
  destruct fuel as [|fuel]; [simpl in Hlen; lia|].
  cbn [utf8_chunks app]. change (x :: c ++ concat cs) with ((x :: c) ++ concat cs).
  rewrite Hc, take_app_length, drop_app_length, IH; [done|done|]. simpl in Hlen. lia.
Qed.

Lemma replacement_is_char : is_char replacement.
Proof. split; [done|]. by intros k. Qed.

Lemma from_utf8_lossy_valid l : utf8_valid (chars (from_utf8_lossy l)) = true.
Proof.
  unfold from_utf8_lossy, utf8_valid. rewrite chars_of_chars.
  rewrite utf8_chunks_chars; [|apply Forall_fmap|done].
  - apply forallb_forall. intros [b c]. rewrite <-list_elem_of_In, list_elem_of_fmap.
    by intros (? & [= -> ->] & _).
  - eapply Forall_impl; [apply utf8_chunks_sound|]. intros [[] c] Hc; simpl; [by apply Hc|].
    apply replacement_is_char.
Qed.

Lemma from_utf8_lossy_id l : utf8_valid l = true -> chars (from_utf8_lossy l) = l.
Proof.
  unfold from_utf8_lossy, utf8_valid. rewrite chars_of_chars. intros Hv.
  transitivity (concat (utf8_chunks (length l) l).*2); [f_equal|by apply utf8_chunks_concat].
  apply list_fmap_ext. intros i [v c] Hi%list_elem_of_lookup_2.
  rewrite forallb_forall in Hv. rewrite list_elem_of_In in Hi. by rewrite (Hv _ Hi).
Qed.

(** Trimming the end keeps a prefix. *)
Lemma trim_back_suffix fuel r : exists k, r = k ++ trim_back fuel r.
Proof.
  revert r. induction fuel as [|fuel IH]; intros r; simpl; [by exists []|].
  assert (forall n, exists k, r = k ++ trim_back fuel (drop n r)) as Hn.
  { intros n. destruct (IH (drop n r)) as [k Hk]. exists (take n r ++ k).
    by rewrite <-app_assoc, <-Hk, take_drop. }
  repeat case_match; try apply Hn. by exists [].
Qed.

