(* ===== verification/Chrono.v ===== *)
(** * Time stamps: [chrono::DateTime<Utc>] and the format of backup names

    The date algorithm is chrono's own: a 400-year cycle, the number of leap
    days before each of its years, and the ordinal day of the year.  The
    lemmas show that dates and printed times determine the instant, to the
    second. *)

From Stdlib Require Import ZArith Lia Ascii.
From stdpp Require Import base numbers strings list.
From S2P Require Import Prelude RustStd.
Open Scope Z_scope.

(** [lia] with quotients and remainders. *)
Ltac div_lia := Z.to_euclidean_division_equations; lia.

(** Seconds since the Unix epoch and the nanoseconds of the second, which
    reach beyond 10^9 in a leap second. *)
Record DateTime := mkDateTime { timestamp : Z; timestamp_subsec_nanos : Z }.

#[global] Instance DateTime_eq_dec : EqDecision DateTime.
Proof. solve_decision. Defined.

(** What chrono guarantees of a value: a leap second follows second 59. *)
Definition DateTime_wf (t : DateTime) : Prop :=
  0 <= timestamp_subsec_nanos t < 2 * NANOS_PER_SEC /\
  (NANOS_PER_SEC <= timestamp_subsec_nanos t -> timestamp t mod 60 = 59).

(** [Ord for DateTime]. *)
Definition dt_leb (a b : DateTime) : bool :=
  (timestamp a <? timestamp b) ||
  (timestamp a =? timestamp b) && (timestamp_subsec_nanos a <=? timestamp_subsec_nanos b).
Definition dt_le (a b : DateTime) : Prop := dt_leb a b = true.

(** ** Calendar dates *)

(** [YEAR_DELTAS[y]]: leap days in the years [0..y] of a cycle, [y] excluded. *)
Definition year_delta (y : Z) : Z := (y + 3) / 4 - (y + 99) / 100 + (y + 399) / 400.

Definition cycle_to_yo (cycle : Z) : Z * Z :=
  let year_mod_400 := cycle / 365 in
  let ordinal0 := cycle mod 365 in
  let delta := year_delta year_mod_400 in
  if ordinal0 <? delta
  then (year_mod_400 - 1, ordinal0 + 365 - year_delta (year_mod_400 - 1) + 1)
  else (year_mod_400, ordinal0 - delta + 1).

Definition yo_to_cycle (year_mod_400 ordinal : Z) : Z :=
  year_mod_400 * 365 + year_delta year_mod_400 + ordinal - 1.

Definition is_leap (y : Z) : bool :=
  (y mod 4 =? 0) && (negb (y mod 100 =? 0) || (y mod 400 =? 0)).

Definition month_lengths (leap : bool) : list Z :=
  [31; if leap then 29 else 28; 31; 30; 31; 30; 31; 31; 30; 31; 30; 31].

(** Month and day of an ordinal day, counted from the month [m]. *)
Fixpoint month_day (m : Z) (lens : list Z) (ordinal : Z) : Z * Z :=
  match lens with
  | [] => (m, ordinal)
  | n :: lens => if ordinal <=? n then (m, ordinal) else month_day (m + 1) lens (ordinal - n)
  end.

(** Days between 0000-01-01 and 1970-01-01. *)
Definition EPOCH_DAY : Z := 719528.

Record NaiveDate := mkDate { year : Z; month : Z; day : Z }.

Definition date_of_days (days : Z) : NaiveDate :=
  let d := days + EPOCH_DAY in
  let '(y, o) := cycle_to_yo (d mod 146097) in
  let '(m, dd) := month_day 1 (month_lengths (is_leap y)) o in
  mkDate (d / 146097 * 400 + y) m dd.

(** ** [%Y-%m-%d_%H:%M:%S] *)

Definition write_two (v : Z) : list ascii := [digit_char (v / 10); digit_char (v mod 10)].

Definition pad_zero (n : nat) (l : list ascii) : list ascii :=
  replicate (n - length l) "0"%char ++ l.

(** Four digits; a sign outside the years 0 to 9999. *)
Definition write_year (y : Z) : list ascii :=
  if (1000 <=? y) && (y <=? 9999) then write_two (y / 100) ++ write_two (y mod 100)
  else if (0 <=? y) && (y <? 10000) then pad_zero 4 (nat_digits y)
  else (if y <? 0 then "-"%char else "+"%char) :: pad_zero 4 (nat_digits (Z.abs y)).

Definition format_name_time (t : DateTime) : string :=
  let date := date_of_days (timestamp t / 86400) in
  let sod := timestamp t mod 86400 in
  of_chars (write_year (year date) ++ ["-"%char] ++ write_two (month date) ++ ["-"%char] ++
            write_two (day date) ++ ["_"%char] ++ write_two (sod / 3600) ++ [":"%char] ++
            write_two (sod / 60 mod 60) ++ [":"%char] ++
            write_two (sod mod 60 + timestamp_subsec_nanos t / NANOS_PER_SEC)).

(** ** The order *)

Lemma dt_leb_total a b : dt_leb a b = true \/ dt_leb b a = true.
Proof. unfold dt_leb. lia. Qed.

#[global] Instance dt_le_dec : RelDecision dt_le.
Proof. intros a b. unfold dt_le. apply _. Defined.

#[global] Instance dt_le_preorder : PreOrder dt_le.
Proof. unfold dt_le, dt_leb. split; [intros a|intros a b c]; lia. Qed.

#[global] Instance dt_le_total : Total dt_le.
Proof. intros a b. apply dt_leb_total. Qed.

Lemma dt_le_antisym a b : dt_le a b -> dt_le b a -> a = b.
Proof. unfold dt_le, dt_leb. destruct a, b; simpl. intros. f_equal; lia. Qed.

(** ** Dates determine days *)

Lemma yo_cycle_roundtrip c y o : cycle_to_yo c = (y, o) -> yo_to_cycle y o = c.
Proof.
  unfold cycle_to_yo, yo_to_cycle. pose proof (Z.div_mod c 365 ltac:(lia)).
  destruct (_ <? _); intros [= <- <-]; lia.
Qed.

Lemma cycle_to_yo_range c y o :
  0 <= c < 146097 -> cycle_to_yo c = (y, o) ->
  0 <= y < 400 /\ 1 <= o <= (if is_leap y then 366 else 365).
Proof.
  intros Hc. unfold cycle_to_yo, is_leap. destruct (_ <? _) eqn:Hlt; intros [= <- <-];
    unfold year_delta in *.
  - set (q := c / 365) in *. assert (1 <= q <= 400) by div_lia. split; [lia|].
    destruct (_ && _) eqn:Hleap; div_lia.
  - assert (c / 365 < 400) by div_lia. split; [div_lia|]. destruct (_ && _); div_lia.
Qed.

(** Ordinal day of a month and a day. *)
Definition ordinal_of (leap : bool) (m d : Z) : Z :=
  foldr Z.add 0 (take (Z.to_nat (m - 1)) (month_lengths leap)) + d.

Definition month_day_ok (leap : bool) (o : Z) : bool :=
  let '(m, d) := month_day 1 (month_lengths leap) o in
  (1 <=? m) && (m <=? 12) && (1 <=? d) && (d <=? 31) && (ordinal_of leap m d =? o).

Lemma month_day_inverse (leap : bool) (o m d : Z) :
  1 <= o <= (if leap then 366 else 365) -> month_day 1 (month_lengths leap) o = (m, d) ->
  1 <= m <= 12 /\ 1 <= d <= 31 /\ ordinal_of leap m d = o.
Proof.
  intros Ho Hmd.
  assert (month_day_ok leap o = true) as Hok.
  { apply (forallb_range _ 1 (if leap then 366 else 365)); [|destruct leap; lia].
    destruct leap; by vm_compute. }
  unfold month_day_ok in Hok. rewrite Hmd in Hok. lia.
Qed.

Lemma date_of_days_range days :
  1 <= month (date_of_days days) <= 12 /\ 1 <= day (date_of_days days) <= 31.
Proof.
  unfold date_of_days. destruct (cycle_to_yo _) as [y o] eqn:Hyo.
  apply cycle_to_yo_range in Hyo; [|div_lia].
  destruct (month_day _ _ _) as [m d] eqn:Hmd. apply month_day_inverse in Hmd; simpl; [lia|].
  destruct (is_leap y); lia.
Qed.

Lemma date_of_days_inj a b : date_of_days a = date_of_days b -> a = b.
Proof.
  unfold date_of_days.
  destruct (cycle_to_yo ((a + _) mod _)) as [ya oa] eqn:Ha.
  destruct (cycle_to_yo ((b + _) mod _)) as [yb ob] eqn:Hb.
  pose proof (yo_cycle_roundtrip _ _ _ Ha) as Hca. pose proof (yo_cycle_roundtrip _ _ _ Hb) as Hcb.
  apply cycle_to_yo_range in Ha as [Hya Hoa]; [|div_lia].
  apply cycle_to_yo_range in Hb as [Hyb Hob]; [|div_lia].
  destruct (month_day _ _ oa) as [ma da] eqn:Hma, (month_day _ _ ob) as [mb db] eqn:Hmb.
  apply month_day_inverse in Hma as (_ & _ & Hma); [|by destruct (is_leap ya)].
  apply month_day_inverse in Hmb as (_ & _ & Hmb); [|by destruct (is_leap yb)].
  intros [= Hy -> ->].
  assert (ya = yb) as -> by div_lia. assert (oa = ob) as -> by congruence.
  rewrite Hcb in Hca. clear - Hca Hy. div_lia.
Qed.

(** ** The printed time determines the second *)

Lemma digit_char_inj a b : 0 <= a < 10 -> 0 <= b < 10 -> digit_char a = digit_char b -> a = b.
Proof.
  intros Ha Hb H%(f_equal code). unfold digit_char in H. rewrite !code_chr in H; lia.
Qed.

Lemma write_two_inj v w : 0 <= v < 100 -> 0 <= w < 100 -> write_two v = write_two w -> v = w.
Proof.
  intros Hv Hw [= H1%digit_char_inj H2%digit_char_inj]; div_lia.
Qed.

Lemma parse_pad_zero neg lo hi n l :
  lo <= 0 <= hi -> parse_digits neg lo hi 0 (pad_zero n l) = parse_digits neg lo hi 0 l.
Proof.
  intros Hlh. unfold pad_zero. rewrite parse_digits_app.
  assert (forall k, parse_digits neg lo hi 0 (replicate k "0"%char) = Ok 0) as ->; [|done].
  induction k as [|k IH]; [done|]. cbn [replicate parse_digits].
  change (to_digit "0") with (Some 0). change (0 * 10) with 0. rewrite try_from_in by lia.
  destruct neg; rewrite try_from_in by lia; apply IH.
Qed.

(** A printed year reads back as an integer. *)
Lemma parse_write_year lo hi y :
  lo < 0 < hi -> lo <= y <= hi -> parse_int lo hi (of_chars (write_year y)) = Ok y.
Proof.
  intros Hlh Hy. unfold write_year.
  destruct ((1000 <=? y) && (y <=? 9999)) eqn:H1; [|destruct ((0 <=? y) && (y <? 10000)) eqn:H2].
  - unfold write_two. cbn [app]. rewrite parse_int_digits by (unfold digit_char; rewrite code_chr; div_lia).
    cbn [parse_digits]. rewrite !to_digit_char by div_lia.
    repeat (rewrite try_from_in by div_lia). f_equal. div_lia.
  - assert (exists c l, pad_zero 4 (nat_digits y) = c :: l /\ 48 <= code c <= 57) as (c & l & Hcl & Hc).
    { pose proof (digits_decimal (S (Z.to_nat (Z.log2 y))) y ltac:(lia)) as Hf.
      change (digits _ y) with (nat_digits y) in Hf.
      destruct (pad_zero 4 (nat_digits y)) as [|c l] eqn:Hp.
      - unfold pad_zero in Hp. apply app_eq_nil in Hp as [_ Hp]. by apply digits_nonempty in Hp.
      - exists c, l. split; [done|]. assert (Forall (fun c => 48 <= code c <= 57) (c :: l)) as Hall.
        { rewrite <-Hp. apply Forall_app. split; [|done]. apply Forall_replicate. done. }
        by apply Forall_cons in Hall as [? _]. }
    rewrite Hcl, parse_int_digits, <-Hcl, parse_pad_zero by (done || lia).
    rewrite parse_nat_digits by (simpl; lia). done.
  - assert (forall z, exists c l, pad_zero 4 (nat_digits z) = c :: l) as Hne.
    { intros z. destruct (pad_zero 4 (nat_digits z)) as [|c l] eqn:Hp; [|eauto].
      unfold pad_zero in Hp. apply app_eq_nil in Hp as [_ Hp]. by apply digits_nonempty in Hp. }
    destruct (Hne (Z.abs y)) as (c & l & Hcl).
    pose proof (parse_nat_digits (y <? 0) lo hi (Z.abs y) ltac:(lia) ltac:(lia)) as Hp.
    rewrite <-(parse_pad_zero _ _ _ 4), Hcl in Hp by lia. rewrite Hcl. unfold parse_int.
    rewrite chars_of_chars. destruct (Z.ltb_spec y 0); cbn -[parse_digits].
    + replace (lo <? 0) with true by lia. rewrite Hp by (simpl; lia). f_equal. simpl. lia.
    + rewrite Hp by (simpl; lia). f_equal. simpl. lia.
Qed.

Lemma write_year_inj y z : write_year y = write_year z -> y = z.
Proof.
  intros H. set (b := Z.abs y + Z.abs z + 1).
  pose proof (parse_write_year (-b) b y ltac:(lia) ltac:(lia)) as Hy.
  pose proof (parse_write_year (-b) b z ltac:(lia) ltac:(lia)) as Hz.
  rewrite H in Hy. congruence.
Qed.

(** The second hand: 60 in a leap second. *)
Lemma second_range t :
  DateTime_wf t ->
  0 <= timestamp t mod 86400 mod 60 + timestamp_subsec_nanos t / NANOS_PER_SEC <= 60.
Proof. unfold DateTime_wf, NANOS_PER_SEC. intros []. div_lia. Qed.

Lemma format_name_time_inj t u :
  DateTime_wf t -> DateTime_wf u -> format_name_time t = format_name_time u ->
  timestamp t = timestamp u /\
  timestamp_subsec_nanos t / NANOS_PER_SEC = timestamp_subsec_nanos u / NANOS_PER_SEC.
Proof.
  intros Ht Hu H%(f_equal chars). unfold format_name_time in H. rewrite !chars_of_chars in H.
  apply app_inj_2 in H as [Hy%write_year_inj [= Hm1 Hm2 Hd1 Hd2 Hh1 Hh2 Hi1 Hi2 Hs1 Hs2]]; [|done].
  pose proof (second_range t Ht). pose proof (second_range u Hu).
  pose proof (date_of_days_range (timestamp t / 86400)).
  pose proof (date_of_days_range (timestamp u / 86400)).
  assert (forall v w, 0 <= v < 100 -> 0 <= w < 100 ->
    digit_char (v / 10) = digit_char (w / 10) -> digit_char (v mod 10) = digit_char (w mod 10) ->
    v = w) as Hinj.
  { intros v w Hv Hw E1 E2. apply write_two_inj; [done..|]. unfold write_two. congruence. }
  apply Hinj in Hm2; [|lia..|done]. apply Hinj in Hd2; [|lia..|done].
  apply Hinj in Hh2; [|div_lia..|done]. apply Hinj in Hi2; [|div_lia..|done].
  apply Hinj in Hs2; [|lia..|done].
  assert (timestamp t / 86400 = timestamp u / 86400) as Hday.
  { apply date_of_days_inj. destruct (date_of_days _), (date_of_days _); simpl in *. congruence. }
  clear - Ht Hu Hday Hh2 Hi2 Hs2. unfold DateTime_wf, NANOS_PER_SEC in *.
  destruct Ht as [Htn Htl], Hu as [Hun Hul].
  set (a := timestamp_subsec_nanos t) in *. set (b := timestamp_subsec_nanos u) in *.
  assert (a / 1000000000 = 0 \/ a / 1000000000 = 1 /\ timestamp t mod 60 = 59) as Ha by div_lia.
  assert (b / 1000000000 = 0 \/ b / 1000000000 = 1 /\ timestamp u mod 60 = 59) as Hb by div_lia.
  clear Htl Hul Htn Hun. clearbody a b.
  set (x := a / 1000000000) in *. set (y := b / 1000000000) in *. clearbody x y. div_lia.
Qed.
