(* ===== verification/Core.v ===== *)
(** * [backup-core]: the domain types and their pure rules

    Errors ([error.rs]), backup kinds, records and retention ([backup.rs]),
    formats and file names ([format.rs]), database targets ([target.rs]).
    The theorems: retention keeps the newest backups and touches nothing but
    regular [pg_dump] files; names and stored properties round-trip; a printed
    target does not depend on the password. *)

From Stdlib Require Import ZArith Lia Ascii.
From stdpp Require Import base numbers sorting strings list.
From S2P Require Import Prelude RustStd Chrono.
Open Scope Z_scope.
Open Scope rust_scope.

(** ** [error.rs]

    [StorageError] and [IoError] are [Error::Storage] and [Error::Io]; the
    source of an I/O error is kept as the text it prints. *)

Inductive Error :=
| Config (msg : string)
| NotFound (msg : string)
| FailedPrecondition (msg : string)
| Busy (msg : string)
| Timeout (operation : string) (limit : Duration)
| InvalidArgument (msg : string)
| StorageError (msg : string)
| Unavailable (msg : string)
| Process (program status stderr : string)
| IoError (context source : string).

Abbreviation Result A := (result A Error).

Definition Error_display (e : Error) : string :=
  match e with
  | Config m => "configuration error: " +:+ m
  | NotFound m => "not found: " +:+ m
  | FailedPrecondition m => "precondition failed: " +:+ m
  | Busy m => "busy: " +:+ m
  | Timeout op limit => op +:+ " timed out after " +:+ duration_debug limit
  | InvalidArgument m => "invalid argument: " +:+ m
  | StorageError m => "storage error: " +:+ m
  | Unavailable m => "storage unavailable: " +:+ m
  | Process program status stderr =>
      "`" +:+ program +:+ "` failed with " +:+ status +:+ ": " +:+ stderr
  | IoError context source => context +:+ ": " +:+ source
  end.

(** [Error::io]. *)
Definition Error_io (context source : string) : Error := IoError context source.

(** ** [backup.rs]: kinds *)

Inductive BackupKind := Regular | PreRestore.

#[global] Instance BackupKind_eq_dec : EqDecision BackupKind.
Proof. solve_decision. Defined.

Definition BackupKind_as_str (k : BackupKind) : string :=
  match k with Regular => "regular" | PreRestore => "pre_restore" end.

Definition BackupKind_parse (value : option string) : Result BackupKind :=
  match value with
  | None => Ok Regular
  | Some v =>
      if String.eqb v "regular" then Ok Regular
      else if String.eqb v "pre_restore" then Ok PreRestore
      else Err (FailedPrecondition ("unknown backup kind '" +:+ v +:+ "'"))
  end.

(** ** [format.rs] *)

Definition PG_CUSTOM_EXTENSION : string := "pgdump".
Definition LEGACY_EXTENSION : string := "dump".
Definition PRE_RESTORE_PREFIX : string := "pre_restore_".

Inductive BackupFormat := PgCustom | LegacyJsonZstd.

#[global] Instance BackupFormat_eq_dec : EqDecision BackupFormat.
Proof. solve_decision. Defined.

Definition BackupFormat_as_str (f : BackupFormat) : string :=
  match f with PgCustom => "pg_custom" | LegacyJsonZstd => "legacy_json_zstd" end.

Definition BackupFormat_parse (value : string) : option BackupFormat :=
  if String.eqb value "pg_custom" then Some PgCustom
  else if String.eqb value "legacy_json_zstd" then Some LegacyJsonZstd
  else None.

Definition backup_file_name (db_name : string) (kind : BackupKind) (now : DateTime) : string :=
  let prefix := match kind with Regular => "" | PreRestore => PRE_RESTORE_PREFIX end in
  prefix +:+ "backup_" +:+ db_name +:+ "_" +:+ format_name_time now +:+ "." +:+ PG_CUSTOM_EXTENSION.

Definition detect_format (file_name : string) (format_property : option string)
    : Result BackupFormat :=
  match format_property with
  | Some value =>
      ok_or (BackupFormat_parse value)
        (FailedPrecondition ("unknown backup format '" +:+ value +:+ "' of '" +:+ file_name +:+ "'"))
  | None =>
      let undetected :=
        Err (FailedPrecondition ("could not detect backup format of '" +:+ file_name +:+ "'")) in
      match path_extension file_name with
      | Some ext =>
          if String.eqb ext PG_CUSTOM_EXTENSION then Ok PgCustom
          else if String.eqb ext LEGACY_EXTENSION then Ok LegacyJsonZstd
          else undetected
      | None => undetected
      end
  end.

(** ** [backup.rs]: records *)

Record BackupInfo := mkBackupInfo {
  id : string;
  name : string;
  created_at : DateTime;
  size_bytes : option Z;
  md5 : option string;
  format : BackupFormat;
  kind : BackupKind;
}.

#[global] Instance BackupInfo_eq_dec : EqDecision BackupInfo.
Proof. solve_decision. Defined.

Record Page (A : Type) := mkPage { items : list A; next_page_token : option string }.
Arguments mkPage {A}.
Arguments items {A}.
Arguments next_page_token {A}.

(** A local path. *)
Definition path := string.

Record UploadRequest := mkUploadRequest {
  req_path : path;
  req_name : string;
  req_db_name : string;
  req_format : BackupFormat;
  req_kind : BackupKind;
}.

(** [UploadRequest::pg_dump]. *)
Definition UploadRequest_pg_dump (p : path) (db_name : string) (k : BackupKind) (now : DateTime)
    : UploadRequest :=
  {| req_path := p;
     req_name := backup_file_name db_name k now;
     req_db_name := db_name;
     req_format := PgCustom;
     req_kind := k |}.

(** ** [backup.rs]: retention *)

Definition prunable (b : BackupInfo) : bool :=
  bool_decide (kind b = Regular) && bool_decide (format b = PgCustom).

(** [slice::sort_by_key] is a stable sort; the key is [Reverse(created_at)]. *)
Fixpoint insert_newest_first (x : BackupInfo) (l : list BackupInfo) : list BackupInfo :=
  match l with
  | [] => [x]
  | y :: l =>
      if dt_leb (created_at y) (created_at x) then x :: y :: l
      else y :: insert_newest_first x l
  end.

Fixpoint sort_newest_first (l : list BackupInfo) : list BackupInfo :=
  match l with
  | [] => []
  | x :: l => insert_newest_first x (sort_newest_first l)
  end.

Definition retention_candidates (backups : list BackupInfo) (keep : nat) : list BackupInfo :=
  drop keep (sort_newest_first (List.filter prunable backups)).

(** ** [target.rs] *)

(** [Secret] is a string that [Debug] does not print. *)
Record Secret := Secret_new { expose : string }.

Definition Secret_debug (s : Secret) : string := "Secret(***)".

Record DbTarget := mkDbTarget {
  host : string;
  port : Z;
  user : string;
  password : Secret;
  db : string;
}.

(** [Debug for str] escapes by Unicode tables; it is left open. *)
Class RustFmt := { str_debug : string -> string }.

(** [#[derive(Debug)]] for [DbTarget]; its field [name] is [db] here. *)
Definition DbTarget_debug `{RustFmt} (t : DbTarget) : string :=
  "DbTarget { host: " +:+ str_debug (host t) +:+ ", port: " +:+ int_to_string (port t) +:+
  ", user: " +:+ str_debug (user t) +:+ ", password: " +:+ Secret_debug (password t) +:+
  ", name: " +:+ str_debug (db t) +:+ " }".

(** ** Facts: sorting *)

(** [newer x y]: [x] is listed before or with [y]. *)
Definition newer (x y : BackupInfo) : Prop := dt_le (created_at y) (created_at x).

#[global] Instance newer_trans : Transitive newer.
Proof. intros x y z Hxy Hyz. unfold newer in *. by etrans. Qed.

Lemma insert_newest_first_perm x l : insert_newest_first x l ≡ₚ x :: l.
Proof.
  induction l as [|y l IH]; simpl; [done|]. destruct (dt_leb _ _); [done|].
  rewrite IH. apply Permutation_swap.
Qed.

Lemma sort_newest_first_perm l : sort_newest_first l ≡ₚ l.
Proof.
  induction l as [|x l IH]; simpl; [done|]. by rewrite insert_newest_first_perm, IH.
Qed.

Lemma insert_newest_first_sorted x l :
  StronglySorted newer l -> StronglySorted newer (insert_newest_first x l).
Proof.
  induction l as [|y l IH]; intros Hs; simpl; [by repeat constructor|].
  apply StronglySorted_cons in Hs as [Hy Hs].
  destruct (dt_leb (created_at y) (created_at x)) eqn:Hxy.
  - apply StronglySorted_cons. split; [|by apply StronglySorted_cons].
    constructor; [exact Hxy|]. eapply Forall_impl; [exact Hy|].
    intros z Hz. unfold newer in *. etrans; [exact Hz|exact Hxy].
  - apply StronglySorted_cons. split; [|by apply IH].
    rewrite insert_newest_first_perm. constructor; [|done].
    destruct (dt_leb_total (created_at y) (created_at x)); [congruence|done].
Qed.

Lemma sort_newest_first_sorted l : StronglySorted newer (sort_newest_first l).
Proof.
  induction l as [|x l IH]; simpl; [constructor|]. by apply insert_newest_first_sorted.
Qed.

(** Equal keys keep their order. *)
Lemma insert_newest_first_stable t x l :
  StronglySorted newer l ->
  List.filter (fun b => bool_decide (created_at b = t)) (insert_newest_first x l) =
  List.filter (fun b => bool_decide (created_at b = t)) (x :: l).
Proof.
  induction l as [|y l IH]; intros Hs; [done|].
  apply StronglySorted_cons in Hs as [Hy Hs]. cbn [insert_newest_first].
  destruct (dt_leb (created_at y) (created_at x)) eqn:Hxy; [done|].
  cbn [List.filter]. rewrite (IH Hs). cbn [List.filter].
  repeat case_bool_decide; try done. exfalso. subst.
  pose proof (reflexivity (R := dt_le) (created_at y)) as Hr. unfold dt_le in Hr. congruence.
Qed.

Lemma sort_newest_first_stable t l :
  List.filter (fun b => bool_decide (created_at b = t)) (sort_newest_first l) =
  List.filter (fun b => bool_decide (created_at b = t)) l.
Proof.
  induction l as [|x l IH]; [done|]. cbn [sort_newest_first].
  rewrite insert_newest_first_stable by apply sort_newest_first_sorted.
  cbn [List.filter]. by rewrite IH.
Qed.

Lemma prunable_spec b : prunable b = true <-> kind b = Regular /\ format b = PgCustom.
Proof. unfold prunable. rewrite andb_true_iff, !bool_decide_eq_true. done. Qed.

Lemma elem_of_filter_prunable b l :
  b ∈ List.filter prunable l <-> b ∈ l /\ kind b = Regular /\ format b = PgCustom.
Proof. by rewrite list_elem_of_In, filter_In, <-list_elem_of_In, prunable_spec. Qed.

(** ** Retention *)

Lemma retention_split (backups : list BackupInfo) (keep : nat) :
  exists kept,
    kept ++ retention_candidates backups keep = sort_newest_first (List.filter prunable backups) /\
    length kept = (keep `min` length (List.filter prunable backups))%nat.
Proof.
  unfold retention_candidates. eexists (take keep _). rewrite take_drop. split; [done|].
  by rewrite length_take, sort_newest_first_perm.
Qed.

Lemma retention_newer (l1 l2 : list BackupInfo) backups x y :
  l1 ++ l2 = sort_newest_first (List.filter prunable backups) ->
  x ∈ l1 -> y ∈ l2 -> dt_le (created_at y) (created_at x).
Proof.
  intros Hl Hx Hy. eapply (StronglySorted_app_1_elem_of newer); [|exact Hx|exact Hy].
  rewrite Hl. apply sort_newest_first_sorted.
Qed.

(** C15. Retention splits the regular [pg_dump] backups into the ones it keeps
    and the ones it returns: together they are all of them; it keeps [keep] of
    them, or all when there are fewer; and everything it keeps is at least as
    new as everything it returns. *)
Theorem retention_candidates_spec (backups : list BackupInfo) (keep : nat) :
  exists kept,
    kept ++ retention_candidates backups keep ≡ₚ List.filter prunable backups /\
    length kept = (keep `min` length (List.filter prunable backups))%nat /\
    forall x y, x ∈ kept -> y ∈ retention_candidates backups keep ->
      dt_le (created_at y) (created_at x).
Proof.
  destruct (retention_split backups keep) as (kept & Hk & Hlen). exists kept. split_and!; [|done|].
  - rewrite Hk. apply sort_newest_first_perm.
  - eauto using retention_newer.
Qed.

Lemma retention_candidates_elem b backups keep :
  b ∈ retention_candidates backups keep -> b ∈ backups /\ kind b = Regular /\ format b = PgCustom.
Proof.
  unfold retention_candidates. intros Hb. apply elem_of_filter_prunable.
  rewrite <-sort_newest_first_perm. rewrite <-(take_drop keep). apply elem_of_app. by right.
Qed.

(** Legacy JSON backups and pre-restore copies are never candidates,
    whatever the limit: a candidate is a listed regular [pg_dump] backup. *)
Theorem retention_never_prunes_legacy_or_safety (backups : list BackupInfo) (keep : nat) b :
  format b = LegacyJsonZstd \/ kind b = PreRestore -> b ∉ retention_candidates backups keep.
Proof. intros Hb (_ & Hk & Hf)%retention_candidates_elem. destruct Hb; congruence. Qed.

(** With a positive limit the newest regular backup survives: one that is
    strictly newer than every other listed regular [pg_dump] backup, and
    listed once, is not a candidate. *)
Theorem retention_keeps_newest (backups : list BackupInfo) (keep : nat) b :
  (1 <= keep)%nat -> NoDup backups -> b ∈ backups ->
  (forall x, x ∈ backups -> prunable x = true -> x <> b ->
     ~ dt_le (created_at b) (created_at x)) ->
  b ∉ retention_candidates backups keep.
Proof.
  intros Hkeep Hnd Hb Hnew Hc. pose proof (retention_candidates_elem _ _ _ Hc) as (_ & Hk & Hf).
  destruct (retention_split backups keep) as (kept & Hsort & Hlen).
  pose proof (sort_newest_first_perm (List.filter prunable backups)) as Hp.
  rewrite <-Hsort in Hp.
  assert (exists x, x ∈ kept) as [x Hx].
  { destruct kept as [|x kept]; [|exists x; left]. exfalso. simpl in Hlen.
    assert (b ∈ List.filter prunable backups) as Hin by by apply elem_of_filter_prunable.
    destruct (List.filter prunable backups); [by apply not_elem_of_nil in Hin|simpl in Hlen; lia]. }
  assert (NoDup (kept ++ retention_candidates backups keep)) as Hnd'.
  { rewrite Hp. apply NoDup_ListNoDup, List.NoDup_filter, NoDup_ListNoDup. done. }
  apply NoDup_app in Hnd' as (_ & Hdisj & _).
  assert (x ∈ List.filter prunable backups) as (Hxin & Hxk & Hxf)%elem_of_filter_prunable.
  { rewrite <-Hp. apply elem_of_app. by left. }
  apply (Hnew x); [done|by apply prunable_spec| |by eapply retention_newer].
  intros ->. by apply (Hdisj b).
Qed.

(** ** Witnesses: retention on three backups *)

Definition sample_backup (i : string) (secs : Z) (f : BackupFormat) (k : BackupKind) : BackupInfo :=
  mkBackupInfo i (i +:+ ".pgdump") (mkDateTime secs 0) None None f k.

Definition sample_backups : list BackupInfo :=
  [sample_backup "d1" 1 PgCustom Regular; sample_backup "d3" 3 PgCustom Regular;
   sample_backup "legacy" 2 LegacyJsonZstd Regular; sample_backup "d2" 2 PgCustom Regular].

Lemma retention_never_prunes_legacy_or_safety_witness :
  sample_backup "legacy" 2 LegacyJsonZstd Regular ∉ retention_candidates sample_backups 0.
Proof. apply retention_never_prunes_legacy_or_safety. by left. Defined.

Lemma retention_keeps_newest_witness :
  sample_backup "d3" 3 PgCustom Regular ∉ retention_candidates sample_backups 1.
Proof.
  apply retention_keeps_newest; [lia|by eapply bool_decide_unpack; vm_compute..|].
  intros x Hx _ Hne Hle. unfold sample_backups in Hx.
  repeat (apply elem_of_cons in Hx as [->|Hx]; [by vm_compute in Hle|]). by apply not_elem_of_nil in Hx.
Defined.

(** ** Names *)

Lemma write_two_no_slash v : Forall (fun c => c <> "/"%char) (write_two v) \/ ~ 0 <= v < 100.
Proof.
  destruct (decide (0 <= v < 100)); [left|by right].
  assert (forall d, 0 <= d < 10 -> digit_char d <> "/"%char) as Hd.
  { intros d Hd H%(f_equal code). unfold digit_char in H. rewrite code_chr in H by lia.
    change (code "/") with 47 in H. lia. }
  unfold write_two. repeat constructor; apply Hd; div_lia.
Qed.

(** The last character of a printed time is a digit. *)
Lemma format_name_time_last t :
  DateTime_wf t -> exists p c, format_name_time t = p +:+ String c "" /\ c <> "/"%char.
Proof.
  intros Ht. pose proof (second_range t Ht) as Hs. unfold format_name_time.
  set (s := timestamp t mod 86400 mod 60 + _) in *.
  destruct (write_two_no_slash s) as [Hall|]; [|lia]. unfold write_two in *.
  do 2 apply Forall_cons in Hall as [? Hall].
  eexists (of_chars _), _. split; [|done]. rewrite !app_assoc.
  change [digit_char (s / 10); digit_char (s mod 10)]
    with ([digit_char (s / 10)] ++ [digit_char (s mod 10)]).
  rewrite app_assoc. apply of_chars_app.
Qed.

(** A name the program gives to a backup is recognized by its extension:
    for every database name, kind and time it is detected as a [pg_dump] file
    when the format property is missing. *)
Theorem own_names_are_detected (db_name : string) (k : BackupKind) (now : DateTime) :
  DateTime_wf now -> detect_format (backup_file_name db_name k now) None = Ok PgCustom.
Proof.
  intros Hw. destruct (format_name_time_last now Hw) as (p & c & Ht & Hc).
  unfold detect_format, backup_file_name. rewrite Ht.
  set (prefix := match k with Regular => _ | PreRestore => _ end).
  replace (prefix +:+ _) with
    ((prefix +:+ "backup_" +:+ db_name +:+ "_" +:+ p) +:+ String c "" +:+ "." +:+ PG_CUSTOM_EXTENSION)
    by by rewrite !str_app_assoc.
  rewrite path_extension_app; [done|done|by eapply bool_decide_unpack; vm_compute..|done].
Qed.

Lemma own_names_are_detected_witness :
  detect_format (backup_file_name "a/b.c" PreRestore (mkDateTime 1794313805 0)) None = Ok PgCustom.
Proof. apply own_names_are_detected. split; simpl; unfold NANOS_PER_SEC; lia. Defined.

(** The years in which printed times have a fixed width. *)
Definition four_digit_year (t : DateTime) : Prop :=
  0 <= year (date_of_days (timestamp t / 86400)) <= 9999.

Lemma write_year_length y : 0 <= y <= 9999 -> length (write_year y) = 4%nat.
Proof.
  intros Hy. destruct (Z.le_gt_cases 1000 y).
  - unfold write_year. by replace ((1000 <=? y) && (y <=? 9999)) with true by lia.
  - apply Nat.eqb_eq. by apply (forallb_range (fun y => length (write_year y) =? 4)%nat 0 1000);
      [vm_compute|lia].
Qed.

Lemma format_name_time_length t :
  four_digit_year t -> length (chars (format_name_time t)) = 19%nat.
Proof.
  intros Hy. unfold format_name_time. rewrite chars_of_chars, length_app, write_year_length by done.
  done.
Qed.

(** Names identify backups: two names are equal only for the same kind,
    the same database name and the same second. *)
Theorem backup_file_name_inj db1 db2 k1 k2 t1 t2 :
  DateTime_wf t1 -> DateTime_wf t2 -> four_digit_year t1 -> four_digit_year t2 ->
  backup_file_name db1 k1 t1 = backup_file_name db2 k2 t2 ->
  db1 = db2 /\ k1 = k2 /\ timestamp t1 = timestamp t2.
Proof.
  intros Hw1 Hw2 Hy1 Hy2 H. unfold backup_file_name in H.
  assert (k1 = k2) as <-.
  { apply (f_equal chars) in H. rewrite !chars_app in H. by destruct k1, k2. }
  apply str_app_inv_l, str_app_inv_l in H.
  apply (f_equal chars) in H. rewrite !chars_app in H.
  apply app_inj_2 in H as [Hdb H].
  2:{ by rewrite !length_app, !format_name_time_length. }
  injection H as H. apply app_inj_1 in H as [Ht _]; [|by rewrite !format_name_time_length].
  split_and!; [by apply chars_inj|done|].
  apply chars_inj in Ht. by apply format_name_time_inj in Ht as [? _].
Qed.

Lemma backup_file_name_inj_witness :
  "tracker" = "tracker" /\ Regular = Regular /\
  timestamp (mkDateTime 1794313805 0) = timestamp (mkDateTime 1794313805 7).
Proof.
  apply (backup_file_name_inj "tracker" "tracker" Regular Regular
           (mkDateTime 1794313805 0) (mkDateTime 1794313805 7)).
  1-2: split; simpl; unfold NANOS_PER_SEC; lia.
  1-2: by vm_compute.
  by vm_compute.
Defined.

(** Kinds and formats read back from the properties they are stored in. *)
Lemma BackupKind_roundtrip k : BackupKind_parse (Some (BackupKind_as_str k)) = Ok k.
Proof. by destruct k. Qed.

Lemma BackupFormat_roundtrip f : BackupFormat_parse (BackupFormat_as_str f) = Some f.
Proof. by destruct f. Qed.
