(* ===== verification/Ports.v ===== *)
(** * The ports of the service ([ports.rs], [clock.rs]) and what they promise

    [PortE] lists the calls [BackupService] makes: the methods of the port
    traits, the write lock, temporary files, the clock and the log.  [PEv] is
    the same call with its answer, as a first-order record of the run.
    [port_step] is the contract between the service and its ports, on a world
    that holds the database, the storage location and the local files. *)

From Stdlib Require Import ZArith Lia Ascii.
From stdpp Require Import base numbers gmap sorting strings list.
From S2P Require Import Prelude RustStd Url Chrono Core.
Open Scope Z_scope.

Inductive Level := Info | Warn | Error_.

(** Calls and the types of their answers. *)
Inductive PortE : Type -> Type :=
(* [tokio::sync::Mutex]: [try_lock().is_ok()] and the drop of the guard *)
| TryLock : PortE bool
| Unlock : PortE unit
(* [tempfile::Builder::tempfile_in] and the drop of a [NamedTempFile] *)
| NewTempFile (prefix suffix : string) (dir : path) : PortE (result path string)
| DropTempFile (p : path) : PortE unit
(* [Dumper], [Restorer], [DbHealth] *)
| Dumper_dump (dst : path) : PortE (Result unit)
| Restorer_restore (src : path) : PortE (Result unit)
| DbHealth_ping : PortE (Result unit)
(* [Storage] *)
| Storage_upload (req : UploadRequest) : PortE (Result BackupInfo)
| Storage_list (page_size : Z) (page_token : option string) : PortE (Result (Page BackupInfo))
| Storage_latest : PortE (Result (option BackupInfo))
| Storage_get (i : string) : PortE (Result BackupInfo)
| Storage_download (backup : BackupInfo) (dst : path) : PortE (Result unit)
| Storage_delete (i : string) : PortE (Result unit)
(* [Clock::now], [Instant::now] *)
| Clock_now : PortE DateTime
| Instant_now : PortE Z
(* [spawn_blocking(decompress_file)]; the error is the text of a [JoinError] *)
| DecompressTask (src dst : path) : PortE (result (Result unit) string)
| Log (level : Level) (msg : string) : PortE unit.

(** One call with its answer. *)
Inductive PEv :=
| ETryLock (ok : bool)
| EUnlock
| ENewTemp (suffix : string) (r : result path string)
| EDropTemp (p : path)
| EDump (dst : path) (r : Result unit)
| ERestore (src : path) (r : Result unit)
| EPing (r : Result unit)
| EUpload (req : UploadRequest) (r : Result BackupInfo)
| EList (page_size : Z) (page_token : option string) (r : Result (Page BackupInfo))
| ELatest (r : Result (option BackupInfo))
| EGet (i : string) (r : Result BackupInfo)
| EDownload (backup : BackupInfo) (dst : path) (r : Result unit)
| EDelete (i : string) (r : Result unit)
| ENow (t : DateTime)
| EInstant (t : Z)
| EDecompress (src dst : path) (r : result (Result unit) string)
| ELog (level : Level) (msg : string).

Definition obs (e : event PortE) : PEv :=
  match e with
  | Ev op r =>
      match op in PortE T return T -> PEv with
      | TryLock => ETryLock
      | Unlock => fun _ => EUnlock
      | NewTempFile _ suffix _ => ENewTemp suffix
      | DropTempFile p => fun _ => EDropTemp p
      | Dumper_dump dst => EDump dst
      | Restorer_restore src => ERestore src
      | DbHealth_ping => EPing
      | Storage_upload req => EUpload req
      | Storage_list n tok => EList n tok
      | Storage_latest => ELatest
      | Storage_get i => EGet i
      | Storage_download b dst => EDownload b dst
      | Storage_delete i => EDelete i
      | Clock_now => ENow
      | Instant_now => EInstant
      | DecompressTask src dst => EDecompress src dst
      | Log level msg => fun _ => ELog level msg
      end r
  end.

(** [runs p es q]: the service code [p] makes the calls and gets the answers
    [es], and [q] is left. *)
Definition runs {A} (p : prog PortE A) (es : list PEv) (q : prog PortE A) : Prop :=
  exists tr, steps p tr q /\ map obs tr = es.

(** ** The contract *)


(** What PostgreSQL's tools and [zstd] are relied on for.  A database is a set of
    named objects; an object is what one [DROP] removes, a table with its rows,
    indexes, constraints and triggers, without owners and privileges, which are
    left out of a restore.  [pg_dumps d c] when [c] is an archive
    that [pg_dump] may write of [d] (two archives of one database differ, in
    their creation time for example); [pg_restore_bytes] are the objects of an
    archive. *)
Class PgFormat := {
  Obj : Type;
  pg_dumps : gmap string Obj -> bytes -> Prop;
  pg_restore_bytes : bytes -> option (gmap string Obj);
  pg_restore_dump : forall d c, pg_dumps d c -> pg_restore_bytes c = Some d;
  zstd_decode : bytes -> option bytes;
}.

Abbreviation Db := (gmap string Obj).

(** [pg_restore --clean] of the objects [a] over the database [d]: the objects
    of the archive are dropped and made again as the archive has them.  An
    object the archive does not have stays as it was, or goes with the object
    it belongs to. *)
Definition restored_over `{PgFormat} (a d d' : Db) : Prop := a ⊆ d' /\ d' ⊆ a ∪ d.

(** [w_others] are the ids of the files the storage has besides the backups of
    the location: a download by id can reach them too. *)
Record World `{PgFormat} := mkWorld {
  w_db : Db;
  w_store : list (BackupInfo * bytes);
  w_files : gmap path bytes;
  w_others : list string;
}.

Section Contract.
Context `{PgFormat}.

(** [w] and [w'] differ at most in the local file [p]. *)
Definition only_file (p : path) (w w' : World) : Prop :=
  w_db w' = w_db w /\ w_store w' = w_store w /\ w_others w' = w_others w /\
  is_Some (w_files w' !! p) /\ delete p (w_files w') = delete p (w_files w).

Definition writes_file (p : path) (content : bytes) (w w' : World) : Prop :=
  w' = mkWorld _ (w_db w) (w_store w) (<[p := content]> (w_files w)) (w_others w).

Lemma only_file_writes p content w w' :
  only_file p w w' -> w_files w' !! p = Some content -> writes_file p content w w'.
Proof.
  intros (Hdb & Hst & Hot & _ & Hd) Hp. destruct w as [db st fs ot], w' as [db' st' fs' ot']. simpl in *.
  unfold writes_file. simpl. subst. f_equal. rewrite <-insert_delete_eq, <-Hd, insert_delete_id; done.
Qed.

(** The objects of the archive in [p] are restored over the database. *)
Definition replaces_db (p : path) (w w' : World) : Prop :=
  exists content a d, w_files w !! p = Some content /\ pg_restore_bytes content = Some a /\
    restored_over a (w_db w) d /\ w' = mkWorld _ d (w_store w) (w_files w) (w_others w).

(** The file of an upload request becomes the backup [info], with a new id. *)
Definition stores (req : UploadRequest) (info : BackupInfo) (w w' : World) : Prop :=
  exists content, w_files w !! req_path req = Some content /\
    name info = req_name req /\ kind info = req_kind req /\ format info = req_format req /\
    (id info ∉ (id <$> (w_store w).*1)) /\ (id info ∉ w_others w) /\ plain (id info) = true /\
    w' = mkWorld _ (w_db w) ((info, content) :: w_store w) (w_files w) (w_others w).

(** No file with the id [i] is left. *)
Definition removes_id (i : string) (w w' : World) : Prop :=
  w' = mkWorld _ (w_db w) (List.filter (fun f => negb (bool_decide (id f.1 = i))) (w_store w))
         (w_files w) (List.filter (fun j => negb (bool_decide (j = i))) (w_others w)).

(** What a call with a given answer may do to the world.  An upload, delete or
    restore that failed may have taken effect: the answer can get lost, or the
    time limit pass, after the other side has committed.  A lookup answers with
    a stored backup, and with the one of that id when the id could have been
    given out by a storage; of other ids the client library for Drive may make
    a different request ([id_is_not_confined] of [DriveHttp]).  A download that
    succeeds has written what is stored under the id at that moment. *)
Definition port_step (w : World) (e : PEv) (w' : World) : Prop :=
  match e with
  | ENewTemp _ (Ok p) => w_files w !! p = None /\ writes_file p [] w w'
  | EDropTemp p => w' = mkWorld _ (w_db w) (w_store w) (delete p (w_files w)) (w_others w)
  | EDump p (Ok _) => exists content, pg_dumps (w_db w) content /\ writes_file p content w w'
  | EDump p (Err _) => only_file p w w'
  | ERestore p (Ok _) => replaces_db p w w'
  | ERestore p (Err _) => w' = w \/ replaces_db p w w'
  | EUpload req (Ok info) => stores req info w w'
  | EUpload req (Err _) => w' = w \/ exists info, stores req info w w'
  | EList _ _ (Ok page) =>
      w' = w /\ forall b, b ∈ items page -> b ∈ (w_store w).*1
  | ELatest (Ok (Some info)) =>
      w' = w /\ info ∈ (w_store w).*1 /\ (id info ∉ w_others w) /\ kind info <> PreRestore /\
      forall b, b ∈ (w_store w).*1 -> kind b <> PreRestore ->
        dt_le (created_at b) (created_at info)
  | ELatest (Ok None) => w' = w /\ forall b, b ∈ (w_store w).*1 -> kind b = PreRestore
  | EGet i (Ok info) =>
      w' = w /\ info ∈ (w_store w).*1 /\ (id info ∉ w_others w) /\ (plain i = true -> id info = i)
  | EDownload b dst (Ok _) =>
      only_file dst w w' /\
      ((id b ∉ w_others w) ->
       exists f, f ∈ w_store w /\ id f.1 = id b /\ w_files w' !! dst = Some f.2)
  | EDownload b dst (Err _) => only_file dst w w'
  | EDelete i (Ok _) => removes_id i w w'
  | EDelete i (Err _) => w' = w \/ removes_id i w w'
  | EDecompress src dst (Ok (Ok _)) =>
      exists content json, w_files w !! src = Some content /\ zstd_decode content = Some json /\
        writes_file dst json w w'
  | EDecompress src dst _ => only_file dst w w'
  | _ => w' = w
  end.

(** Every call is allowed. *)
Definition any_call {S} (_ : S) (T : Type) (_ : PortE T) : Prop := True.

Definition world_step (w : World) (e : event PortE) (w' : World) : Prop := port_step w (obs e) w'.

(** The weakest precondition of service code against the contract. *)
Definition wpw {A} (p : prog PortE A) (Q : A -> World -> Prop) (w : World) : Prop :=
  wp any_call world_step p Q w.

(** A complete run of service code in a world. *)
Definition completes {A} (p : prog PortE A) (w : World) (a : A) (w' : World) : Prop :=
  exists tr, wsteps world_step p w tr (Ret a) w'.

End Contract.

(** ** A format to compute with *)

(** A function that writes archives. *)
Class PgDump `{PgFormat} := {
  pg_dump_bytes : Db -> bytes;
  pg_dump_bytes_ok : forall d, pg_dumps d (pg_dump_bytes d);
}.

(** Numbers as text in base two, the lowest digit first. *)
Fixpoint write_bits (p : positive) : bytes :=
  match p with
  | xH => []
  | xO p => "0"%char :: write_bits p
  | xI p => "1"%char :: write_bits p
  end.

Fixpoint read_bits (b : bytes) : option positive :=
  match b with
  | [] => Some xH
  | c :: b => p ← read_bits b;
      if Ascii.eqb c "0" then Some (xO p) else if Ascii.eqb c "1" then Some (xI p) else None
  end.

Lemma read_write_bits p : read_bits (write_bits p) = Some p.
Proof. induction p as [p IH|p IH|]; simpl; [by rewrite IH..|done]. Qed.

(** The archive of a database is the number of its map. *)
Section Encoded.
Context (O : Type) `{Countable O} (unzip : bytes -> option bytes).

Definition encode_dump (d : gmap string O) : bytes := write_bits (encode d).
Definition decode_dump (c : bytes) : option (gmap string O) := read_bits c ≫= decode.

Lemma decode_encode_dump d c : c = encode_dump d -> decode_dump c = Some d.
Proof. intros ->. unfold decode_dump, encode_dump. rewrite read_write_bits. apply decode_encode. Qed.

Definition encoded_pg : PgFormat :=
  {| Obj := O; pg_dumps := fun d c => c = encode_dump d; pg_restore_bytes := decode_dump;
     pg_restore_dump := decode_encode_dump; zstd_decode := unzip |}.

Definition encoded_pg_dump : @PgDump encoded_pg :=
  {| pg_dump_bytes := (encode_dump : gmap string (@Obj encoded_pg) -> bytes); pg_dump_bytes_ok := fun d => eq_refl |}.
End Encoded.

(** Objects that are texts. *)
Definition text_dump (d : gmap string bytes) : bytes := encode_dump bytes d.
Definition text_pg (unzip : bytes -> option bytes) : PgFormat := encoded_pg bytes unzip.
Definition text_pg_dump (unzip : bytes -> option bytes) : @PgDump (text_pg unzip) := encoded_pg_dump bytes unzip.

(** ** Runs *)

Lemma runs_Ret {A} (a : A) es q : runs (Ret a) es q <-> es = [] /\ q = Ret a.
Proof.
  split; [|intros [-> ->]; by exists []].
  intros ([|e tr] & Hs & <-); simpl in Hs; [by subst|done].
Qed.

Lemma runs_Vis {A T} (op : PortE T) (k : T -> prog PortE A) es q :
  runs (Vis op k) es q <->
  (es = [] /\ q = Vis op k) \/ exists r es', es = obs (Ev op r) :: es' /\ runs (k r) es' q.
Proof.
  split.
  - intros ([|e tr] & Hs & <-); simpl in Hs; [by left|]. destruct Hs as (r & -> & Hs).
    right. exists r, (map obs tr). split; [done|]. by exists tr.
  - intros [[-> ->]|(r & es' & -> & tr & Hs & <-)]; [by exists []|].
    exists (Ev op r :: tr). split; [|done]. simpl. eauto.
Qed.

Lemma runs_nil {A} (p : prog PortE A) : runs p [] p.
Proof. by exists []. Qed.

(** A run of a sequence ends inside the first part, or completes it. *)
Lemma runs_bind {A B} (p : prog PortE A) (f : A -> prog PortE B) es q :
  runs (bind p f) es q ->
  (exists p', runs p es p' /\ (forall a, p' <> Ret a) /\ q = bind p' f) \/
  (exists a es1 es2, es = es1 ++ es2 /\ runs p es1 (Ret a) /\ runs (f a) es2 q).
Proof.
  intros (tr & Hs & <-). apply steps_bind in Hs as [(p' & Hp & ->)|(a & tr1 & tr2 & -> & Hp & Hf)].
  - destruct p' as [a|T e k].
    + right. exists a, (map obs tr), []. rewrite app_nil_r.
      split_and!; [done|by exists tr|apply runs_nil].
    + left. eexists. split_and!; [by exists tr|done|done].
  - right. exists a, (map obs tr1), (map obs tr2). rewrite map_app.
    split_and!; [done|by exists tr1|by exists tr2].
Qed.

(** A complete run of a sequence is a complete run of each part. *)
Lemma runs_bind_Ret {A B} (p : prog PortE A) (f : A -> prog PortE B) es b :
  runs (bind p f) es (Ret b) ->
  exists a es1 es2, es = es1 ++ es2 /\ runs p es1 (Ret a) /\ runs (f a) es2 (Ret b).
Proof.
  intros [(p' & _ & Hne & Hq)|?]%runs_bind; [|done].
  destruct p' as [a|]; [by destruct (Hne a)|done].
Qed.

(** ** Monitors

    A state that every call updates, with the calls it allows and what may be
    assumed of their answers. *)
Section Monitor.
Context {S : Type} (allowed assumed : S -> PEv -> Prop) (upd : S -> PEv -> S).

Definition mon_pre (s : S) (T : Type) (op : PortE T) : Prop := forall r, allowed s (obs (Ev op r)).

Definition mon_step (s : S) (e : event PortE) (s' : S) : Prop :=
  assumed s (obs e) /\ s' = upd s (obs e).

(** A property of each call in the state it is made in. *)
Fixpoint throughout (P : S -> PEv -> Prop) (s : S) (es : list PEv) : Prop :=
  match es with
  | [] => True
  | e :: es => P s e /\ throughout P (upd s e) es
  end.

Lemma wp_monitor {A} (p q : prog PortE A) Q es s :
  wp mon_pre mon_step p Q s -> runs p es q -> throughout assumed s es ->
  throughout allowed s es /\ wp mon_pre mon_step q Q (foldl upd s es).
Proof.
  intros Hp (tr & Hs & <-). revert p s Hp Hs.
  induction tr as [|e tr IH]; intros p s Hp; simpl; [by intros ->|].
  destruct p as [a|T op k]; [done|]. intros (r & -> & Hk) [Ha Has]. destruct Hp as [Hpre Hp].
  destruct (IH (k r) (upd s (obs (Ev op r)))) as [Hall Hq]; [by apply Hp|done..|].
  split; [|exact Hq]. split; [apply Hpre|exact Hall].
Qed.
End Monitor.

(** The run of a deterministic environment. *)
Lemma trace_runs {S A} (h : handler PortE S) (p : prog PortE A) s :
  runs p (map obs (trace h p s)) (Ret (run h p s).1).
Proof. exists (trace h p s). split; [apply trace_steps|done]. Qed.

(** ** Programs whose calls all satisfy a predicate *)

Fixpoint emits {A} (P : PEv -> Prop) (p : prog PortE A) : Prop :=
  match p with
  | Ret _ => True
  | Vis e k => forall r, P (obs (Ev e r)) /\ emits P (k r)
  end.

Lemma emits_runs {A} P (p q : prog PortE A) es : emits P p -> runs p es q -> Forall P es.
Proof.
  intros Hp (tr & Hs & <-). revert p Hp Hs.
  induction tr as [|e tr IH]; intros p Hp; simpl; [constructor|].
  destruct p as [a|T op k]; [done|]. intros (r & -> & Hk). destruct (Hp r) as [HP Hr].
  constructor; [done|]. eauto.
Qed.

Lemma emits_bind {A B} P (p : prog PortE A) (f : A -> prog PortE B) :
  emits P p -> (forall a, emits P (f a)) -> emits P (bind p f).
Proof.
  induction p as [a|T e k IH]; intros Hp Hf; simpl in *; [done|].
  intros r. destruct (Hp r). split; [done|]. by apply IH.
Qed.

Lemma emits_for_each {A} P (l : list A) (body : A -> prog PortE unit) :
  (forall x, emits P (body x)) -> emits P (for_each l body).
Proof. intros Hb. induction l as [|x l IH]; simpl; [done|]. by apply emits_bind. Qed.

(** Case analysis on the answers until the calls are exhausted. *)
Ltac solve_emits :=
  repeat (simpl; match goal with
  | |- emits _ (match ?x with _ => _ end) => destruct x
  | |- emits _ (bind (match ?x with _ => _ end) _) => destruct x
  | |- emits _ (bind _ _) => apply emits_bind; [|intros ?]
  | |- forall _, _ => intros ?
  | |- _ /\ _ => split
  end); try done.
