(* ===== verification/Service.v ===== *)
(** * [backup-server/src/service.rs]: the use cases

    Each method of [BackupService] is a program over the ports.  Guards and
    temporary files are released where Rust drops them: at the end of the
    scope that owns them, on every path out of it. *)

From Stdlib Require Import ZArith Lia Ascii.
From stdpp Require Import base numbers gmap sorting strings list.
From S2P Require Import Prelude RustStd Chrono Core Ports.
Open Scope Z_scope.
Open Scope rust_scope.

Definition DEFAULT_PAGE_SIZE : Z := 20.
Definition MAX_PAGE_SIZE : Z := 100.
Definition MAX_RETENTION_PAGES : nat := 100.

Inductive BackupTarget := Id (i : string) | Latest.

(** The data the service reads from its dependencies; their methods are the
    calls of [PortE]. *)
Record ServiceDeps := mkServiceDeps {
  dumper_db_name : string;
  restorer_db_name : string;
  data_folder : path;
  retention : option nat;
}.

Record RestoreOutcome := mkRestoreOutcome { restored : BackupInfo; pre_restore : BackupInfo }.

Abbreviation M := (prog PortE).

Definition db_name (deps : ServiceDeps) : string := restorer_db_name deps.

(** [lock]: the guard lives until [with_guard] ends. *)
Definition lock : M (Result unit) :=
  let* ok := call TryLock in
  Ret (if ok then Ok tt else Err (Busy "another backup or restore is in progress")).

Definition with_guard {A} (body : M A) : M A :=
  let* r := body in
  let* _ := call Unlock in
  Ret r.

Definition temp_file (deps : ServiceDeps) (suffix : string) : M (Result path) :=
  let* r := call (NewTempFile "backup_" suffix (data_folder deps)) in
  Ret (result_map_err (Error_io "Could not create temporary file") r).

(** The scope of a [NamedTempFile]. *)
Definition with_temp {A} (file : path) (body : M A) : M A :=
  let* r := body in
  let* _ := call (DropTempFile file) in
  Ret r.

Definition dump_and_upload (deps : ServiceDeps) (k : BackupKind) : M (Result BackupInfo) :=
  let? file := temp_file deps ".pgdump" in
  with_temp file (
    let? _ := call (Dumper_dump file) in
    let* now := call Clock_now in
    call (Storage_upload (UploadRequest_pg_dump file (dumper_db_name deps) k now))).

(** The loop of [list_all]: [n] pages may still be read. *)
Fixpoint list_pages (n : nat) (all : list BackupInfo) (token : option string)
    : M (Result (list BackupInfo)) :=
  match n with
  | O =>
      Ret (Err (StorageError ("more than " +:+ int_to_string (Z.of_nat MAX_RETENTION_PAGES)
                              +:+ " pages of backups")))
  | S n =>
      let? page := call (Storage_list MAX_PAGE_SIZE token) in
      let all := all ++ items page in
      match next_page_token page with
      | Some next => if str_is_empty next then Ret (Ok all) else list_pages n all (Some next)
      | None => Ret (Ok all)
      end
  end.

Definition list_all : M (Result (list BackupInfo)) := list_pages MAX_RETENTION_PAGES [] None.

Definition prune_one (backup : BackupInfo) : M unit :=
  let* r := call (Storage_delete (id backup)) in
  match r with
  | Ok _ => call (Log Info ("Retention removed '" +:+ name backup +:+ "'"))
  | Err e =>
      call (Log Error_ ("Retention could not remove '" +:+ name backup +:+ "': " +:+ Error_display e))
  end.

Definition prune_old_backups (deps : ServiceDeps) : M unit :=
  match retention deps with
  | None => Ret tt
  | Some keep =>
      let* all := list_all in
      match all with
      | Err e =>
          call (Log Error_ ("Retention skipped, could not list backups: " +:+ Error_display e))
      | Ok all => for_each (retention_candidates all keep) prune_one
      end
  end.

Definition create_backup (deps : ServiceDeps) : M (Result BackupInfo) :=
  let? _ := lock in
  with_guard (
    let? info := dump_and_upload deps Regular in
    let* _ := prune_old_backups deps in
    Ret (Ok info)).

Definition list_backups (page_size : Z) (page_token : option string)
    : M (Result (Page BackupInfo)) :=
  let page_size := if page_size =? 0 then DEFAULT_PAGE_SIZE else Z.min page_size MAX_PAGE_SIZE in
  call (Storage_list page_size page_token).

Definition resolve (target : BackupTarget) : M (Result BackupInfo) :=
  match target with
  | Id i => call (Storage_get i)
  | Latest =>
      let? latest := call Storage_latest in
      Ret (ok_or latest (NotFound "no backups"))
  end.

(** The file of the result is owned by the caller; every other path drops it. *)
Definition download (deps : ServiceDeps) (target : BackupTarget) : M (Result (BackupInfo * path)) :=
  let? info := resolve target in
  let? file := temp_file deps ".download" in
  let* r := call (Storage_download info file) in
  match r with
  | Err e => with_temp file (Ret (Err e))
  | Ok _ =>
      if bool_decide (format info <> LegacyJsonZstd) then Ret (Ok (info, file))
      else
        with_temp file (
          let? json := temp_file deps ".json" in
          let* task := call (DecompressTask file json) in
          match task with
          | Ok (Ok _) => Ret (Ok (info, json))
          | Ok (Err e) => with_temp json (Ret (Err e))
          | Err e => with_temp json (Ret (Err (StorageError ("Decompression task failed: " +:+ e))))
          end)
  end.

Definition restore (deps : ServiceDeps) (target : BackupTarget) (confirm_db_name : string)
    : M (Result RestoreOutcome) :=
  if negb (String.eqb confirm_db_name (db_name deps)) then
    Ret (Err (FailedPrecondition
      ("confirm_db_name '" +:+ confirm_db_name +:+ "' does not match the configured database")))
  else
    let? _ := lock in
    with_guard (
      let* start := call Instant_now in
      let? restored := resolve target in
      if bool_decide (format restored <> PgCustom) then
        Ret (Err (FailedPrecondition
          ("'" +:+ name restored +:+ "' is " +:+ BackupFormat_as_str (format restored) +:+
           "; restore it with DownloadBackup and the legacy client")))
      else
        let? file := temp_file deps ".pgdump" in
        with_temp file (
          let? _ := call (Storage_download restored file) in
          let? pre_restore := dump_and_upload deps PreRestore in
          let* _ := call (Log Info ("Pre-restore copy '" +:+ name pre_restore +:+ "' stored")) in
          let? _ := call (Restorer_restore file) in
          let* now := call Instant_now in
          let* _ := call (Log Info ("Database '" +:+ db_name deps +:+ "' restored from '" +:+
                                    name restored +:+ "' for " +:+ duration_debug (now - start))) in
          Ret (Ok (mkRestoreOutcome restored pre_restore)))).

Definition healthcheck : M bool :=
  let* r := call DbHealth_ping in
  match r with
  | Ok _ => Ret true
  | Err e =>
      let* _ := call (Log Error_ ("Database healthcheck failed: " +:+ Error_display e)) in
      Ret false
  end.
