(* ===== verification/Fakes.v ===== *)
(** * The test doubles of [service.rs]

    [FakeStorage] and [FakeDb], over local files in a map: an executable
    environment in which the use cases can be run; [ServiceTests.v] runs the
    unit tests in it. *)

From Stdlib Require Import ZArith Lia Ascii.
From stdpp Require Import base numbers gmap sorting strings list.
From S2P Require Import Prelude RustStd Chrono Core Ports Service.
Open Scope Z_scope.
Open Scope rust_scope.

Record FakeStorage := mkFakeStorage {
  files : list (BackupInfo * bytes);
  deleted : list string;
  delete_calls : nat;
  fail_upload : bool;
  fail_download : bool;
  fail_list : bool;
  fail_delete : bool;
}.

Record FakeDb := mkFakeDb {
  content : bytes;
  db_restored : list bytes;
  healthy : bool;
  fail_dump : bool;
  fail_restore : bool;
}.

(** The harness: both doubles, the log of their events, the lock, the
    temporary files and the next temporary name. *)
Record Harness := mkHarness {
  storage : FakeStorage;
  fdb : FakeDb;
  events : list string;
  locked : bool;
  fs : gmap path bytes;
  next_temp : nat;
  clock : DateTime;
}.

Definition set_storage (h : Harness) (s : FakeStorage) : Harness :=
  mkHarness s (fdb h) (events h) (locked h) (fs h) (next_temp h) (clock h).
Definition set_fdb (h : Harness) (d : FakeDb) : Harness :=
  mkHarness (storage h) d (events h) (locked h) (fs h) (next_temp h) (clock h).
Definition push_event (h : Harness) (e : string) : Harness :=
  mkHarness (storage h) (fdb h) (events h ++ [e]) (locked h) (fs h) (next_temp h) (clock h).
Definition set_locked (h : Harness) (b : bool) : Harness :=
  mkHarness (storage h) (fdb h) (events h) b (fs h) (next_temp h) (clock h).
Definition set_fs (h : Harness) (f : gmap path bytes) : Harness :=
  mkHarness (storage h) (fdb h) (events h) (locked h) f (next_temp h) (clock h).

(** [FakeStorage::infos]. *)
Definition infos (s : FakeStorage) : list BackupInfo := sort_newest_first (files s).*1.

Definition put (s : FakeStorage) (f : BackupInfo * bytes) : FakeStorage :=
  mkFakeStorage (files s ++ [f]) (deleted s) (delete_calls s) (fail_upload s) (fail_download s)
    (fail_list s) (fail_delete s).

(** [FakeStorage::check]. *)
Definition check (flag : bool) (op : string) : Result unit :=
  if flag then Err (Unavailable (op +:+ " failed")) else Ok tt.

Definition fake_upload (h : Harness) (req : UploadRequest) : Result BackupInfo * Harness :=
  let s := storage h in
  match check (fail_upload s) "upload" with
  | Err e => (Err e, h)
  | Ok _ =>
      let content := default [] (fs h !! req_path req) in
      let n := length (files s) in
      let info := {|
        id := "up" +:+ int_to_string (Z.of_nat n);
        name := req_name req;
        (* 2030-01-01 00:00:00 plus [n] seconds *)
        created_at := mkDateTime (1893456000 + Z.of_nat n) 0;
        size_bytes := Some (Z.of_nat (length content));
        md5 := None;
        format := req_format req;
        kind := req_kind req |} in
      (Ok info,
       set_storage (push_event h ("upload " +:+ BackupKind_as_str (req_kind req))) (put s (info, content)))
  end.

(** A token is the number of backups to skip. *)
Definition fake_list (s : FakeStorage) (page_size : Z) (token : option string)
    : Result (Page BackupInfo) :=
  match check (fail_list s) "list" with
  | Err e => Err e
  | Ok _ =>
      let skip := match token with
                  | None => 0
                  | Some t => match parse_usize t with Ok n => n | Err _ => 0 end
                  end in
      let total := Z.of_nat (length (infos s)) in
      let last := Z.min (skip + page_size) total in
      Ok (mkPage (take (Z.to_nat (last - skip)) (drop (Z.to_nat skip) (infos s)))
            (if last <? total then Some (int_to_string last) else None))
  end.

Definition fake_delete (h : Harness) (i : string) : Result unit * Harness :=
  let s := storage h in
  let calls := S (delete_calls s) in
  match check (fail_delete s) "delete" with
  | Err e =>
      (Err e, set_storage h (mkFakeStorage (files s) (deleted s) calls (fail_upload s)
                               (fail_download s) (fail_list s) (fail_delete s)))
  | Ok _ =>
      (Ok tt, set_storage h (mkFakeStorage
        (List.filter (fun f => negb (bool_decide (id f.1 = i))) (files s)) (deleted s ++ [i]) calls
        (fail_upload s) (fail_download s) (fail_list s) (fail_delete s)))
  end.

Definition fake_download (h : Harness) (b : BackupInfo) (dst : path) : Result unit * Harness :=
  match check (fail_download (storage h)) "download" with
  | Err e => (Err e, h)
  | Ok _ =>
      match List.find (fun f => bool_decide (id f.1 = id b)) (files (storage h)) with
      | Some f => (Ok tt, set_fs h (<[dst := f.2]> (fs h)))
      | None => (Err (NotFound (id b)), h)
      end
  end.

Definition process_error (program : string) : Error := Process program "exit status: 1" "boom".

Definition fake_dump (h : Harness) (dst : path) : Result unit * Harness :=
  if fail_dump (fdb h) then (Err (process_error "pg_dump"), h)
  else (Ok tt, set_fs (push_event h "dump") (<[dst := content (fdb h)]> (fs h))).

Definition fake_restore (h : Harness) (src : path) : Result unit * Harness :=
  let h := push_event h "restore" in
  let d := fdb h in
  if fail_restore d then (Err (process_error "pg_restore"), h)
  else (Ok tt, set_fdb h (mkFakeDb (content d) (db_restored d ++ [default [] (fs h !! src)])
                            (healthy d) (fail_dump d) (fail_restore d))).

(** Legacy files are stored as they decompress in the examples. *)
Definition fake : handler PortE Harness := fun T e =>
  match e in PortE T return Harness -> T * Harness with
  | TryLock => fun h => if locked h then (false, h) else (true, set_locked h true)
  | Unlock => fun h => (tt, set_locked h false)
  | NewTempFile prefix suffix dir => fun h =>
      let p := dir +:+ "/" +:+ prefix +:+ int_to_string (Z.of_nat (next_temp h)) +:+ suffix in
      (Ok p, mkHarness (storage h) (fdb h) (events h) (locked h) (<[p := []]> (fs h))
               (S (next_temp h)) (clock h))
  | DropTempFile p => fun h => (tt, set_fs h (delete p (fs h)))
  | Dumper_dump dst => fun h => fake_dump h dst
  | Restorer_restore src => fun h => fake_restore h src
  | DbHealth_ping => fun h =>
      (if healthy (fdb h) then Ok tt else Err (FailedPrecondition "down"), h)
  | Storage_upload req => fun h => fake_upload h req
  | Storage_list n tok => fun h => (fake_list (storage h) n tok, h)
  | Storage_latest => fun h =>
      (Ok (List.find (fun i => bool_decide (kind i <> PreRestore)) (infos (storage h))), h)
  | Storage_get i => fun h =>
      (ok_or (List.find (fun b => bool_decide (id b = i)) (infos (storage h))) (NotFound i), h)
  | Storage_download b dst => fun h => fake_download h b dst
  | Storage_delete i => fun h => fake_delete h i
  | Clock_now => fun h => (clock h, h)
  | Instant_now => fun h => (0, h)
  | DecompressTask src dst => fun h =>
      (Ok (Ok tt), set_fs h (<[dst := default [] (fs h !! src)]> (fs h)))
  | Log _ _ => fun h => (tt, h)
  end.

(** [harness_with]: the fixed clock is 2026-11-06 12:00:00. *)
Definition harness_deps (keep : option nat) : ServiceDeps :=
  mkServiceDeps "tracker" "tracker" "/data" keep.

Definition harness_files (fl : list (BackupInfo * bytes)) : Harness :=
  mkHarness (mkFakeStorage fl [] 0 false false false false)
    (mkFakeDb (chars "current-db") [] true false false) [] false ∅ 0 (mkDateTime 1793966400 0).

(** [info]: a backup of a day of January 2026. *)
Definition fake_info (i : string) (d : Z) (f : BackupFormat) (k : BackupKind) : BackupInfo :=
  mkBackupInfo i (i +:+ ".file") (mkDateTime (1767225600 + (d - 1) * 86400) 0) None None f k.

Definition good_backup : BackupInfo * bytes :=
  (fake_info "good" 1 PgCustom Regular, chars "backup-content").
