(* ===== verification/ServiceTraces.v ===== *)
(** * What the service does, call by call

    Theorems on every run of the use cases of [Service.v], whatever the ports
    answer and wherever the run is cut short: the order of the calls of a
    restore, the outcome of a backup, and what retention
    deletes. *)

From Stdlib Require Import ZArith Lia Ascii.
From stdpp Require Import base numbers gmap sorting strings list.
From S2P Require Import Prelude RustStd Chrono Core Ports Service Fakes.
Open Scope Z_scope.
Open Scope rust_scope.

(** ** Definitions *)

(** The ids a run asked the storage to delete, in order. *)
Definition deletes (es : list PEv) : list string :=
  omap (fun e => match e with EDelete i _ => Some i | _ => None end) es.

(** The backups of the pages a run was given, in order. *)
Definition listed (es : list PEv) : list BackupInfo :=
  concat (omap (fun e => match e with EList _ _ (Ok page) => Some (items page) | _ => None end) es).

(** A call that touches the database. *)
Definition touches_db (e : PEv) : bool :=
  match e with EDump _ _ | ERestore _ _ => true | _ => false end.

(** ** Symbolic execution of a run *)

(** Follow the run [H], in which [Hin] finds an event, up to the first call
    [stop] accepts: a run that ends earlier does not contain the event. *)
Ltac run_until stop H Hin :=
  simpl in H;
  lazymatch type of H with
  | runs (Ret _) _ _ => apply runs_Ret in H as [-> _]; by apply not_elem_of_nil in Hin
  | runs (Vis ?op _) _ _ =>
      tryif stop op then idtac else
      (let r := fresh "r" in let es := fresh "es" in
       apply runs_Vis in H as [[-> ->]|(r & es & -> & H)]; [by apply not_elem_of_nil in Hin|];
       simpl in Hin; apply elem_of_cons in Hin as [Hin|Hin]; [discriminate Hin|];
       run_until stop H Hin)
  | context [match ?x with _ => _ end] => destruct x eqn:?; simplify_eq/=; run_until stop H Hin
  end.

(** Every way the run [H] can end. *)
Ltac run_all H :=
  simpl in H;
  lazymatch type of H with
  | runs (Ret _) _ _ =>
      let Hq := fresh in
      apply runs_Ret in H as [-> Hq]; first [injection Hq as -> | subst]
  | runs (Vis _ _) _ _ =>
      let r := fresh "r" in let es := fresh "es" in let Hq := fresh in
      apply runs_Vis in H as [[-> Hq]|(r & es & -> & H)];
      [first [discriminate Hq | subst]|run_all H]
  | context [match ?x with _ => _ end] => destruct x eqn:?; simplify_eq/=; run_all H
  end.

(** [Hin] finds an event in a list of other events. *)
Ltac not_in Hin :=
  simpl in Hin;
  repeat (apply elem_of_cons in Hin as [Hin|Hin]; [discriminate Hin|]);
  by apply not_elem_of_nil in Hin.

Ltac is_restore op := lazymatch op with Restorer_restore _ => idtac | _ => fail end.

(** The answer to a resolve. *)
Definition resolve_event (target : BackupTarget) (info : BackupInfo) : PEv :=
  match target with Id i => EGet i (Ok info) | Latest => ELatest (Ok (Some info)) end.

(** Nothing reaches the database before its copy is stored: if a restore,
    finished or cut short anywhere, has called [pg_restore], then before that
    it took the lock, found a [pg_dump] backup, downloaded it into a fresh
    temporary file, dumped the current database into another one, uploaded
    that dump as a pre-restore copy, and only then restored from the
    downloaded file; and it restores once. *)
Theorem restore_stores_copy_first deps target confirm es q src r :
  runs (restore deps target confirm) es q -> ERestore src r ∈ es ->
  exists t0 info p now pre msg rest,
    es = [ETryLock true; EInstant t0; resolve_event target info; ENewTemp ".pgdump" (Ok src);
          EDownload info src (Ok tt); ENewTemp ".pgdump" (Ok p); EDump p (Ok tt); ENow now;
          EUpload (UploadRequest_pg_dump p (dumper_db_name deps) PreRestore now) (Ok pre);
          EDropTemp p; ELog Info msg; ERestore src r] ++ rest /\
    format info = PgCustom /\ confirm = restorer_db_name deps /\
    Forall (fun e => touches_db e = false) rest.
Proof.
  intros H Hin. unfold restore, lock, with_guard, with_temp, dump_and_upload, temp_file, resolve in H.
  destruct (String.eqb_spec confirm (db_name deps)) as [->|]; simpl in H;
    [|apply runs_Ret in H as [-> _]; by apply not_elem_of_nil in Hin].
  run_until is_restore H Hin.
  all: repeat match goal with u : unit |- _ => destruct u end.
  all: destruct r0, r2, r3; simplify_eq/=.
  all: try match goal with E : ok_or ?o _ = Ok _ |- _ => destruct o; simplify_eq/= end.
  all: apply runs_Vis in H as [[-> ->]|(r' & es' & -> & H)]; [by apply not_elem_of_nil in Hin|].
  all: run_all H; (apply elem_of_cons in Hin as [[= -> ->]|Hin]; [|not_in Hin]).
  all: eexists _, _, _, _, _, _, _; split_and!; [reflexivity|by apply bool_decide_eq_false_1, dec_stable in Heqb|done|].
  all: by repeat constructor.
Qed.

Definition sample_restore_events : list PEv :=
  map obs (trace fake (restore (harness_deps None) (Id "good") "tracker") (harness_files [good_backup])).

Lemma restore_stores_copy_first_witness :
  exists rest, length sample_restore_events = (12 + length rest)%nat /\
    Forall (fun e => touches_db e = false) rest.
Proof.
  assert (ERestore "/data/backup_0.pgdump" (Ok tt) ∈ sample_restore_events) as Hin
    by (vm_compute; do 11 right; left).
  destruct (restore_stores_copy_first (harness_deps None) (Id "good") "tracker" _ _ _ _
    (trace_runs _ _ _) Hin) as (? & ? & ? & ? & ? & ? & rest & Hes & _ & _ & Hrest).
  exists rest. split; [|exact Hrest]. unfold sample_restore_events. rewrite Hes. reflexivity.
Defined.

(** ** Backups and retention *)

(** Neither an upload nor a lock operation. *)
Definition not_upload (e : PEv) : Prop := match e with EUpload _ _ => False | _ => True end.

Definition not_delete (e : PEv) : Prop := match e with EDelete _ _ => False | _ => True end.

Lemma list_pages_emits n all tok P :
  (forall k t r, P (EList k t r)) -> emits P (list_pages n all tok).
Proof.
  intros HP. revert all tok. induction n as [|n IH]; intros all tok; simpl; [done|].
  intros [page|e]; (split; [apply HP|]); [|done].
  destruct (next_page_token page) as [next|]; [|done]. by destruct (str_is_empty next).
Qed.

Lemma prune_emits deps P :
  (forall k t r, P (EList k t r)) -> (forall i r, P (EDelete i r)) -> (forall l m, P (ELog l m)) ->
  emits P (prune_old_backups deps).
Proof.
  intros HL HD HG. unfold prune_old_backups. destruct (retention deps) as [keep|]; [|done].
  apply emits_bind; [by apply list_pages_emits|]. intros [all|e].
  - apply emits_for_each. intros b. unfold prune_one. by solve_emits.
  - by solve_emits.
Qed.

Lemma not_upload_elem es req r : Forall not_upload es -> EUpload req r ∉ es.
Proof. intros Hall Hin. rewrite Forall_forall in Hall. exact (Hall _ Hin). Qed.

Lemma not_delete_deletes es : Forall not_delete es -> deletes es = [].
Proof. induction 1 as [|e es He _ IH]; [done|]. by destruct e. Qed.

Lemma deletes_app es1 es2 : deletes (es1 ++ es2) = deletes es1 ++ deletes es2.
Proof. apply omap_app. Qed.

Lemma listed_app es1 es2 : listed (es1 ++ es2) = listed es1 ++ listed es2.
Proof. unfold listed. by rewrite omap_app, concat_app. Qed.

(** A run inside a guard: a run of the body, then the release. *)
Lemma with_guard_runs {A} (body : M A) es q :
  runs (with_guard body) es q ->
  exists es1 es2 q', es = es1 ++ es2 /\ runs body es1 q' /\ (es2 = [] \/ es2 = [EUnlock]).
Proof.
  intros [(p' & H & _ & _)|(r & es1 & es2 & -> & H & Hrest)]%runs_bind.
  - exists es, [], p'. rewrite app_nil_r. auto.
  - exists es1, es2, (Ret r). split_and!; [done..|]. run_all Hrest; auto.
Qed.

(** The calls of [dump_and_upload]. *)
Definition dump_call (e : PEv) : Prop :=
  match e with
  | ENewTemp _ _ | EDropTemp _ | EDump _ _ | ENow _ | EUpload _ _ => True
  | _ => False
  end.

Lemma dump_and_upload_emits deps k : emits dump_call (dump_and_upload deps k).
Proof. unfold dump_and_upload, temp_file, with_temp. solve_emits. Qed.

Lemma dump_call_no_list es : Forall dump_call es -> deletes es = [] /\ listed es = [].
Proof. induction 1 as [|e es He _ [IH1 IH2]]; [done|]. by destruct e. Qed.

(** What a complete [dump_and_upload] tells. *)
Lemma dump_and_upload_runs deps k es r :
  runs (dump_and_upload deps k) es (Ret r) ->
  Forall not_delete es /\ forall info, r = Ok info <-> exists req, EUpload req (Ok info) ∈ es.
Proof.
  intros H. unfold dump_and_upload, temp_file, with_temp in H.
  run_all H; simpl; (split; [by repeat constructor|]); intros info;
    set_solver.
Qed.

(** A backup succeeds exactly when its dump was uploaded: a finished
    [create_backup] returns the record of the upload it made, and nothing that
    happens during retention (a failed listing, failed deletes) changes it. *)
Theorem create_backup_outcome deps es r :
  runs (create_backup deps) es (Ret r) ->
  forall info, r = Ok info <-> exists req, EUpload req (Ok info) ∈ es.
Proof.
  intros H. unfold create_backup, lock, with_guard in H. cbn [bind trigger] in H.
  apply runs_Vis in H as [[_ H]|(ok & es0 & -> & H)]; [done|].
  destruct ok; cbn [bind trigger] in H; [|run_all H; intros info; split; [done|]; intros (req & Hin); not_in Hin].
  apply runs_bind_Ret in H as (r1 & es1 & es2 & -> & H & Hend).
  apply runs_bind_Ret in H as (r2 & es3 & es4 & -> & Hdump & H).
  apply dump_and_upload_runs in Hdump as [_ Hdump].
  run_all Hend. destruct r2 as [info'|e].
  - apply runs_bind_Ret in H as ([] & es5 & es6 & -> & Hprune & H). run_all H.
    assert (Forall not_upload es5) by (eapply emits_runs; [|exact Hprune]; by apply prune_emits).
    intros info. rewrite Hdump. pose proof (not_upload_elem es5). simpl. set_solver.
  - run_all H. intros info. rewrite Hdump. simpl. set_solver.
Qed.

Lemma create_backup_outcome_witness :
  exists info, (exists req, EUpload req (Ok info) ∈
    map obs (trace fake (create_backup (harness_deps (Some 1%nat))) (harness_files [good_backup]))).
Proof.
  eexists. apply (create_backup_outcome (harness_deps (Some 1%nat)) _ _ (trace_runs _ _ _)).
  by vm_compute.
Defined.

(** ** Listing everything *)

Lemma listed_page n t page es : listed (EList n t (Ok page) :: es) = items page ++ listed es.
Proof. done. Qed.

(** The pages of a listing follow each other: every page but the last hands
    out the token the next one is asked with. *)
Fixpoint chained (tok : option string) (es : list PEv) : Prop :=
  match es with
  | [] => True
  | EList n t r :: es =>
      n = MAX_PAGE_SIZE /\ t = tok /\
      match es with
      | [] => True
      | _ => exists page next, r = Ok page /\ next_page_token page = Some next /\ next <> "" /\
               chained (Some next) es
      end
  | _ => False
  end.

Definition has_next (page : Page BackupInfo) : bool :=
  match next_page_token page with Some next => negb (str_is_empty next) | None => false end.

Lemma str_is_empty_spec s : str_is_empty s = false <-> s <> "".
Proof. by destruct s. Qed.

Lemma list_pages_runs n acc tok es r :
  runs (list_pages n acc tok) es (Ret r) ->
  chained tok es /\ (length es <= n)%nat /\
  match r with
  | Ok all => all = acc ++ listed es /\
      exists t page, last es = Some (EList MAX_PAGE_SIZE t (Ok page)) /\ has_next page = false
  | Err e => length es = n \/ exists t, last es = Some (EList MAX_PAGE_SIZE t (Err e))
  end.
Proof.
  revert acc tok es. induction n as [|n IH]; intros acc tok es H; simpl in H.
  { run_all H. simpl. auto. }
  apply runs_Vis in H as [[_ H]|([page|e] & es1 & -> & H)]; [done| |].
  2:{ run_all H. simpl. split_and!; [done..|lia|]. right. eauto. }
  destruct (next_page_token page) as [next|] eqn:Hnext; [destruct (str_is_empty next) eqn:Hempty|].
  - run_all H. simpl. rewrite listed_page, app_nil_r. split_and!; [done..|lia|done|].
    eexists _, _. split; [done|]. unfold has_next. by rewrite Hnext, Hempty.
  - apply IH in H as (Hc & Hlen & Hr). apply str_is_empty_spec in Hempty.
    assert (es1 <> [] \/ exists e, r = Err e) as Hne.
    { destruct r as [all|e]; [|eauto]. destruct Hr as (_ & t & pg & Hl & _). left. by intros ->. }
    split_and!; simpl; [|lia|].
    + split_and!; [done..|]. destruct es1; [done|]. eauto 10.
    + destruct r as [all|e].
      * destruct Hr as (-> & t & pg & Hl & Hn). simpl. rewrite listed_page, app_assoc.
        split; [done|]. exists t, pg. destruct es1; [done|]. by rewrite last_cons_cons.
      * destruct Hr as [Hr|[t Hl]]; [left; lia|]. right. exists t.
        destruct es1; [done|]. by rewrite last_cons_cons.
  - run_all H. simpl. rewrite listed_page, app_nil_r. split_and!; [done..|lia|done|].
    eexists _, _. split; [done|]. unfold has_next. by rewrite Hnext.
Qed.

(** [list_all] reads the listing page by page, at most 100 pages of 100
    backups: it follows the tokens the storage hands out; when it succeeds it
    returns the backups of all the pages in order and the last page had no
    successor; when it fails a page failed with that error or 100 pages were
    read. *)
Theorem list_all_reads_every_page es r :
  runs list_all es (Ret r) ->
  chained None es /\ (length es <= MAX_RETENTION_PAGES)%nat /\
  match r with
  | Ok all => all = listed es /\
      exists t page, last es = Some (EList MAX_PAGE_SIZE t (Ok page)) /\ has_next page = false
  | Err e => length es = MAX_RETENTION_PAGES \/
      exists t, last es = Some (EList MAX_PAGE_SIZE t (Err e))
  end.
Proof. apply (list_pages_runs MAX_RETENTION_PAGES [] None). Qed.

Lemma list_all_reads_every_page_witness :
  exists all, run fake list_all (harness_files [good_backup]) =
    (Ok all, harness_files [good_backup]) /\ all = [good_backup.1].
Proof.
  pose proof (list_all_reads_every_page _ _ (trace_runs fake list_all (harness_files [good_backup])))
    as (_ & _ & H).
  destruct (run fake list_all (harness_files [good_backup])) as [[all|e] h] eqn:Hr; vm_compute in Hr;
    [|done].
  injection Hr as <- <-. destruct H as [H _]. eexists. split; [done|]. exact H.
Defined.

(** ** Deleting *)

Lemma prune_one_runs b es q :
  runs (prune_one b) es q ->
  listed es = [] /\ Forall not_upload es /\
  (deletes es = [id b] \/ deletes es = [] /\ forall u, q <> Ret u).
Proof.
  intros H. unfold prune_one in H.
  run_all H; simpl; (split_and!; [done|by repeat constructor|]); (by left) || (right; done).
Qed.

Lemma prune_loop_runs l es q :
  runs (for_each l prune_one) es q ->
  deletes es `prefix_of` (id <$> l) /\ listed es = [] /\ (q = Ret tt -> deletes es = id <$> l).
Proof.
  revert es. induction l as [|b l IH]; intros es H; cbn [for_each] in H.
  { by apply runs_Ret in H as [-> ->]. }
  apply runs_bind in H as [(p' & H & Hne & ->)|([] & es1 & es2 & -> & H & Hrest)];
    apply prune_one_runs in H as (Hl & _ & Hd).
  - split_and!; [|done|intros Hq; destruct p' as [u|]; [by destruct (Hne u)|done]].
    destruct Hd as [-> | [-> _]]; simpl; [by exists (id <$> l)|apply prefix_nil].
  - destruct Hd as [Hd|[_ Hne]]; [|by destruct (Hne tt)].
    apply IH in Hrest as (Hp & Hl2 & Hc). rewrite deletes_app, listed_app, Hl, Hl2, Hd.
    split_and!; [by apply prefix_cons|done|]. intros Hq. by rewrite Hc.
Qed.

(** The deletes of a run of retention, in terms of what it has listed. *)
Lemma prune_runs deps es q :
  runs (prune_old_backups deps) es q ->
  deletes es = [] \/
  exists keep, retention deps = Some keep /\
    deletes es `prefix_of` (id <$> retention_candidates (listed es) keep).
Proof.
  intros H. unfold prune_old_backups in H. destruct (retention deps) as [keep|]; [|by run_all H; left].
  assert (forall es q, runs list_all es q -> deletes es = []) as Hlist.
  { clear. intros es q H. eapply not_delete_deletes, emits_runs; [|exact H].
    by apply list_pages_emits. }
  apply runs_bind in H as [(p' & H & _ & ->)|(r & es1 & es2 & -> & H & Hrest)].
  { left. by eapply Hlist. }
  rewrite deletes_app, (Hlist _ _ H), listed_app. destruct r as [all|e].
  - apply list_pages_runs in H as (_ & _ & -> & _). apply prune_loop_runs in Hrest as (Hp & Hl & _).
    right. exists keep. by rewrite Hl, app_nil_r.
  - left. by run_all Hrest.
Qed.

(** Retention deletes exactly the candidates of a complete listing, each
    once and in order; when the listing fails it deletes nothing. *)
Theorem prune_deletes_candidates deps keep es :
  retention deps = Some keep -> runs (prune_old_backups deps) es (Ret tt) ->
  exists es1 es2 r, es = es1 ++ es2 /\ runs list_all es1 (Ret r) /\
    match r with
    | Ok all => deletes es = id <$> retention_candidates all keep
    | Err _ => deletes es = []
    end.
Proof.
  intros Hk H. unfold prune_old_backups in H. rewrite Hk in H.
  apply runs_bind_Ret in H as (r & es1 & es2 & -> & H & Hrest).
  exists es1, es2, r. split_and!; [done..|].
  assert (deletes es1 = []) as Hd1.
  { eapply not_delete_deletes, emits_runs; [|exact H]. by apply list_pages_emits. }
  rewrite deletes_app, Hd1. destruct r as [all|e].
  - by apply prune_loop_runs in Hrest as (_ & _ & ->).
  - by run_all Hrest.
Qed.

(** A backup is deleted only after the new one is stored, and only if it
    is a retention candidate among the backups listed in that run: at any
    point of [create_backup] at which something has been deleted, an upload
    has succeeded before, and the deleted ids are the first of the
    candidates. *)
Theorem create_backup_deletes_after_upload deps es q :
  runs (create_backup deps) es q -> deletes es <> [] ->
  exists es1 es2 req info keep,
    es = es1 ++ EUpload req (Ok info) :: es2 /\ deletes es1 = [] /\ retention deps = Some keep /\
    deletes es `prefix_of` (id <$> retention_candidates (listed es) keep).
Proof.
  intros H Hdel. unfold create_backup, lock in H. cbn [bind trigger] in H.
  apply runs_Vis in H as [[-> _]|(ok & es0 & -> & H)]; [done|].
  destruct ok; cbn [bind trigger] in H; [|by run_all H].
  apply with_guard_runs in H as (es1 & es2 & q' & -> & H & Hes2).
  assert (deletes es2 = [] /\ listed es2 = []) as [Hd2 Hl2] by by destruct Hes2 as [-> | ->].
  change (deletes (_ :: ?es)) with (deletes es) in *. change (listed (_ :: ?es)) with (listed es).
  rewrite deletes_app, Hd2, app_nil_r in *. rewrite listed_app, Hl2, app_nil_r.
  apply runs_bind in H as [(p' & H & _ & ->)|(r & es3 & es4 & -> & H & Hrest)].
  { pose proof (dump_call_no_list es1 (emits_runs _ _ _ _ (dump_and_upload_emits _ _) H)). naive_solver. }
  destruct (dump_call_no_list es3 (emits_runs _ _ _ _ (dump_and_upload_emits _ _) H)) as [Hd3 Hl3].
  rewrite deletes_app, Hd3 in *. rewrite listed_app, Hl3. simpl in *.
  destruct r as [info|e]; [|by run_all Hrest].
  apply dump_and_upload_runs in H as [_ Hup].
  destruct (proj1 (Hup info) eq_refl) as [req (es5 & es6 & ->)%list_elem_of_split].
  assert (exists q', runs (prune_old_backups deps) es4 q') as [q2 Hp].
  { apply runs_bind in Hrest as [(p' & Hp & _)|([] & es7 & es8 & -> & Hp & Hr)]; [eauto|].
    run_all Hr. rewrite app_nil_r. eauto. }
  apply prune_runs in Hp as [?|(keep & Hk & Hpre)]; [done|].
  exists (ETryLock true :: es5), ((es6 ++ es4) ++ es2), req, info, keep. split_and!; [| |done..].
  - simpl. by rewrite <-!app_assoc.
  - rewrite deletes_app in Hd3. by apply app_eq_nil in Hd3 as [? _].
Qed.

Lemma create_backup_deletes_after_upload_witness :
  exists es1 es2 req info,
    map obs (trace fake (create_backup (harness_deps (Some 1%nat))) (harness_files [good_backup]))
    = es1 ++ EUpload req (Ok info) :: es2.
Proof.
  destruct (create_backup_deletes_after_upload (harness_deps (Some 1%nat)) _ _
    (trace_runs fake (create_backup (harness_deps (Some 1%nat))) (harness_files [good_backup])))
    as (es1 & es2 & req & info & _ & Hes & _); [by vm_compute|].
  exists es1, es2, req, info. exact Hes.
Defined.

Lemma prune_deletes_candidates_witness :
  exists es1 es2 r,
    map obs (trace fake (prune_old_backups (harness_deps (Some 0%nat))) (harness_files [good_backup]))
    = es1 ++ es2 /\ runs list_all es1 (Ret r).
Proof.
  destruct (prune_deletes_candidates (harness_deps (Some 0%nat)) 0
    (map obs (trace fake (prune_old_backups (harness_deps (Some 0%nat))) (harness_files [good_backup]))))
    as (es1 & es2 & r & Hes & Hr & _); [done| |by exists es1, es2, r].
  replace (Ret tt) with (Ret (E := PortE) (run fake (prune_old_backups (harness_deps (Some 0%nat)))
    (harness_files [good_backup])).1) by by vm_compute.
  apply trace_runs.
Defined.
