(* ===== verification/ServiceWorld.v ===== *)
(** * What the use cases do to the database, the storage and the disk

    Against the contract of [Ports.v]: a restore is atomic and can be undone,
    the old database is safe at every point of it, and a backup stores the
    database and removes nothing but old backups.  [mem] is an in-memory
    implementation of the ports that follows the contract. *)

From Stdlib Require Import ZArith Lia Ascii.
From stdpp Require Import base numbers gmap sorting strings list.
From S2P Require Import Prelude RustStd Url Chrono Core Ports Service.
Open Scope Z_scope.
Open Scope rust_scope.

(** ** Definitions *)

Section World.
Context `{PgFormat}.

(** The ids of the stored backups. *)
Definition stored_ids (w : World) : list string := id <$> (w_store w).*1.

(** [wpi I p Q w]: [I] holds whenever [p], started in [w], makes a call, and
    [Q] at the end. *)
Definition wpi (I : World -> Prop) {A} (p : M A) (Q : A -> World -> Prop) (w : World) : Prop :=
  wp (fun w _ _ => I w) world_step p Q w.

(** A run of service code in a world, complete or cut short. *)
Definition evolves {A} (p : M A) (w w' : World) : Prop :=
  exists tr q, wsteps world_step p w tr q w'.

(** The database [d] can be had back: it is the current one, or the storage
    has a dump of it kept as a pre-restore copy. *)
Definition recoverable (d : Db) (w : World) : Prop :=
  w_db w = d \/
  exists info c, (info, c) ∈ w_store w /\ pg_dumps d c /\ kind info = PreRestore.

(** ** Rules *)

Lemma wpi_evolves (I : World -> Prop) {A} (p : M A) Q w w' :
  wpi I p Q w -> (forall a w, Q a w -> I w) -> evolves p w w' -> I w'.
Proof.
  intros Hp HQ (tr & q & Hs). pose proof (wp_wsteps _ _ _ _ _ _ _ _ Hp Hs) as Hq.
  destruct q as [a|T op k]; [by apply (HQ a)|exact (proj1 Hq)].
Qed.

Lemma wpi_completes (I : World -> Prop) {A} (p : M A) Q w a w' :
  wpi I p Q w -> completes p w a w' -> Q a w'.
Proof. intros Hp [tr Hs]. exact (wp_wsteps _ _ _ _ _ _ _ _ Hp Hs). Qed.

Lemma wpi_bind I {A B} (p : M A) (f : A -> M B) (P : A -> World -> Prop) Q w :
  wpi I p P w -> (forall a w', P a w' -> wpi I (f a) Q w') -> wpi I (bind p f) Q w.
Proof. apply wp_bind_2. Qed.

Lemma wpi_Ret (I : World -> Prop) {A} (a : A) (Q : A -> World -> Prop) w :
  Q a w -> wpi I (Ret a) Q w.
Proof. done. Qed.

Lemma wpi_Vis (I : World -> Prop) {A T} (op : PortE T) (k : T -> M A) Q w :
  I w -> (forall r w', port_step w (obs (Ev op r)) w' -> wpi I (k r) Q w') -> wpi I (Vis op k) Q w.
Proof. done. Qed.

(** A temporary file leaves no trace. *)
Lemma with_temp_wpi I {A} (body : M A) p (Q : A -> World -> Prop) w :
  wpi I body (fun r w' => I w' /\ Q r (mkWorld _ (w_db w') (w_store w') (delete p (w_files w')) (w_others w'))) w ->
  wpi I (with_temp p body) Q w.
Proof.
  intros Hb. eapply wpi_bind; [exact Hb|]. intros r w' [HI HQ]. apply wpi_Vis; [done|].
  intros _ w'' ->. exact HQ.
Qed.

(** An id the storage has just given out. *)
Definition new_id (i : string) (w : World) : Prop :=
  (i ∉ stored_ids w) /\ (i ∉ w_others w) /\ plain i = true.

(** A dump of the database is stored in front of the rest. *)
Definition dump_added (k : BackupKind) (w : World) (info : BackupInfo) (w' : World) : Prop :=
  exists c, pg_dumps (w_db w) c /\ w_store w' = (info, c) :: w_store w /\
    kind info = k /\ new_id (id info) w.

(** What [dump_and_upload] leaves. *)
Definition dumped (k : BackupKind) (w : World) (r : Result BackupInfo) (w' : World) : Prop :=
  w_db w' = w_db w /\ w_files w' = w_files w /\ w_others w' = w_others w /\
  match r with
  | Ok info => dump_added k w info w'
  | Err _ => w_store w' = w_store w \/ exists info, dump_added k w info w'
  end.

(** An upload of a dump of the database. *)
Lemma stores_dump p c prefix k now info w w1 w2 :
  w_files w !! p = None -> pg_dumps (w_db w) c ->
  writes_file p c (mkWorld _ (w_db w) (w_store w) (<[p := []]> (w_files w)) (w_others w)) w1 ->
  stores (UploadRequest_pg_dump p prefix k now) info w1 w2 ->
  w_db w2 = w_db w /\ delete p (w_files w2) = w_files w /\ w_others w2 = w_others w /\ dump_added k w info w2.
Proof.
  intros Hp Hc -> (content & Hl & _ & Hk & _ & Hid & Hot & Hpl & ->). simpl in *.
  rewrite lookup_insert_eq in Hl. injection Hl as <-. split_and!; [done| |done|].
  - by rewrite !delete_insert_eq, delete_id.
  - by exists c.
Qed.

Lemma dump_and_upload_wpi I deps k w :
  (forall w', w_db w' = w_db w -> I w') ->
  wpi I (dump_and_upload deps k) (dumped k w) w.
Proof.
  intros HI. unfold dump_and_upload, temp_file. cbn [bind trigger]. apply wpi_Vis; [by apply HI|].
  intros [p|e] w1 Hs; cbn [obs port_step] in Hs; [|subst; split_and!; auto].
  destruct Hs as [Hp ->]. cbn [result_map_err bind]. apply with_temp_wpi.
  cbn [bind trigger]. apply wpi_Vis; [by apply HI|].
  intros [[]|e] w1 Hs; cbn [obs port_step] in Hs.
  - destruct Hs as (c & Hc & Hw). assert (w_db w1 = w_db w) as Hdb by (by rewrite Hw).
    apply wpi_Vis; [by apply HI|]. intros now w2 ->. cbn [bind trigger].
    apply wpi_Vis; [by apply HI|]. intros [info|e] w3 Hs3; cbn [obs port_step] in Hs3.
    + destruct (stores_dump _ _ _ _ _ _ _ _ _ Hp Hc Hw Hs3) as (Hdb3 & Hf3 & Ho3 & Had).
      apply wpi_Ret. split; [by apply HI|]. by split_and!.
    + apply wpi_Ret. destruct Hs3 as [-> | (info & Hs3)].
      * split; [by apply HI|]. rewrite Hw. split_and!; simpl; [done| |done|by left].
        by rewrite !delete_insert_eq, delete_id.
      * destruct (stores_dump _ _ _ _ _ _ _ _ _ Hp Hc Hw Hs3) as (Hdb3 & Hf3 & Ho3 & Had).
        split; [by apply HI|]. split_and!; [done..|]. right. by exists info.
  - destruct Hs as (Hdb & Hst & Hot & _ & Hf). apply wpi_Ret. split; [by apply HI|].
    split_and!; simpl; [done| |done|by left]. rewrite Hf. simpl. by rewrite delete_insert_eq, delete_id.
Qed.

Lemma resolve_wpi (I : World -> Prop) target w :
  I w -> wpi I (resolve target)
    (fun r w' => w' = w /\ match r with
       | Ok info => (info ∈ (w_store w).*1) /\ (id info ∉ w_others w) /\
           match target with Id i => plain i = true -> id info = i | Latest => kind info <> PreRestore end
       | Err _ => True end) w.
Proof.
  intros HI. destruct target as [i|]; (apply wpi_Vis; [done|]).
  - intros [info|e] w' Hs; cbn [obs port_step] in Hs; apply wpi_Ret; naive_solver.
  - intros [[info|]|e] w' Hs; cbn [obs port_step] in Hs; apply wpi_Ret; simpl; naive_solver.
Qed.

(** The objects of the backup [info] were restored over the database, and a copy
    [pre] of the old one was stored before. *)
Definition replaced (w : World) (target : BackupTarget) (info pre : BackupInfo) (w' : World) : Prop :=
  dump_added PreRestore w pre w' /\
  (info ∈ (w_store w).*1) /\
  match target with Id i => plain i = true -> id info = i | Latest => kind info <> PreRestore end /\
  exists f a, f ∈ w_store w /\ id f.1 = id info /\ pg_restore_bytes f.2 = Some a /\
    restored_over a (w_db w) (w_db w').

(** What a restore leaves. *)
Definition restored_to (w : World) (target : BackupTarget) (r : Result RestoreOutcome) (w' : World) : Prop :=
  w_files w' = w_files w /\
  match r with
  | Ok out => replaced w target (restored out) (pre_restore out) w'
  | Err _ =>
      (w_db w' = w_db w /\ (w_store w' = w_store w \/ exists pre, dump_added PreRestore w pre w')) \/
      exists info pre, replaced w target info pre w'
  end.

Lemma dump_added_suffix k w info w' : dump_added k w info w' -> exists l, w_store w' = l ++ w_store w.
Proof. intros (c & _ & -> & _). by eexists [_]. Qed.

Lemma with_guard_wpi I {A} (body : M A) (Q : A -> World -> Prop) w :
  wpi I body (fun r w' => I w' /\ Q r w') w -> wpi I (with_guard body) Q w.
Proof.
  intros Hb. eapply wpi_bind; [exact Hb|]. intros r w' [HI HQ]. apply wpi_Vis; [done|].
  by intros _ w'' ->.
Qed.

Lemma dump_added_recoverable w info w' : dump_added PreRestore w info w' -> recoverable (w_db w) w'.
Proof. intros (c & Hc & Hst & Hk & _). right. exists info, c. rewrite Hst. split_and!; [left|done..]. Qed.

Lemma restored_to_recoverable w target r w' :
  restored_to w target r w' -> recoverable (w_db w) w'.
Proof.
  intros [_ Hr]. destruct r as [out|e]; [by eapply dump_added_recoverable, Hr|].
  destruct Hr as [[Hdb _]|(info & pre & Hr & _)]; [by left|by eapply dump_added_recoverable].
Qed.

(** The end of a restore: the downloaded file is restored. *)
Lemma restore_tail_wpi w target info f file pre w1 (k : unit -> M (Result RestoreOutcome)) :
  w_files w !! file = None ->
  info ∈ (w_store w).*1 ->
  match target with Id i => plain i = true -> id info = i | Latest => kind info <> PreRestore end ->
  f ∈ w_store w -> id f.1 = id info ->
  w_db w1 = w_db w -> w_files w1 = <[file := f.2]> (w_files w) ->
  dump_added PreRestore w pre w1 ->
  (forall Q w', (forall w'', w'' = w' -> Q (Ok (mkRestoreOutcome info pre)) w'') ->
     recoverable (w_db w) w' -> wpi (recoverable (w_db w)) (k tt) Q w') ->
  wpi (recoverable (w_db w)) (let? u := call (Restorer_restore file) in k u)
    (fun r w' => recoverable (w_db w) w' /\
       restored_to w target r (mkWorld _ (w_db w') (w_store w') (delete file (w_files w')) (w_others w'))) w1.
Proof.
  intros Hfile Hin Ht Hf Hid Hdb Hfiles Hpre Hcont.
  assert (forall w', w_store w' = w_store w1 -> dump_added PreRestore w pre w') as Hadd.
  { intros w' Hw. destruct Hpre as (c & Hc & Hst & Hk). exists c. by rewrite Hw. }
  assert (forall w', w_store w' = w_store w1 -> recoverable (w_db w) w') as Hrec
    by (intros; by eapply dump_added_recoverable, Hadd).
  apply wpi_Vis; [by apply Hrec|].
  assert (forall w2, replaces_db file w1 w2 ->
    delete file (w_files w2) = w_files w /\ replaced w target info pre
      (mkWorld _ (w_db w2) (w_store w2) (delete file (w_files w2)) (w_others w2)) /\ w_store w2 = w_store w1) as Hrep.
  { intros w2 (content & a & d & Hc & Ha & Hd & ->). rewrite Hfiles, lookup_insert_eq in Hc. injection Hc as <-.
    simpl. rewrite Hfiles, delete_insert_eq, delete_id by done. split_and!; [done| |done].
    split_and!; [by apply Hadd|done..|]. rewrite Hdb in Hd. by exists f, a. }
  intros [[]|e] w2 Hs; cbn [obs port_step] in Hs.
  - destruct (Hrep w2 Hs) as (Hd & Hr & Hw2).
    apply Hcont; [|by apply Hrec]. intros w3 ->. split; [by apply Hrec|]. by split.
  - apply wpi_Ret. destruct Hs as [-> |Hs].
    + split; [by apply Hrec|]. split; simpl; [by rewrite Hfiles, delete_insert_eq, delete_id|].
      left. split; [done|]. right. exists pre. by apply Hadd.
    + destruct (Hrep w2 Hs) as (Hd & Hr & Hw2). split; [by apply Hrec|]. split; [done|]. right. eauto.
Qed.

Lemma restore_wpi deps target confirm w :
  wpi (recoverable (w_db w)) (restore deps target confirm) (restored_to w target) w.
Proof.
  assert (restored_to w target (Err (Busy "")) w) as Hsame
    by (split; [done|left; split; [done|by left]]).
  assert (forall e, restored_to w target (Err e) w) as Herr by done.
  unfold restore, lock. destruct (negb _); [by apply wpi_Ret|]. cbn [bind trigger].
  apply wpi_Vis; [by left|]. intros [] w' ->; [|by apply wpi_Ret]. cbn [bind].
  apply with_guard_wpi. cbn [bind trigger]. apply wpi_Vis; [by left|]. intros t0 w' ->.
  eapply wpi_bind; [apply resolve_wpi; by left|]. intros [info|e] w' [-> Hres];
    [|apply wpi_Ret; split; [by left|done]].
  destruct Hres as (Hin & Hot & Ht). destruct (bool_decide _); [apply wpi_Ret; split; [by left|done]|].
  unfold temp_file. cbn [bind trigger]. apply wpi_Vis; [by left|].
  intros [file|e] w' Hs; cbn [obs port_step] in Hs; [|subst; apply wpi_Ret; split; [by left|done]].
  destruct Hs as [Hfile ->]. cbn [result_map_err].
  eapply wp_mono; [|apply with_temp_wpi; cbn [bind trigger]; apply wpi_Vis; [by left|]].
  { intros r w' HQ. split; [by eapply restored_to_recoverable|exact HQ]. }
  intros [[]|e] w' Hs; cbn [obs port_step] in Hs.
  - destruct Hs as [Ho Hs]. destruct (Hs Hot) as (f & Hf & Hid & Hdst). simpl in Hf.
    apply (only_file_writes _ _ _ _ Ho) in Hdst as ->. clear Ho Hs.
    eapply wpi_bind; [apply dump_and_upload_wpi; by left|].
    intros [pre|e] w1 (Hdb & Hfs & _ & Hd); simpl in Hdb, Hfs.
    + cbn [bind trigger]. apply wpi_Vis; [by left|].
      intros _ w' ->. eapply (restore_tail_wpi w target info f file pre w1); try done.
      * rewrite Hfs. by rewrite insert_insert_eq.
      * intros Q w' HQ Hrec. apply wpi_Vis; [done|]. intros now w2 ->. cbn [bind trigger].
        apply wpi_Vis; [done|]. intros _ w2 ->. apply wpi_Ret. by apply HQ.
    + apply wpi_Ret. split; [by left|]. split; simpl; [|by left].
      by rewrite Hfs, !delete_insert_eq, delete_id.
  - destruct Hs as (Hdb & Hst & _ & _ & Hfs). simpl in Hdb, Hst, Hfs. apply wpi_Ret.
    split; [by left|]. split; simpl; [by rewrite Hfs, delete_insert_eq, delete_id|]. left.
    split; [done|by left].
Qed.

(** ** Restore *)

(** A restore is all or nothing.  When it succeeds the objects of the chosen
    backup are in the database as the backup has them, any other object is as
    it was or gone, and the storage has, in front of everything it had, a
    pre-restore copy that is a dump of the old database.  When it reports a
    failure either nothing was restored and the storage has at most gained the
    copy, or all of the above holds and only the confirmation got lost.
    No temporary file is left. *)
Theorem restore_atomic deps target confirm w r w' :
  completes (restore deps target confirm) w r w' -> restored_to w target r w'.
Proof. eapply wpi_completes, restore_wpi. Qed.

(** The old database is never lost: at every point of a restore, finished
    or cut short by a crash or a cancellation, it is still in place or a dump
    of it is in the storage as a pre-restore copy. *)
Theorem restore_never_loses_database deps target confirm w w' :
  evolves (restore deps target confirm) w w' -> recoverable (w_db w) w'.
Proof.
  apply (wpi_evolves _ _ _ _ _ (restore_wpi deps target confirm w)).
  intros r w1. apply restored_to_recoverable.
Qed.

Lemma stored_id_unique f w g :
  id f.1 ∉ stored_ids w -> g ∈ f :: w_store w -> id g.1 = id f.1 -> g = f.
Proof.
  intros Hn [->|Hg]%elem_of_cons Hid; [done|]. destruct Hn. rewrite <-Hid.
  unfold stored_ids. by apply list_elem_of_fmap_2, list_elem_of_fmap_2.
Qed.

(** A restore can be undone: restoring the pre-restore copy that a restore
    returned brings back every object of the database that was there before it
    as it was; an object it did not have can only be one the first restore
    brought in. *)
Theorem restore_undo deps target confirm w out w' out' w'' :
  completes (restore deps target confirm) w (Ok out) w' ->
  completes (restore deps (Id (id (pre_restore out))) confirm) w' (Ok out') w'' ->
  (w_db w ⊆ w_db w'') /\ forall x o, w_db w'' !! x = Some o ->
    w_db w !! x = Some o \/
    exists f a, f ∈ w_store w /\ id f.1 = id (restored out) /\ pg_restore_bytes f.2 = Some a /\ a !! x = Some o.
Proof.
  intros H1 H2. apply (wpi_completes _ _ _ _ _ _ (restore_wpi _ _ _ _)) in H1, H2.
  destruct H1 as (_ & (c & Hc & Hst & _ & Hfresh & _ & Hpl) & _ & _ & g & a1 & Hg & Hgid & Ha1 & [_ Hd1]).
  destruct H2 as (_ & _ & _ & Hid & f & a & Hf & Hid' & Ha & [Hd2 Hd2']).
  rewrite Hst in Hf. rewrite (Hid Hpl) in Hid'.
  pose proof (stored_id_unique (pre_restore out, c) w f Hfresh Hf Hid') as ->.
  simpl in Ha. rewrite (pg_restore_dump _ _ Hc) in Ha. injection Ha as <-. split; [done|].
  intros x o Ho. eapply lookup_weaken in Ho; [|exact Hd2'].
  apply lookup_union_Some_raw in Ho as [Ho|[Hn Ho]]; [by left|].
  eapply lookup_weaken in Ho; [|exact Hd1]. apply lookup_union_Some_raw in Ho as [Ho|[_ Ho]]; [|by left].
  right. eauto 10.
Qed.

(** ** Backup *)

(** [w'] has lost, among the stored backups of [w], only regular [pg_dump]
    ones. *)
Definition pruned (w w' : World) : Prop :=
  w_db w' = w_db w /\ w_files w' = w_files w /\
  w_store w' `sublist_of` w_store w /\
  forall f, f ∈ w_store w -> f ∈ w_store w' \/ exists b, b ∈ (w_store w).*1 /\ id b = id f.1 /\ prunable b = true.

Definition no_such_id (i : string) (f : BackupInfo * bytes) : bool := negb (bool_decide (id f.1 = i)).

Lemma pruned_refl w : pruned w w.
Proof. split_and!; auto. Qed.

Lemma filter_sublist {A} (P : A -> bool) l : List.filter P l `sublist_of` l.
Proof. induction l as [|x l IH]; simpl; [done|]. destruct (P x); by constructor. Qed.

Lemma pruned_delete w w' w'' b :
  pruned w w' -> b ∈ (w_store w).*1 -> prunable b = true -> removes_id (id b) w' w'' -> pruned w w''.
Proof.
  intros (Hdb & Hfs & Hsub & Hkeep) Hb Hp ->. split_and!; simpl; [done..| |].
  - etrans; [apply filter_sublist|done].
  - intros f Hf. destruct (Hkeep f Hf) as [Hf'|?]; [|by right].
    destruct (no_such_id (id b) f) eqn:Hn.
    + left. apply list_elem_of_In, filter_In. split; [by apply list_elem_of_In|done].
    + right. exists b. split_and!; [done| |done]. unfold no_such_id in Hn.
      apply negb_false_iff, bool_decide_eq_true in Hn. done.
Qed.

Definition always (_ : World) : Prop := True.

(** The pages of a listing hold backups of the storage. *)
Lemma list_pages_wpi n all tok w :
  (forall b, b ∈ all -> b ∈ (w_store w).*1) ->
  wpi always (list_pages n all tok)
    (fun r w' => w' = w /\ match r with
       | Ok all => forall b, b ∈ all -> b ∈ (w_store w).*1 | Err _ => True end) w.
Proof.
  revert all tok. induction n as [|n IH]; intros all tok Hall; [done|].
  cbn [list_pages bind trigger]. apply wpi_Vis; [done|]. intros [page|e] w' Hs; cbn [obs port_step] in Hs.
  - destruct Hs as [-> Hpage].
    assert (forall b, b ∈ all ++ items page -> b ∈ (w_store w).*1) as Hall' by set_solver.
    destruct (next_page_token page) as [next|]; [destruct (str_is_empty next)|]; [by apply wpi_Ret| |by apply wpi_Ret].
    by apply IH.
  - subst. by apply wpi_Ret.
Qed.

Lemma prune_wpi deps w : wpi always (prune_old_backups deps) (fun _ => pruned w) w.
Proof.
  unfold prune_old_backups. destruct (retention deps) as [keep|]; [|apply wpi_Ret, pruned_refl].
  eapply wpi_bind; [apply list_pages_wpi; set_solver|]. intros [all|e] w' [-> Hall].
  - apply wp_for_each; [|apply pruned_refl]. intros b w' Hb Hp.
    apply retention_candidates_elem in Hb as (Hb & Hk & Hf). unfold prune_one. cbn [bind trigger].
    apply wpi_Vis; [done|]. intros r w1 Hs.
    assert (pruned w w1) as Hp1.
    { assert (removes_id (id b) w' w1 -> pruned w w1)
        by (intros; eapply pruned_delete; [done|by apply Hall|by apply prunable_spec|done]).
      destruct r; cbn [obs port_step] in Hs; [auto|destruct Hs; [by subst|auto]]. }
    destruct r; (apply wpi_Vis; [done|]); by intros [] w2 ->.
  - apply wpi_Vis; [done|]. intros [] w1 ->. apply wpi_Ret, pruned_refl.
Qed.

(** A backup stores the database and takes nothing away but old backups.
    A successful [create_backup] has uploaded a dump of the current database
    under a new id; what is missing afterwards from the storage are regular
    [pg_dump] backups (never a legacy one or a pre-restore copy).  A failed one
    has deleted nothing, and may have stored the dump all the same.  The database and the local files are as before. *)
Theorem create_backup_stores_database deps w r w' :
  completes (create_backup deps) w r w' ->
  w_db w' = w_db w /\ w_files w' = w_files w /\
  match r with
  | Ok info => exists w1, dump_added Regular w info w1 /\ pruned w1 w'
  | Err _ => w_store w' = w_store w \/ exists info, dump_added Regular w info w'
  end.
Proof.
  apply (wpi_completes always (create_backup deps) (fun r w' =>
    w_db w' = w_db w /\ w_files w' = w_files w /\ match r with
    | Ok info => exists w1, dump_added Regular w info w1 /\ pruned w1 w'
    | Err _ => w_store w' = w_store w \/ exists info, dump_added Regular w info w' end) w).
  unfold create_backup, lock. cbn [bind trigger]. apply wpi_Vis; [done|].
  intros [] w1 ->; [|apply wpi_Ret; split_and!; [done..|by left]].
  cbn [bind]. apply with_guard_wpi. eapply wpi_bind; [by apply dump_and_upload_wpi|].
  intros [info|e] w1 Hd.
  - destruct Hd as (Hdb & Hfs & _ & Hadd). eapply wpi_bind; [apply prune_wpi|].
    intros [] w2 Hp. apply wpi_Ret. split; [done|]. pose proof Hp as (Hdb2 & Hfs2 & _).
    rewrite <-Hdb, <-Hfs. split_and!; [done..|]. by exists w1.
  - destruct Hd as (Hdb & Hfs & _ & Hst). by apply wpi_Ret.
Qed.

(** ** Download *)

(** The bytes a download of a stored backup gives. *)
Definition delivered (info : BackupInfo) (stored content : bytes) : Prop :=
  match format info with
  | LegacyJsonZstd => zstd_decode stored = Some content
  | PgCustom => content = stored
  end.

Definition downloaded (w : World) (r : Result (BackupInfo * path)) (w' : World) : Prop :=
  w_db w' = w_db w /\ w_store w' = w_store w /\
  match r with
  | Ok (info, file) => w_files w !! file = None /\
      exists f content, f ∈ w_store w /\ id f.1 = id info /\ delivered info f.2 content /\
        w_files w' = <[file := content]> (w_files w)
  | Err _ => w_files w' = w_files w
  end.

(** The second half of a legacy download. *)
Lemma decompress_wpi deps w info f file :
  w_files w !! file = None -> f ∈ w_store w -> id f.1 = id info -> format info = LegacyJsonZstd ->
  wpi always
    (with_temp file (
       let? json := temp_file deps ".json" in
       let* task := call (DecompressTask file json) in
       match task with
       | Ok (Ok _) => Ret (Ok (info, json))
       | Ok (Err e) => with_temp json (Ret (Err e))
       | Err e => with_temp json (Ret (Err (StorageError ("Decompression task failed: " +:+ e))))
       end))
    (downloaded w) (mkWorld _ (w_db w) (w_store w) (<[file := f.2]> (w_files w)) (w_others w)).
Proof.
  intros Hfile Hf Hid Hl. apply with_temp_wpi. unfold temp_file. cbn [bind trigger].
  apply wpi_Vis; [done|]. intros [json|e] w1 Hs; cbn [obs port_step] in Hs; cbn [result_map_err].
  2:{ subst. apply wpi_Ret. split; [done|]. split_and!; simpl; [done..|].
      by rewrite delete_insert_eq, delete_id. }
  destruct Hs as [Hjson ->]. cbn [w_files] in Hjson. apply lookup_insert_None in Hjson as [Hjson Hne].
  apply wpi_Vis; [done|]. intros task w1 Hs.
  assert (forall e, only_file json (mkWorld _ (w_db w) (w_store w)
      (<[json := []]> (<[file := f.2]> (w_files w))) (w_others w)) w1 ->
    wpi always (with_temp json (Ret (Err e)))
      (fun r w' => always w' /\ downloaded w r
         (mkWorld _ (w_db w') (w_store w') (delete file (w_files w')) (w_others w'))) w1) as Herr.
  { intros e (Hdb & Hst & _ & _ & Hd). apply with_temp_wpi, wpi_Ret. split; [done|]. split; [done|].
    split_and!; simpl in *; [done..|]. rewrite Hd, delete_insert_id by (by apply lookup_insert_None).
    by rewrite delete_insert_id. }
  destruct task as [[[]|e]|e]; cbn [obs port_step] in Hs; [|by apply Herr..].
  destruct Hs as (content & j & Hc & Hj & ->). cbn [w_files] in Hc.
  rewrite lookup_insert_ne, lookup_insert_eq in Hc by done. injection Hc as <-.
  apply wpi_Ret. split; [done|]. split_and!; simpl; [done..|]. exists f, j.
  split_and!; [done..|by unfold delivered; rewrite Hl|].
  rewrite insert_insert_eq, delete_insert_ne, delete_insert_id by done. done.
Qed.

(** A download hands over the right bytes in a file of its own: when it
    succeeds, the one change is a new local file with the stored content of
    the backup, decompressed if it is a legacy one; when it fails nothing has
    changed. *)
Theorem download_delivers_backup deps target w r w' :
  completes (download deps target) w r w' -> downloaded w r w'.
Proof.
  apply (wpi_completes always (download deps target) (downloaded w)). unfold download.
  eapply wpi_bind; [by apply resolve_wpi|]. intros [info|e] w1 [-> Hres]; [|by apply wpi_Ret].
  unfold temp_file. cbn [bind trigger]. apply wpi_Vis; [done|].
  intros [file|e] w1 Hs; cbn [obs port_step] in Hs; cbn [result_map_err]; [|subst; by apply wpi_Ret].
  destruct Hs as [Hfile ->]. apply wpi_Vis; [done|]. intros [[]|e] w1 Hs; cbn [obs port_step] in Hs.
  - destruct Hs as [Ho Hs]. destruct (Hs (proj1 (proj2 Hres))) as (f & Hf & Hid & Hdst).
    apply (only_file_writes _ _ _ _ Ho) in Hdst as ->. unfold writes_file.
    cbn [w_store w_db w_files w_others] in *. rewrite insert_insert_eq.
    case_bool_decide as Hfmt.
    + apply wpi_Ret. split_and!; simpl; [done..|]. exists f, f.2. split_and!; [done..| |done].
      unfold delivered. by destruct (format info).
    + apply decompress_wpi; [done..|]. by destruct (format info).
  - destruct Hs as (Hdb & Hst & _ & _ & Hd). apply with_temp_wpi, wpi_Ret. split; [done|].
    split_and!; simpl in *; [done..|]. by rewrite Hd, delete_insert_id.
Qed.
End World.

(** ** An implementation of the contract *)

Section Memory.
Context `{PgFormat, !PgDump}.

(** A name longer than all those in use. *)
Definition longest (l : list string) : nat := foldr (fun s n => Nat.max (String.length s) n) 0%nat l.

Fixpoint repeat_char (n : nat) : string :=
  match n with O => "" | S n => String "x" (repeat_char n) end.

Definition new_name (used : list string) : string := repeat_char (S (longest used)).

Definition used_paths (w : World) : list path := (map_to_list (w_files w)).*1.

Definition set_file (w : World) (p : path) (content : bytes) : World :=
  mkWorld _ (w_db w) (w_store w) (<[p := content]> (w_files w)) (w_others w).

Definition find_id (i : string) (w : World) : option (BackupInfo * bytes) :=
  List.find (fun f => bool_decide (id f.1 = i)) (w_store w).

Definition mem_upload (req : UploadRequest) (content : bytes) (w : World) : BackupInfo :=
  {| id := new_name (stored_ids w ++ w_others w); name := req_name req; 
     created_at := mkDateTime (1767225600 + Z.of_nat (length (w_store w))) 0;
     size_bytes := Some (Z.of_nat (length content)); md5 := None;
     format := req_format req; kind := req_kind req |}.

Definition mem : handler PortE World := fun T e w =>
  match e in PortE T return T * World with
  | TryLock => (true, w)
  | Unlock => (tt, w)
  | NewTempFile _ _ _ => let p := new_name (used_paths w) in (Ok p, set_file w p [])
  | DropTempFile p => (tt, mkWorld _ (w_db w) (w_store w) (delete p (w_files w)) (w_others w))
  | Dumper_dump dst => (Ok tt, set_file w dst (pg_dump_bytes (w_db w)))
  | Restorer_restore src =>
      match w_files w !! src ≫= pg_restore_bytes with
      | Some a => (Ok tt, mkWorld _ (a ∪ w_db w) (w_store w) (w_files w) (w_others w))
      | None => (Err (IoError "restore" "bad dump"), w)
      end
  | DbHealth_ping => (Ok tt, w)
  | Storage_upload req =>
      match w_files w !! req_path req with
      | Some content =>
          let info := mem_upload req content w in
          (Ok info, mkWorld _ (w_db w) ((info, content) :: w_store w) (w_files w) (w_others w))
      | None => (Err (IoError "upload" "no file"), w)
      end
  | Storage_list _ _ => (Ok (mkPage (sort_newest_first (w_store w).*1) None), w)
  | Storage_latest =>
      match head (sort_newest_first
         (List.filter (fun b => bool_decide (kind b <> PreRestore)) (w_store w).*1)) with
      | Some info =>
          if bool_decide (id info ∈ w_others w) then (Err (NotFound ""), w) else (Ok (Some info), w)
      | None => (Ok None, w)
      end
  | Storage_get i =>
      match find_id i w with
      | Some f => if bool_decide (id f.1 ∈ w_others w) then (Err (NotFound i), w) else (Ok f.1, w)
      | None => (Err (NotFound i), w)
      end
  | Storage_download b dst =>
      match find_id (id b) w with
      | Some f => (Ok tt, set_file w dst f.2)
      | None => (Err (NotFound (id b)), set_file w dst [])
      end
  | Storage_delete i =>
      (Ok tt, mkWorld _ (w_db w) (List.filter (no_such_id i) (w_store w)) (w_files w)
                (List.filter (fun j => negb (bool_decide (j = i))) (w_others w)))
  | Clock_now => (mkDateTime 1767225600 0, w)
  | Instant_now => (0, w)
  | DecompressTask src dst =>
      match w_files w !! src ≫= zstd_decode with
      | Some json => (Ok (Ok tt), set_file w dst json)
      | None => (Ok (Err (IoError "zstd" "bad frame")), set_file w dst [])
      end
  | Log _ _ => (tt, w)
  end.

Lemma longest_le x l : x ∈ l -> (String.length x <= longest l)%nat.
Proof. induction 1 as [x l|x y l _ IH]; simpl; lia. Qed.

Lemma repeat_char_length n : String.length (repeat_char n) = n.
Proof. induction n as [|n IH]; simpl; congruence. Qed.

Lemma new_name_fresh l : new_name l ∉ l.
Proof. intros Hin%longest_le. unfold new_name in Hin. rewrite repeat_char_length in Hin. lia. Qed.

Lemma new_name_plain l : plain (new_name l) = true.
Proof. unfold new_name. generalize (S (longest l)). induction n as [|n IH]; [done|]. exact IH. Qed.

Lemma new_path_fresh w : w_files w !! new_name (used_paths w) = None.
Proof.
  destruct (w_files w !! _) as [c|] eqn:Hc; [|done].
  destruct (new_name_fresh (used_paths w)). unfold used_paths at 2.
  apply list_elem_of_fmap. exists (new_name (used_paths w), c). split; [done|].
  by apply elem_of_map_to_list.
Qed.

Lemma find_id_Some i w f : find_id i w = Some f -> f ∈ w_store w /\ id f.1 = i.
Proof.
  intros [Hin Hid]%List.find_some. split; [by apply list_elem_of_In|].
  by apply bool_decide_eq_true in Hid.
Qed.

Lemma set_file_only w p c : only_file p w (set_file w p c).
Proof.
  split_and!; simpl; [done..| |].
  - rewrite lookup_insert_eq. eauto.
  - by rewrite delete_insert_eq.
Qed.

Lemma latest_spec (l : list BackupInfo) :
  match head (sort_newest_first (List.filter (fun b => bool_decide (kind b <> PreRestore)) l)) with
  | Some info => (info ∈ l) /\ kind info <> PreRestore /\
      forall b, b ∈ l -> kind b <> PreRestore -> dt_le (created_at b) (created_at info)
  | None => forall b, b ∈ l -> kind b = PreRestore
  end.
Proof.
  set (l' := List.filter _ l).
  assert (forall b, b ∈ l' <-> b ∈ l /\ kind b <> PreRestore) as Hl.
  { intros b. unfold l'. rewrite list_elem_of_In, filter_In, bool_decide_eq_true.
    by rewrite <-list_elem_of_In. }
  pose proof (sort_newest_first_perm l') as Hperm. pose proof (sort_newest_first_sorted l') as Hsort.
  destruct (sort_newest_first l') as [|info rest]; simpl.
  - intros b Hb. destruct (kind b) eqn:Hk; [|done].
    assert (b ∈ l') as Hin by (apply Hl; rewrite Hk; done). rewrite <-Hperm in Hin.
    by apply not_elem_of_nil in Hin.
  - assert (info ∈ l') as [? ?]%Hl by (rewrite <-Hperm; left). split_and!; [done..|].
    intros b Hb Hk. assert (b ∈ l') as Hin by by apply Hl.
    rewrite <-Hperm in Hin. apply elem_of_cons in Hin as [->|Hin]; [reflexivity|].
    apply StronglySorted_inv in Hsort as [_ Hall]. rewrite Forall_forall in Hall. by apply Hall.
Qed.

(** The contract can be met: the in-memory ports follow it, whatever they are
    asked. *)
Lemma mem_follows_contract T (e : PortE T) w : world_step w (Ev e (mem T e w).1) (mem T e w).2.
Proof.
  unfold world_step. destruct e; simpl; try done.
  - split; [apply new_path_fresh|done].
  - eexists. split; [apply pg_dump_bytes_ok|done].
  - destruct (w_files w !! src) as [c|] eqn:Hc; simpl; [|by left].
    destruct (pg_restore_bytes c) as [a|] eqn:Ha; simpl; [|by left]. exists c, a, (a ∪ w_db w).
    split_and!; [done..| |done]. by split; [apply map_union_subseteq_l|].
  - destruct (w_files w !! req_path req) as [c|] eqn:Hc; simpl; [|by left].
    pose proof (new_name_fresh (stored_ids w ++ w_others w)) as [Hn1 Hn2]%not_elem_of_app.
    exists c. split_and!; [done..|apply new_name_plain|done].
  - split; [done|]. intros b Hb. by rewrite sort_newest_first_perm in Hb.
  - pose proof (latest_spec (w_store w).*1) as Hl. destruct (head _) as [info|]; [|done].
    case_bool_decide; [done|]. simpl. naive_solver.
  - destruct (find_id i w) as [f|] eqn:Hf; simpl; [|done]. apply find_id_Some in Hf as [Hf Hid].
    case_bool_decide; [done|]. split_and!; [done| |done|done]. by apply list_elem_of_fmap_2.
  - destruct (find_id (id backup) w) as [f|] eqn:Hf; simpl; [|apply set_file_only].
    apply find_id_Some in Hf as [Hf Hid]. split; [apply set_file_only|]. exists f.
    split_and!; [done..|]. apply lookup_insert_eq.
  - destruct (w_files w !! src) as [c|] eqn:Hc; simpl; [|apply set_file_only].
    destruct (zstd_decode c) as [j|] eqn:Hj; simpl; [|apply set_file_only]. by exists c, j.
Qed.

Lemma mem_completes {A} (p : M A) w : completes p w (run mem p w).1 (run mem p w).2.
Proof. exists (trace mem p w). apply trace_wsteps. intros. apply mem_follows_contract. Qed.

Definition succeeds {A} (p : M (Result A)) (w : World) : bool :=
  match (run mem p w).1 with Ok _ => true | Err _ => false end.

Lemma mem_succeeds {A} (p : M (Result A)) w :
  succeeds p w = true -> exists a, (run mem p w).1 = Ok a /\ completes p w (Ok a) (run mem p w).2.
Proof.
  unfold succeeds. pose proof (mem_completes p w) as Hc. destruct (run mem p w) as [[a|e] w']; [|done].
  intros _. by exists a.
Qed.
End Memory.

(** ** Witnesses: databases of texts *)

#[local] Instance plain_pg : PgFormat := text_pg (fun b => Some (rev b)).
#[local] Instance plain_dump : PgDump := text_pg_dump _.

Definition sample_deps (keep : option nat) : ServiceDeps := mkServiceDeps "tracker" "tracker" "/data" keep.

(** The database has a table the backup [b1] does not have. *)
Definition old_db : Db := {["users" := chars "old"; "tags" := chars "t"]}.
Definition b1_db : Db := {["users" := chars "new"]}.
Definition new_db : Db := {["users" := chars "new"; "tags" := chars "t"]}.

Definition sample_world : World :=
  mkWorld _ old_db
    [(sample_backup "b1" 1 PgCustom Regular, pg_dump_bytes b1_db);
     (sample_backup "l1" 2 LegacyJsonZstd Regular, chars "wen")] ∅ ["other"].

Definition after_restore : Result RestoreOutcome * World :=
  run mem (restore (sample_deps None) (Id "b1") "tracker") sample_world.

Lemma restore_succeeds : succeeds (restore (sample_deps None) (Id "b1") "tracker") sample_world = true.
Proof. vm_compute. reflexivity. Qed.

Lemma restore_atomic_witness :
  exists out w', completes (restore (sample_deps None) (Id "b1") "tracker") sample_world (Ok out) w' /\
    restored_to sample_world (Id "b1") (Ok out) w'.
Proof.
  destruct (mem_succeeds _ _ restore_succeeds) as (out & _ & Hc).
  exists out, after_restore.2. split; [exact Hc|]. exact (restore_atomic _ _ _ _ _ _ Hc).
Defined.

Lemma restore_never_loses_database_witness : recoverable (w_db sample_world) after_restore.2.
Proof.
  apply (restore_never_loses_database (sample_deps None) (Id "b1") "tracker").
  destruct (mem_completes (restore (sample_deps None) (Id "b1") "tracker") sample_world) as [tr Htr].
  by eexists tr, _.
Defined.

Definition undo_restore (out : RestoreOutcome) : M (Result RestoreOutcome) :=
  restore (sample_deps None) (Id (id (pre_restore out))) "tracker".

Lemma undo_succeeds out :
  after_restore.1 = Ok out -> succeeds (undo_restore out) after_restore.2 = true.
Proof.
  assert (match after_restore.1 with Ok out => succeeds (undo_restore out) after_restore.2 | Err _ => true end = true)
    as Hu by (vm_compute; reflexivity).
  intros Hout. by rewrite Hout in Hu.
Qed.

Lemma restore_undo_witness :
  exists out out' w'', completes (undo_restore out) after_restore.2 (Ok out') w'' /\
    old_db ⊆ w_db w''.
Proof.
  destruct (mem_succeeds _ _ restore_succeeds) as (out & Hout & Hc).
  destruct (mem_succeeds _ _ (undo_succeeds out Hout)) as (out' & _ & Hc').
  exists out, out', (run mem (undo_restore out) after_restore.2).2. split; [exact Hc'|].
  exact (proj1 (restore_undo _ _ _ _ _ _ _ _ Hc Hc')).
Defined.

Lemma create_succeeds : succeeds (create_backup (sample_deps (Some 1%nat))) sample_world = true.
Proof. vm_compute. reflexivity. Qed.

Lemma create_backup_stores_database_witness :
  exists info w', completes (create_backup (sample_deps (Some 1%nat))) sample_world (Ok info) w' /\
    kind info = Regular.
Proof.
  destruct (mem_succeeds _ _ create_succeeds) as (info & _ & Hc). eexists info, _. split; [exact Hc|].
  destruct (create_backup_stores_database _ _ _ _ Hc) as (_ & _ & w1 & (c & _ & _ & Hk & _) & _). exact Hk.
Defined.

Lemma download_succeeds : succeeds (download (sample_deps None) (Id "l1")) sample_world = true.
Proof. vm_compute. reflexivity. Qed.

Lemma download_delivers_backup_witness :
  exists info file w', completes (download (sample_deps None) (Id "l1")) sample_world (Ok (info, file)) w' /\
    w_files sample_world !! file = None.
Proof.
  destruct (mem_succeeds _ _ download_succeeds) as ([info file] & _ & Hc). eexists info, file, _.
  split; [exact Hc|]. destruct (download_delivers_backup _ _ _ _ _ Hc) as (_ & _ & Hf & _). exact Hf.
Defined.
