(* ===== verification/Api.v ===== *)
(** * [backup-server]: the gRPC surface

    Conversions ([convert.rs]), statuses ([status.rs]) and the handlers of the
    [Backup] service ([grpc.rs]); the messages are those of [backup.proto].
    Handlers are programs over the same ports as the use cases they call. *)

From Stdlib Require Import ZArith Lia Ascii.
From stdpp Require Import base numbers gmap sorting strings list.
From S2P Require Import Prelude RustStd Chrono Core Ports Service Fakes.
Open Scope Z_scope.
Open Scope rust_scope.

(** ** Messages *)

Record Timestamp := mkTimestamp { seconds : Z; nanos : Z }.

(** Enum fields travel as [i32]. *)
Record ProtoInfo := mkProtoInfo {
  p_id : string;
  p_name : string;
  p_created_at : option Timestamp;
  p_size_bytes : option Z;
  p_format : Z;
  p_kind : Z;
}.

Definition BACKUP_FORMAT_PG_CUSTOM : Z := 1.
Definition BACKUP_FORMAT_LEGACY_JSON_ZSTD : Z := 2.
Definition BACKUP_KIND_REGULAR : Z := 1.
Definition BACKUP_KIND_PRE_RESTORE : Z := 2.

Inductive RefTarget := TargetId (i : string) | TargetLatest (b : bool).
Record BackupRef := mkBackupRef { ref_target : option RefTarget }.
Record ListBackupsRequest := mkListBackupsRequest { lr_page_size : Z; lr_page_token : string }.
Record ListBackupsReply := mkListBackupsReply {
  backups : list ProtoInfo; reply_next_page_token : string }.
Record RestoreRequest := mkRestoreRequest { rr_backup : option BackupRef; rr_confirm_db_name : string }.
Record RestoreReply := mkRestoreReply { reply_restored : option ProtoInfo; reply_pre_restore : option ProtoInfo }.

Inductive Code :=
| CodeOk | CodeCancelled | CodeUnknown | CodeInvalidArgument | CodeDeadlineExceeded | CodeNotFound
| CodeAlreadyExists | CodePermissionDenied | CodeResourceExhausted | CodeFailedPrecondition | CodeAborted
| CodeOutOfRange | CodeUnimplemented | CodeInternal | CodeUnavailable | CodeDataLoss | CodeUnauthenticated.

#[global] Instance Code_eq_dec : EqDecision Code.
Proof. solve_decision. Defined.

Record Status := mkStatus { status_code : Code; status_message : string }.

(** ** [convert.rs] *)

Definition backup_info (info : BackupInfo) : ProtoInfo :=
  {| p_id := id info;
     p_name := name info;
     p_created_at := Some {|
       seconds := timestamp (created_at info);
       nanos := default 0 (try_from (- I32_MAX - 1) I32_MAX (timestamp_subsec_nanos (created_at info))) |};
     p_size_bytes := size_bytes info;
     p_format := match format info with
                 | PgCustom => BACKUP_FORMAT_PG_CUSTOM
                 | LegacyJsonZstd => BACKUP_FORMAT_LEGACY_JSON_ZSTD
                 end;
     p_kind := match kind info with
               | Regular => BACKUP_KIND_REGULAR
               | PreRestore => BACKUP_KIND_PRE_RESTORE
               end |}.

Definition backup_target (backup : option BackupRef) : result BackupTarget Status :=
  let invalid := Err (mkStatus CodeInvalidArgument "backup must set a non-empty id or latest = true") in
  match backup with
  | None => invalid
  | Some b =>
      match ref_target b with
      | Some (TargetId i) => if negb (str_is_empty i) then Ok (Id i) else invalid
      | Some (TargetLatest true) => Ok Latest
      | _ => invalid
      end
  end.

(** ** [status.rs] *)

(** Log level and status of an error. *)
Definition classify_error (context : string) (err : Error) : Level * Status :=
  let msg := context +:+ ": " +:+ Error_display err in
  match err with
  | NotFound _ => (Info, mkStatus CodeNotFound msg)
  | InvalidArgument _ => (Info, mkStatus CodeInvalidArgument msg)
  | FailedPrecondition _ => (Info, mkStatus CodeFailedPrecondition msg)
  | Busy _ => (Info, mkStatus CodeAborted msg)
  | Timeout _ _ => (Error_, mkStatus CodeUnavailable msg)
  | Unavailable _ =>
      (Error_, mkStatus CodeUnavailable (context +:+ ": storage unavailable, retry later"))
  | StorageError _ | Config _ | Process _ _ _ | IoError _ _ =>
      (Error_, mkStatus CodeInternal (context +:+ ": internal error, see server logs"))
  end.

Definition to_status (context : string) (err : Error) : M Status :=
  let '(level, status) := classify_error context err in
  let* _ := call (Log level (context +:+ ": " +:+ Error_display err)) in
  Ret status.

(** [.map_err(|e| to_status(context, e))?] *)
Definition or_status {A} (context : string) (p : M (Result A)) : M (result A Status) :=
  let* r := p in
  match r with
  | Ok a => Ret (Ok a)
  | Err e => let* s := to_status context e in Ret (Err s)
  end.

(** ** [grpc.rs] *)

Section Handlers.
Context `{RustFmt}.

(** [#[derive(Debug)]] for [BackupTarget]. *)
Definition BackupTarget_debug (t : BackupTarget) : string :=
  match t with Id i => "Id(" +:+ str_debug i +:+ ")" | Latest => "Latest" end.

Definition grpc_create_backup (deps : ServiceDeps) : M (result ProtoInfo Status) :=
  let* _ := call (Log Info "Request to create a backup") in
  let? info := or_status "Backup failed" (create_backup deps) in
  Ret (Ok (backup_info info)).

Definition grpc_list_backups (req : ListBackupsRequest) : M (result ListBackupsReply Status) :=
  let token := if str_is_empty (lr_page_token req) then None else Some (lr_page_token req) in
  let? page := or_status "Listing failed" (list_backups (lr_page_size req) token) in
  Ret (Ok (mkListBackupsReply (backup_info <$> items page) (default "" (next_page_token page)))).

Definition grpc_get_backup (req : BackupRef) : M (result ProtoInfo Status) :=
  match backup_target (Some req) with
  | Err s => Ret (Err s)
  | Ok target =>
      let? info := or_status "Getting backup failed" (resolve target) in
      Ret (Ok (backup_info info))
  end.

(** The reply is the header and the file the spawned task streams. *)
Definition grpc_download_backup (deps : ServiceDeps) (req : BackupRef)
    : M (result (ProtoInfo * path) Status) :=
  match backup_target (Some req) with
  | Err s => Ret (Err s)
  | Ok target =>
      let? (info, file) := or_status "Download failed" (download deps target) in
      let* _ := call (Log Info ("Streaming '" +:+ name info +:+ "'")) in
      Ret (Ok (backup_info info, file))
  end.

Definition grpc_restore (deps : ServiceDeps) (req : RestoreRequest) : M (result RestoreReply Status) :=
  match backup_target (rr_backup req) with
  | Err s => Ret (Err s)
  | Ok target =>
      let* _ := call (Log Info ("Request to restore " +:+ BackupTarget_debug target)) in
      let? outcome := or_status "Restore failed" (restore deps target (rr_confirm_db_name req)) in
      Ret (Ok (mkRestoreReply (Some (backup_info (restored outcome)))
                              (Some (backup_info (pre_restore outcome)))))
  end.

Definition grpc_healthcheck : M (result bool Status) :=
  let* is_ok := healthcheck in
  Ret (Ok is_ok).

(** The six calls of the service, and what they answer. *)
Inductive Request :=
| CreateBackup
| ListBackups (req : ListBackupsRequest)
| GetBackup (req : BackupRef)
| DownloadBackup (req : BackupRef)
| Restore (req : RestoreRequest)
| Healthcheck.

Inductive Reply :=
| InfoReply (r : result ProtoInfo Status)
| ListReply (r : result ListBackupsReply Status)
| DownloadReply (r : result (ProtoInfo * path) Status)
| RestoreReply_ (r : result RestoreReply Status)
| HealthReply (r : result bool Status).

Definition map_prog {A B} (f : A -> B) (p : M A) : M B := let* a := p in Ret (f a).

Definition serve (deps : ServiceDeps) (req : Request) : M Reply :=
  match req with
  | CreateBackup => map_prog InfoReply (grpc_create_backup deps)
  | ListBackups req => map_prog ListReply (grpc_list_backups req)
  | GetBackup req => map_prog InfoReply (grpc_get_backup req)
  | DownloadBackup req => map_prog DownloadReply (grpc_download_backup deps req)
  | Restore req => map_prog RestoreReply_ (grpc_restore deps req)
  | Healthcheck => map_prog HealthReply grpc_healthcheck
  end.
End Handlers.

(** ** Facts *)

(** What the client can read from a message. *)
Definition format_of (n : Z) : option BackupFormat :=
  if n =? 1 then Some PgCustom else if n =? 2 then Some LegacyJsonZstd else None.
Definition kind_of (n : Z) : option BackupKind :=
  if n =? 1 then Some Regular else if n =? 2 then Some PreRestore else None.

Definition read_info (p : ProtoInfo) : option BackupInfo :=
  t ← p_created_at p;
  f ← format_of (p_format p);
  k ← kind_of (p_kind p);
  Some (mkBackupInfo (p_id p) (p_name p) (mkDateTime (seconds t) (nanos t)) (p_size_bytes p) None f k).

(** The client sees the backup as the server does: the message made of a
    backup reads back as the same id, name, time, size, format and kind (its
    checksum is not sent). *)
Theorem backup_info_roundtrip info :
  DateTime_wf (created_at info) ->
  read_info (backup_info info) =
    Some (mkBackupInfo (id info) (name info) (created_at info) (size_bytes info) None
            (format info) (kind info)).
Proof.
  intros Hwf. destruct info as [i n [ts ns] sz h f k]. unfold read_info, backup_info. simpl in *.
  rewrite try_from_in; [by destruct f, k|]. unfold DateTime_wf, NANOS_PER_SEC, I32_MAX in *.
  simpl in Hwf. lia.
Qed.

Lemma backup_info_roundtrip_witness :
  exists b, read_info (backup_info good_backup.1) = Some b /\ kind b = Regular.
Proof.
  eexists. split; [apply (backup_info_roundtrip good_backup.1); by vm_compute|done].
Defined.

(** ** What errors tell the client *)

Definition reply_status (r : Reply) : option Status :=
  match r with
  | InfoReply (Err st) | ListReply (Err st) | DownloadReply (Err st) | RestoreReply_ (Err st)
  | HealthReply (Err st) => Some st
  | _ => None
  end.

(** The messages of internal errors and of a storage that is down. *)
Definition opaque_messages : list string :=
  context ← ["Backup failed"; "Listing failed"; "Getting backup failed"; "Download failed"; "Restore failed"];
  [context +:+ ": internal error, see server logs"; context +:+ ": storage unavailable, retry later"].

(** An error whose text is for the server's log only. *)
Definition internal_error (e : Error) : bool :=
  match e with
  | StorageError _ | Config _ | Process _ _ _ | IoError _ _ | Unavailable _ => true
  | _ => false
  end.

(** What [or_status] makes of a failure. *)
Lemma or_status_runs {A} context (p : M (Result A)) es r :
  runs (or_status context p) es (Ret r) ->
  (exists a, r = Ok a /\ runs p es (Ret (Ok a))) \/
  (exists e es', r = Err (classify_error context e).2 /\ runs p es' (Ret (Err e)) /\
     es = es' ++ [ELog (classify_error context e).1 (context +:+ ": " +:+ Error_display e)]).
Proof.
  intros H. apply runs_bind_Ret in H as (x & es1 & es2 & -> & Hp & H). destruct x as [a|e].
  - apply runs_Ret in H as [-> [= ->]]. left. exists a. by rewrite app_nil_r.
  - right. exists e, es1. unfold to_status in H. destruct (classify_error context e) as [lv st].
    cbn [bind trigger] in H. apply runs_Vis in H as [[_ H]|([] & es' & -> & H)]; [done|].
    apply runs_Ret in H as [-> [= ->]]. by split_and!.
Qed.

Definition contexts : list string :=
  ["Backup failed"; "Listing failed"; "Getting backup failed"; "Download failed"; "Restore failed"].

Lemma opaque_message context e :
  context ∈ contexts -> internal_error e = true ->
  status_message (classify_error context e).2 ∈ opaque_messages.
Proof.
  intros Hc He. unfold opaque_messages. apply list_elem_of_bind. exists context. split; [|exact Hc].
  destruct e; try discriminate He; simpl; set_solver.
Qed.

(** The error of an operation, reported: it is logged in full, then mapped. *)
Definition reported (es : list PEv) (st : Status) : Prop :=
  exists context e es', context ∈ contexts /\ st = (classify_error context e).2 /\
    es = es' ++ [ELog (classify_error context e).1 (context +:+ ": " +:+ Error_display e)].

Lemma or_status_reported {A B} context (p : M (Result A)) (k : A -> M (result B Status)) es st :
  context ∈ contexts -> (forall a es' st, runs (k a) es' (Ret (Err st)) -> False) ->
  runs (let? a := or_status context p in k a) es (Ret (Err st)) -> reported es st.
Proof.
  intros Hc Hk H. apply runs_bind_Ret in H as (r & es1 & es2 & -> & H & Hend).
  apply or_status_runs in H as [(a & -> & _)|(e & es' & -> & _ & ->)]; [by apply Hk in Hend|].
  apply runs_Ret in Hend as [-> [= ->]]. exists context, e, es'. rewrite app_nil_r. by split_and!.
Qed.

Lemma reported_cons ev es st : reported es st -> reported (ev :: es) st.
Proof. intros (c & e & es' & Hc & Hst & ->). by exists c, e, (ev :: es'). Qed.

Lemma map_prog_runs {A B} (f : A -> B) (p : M A) es b :
  runs (map_prog f p) es (Ret b) -> exists a, b = f a /\ runs p es (Ret a).
Proof.
  intros H. apply runs_bind_Ret in H as (a & es1 & es2 & -> & Hp & H). apply runs_Ret in H as [-> [= ->]].
  exists a. by rewrite app_nil_r.
Qed.

Section Errors.
Context `{RustFmt}.

Ltac no_error := intros ? ? ? Hbad; apply runs_Ret in Hbad as [_ Hbad]; discriminate Hbad.

Lemma serve_reported deps req es r st :
  runs (serve deps req) es (Ret r) -> reply_status r = Some st ->
  (es = [] /\ st = mkStatus CodeInvalidArgument "backup must set a non-empty id or latest = true") \/
  reported es st.
Proof.
  assert (forall b e, backup_target b = Err e ->
    e = mkStatus CodeInvalidArgument "backup must set a non-empty id or latest = true") as Hinv.
  { intros b e. unfold backup_target. repeat case_match; congruence. }
  intros Hr Hst. destruct req as [|req|req|req|req|]; apply map_prog_runs in Hr as (x & -> & Hr);
    destruct x as [x|st']; simplify_eq/=.
  - right. unfold grpc_create_backup in Hr. cbn [bind trigger] in Hr.
    apply runs_Vis in Hr as [[_ Hr]|([] & es' & -> & Hr)]; [done|]. apply reported_cons.
    eapply or_status_reported; [| |exact Hr]; [set_solver|no_error].
  - right. eapply or_status_reported; [| |exact Hr]; [set_solver|no_error].
  - unfold grpc_get_backup in Hr. destruct (backup_target _) as [t|e] eqn:Ht.
    + right. eapply or_status_reported; [| |exact Hr]; [set_solver|no_error].
    + left. apply runs_Ret in Hr as [-> [= ->]]. split; [done|by eapply Hinv].
  - unfold grpc_download_backup in Hr. destruct (backup_target _) as [t|e] eqn:Ht.
    + right. eapply or_status_reported; [| |exact Hr]; [set_solver|].
      intros [info file] es' st0 Hbad. cbn [bind trigger] in Hbad.
      apply runs_Vis in Hbad as [[_ Hbad]|(u & es2 & -> & Hbad)]; [done|].
      apply runs_Ret in Hbad as [_ Hbad]. discriminate Hbad.
    + left. apply runs_Ret in Hr as [-> [= ->]]. split; [done|by eapply Hinv].
  - unfold grpc_restore in Hr. destruct (backup_target _) as [t|e] eqn:Ht.
    + right. cbn [bind trigger] in Hr.
      apply runs_Vis in Hr as [[_ Hr]|([] & es' & -> & Hr)]; [done|]. apply reported_cons.
      eapply or_status_reported; [| |exact Hr]; [set_solver|no_error].
    + left. apply runs_Ret in Hr as [-> [= ->]]. split; [done|by eapply Hinv].
  - apply runs_bind_Ret in Hr as (b & es1 & es2 & -> & _ & Hr). apply runs_Ret in Hr as [_ Hr].
    discriminate Hr.
Qed.

End Errors.

#[local] Instance plain_strings : RustFmt := {| str_debug := fun s => s |}.

Definition missing_backup : M Reply :=
  serve (harness_deps None) (GetBackup (mkBackupRef (Some (TargetId "missing")))).


(** Listing through the API: one page is asked of the storage, of 20
    backups by default and never more than 100, from the start when the
    client's token is empty and from its token otherwise; the reply has the
    backups of that page in order, and an empty token exactly when there is no
    next page. *)
Theorem api_list_one_page req es r :
  0 <= lr_page_size req -> runs (grpc_list_backups req) es (Ret r) ->
  exists n tok res rest, es = EList n tok res :: rest /\
    n = (if lr_page_size req =? 0 then 20 else Z.min (lr_page_size req) 100) /\ 1 <= n <= 100 /\
    tok = (if String.eqb (lr_page_token req) "" then None else Some (lr_page_token req)) /\
    match res with
    | Ok page => rest = [] /\ exists reply, r = Ok reply /\ backups reply = backup_info <$> items page /\
        (reply_next_page_token reply = "" <-> next_page_token page = None \/ next_page_token page = Some "")
    | Err e => r = Err (classify_error "Listing failed" e).2
    end.
Proof.
  intros Hps H. unfold grpc_list_backups, list_backups in H.
  apply runs_bind_Ret in H as (x & es1 & es2 & -> & H & Hend).
  assert (forall es0 y, runs (call (Storage_list (if lr_page_size req =? 0 then DEFAULT_PAGE_SIZE
      else Z.min (lr_page_size req) MAX_PAGE_SIZE)
      (if str_is_empty (lr_page_token req) then None else Some (lr_page_token req)))) es0 (Ret y) ->
    es0 = [EList (if lr_page_size req =? 0 then 20 else Z.min (lr_page_size req) 100)
      (if String.eqb (lr_page_token req) "" then None else Some (lr_page_token req)) y]) as Hcall.
  { intros es0 y Hy. apply runs_Vis in Hy as [[_ Hy]|(z & es' & -> & Hy)]; [done|].
    apply runs_Ret in Hy as [-> [= ->]]. by destruct (lr_page_token req). }
  assert (1 <= (if lr_page_size req =? 0 then 20 else Z.min (lr_page_size req) 100) <= 100)
    by (destruct (Z.eqb_spec (lr_page_size req) 0); lia).
  apply or_status_runs in H as [(page & -> & H)|(e & es' & -> & H & ->)]; apply Hcall in H as ->;
    apply runs_Ret in Hend as [-> [= ->]]; eexists _, _, _, _; (split; [reflexivity|]); split_and!; try (done || lia).
  eexists. split; [done|]. split; [done|]. simpl.
  destruct (next_page_token page) as [t|]; simpl; naive_solver.
Qed.

Lemma api_list_one_page_witness :
  exists n tok res rest,
    map obs (trace fake (grpc_list_backups (mkListBackupsRequest 0 "")) (harness_files [good_backup]))
    = EList n tok res :: rest /\ 1 <= n <= 100.
Proof.
  destruct (api_list_one_page (mkListBackupsRequest 0 "") _ _
    (Z.le_refl 0) (trace_runs fake _ (harness_files [good_backup])))
    as (n & tok & res & rest & Hes & _ & Hn & _).
  exists n, tok, res, rest. auto.
Defined.
