(* ===== verification/Discipline.v ===== *)
(** * Lock and temporary files: a discipline every request follows

    A monitor tracks, for one request, whether it holds the write lock and
    which temporary files it owns.  Every call of every handler of [grpc.rs] is
    allowed by it, and a request that has answered owns nothing but what its
    answer carries. *)

From Stdlib Require Import ZArith Lia Ascii.
From stdpp Require Import base numbers gmap sorting strings list.
From S2P Require Import Prelude RustStd Chrono Core Ports Service Fakes Api.
Open Scope Z_scope.
Open Scope rust_scope.

(** ** Definitions *)

Record Owned := mkOwned { held : bool; live : list path }.

Definition nothing_owned : Owned := mkOwned false [].

Definition drop_path (p : path) (live : list path) : list path :=
  List.filter (fun q => negb (String.eqb p q)) live.

Definition own (s : Owned) (e : PEv) : Owned :=
  match e with
  | ETryLock true => mkOwned true (live s)
  | EUnlock => mkOwned false (live s)
  | ENewTemp _ (Ok p) => mkOwned (held s) (p :: live s)
  | EDropTemp p => mkOwned (held s) (drop_path p (live s))
  | _ => s
  end.

(** Calls that dump, overwrite or change something are made under the lock;
    files are used while they are owned. *)
Definition own_allowed (s : Owned) (e : PEv) : Prop :=
  match e with
  | ETryLock _ => held s = false
  | EUnlock => held s = true
  | EDropTemp p => p ∈ live s
  | EDump p _ | ERestore p _ => held s = true /\ p ∈ live s
  | EUpload req _ => held s = true /\ req_path req ∈ live s
  | EDelete _ _ => held s = true
  | EDownload _ p _ => p ∈ live s
  | EDecompress src dst _ => src ∈ live s /\ dst ∈ live s /\ src <> dst
  | _ => True
  end.

(** A new temporary file is not one the request has already. *)
Definition fresh_temp (s : Owned) (e : PEv) : Prop :=
  match e with ENewTemp _ (Ok p) => p ∉ live s | _ => True end.

(** The file an answer hands over to the streaming task. *)
Definition handed_over (r : Reply) : list path :=
  match r with DownloadReply (Ok (_, file)) => [file] | _ => [] end.

Abbreviation wpo := (wp (mon_pre own_allowed) (mon_step fresh_temp own)).

(** ** Proofs *)

Lemma drop_path_not_in p l : p ∉ l -> drop_path p l = l.
Proof.
  induction l as [|q l IH]; [done|]. intros [Hne Hl]%not_elem_of_cons. simpl.
  destruct (String.eqb_spec p q); [done|]. simpl. by rewrite IH.
Qed.

Lemma drop_path_head p l : p ∉ l -> drop_path p (p :: l) = l.
Proof. intros Hl. simpl. rewrite String.eqb_refl. simpl. by apply drop_path_not_in. Qed.

Lemma drop_path_second p q l : p <> q -> p ∉ l -> drop_path p (q :: p :: l) = q :: l.
Proof.
  intros Hne Hl. simpl. destruct (String.eqb_spec p q); [done|]. rewrite String.eqb_refl. simpl.
  by rewrite drop_path_not_in.
Qed.

Lemma wpo_Ret {A} (a : A) (Q : A -> Owned -> Prop) s : Q a s -> wpo (Ret a) Q s.
Proof. done. Qed.

#[local] Arguments wp : simpl never.
#[local] Arguments drop_path : simpl never.

(** One case per kind of answer. *)
Ltac split_answer r :=
  let T := type of r in let T := eval hnf in T in
  lazymatch T with result _ _ => destruct r | bool => destruct r | _ => idtac end.

(** Run the program symbolically, up to a sub-program with its own rule. *)
Ltac wpo_step :=
  lazymatch goal with
  | |- wp _ _ (Ret _) _ _ => apply wpo_Ret
  | |- wp _ _ (Vis _ _) _ _ =>
      let r := fresh "r" in let s := fresh "s" in let H := fresh "Hfresh" in
      split; [intros ?; simpl; repeat split; try done; try set_solver|intros r s [H ->]; split_answer r;
       cbn [obs own fresh_temp held live bind result_map_err nothing_owned] in H |- *]
  | |- wp _ _ (match ?x with _ => _ end) _ _ => destruct x
  | |- wp _ _ (bind (match ?x with _ => _ end) _) _ _ => destruct x
  end.
Ltac wpo_run := repeat (simpl; wpo_step); simpl.

Lemma list_pages_wpo n all tok s : wpo (list_pages n all tok) (fun _ s' => s' = s) s.
Proof.
  revert all tok. induction n as [|n IH]; intros all tok; simpl; [done|].
  by wpo_run.
Qed.

Lemma prune_wpo deps s : held s = true -> wpo (prune_old_backups deps) (fun _ s' => s' = s) s.
Proof.
  intros Hh. unfold prune_old_backups. destruct (retention deps) as [keep|]; [|done].
  eapply wp_bind_2; [apply list_pages_wpo|]. intros [all|e] s' ->; [|by wpo_run].
  apply (wp_for_each _ _ _ _ (fun s' => s' = s)); [|done]. intros b s' _ ->. unfold prune_one.
  by wpo_run.
Qed.

Lemma dump_wpo deps k s : held s = true -> wpo (dump_and_upload deps k) (fun _ s' => s' = s) s.
Proof.
  destruct s as [h l]. simpl. intros ->. unfold dump_and_upload, temp_file, with_temp.
  wpo_run; by rewrite ?drop_path_head by done.
Qed.

(** The scope of the guard. *)
Lemma with_guard_wpo {A} (body : M A) l :
  wpo body (fun _ s => s = mkOwned true l) (mkOwned true l) ->
  wpo (with_guard body) (fun _ s => s = mkOwned false l) (mkOwned true l).
Proof. intros H. eapply wp_bind_2; [exact H|]. intros r s ->. by wpo_run. Qed.

(** The scope of a temporary file. *)
Lemma with_temp_wpo {A} (body : M A) p h l :
  p ∉ l -> wpo body (fun _ s => s = mkOwned h (p :: l)) (mkOwned h (p :: l)) ->
  wpo (with_temp p body) (fun _ s => s = mkOwned h l) (mkOwned h (p :: l)).
Proof.
  intros Hp H. eapply wp_bind_2; [exact H|]. intros r s ->. wpo_run. by rewrite drop_path_head.
Qed.

Lemma create_backup_wpo deps :
  wpo (create_backup deps) (fun _ s => s = nothing_owned) nothing_owned.
Proof.
  unfold create_backup, lock. cbn [bind trigger]. wpo_step; [|done].
  apply with_guard_wpo. eapply wp_bind_2; [by apply dump_wpo|]. intros [info|e] s ->; [|done].
  eapply wp_bind_2; [by apply prune_wpo|]. by intros [] s ->.
Qed.

Lemma resolve_wpo target s : wpo (resolve target) (fun _ s' => s' = s) s.
Proof. unfold resolve. by wpo_run. Qed.

Lemma download_wpo deps target :
  wpo (download deps target)
    (fun r s => s = mkOwned false (match r with Ok (_, file) => [file] | Err _ => [] end))
    nothing_owned.
Proof.
  unfold download. eapply wp_bind_2; [apply resolve_wpo|]. intros [info|e] s ->; [|done].
  unfold temp_file, with_temp.
  wpo_run; rewrite ?drop_path_head, ?drop_path_second by set_solver; done || set_solver.
Qed.

Lemma restore_wpo deps target confirm :
  wpo (restore deps target confirm) (fun _ s => s = nothing_owned) nothing_owned.
Proof.
  unfold restore, lock. destruct (negb _); [done|]. cbn [bind trigger]. wpo_step; [|done].
  apply with_guard_wpo. cbn [bind trigger]. wpo_step. eapply wp_bind_2; [apply resolve_wpo|].
  intros [info|e] s ->; [|done]. destruct (bool_decide _); [done|].
  unfold temp_file. cbn [bind trigger]. wpo_step; [|done]. apply with_temp_wpo; [done|].
  cbn [bind trigger]. wpo_step; [|done]. eapply wp_bind_2; [by apply dump_wpo|].
  intros [pre|e] s ->; by wpo_run.
Qed.

(** A handler's error mapping only logs. *)
Lemma or_status_wpo {A} context (p : M (Result A)) (Q : option A -> Owned -> Prop) s :
  wpo p (fun r s' => Q (result_ok r) s') s ->
  wpo (or_status context p) (fun r s' => Q (result_ok r) s') s.
Proof.
  intros Hp. unfold or_status. eapply wp_bind_2; [exact Hp|]. intros [a|e] s' HQ; [exact HQ|].
  unfold to_status. destruct (classify_error context e). by wpo_run.
Qed.

Section Serve.
Context `{RustFmt}.

Lemma serve_wpo deps req :
  wpo (serve deps req) (fun r s => s = mkOwned false (handed_over r)) nothing_owned.
Proof.
  destruct req as [|req|req|req|req|]; unfold serve, map_prog;
    (eapply wp_bind_2; [|intros r s Hs; apply wpo_Ret; exact Hs]).
  - unfold grpc_create_backup. cbn [bind trigger]. wpo_step.
    eapply wp_bind_2; [apply (or_status_wpo _ _ (fun _ s => s = nothing_owned)), create_backup_wpo|].
    by intros [info|e] s ->.
  - unfold grpc_list_backups, list_backups.
    eapply wp_bind_2; [apply (or_status_wpo _ _ (fun _ s => s = nothing_owned)); by wpo_run|].
    by intros [page|e] s ->.
  - unfold grpc_get_backup. destruct (backup_target _) as [t|e]; [|done].
    eapply wp_bind_2; [apply (or_status_wpo _ _ (fun _ s => s = nothing_owned)), resolve_wpo|].
    by intros [info|e] s ->.
  - unfold grpc_download_backup. destruct (backup_target _) as [t|e]; [|done].
    eapply wp_bind_2; [apply (or_status_wpo _ _ (fun o s => s = mkOwned false
      (match o with Some (_, file) => [file] | None => [] end)))|].
    { eapply wp_mono, download_wpo. by intros [[info file]|e] s ->. }
    intros [[info file]|e] s ->; by wpo_run.
  - unfold grpc_restore. destruct (backup_target _) as [t|e]; [|done]. cbn [bind trigger]. wpo_step.
    eapply wp_bind_2; [apply (or_status_wpo _ _ (fun _ s => s = nothing_owned)), restore_wpo|].
    by intros [o|e] s ->.
  - unfold grpc_healthcheck, healthcheck. by wpo_run.
Qed.

(** C22. Every request follows the lock and file discipline, whatever the
    ports answer and wherever it is cut short: the database is dumped or
    overwritten and the storage is changed only under the write lock, a
    temporary file is read, written or removed only while the request owns it,
    and the lock is never taken twice or released without being held.  A
    request that has answered holds no lock and owns no file, except the one a
    download hands over to the task that streams it. *)
Theorem serve_discipline deps req es q :
  runs (serve deps req) es q -> throughout own fresh_temp nothing_owned es ->
  throughout own own_allowed nothing_owned es /\
  forall r, q = Ret r -> foldl own nothing_owned es = mkOwned false (handed_over r).
Proof.
  intros Hr Hf. destruct (wp_monitor _ _ _ _ _ _ _ _ (serve_wpo deps req) Hr Hf) as [Ha Hq].
  split; [exact Ha|]. intros r ->. exact Hq.
Qed.
End Serve.

#[local] Instance plain_fmt : RustFmt := {| str_debug := fun s => s |}.

Definition sample_download : M Reply :=
  serve (harness_deps None) (DownloadBackup (mkBackupRef (Some (TargetId "good")))).

Lemma serve_discipline_witness :
  foldl own nothing_owned (map obs (trace fake sample_download (harness_files [good_backup])))
  = mkOwned false ["/data/backup_0.download"].
Proof.
  destruct (serve_discipline (harness_deps None) (DownloadBackup (mkBackupRef (Some (TargetId "good"))))
    _ _ (trace_runs fake sample_download (harness_files [good_backup]))) as [_ H].
  - vm_compute. set_solver.
  - rewrite (H _ eq_refl). by vm_compute.
Defined.
