(* ===== verification/Concurrency.v ===== *)
(** * Requests running side by side

    The server polls one task per request; they share the write lock, the
    folder of temporary files and the streaming tasks.  A step of the pool is
    the arrival of a request, one call of a request with its answer, its
    answer to the client, its cancellation (the client hangs up and the future
    is dropped with the guard and the files it owns), or the end of a stream. *)

From Stdlib Require Import ZArith Lia Ascii.
From stdpp Require Import base numbers gmap sorting strings list relations.
From S2P Require Import Prelude RustStd Chrono Core Ports Service Fakes Api Discipline.
Open Scope Z_scope.
Open Scope rust_scope.

Record Thread := mkThread { code : M Reply; owns : Owned }.

Record Pool := mkPool {
  threads : gmap nat Thread;
  locked : bool;
  streams : list path;
}.

Definition empty_pool : Pool := mkPool ∅ false [].

(** [p] belongs to no task of the pool. *)
Definition unused (P : Pool) (p : path) : Prop :=
  (p ∉ streams P) /\ forall i t, threads P !! i = Some t -> p ∉ live (owns t).

(** The answers the shared resources give: [try_lock] fails exactly when the
    mutex is locked, and a new temporary file is not in use. *)
Definition answer_ok (P : Pool) (e : PEv) : Prop :=
  match e with
  | ETryLock ok => ok = negb (locked P)
  | ENewTemp _ (Ok p) => unused P p
  | _ => True
  end.

Definition locked_after (l : bool) (e : PEv) : bool :=
  match e with ETryLock true => true | EUnlock => false | _ => l end.

(** Calls that dump or overwrite the database or change the storage. *)
Definition guarded {T} (op : PortE T) : bool :=
  match op with
  | Dumper_dump _ | Restorer_restore _ | Storage_upload _ | Storage_delete _ => true
  | _ => false
  end.

(** The local files a call reads or writes. *)
Definition uses {T} (op : PortE T) : list path :=
  match op with
  | DropTempFile p | Dumper_dump p | Restorer_restore p | Storage_download _ p => [p]
  | Storage_upload req => [req_path req]
  | DecompressTask src dst => [src; dst]
  | _ => []
  end.

Section Pool.
Context `{RustFmt} (deps : ServiceDeps).

Inductive pool_step (P : Pool) : Pool -> Prop :=
| Arrive i req :
    threads P !! i = None ->
    pool_step P (mkPool (<[i := mkThread (serve deps req) nothing_owned]> (threads P))
                        (locked P) (streams P))
| Call i T (op : PortE T) k s r :
    threads P !! i = Some (mkThread (Vis op k) s) ->
    answer_ok P (obs (Ev op r)) ->
    pool_step P (mkPool (<[i := mkThread (k r) (own s (obs (Ev op r)))]> (threads P))
                        (locked_after (locked P) (obs (Ev op r))) (streams P))
| Answer i reply s :
    threads P !! i = Some (mkThread (Ret reply) s) ->
    pool_step P (mkPool (delete i (threads P)) (locked P) (handed_over reply ++ streams P))
| Cancel i t :
    threads P !! i = Some t ->
    pool_step P (mkPool (delete i (threads P)) (if held (owns t) then false else locked P)
                        (streams P))
| StreamEnd l1 p l2 :
    streams P = l1 ++ p :: l2 ->
    pool_step P (mkPool (threads P) (locked P) (l1 ++ l2)).

Definition reachable (P : Pool) : Prop := rtc pool_step empty_pool P.

(** ** The invariant *)

Definition thread_ok (t : Thread) : Prop :=
  wpo (code t) (fun r s => s = mkOwned false (handed_over r)) (owns t).

(** The mutex is locked exactly when it has an owner [o], a task of the pool
    that holds the guard; no other task holds one. *)
Definition lock_inv (m : gmap nat Thread) (l : bool) (o : option nat) : Prop :=
  l = bool_decide (is_Some o) /\
  (forall i t, m !! i = Some t -> held (owns t) = bool_decide (o = Some i)) /\
  (forall i, o = Some i -> is_Some (m !! i)).

(** A file belongs to one task. *)
Definition files_inv (m : gmap nat Thread) (st : list path) : Prop :=
  (forall i j t t' p, m !! i = Some t -> m !! j = Some t' ->
    p ∈ live (owns t) -> p ∈ live (owns t') -> i = j) /\
  (forall i t p, m !! i = Some t -> p ∈ live (owns t) -> p ∉ st).

Definition pool_inv (P : Pool) : Prop :=
  (forall i t, threads P !! i = Some t -> thread_ok t) /\
  (exists o, lock_inv (threads P) (locked P) o) /\
  files_inv (threads P) (streams P).

(** The lock after a call of a task: it is taken, released, or left alone. *)
Lemma own_lock P s e :
  answer_ok P e -> own_allowed s e ->
  (locked P = false /\ held (own s e) = true /\ locked_after (locked P) e = true) \/
  (held s = true /\ held (own s e) = false /\ locked_after (locked P) e = false) \/
  (held (own s e) = held s /\ locked_after (locked P) e = locked P).
Proof.
  destruct s as [h l]. intros Ha Ho.
  destruct e as [ok| |suf [p|er]| | | | | | | | | | | | | |]; simpl in *; auto.
  destruct ok, (locked P); simpl in *; auto; discriminate.
Qed.

Lemma own_live P s e p : answer_ok P e -> p ∈ live (own s e) -> p ∈ live s \/ unused P p.
Proof.
  destruct s as [h l].
  destruct e as [[]| |suf [q|er]|q| | | | | | | | | | | | |]; simpl; auto.
  - intros Hu [->|?]%elem_of_cons; auto.
  - unfold drop_path. intros _ [? _]%list_elem_of_In%filter_In. left. by apply list_elem_of_In.
Qed.

Lemma thread_call P i T (op : PortE T) k s r :
  threads P !! i = Some (mkThread (Vis op k) s) -> thread_ok (mkThread (Vis op k) s) ->
  answer_ok P (obs (Ev op r)) ->
  own_allowed s (obs (Ev op r)) /\ thread_ok (mkThread (k r) (own s (obs (Ev op r)))).
Proof.
  intros Hi [Hpre Hk] Ha. split; [apply Hpre|]. apply Hk. split; [|done].
  destruct (obs (Ev op r)) as [| |suf [q|er]| | | | | | | | | | | | | |]; try done.
  by apply (proj2 Ha _ _ Hi).
Qed.

(** Task [i] changes what it owns. *)
Lemma lock_inv_insert m l o i t t' o' l' :
  lock_inv m l o -> m !! i = Some t ->
  (o' = o /\ l' = l /\ held (owns t') = held (owns t) \/
   o = None /\ o' = Some i /\ l' = true /\ held (owns t') = true \/
   o = Some i /\ o' = None /\ l' = false /\ held (owns t') = false) ->
  lock_inv (<[i := t']> m) l' o'.
Proof.
  intros (-> & Hh & Hin) Hi Hcase. split_and!.
  - naive_solver.
  - intros j u [[<- <-]|[Hne Hj]]%lookup_insert_Some.
    + specialize (Hh _ _ Hi). destruct Hcase as [(-> & _ & ->)|[(_ & -> & _ & ->)|(_ & -> & _ & ->)]];
        [done|by rewrite bool_decide_true|done].
    + rewrite (Hh _ _ Hj). apply bool_decide_ext. naive_solver.
  - intros j Hj. rewrite lookup_insert_is_Some. destruct (decide (i = j)); [auto|right].
    split; [done|]. apply Hin. naive_solver.
Qed.

(** Task [i] leaves the pool, with its guard if it holds one. *)
Lemma lock_inv_delete m l o i t :
  lock_inv m l o -> m !! i = Some t ->
  exists o', lock_inv (delete i m) (if held (owns t) then false else l) o'.
Proof.
  intros (-> & Hh & Hin) Hi. rewrite (Hh _ _ Hi). case_bool_decide as Ho.
  - exists None. split_and!; [done| |done]. intros j u [Hne Hj]%lookup_delete_Some.
    rewrite (Hh _ _ Hj), !bool_decide_false; naive_solver.
  - exists o. split_and!; [done| |].
    + intros j u [Hne Hj]%lookup_delete_Some. eauto.
    + intros j Hj. rewrite lookup_delete_is_Some. split; [|eauto]. naive_solver.
Qed.

Lemma files_inv_insert m st i t :
  files_inv m st ->
  (forall p, p ∈ live (owns t) ->
    (exists t0, m !! i = Some t0 /\ p ∈ live (owns t0)) \/
    (p ∉ st) /\ forall j u, m !! j = Some u -> p ∉ live (owns u)) ->
  files_inv (<[i := t]> m) st.
Proof.
  intros [Hf Hs] Hnew. split.
  - intros j j' u u' p [[<- <-]|[Hne Hj]]%lookup_insert_Some [[<- <-]|[Hne' Hj']]%lookup_insert_Some Hp Hp';
      [done| | |by eauto].
    + destruct (Hnew p Hp) as [(t0 & Hi & H0)|[_ Hno]]; [eauto|]. by destruct (Hno _ _ Hj').
    + destruct (Hnew p Hp') as [(t0 & Hi & H0)|[_ Hno]]; [symmetry; eauto|]. by destruct (Hno _ _ Hj).
  - intros j u p [[<- <-]|[Hne Hj]]%lookup_insert_Some Hp; [|by eauto].
    destruct (Hnew p Hp) as [(t0 & Hi & H0)|[? _]]; eauto.
Qed.

Lemma files_inv_delete m st i : files_inv m st -> files_inv (delete i m) st.
Proof.
  intros [Hf Hs]. split.
  - intros j j' u u' p [_ Hj]%lookup_delete_Some [_ Hj']%lookup_delete_Some. eauto.
  - intros j u p [_ Hj]%lookup_delete_Some. eauto.
Qed.

Lemma pool_step_inv P P' : pool_inv P -> pool_step P P' -> pool_inv P'.
Proof.
  intros (Hok & [o Hl] & Hf) Hstep.
  destruct Hstep as [i req Hi|i T op k s r Hi Ha|i reply s Hi|i t Hi|l1 p l2 Hst]; unfold pool_inv; simpl.
  - split_and!.
    + intros j t [[<- <-]|[_ Hj]]%lookup_insert_Some; [apply serve_wpo|eauto].
    + exists o. destruct Hl as (-> & Hh & Hin). split_and!; [done| |].
      * intros j t [[<- <-]|[_ Hj]]%lookup_insert_Some; [|eauto]. simpl.
        rewrite bool_decide_false; [done|]. intros Ho. destruct (Hin _ Ho). congruence.
      * intros j Ho. rewrite lookup_insert_is_Some'. eauto.
    + apply files_inv_insert; [done|]. simpl. set_solver.
  - destruct (thread_call _ _ _ _ _ _ r Hi (Hok _ _ Hi) Ha) as [Hal Hk]. split_and!.
    + intros j t [[<- <-]|[_ Hj]]%lookup_insert_Some; eauto.
    + assert (Hl' := Hl). destruct Hl as (Hlk & Hh & _). specialize (Hh _ _ Hi). simpl in Hh.
      destruct (own_lock P s _ Ha Hal) as [(H1 & H2 & H3)|[(H1 & H2 & H3)|[H1 H2]]].
      * exists (Some i). eapply lock_inv_insert; [done..|]. right. left. split_and!; [|done..].
        destruct o; [|done]. rewrite Hlk in H1. apply bool_decide_eq_false in H1. by destruct H1.
      * exists None. eapply lock_inv_insert; [done..|]. right. right. split_and!; [|done..].
        rewrite H1 in Hh. symmetry in Hh. by apply bool_decide_eq_true in Hh.
      * exists o. eapply lock_inv_insert; [done..|]. left. split_and!; [done|done|exact H1].
    + apply files_inv_insert; [done|]. simpl. intros p Hp.
      destruct (own_live P s _ p Ha Hp) as [?|Hu]; [|by right]. left. eauto.
  - assert (s = mkOwned false (handed_over reply)) as -> by exact (Hok _ _ Hi). split_and!.
    + intros j t [_ Hj]%lookup_delete_Some. eauto.
    + eapply (lock_inv_delete _ _ _ _ _ Hl Hi).
    + destruct Hf as [Hf Hs]. split; [by apply (files_inv_delete _ (streams P))|].
      intros j u p [Hne Hj]%lookup_delete_Some Hp [Hp'|Hp']%elem_of_app; [|by eapply Hs].
      apply Hne. eapply Hf; eauto.
  - split_and!; [|by eapply lock_inv_delete|by apply files_inv_delete].
    intros j u [_ Hj]%lookup_delete_Some. eauto.
  - split_and!; [done|by exists o|]. destruct Hf as [Hf Hs]. split; [done|].
    intros j u q Hj Hq Hin. eapply Hs; [done..|]. rewrite Hst. set_solver.
Qed.

Lemma reachable_inv P : reachable P -> pool_inv P.
Proof.
  apply (rtc_ind_r pool_inv).
  - split_and!; [done| |].
    + by exists None.
    + done.
  - intros P1 P2 _ Hs HP. by eapply pool_step_inv.
Qed.

(** ** Mutual exclusion *)

Lemma pending_allowed s T (op : PortE T) k :
  thread_ok (mkThread (Vis op k) s) ->
  (guarded op = true -> held s = true) /\ forall p, p ∈ uses op -> p ∈ live s.
Proof.
  intros [Hpre _]. unfold mon_pre in Hpre.
  destruct op; simpl in *; (split; [try discriminate|try set_solver]).
  all: try (specialize (Hpre (Err (Busy ""))); naive_solver set_solver).
  specialize (Hpre (Err "")). set_solver.
Qed.

(** C8. Dumps, restores, uploads and deletes never overlap: in any reachable
    state of the server, with any number of requests arriving, running, being
    cancelled and answering in any order, at most one request is at a call
    that dumps or overwrites the database or changes the storage, and the
    write lock is taken. *)
Theorem writes_are_exclusive P i j s s' T T' (op : PortE T) (op' : PortE T') k k' :
  reachable P ->
  threads P !! i = Some (mkThread (Vis op k) s) -> guarded op = true ->
  threads P !! j = Some (mkThread (Vis op' k') s') -> guarded op' = true ->
  locked P = true /\ i = j.
Proof.
  intros (Hok & (o & -> & Hh & _) & _)%reachable_inv Hi Hg Hj Hg'.
  pose proof (proj1 (pending_allowed _ _ _ _ (Hok _ _ Hi)) Hg) as Hhi.
  pose proof (proj1 (pending_allowed _ _ _ _ (Hok _ _ Hj)) Hg') as Hhj.
  pose proof (Hh _ _ Hi) as H1. pose proof (Hh _ _ Hj) as H2. simpl in *.
  rewrite Hhi in H1. rewrite Hhj in H2. symmetry in H1, H2.
  apply bool_decide_eq_true in H1, H2. subst. split; [|congruence]. by apply bool_decide_true.
Qed.

(** The write lock is never leaked: whenever it is taken, a request that
    is still running holds the guard.  Once no request is running, after any
    mix of successes, failures and cancellations, it is free. *)
Theorem lock_held_by_running_request P :
  reachable P -> locked P = true ->
  exists i T (op : PortE T) k s, threads P !! i = Some (mkThread (Vis op k) s) /\ held s = true /\
    forall j t, threads P !! j = Some t -> held (owns t) = true -> j = i.
Proof.
  intros (Hok & (o & Hl & Hh & Hin) & _)%reachable_inv Hlk.
  rewrite Hlk in Hl. symmetry in Hl. apply bool_decide_eq_true in Hl as [i ->].
  destruct (Hin i eq_refl) as [[c s] Hi]. pose proof (Hh _ _ Hi) as Hs. rewrite bool_decide_true in Hs by done.
  simpl in Hs. destruct c as [r|T op k].
  - assert (s = mkOwned false (handed_over r)) as -> by exact (Hok _ _ Hi). discriminate.
  - exists i, T, op, k, s. split_and!; [done..|]. intros j t Hj Ht. rewrite (Hh _ _ Hj) in Ht.
    apply bool_decide_eq_true in Ht. congruence.
Qed.

(** Requests do not see each other's files: a call reads, writes and
    removes only temporary files of its own request, which no other request
    owns and no stream is reading. *)
Theorem files_are_private P i s T (op : PortE T) k p :
  reachable P -> threads P !! i = Some (mkThread (Vis op k) s) -> p ∈ uses op ->
  (p ∈ live s) /\ (p ∉ streams P) /\
  forall j t, threads P !! j = Some t -> p ∈ live (owns t) -> j = i.
Proof.
  intros (Hok & _ & [Hf Hs])%reachable_inv Hi Hp.
  pose proof (proj2 (pending_allowed _ _ _ _ (Hok _ _ Hi)) p Hp) as Hlive.
  split_and!; [done|by eapply (Hs _ _ _ Hi)|]. intros j t Hj Ht. by eapply (Hf _ _ _ _ _ Hj Hi).
Qed.
End Pool.

#[local] Instance plain_fmt : RustFmt := {| str_debug := fun s => s |}.

(** A backup waits for its dump. *)
Lemma reachable_dumping :
  exists P k s, reachable (harness_deps None) P /\ locked P = true /\
    threads P !! 0%nat = Some (mkThread (Vis (Dumper_dump "/data/backup_0.pgdump") k) s).
Proof.
  eexists _, _, _. split_and!.
  - eapply rtc_l; [apply (Arrive _ _ 0 CreateBackup); done|].
    eapply rtc_l; [eapply (Call _ _ 0 _ (Log _ _) _ _ tt); [apply lookup_insert_eq|done]|].
    eapply rtc_l; [eapply (Call _ _ 0 _ TryLock _ _ true); [apply lookup_insert_eq|done]|].
    eapply rtc_l; [eapply (Call _ _ 0 _ (NewTempFile _ _ _) _ _ (Ok "/data/backup_0.pgdump"));
      [apply lookup_insert_eq|]|apply rtc_refl].
    split; [set_solver|]. simpl. intros i t Ht. rewrite !insert_insert_eq in Ht.
    apply lookup_singleton_Some in Ht as [_ <-]. simpl. set_solver.
  - done.
  - apply lookup_insert_eq.
Defined.

Lemma writes_are_exclusive_witness : exists P, reachable (harness_deps None) P /\ locked P = true.
Proof.
  destruct reachable_dumping as (P & k & s & HP & _ & Hi). exists P. split; [exact HP|].
  exact (proj1 (writes_are_exclusive (harness_deps None) P 0 0 s s _ _ _ _ k k HP Hi eq_refl Hi eq_refl)).
Defined.

Lemma lock_held_by_running_request_witness :
  exists P i t, reachable (harness_deps None) P /\ threads P !! i = Some t /\ held (owns t) = true.
Proof.
  destruct reachable_dumping as (P & k & s & HP & Hl & _).
  destruct (lock_held_by_running_request (harness_deps None) P HP Hl) as (i & T & op & k' & s' & Hi & Hs & _).
  exists P, i, (mkThread (Vis op k') s'). auto.
Defined.

Lemma files_are_private_witness :
  exists P, reachable (harness_deps None) P /\ "/data/backup_0.pgdump" ∉ streams P.
Proof.
  destruct reachable_dumping as (P & k & s & HP & _ & Hi). exists P. split; [exact HP|].
  apply (files_are_private (harness_deps None) P 0 s _ _ k _ HP Hi). by left.
Defined.
