(* ===== verification/Server.v ===== *)
(** * The running server: concurrent requests over one world

    [Concurrency.v] follows the lock and the files of the requests;
    here they also share the database, the storage and the disk, which every
    call changes as the contract of the ports allows.  A request may be
    cancelled at any call, and a call that was under way may have taken
    effect.  The proofs are of the rely-guarantee kind: a request that holds
    the lock relies on the database and the storage staying as they are, any
    request on its own files; every request guarantees this to the others. *)

From Stdlib Require Import ZArith Lia Ascii.
From stdpp Require Import base numbers gmap sorting strings list relations.
From S2P Require Import Prelude RustStd Chrono Core Ports Service Fakes ServiceWorld Api Discipline Concurrency.
Open Scope Z_scope.
Open Scope rust_scope.

#[local] Arguments wp : simpl never.

Section Server.
Context `{PgFormat, RustFmt} (deps : ServiceDeps).

Record Server := mkServer { pool : Pool; world : World }.

(** Removing the files of a future that is dropped. *)
Definition remove_files (l : list path) (w : World) : World :=
  mkWorld _ (w_db w) (w_store w) (foldr delete (w_files w) l) (w_others w).

(** The calls another process or machine carries out. *)
Definition external {T} (op : PortE T) : bool :=
  match op with
  | Dumper_dump _ | Restorer_restore _ | Storage_upload _ | Storage_delete _
  | Storage_download _ _ | DecompressTask _ _ => true
  | _ => false
  end.

(** The file that a call makes on a thread of its own, which goes on when the
    call is cancelled: the output of a decompression, and the target of a
    download, which [tokio::fs::File::create] opens in a blocking task. *)
Definition late_output {T} (op : PortE T) : option path :=
  match op with
  | DecompressTask _ dst => Some dst
  | Storage_download _ dst => Some dst
  | _ => None
  end.

(** What the cancellation of [t] does: the pending call takes effect or not, the
    files of the request are removed, and a thread that goes on may create its
    file once more.  The process of a dump or a restore is killed before the
    files are removed. *)
Inductive cancelled (t : Thread) (w : World) : World -> Prop :=
| NoEffect : cancelled t w (remove_files (live (owns t)) w)
| Effect T (op : PortE T) k r w' :
    code t = Vis op k -> external op = true -> port_step w (obs (Ev op r)) w' ->
    cancelled t w (remove_files (live (owns t)) w')
| Leftover T (op : PortE T) k dst c :
    code t = Vis op k -> late_output op = Some dst ->
    cancelled t w (mkWorld _ (w_db w) (w_store w)
      (<[dst := c]> (w_files (remove_files (live (owns t)) w))) (w_others w)).

Inductive server_step (S : Server) : Server -> Prop :=
| SArrive i req :
    threads (pool S) !! i = None ->
    server_step S (mkServer (mkPool (<[i := mkThread (serve deps req) nothing_owned]> (threads (pool S)))
                               (locked (pool S)) (streams (pool S))) (world S))
| SCall i T (op : PortE T) k s r w' :
    threads (pool S) !! i = Some (mkThread (Vis op k) s) ->
    answer_ok (pool S) (obs (Ev op r)) -> port_step (world S) (obs (Ev op r)) w' ->
    server_step S (mkServer (mkPool (<[i := mkThread (k r) (own s (obs (Ev op r)))]> (threads (pool S)))
                               (locked_after (locked (pool S)) (obs (Ev op r))) (streams (pool S))) w')
| SAnswer i reply s :
    threads (pool S) !! i = Some (mkThread (Ret reply) s) ->
    server_step S (mkServer (mkPool (delete i (threads (pool S))) (locked (pool S))
                               (handed_over reply ++ streams (pool S))) (world S))
| SCancel i t w' :
    threads (pool S) !! i = Some t -> cancelled t (world S) w' ->
    server_step S (mkServer (mkPool (delete i (threads (pool S)))
                               (if held (owns t) then false else locked (pool S)) (streams (pool S))) w')
| SStreamEnd l1 p l2 :
    streams (pool S) = l1 ++ p :: l2 ->
    server_step S (mkServer (mkPool (threads (pool S)) (locked (pool S)) (l1 ++ l2))
                     (remove_files [p] (world S))).

(** The server starts with no request, over any world with distinct ids. *)
Definition unique_ids (w : World) : Prop := NoDup (stored_ids w).

Definition server_reaches (w : World) (S : Server) : Prop := rtc server_step (mkServer empty_pool w) S.

(** ** Rely and guarantee *)

Definition rely (o : Owned) (w w' : World) : Prop :=
  unique_ids w' /\ w_others w' ⊆ w_others w /\
  (held o = true -> w_db w' = w_db w /\ w_store w' = w_store w) /\
  forall p, p ∈ live o -> w_files w' !! p = w_files w !! p.

(** What holds whenever a call is made that changes the database or the
    storage. *)
Definition obligation (w : World) (T : Type) (op : PortE T) : Prop :=
  match op with
  | Storage_upload req =>
      req_format req = PgCustom /\
      exists c, w_files w !! req_path req = Some c /\ pg_dumps (w_db w) c
  | Restorer_restore src =>
      (exists pre c, (pre, c) ∈ w_store w /\ pg_dumps (w_db w) c /\ kind pre = PreRestore) /\
      exists f, f ∈ w_store w /\ format f.1 = PgCustom /\ w_files w !! src = Some f.2
  | Storage_delete i => forall f, f ∈ w_store w -> id f.1 = i -> prunable f.1 = true
  | _ => True
  end.

Definition rpre (s : World * Owned) (T : Type) (op : PortE T) : Prop := obligation s.1 T op.

(** A call, its answer, and what the others do until the next one. *)
Definition rstep (s : World * Owned) (e : event PortE) (s' : World * Owned) : Prop :=
  exists w, port_step s.1 (obs e) w /\ fresh_temp s.2 (obs e) /\
    s'.2 = own s.2 (obs e) /\ rely s'.2 w s'.1.

Abbreviation wpr := (wp rpre rstep).

Lemma rely_trans o w1 w2 w3 : rely o w1 w2 -> rely o w2 w3 -> rely o w1 w3.
Proof.
  intros (_ & O1 & H1 & F1) (Hu & O2 & H2 & F2). split_and!; [done|by etrans| |].
  - intros Hh. destruct (H1 Hh), (H2 Hh). split; congruence.
  - intros p Hp. rewrite F2, F1; done.
Qed.

Lemma wpr_Vis {A T} (op : PortE T) (k : T -> M A) Q w o :
  obligation w T op ->
  (forall r w1 w', port_step w (obs (Ev op r)) w1 -> fresh_temp o (obs (Ev op r)) ->
     rely (own o (obs (Ev op r))) w1 w' -> wpr (k r) Q (w', own o (obs (Ev op r)))) ->
  wpr (Vis op k) Q (w, o).
Proof.
  intros Hpre Hk. split; [exact Hpre|]. intros r [w' o'] (w1 & Hs & Hf & Ho & Hr).
  cbn [fst snd] in *. subst o'. by eapply Hk.
Qed.

(** Programs that destroy nothing. *)
Definition harmless (T : Type) (op : PortE T) : Prop :=
  match op with Restorer_restore _ | Storage_upload _ | Storage_delete _ => False | _ => True end.

Lemma harmless_wpr {A} (p : M A) s : calls harmless p -> wpr p (fun _ _ => True) s.
Proof.
  revert s. induction p as [a|T op k IH]; intros s; [done|]. intros [Hop Hk]. split.
  - by destruct op.
  - intros r s' _. by apply IH.
Qed.

(** ** The use cases *)

(** Under the lock only the holder changes the database and the storage. *)
Definition keeps (o : Owned) (w w' : World) : Prop :=
  unique_ids w' /\ w_others w' ⊆ w_others w /\ w_db w' = w_db w /\ w_store w' = w_store w /\
  forall p, p ∈ live o -> w_files w' !! p = w_files w !! p.

Lemma rely_keeps o w w' : held o = true -> rely o w w' -> keeps o w w'.
Proof. intros Hh (Hu & Ho & Hs & Hf). destruct (Hs Hh). by split_and!. Qed.

Lemma keeps_trans o w1 w2 w3 : keeps o w1 w2 -> keeps o w2 w3 -> keeps o w1 w3.
Proof.
  intros (_ & O1 & D1 & S1 & F1) (Hu & O2 & D2 & S2 & F2). split_and!; [done|by etrans|congruence..|].
  intros p Hp. rewrite F2, F1; done.
Qed.

(** A call that changes nothing, made under the lock. *)
Lemma wpr_read {A T} (op : PortE T) (k : T -> M A) Q w o :
  held o = true -> obligation w T op ->
  (forall r, own o (obs (Ev op r)) = o) ->
  (forall r w1, port_step w (obs (Ev op r)) w1 -> w1 = w) ->
  (forall r w', port_step w (obs (Ev op r)) w -> keeps o w w' -> wpr (k r) Q (w', o)) ->
  wpr (Vis op k) Q (w, o).
Proof.
  intros Hh Hpre Hown Hsame Hk. apply wpr_Vis; [done|]. intros r w1 w' Hs _ Hr. rewrite Hown in *.
  pose proof (Hsame _ _ Hs) as ->. apply Hk; [done|]. by apply rely_keeps.
Qed.

Lemma resolve_wpr target w o :
  held o = true ->
  wpr (resolve target) (fun r s => s.2 = o /\ keeps o w s.1 /\
    match r with Ok info => info ∈ (w_store w).*1 /\ (id info ∉ w_others w) | Err _ => True end) (w, o).
Proof.
  intros Hh. destruct target as [i|]; (apply wpr_read; [done..| |]).
  - intros [info|e] w1 Hs; cbn [obs port_step] in Hs; [by destruct Hs|done].
  - intros [info|e] w' Hs Hw; (split; [done|]); split; try done. split; apply Hs.
  - intros [[info|]|e] w1 Hs; cbn [obs port_step] in Hs; [by destruct Hs..|done].
  - intros [[info|]|e] w' Hs Hw; (split; [done|]); split; try done. split; apply Hs.
Qed.

Lemma temp_wpr {A} (k : Result path -> M A) suffix Q w o :
  held o = true ->
  (forall e w', keeps o w w' -> wpr (k (Err e)) Q (w', o)) ->
  (forall p w', p ∉ live o -> keeps o w w' -> wpr (k (Ok p)) Q (w', mkOwned true (p :: live o))) ->
  wpr (bind (temp_file deps suffix) k) Q (w, o).
Proof.
  intros Hh Herr Hok. unfold temp_file. cbn [bind trigger]. apply wpr_Vis; [done|].
  intros [p|e] w1 w' Hs Hf Hr; cbn [obs port_step own fresh_temp] in *; cbn [result_map_err].
  - destruct Hs as [Hp ->]. rewrite Hh in *. apply Hok; [done|]. apply rely_keeps in Hr; [|done].
    destruct Hr as (Hu & Hot & Hdb & Hst & Hfs). split_and!; [done..|]. intros q Hq.
    rewrite (Hfs q) by (by right). simpl. rewrite lookup_insert_ne; [done|]. by intros ->.
  - subst. apply Herr. by apply rely_keeps.
Qed.

Lemma with_temp_wpr {A} (body : M A) p (Q : A -> World * Owned -> Prop) w o :
  p ∉ live o ->
  wpr body (fun r s => s.2 = mkOwned true (p :: live o) /\
    forall w', keeps (mkOwned true (live o)) s.1 w' -> Q r (w', mkOwned true (live o))) (w, mkOwned true (p :: live o)) ->
  wpr (with_temp p body) Q (w, mkOwned true (p :: live o)).
Proof.
  intros Hp Hb. eapply wp_bind_2; [exact Hb|]. intros r [w1 o1] [Ho HQ]. cbn [fst snd] in *. subst o1.
  apply wpr_Vis; [done|]. intros [] w2 w' -> _ Hr. cbn [obs own held live] in *.
  rewrite drop_path_head in * by done. apply HQ. apply rely_keeps in Hr; [|done].
  destruct Hr as (Hu & Hot & Hdb & Hst & Hfs). split_and!; [done..|]. intros q Hq. rewrite Hfs by done. simpl.
  rewrite lookup_delete_ne; [done|]. by intros ->.
Qed.

(** What an upload, reported as done or not, leaves of the rest. *)
Lemma upload_rest w req r w' :
  port_step w (EUpload req r) w' -> w_db w' = w_db w /\ w_files w' = w_files w /\ w_others w' = w_others w.
Proof.
  destruct r as [info|e]; cbn [port_step]; [by intros (? & _ & _ & _ & _ & _ & _ & _ & ->)|].
  by intros [->|(info & ? & _ & _ & _ & _ & _ & _ & _ & ->)].
Qed.

(** A dump of the database under the lock is stored in front of the rest. *)
Lemma dump_wpr k w o :
  held o = true ->
  wpr (dump_and_upload deps k) (fun r s => s.2 = o /\ unique_ids s.1 /\ w_db s.1 = w_db w /\
    (forall p, p ∈ live o -> w_files s.1 !! p = w_files w !! p) /\
    match r with
    | Ok info => exists c, pg_dumps (w_db w) c /\ w_store s.1 = (info, c) :: w_store w /\ kind info = k
    | Err _ => True
    end) (w, o).
Proof.
  intros Hh. destruct o as [h l]. cbn [held] in Hh. subst h. unfold dump_and_upload.
  apply temp_wpr; [done| |].
  { intros e w1 (Hu & _ & Hdb & Hst & Hf). by split_and!. }
  intros p w1 Hp (_ & _ & Hdb & Hst & Hf). apply (with_temp_wpr _ p _ w1 (mkOwned true l)); [done|]. cbn [live].
  cbn [bind trigger]. apply wpr_Vis; [done|]. intros [[]|e] w2 w3 Hs _ Hr; cbn [obs port_step own] in *;
    apply rely_keeps in Hr as (Hu3 & _ & Hdb3 & Hst3 & Hf3); [|done| |done].
  - destruct Hs as (c & Hc & ->). cbn [w_db w_store w_files] in *. apply wpr_read; [done..| |].
    { by intros now w4 ->. }
    intros now w4 _ (_ & _ & Hdb4 & Hst4 & Hf4). cbn [bind trigger].
    assert (w_files w4 !! p = Some c) as Hp4 by (by rewrite Hf4, Hf3, lookup_insert_eq by left).
    apply wpr_Vis.
    { split; [done|]. exists c. split; [exact Hp4|]. by rewrite Hdb4, Hdb3. }
    intros r w5 w6 Hs5 _ Hr. cbn [obs own] in *. apply rely_keeps in Hr as (Hu6 & _ & Hdb6 & Hst6 & Hf6); [|done].
    destruct (upload_rest _ _ _ _ Hs5) as (Hdb5 & Hf5 & _).
    split; [done|]. intros w7 (Hu7 & _ & Hdb7 & Hst7 & Hf7). cbn [fst snd live] in *.
    split_and!; [done..|congruence| |].
    + intros q Hq. assert (q <> p) by (by intros ->).
      rewrite Hf7, Hf6, Hf5, Hf4, Hf3, lookup_insert_ne, Hf by (done || by right). done.
    + destruct r as [info|e]; [|done]. destruct Hs5 as (c' & Hc' & _ & Hk & _ & _ & _ & _ & ->).
      cbn [w_store req_path UploadRequest_pg_dump] in *. exists c'. split_and!; [|congruence|done].
      replace c' with c by congruence. by rewrite <-Hdb.
  - destruct Hs as (Hdb2 & Hst2 & _ & _ & Hd2). split; [done|]. intros w7 (Hu7 & _ & Hdb7 & Hst7 & Hf7).
    cbn [fst snd live] in *. split_and!; [done..|congruence| |done]. intros q Hq.
    assert (q <> p) by (by intros ->). rewrite Hf7, Hf3 by (done || by right).
    rewrite <-(lookup_delete_ne (w_files w2) p q), Hd2, lookup_delete_ne, Hf by done. done.
Qed.

(** What comes after a body that kept its obligations is harmless. *)
Lemma wpr_then {A B} (p : M A) (f : A -> M B) s :
  wpr p (fun _ _ => True) s -> (forall a, calls harmless (f a)) -> wpr (bind p f) (fun _ _ => True) s.
Proof. intros Hp Hf. eapply wp_bind_2; [exact Hp|]. intros a s' _. by apply harmless_wpr. Qed.

(** The lock is taken, or the request ends. *)
Lemma locked_wpr {A} (body : M (Result A)) w o :
  live o = [] ->
  (forall w', unique_ids w' -> wpr body (fun _ _ => True) (w', mkOwned true [])) ->
  wpr (let? _ := lock in with_guard body) (fun _ _ => True) (w, o).
Proof.
  intros Hl Hb. unfold lock. cbn [bind trigger]. apply wpr_Vis; [done|].
  intros [] w1 w' -> _ Hr; cbn [obs own bind] in *; [|done]. rewrite Hl. apply wpr_then; [|done].
  apply Hb, Hr.
Qed.

Lemma stored_info w f b :
  unique_ids w -> f ∈ w_store w -> b ∈ (w_store w).*1 -> id f.1 = id b -> f.1 = b.
Proof. intros Hu Hf Hb. apply (NoDup_key id (w_store w).*1); [done| |done]. by apply list_elem_of_fmap_2. Qed.

Lemma restore_wpr target confirm w :
  wpr (restore deps target confirm) (fun _ _ => True) (w, nothing_owned).
Proof.
  unfold restore. destruct (negb _); [done|]. apply locked_wpr; [done|]. clear w. intros w Hu.
  cbn [bind trigger]. apply wpr_read; [done..| |].
  { by intros now w1 ->. }
  intros start w1 _ (Hu1 & _ & Hdb1 & Hst1 & _). eapply wp_bind_2; [by apply resolve_wpr|].
  intros [info|e] [w2 o] (Ho & (Hu2 & Ho2 & Hdb2 & Hst2 & _) & Hin); [|done]. cbn [fst snd] in *. subst o.
  destruct Hin as [Hin Hot].
  case_bool_decide as Hfmt; [done|]. apply temp_wpr; [done..|]. intros file w3 _ (Hu3 & Ho3 & Hdb3 & Hst3 & _).
  apply wpr_then; [|done]. cbn [bind trigger live]. apply wpr_Vis; [done|].
  intros [[]|e] w4 w5 Hs _ Hr; cbn [obs port_step own] in *; [|done].
  apply rely_keeps in Hr as (Hu5 & _ & Hdb5 & Hst5 & Hf5); [|done]. destruct Hs as [(Hdb4 & Hst4 & _) Hs].
  destruct Hs as (f & Hf & Hid & Hc); [by auto|].
  assert (f.1 = info) as Hinfo by (apply (stored_info w3); [done..|by rewrite Hst3, Hst2|done]).
  eapply wp_bind_2; [by apply dump_wpr|]. intros [pre|e] [w6 o] (Ho & _ & Hdb6 & Hf6 & Hpre); [|done].
  destruct Hpre as (c & Hdump & Hst6 & Hk). cbn [fst snd bind trigger] in *. subst o. apply wpr_read; [done..| |].
  { by intros [] w7 ->. }
  intros [] w7 _ (_ & _ & Hdb7 & Hst7 & Hf7). apply wpr_Vis.
  - split.
    + exists pre, c. rewrite Hst7, Hst6, Hdb7, Hdb6. split_and!; [left|done..].
    + exists f. rewrite Hst7, Hst6, Hst5, Hst4. split_and!; [by right| |].
      * rewrite Hinfo. by destruct (format info).
      * rewrite Hf7, Hf6, Hf5 by left. done.
  - intros [[]|e] w8 w9 _ _ _; [|done]. by apply harmless_wpr.
Qed.

(** The backups that retention may remove can be removed at any later time
    under the lock. *)
Definition removable (b : BackupInfo) (w : World) : Prop :=
  forall f, f ∈ w_store w -> id f.1 = id b -> prunable f.1 = true.

Lemma list_pages_wpr n all tok w o :
  held o = true -> unique_ids w -> (forall b, b ∈ all -> b ∈ (w_store w).*1) ->
  wpr (list_pages n all tok) (fun r s => s.2 = o /\ unique_ids s.1 /\
    match r with Ok all => forall b, b ∈ all -> b ∈ (w_store s.1).*1 | Err _ => True end) (w, o).
Proof.
  intros Hh. revert all tok w. induction n as [|n IH]; intros all tok w Hu Hall; [by split_and!|].
  cbn [list_pages bind trigger]. apply wpr_read; [done..| |].
  { intros [page|e] w1 Hs; cbn [obs port_step] in Hs; [by destruct Hs|done]. }
  intros [page|e] w1 Hs (Hu1 & _ & _ & Hst & _); [|by split_and!]. destruct Hs as [_ Hpage].
  assert (forall b, b ∈ all ++ items page -> b ∈ (w_store w1).*1) as Hall' by (rewrite Hst; set_solver).
  destruct (next_page_token page) as [next|]; [destruct (str_is_empty next)|]; [by split_and!| |by split_and!].
  by apply IH.
Qed.

Lemma prune_wpr w o :
  held o = true -> unique_ids w -> wpr (prune_old_backups deps) (fun _ _ => True) (w, o).
Proof.
  intros Hh Hu. unfold prune_old_backups. destruct (retention deps) as [keep|]; [|done].
  eapply wp_bind_2; [apply list_pages_wpr; [done..|set_solver]|].
  intros [all|e] [w1 o1] (Ho & Hu1 & Hall); [|by apply harmless_wpr]. cbn [fst snd] in *. subst o1.
  eapply wp_mono; [by intros|]. apply (wp_for_each _ _ _ _ (fun s : World * Owned => s.2 = o /\
    forall b, b ∈ retention_candidates all keep -> removable b s.1)).
  - intros b [w2 o2] Hb [Ho Hrem]. cbn [fst snd] in *. subst o2. unfold prune_one. cbn [bind trigger].
    apply wpr_Vis; [by apply Hrem|]. intros r w3 w4 Hs _ Hr. cbn [obs own] in *.
    apply rely_keeps in Hr as (_ & _ & _ & Hst4 & _); [|done].
    assert (forall c, c ∈ retention_candidates all keep -> removable c w4) as Hrem4.
    { intros c Hc f Hf. apply (Hrem c Hc). rewrite Hst4 in Hf.
      assert (w3 = w2 \/ w_store w3 = List.filter (fun f => negb (bool_decide (id f.1 = id b))) (w_store w2)) as [->|Hw3].
      { destruct r; cbn [port_step] in Hs; [rewrite Hs; by right|destruct Hs as [-> |Hs]; [by left|rewrite Hs; by right]]. }
      - done.
      - rewrite Hw3 in Hf. by apply list_elem_of_In, filter_In in Hf as [Hf%list_elem_of_In _]. }
    destruct r; (apply wpr_read; [done..| |]);
      try (by intros [] w5 ->); intros [] w5 _ (_ & _ & _ & Hst5 & _); (split; [done|]);
      cbn [fst]; intros c Hc f; rewrite Hst5; by apply Hrem4.
  - split; [done|]. cbn [fst]. intros b Hb f Hf Hid.
    apply retention_candidates_elem in Hb as (Hb & Hk & Hfm). rewrite (stored_info w1 f b); [|by auto..].
    by apply prunable_spec.
Qed.

Lemma create_backup_wpr w : wpr (create_backup deps) (fun _ _ => True) (w, nothing_owned).
Proof.
  unfold create_backup. apply locked_wpr; [done|]. clear w. intros w Hu.
  eapply wp_bind_2; [by apply dump_wpr|]. intros [info|e] [w1 o] (Ho & Hu1 & _); [|done].
  cbn [fst snd] in *. subst o. apply wpr_then; [by apply prune_wpr|done].
Qed.

Lemma or_status_wpr {A} context (p : M (Result A)) s :
  wpr p (fun _ _ => True) s -> wpr (or_status context p) (fun _ _ => True) s.
Proof.
  intros Hp. apply wpr_then; [exact Hp|]. intros [a|e]; [done|]. unfold to_status.
  by destruct (classify_error context e).
Qed.

Lemma resolve_harmless target : calls harmless (resolve target).
Proof. destruct target; cbn; (split; [done|]); by intros [[]|]. Qed.

Lemma download_harmless target : calls harmless (download deps target).
Proof.
  apply calls_bind; [apply resolve_harmless|]. intros [info|e]; [|done].
  cbn. split; [done|]. intros [file|e]; [|done]. cbn. split; [done|]. intros [[]|e]; [|done].
  case_bool_decide; [done|]. cbn. split; [done|]. intros [json|e]; cbn; [|done].
  split; [done|]. by intros [[[]|]|].
Qed.

(** Every request keeps its obligations in every world. *)
Lemma serve_wpr req w : wpr (serve deps req) (fun _ _ => True) (w, nothing_owned).
Proof.
  destruct req as [|req|req|req|req|]; unfold serve, map_prog; (apply wpr_then; [|done]).
  - unfold grpc_create_backup. cbn [bind trigger]. apply wpr_Vis; [done|]. intros [] w1 w2 _ _ _.
    apply wpr_then; [apply or_status_wpr, create_backup_wpr|by intros []].
  - apply wpr_then; [by apply or_status_wpr, harmless_wpr|by intros []].
  - unfold grpc_get_backup. destruct (backup_target _) as [t|e]; [|done].
    apply wpr_then; [apply or_status_wpr, harmless_wpr, resolve_harmless|by intros []].
  - unfold grpc_download_backup. destruct (backup_target _) as [t|e]; [|done].
    apply wpr_then; [apply or_status_wpr, harmless_wpr, download_harmless|by intros [[]|]].
  - unfold grpc_restore. destruct (backup_target _) as [t|e]; [|done]. cbn [bind trigger].
    apply wpr_Vis; [done|]. intros [] w1 w2 _ _ _.
    apply wpr_then; [apply or_status_wpr, restore_wpr|by intros []].
  - apply harmless_wpr. cbn. split; [done|]. by intros [[]|].
Qed.

(** ** What a call leaves alone *)

Lemma only_file_lookup p q w w' : only_file p w w' -> q <> p -> w_files w' !! q = w_files w !! q.
Proof. intros (_ & _ & _ & _ & Hd) Hne. by rewrite <-(lookup_delete_ne (w_files w') p q), Hd, lookup_delete_ne. Qed.

(** Files the request does not own. *)
Lemma port_step_files w s e w' q :
  port_step w e w' -> own_allowed s e -> q ∉ live s -> (forall suf, e <> ENewTemp suf (Ok q)) ->
  w_files w' !! q = w_files w !! q.
Proof.
  intros Hs Ha Hq Hnew.
  destruct e as [[]| |suf [p|er]|p|p [[]|er]|p [[]|er]|[[]|er]|req [info|er]|n tok [page|er]
    |[[info|]|er]|i [info|er]|b p [[]|er]|i [[]|er]|t|t|src p [[[]|er]|er]|lv m]; cbn [port_step own_allowed] in *;
    try (by subst).
  - destruct Hs as [_ ->]. simpl. rewrite lookup_insert_ne; [done|]. intros ->. by destruct (Hnew suf).
  - subst. simpl. rewrite lookup_delete_ne; [done|]. by intros ->.
  - destruct Hs as (? & _ & ->). simpl. rewrite lookup_insert_ne; [done|]. intros ->. by destruct Ha.
  - eapply only_file_lookup; [done|]. intros ->. by destruct Ha.
  - destruct Hs as (? & ? & ? & _ & _ & _ & ->). done.
  - destruct Hs as [-> |(? & ? & ? & _ & _ & _ & ->)]; done.
  - apply (upload_rest w req (Ok info)) in Hs as (_ & -> & _). done.
  - apply (upload_rest w req (Err er)) in Hs as (_ & -> & _). done.
  - by destruct Hs as [-> _].
  - by destruct Hs as [-> _].
  - by destruct Hs as [-> _].
  - by destruct Hs as [-> _].
  - eapply only_file_lookup; [apply Hs|]. by intros ->.
  - eapply only_file_lookup; [done|]. by intros ->.
  - by rewrite Hs.
  - by destruct Hs as [-> |Hs]; [|rewrite Hs].
  - destruct Hs as (? & ? & _ & _ & ->). simpl. rewrite lookup_insert_ne; [done|]. intros ->. by destruct Ha as (_ & ? & _).
  - eapply only_file_lookup; [done|]. intros ->. by destruct Ha as (_ & ? & _).
  - eapply only_file_lookup; [done|]. intros ->. by destruct Ha as (_ & ? & _).
Qed.

(** The four ways in which a call may change the database and the storage. *)
Definition keeps_data (w w' : World) : Prop := w_db w' = w_db w /\ w_store w' = w_store w.

Lemma only_file_data p w w' : only_file p w w' -> keeps_data w w'.
Proof. by intros (? & ? & _). Qed.

Lemma port_step_effect w e w' :
  port_step w e w' ->
  keeps_data w w' \/
  (exists p r, e = ERestore p r /\ replaces_db p w w') \/
  (exists req r info, e = EUpload req r /\ stores req info w w') \/
  (exists i r, e = EDelete i r /\ removes_id i w w').
Proof.
  intros Hs.
  destruct e as [[]| |suf [p|er]|p|p [[]|er]|p [[]|er]|[[]|er]|req [info|er]|n tok [page|er]
    |[[info|]|er]|i [info|er]|b p [[]|er]|i [[]|er]|t|t|src p [[[]|er]|er]|lv m]; cbn [port_step] in *;
    try (left; by subst).
  - left. by destruct Hs as [_ ->].
  - left. by destruct Hs as (? & _ & ->).
  - left. by eapply only_file_data.
  - right. left. eauto.
  - destruct Hs as [-> |Hs]; [by left|]. right. left. eauto.
  - right. right. left. by eexists req, _, info.
  - destruct Hs as [-> |(info & Hs)]; [by left|]. right. right. left. by eexists req, _, info.
  - left. by destruct Hs as [-> _].
  - left. by destruct Hs as [-> _].
  - left. by destruct Hs as [-> _].
  - left. by destruct Hs as [-> _].
  - left. eapply only_file_data, Hs.
  - left. by eapply only_file_data.
  - right. right. right. by eexists i, _.
  - destruct Hs as [-> |Hs]; [by left|]. right. right. right. by eexists i, _.
  - left. by destruct Hs as (? & ? & _ & _ & ->).
  - left. by eapply only_file_data.
  - left. by eapply only_file_data.
Qed.

(** The files outside the location do not become more. *)
Lemma port_step_others w e w' : port_step w e w' -> w_others w' ⊆ w_others w.
Proof.
  intros Hs. assert (forall p w', only_file p w w' -> w_others w' ⊆ w_others w) as Hof
    by (intros p w1 (_ & _ & -> & _); done).
  assert (forall i w', removes_id i w w' -> w_others w' ⊆ w_others w) as Hrm.
  { intros i w1 ->. cbn [w_others]. intros j Hj. by apply list_elem_of_In, filter_In in Hj as [Hj%list_elem_of_In _]. }
  destruct e as [[]| |suf [p|er]|p|p [[]|er]|p [[]|er]|[[]|er]|req r|n tok [page|er]
    |[[info|]|er]|i [info|er]|b p [[]|er]|i [[]|er]|t|t|src p [[[]|er]|er]|lv m]; cbn [port_step] in Hs;
    try (by subst); try (by eauto).
  - by destruct Hs as [_ ->].
  - by destruct Hs as (? & _ & ->).
  - by destruct Hs as (? & ? & ? & _ & _ & _ & ->).
  - by destruct Hs as [-> |(? & ? & ? & _ & _ & _ & ->)].
  - apply upload_rest in Hs as (_ & _ & ->). done.
  - by destruct Hs as [-> _].
  - by destruct Hs as [-> _].
  - by destruct Hs as [-> _].
  - by destruct Hs as [-> _].
  - by eapply Hof, Hs.
  - destruct Hs as [-> |Hs]; [done|eauto].
  - by destruct Hs as (? & ? & _ & _ & ->).
Qed.

(** The database and the storage, without the lock. *)
Lemma port_step_unlocked w s e w' :
  port_step w e w' -> own_allowed s e -> held s = false -> keeps_data w w'.
Proof.
  intros [Hs|[(p & r & -> & _)|[(req & r & info & -> & _)|(i & r & -> & _)]]]%port_step_effect Ha Hh;
    [done|exfalso; cbn [own_allowed] in Ha; rewrite Hh in Ha; naive_solver..].
Qed.

Lemma port_step_unique w e w' : port_step w e w' -> unique_ids w -> unique_ids w'.
Proof.
  unfold unique_ids, stored_ids.
  intros [[_ ->]|[(p & r & _ & (? & ? & ? & _ & _ & _ & ->))|[(req & r & info & _ & (c & _ & _ & _ & _ & Hid & _ & _ & ->))
    |(i & r & _ & ->)]]]%port_step_effect Hu; simpl; [done..| |].
  - by apply NoDup_cons.
  - eapply sublist_NoDup; [exact Hu|]. apply fmap_sublist, fmap_sublist, filter_sublist.
Qed.

(** A call that meets its obligation keeps the backups retention may not
    remove. *)
Lemma port_step_protected f w T (op : PortE T) r w' :
  prunable f.1 = false -> obligation w T op -> port_step w (obs (Ev op r)) w' ->
  f ∈ w_store w -> f ∈ w_store w'.
Proof.
  intros Hf Ho Hs Hin.
  destruct (port_step_effect _ _ _ Hs) as [[_ ->]|[(p & r' & He & ? & ? & ? & _ & _ & _ & ->)|[(req & r' & info & He & (? & _ & _ & _ & _ & _ & _ & _ & ->))
    |(i & r' & He & ->)]]]; [done|done|by right|].
  destruct op; try discriminate He. injection He as <-. apply list_elem_of_In, filter_In.
  split; [by apply list_elem_of_In|]. apply negb_true_iff, bool_decide_eq_false.
  intros Hid. specialize (Ho _ Hin Hid). congruence.
Qed.

(** It loses no database. *)
Lemma port_step_recoverable d w T (op : PortE T) r w' :
  obligation w T op -> port_step w (obs (Ev op r)) w' -> recoverable d w -> recoverable d w'.
Proof.
  intros Ho Hs [<-|(info & c & Hin & Hc & Hk)].
  - destruct (port_step_effect _ _ _ Hs) as [[? _]|[(p & r' & He & Hr)|[(? & ? & ? & _ & (? & _ & _ & _ & _ & _ & _ & _ & ->))|(? & ? & _ & ->)]]];
      [by left| |by left..].
    destruct op; try discriminate He. destruct Ho as [(pre & c & Hpre & Hk) _].
    destruct Hr as (? & a & d' & _ & _ & _ & ->). right. by exists pre, c.
  - right. exists info, c. split; [|done]. eapply port_step_protected; [|done..].
    apply not_true_is_false. intros [Hp _]%prunable_spec. simpl in Hp. congruence.
Qed.

(** ** The invariant *)

(** What the pending part of a request still guarantees, whatever the others
    do until its next call. *)
Definition thread_safe (t : Thread) (w : World) : Prop :=
  forall w', rely (owns t) w w' -> wpr (Concurrency.code t) (fun _ _ => True) (w', owns t).

Definition server_inv (S : Server) : Prop :=
  pool_inv (pool S) /\ unique_ids (world S) /\
  forall i t, threads (pool S) !! i = Some t -> thread_safe t (world S).

(** How a step changes the database and the storage: by at most one call that
    met its obligation. *)
Definition guarded_effect (w w' : World) : Prop :=
  exists w1, keeps_data w1 w' /\
    (w1 = w \/ exists T (op : PortE T) r, obligation w T op /\ port_step w (obs (Ev op r)) w1).

Lemma rely_refl o w : unique_ids w -> rely o w w.
Proof. by intros. Qed.

Lemma thread_safe_rely t w w' : thread_safe t w -> rely (owns t) w w' -> thread_safe t w'.
Proof. intros Ht Hr w2 Hr2. by eapply Ht, rely_trans. Qed.

Lemma rely_call o w s e w' :
  port_step w e w' -> own_allowed s e -> unique_ids w ->
  (held o = true -> held s = false) -> (forall p, p ∈ live o -> p ∉ live s) ->
  (forall p suf, p ∈ live o -> e <> ENewTemp suf (Ok p)) ->
  rely o w w'.
Proof.
  intros Hs Ha Hu Hh Hl Hn. split_and!.
  - by eapply port_step_unique.
  - by eapply port_step_others.
  - intros Ho. eapply port_step_unlocked; eauto.
  - intros p Hp. eapply port_step_files; eauto.
Qed.

Lemma remove_files_lookup l w p : p ∉ l -> w_files (remove_files l w) !! p = w_files w !! p.
Proof.
  simpl. induction l as [|q l IH]; intros Hp; simpl; [done|]. apply not_elem_of_cons in Hp as [Hne Hp].
  rewrite lookup_delete_ne by done. by apply IH.
Qed.

Lemma rely_remove o l w : unique_ids w -> (forall p, p ∈ live o -> p ∉ l) -> rely o w (remove_files l w).
Proof. intros Hu Hl. split_and!; [done..|]. intros p Hp. apply remove_files_lookup; auto. Qed.

(** Distinct requests share neither the lock nor a file. *)
Lemma pool_disjoint P i j t u :
  pool_inv P -> threads P !! i = Some t -> threads P !! j = Some u -> i <> j ->
  (held (owns u) = true -> held (owns t) = false) /\ forall p, p ∈ live (owns u) -> p ∉ live (owns t).
Proof.
  intros (_ & (o & _ & Hh & _) & [Hf _]) Hi Hj Hne. split.
  - intros Hu. rewrite (Hh _ _ Hj) in Hu. apply bool_decide_eq_true in Hu as ->.
    rewrite (Hh _ _ Hi). apply bool_decide_eq_false. naive_solver.
  - intros p Hp Hp'. apply Hne. by eapply Hf.
Qed.

Lemma pending_obligation S i T (op : PortE T) k s :
  server_inv S -> threads (pool S) !! i = Some (mkThread (Vis op k) s) ->
  obligation (world S) T op /\ forall r, own_allowed s (obs (Ev op r)).
Proof.
  intros ((Hok & _) & Hu & Hsafe) Hi. split; [|apply (Hok _ _ Hi)].
  exact (proj1 (Hsafe _ _ Hi (world S) (rely_refl _ _ Hu))).
Qed.

Lemma server_pool_step S S' : server_step S S' -> pool_step deps (pool S) (pool S').
Proof.
  destruct 1; cbn [pool].
  - by apply Arrive.
  - by apply Call.
  - by eapply Answer.
  - by apply Cancel.
  - by eapply StreamEnd.
Qed.

Lemma late_output_owned T (op : PortE T) s dst :
  (forall r, own_allowed s (obs (Ev op r))) -> late_output op = Some dst -> dst ∈ live s.
Proof.
  intros Ha Hl. destruct op; try discriminate Hl; injection Hl as ->.
  - apply (Ha (Err (Busy ""))).
  - apply (Ha (Err "")).
Qed.

(** The effect of a cancellation, and what the other requests see of it. *)
Lemma cancelled_ok S i t w' :
  server_inv S -> threads (pool S) !! i = Some t -> cancelled t (world S) w' ->
  guarded_effect (world S) w' /\ unique_ids w' /\
  forall j u, threads (pool S) !! j = Some u -> i <> j -> rely (owns u) (world S) w'.
Proof.
  intros Hinv Hi Hc. pose proof Hinv as (Hpool & Hu & _).
  assert (forall j u, threads (pool S) !! j = Some u -> i <> j ->
    (held (owns u) = true -> held (owns t) = false) /\ forall p, p ∈ live (owns u) -> p ∉ live (owns t)) as Hdis
    by (intros; by eapply pool_disjoint).
  destruct Hc as [|T op k r w1 Hcode Hext Hs|T op k dst c Hcode Hlate].
  - split_and!; [exists (world S); by split; [|left]|done|]. intros j u Hj Hne.
    apply rely_remove; [done|]. by apply (Hdis j u).
  - destruct t as [p s]. cbn [Concurrency.code owns] in *. subst p.
    destruct (pending_obligation _ _ _ _ _ _ Hinv Hi) as [Ho Ha].
    pose proof (port_step_unique _ _ _ Hs Hu) as Hu1. split_and!.
    + exists w1. split; [done|]. right. eauto.
    + done.
    + intros j u Hj Hne. destruct (Hdis j u Hj Hne) as [Hh Hl].
      eapply rely_trans; [eapply rely_call; eauto|apply rely_remove; auto].
      intros p suf _ Heq. by destruct op.
  - destruct t as [p s]. cbn [Concurrency.code owns] in *. subst p.
    destruct (pending_obligation _ _ _ _ _ _ Hinv Hi) as [_ Ha]. pose proof (late_output_owned _ _ _ _ Ha Hlate) as Hdst.
    split_and!; [exists (world S); by split; [|left]|done|]. intros j u Hj Hne.
    destruct (Hdis j u Hj Hne) as [_ Hl]. split_and!; [done..|]. intros p Hp.
    cbn [w_files]. rewrite lookup_insert_ne; [apply remove_files_lookup; auto|].
    intros ->. by destruct (Hl p Hp).
Qed.

(** Where a request after a step comes from: it was there and the others left
    it alone, it has just arrived, or it has made the call of the step. *)
Inductive thread_from (S S' : Server) (i : nat) (t : Thread) : Prop :=
| FromBefore : threads (pool S) !! i = Some t -> rely (owns t) (world S) (world S') -> thread_from S S' i t
| FromArrival req : t = mkThread (serve deps req) nothing_owned -> thread_from S S' i t
| FromCall T (op : PortE T) k s r :
    threads (pool S) !! i = Some (mkThread (Vis op k) s) -> t = mkThread (k r) (own s (obs (Ev op r))) ->
    port_step (world S) (obs (Ev op r)) (world S') -> fresh_temp s (obs (Ev op r)) -> thread_from S S' i t.

Lemma server_step_threads S S' :
  server_inv S -> server_step S S' ->
  unique_ids (world S') /\ forall i t, threads (pool S') !! i = Some t -> thread_from S S' i t.
Proof.
  intros Hinv Hstep. pose proof Hinv as (Hpool & Hu & _).
  assert (forall j t, threads (pool S) !! j = Some t -> rely (owns t) (world S) (world S)) as Hrefl
    by (intros; by apply rely_refl).
  destruct Hstep as [i req Hi|i T op k s r w' Hi Ha Hs|i reply s Hi|i t w' Hi Hc|l1 p l2 Hst];
    cbn [pool world threads] in *.
  - split; [done|]. intros j t [[<- <-]|[_ Hj]]%lookup_insert_Some; [by eapply FromArrival|].
    apply FromBefore; eauto.
  - destruct (pending_obligation _ _ _ _ _ _ Hinv Hi) as [_ Hal]. split; [by eapply port_step_unique|].
    intros j t [[<- <-]|[Hne Hj]]%lookup_insert_Some.
    + eapply FromCall; [done..|].
      destruct (obs (Ev op r)) as [| |suf [q|er]| | | | | | | | | | | | | |]; try done. by apply (proj2 Ha _ _ Hi).
    + destruct (pool_disjoint _ _ _ _ _ Hpool Hi Hj Hne) as [Hh Hl]. apply FromBefore; [done|].
      eapply rely_call; eauto. intros q suf Hq Heq. rewrite Heq in Ha. by apply (proj2 Ha _ _ Hj).
  - split; [done|]. intros j t [_ Hj]%lookup_delete_Some. apply FromBefore; eauto.
  - destruct (cancelled_ok _ _ _ _ Hinv Hi Hc) as (_ & Hu' & Hr). split; [done|].
    intros j u [Hne Hj]%lookup_delete_Some. apply FromBefore; eauto.
  - split; [done|]. intros j t Hj. apply FromBefore; [done|]. apply rely_remove; [done|].
    intros q Hq ->%list_elem_of_singleton. destruct Hpool as (_ & _ & [_ Hf]).
    apply (Hf _ _ _ Hj Hq). rewrite Hst. set_solver.
Qed.

Lemma server_step_effect S S' : server_inv S -> server_step S S' -> guarded_effect (world S) (world S').
Proof.
  intros Hinv Hstep. assert (guarded_effect (world S) (world S)) as Hsame by (exists (world S); by split; [|left]).
  destruct Hstep as [i req Hi|i T op k s r w' Hi Ha Hs|i reply s Hi|i t w' Hi Hc|l1 p l2 Hst]; try done.
  - destruct (pending_obligation _ _ _ _ _ _ Hinv Hi) as [Ho Hal]. exists w'. split; [done|]. right. eauto.
  - by destruct (cancelled_ok _ _ _ _ Hinv Hi Hc).
Qed.

(** A property of requests that arrivals have, calls keep and the others
    cannot disturb. *)
Lemma server_step_keeps (I : Thread -> World -> Prop) S S' :
  server_inv S -> server_step S S' ->
  (forall req w, I (mkThread (serve deps req) nothing_owned) w) ->
  (forall t w w', I t w -> rely (owns t) w w' -> I t w') ->
  (forall T (op : PortE T) k s r w', port_step (world S) (obs (Ev op r)) w' -> fresh_temp s (obs (Ev op r)) ->
     unique_ids w' -> I (mkThread (Vis op k) s) (world S) -> I (mkThread (k r) (own s (obs (Ev op r)))) w') ->
  (forall i t, threads (pool S) !! i = Some t -> I t (world S)) ->
  forall i t, threads (pool S') !! i = Some t -> I t (world S').
Proof.
  intros Hinv Hstep Harr Hrely Hcall HI i t Hi. destruct (server_step_threads _ _ Hinv Hstep) as [Hu Hfrom].
  destruct (Hfrom _ _ Hi) as [Hi' Hr|req ->|T op k s r Hi' -> Hs Hf]; eauto.
Qed.

Lemma server_step_inv S S' :
  server_inv S -> server_step S S' -> server_inv S' /\ guarded_effect (world S) (world S').
Proof.
  intros Hinv Hstep. split; [|by apply server_step_effect]. pose proof Hinv as (Hpool & Hu & Hsafe).
  split; [by eapply pool_step_inv, server_pool_step|]. split; [by eapply server_step_threads|].
  eapply (server_step_keeps thread_safe); [done..| | | |done].
  - intros req w w' _. apply serve_wpr.
  - apply thread_safe_rely.
  - intros T op k s r w' Hs Hf Hu' Ht w2 Hr. destruct (Ht (world S) (rely_refl _ _ Hu)) as [_ Hk].
    apply (Hk r (w2, own s (obs (Ev op r)))). by exists w'.
Qed.

Lemma server_start w : unique_ids w -> server_inv (mkServer empty_pool w).
Proof.
  intros Hu. split_and!; [apply (reachable_inv deps), rtc_refl|done|]. intros i t Hi. by apply (lookup_empty_Some (M := gmap nat) i t) in Hi.
Qed.

Lemma server_reaches_inv w S : unique_ids w -> server_reaches w S -> server_inv S.
Proof.
  intros Hu%server_start Hr. revert Hu. induction Hr as [S|S S1 S2 Hs _ IH]; [done|].
  intros Hi. apply IH. by apply (server_step_inv S S1).
Qed.

(** A property that guarded effects preserve holds from some moment on. *)
Lemma server_stable (I : World -> Prop) S S' :
  (forall w w', keeps_data w w' -> I w -> I w') ->
  (forall w T (op : PortE T) r w', obligation w T op -> port_step w (obs (Ev op r)) w' -> I w -> I w') ->
  server_inv S -> rtc server_step S S' -> I (world S) -> I (world S').
Proof.
  intros Hk Ho Hinv Hr. induction Hr as [S|S S1 S2 Hs _ IH]; [done|]. intros HI.
  destruct (server_step_inv _ _ Hinv Hs) as [Hinv1 (w1 & Hd & Hw)]. apply IH; [done|].
  eapply Hk; [exact Hd|]. destruct Hw as [-> |(T & op & r & Hop & Hp)]; eauto.
Qed.

(** ** Theorems *)

(** C2. Whatever requests run side by side, and however they fail or are cut
    off by their clients, the server never loses the database: the one that is
    there at some moment stays the current one or in a stored pre-restore
    copy at every later moment. *)
Theorem server_never_loses_database w S S' d :
  unique_ids w -> server_reaches w S -> rtc server_step S S' ->
  recoverable d (world S) -> recoverable d (world S').
Proof.
  intros Hu Hr Hs. apply server_stable; [| |by eapply server_reaches_inv|done].
  - intros w1 w2 [Hd Hst]. unfold recoverable. by rewrite Hd, Hst.
  - intros w1 T op r w2. apply port_step_recoverable.
Qed.

(** C12. A backup that retention may not remove, a legacy one or a pre-restore
    copy, stays in the storage with its content, whatever requests run. *)
Theorem server_keeps_protected_backups w S S' f :
  unique_ids w -> server_reaches w S -> rtc server_step S S' ->
  prunable f.1 = false -> f ∈ w_store (world S) -> f ∈ w_store (world S').
Proof.
  intros Hu Hr Hs Hf. apply (server_stable (fun w => f ∈ w_store w)); [| |by eapply server_reaches_inv|done].
  - by intros w1 w2 [_ ->].
  - intros w1 T op r w2. by apply port_step_protected.
Qed.

(** A step of the server that changes the database restores a stored backup of
    the native format over it, and a copy of the old one is stored before and
    after the step. *)
Theorem server_replaces_database_by_backup w S S' :
  unique_ids w -> server_reaches w S -> server_step S S' ->
  w_db (world S') <> w_db (world S) ->
  (exists f a, f ∈ w_store (world S) /\ format f.1 = PgCustom /\
     pg_restore_bytes f.2 = Some a /\ restored_over a (w_db (world S)) (w_db (world S'))) /\
  (exists pre c, (pre, c) ∈ w_store (world S) /\ pg_dumps (w_db (world S)) c /\ kind pre = PreRestore) /\
  w_store (world S') = w_store (world S).
Proof.
  intros Hu Hr Hs Hne. pose proof (server_reaches_inv _ _ Hu Hr) as Hinv.
  destruct (server_step_inv _ _ Hinv Hs) as [_ (w1 & [Hd Hst] & Hw)]. rewrite Hd, Hst in *.
  destruct Hw as [-> |(T & op & r & Ho & Hp)]; [done|].
  destruct (port_step_effect _ _ _ Hp) as [[? _]|[(p & r' & He & c & a & d & Hc & Ha & Hd' & ->)
    |[(? & ? & ? & _ & (? & _ & _ & _ & _ & _ & _ & _ & ->))|(? & ? & _ & ->)]]]; [done| |done..].
  destruct op; try discriminate He. injection He as <- _. destruct Ho as [Hpre (f & Hf & Hfmt & Hsrc)].
  split_and!; [|done..]. exists f, a. split_and!; [done..| |done]. congruence.
Qed.
End Server.

(** ** A run of one request against the ports in memory *)

Section Alone.
Context `{PgFormat, !PgDump, RustFmt}.

Definition answer_fits (l : bool) (s : Owned) (e : PEv) : bool :=
  match e with
  | ETryLock ok => Bool.eqb ok (negb l)
  | ENewTemp _ (Ok p) => bool_decide (p ∉ live s)
  | _ => true
  end.

Definition one_thread (p : M Reply) (s : Owned) (l : bool) (w : World) : Server :=
  mkServer (mkPool {[0%nat := mkThread p s]} l []) w.

(** At most [n] calls of the request. *)
Fixpoint alone (n : nat) (p : M Reply) (s : Owned) (l : bool) (w : World) : option Server :=
  match n, p with
  | S n, Vis op k =>
      let '(r, w') := mem _ op w in
      let e := obs (Ev op r) in
      if answer_fits l s e then alone n (k r) (own s e) (locked_after l e) w' else None
  | _, _ => Some (one_thread p s l w)
  end.

Lemma answer_fits_ok p s l w e : answer_fits l s e = true -> answer_ok (pool (one_thread p s l w)) e.
Proof.
  destruct e as [ok| |suf [q|er]| | | | | | | | | | | | | |]; simpl; try done.
  - by intros ?%Bool.eqb_prop.
  - intros Hq%bool_decide_eq_true. split; [by apply not_elem_of_nil|].
    cbn [threads]. by intros i t [_ <-]%lookup_singleton_Some.
Qed.

Lemma alone_reaches (R : relation Server) n p s l w S :
  (forall T (op : PortE T) k s l w r w',
     answer_ok (pool (one_thread (Vis op k) s l w)) (obs (Ev op r)) -> port_step w (obs (Ev op r)) w' ->
     R (one_thread (Vis op k) s l w) (one_thread (k r) (own s (obs (Ev op r))) (locked_after l (obs (Ev op r))) w')) ->
  alone n p s l w = Some S -> rtc R (one_thread p s l w) S.
Proof.
  intros HR. revert p s l w. induction n as [|n IH]; intros p s l w; simpl; [intros [= <-]; done|].
  destruct p as [a|T op k]; [intros [= <-]; done|].
  pose proof (mem_follows_contract T op w) as Hm. destruct (mem T op w) as [r w'] eqn:Hr. simpl in Hm.
  destruct (answer_fits l s _) eqn:Hf; [|done]. intros Hs%IH. eapply rtc_l; [|exact Hs].
  apply HR; [by apply answer_fits_ok|exact Hm].
Qed.

Lemma one_thread_call deps T (op : PortE T) k s l w r w' :
  answer_ok (pool (one_thread (Vis op k) s l w)) (obs (Ev op r)) -> port_step w (obs (Ev op r)) w' ->
  server_step deps (one_thread (Vis op k) s l w)
    (one_thread (k r) (own s (obs (Ev op r))) (locked_after l (obs (Ev op r))) w').
Proof.
  intros Ha Hs. pose proof (SCall deps (one_thread (Vis op k) s l w) 0 T op k s r w') as Hc.
  cbn [one_thread pool threads locked streams] in Hc. rewrite insert_singleton_eq in Hc.
  apply Hc; [apply lookup_singleton_eq|exact Ha|exact Hs].
Qed.

Lemma one_thread_arrives deps w req :
  server_step deps (mkServer empty_pool w) (one_thread (serve deps req) nothing_owned false w).
Proof. apply (SArrive deps (mkServer empty_pool w) 0 req), lookup_empty. Qed.

Lemma alone_server_reaches deps req n w S :
  alone n (serve deps req) nothing_owned false w = Some S -> server_reaches deps w S.
Proof.
  intros Hs. eapply rtc_l; [apply one_thread_arrives|]. eapply alone_reaches; [|exact Hs].
  intros T op k s l w1 r w2. apply one_thread_call.
Qed.

Lemma alone_next deps n p s l w S' :
  alone (S n) p s l w = Some S' ->
  exists S, alone n p s l w = Some S /\ (S' = S \/ server_step deps S S').
Proof.
  revert p s l w. induction n as [|n IH]; intros [a|T op k] s l w; cbn [alone].
  - intros [= <-]. eauto.
  - pose proof (mem_follows_contract T op w) as Hm. destruct (mem T op w) as [r w'] eqn:Hr. simpl in Hm.
    destruct (answer_fits l s _) eqn:Hf; [|done]. intros Hs. eexists. split; [done|]. right.
    assert (S' = one_thread (k r) (own s (obs (Ev op r))) (locked_after l (obs (Ev op r))) w') as ->
      by (destruct (k r); by injection Hs).
    by apply one_thread_call, Hm; apply answer_fits_ok.
  - intros [= <-]. eauto.
  - destruct (mem T op w) as [r w'] eqn:Hr. destruct (answer_fits l s _) eqn:Hf; [|done]. apply IH.
Qed.

(** A call that changes the database. *)
Lemma alone_changes deps req n w d d' :
  (fun s => w_db (world s)) <$> alone n (serve deps req) nothing_owned false w = Some d ->
  (fun s => w_db (world s)) <$> alone (S n) (serve deps req) nothing_owned false w = Some d' ->
  d <> d' ->
  exists S S', server_reaches deps w S /\ server_step deps S S' /\ w_db (world S) = d /\ w_db (world S') = d'.
Proof.
  intros (S & HS & ->)%fmap_Some (S' & HS' & ->)%fmap_Some Hne.
  destruct (alone_next deps _ _ _ _ _ _ HS') as (S1 & HS1 & Hs). rewrite HS in HS1. injection HS1 as <-.
  exists S, S'. split_and!; [by eapply alone_server_reaches| |done..]. by destruct Hs as [->|Hs].
Qed.
End Alone.

(** ** Witnesses *)

#[local] Existing Instance plain_pg.
#[local] Existing Instance plain_dump.
#[local] Instance plain_fmt : RustFmt := {| str_debug := fun s => s |}.

Definition restore_b1 : Request :=
  Restore (mkRestoreRequest (Some (mkBackupRef (Some (TargetId "b1")))) "tracker").

Lemma sample_ids : unique_ids sample_world.
Proof. unfold unique_ids. apply (bool_decide_unpack _). by vm_compute. Qed.

Lemma old_new : old_db <> new_db.
Proof. apply (bool_decide_unpack (old_db <> new_db)). vm_compute. exact I. Qed.

(** The thirteenth call of this request replaces the database. *)
Lemma restoring_replaces :
  exists S S', server_reaches (sample_deps None) sample_world S /\ server_step (sample_deps None) S S' /\
    w_db (world S) = old_db /\ w_db (world S') = new_db.
Proof.
  apply (alone_changes (sample_deps None) restore_b1 12); [vm_compute; reflexivity..|exact old_new].
Qed.

Lemma server_never_loses_database_witness :
  exists S, server_reaches (sample_deps None) sample_world S /\ w_db (world S) = new_db /\
    recoverable old_db (world S).
Proof.
  destruct restoring_replaces as (S & S' & Hr & Hs & Hold & Hnew). exists S'. split_and!; [|done|].
  - unfold server_reaches. etrans; [exact Hr|]. by apply rtc_once.
  - eapply server_never_loses_database; [exact sample_ids|exact Hr|by apply rtc_once|]. by left.
Defined.

Lemma server_keeps_protected_backups_witness :
  exists S, server_reaches (sample_deps None) sample_world S /\ w_db (world S) = new_db /\
    (sample_backup "l1" 2 LegacyJsonZstd Regular, chars "wen") ∈ w_store (world S).
Proof.
  destruct restoring_replaces as (S & S' & Hr & Hs & Hold & Hnew).
  assert (server_reaches (sample_deps None) sample_world S') as Hr'
    by (unfold server_reaches; etrans; [exact Hr|]; by apply rtc_once).
  exists S'. split_and!; [done..|].
  eapply (server_keeps_protected_backups (sample_deps None) sample_world); [exact sample_ids|apply rtc_refl|exact Hr'|done|].
  right. left.
Defined.

Lemma server_replaces_database_by_backup_witness :
  exists S S' pre c, server_step (sample_deps None) S S' /\ w_db (world S') = new_db /\
    (pre, c) ∈ w_store (world S') /\ pg_dumps old_db c /\ kind pre = PreRestore.
Proof.
  destruct restoring_replaces as (S & S' & Hr & Hs & Hold & Hnew).
  destruct (server_replaces_database_by_backup (sample_deps None) sample_world S S' sample_ids Hr Hs) as (_ & (pre & c & Hpre & Hc & Hk) & Hst);
    [rewrite Hold, Hnew; exact (not_eq_sym old_new)|].
  exists S, S', pre, c. rewrite Hold in Hc. rewrite Hst. split_and!; assumption.
Defined.
