(* ===== verification/Ledger.v ===== *)
(** * What the server promises: a ledger of databases

    The specification of the whole server in three rules, on the current
    database and the stored backups alone: no requests, no lock, no files, no
    failures.  The running server of [Server.v] refines it: whatever requests
    run, fail or are cut off, each of its steps is a step of the ledger or none. *)

From Stdlib Require Import ZArith Lia Ascii.
From stdpp Require Import base numbers gmap sorting strings list relations.
From S2P Require Import Prelude RustStd Chrono Core Ports Service Fakes ServiceWorld Api Discipline Concurrency Server.
Open Scope Z_scope.

Section Ledger.
Context `{PgFormat, RustFmt}.

Record Ledger := mkLedger { current : Db; backups : list (BackupInfo * bytes) }.

Definition ids (l : Ledger) : list string := id <$> (backups l).*1.

Inductive ledger_step (l : Ledger) : Ledger -> Prop :=
(* a dump of the current database is stored under a new id *)
| Store info c :
    id info ∉ ids l -> format info = PgCustom -> pg_dumps (current l) c ->
    ledger_step l (mkLedger (current l) ((info, c) :: backups l))
(* a regular backup made by [pg_dump] goes *)
| Prune i :
    (forall f, f ∈ backups l -> id f.1 = i -> prunable f.1 = true) ->
    ledger_step l (mkLedger (current l) (List.filter (no_such_id i) (backups l)))
(* a backup is restored over the database, after a copy of it was stored *)
| Replace f a d pre c :
    f ∈ backups l -> format f.1 = PgCustom -> pg_restore_bytes f.2 = Some a ->
    restored_over a (current l) d ->
    (pre, c) ∈ backups l -> pg_dumps (current l) c -> kind pre = PreRestore ->
    ledger_step l (mkLedger d (backups l)).

Definition ledger (w : World) : Ledger := mkLedger (w_db w) (w_store w).

(** A call that meets its obligation. *)
Lemma port_step_ledger w T (op : PortE T) r w' :
  obligation w T op -> port_step w (obs (Ev op r)) w' ->
  ledger w' = ledger w \/ ledger_step (ledger w) (ledger w').
Proof.
  intros Ho Hs. destruct (port_step_effect _ _ _ Hs)
    as [[Hd Hst]|[(p & r' & He & c & a & d & Hc & Ha & Hd & ->)|[(req & r' & info & He & Hst)|(i & r' & He & ->)]]].
  - left. unfold ledger. by rewrite Hd, Hst.
  - right. destruct op; try discriminate He. injection He as <- _.
    destruct Ho as [(pre & c' & Hpre & Hc' & Hk) (f & Hf & Hfmt & Hsrc)].
    apply (Replace (ledger w) f a d pre c'); try done. congruence.
  - right. destruct op; try discriminate He. injection He as <- _. destruct Ho as [Hfmt (c & Hc & Hdump)].
    destruct Hst as (c' & Hc' & _ & _ & Hf & Hid & _ & _ & ->). replace c' with c by congruence.
    apply (Store (ledger w)); [done| |done]. by rewrite Hf.
  - right. destruct op; try discriminate He. injection He as <- _. by apply (Prune (ledger w)).
Qed.

Context (deps : ServiceDeps).

Lemma server_step_ledger S S' :
  server_inv S -> server_step deps S S' ->
  ledger (world S') = ledger (world S) \/ ledger_step (ledger (world S)) (ledger (world S')).
Proof.
  intros Hinv Hs. destruct (server_step_effect _ _ _ Hinv Hs) as (w1 & [Hd Hst] & Hw).
  assert (ledger (world S') = ledger w1) as -> by (unfold ledger; by rewrite Hd, Hst).
  destruct Hw as [->|(T & op & r & Ho & Hp)]; [by left|by eapply port_step_ledger].
Qed.

(** C5. The server refines its specification: from any moment on, whatever
    requests run side by side, fail or are cut off, the database and the
    storage change only as the ledger allows.  A file that appears in the
    storage is a dump of the current database under a new id, whether its
    upload is reported as done, as failed or not at all; a file that goes is a
    regular backup made by [pg_dump]; and the database changes only by
    restoring a stored backup over it, while a dump of the old one is stored
    as a pre-restore copy. *)
Theorem server_refines_ledger w S S' :
  unique_ids w -> server_reaches deps w S -> rtc (server_step deps) S S' ->
  rtc ledger_step (ledger (world S)) (ledger (world S')).
Proof.
  intros Hu Hr Hs. pose proof (server_reaches_inv _ _ _ Hu Hr) as Hinv. clear Hr.
  induction Hs as [S|S S1 S2 Hs _ IH]; [done|]. destruct (server_step_inv _ _ _ Hinv Hs) as [Hinv1 _].
  destruct (server_step_ledger _ _ Hinv Hs) as [<-|Hl]; [by apply IH|]. eapply rtc_l; [exact Hl|by apply IH].
Qed.

(** ** What the ledger guarantees *)

(** No history of the ledger loses a database or a backup that retention may
    not remove: a database that is current or stored as a pre-restore copy
    stays one of the two.  Ids stay distinct. *)
Lemma ledger_keeps_databases l l' :
  rtc ledger_step l l' ->
  (forall d, d = current l \/ (exists pre c, (pre, c) ∈ backups l /\ pg_dumps d c /\ kind pre = PreRestore) ->
     d = current l' \/ exists pre c, (pre, c) ∈ backups l' /\ pg_dumps d c /\ kind pre = PreRestore) /\
  (forall f, f ∈ backups l -> prunable f.1 = false -> f ∈ backups l') /\
  (NoDup (ids l) -> NoDup (ids l')).
Proof.
  induction 1 as [l|l l1 l2 Hs _ (IHd & IHf & IHn)]; [done|].
  assert (forall f, f ∈ backups l -> prunable f.1 = false -> f ∈ backups l1) as Hf.
  { destruct Hs as [info c _ _ _|i Hi|g a d pre c _ _ _ _ _ _ _]; intros f Hf Hp; [by right| |done].
    apply list_elem_of_In, filter_In. split; [by apply list_elem_of_In|]. unfold no_such_id.
    apply negb_true_iff, bool_decide_eq_false. intros Hid. specialize (Hi f Hf Hid). congruence. }
  split_and!; [|eauto|].
  - intros d [->|(pre & c & Hin & Hc & Hk)]; apply IHd.
    + destruct Hs as [info c _ _ _|i Hi|g a d' pre c _ _ _ _ Hin Hc Hk]; [by left..|]. right. by exists pre, c.
    + right. exists pre, c. split_and!; [|done..]. apply Hf; [done|].
      apply not_true_is_false. intros [Hp _]%prunable_spec. simpl in Hp. congruence.
  - intros Hn. apply IHn. destruct Hs as [info c Hi _ _|i Hi|g a d' pre c _ _ _ _ _ _ _]; [by constructor| |done].
    eapply sublist_NoDup; [exact Hn|]. unfold ids. by do 2 apply fmap_sublist; apply filter_sublist.
Qed.
End Ledger.

(** ** Witness *)

#[local] Existing Instance plain_pg.
#[local] Existing Instance plain_fmt.

Lemma server_refines_ledger_witness :
  exists l, rtc ledger_step (ledger sample_world) l /\ current l = new_db.
Proof.
  destruct restoring_replaces as (S & S' & Hr & Hs & _ & Hnew). exists (ledger (world S')). split; [|exact Hnew].
  apply (server_refines_ledger (sample_deps None) sample_world (mkServer empty_pool sample_world)); [exact sample_ids|apply rtc_refl|].
  etrans; [exact Hr|]. by apply rtc_once.
Defined.
