(* ===== verification/Cleanup.v ===== *)
(** * No file is left behind

    When the server has no request and no stream left, the disk is as it was
    before the first request, whatever the requests were, however they
    interleaved and failed, unless one was cancelled while a thread that cannot
    be cancelled was about to create its file. *)

From Stdlib Require Import ZArith Lia Ascii.
From stdpp Require Import base numbers gmap sorting strings list relations.
From S2P Require Import Prelude RustStd Chrono Core Ports Service Fakes ServiceWorld Api Discipline Concurrency Server.
Open Scope Z_scope.
Open Scope rust_scope.

#[local] Arguments wp : simpl never.

Section Cleanup.
Context `{PgFormat, RustFmt} (deps : ServiceDeps).

(** ** Definitions *)

Definition idle (S : Server) : Prop := pool S = empty_pool.

(** The request waits for a thread that goes on when it is cancelled, and may
    then create its file again: in a download or a decompression. *)
Definition writing_late (t : Thread) : Prop :=
  exists T (op : PortE T) k dst, code t = Vis op k /\ late_output op = Some dst.

Definition tidy_step (S S' : Server) : Prop :=
  server_step deps S S' /\
  forall i t, threads (pool S) !! i = Some t -> writing_late t -> is_Some (threads (pool S') !! i).

(** ** Files *)

Definition owned_path (S : Server) (p : path) : Prop :=
  p ∈ streams (pool S) \/ exists i t, threads (pool S) !! i = Some t /\ p ∈ live (owns t).

(** The files of the server are new, and all others are as in [w0]. *)
Definition files_tidy (w0 : World) (S : Server) : Prop :=
  forall p, (owned_path S p -> w_files w0 !! p = None) /\
            (~ owned_path S p -> w_files (world S) !! p = w_files w0 !! p).

Lemma own_live_new s e p : p ∈ live (own s e) -> p ∈ live s \/ exists suf, e = ENewTemp suf (Ok p).
Proof.
  destruct e as [[]| |suf [q|er]|q| | | | | | | | | | | | |]; simpl; auto.
  - intros [->|?]%elem_of_cons; eauto.
  - unfold drop_path. intros [? _]%list_elem_of_In%filter_In. left. by apply list_elem_of_In.
Qed.

Lemma own_live_dropped s e p : p ∈ live s -> p ∉ live (own s e) -> e = EDropTemp p.
Proof.
  destruct e as [[]| |suf [q|er]|q| | | | | | | | | | | | |]; simpl; intros Hp Hn; try done.
  - by destruct Hn; right.
  - destruct (String.eqb_spec q p) as [->|Hne]; [done|]. destruct Hn. unfold drop_path.
    apply list_elem_of_In, filter_In. split; [by apply list_elem_of_In|].
    by destruct (String.eqb_spec q p).
Qed.

Lemma remove_files_removed l (w : World) p : p ∈ l -> w_files (remove_files l w) !! p = None.
Proof.
  simpl. induction 1 as [p l|p q l _ IH]; simpl; [by rewrite lookup_delete_eq|].
  destruct (decide (q = p)) as [->|Hne]; [by rewrite lookup_delete_eq|by rewrite lookup_delete_ne].
Qed.

Lemma call_tidy w0 (S : Server) i T (op : PortE T) k s r w' :
  files_tidy w0 S -> threads (pool S) !! i = Some (mkThread (Vis op k) s) ->
  own_allowed s (obs (Ev op r)) -> answer_ok (pool S) (obs (Ev op r)) ->
  port_step (world S) (obs (Ev op r)) w' ->
  files_tidy w0 (mkServer (mkPool (<[i := mkThread (k r) (own s (obs (Ev op r)))]> (threads (pool S)))
                     (locked_after (locked (pool S)) (obs (Ev op r))) (streams (pool S))) w').
Proof.
  intros Ht Hi Hal Ha Hs p. destruct (Ht p) as [Hown Hother]. unfold owned_path. cbn [pool threads streams world].
  set (e := obs (Ev op r)) in *. split.
  - intros [Hp|(j & t & [[<- <-]|[_ Hj]]%lookup_insert_Some & Hp)].
    + apply Hown. by left.
    + destruct (own_live_new _ _ _ Hp) as [Hp'|[suf He]]; [apply Hown; right; eauto|].
      rewrite He in Hs, Ha. destruct Hs as [Hnone _]. rewrite <-Hnone. symmetry. apply Hother.
      destruct Ha as [Hst Hth]. intros [?|(j & t & Hj & Hpj)]; [done|]. by destruct (Hth _ _ Hj).
    + apply Hown. right. eauto.
  - intros Hno. assert (p ∉ live (own s e)) as Hn.
    { intros Hp. apply Hno. right. exists i. eexists. split; [apply lookup_insert_eq|done]. }
    destruct (decide (p ∈ live s)) as [Hp|Hp].
    + rewrite (own_live_dropped _ _ _ Hp Hn) in Hs. cbn [port_step] in Hs. subst w'. simpl.
      rewrite lookup_delete_eq. symmetry. apply Hown. right. eauto.
    + rewrite (port_step_files _ _ _ _ p Hs Hal Hp).
      * apply Hother. intros [?|(j & t & Hj & Hpj)]; [by destruct Hno; left|].
        destruct (decide (i = j)) as [<-|Hne]; [by simplify_eq/=|].
        apply Hno. right. exists j, t. by rewrite lookup_insert_ne.
      * intros suf He. rewrite He in Hn. simpl in Hn. set_solver.
Qed.

(** Files of a task or stream that ends and are removed. *)
Lemma removal_tidy w0 (S S' : Server) l w1 :
  files_tidy w0 S -> world S' = remove_files l w1 ->
  (forall p, p ∉ l -> w_files w1 !! p = w_files (world S) !! p) ->
  (forall p, p ∈ l -> owned_path S p) ->
  (forall p, owned_path S' p -> owned_path S p) ->
  (forall p, owned_path S p -> owned_path S' p \/ p ∈ l) ->
  files_tidy w0 S'.
Proof.
  intros Ht Hw Hw1 Hl Hsub Hsup p. destruct (Ht p) as [Hown Hother]. split; [auto|]. intros Hno. rewrite Hw.
  destruct (decide (p ∈ l)) as [Hp|Hp].
  - rewrite remove_files_removed by done. symmetry. auto.
  - rewrite remove_files_lookup, Hw1 by done. apply Hother. intros Hp'. by destruct (Hsup p Hp').
Qed.

Lemma cancel_owned (S : Server) i t l w' :
  threads (pool S) !! i = Some t ->
  let S' := mkServer (mkPool (delete i (threads (pool S))) l (streams (pool S))) w' in
  (forall p, owned_path S' p -> owned_path S p) /\
  (forall p, owned_path S p -> owned_path S' p \/ p ∈ live (owns t)).
Proof.
  intros Hi S'. split; intros p [Hp|(j & u & Hj & Hp)].
  - by left.
  - cbn [S' pool threads] in Hj. apply lookup_delete_Some in Hj as [_ Hj]. right. eauto.
  - left. by left.
  - destruct (decide (i = j)) as [<-|Hne]; [right; congruence|]. left. right. exists j, u.
    split; [|done]. simpl. by rewrite lookup_delete_ne.
Qed.

Lemma tidy_step_tidy w0 S S' : server_inv S -> tidy_step S S' -> files_tidy w0 S -> files_tidy w0 S'.
Proof.
  intros Hinv [Hs Htidy] Ht. pose proof Hinv as ((Hok & _) & _).
  destruct Hs as [i req Hi|i T op k s r w' Hi Ha Hs|i reply s Hi|i t w' Hi Hc|l1 p l2 Hst].
  - intros p. destruct (Ht p) as [Hown Hother]. unfold owned_path in *. cbn [pool threads streams world] in *. split.
    + intros [Hp|(j & t & [[<- <-]|[_ Hj]]%lookup_insert_Some & Hp)]; 
        [apply Hown; by left|by apply not_elem_of_nil in Hp|apply Hown; right; eauto].
    + intros Hno. apply Hother. intros [Hp|(j & t & Hj & Hp)]; [by destruct Hno; left|]. apply Hno. right. exists j, t.
      rewrite lookup_insert_ne; [done|]. congruence.
  - destruct (pending_obligation _ _ _ _ _ _ Hinv Hi) as [_ Hal]. by apply call_tidy.
  - assert (s = mkOwned false (handed_over reply)) as -> by exact (Hok _ _ Hi).
    eapply (removal_tidy _ _ _ [] (world S)); [exact Ht|by destruct (world S)|done|by intros p ?%not_elem_of_nil| |].
    + intros p. unfold owned_path at 1. cbn [pool threads streams].
      intros [[Hp|Hp]%elem_of_app|(j & t & [_ Hj]%lookup_delete_Some & Hp)];
        [right|by left|right; eauto]. exists i. eexists. by split.
    + intros p [Hp|(j & t & Hj & Hp)]; left; [left; apply elem_of_app; by right|].
      destruct (decide (i = j)) as [<-|Hne].
      * left. apply elem_of_app. left. by simplify_eq/=.
      * right. exists j, t. split; [|done]. simpl. by rewrite lookup_delete_ne.
  - destruct (cancel_owned S i t (if held (owns t) then false else locked (pool S)) w' Hi) as [Hsub Hsup].
    assert (forall p, p ∈ live (owns t) -> owned_path S p) as Hl by (intros p Hp; right; eauto).
    destruct Hc as [|T op k r w1 Hcode Hext Hs|T op k dst c Hcode Hlate].
    + by eapply removal_tidy.
    + destruct t as [c s]. cbn [Concurrency.code owns] in *. subst c.
      destruct (pending_obligation _ _ _ _ _ _ Hinv Hi) as [_ Hal].
      eapply removal_tidy; [exact Ht|done| |done..]. intros p Hp. eapply port_step_files; [done..|].
      intros suf Heq. by destruct op.
    + destruct (Htidy i t Hi) as [u Hu]; [by exists T, op, k, dst|]. simpl in Hu. by rewrite lookup_delete_eq in Hu.
  - eapply (removal_tidy _ _ _ [p]); [exact Ht|done|done|..].
    + intros q ->%list_elem_of_singleton. left. rewrite Hst. set_solver.
    + intros q [Hq|Hq]; [left|by right]. rewrite Hst. simpl in Hq. set_solver.
    + intros q [Hq|Hq]; [|left; by right]. rewrite Hst in Hq. unfold owned_path. simpl. set_solver.
Qed.

(** ** Theorems *)

(** C26. When the server is idle again the disk is as it was before the first
    request, unless a request was cancelled in the middle of a download from
    the storage or of a decompression: no request leaves a temporary file
    behind, whether it succeeds, fails or is cut off at any other call. *)
Theorem server_leaves_no_files w S :
  unique_ids w -> rtc tidy_step (mkServer empty_pool w) S -> idle S ->
  w_files (world S) = w_files w.
Proof.
  intros Hu Hr Hidle. assert (server_inv S /\ files_tidy w S) as [_ Ht].
  { assert (server_inv (mkServer empty_pool w) /\ files_tidy w (mkServer empty_pool w)) as Hstart.
    { split; [by apply (server_start deps)|]. intros p. split; [|done].
      intros [Hp|(i & t & Hi & _)]; [by apply not_elem_of_nil in Hp|].
      by apply (lookup_empty_Some (M := gmap nat) i t) in Hi. }
    revert Hstart. induction Hr as [S|S S1 S2 Hs _ IH]; [done|]. intros [Hi Ht]. apply IH; [done|].
    split; [by apply (server_step_inv deps S), Hs|by eapply tidy_step_tidy]. }
  apply map_eq. intros p. apply Ht. unfold owned_path. rewrite Hidle. intros [Hp|(i & t & Hi & _)];
    [by apply not_elem_of_nil in Hp|by apply (lookup_empty_Some (M := gmap nat) i t) in Hi].
Qed.
End Cleanup.

(** ** Witnesses *)

#[local] Existing Instance plain_pg.
#[local] Existing Instance plain_dump.
#[local] Existing Instance plain_fmt.

Section Alone.
Context `{PgFormat, !PgDump, RustFmt} (deps : ServiceDeps).

Definition answered (S : Server) : bool :=
  match threads (pool S) !! 0%nat with
  | Some (mkThread (Ret r) _) => bool_decide (handed_over r = []) && negb (locked (pool S))
  | _ => false
  end.

Lemma one_thread_call_tidy T (op : PortE T) k s l w r w' :
  answer_ok (pool (one_thread (Vis op k) s l w)) (obs (Ev op r)) -> port_step w (obs (Ev op r)) w' ->
  tidy_step deps (one_thread (Vis op k) s l w)
    (one_thread (k r) (own s (obs (Ev op r))) (locked_after l (obs (Ev op r))) w').
Proof.
  intros Ha Hs. split; [by apply one_thread_call|]. cbn [one_thread pool threads].
  intros i t [<- _]%lookup_singleton_Some _. rewrite lookup_singleton_eq. eauto.
Qed.

Lemma alone_shape n p s l w S : alone n p s l w = Some S -> exists p' s' l' w', S = one_thread p' s' l' w'.
Proof.
  revert p s l w. induction n as [|n IH]; intros [a|T op k] s l w; simpl; intros Hs;
    try (injection Hs as <-; by repeat eexists).
  destruct (mem T op w) as [r w']. destruct (answer_fits l s _); [by eapply IH|done].
Qed.

(** A request that has answered leaves the server idle. *)
Lemma alone_idle req n w S :
  alone n (serve deps req) nothing_owned false w = Some S -> answered S = true ->
  exists S', rtc (tidy_step deps) (mkServer empty_pool w) S' /\ idle S' /\ world S' = world S.
Proof.
  intros Hs Ha. destruct (alone_shape _ _ _ _ _ _ Hs) as (p & s & l & w' & ->).
  unfold answered in Ha. cbn [one_thread pool threads locked] in Ha. rewrite lookup_singleton_eq in Ha.
  destruct p as [r|]; [|done]. apply andb_true_iff in Ha as [Hr%bool_decide_eq_true Hl%negb_true_iff].
  exists (mkServer empty_pool w'). split_and!; [|done..]. eapply rtc_l.
  { split; [apply one_thread_arrives|]. intros i t Hi. by apply (lookup_empty_Some (M := gmap nat) i t) in Hi. }
  eapply rtc_r; [eapply alone_reaches; [|exact Hs]; apply one_thread_call_tidy|].
  pose proof (SAnswer deps (one_thread (Ret r) s l w') 0 r s (lookup_singleton_eq _ _)) as Hstep.
  cbn [one_thread pool threads locked streams world] in Hstep.
  rewrite Hr, Hl, delete_singleton_eq in Hstep. split; [by rewrite Hl|]. cbn [one_thread pool threads].
  intros i t [_ <-]%lookup_singleton_Some (T & op & k & dst & Hk & _). discriminate Hk.
Qed.
End Alone.

Definition restored_alone : option Server :=
  alone 24 (serve (sample_deps None) restore_b1) nothing_owned false sample_world.

Lemma restored_alone_ok :
  match restored_alone with Some s => answered s && bool_decide (w_db (world s) = new_db) | None => false end = true.
Proof. vm_compute. reflexivity. Qed.

Lemma server_leaves_no_files_witness :
  exists S, rtc (tidy_step (sample_deps None)) (mkServer empty_pool sample_world) S /\ idle S /\
    w_db (world S) = new_db /\ w_files (world S) = w_files sample_world.
Proof.
  pose proof restored_alone_ok as Hok. destruct restored_alone as [S|] eqn:Hs; [|discriminate Hok].
  apply andb_true_iff in Hok as [Ha Hd%bool_decide_eq_true].
  destruct (alone_idle _ _ _ _ _ Hs Ha) as (S' & Hr & Hi & Hw). exists S'.
  split_and!; [exact Hr|exact Hi|rewrite Hw; exact Hd|].
  exact (server_leaves_no_files (sample_deps None) sample_world S' sample_ids Hr Hi).
Defined.
