(* ===== verification/Stream.v ===== *)
(** * [grpc.rs]: the task that streams a download

    The task spawned by [download_backup]: it sends the header, opens the
    file and sends it in chunks through a channel of [STREAM_BUFFER] items,
    until the end, an error, or the client hanging up.  A step relation models
    the task, the channel and the client; reads may be short. *)

From Stdlib Require Import ZArith Lia Ascii.
From stdpp Require Import base numbers gmap sorting strings list relations.
From S2P Require Import Prelude RustStd Chrono Core Ports Service Fakes Api.
Open Scope Z_scope.
Open Scope rust_scope.

Definition CHUNK_SIZE : Z := 1024 * 1024.
Definition STREAM_BUFFER : nat := 4.

Inductive DownloadChunk := PayloadInfo (info : ProtoInfo) | PayloadData (data : bytes).

Abbreviation Item := (result DownloadChunk Status).

(** Where the task is. *)
Inductive Phase :=
| SendHeader
| OpenFile
| ReadChunk (pos : nat)
| SendChunk (data : bytes) (pos : nat)
| SendError (st : Status)
| Finished.

(** The task, the channel and what the client has received; [rx_open] until
    the client drops the stream. *)
Record Stream := mkStream {
  phase : Phase;
  buffer : list Item;
  received : list Item;
  rx_open : bool;
}.

Section Stream.
Context (header : ProtoInfo) (content : bytes).

Definition start : Stream := mkStream SendHeader [] [] true.

(** [tx.send(item).await] with the next phase: it waits for room, and fails
    when the client is gone. *)
Inductive send (item : Item) (next : Phase) (s : Stream) : Stream -> Prop :=
| SendOk : rx_open s = true -> (length (buffer s) < STREAM_BUFFER)%nat ->
    send item next s (mkStream next (buffer s ++ [item]) (received s) true)
| SendFailed : rx_open s = false ->
    send item next s (mkStream Finished (buffer s) (received s) false).

Inductive stream_step (s : Stream) : Stream -> Prop :=
| StepHeader s' : phase s = SendHeader -> send (Ok (PayloadInfo header)) OpenFile s s' -> stream_step s s'
| StepOpen : phase s = OpenFile ->
    stream_step s (mkStream (ReadChunk 0) (buffer s) (received s) (rx_open s))
| StepOpenFailed e : phase s = OpenFile ->
    stream_step s (mkStream (SendError (mkStatus CodeInternal ("Could not open download: " +:+ e)))
                     (buffer s) (received s) (rx_open s))
(* a read gives between one byte and a full buffer, and nothing only at the end *)
| StepRead pos n : phase s = ReadChunk pos -> (0 < n)%nat -> Z.of_nat n <= CHUNK_SIZE ->
    (pos + n <= length content)%nat ->
    stream_step s (mkStream (SendChunk (take n (drop pos content)) (pos + n)) (buffer s) (received s) (rx_open s))
| StepEof : phase s = ReadChunk (length content) ->
    stream_step s (mkStream Finished (buffer s) (received s) (rx_open s))
| StepReadFailed pos e : phase s = ReadChunk pos ->
    stream_step s (mkStream (SendError (mkStatus CodeInternal ("Could not read download: " +:+ e)))
                     (buffer s) (received s) (rx_open s))
| StepSend data pos s' : phase s = SendChunk data pos ->
    send (Ok (PayloadData data)) (ReadChunk pos) s s' -> stream_step s s'
| StepSendError st s' : phase s = SendError st -> send (Err st) Finished s s' -> stream_step s s'
(* the client *)
| StepReceive item rest : buffer s = item :: rest -> rx_open s = true ->
    stream_step s (mkStream (phase s) rest (received s ++ [item]) true)
| StepHangUp : rx_open s = true ->
    stream_step s (mkStream (phase s) (buffer s) (received s) false).

Definition stream_reachable (s : Stream) : Prop := rtc stream_step start s.

(** Everything sent so far. *)
Definition sent (s : Stream) : list Item := received s ++ buffer s.

(** The items of the chunks [cs]. *)
Definition data_items (cs : list bytes) : list Item := (fun d => Ok (PayloadData d)) <$> cs.

Definition chunk_ok (d : bytes) : Prop := (0 < length d)%nat /\ Z.of_nat (length d) <= CHUNK_SIZE.

(** ** The invariant *)

(** What has been sent when the task is at [p]. *)
Definition phase_inv (p : Phase) (items : list Item) (open : bool) : Prop :=
  match p with
  | SendHeader => items = []
  | OpenFile => items = [Ok (PayloadInfo header)]
  | ReadChunk pos => exists cs, items = Ok (PayloadInfo header) :: data_items cs /\
      concat cs = take pos content /\ Forall chunk_ok cs /\ (pos <= length content)%nat
  | SendChunk d pos => exists cs, items = Ok (PayloadInfo header) :: data_items cs /\
      concat (cs ++ [d]) = take pos content /\ Forall chunk_ok (cs ++ [d]) /\ (pos <= length content)%nat
  | SendError st => status_code st = CodeInternal /\
      exists cs, items = Ok (PayloadInfo header) :: data_items cs /\ Forall chunk_ok cs /\
        concat cs `prefix_of` content
  | Finished =>
      (open = false /\ items = []) \/
      exists cs, Forall chunk_ok cs /\ concat cs `prefix_of` content /\
        (items = Ok (PayloadInfo header) :: data_items cs /\ (open = true -> concat cs = content) \/
         exists st, status_code st = CodeInternal /\
           items = Ok (PayloadInfo header) :: data_items cs ++ [Err st])
  end.

Definition stream_inv (s : Stream) : Prop :=
  phase_inv (phase s) (sent s) (rx_open s) /\ (length (buffer s) <= STREAM_BUFFER)%nat.

Lemma data_items_snoc cs d : data_items (cs ++ [d]) = data_items cs ++ [Ok (PayloadData d)].
Proof. unfold data_items. by rewrite fmap_app. Qed.

(** A send keeps the invariant when it does with the item sent, and when the
    task may end without it. *)
Lemma send_inv item next s s' :
  send item next s s' -> (length (buffer s) <= STREAM_BUFFER)%nat ->
  phase_inv next (sent s ++ [item]) true -> phase_inv Finished (sent s) false ->
  stream_inv s'.
Proof.
  intros Hsend Hb Hok Hfail. destruct Hsend as [Hrx Hlen|Hrx]; split; simpl; try done.
  - unfold sent in *. simpl. by rewrite app_assoc.
  - rewrite length_app. simpl. unfold STREAM_BUFFER in *. lia.
Qed.

Lemma phase_inv_hang_up p items : phase_inv p items true -> phase_inv p items false.
Proof.
  destruct p; try done. intros [[? _]|(cs & Hc & Hp & [[-> _]|Herr])]; [done|right..]; exists cs;
    split_and!; try done; [by left|by right].
Qed.

Lemma take_prefix {A} n (l : list A) : take n l `prefix_of` l.
Proof. exists (drop n l). by rewrite take_drop. Qed.

Lemma read_inv s pos n :
  phase_inv (ReadChunk pos) (sent s) (rx_open s) -> (0 < n)%nat -> Z.of_nat n <= CHUNK_SIZE ->
  (pos + n <= length content)%nat ->
  phase_inv (SendChunk (take n (drop pos content)) (pos + n)) (sent s) (rx_open s).
Proof.
  intros (cs & Hi & Hc & Hok & Hpos) Hn Hmax Hlen. exists cs. split_and!; [done| | |done].
  - rewrite concat_app. cbn [concat]. rewrite app_nil_r, Hc. apply take_take_drop.
  - apply Forall_app. split; [done|]. constructor; [|done]. unfold chunk_ok.
    rewrite length_take, length_drop. lia.
Qed.

Lemma stream_step_inv s s' : stream_inv s -> stream_step s s' -> stream_inv s'.
Proof.
  intros [Hp Hb] Hstep. destruct Hstep as [s' Hph Hsend|Hph|e Hph|pos n Hph Hn Hmax Hlen|Hph|pos e Hph
    |data pos s' Hph Hsend|st s' Hph Hsend|item rest Hbuf Hrx|Hrx]; rewrite ?Hph in Hp.
  - eapply send_inv; [exact Hsend|done| |]; simpl in *; rewrite Hp; [done|by left].
  - split; [|done]. exists []. split_and!; [exact Hp|done|constructor|lia].
  - split; [|done]. split; [done|]. exists [].
    split_and!; [exact Hp|constructor|apply prefix_nil].
  - split; [|done]. by apply read_inv.
  - split; [|done]. destruct Hp as (cs & Hi & Hc & Hok & _). right. exists cs. rewrite take_ge in Hc by done.
    split_and!; [done|by rewrite Hc|left; done].
  - split; [|done]. destruct Hp as (cs & Hi & Hc & Hok & _). split; [done|]. exists cs.
    split_and!; [done..|]. rewrite Hc. apply take_prefix.
  - destruct Hp as (cs & Hi & Hc & Hok & Hpos). eapply send_inv; [exact Hsend|done| |].
    + exists (cs ++ [data]). rewrite data_items_snoc, Hi. by split_and!.
    + right. exists cs. apply Forall_app in Hok as [Hok _]. split_and!; [done| |by left].
      etrans; [|apply (take_prefix pos)]. rewrite <-Hc, concat_app. by exists (concat [data]).
  - destruct Hp as (Hst & cs & Hi & Hok & Hpre). eapply send_inv; [exact Hsend|done| |].
    + right. exists cs. split_and!; [done..|]. right. exists st. by rewrite Hi.
    + right. exists cs. split_and!; [done..|]. by left.
  - split; simpl; [|rewrite Hbuf in Hb; simpl in Hb; lia]. rewrite Hrx in Hp.
    unfold sent in *. simpl. rewrite <-app_assoc. by rewrite Hbuf in Hp.
  - split; [|done]. rewrite Hrx in Hp. by apply phase_inv_hang_up.
Qed.

Lemma stream_reachable_inv s : stream_reachable s -> stream_inv s.
Proof.
  apply (rtc_ind_r stream_inv); [split; simpl; [done|unfold STREAM_BUFFER; lia]|].
  intros s1 s2 _ Hs Hi. by eapply stream_step_inv.
Qed.

(** A client never takes a truncated download for a whole one: when the
    task has ended and the client has read everything, it has received the
    header first, then non-empty chunks of at most 1 MiB, and either the
    chunks are the whole file or the last message is an error.  At every
    moment the channel holds at most four messages. *)
Theorem stream_whole_or_error s :
  stream_reachable s -> (length (buffer s) <= 4)%nat /\
  (phase s = Finished -> rx_open s = true -> buffer s = [] ->
   exists cs, Forall chunk_ok cs /\
     (received s = Ok (PayloadInfo header) :: data_items cs /\ concat cs = content \/
      exists st, status_code st = CodeInternal /\
        received s = Ok (PayloadInfo header) :: data_items cs ++ [Err st] /\ concat cs `prefix_of` content)).
Proof.
  intros [Hp Hb]%stream_reachable_inv. split; [exact Hb|]. intros Hph Hrx Hbuf.
  rewrite Hph, Hrx in Hp. unfold sent in Hp. rewrite Hbuf, app_nil_r in Hp.
  destruct Hp as [[? _]|(cs & Hok & Hpre & Hi)]; [done|]. exists cs. split; [done|].
  destruct Hi as [[Hi Hall]|(st & Hst & Hi)]; [by left; auto|right; eauto].
Qed.

(** ** Termination *)

Definition rank (p : Phase) : nat :=
  match p with
  | SendHeader => 3 * length content + 6
  | OpenFile => 3 * length content + 4
  | ReadChunk pos => 3 * (length content - pos) + 3
  | SendChunk _ pos => 3 * (length content - pos) + 5
  | SendError _ => 2
  | Finished => 0
  end.

Definition work_left (s : Stream) : nat :=
  rank (phase s) + length (buffer s) + (if rx_open s then 1 else 0).

Lemma stream_step_decreases s s' : stream_step s s' -> (work_left s' < work_left s)%nat.
Proof.
  unfold work_left. intros Hstep. destruct Hstep as [s' Hph Hsend|Hph|e Hph|pos n Hph Hn Hmax Hlen|Hph|pos e Hph
    |data pos s' Hph Hsend|st s' Hph Hsend|item rest Hbuf Hrx|Hrx]; simpl; rewrite ?Hph; simpl; try lia.
  - destruct Hsend as [Hrx _|Hrx]; simpl; rewrite ?length_app, Hrx; simpl; lia.
  - destruct Hsend as [Hrx _|Hrx]; simpl; rewrite ?length_app, Hrx; simpl; lia.
  - destruct Hsend as [Hrx _|Hrx]; simpl; rewrite ?length_app, Hrx; simpl; lia.
  - rewrite Hbuf, Hrx. simpl. lia.
  - rewrite Hrx. lia.
Qed.

(** The task itself takes a step: it is at another point afterwards. *)
Definition task_moves (s : Stream) : Prop := exists s', stream_step s s' /\ phase s' <> phase s.

(** The task waits for room in the channel of a connected client. *)
Definition channel_full (s : Stream) : Prop :=
  match phase s with SendHeader | SendChunk _ _ | SendError _ => True | _ => False end /\
  length (buffer s) = STREAM_BUFFER /\ rx_open s = true.

Definition client_receives (s : Stream) : Prop :=
  exists item s', stream_step s s' /\ sent s' = sent s /\ received s' = received s ++ [item].

Lemma receive_possible s : buffer s <> [] -> rx_open s = true -> client_receives s.
Proof.
  intros Hne Hrx. unfold client_receives, sent. destruct (buffer s) as [|item rest] eqn:Hb; [done|].
  exists item. eexists. split_and!; [by eapply StepReceive| |done]. simpl. by rewrite <-app_assoc.
Qed.

(** A send goes through or fails, unless the channel is full. *)
Lemma send_possible item next s :
  (length (buffer s) <= STREAM_BUFFER)%nat ->
  (exists s', send item next s s' /\ (phase s' = next \/ phase s' = Finished)) \/
  (length (buffer s) = STREAM_BUFFER /\ rx_open s = true).
Proof.
  intros Hb. destruct (rx_open s) eqn:Hrx; [|left; eexists; split; [by apply SendFailed|by right]].
  destruct (decide (length (buffer s) < STREAM_BUFFER)%nat) as [Hlt|Hge]; [|right; split; [lia|done]].
  left. eexists. split; [by apply SendOk|by left].
Qed.

Lemma task_progress s : stream_inv s -> phase s <> Finished -> task_moves s \/ channel_full s.
Proof.
  intros [Hp Hb] Hph. unfold task_moves, channel_full. destruct (phase s) as [| |pos|d pos|st|] eqn:Hphase; [| | | | |done].
  - destruct (send_possible (Ok (PayloadInfo header)) OpenFile s Hb) as [(s' & Hs & Hn)|?]; [left|by right].
    exists s'. split; [by apply StepHeader|by destruct Hn as [-> | ->]].
  - left. eexists. split; [by apply StepOpen|done].
  - left. destruct Hp as (_ & _ & _ & _ & Hpos). destruct (decide (pos = length content)) as [->|Hne].
    + eexists. split; [by apply StepEof|done].
    + eexists. split; [apply (StepRead _ pos 1); [done|lia|done|lia]|done].
  - destruct (send_possible (Ok (PayloadData d)) (ReadChunk pos) s Hb) as [(s' & Hs & Hn)|?]; [left|by right].
    exists s'. split; [by eapply StepSend|by destruct Hn as [-> | ->]].
  - destruct (send_possible (Err st) Finished s Hb) as [(s' & Hs & Hn)|?]; [left|by right].
    exists s'. split; [by eapply StepSendError|by destruct Hn as [-> | ->]].
Qed.

Lemma stream_sn s : sn stream_step s.
Proof.
  remember (work_left s) as n eqn:Hn. revert s Hn.
  induction n as [n IH] using lt_wf_ind. intros s ->. constructor. intros s' Hs.
  eapply IH; [by apply stream_step_decreases|done].
Qed.

(** C28. Streaming ends, and only a full channel holds it up: every sequence of
    steps is finite, whatever the sizes of the reads and the pace of the
    client; the task itself can take a step until it has ended, except when it
    is sending while the channel holds four messages for a connected client;
    and a connected client can always take the next message that waits. *)
Theorem stream_terminates s :
  stream_reachable s ->
  sn stream_step s /\
  (phase s <> Finished -> task_moves s \/ channel_full s) /\
  (buffer s <> [] -> rx_open s = true -> client_receives s).
Proof.
  intros Hinv%stream_reachable_inv. split_and!; [apply stream_sn|by apply task_progress|apply receive_possible].
Qed.
End Stream.

(** ** Witness: a file of three bytes, read two bytes and then one *)

Definition small_content : bytes := chars "abc".
Definition small_header : ProtoInfo := backup_info good_backup.1.

Definition small_end : Stream :=
  mkStream Finished [] [Ok (PayloadInfo small_header); Ok (PayloadData (chars "ab")); Ok (PayloadData (chars "c"))] true.

Ltac stream_go c := eapply rtc_l; [c|simpl].

Lemma small_reachable : stream_reachable small_header small_content small_end.
Proof.
  unfold stream_reachable, start, small_end.
  stream_go ltac:(by eapply StepHeader; [done|apply SendOk; [done|simpl; unfold STREAM_BUFFER; lia]]).
  stream_go ltac:(by apply StepOpen).
  stream_go ltac:(eapply (StepRead _ _ _ 0 2); [done|lia|by vm_compute|simpl; lia]).
  stream_go ltac:(by eapply StepSend; [done|apply SendOk; [done|simpl; unfold STREAM_BUFFER; lia]]).
  stream_go ltac:(by eapply StepReceive).
  stream_go ltac:(by eapply StepReceive).
  stream_go ltac:(eapply (StepRead _ _ _ 2 1); [done|lia|by vm_compute|simpl; lia]).
  stream_go ltac:(by eapply StepSend; [done|apply SendOk; [done|simpl; unfold STREAM_BUFFER; lia]]).
  stream_go ltac:(by apply StepEof).
  stream_go ltac:(by eapply StepReceive). apply rtc_refl.
Qed.

Lemma stream_whole_or_error_witness :
  exists cs, received small_end = Ok (PayloadInfo small_header) :: data_items cs /\ concat cs = small_content.
Proof.
  destruct (stream_whole_or_error small_header small_content small_end small_reachable) as [_ H].
  destruct (H eq_refl eq_refl eq_refl) as (cs & _ & [Hc|(st & _ & Hc & _)]); [by exists cs|].
  exists [chars "ab"; chars "c"]. done.
Defined.

(** A client that does not read: the channel is full after four messages. *)
Definition full_stream : Stream :=
  mkStream (SendChunk (chars "d") 4)
    [Ok (PayloadInfo small_header); Ok (PayloadData (chars "a")); Ok (PayloadData (chars "b")); Ok (PayloadData (chars "c"))] [] true.

Lemma full_reachable : stream_reachable small_header (chars "abcde") full_stream.
Proof.
  unfold stream_reachable, start, full_stream.
  stream_go ltac:(by eapply StepHeader; [done|apply SendOk; [done|simpl; unfold STREAM_BUFFER; lia]]).
  stream_go ltac:(by apply StepOpen).
  stream_go ltac:(eapply (StepRead _ _ _ 0 1); [done|lia|by vm_compute|simpl; lia]).
  stream_go ltac:(by eapply StepSend; [done|apply SendOk; [done|simpl; unfold STREAM_BUFFER; lia]]).
  stream_go ltac:(eapply (StepRead _ _ _ 1 1); [done|lia|by vm_compute|simpl; lia]).
  stream_go ltac:(by eapply StepSend; [done|apply SendOk; [done|simpl; unfold STREAM_BUFFER; lia]]).
  stream_go ltac:(eapply (StepRead _ _ _ 2 1); [done|lia|by vm_compute|simpl; lia]).
  stream_go ltac:(by eapply StepSend; [done|apply SendOk; [done|simpl; unfold STREAM_BUFFER; lia]]).
  stream_go ltac:(eapply (StepRead _ _ _ 3 1); [done|lia|by vm_compute|simpl; lia]). apply rtc_refl.
Qed.

Lemma stream_terminates_witness :
  sn (stream_step small_header (chars "abcde")) full_stream /\
  (task_moves small_header (chars "abcde") full_stream \/ channel_full full_stream) /\
  client_receives small_header (chars "abcde") full_stream.
Proof.
  destruct (stream_terminates small_header (chars "abcde") full_stream full_reachable) as (Hsn & Hmove & Hrecv).
  split_and!; [exact Hsn|apply Hmove; discriminate|apply Hrecv; [discriminate|reflexivity]].
Defined.
