(* ===== verification/Delivery.v ===== *)
(** * Downloads on their way to the client

    [Server.v] ends a download with the answer of its handler, [Stream.v]
    follows one streaming task over a fixed content.  Here both run together:
    an answered download starts a task over the file it handed over, which
    reads that file from the disk all requests share, sends to its client and
    ends by removing it.  The theorem: what a client has read to the end are
    the bytes of the backup its header names. *)

From Stdlib Require Import ZArith Lia Ascii.
From stdpp Require Import base numbers gmap sorting strings list relations.
From S2P Require Import Prelude RustStd Chrono Core Ports Service Fakes ServiceWorld Api Discipline Concurrency.
From S2P Require Import Server Stream.
Open Scope Z_scope.
Open Scope rust_scope.

#[local] Arguments wp : simpl never.

Section Delivery.
Context `{PgFormat, RustFmt} (deps : ServiceDeps).

(** ** The system *)

(** A streaming task with its client; [running] until the task has ended. *)
Record Flow := mkFlow { flow_header : ProtoInfo; flow_file : path; flow_stream : Stream; running : bool }.

Record Live := mkLive { srv : Server; flows : list Flow }.

Definition disk (L : Live) (p : path) : bytes := default ([] : bytes) (w_files (world (srv L)) !! p).

Inductive live_step (L : Live) : Live -> Prop :=
(* anything the server does but starting and ending streams *)
| LServer S' :
    server_step deps (srv L) S' -> streams (pool S') = streams (pool (srv L)) -> live_step L (mkLive S' (flows L))
(* [download_backup] answers and spawns the task *)
| LDownload i h file s :
    let P := pool (srv L) in
    threads P !! i = Some (mkThread (Ret (DownloadReply (Ok (h, file)))) s) ->
    live_step L (mkLive (mkServer (mkPool (delete i (threads P)) (locked P) (file :: streams P)) (world (srv L)))
                   (mkFlow h file start true :: flows L))
(* the task or the client *)
| LStream l1 f l2 s' :
    flows L = l1 ++ f :: l2 ->
    stream_step (flow_header f) (disk L (flow_file f)) (flow_stream f) s' ->
    live_step L (mkLive (srv L) (l1 ++ mkFlow (flow_header f) (flow_file f) s' (running f) :: l2))
(* the task has ended and drops the file *)
| LEnd l1 f l2 a b :
    let P := pool (srv L) in
    flows L = l1 ++ f :: l2 -> running f = true -> phase (flow_stream f) = Finished ->
    streams P = a ++ flow_file f :: b ->
    live_step L (mkLive (mkServer (mkPool (threads P) (locked P) (a ++ b)) (remove_files [flow_file f] (world (srv L))))
                   (l1 ++ mkFlow (flow_header f) (flow_file f) (flow_stream f) false :: l2)).

Definition live_start (w : World) : Live := mkLive (mkServer empty_pool w) [].

Definition live_reaches (w : World) (L : Live) : Prop := rtc live_step (live_start w) L.

(** The worlds of a run from [L0] to [L]. *)
Definition passed (L0 L : Live) (w : World) : Prop :=
  exists L1, rtc live_step L0 L1 /\ rtc live_step L1 L /\ world (srv L1) = w.

(** [content] is what the backup [info] holds: it was found in the storage at
    one moment, and at one moment the file stored under its id gave the
    content. *)
Definition came_from (R : World -> Prop) (info : BackupInfo) (content : bytes) : Prop :=
  (exists w, R w /\ info ∈ (w_store w).*1) /\
  exists w f, R w /\ f ∈ w_store w /\ id f.1 = id info /\ delivered info f.2 content /\
    (info ∈ (w_store w).*1 -> f.1 = info).

(** ** What a download leaves for the task *)

Section Requests.
Context (R : World -> Prop).

Definition dstep_seen (s : World * Owned) (e : event PortE) (s' : World * Owned) : Prop :=
  R s.1 /\ rstep s e s'.

Abbreviation wps := (wp (fun _ _ _ => True) dstep_seen).

Lemma wps_Vis {A T} (op : PortE T) (k : T -> M A) Q w o :
  (forall r w1 w', R w -> port_step w (obs (Ev op r)) w1 -> fresh_temp o (obs (Ev op r)) ->
     rely (own o (obs (Ev op r))) w1 w' -> wps (k r) Q (w', own o (obs (Ev op r)))) ->
  wps (Vis op k) Q (w, o).
Proof.
  intros Hk. split; [done|]. intros r [w' o'] (HR & w1 & Hs & Hf & Ho & Hr). cbn [fst snd] in *. subst o'. by eapply Hk.
Qed.

Lemma wps_any {A} (p : M A) s : wps p (fun _ _ => True) s.
Proof. revert s. induction p as [a|T op k IH]; intros s; [done|]. split; [done|]. intros r s' _. apply IH. Qed.

Definition ready (r : Result (BackupInfo * path)) (s : World * Owned) : Prop :=
  match r with
  | Ok (info, file) => exists content, s.2 = mkOwned false [file] /\ w_files s.1 !! file = Some content /\
      came_from R info content
  | Err _ => True
  end.

Lemma resolve_wps target w o :
  wps (resolve target) (fun r s => s.2 = o /\ unique_ids s.1 /\
    match r with
    | Ok info => (exists w, R w /\ info ∈ (w_store w).*1) /\ (id info ∉ w_others s.1)
    | Err _ => True
    end) (w, o).
Proof.
  destruct target as [i|]; apply wps_Vis.
  - intros [info|e] w1 w' HR Hs _ Hr; (split; [done|]); (split; [apply Hr|]); [|done].
    destruct Hs as (-> & Hin & Hot & _). destruct Hr as (_ & Ho & _). split; [eauto|by auto].
  - intros [[info|]|e] w1 w' HR Hs _ Hr; (split; [done|]); (split; [apply Hr|]); try done.
    destruct Hs as (-> & Hin & Hot & _). destruct Hr as (_ & Ho & _). cbn. split; [eauto|by auto].
Qed.

Lemma temp_wps {A} (k : Result path -> M A) suffix Q w o :
  (forall e w', wps (k (Err e)) Q (w', o)) ->
  (forall p w', unique_ids w' -> p ∉ live o -> (forall q, q ∈ live o -> w_files w' !! q = w_files w !! q) ->
     w_others w' ⊆ w_others w -> wps (k (Ok p)) Q (w', mkOwned (held o) (p :: live o))) ->
  wps (bind (temp_file deps suffix) k) Q (w, o).
Proof.
  intros Herr Hok. unfold temp_file. cbn [bind trigger]. apply wps_Vis.
  intros [p|e] w1 w' _ Hs Hf Hr; cbn [obs own fresh_temp port_step] in *; [|apply Herr].
  destruct Hs as [_ ->]. destruct Hr as (Hu & Ho & _ & Hfs). apply Hok; [done..| |done]. intros q Hq.
  rewrite Hfs by (by right). cbn [w_files]. rewrite lookup_insert_ne; [done|]. by intros ->.
Qed.

(** The file goes with a failure. *)
Lemma dropped_wps {A} (e : A) p s : wps (with_temp p (Ret e)) (fun r _ => r = e) s.
Proof. split; [done|]. by intros [] s' _. Qed.

(** A legacy backup is decompressed into a second file. *)
Lemma decompress_wps info file content w :
  unique_ids w -> w_files w !! file = Some content -> (forall json, zstd_decode content = Some json -> came_from R info json) ->
  wps (with_temp file (
         let? json := temp_file deps ".json" in
         let* task := call (DecompressTask file json) in
         match task with
         | Ok (Ok _) => Ret (Ok (info, json))
         | Ok (Err e) => with_temp json (Ret (Err e))
         | Err e => with_temp json (Ret (Err (StorageError ("Decompression task failed: " +:+ e))))
         end)) ready (w, mkOwned false [file]).
Proof.
  intros Hu Hc Hcame. unfold with_temp at 1. apply wp_bind. apply temp_wps.
  - intros e w'. split; [done|]. by intros [] s' _.
  - intros json w1 Hu1 Hne Hf1 _. cbn [held live] in *. cbn [bind trigger]. apply wps_Vis.
    assert (forall e s, wps (with_temp json (Ret (Err e : Result (BackupInfo * path))))
      (fun a s' => wps (let* _ := call (DropTempFile file) in Ret a) ready s') s) as Herr.
    { intros e s. eapply wp_mono; [|apply dropped_wps]. intros r s' ->. split; [done|]. by intros [] s2 _. }
    intros [[[]|e]|e] w2 w3 _ Hs _ Hr; [|apply Herr..]. cbn [obs own port_step bind] in *.
    destruct Hs as (c & j & Hsrc & Hj & ->). rewrite (Hf1 file) in Hsrc by (by left). simplify_eq.
    destruct Hr as (_ & _ & _ & Hf3). apply wps_Vis. intros [] w4 w5 _ -> _ Hr. cbn [obs own held live] in *.
    rewrite drop_path_second in * by (done || set_solver). exists j.
    split_and!; [done| |by apply Hcame]. destruct Hr as (_ & _ & _ & Hf5). cbn [fst]. rewrite (Hf5 json) by (by left).
    cbn [w_files]. rewrite lookup_delete_ne by set_solver. rewrite (Hf3 json) by (by left).
    cbn [w_files]. by rewrite lookup_insert_eq.
Qed.

Lemma download_wps target w : wps (download deps target) ready (w, nothing_owned).
Proof.
  unfold download. eapply wp_bind_2; [apply resolve_wps|]. intros [info|e] [w1 o] (Ho & Hu & Hin); [|done].
  destruct Hin as [Hin Hot]. cbn [fst snd] in *. subst o. apply temp_wps; [done|].
  intros file w2 Hu2 _ _ Ho2. cbn [held live nothing_owned bind trigger].
  apply wps_Vis. intros [[]|e] w3 w4 HR Hs _ Hr; cbn [obs own port_step] in *.
  2:{ eapply wp_mono; [|apply dropped_wps]. by intros r s ->. }
  destruct Hs as [_ Hs]. destruct Hs as (f & Hf & Hid & Hc); [by auto|]. destruct Hr as (Hu4 & _ & _ & Hf4).
  assert (w_files w4 !! file = Some f.2) as Hc4 by (rewrite Hf4 by (by left); done).
  assert (forall content, delivered info f.2 content -> came_from R info content) as Hcame.
  { intros content Hd. split; [done|]. exists w2, f. split_and!; [done..|]. intros Hb. by apply (stored_info w2). }
  case_bool_decide as Hfmt.
  - exists f.2. split_and!; [done..|]. apply Hcame. unfold delivered. by destruct (format info).
  - apply (decompress_wps info file f.2); [done..|]. intros json Hj. apply Hcame.
    unfold delivered. by destruct (format info).
Qed.

(** What an answer carries. *)
Definition answered (r : Reply) (s : World * Owned) : Prop :=
  match r with
  | DownloadReply (Ok (h, file)) => exists info content, h = backup_info info /\
      s.2 = mkOwned false [file] /\ w_files s.1 !! file = Some content /\ came_from R info content
  | _ => True
  end.

Lemma serve_wps req w : wps (serve deps req) answered (w, nothing_owned).
Proof.
  destruct req as [|req|req|req|req|]; unfold serve, map_prog;
    try (by eapply wp_bind_2; [apply wps_any|]). unfold grpc_download_backup.
  destruct (backup_target _) as [t|e]; [|done]. eapply wp_bind_2; [|by intros r s Hr; exact Hr].
  eapply wp_bind_2; [eapply wp_bind_2; [apply download_wps|]|].
  - intros [a|e] s Hr; [|eapply wp_bind_2; [apply wps_any|]; intros st s' _].
    + instantiate (1 := fun r s => match r with Ok a => ready (Ok a) s | Err _ => True end). exact Hr.
    + exact I.
  - intros [[info file]|e] [w1 o] Hr; [|done]. destruct Hr as (c & Ho & Hc & Hcame). cbn [fst snd bind trigger] in *. subst o.
    apply wps_Vis. intros [] w2 w3 _ -> _ (_ & _ & _ & Hf). exists info, c. cbn [fst snd own obs live] in *.
    split_and!; [done..| |done]. by rewrite (Hf file) by (by left).
Qed.

(** ** The invariant *)

Definition thread_answers (t : Thread) (w : World) : Prop :=
  forall w', rely (owns t) w w' -> wps (Concurrency.code t) answered (w', owns t).

Definition flow_ok (w : World) (f : Flow) : Prop :=
  exists info content, flow_header f = backup_info info /\ came_from R info content /\
    stream_inv (flow_header f) content (flow_stream f) /\
    if running f then w_files w !! flow_file f = Some content else phase (flow_stream f) = Finished.

Definition live_files (l : list Flow) : list path := flow_file <$> List.filter running l.

Definition live_inv (L : Live) : Prop :=
  server_inv (srv L) /\
  (forall i t, threads (pool (srv L)) !! i = Some t -> thread_answers t (world (srv L))) /\
  live_files (flows L) ≡ₚ streams (pool (srv L)) /\ NoDup (streams (pool (srv L))) /\
  Forall (flow_ok (world (srv L))) (flows L).

(** What is being streamed stays as it is while the server works. *)
Lemma stream_file_kept S S' p :
  server_inv S -> server_step deps S S' -> p ∈ streams (pool S) ->
  streams (pool S') = streams (pool S) -> w_files (world S') !! p = w_files (world S) !! p.
Proof.
  intros Hinv Hstep Hp Hsame. pose proof Hinv as ((_ & _ & [_ Hf]) & _ & _).
  destruct Hstep as [i req Hi|i T op k s r w' Hi Ha Hs|i reply s Hi|i t w' Hi Hc|l1 q l2 Hst]; try done; cbn [world] in *.
  - destruct (pending_obligation _ _ _ _ _ _ Hinv Hi) as [_ Hal].
    eapply port_step_files; [done|apply Hal|by intros Hl; destruct (Hf _ _ _ Hi Hl)|].
    intros suf Heq. rewrite Heq in Ha. by destruct (proj1 Ha).
  - assert (p ∉ live (owns t)) as Hl by (intros Hl; by destruct (Hf _ _ _ Hi Hl)).
    destruct Hc as [|T op k r w1 Hcode Hext Hs|T op k dst c Hcode Hlate]; destruct t as [code s]; cbn [Concurrency.code owns] in *.
    + by apply remove_files_lookup.
    + subst code. destruct (pending_obligation _ _ _ _ _ _ Hinv Hi) as [_ Hal].
      rewrite remove_files_lookup by done. eapply port_step_files; [done|apply Hal|done|].
      intros suf Heq. by destruct op.
    + subst code. destruct (pending_obligation _ _ _ _ _ _ Hinv Hi) as [_ Hal].
      pose proof (late_output_owned _ _ _ _ Hal Hlate) as Hdst.
      cbn [w_files]. rewrite lookup_insert_ne by (by intros ->). by apply remove_files_lookup.
  - cbn [pool streams] in Hsame. rewrite Hst in Hsame. apply (f_equal length) in Hsame.
    rewrite !length_app in Hsame. simpl in Hsame. lia.
Qed.

Lemma threads_kept S S' :
  R (world S) -> server_inv S -> server_step deps S S' ->
  (forall i t, threads (pool S) !! i = Some t -> thread_answers t (world S)) ->
  forall i t, threads (pool S') !! i = Some t -> thread_answers t (world S').
Proof.
  intros HR Hinv Hstep. pose proof Hinv as (_ & Hu & _).
  apply (server_step_keeps deps thread_answers); [done..| | |].
  - intros req w w' _. apply serve_wps.
  - intros t w w' Ht Hr w2 Hr2. by eapply Ht, rely_trans.
  - intros T op k s r w' Hs Hf _ Ht w2 Hr. destruct (Ht (world S) (rely_refl _ _ Hu)) as [_ Hk].
    apply (Hk r (w2, own s (obs (Ev op r)))). split; [done|]. by exists w'.
Qed.

(** A task that has ended does not read any more. *)
Lemma finished_step h c c' s s' :
  phase s = Finished -> stream_step h c s s' -> stream_step h c' s s' /\ phase s' = Finished.
Proof.
  intros Hph Hstep. destruct Hstep as [s' H1 _|H1|e H1|pos n H1 _ _ _|H1|pos e H1|d pos s' H1 _|st s' H1 _
    |item rest Hb Hrx|Hrx]; try congruence.
  - split; [by eapply StepReceive|done].
  - split; [by apply StepHangUp|done].
Qed.

Lemma flow_ok_kept w w' f :
  flow_ok w f -> (running f = true -> w_files w' !! flow_file f = w_files w !! flow_file f) -> flow_ok w' f.
Proof.
  intros (info & c & Hh & Hc & Hs & Hr) Hk. exists info, c. split_and!; [done..|].
  destruct (running f); [|done]. by rewrite Hk.
Qed.

Lemma live_files_app l k : live_files (l ++ k) = live_files l ++ live_files k.
Proof. unfold live_files. by rewrite List.filter_app, fmap_app. Qed.

Lemma running_elem f l : f ∈ l -> running f = true -> flow_file f ∈ live_files l.
Proof. intros Hf Hr. apply list_elem_of_fmap_2, list_elem_of_In, filter_In. by rewrite <-list_elem_of_In. Qed.

Lemma live_server_inv L S' :
  R (world (srv L)) -> live_inv L -> server_step deps (srv L) S' ->
  server_inv S' /\ forall i t, threads (pool S') !! i = Some t -> thread_answers t (world S').
Proof. intros HR (Hinv & Ht & _) Hs. split; [by eapply server_step_inv|by eapply threads_kept]. Qed.

Lemma download_inv L i h file s :
  R (world (srv L)) -> live_inv L ->
  threads (pool (srv L)) !! i = Some (mkThread (Ret (DownloadReply (Ok (h, file)))) s) ->
  live_inv (mkLive (mkServer (mkPool (delete i (threads (pool (srv L)))) (locked (pool (srv L)))
    (file :: streams (pool (srv L)))) (world (srv L))) (mkFlow h file start true :: flows L)).
Proof.
  intros HR HI Hi. pose proof (SAnswer deps _ _ _ _ Hi) as Hs. apply live_server_inv in Hs as [Hinv' Ht']; [|done..].
  destruct HI as (Hinv & Ht & Hperm & Hnd & Hfl). pose proof Hinv as ((_ & _ & [_ Hf]) & Hu & _).
  destruct (Ht _ _ Hi (world (srv L)) (rely_refl _ _ Hu)) as (info & c & Hh & Ho & Hc & Hcame).
  cbn [snd fst owns] in *. split_and!; cbn [srv pool world streams threads flows]; [done..| | |].
  - unfold live_files. cbn [List.filter running fmap list_fmap flow_file]. by constructor.
  - constructor; [|done]. apply (Hf _ _ _ Hi). cbn [owns]. rewrite Ho. left.
  - constructor; [|done]. exists info, c. split_and!; [done..| |done]. split; [done|]. cbn. lia.
Qed.

Lemma stream_inv_step L l1 f l2 s' :
  live_inv L -> flows L = l1 ++ f :: l2 ->
  stream_step (flow_header f) (disk L (flow_file f)) (flow_stream f) s' ->
  live_inv (mkLive (srv L) (l1 ++ mkFlow (flow_header f) (flow_file f) s' (running f) :: l2)).
Proof.
  intros (Hinv & Ht & Hperm & Hnd & Hfl) Hf Hs. rewrite Hf in *. split_and!; cbn [srv flows]; [done..| |done|].
  - rewrite <-Hperm, !live_files_app. unfold live_files. simpl. by destruct (running f).
  - apply Forall_app in Hfl as [Hl1 Hl2]. apply Forall_cons in Hl2 as [Hok Hl2].
    apply Forall_app. split; [done|]. constructor; [|done].
    destruct Hok as (info & c & Hh & Hc & Hsi & Hr). exists info, c. cbn [flow_header flow_stream flow_file running].
    destruct (running f).
    + unfold disk in Hs. rewrite Hr in Hs. split_and!; [done..|by eapply stream_step_inv|done].
    + destruct (finished_step _ _ c _ _ Hr Hs). split_and!; [done..|by eapply stream_step_inv|done].
Qed.

Lemma stream_end_inv L l1 f l2 a b :
  R (world (srv L)) -> live_inv L -> flows L = l1 ++ f :: l2 -> running f = true ->
  phase (flow_stream f) = Finished -> streams (pool (srv L)) = a ++ flow_file f :: b ->
  live_inv (mkLive (mkServer (mkPool (threads (pool (srv L))) (locked (pool (srv L))) (a ++ b))
    (remove_files [flow_file f] (world (srv L)))) (l1 ++ mkFlow (flow_header f) (flow_file f) (flow_stream f) false :: l2)).
Proof.
  intros HR HI Hf Hr Hph Hst. pose proof (SStreamEnd deps _ _ _ _ Hst) as Hs.
  apply live_server_inv in Hs as [Hinv' Ht']; [|done..].
  destruct HI as (_ & _ & Hperm & Hnd & Hfl). rewrite Hf in *. rewrite Hst in *.
  assert (live_files l1 ++ live_files l2 ≡ₚ a ++ b) as Hperm'.
  { rewrite live_files_app in Hperm. unfold live_files in Hperm at 2. simpl in Hperm. rewrite Hr in Hperm. simpl in Hperm.
    by apply (Permutation_app_inv _ _ _ _ _ Hperm). }
  assert (flow_file f ∉ a ++ b) as Hnot.
  { rewrite <-Permutation_middle in Hnd. by apply NoDup_cons in Hnd as [? _]. }
  apply Forall_app in Hfl as [Hl1 Hl2]. apply Forall_cons in Hl2 as [Hok Hl2].
  assert (forall l g, g ∈ l -> l ∈ [l1; l2] -> flow_ok (world (srv L)) g ->
    flow_ok (remove_files [flow_file f] (world (srv L))) g) as Hkeep.
  { intros l g Hg Hl Hgok. eapply flow_ok_kept; [done|]. intros Hgr. apply remove_files_lookup.
    intros Heq%list_elem_of_singleton. apply Hnot. rewrite <-Hperm', <-Heq, elem_of_app.
    apply elem_of_cons in Hl as [-> | ->%list_elem_of_singleton]; [left|right]; by apply running_elem. }
  rewrite Forall_forall in Hl1, Hl2.
  split_and!; cbn [srv pool world streams threads flows]; [done..| | |].
  - by rewrite live_files_app.
  - rewrite <-Permutation_middle in Hnd. by apply NoDup_cons in Hnd as [_ ?].
  - rewrite Forall_app, Forall_cons, !Forall_forall. split_and!.
    + intros g Hg. apply (Hkeep l1); [done|set_solver|auto].
    + destruct Hok as (info & c & Hh & Hc & Hsi & _). by exists info, c.
    + intros g Hg. apply (Hkeep l2); [done|set_solver|auto].
Qed.

Lemma live_step_inv L L' : R (world (srv L)) -> live_inv L -> live_step L L' -> live_inv L'.
Proof.
  intros HR HI Hstep. destruct Hstep as [S' Hs Hsame|i h file s P Hi|l1 f l2 s' Hf Hs|l1 f l2 a b P Hf Hr Hph Hst].
  - pose proof HI as (Hinv & _ & Hperm & Hnd & Hfl). destruct (live_server_inv _ _ HR HI Hs) as [Hinv' Ht'].
    split_and!; cbn [srv flows]; [done..|by rewrite Hsame|by rewrite Hsame|].
    rewrite Forall_forall in *. intros f Hf. eapply flow_ok_kept; [by apply Hfl|].
    intros Hr. eapply stream_file_kept; [done..| |done]. rewrite <-Hperm. by apply running_elem.
  - by eapply download_inv.
  - by apply stream_inv_step.
  - by apply stream_end_inv.
Qed.

Lemma live_run_inv L L' :
  (forall L1, rtc live_step L L1 -> rtc live_step L1 L' -> R (world (srv L1))) ->
  live_inv L -> rtc live_step L L' -> live_inv L'.
Proof.
  intros HR HI Hr. induction Hr as [L|L L1 L2 Hs Hr IH]; [done|]. apply IH.
  - intros L3 H3. apply HR. by eapply rtc_l.
  - eapply live_step_inv; [|done..]. apply HR; [done|by eapply rtc_l].
Qed.
End Requests.

(** Every stream of a run carries the content of the backup in its header. *)
Lemma flow_of_run w L f :
  unique_ids w -> live_reaches w L -> f ∈ flows L -> flow_ok (passed (live_start w) L) (world (srv L)) f.
Proof.
  intros Hu Hr Hf. assert (live_inv (passed (live_start w) L) L) as (_ & _ & _ & _ & Hfl).
  { apply (live_run_inv _ (live_start w)); [intros L1 H1 H2; by exists L1| |done].
    split; [by apply (server_start deps)|]. split; [|by split_and!; try constructor].
    intros i t Hi. by apply (lookup_empty_Some (M := gmap nat) i t) in Hi. }
  rewrite Forall_forall in Hfl. by apply Hfl.
Qed.

(** A download reaches its client.  Requests run side by side, prune and
    restore, are cut off and fail; whatever they do, a client that has read
    the stream of its download to the end, without an error in it, has the
    header of a backup that was in the storage and exactly the bytes that were
    stored under its id (decompressed for a legacy one). *)
Theorem download_reaches_client w L f :
  unique_ids w -> live_reaches w L -> f ∈ flows L ->
  phase (flow_stream f) = Finished -> rx_open (flow_stream f) = true -> buffer (flow_stream f) = [] ->
  (forall st, Err st ∉ received (flow_stream f)) ->
  exists info chunks, received (flow_stream f) = Ok (PayloadInfo (backup_info info)) :: data_items chunks /\
    came_from (passed (live_start w) L) info (concat chunks).
Proof.
  intros Hu Hr Hf Hph Hrx Hbuf Hok.
  destruct (flow_of_run w L f Hu Hr Hf) as (info & c & Hh & Hc & [Hp _] & _).
  rewrite Hph, Hrx in Hp. unfold sent in Hp. rewrite Hbuf, app_nil_r in Hp.
  destruct Hp as [[? _]|(cs & _ & _ & [[Hi Hall]|(st & _ & Hi)])]; [done| |].
  - exists info, cs. rewrite <-Hh. split; [done|]. by rewrite Hall.
  - exfalso. apply (Hok st). rewrite Hi. set_solver.
Qed.
End Delivery.

(** ** Witness: one download, alone *)

#[local] Existing Instance plain_pg.
#[local] Existing Instance plain_dump.
#[local] Existing Instance plain_fmt.

Lemma stream_small h c :
  c <> [] -> Z.of_nat (length c) <= CHUNK_SIZE ->
  rtc (stream_step h c) start (mkStream Finished [] [Ok (PayloadInfo h); Ok (PayloadData c)] true).
Proof.
  intros Hne Hlen. unfold start. assert (0 < length c)%nat by (destruct c; simpl; [done|lia]).
  stream_go ltac:(by eapply StepHeader; [done|apply SendOk; [done|simpl; unfold STREAM_BUFFER; lia]]).
  stream_go ltac:(by eapply StepReceive). stream_go ltac:(by apply StepOpen).
  stream_go ltac:(by eapply (StepRead _ _ _ 0 (length c))).
  stream_go ltac:(by eapply StepSend; [done|apply SendOk; [done|simpl; unfold STREAM_BUFFER; lia]]).
  stream_go ltac:(by eapply StepReceive). stream_go ltac:(by apply StepEof).
  rewrite drop_0, take_ge by lia. apply rtc_refl.
Qed.

Lemma flow_streams `{PgFormat, RustFmt} deps S h file c s s' r :
  disk (mkLive S []) file = c -> rtc (stream_step h c) s s' ->
  rtc (live_step deps) (mkLive S [mkFlow h file s r]) (mkLive S [mkFlow h file s' r]).
Proof.
  intros <-. apply (rtc_congruence (fun s => mkLive S [mkFlow h file s r])). intros s1 s2 Hs.
  by apply (LStream deps (mkLive S [mkFlow h file s1 r]) [] (mkFlow h file s1 r) [] s2).
Qed.

Lemma alone_live deps req n w S :
  alone n (serve deps req) nothing_owned false w = Some S -> live_reaches deps w (mkLive S []).
Proof.
  intros Hs. eapply rtc_l.
  { apply (LServer deps (live_start w) (one_thread (serve deps req) nothing_owned false w)); [|done].
    apply (one_thread_arrives deps w req). }
  apply (rtc_congruence (R := fun S S' => live_step deps (mkLive S []) (mkLive S' [])) (fun S => mkLive S []));
    [done|].
  eapply alone_reaches; [|exact Hs]. intros T op k s l w1 r w2 Ha Hp.
  by apply (LServer deps (mkLive (one_thread (Vis op k) s l w1) [])); [apply one_thread_call|].
Qed.

Definition download_b1 : Request := DownloadBackup (mkBackupRef (Some (TargetId "b1"))).

(** The file a finished download hands over. *)
Definition handed (S : Server) : option (ProtoInfo * path * Owned) :=
  match threads (pool S) !! 0%nat with
  | Some (mkThread (Ret (DownloadReply (Ok (h, file)))) s) => Some (h, file, s)
  | _ => None
  end.

Definition b1_header : ProtoInfo := backup_info (sample_backup "b1" 1 PgCustom Regular).
Definition b1_dump : bytes := pg_dump_bytes b1_db.
Definition b1_stream : Stream := mkStream Finished [] [Ok (PayloadInfo b1_header); Ok (PayloadData b1_dump)] true.

Lemma b1_dump_small : b1_dump <> [] /\ Z.of_nat (length b1_dump) <= CHUNK_SIZE.
Proof.
  split; [|vm_compute; discriminate]. apply (bool_decide_unpack (b1_dump <> [])). vm_compute. exact I.
Qed.

Definition b1_run : option Server :=
  alone 10 (serve (sample_deps None) download_b1) nothing_owned false sample_world.

Lemma b1_run_handed :
  match b1_run with
  | Some srv1 =>
      match handed srv1 with
      | Some (h, file, _) => h = b1_header /\ w_files (world srv1) !! file = Some b1_dump
      | None => False
      end
  | None => False
  end.
Proof. vm_compute. split; reflexivity. Qed.

Lemma data_items_inj cs cs' : data_items cs = data_items cs' -> cs = cs'.
Proof.
  revert cs'. induction cs as [|d cs IH]; intros [|d' cs']; try done. cbn. intros [= -> Hcs]. by rewrite (IH cs').
Qed.

(** The download of [b1] runs to its end. *)
Lemma b1_downloaded :
  exists L file, live_reaches (sample_deps None) sample_world L /\ flows L = [mkFlow b1_header file b1_stream true].
Proof.
  pose proof b1_run_handed as Hh. destruct b1_run as [S|] eqn:HS; [|destruct Hh].
  destruct (handed S) as [[[h file] s]|] eqn:Hs; [|destruct Hh]. destruct Hh as [-> Hc].
  unfold handed in Hs. destruct (threads (pool S) !! 0%nat) as [[[reply|] o]|] eqn:Ht; try discriminate Hs.
  destruct reply as [| |[[h' file']|]| |]; try discriminate Hs. injection Hs as -> -> ->.
  set (S' := mkServer (mkPool (delete 0%nat (threads (pool S))) (locked (pool S)) (file :: streams (pool S))) (world S)).
  exists (mkLive S' [mkFlow b1_header file b1_stream true]), file. split; [|done].
  unfold live_reaches. etrans; [by eapply alone_live|].
  eapply rtc_l; [by apply (LDownload _ (mkLive S []) 0 b1_header file s)|]. eapply flow_streams; [|by apply stream_small; apply b1_dump_small].
  exact (f_equal (default ([] : bytes)) Hc).
Qed.

Lemma download_reaches_client_witness :
  exists info chunks, p_id (backup_info info) = "b1"%string /\ concat chunks = b1_dump /\
    exists L, came_from (passed (sample_deps None) (live_start sample_world) L) info (concat chunks).
Proof.
  destruct b1_downloaded as (L & file & Hr & Hf).
  destruct (download_reaches_client (sample_deps None) sample_world L (mkFlow b1_header file b1_stream true) sample_ids Hr)
    as (info & chunks & Hrec & Hcame); [rewrite Hf; by left|done..| |].
  { intros st [?|[?|?%not_elem_of_nil]%elem_of_cons]%elem_of_cons; done. }
  cbn [flow_stream b1_stream received] in Hrec. remember b1_header as h eqn:Hb in Hrec. injection Hrec as Hh Hrec.
  exists info, chunks.
  apply (data_items_inj [b1_dump]) in Hrec as <-.
  split_and!; [by rewrite <-Hh, Hb|apply app_nil_r|]. by eexists.
Defined.
