(* ===== verification/Prost.v ===== *)
(** * [prost]: the Protobuf wire format

    Varints, field keys, scalars, strings, byte strings and nested messages,
    as in [encoding.rs] and [encoding/varint.rs], and what a message offers
    ([Message]).  A buffer is the list of its remaining bytes; what the code
    reads from it, it returns with the bytes that are left.  The lemmas show
    that every encoder is read back by its decoder, and that decoding ends by
    itself. *)

From Stdlib Require Import ZArith Lia Ascii.
From stdpp Require Import base numbers strings list relations.
From S2P Require Import Prelude RustStd Utf8.
Open Scope Z_scope.
Open Scope rust_scope.

(** ** Errors *)

Inductive WireType := Varint | SixtyFourBit | LengthDelimited | StartGroup | EndGroup | ThirtyTwoBit.

#[global] Instance WireType_eq_dec : EqDecision WireType.
Proof. solve_decision. Defined.

Inductive DecodeErrorKind :=
| InvalidVarint
| RecursionLimitReached
| InvalidWireType (value : Z)
| InvalidKey (key : Z)
| InvalidTag
| UnexpectedWireType (actual expected : WireType)
| BufferUnderflow
| DelimitedLengthExceeded
| UnexpectedEndGroupTag
| InvalidString.

(** The cause, and the messages and fields it was found in, innermost first. *)
Record DecodeError := mkDecodeError { description : DecodeErrorKind; stack : list (string * string) }.

Definition decode_error {A} (k : DecodeErrorKind) : result A DecodeError := Err (mkDecodeError k []).

Definition DecodeError_push (message field : string) (e : DecodeError) : DecodeError :=
  mkDecodeError (description e) (stack e ++ [(message, field)]).

Definition WireType_debug (w : WireType) : string :=
  match w with
  | Varint => "Varint" | SixtyFourBit => "SixtyFourBit" | LengthDelimited => "LengthDelimited"
  | StartGroup => "StartGroup" | EndGroup => "EndGroup" | ThirtyTwoBit => "ThirtyTwoBit"
  end.

Definition DecodeErrorKind_display (k : DecodeErrorKind) : string :=
  match k with
  | InvalidVarint => "invalid varint"
  | RecursionLimitReached => "recursion limit reached"
  | InvalidWireType value => "invalid wire type value: " +:+ int_to_string value
  | InvalidKey key => "invalid key value: " +:+ int_to_string key
  | InvalidTag => "invalid tag value: 0"
  | UnexpectedWireType actual expected =>
      "invalid wire type: " +:+ WireType_debug actual +:+ " (expected " +:+ WireType_debug expected +:+ ")"
  | BufferUnderflow => "buffer underflow"
  | DelimitedLengthExceeded => "delimited length exceeded"
  | UnexpectedEndGroupTag => "unexpected end group tag"
  | InvalidString => "invalid string value: data is not UTF-8 encoded"
  end.

Definition DecodeError_display (e : DecodeError) : string :=
  "failed to decode Protobuf message: " +:+
  foldr (fun mf acc => mf.1 +:+ "." +:+ mf.2 +:+ ": " +:+ acc) (DecodeErrorKind_display (description e)) (stack e).

Abbreviation read A := (result (A * bytes) DecodeError).

(** ** Varints *)

(** The loop of [encode_varint]. *)
Fixpoint encode_varint_loop (n : nat) (value : Z) : bytes :=
  match n with
  | O => []
  | S n =>
      if value <? 0x80 then [chr value]
      else chr (Z.lor (Z.land value 0x7F) 0x80) :: encode_varint_loop n (Z.shiftr value 7)
  end.
Definition encode_varint (value : Z) : bytes := encode_varint_loop 10 value.

Definition encoded_len_varint (value : Z) : Z :=
  let log2value := Z.log2 (Z.lor value 1) in (log2value * 9 + (64 + 9)) / 64.

(** The loop of [decode_varint_slow], on [u64]. *)
Fixpoint decode_varint_loop (n : nat) (count value : Z) (l : bytes) : read Z :=
  match n, l with
  | S n, c :: l =>
      let byte := code c in
      let value := Z.lor value (Z.shiftl (Z.land byte 0x7F) (count * 7) mod (U64_MAX + 1)) in
      if byte <=? 0x7F then
        if (count =? 9) && (0x02 <=? byte) then decode_error InvalidVarint else Ok (value, l)
      else decode_varint_loop n (count + 1) value l
  | _, _ => decode_error InvalidVarint
  end.
Definition decode_varint_slow (l : bytes) : read Z := decode_varint_loop (10 `min` length l) 0 0 l.

(** The unrolled loop, on three parts of 32 bits; [get_unchecked] is within the
    slice under the caller's guard. *)
Definition decode_varint_slice (l : bytes) : result (Z * nat) DecodeError :=
  let b := safe_get l 0 in
  let part0 := b in
  if b <? 0x80 then Ok (part0, 1%nat) else
  let part0 := part0 - 0x80 in
  let b := safe_get l 1 in
  let part0 := part0 + Z.shiftl b 7 in
  if b <? 0x80 then Ok (part0, 2%nat) else
  let part0 := part0 - Z.shiftl 0x80 7 in
  let b := safe_get l 2 in
  let part0 := part0 + Z.shiftl b 14 in
  if b <? 0x80 then Ok (part0, 3%nat) else
  let part0 := part0 - Z.shiftl 0x80 14 in
  let b := safe_get l 3 in
  let part0 := part0 + Z.shiftl b 21 in
  if b <? 0x80 then Ok (part0, 4%nat) else
  let part0 := part0 - Z.shiftl 0x80 21 in
  let value := part0 in
  let b := safe_get l 4 in
  let part1 := b in
  if b <? 0x80 then Ok (value + Z.shiftl part1 28, 5%nat) else
  let part1 := part1 - 0x80 in
  let b := safe_get l 5 in
  let part1 := part1 + Z.shiftl b 7 in
  if b <? 0x80 then Ok (value + Z.shiftl part1 28, 6%nat) else
  let part1 := part1 - Z.shiftl 0x80 7 in
  let b := safe_get l 6 in
  let part1 := part1 + Z.shiftl b 14 in
  if b <? 0x80 then Ok (value + Z.shiftl part1 28, 7%nat) else
  let part1 := part1 - Z.shiftl 0x80 14 in
  let b := safe_get l 7 in
  let part1 := part1 + Z.shiftl b 21 in
  if b <? 0x80 then Ok (value + Z.shiftl part1 28, 8%nat) else
  let part1 := part1 - Z.shiftl 0x80 21 in
  let value := value + Z.shiftl part1 28 in
  let b := safe_get l 8 in
  let part2 := b in
  if b <? 0x80 then Ok (value + Z.shiftl part2 56, 9%nat) else
  let part2 := part2 - 0x80 in
  let b := safe_get l 9 in
  let part2 := part2 + Z.shiftl b 7 in
  if b <? 0x02 then Ok (value + Z.shiftl part2 56, 10%nat) else decode_error InvalidVarint.

Definition decode_varint (l : bytes) : read Z :=
  match l with
  | [] => decode_error InvalidVarint
  | byte :: rest =>
      if code byte <? 0x80 then Ok (code byte, rest)
      else if (10 <? length l)%nat || (safe_get l (length l - 1) <? 0x80) then
        try (value, advance) := decode_varint_slice l in Ok (value, drop advance l)
      else decode_varint_slow l
  end.

(** *** The unrolled decoder is the loop *)

Lemma lor_shiftl value x n : 0 <= n -> 0 <= value < 2 ^ n -> Z.lor value (Z.shiftl x n) = value + x * 2 ^ n.
Proof.
  intros Hn Hv. rewrite Z.shiftl_mul_pow2 by lia.
  assert (Z.land value (x * 2 ^ n) = 0) as Hland.
  { apply Z.bits_inj'. intros i Hi. rewrite Z.land_spec, Z.bits_0, Z.mul_pow2_bits by lia.
    destruct (decide (i < n)); [by rewrite (Z.testbit_neg_r x (i - n)), andb_false_r by lia|].
    rewrite <-(Z.mod_small value (2 ^ n)) by lia. by rewrite Z.mod_pow2_bits_high by lia. }
  rewrite Z.add_nocarry_lxor by done. by rewrite Z.lxor_lor.
Qed.

Lemma low_bits b : 0 <= b <= 255 -> Z.land b 0x7F = b mod 128.
Proof. intros _. change 0x7F with (Z.ones 7). by rewrite Z.land_ones. Qed.

Lemma decode_varint_loop_step n count value c l :
  0 <= count <= 8 -> 0 <= value < 2 ^ (7 * count) ->
  decode_varint_loop (S n) count value (c :: l) =
    if code c <? 128 then Ok (value + code c * 2 ^ (7 * count), l)
    else decode_varint_loop n (count + 1) (value + (code c - 128) * 2 ^ (7 * count)) l.
Proof.
  intros Hc Hv. pose proof (code_range c) as Hb. cbn [decode_varint_loop].
  rewrite low_bits by done. replace (count * 7) with (7 * count) by lia.
  assert (0 <= code c mod 128 < 128) as Hm by (apply Z.mod_pos_bound; lia).
  assert (0 < 2 ^ (7 * count) <= 2 ^ 56) as Hp.
  { split; [by apply Z.pow_pos_nonneg; lia|]. apply Z.pow_le_mono_r; lia. }
  rewrite Z.mod_small.
  2:{ rewrite Z.shiftl_mul_pow2 by lia. unfold U64_MAX. change (2 ^ 56) with 72057594037927936 in Hp. nia. }
  rewrite lor_shiftl by lia. replace (count =? 9) with false by lia. cbn [andb].
  destruct (Z.leb_spec (code c) 127).
  - replace (code c <? 128) with true by lia. by rewrite Z.mod_small by lia.
  - replace (code c <? 128) with false by lia. do 2 f_equal.
    rewrite (Z.mod_eq (code c) 128) by lia. replace (code c / 128) with 1 by (Z.to_euclidean_division_equations; lia). lia.
Qed.

Lemma decode_varint_loop_last n value c l :
  0 <= value < 2 ^ 63 ->
  decode_varint_loop (S n) 9 value (c :: l) =
    if code c <? 128 then if code c <? 2 then Ok (value + code c * 2 ^ 63, l) else decode_error InvalidVarint
    else decode_varint_loop n 10 (Z.lor value (Z.shiftl (Z.land (code c) 0x7F) (9 * 7) mod (U64_MAX + 1))) l.
Proof.
  intros Hv. pose proof (code_range c) as Hb. cbn [decode_varint_loop].
  change (9 + 1) with 10. change (9 =? 9) with true. cbn [andb].
  destruct (Z.leb_spec (code c) 127); [|by replace (code c <? 128) with false by lia].
  replace (code c <? 128) with true by lia. destruct (Z.leb_spec 2 (code c)).
  - by replace (code c <? 2) with false by lia.
  - replace (code c <? 2) with true by lia. rewrite low_bits, (Z.mod_small _ 128) by lia.
    change (9 * 7) with 63. rewrite Z.mod_small, lor_shiftl by (try rewrite Z.shiftl_mul_pow2; unfold U64_MAX; lia).
    done.
Qed.

Lemma decode_varint_loop_min n count value l :
  decode_varint_loop (n `min` length l) count value l = decode_varint_loop n count value l.
Proof.
  revert count value l. induction n as [|n IH]; intros count value [|c l]; try done.
  cbn [length Nat.min decode_varint_loop]. by rewrite IH.
Qed.

(** The next byte of both decoders, when the bytes so far all continue. *)
Ltac varint_byte l :=
  let c := fresh "c" in
  destruct l as [|c l];
  [exfalso; cbn in *; lia|
   pose proof (code_range c);
   first [rewrite decode_varint_loop_step by lia | rewrite decode_varint_loop_last by lia];
   cbn [lookup list_lookup from_option];
   destruct (Z.ltb_spec (code c) 128); [cbn [drop]; do 2 f_equal; lia|]].

(** The unrolled decoder and the loop agree on every input that the guard of
    the caller lets through. *)
Lemma decode_varint_slice_loop l :
  l <> [] -> (10 < length l)%nat \/ safe_get l (length l - 1) < 128 ->
  (try (value, advance) := decode_varint_slice l in Ok (value, drop advance l)) = decode_varint_loop 10 0 0 l.
Proof.
  intros Hne Hguard. unfold decode_varint_slice. rewrite !Z.shiftl_mul_pow2 by done. unfold safe_get in *.
  destruct l as [|c l]; [done|]. pose proof (code_range c). rewrite decode_varint_loop_step by lia.
  cbn [lookup list_lookup from_option]. destruct (Z.ltb_spec (code c) 128); [cbn [drop]; do 2 f_equal; lia|].
  do 8 varint_byte l. destruct l as [|d l]; [exfalso; cbn in *; lia|]. pose proof (code_range d).
  rewrite decode_varint_loop_last by lia. cbn [lookup list_lookup from_option decode_varint_loop].
  destruct (Z.ltb_spec (code d) 2).
  - replace (code d <? 128) with true by lia. cbn [drop]. do 2 f_equal. lia.
  - by destruct (code d <? 128), l.
Qed.

Lemma decode_varint_loop_eq l : decode_varint l = decode_varint_loop 10 0 0 l.
Proof.
  destruct l as [|c l]; [done|]. pose proof (code_range c). unfold decode_varint.
  destruct (Z.ltb_spec (code c) 128).
  { rewrite decode_varint_loop_step by lia. replace (code c <? 128) with true by lia. do 2 f_equal. lia. }
  destruct (_ || _) eqn:Hguard.
  - rewrite orb_true_iff, Nat.ltb_lt, Z.ltb_lt in Hguard. by apply decode_varint_slice_loop.
  - apply decode_varint_loop_min.
Qed.

(** C24. The fast varint decoder is the plain one: whatever the bytes, the
    shortcut for one byte, the unrolled decoder in 32-bit parts and the choice
    between them give the value, the rest and the errors of the loop that takes
    seven bits at a time, at most ten times, and checks for overflow. *)
Theorem decode_varint_is_slow l : decode_varint l = decode_varint_slow l.
Proof. unfold decode_varint_slow. by rewrite decode_varint_loop_min, decode_varint_loop_eq. Qed.

(** *** Varints read back *)

Lemma encode_varint_step n v :
  0 <= v -> encode_varint_loop (S n) v =
    if v <? 128 then [chr v] else chr (v mod 128 + 128) :: encode_varint_loop n (v / 128).
Proof.
  intros Hv. cbn [encode_varint_loop]. destruct (_ <? _); [done|]. rewrite Z.shiftr_div_pow2 by lia. do 2 f_equal.
  change 0x7F with (Z.ones 7). rewrite Z.land_ones by lia. change 0x80 with (Z.shiftl 1 7).
  pose proof (Z.mod_pos_bound v (2 ^ 7) eq_refl). by rewrite lor_shiftl by lia.
Qed.

Lemma decode_encode_loop n count value v rest :
  Z.of_nat n + count = 10 -> 0 <= count <= 9 -> 0 <= value < 2 ^ (7 * count) -> 0 <= v < 2 ^ (64 - 7 * count) ->
  decode_varint_loop n count value (encode_varint_loop n v ++ rest) = Ok (value + v * 2 ^ (7 * count), rest).
Proof.
  revert count value v. induction n as [|n IH]; intros count value v Hn Hc Hval Hv; [lia|].
  rewrite encode_varint_step by lia. destruct (Z.eq_dec count 9) as [->|].
  - change (2 ^ (64 - 7 * 9)) with 2 in Hv. replace (v <? 128) with true by lia. cbn [app].
    rewrite decode_varint_loop_last by done. rewrite code_chr by lia.
    replace (v <? 128) with true by lia. by replace (v <? 2) with true by lia.
  - destruct (Z.ltb_spec v 128); cbn [app]; rewrite decode_varint_loop_step by lia.
    + rewrite code_chr by lia. by replace (v <? 128) with true by lia.
    + pose proof (Z.mod_pos_bound v 128 eq_refl). rewrite code_chr by lia.
      replace (v mod 128 + 128 <? 128) with false by lia.
      assert (2 ^ (7 * (count + 1)) = 128 * 2 ^ (7 * count)) as Hp.
      { replace (7 * (count + 1)) with (7 + 7 * count) by lia. by rewrite Z.pow_add_r by lia. }
      assert (2 ^ (64 - 7 * count) = 128 * 2 ^ (64 - 7 * (count + 1))) as Hq.
      { replace (64 - 7 * count) with (7 + (64 - 7 * (count + 1))) by lia. by rewrite Z.pow_add_r by lia. }
      rewrite IH; [|lia|lia|nia|].
      * do 2 f_equal. rewrite Hp. pose proof (Z.div_mod v 128). nia.
      * split; [apply Z.div_pos; lia|]. apply Z.div_lt_upper_bound; lia.
Qed.

Lemma decode_encode_varint v rest : 0 <= v <= U64_MAX -> decode_varint (encode_varint v ++ rest) = Ok (v, rest).
Proof.
  intros Hv. unfold U64_MAX in Hv. rewrite decode_varint_loop_eq. unfold encode_varint.
  rewrite (decode_encode_loop 10 0 0) by lia. do 2 f_equal. lia.
Qed.

Lemma encode_varint_length n v :
  (0 < n)%nat -> 0 < v < 2 ^ (7 * Z.of_nat n) -> Z.of_nat (length (encode_varint_loop n v)) = Z.log2 v / 7 + 1.
Proof.
  revert v. induction n as [|n IH]; intros v Hn Hv; [lia|]. rewrite encode_varint_step by lia.
  destruct (Z.ltb_spec v 128).
  - rewrite Z.div_small; [done|]. split; [apply Z.log2_nonneg|]. by apply (Z.log2_lt_pow2 v 7); lia.
  - assert (1 <= v / 128) by (apply Z.div_le_lower_bound; lia).
    assert (Z.log2 (v / 128) = Z.log2 v - 7) as Hlog.
    { change 128 with (2 ^ 7). rewrite <-Z.shiftr_div_pow2, Z.log2_shiftr by lia.
      assert (7 <= Z.log2 v) by (apply (Z.log2_le_pow2 v 7); lia). lia. }
    destruct n as [|n]; [cbn in Hv; lia|].
    cbn [length]. rewrite Nat2Z.inj_succ, IH; [|lia|].
    + rewrite Hlog. replace (Z.log2 v) with (Z.log2 v - 7 + 1 * 7) at 2 by lia. rewrite Z.div_add by done. lia.
    + split; [lia|]. apply Z.div_lt_upper_bound; [lia|].
      replace (7 * Z.of_nat (S (S n))) with (7 + 7 * Z.of_nat (S n)) in Hv by lia. rewrite Z.pow_add_r in Hv by lia. lia.
Qed.

(** [encoded_len_varint] computes the length without a loop. *)
Lemma encoded_len_varint_ok v : 0 <= v <= U64_MAX -> encoded_len_varint v = Z.of_nat (length (encode_varint v)).
Proof.
  intros Hv. unfold U64_MAX in Hv. unfold encoded_len_varint, encode_varint.
  destruct (Z.eq_dec v 0) as [->|Hne]; [done|].
  rewrite encode_varint_length by (change (7 * Z.of_nat 10) with 70; lia).
  assert (Z.log2 (Z.lor v 1) = Z.log2 v) as ->.
  { rewrite Z.log2_lor by lia. change (Z.log2 1) with 0. pose proof (Z.log2_nonneg v). lia. }
  assert (0 <= Z.log2 v < 64) as Hl.
  { split; [apply Z.log2_nonneg|]. apply Z.log2_lt_pow2; lia. }
  apply Z.eqb_eq. by apply (forallb_range (fun k => (k * 9 + (64 + 9)) / 64 =? k / 7 + 1) 0 64).
Qed.

Lemma encode_varint_nonempty v : encode_varint v <> [].
Proof. unfold encode_varint. cbn [encode_varint_loop]. by destruct (_ <? _). Qed.

Lemma lor_range n a b : 0 <= n -> 0 <= a < 2 ^ n -> 0 <= b < 2 ^ n -> 0 <= Z.lor a b < 2 ^ n.
Proof.
  intros Hn Ha Hb. split; [apply Z.lor_nonneg; lia|].
  assert (Z.lor a b = Z.lor a b mod 2 ^ n) as ->; [|apply Z.mod_pos_bound; lia].
  rewrite <-Z.land_ones, Z.land_lor_distr_l, !Z.land_ones by lia. by rewrite !Z.mod_small by lia.
Qed.

Lemma decode_varint_loop_inv n count value l v l' :
  0 <= value <= U64_MAX -> decode_varint_loop n count value l = Ok (v, l') ->
  0 <= v <= U64_MAX /\ (length l' < length l)%nat.
Proof.
  revert count value l. induction n as [|n IH]; intros count value [|c l] Hv; try done. cbn [decode_varint_loop length].
  match goal with |- context [Z.lor value ?x] => assert (0 <= Z.lor value x <= U64_MAX) end.
  { unfold U64_MAX in *. change (18446744073709551615 + 1) with (2 ^ 64).
    match goal with |- context [Z.lor value ?x] => pose proof (lor_range 64 value x) as Hr end.
    specialize (Hr ltac:(lia) ltac:(lia) ltac:(apply Z.mod_pos_bound; lia)). lia. }
  repeat case_match; try done; [intros [= <- <-]; split; [done|lia]|].
  intros Hl. apply IH in Hl; [|done]. split; [apply Hl|lia].
Qed.

Lemma decode_varint_inv l v l' : decode_varint l = Ok (v, l') -> 0 <= v <= U64_MAX /\ (length l' < length l)%nat.
Proof. rewrite decode_varint_loop_eq. by apply decode_varint_loop_inv. Qed.

(** ** Keys *)

Definition wire_value (w : WireType) : Z :=
  match w with
  | Varint => 0 | SixtyFourBit => 1 | LengthDelimited => 2 | StartGroup => 3 | EndGroup => 4 | ThirtyTwoBit => 5
  end.

(** [WireType::try_from]. *)
Definition wire_type_of (value : Z) : result WireType DecodeError :=
  match value with
  | 0 => Ok Varint | 1 => Ok SixtyFourBit | 2 => Ok LengthDelimited | 3 => Ok StartGroup | 4 => Ok EndGroup
  | 5 => Ok ThirtyTwoBit | _ => decode_error (InvalidWireType value)
  end.

Definition check_wire_type (expected actual : WireType) : result unit DecodeError :=
  if bool_decide (expected = actual) then Ok tt else decode_error (UnexpectedWireType actual expected).

Definition MIN_TAG : Z := 1.
Definition MAX_TAG : Z := Z.shiftl 1 29 - 1.

Definition encode_key (tag : Z) (w : WireType) : bytes :=
  encode_varint (Z.lor (Z.shiftl tag 3) (wire_value w)).

Definition decode_key (l : bytes) : read (Z * WireType) :=
  try (key, l) := decode_varint l in
  if U32_MAX <? key then decode_error (InvalidKey key) else
  try w := wire_type_of (Z.land key 0x07) in
  let tag := Z.shiftr key 3 in
  if tag <? MIN_TAG then decode_error InvalidTag else Ok ((tag, w), l).

Definition key_len (tag : Z) : Z := encoded_len_varint (Z.shiftl tag 3).

(** ** Loops over a buffer *)

Definition remaining (l : bytes) : Z := Z.of_nat (length l).

(** [while buf.remaining() > limit]; every round takes at least a byte, so that
    the length of the buffer is enough fuel. *)
Fixpoint merge_while {T} (merge : T -> bytes -> read T) (fuel : nat) (limit : Z) (value : T) (l : bytes) : read T :=
  if limit <? remaining l then
    match fuel with
    | O => decode_error BufferUnderflow
    | S fuel => try (value, l) := merge value l in merge_while merge fuel limit value l
    end
  else Ok (value, l).

Definition merge_loop {T} (merge : T -> bytes -> read T) (value : T) (l : bytes) : read T :=
  try (len, l) := decode_varint l in
  if remaining l <? len then decode_error BufferUnderflow else
  let limit := remaining l - len in
  try (value, l) := merge_while merge (length l) limit value l in
  if remaining l =? limit then Ok (value, l) else decode_error DelimitedLengthExceeded.

(** The fields of a group, up to its end; the same fuel. *)
Fixpoint skip_group (skip : WireType -> Z -> bytes -> result bytes DecodeError) (fuel : nat) (tag : Z) (l : bytes)
    : result bytes DecodeError :=
  match fuel with
  | O => decode_error InvalidVarint
  | S fuel =>
      try ((inner_tag, inner_wire_type), l) := decode_key l in
      match inner_wire_type with
      | EndGroup => if inner_tag =? tag then Ok l else decode_error UnexpectedEndGroupTag
      | _ => try l := skip inner_wire_type inner_tag l in skip_group skip fuel tag l
      end
  end.

(** [recurse_count] is what is left of the recursion limit. *)
Fixpoint skip_field (recurse_count : nat) (w : WireType) (tag : Z) (l : bytes) : result bytes DecodeError :=
  match recurse_count with
  | O => decode_error RecursionLimitReached
  | S recurse_count =>
      try (len, l) :=
        match w with
        | Varint => try (_, l) := decode_varint l in Ok (0, l)
        | ThirtyTwoBit => Ok (4, l)
        | SixtyFourBit => Ok (8, l)
        | LengthDelimited => decode_varint l
        | StartGroup => try l := skip_group (skip_field recurse_count) (S (length l)) tag l in Ok (0, l)
        | EndGroup => decode_error UnexpectedEndGroupTag
        end in
      if remaining l <? len then decode_error BufferUnderflow else Ok (drop (Z.to_nat len) l)
  end.

Definition RECURSION_LIMIT : nat := 100.

(** ** Values of one field *)

(** A module of [encoding.rs] for a scalar type: its wire type, what [encode]
    puts after the key, the length of that, and what [merge] reads. *)
Record Scalar (A : Type) := mkScalar {
  s_wire : WireType;
  s_body : A -> bytes;
  s_body_len : A -> Z;
  s_read : bytes -> read A;
  s_default : A;
}.
Arguments mkScalar {A} _ _ _ _ _.
Arguments s_wire {A} _.
Arguments s_body {A} _ _.
Arguments s_body_len {A} _ _.
Arguments s_read {A} _ _.
Arguments s_default {A} _.

Definition scalar_encode {A} (c : Scalar A) (tag : Z) (value : A) : bytes :=
  encode_key tag (s_wire c) ++ s_body c value.
Definition scalar_merge {A} (c : Scalar A) (w : WireType) (l : bytes) : read A :=
  try _ := check_wire_type (s_wire c) w in s_read c l.
Definition scalar_len {A} (c : Scalar A) (tag : Z) (value : A) : Z := key_len tag + s_body_len c value.

(** The macro [varint!]. *)
Definition varint {A} (to_uint64 : A -> Z) (from_uint64 : Z -> A) (d : A) : Scalar A :=
  mkScalar Varint (fun v => encode_varint (to_uint64 v)) (fun v => encoded_len_varint (to_uint64 v))
    (fun l => try (v, l) := decode_varint l in Ok (from_uint64 v, l)) d.

(** [as u64] of a signed integer, and the casts to narrower ones. *)
Definition to_u64 (z : Z) : Z := z mod (U64_MAX + 1).
Definition as_u32 (z : Z) : Z := z mod (U32_MAX + 1).
Definition as_signed (bits z : Z) : Z := let z := z mod 2 ^ bits in if z <? 2 ^ (bits - 1) then z else z - 2 ^ bits.

Definition bool_ : Scalar bool := varint (fun b : bool => if b then 1 else 0) (fun v => negb (v =? 0)) false.
Definition int32 : Scalar Z := varint to_u64 (as_signed 32) 0.
Definition int64 : Scalar Z := varint to_u64 (as_signed 64) 0.
Definition uint32 : Scalar Z := varint id as_u32 0.
Definition uint64 : Scalar Z := varint id id 0.

(** [bytes::merge] and [merge_one_copy]. *)
Definition bytes_read (l : bytes) : read bytes :=
  try (len, l) := decode_varint l in
  if remaining l <? len then decode_error BufferUnderflow
  else Ok (take (Z.to_nat len) l, drop (Z.to_nat len) l).

Definition bytes_ : Scalar bytes :=
  mkScalar LengthDelimited (fun b => encode_varint (remaining b) ++ b)
    (fun b => encoded_len_varint (remaining b) + remaining b) bytes_read [].

Definition string_ : Scalar string :=
  mkScalar LengthDelimited (fun s => encode_varint (remaining (chars s)) ++ chars s)
    (fun s => encoded_len_varint (remaining (chars s)) + remaining (chars s))
    (fun l => try (b, l) := bytes_read l in
              if utf8_valid b then Ok (of_chars b, l) else decode_error InvalidString) "".

(** ** Messages *)

Class Message (M : Type) := {
  message_default : M;
  encode_raw : M -> bytes;
  encoded_len : M -> Z;
  merge_field : nat -> M -> Z -> WireType -> bytes -> read M;
}.

Section Message.
Context {M} `{Message M}.

(** [decode_key] and [merge_field]. *)
Definition merge_one (recurse_count : nat) (m : M) (l : bytes) : read M :=
  try ((tag, w), l) := decode_key l in merge_field recurse_count m tag w l.

Definition message_encode (tag : Z) (m : M) : bytes :=
  encode_key tag LengthDelimited ++ encode_varint (encoded_len m) ++ encode_raw m.

Definition message_merge (recurse_count : nat) (w : WireType) (m : M) (l : bytes) : read M :=
  try _ := check_wire_type LengthDelimited w in
  match recurse_count with
  | O => decode_error RecursionLimitReached
  | S recurse_count => merge_loop (merge_one recurse_count) m l
  end.

Definition message_len (tag : Z) (m : M) : Z :=
  let len := encoded_len m in key_len tag + encoded_len_varint len + len.

Definition encode_to_vec (m : M) : bytes := encode_raw m.

Definition decode (l : bytes) : result M DecodeError :=
  try (m, _) := merge_while (merge_one RECURSION_LIMIT) (length l) 0 message_default l in Ok m.

(** *** The templates of [prost-derive] for a field that is a message *)

Definition optional_message_encode (tag : Z) (o : option M) : bytes := from_option (message_encode tag) [] o.
Definition optional_message_len (tag : Z) (o : option M) : Z := from_option (message_len tag) 0 o.
Definition optional_message_merge (recurse_count : nat) (w : WireType) (o : option M) (l : bytes) : read (option M) :=
  try (m, l) := message_merge recurse_count w (default message_default o) l in Ok (Some m, l).

Definition repeated_message_encode (tag : Z) (ms : list M) : bytes := concat (message_encode tag <$> ms).
Definition repeated_message_len (tag : Z) (ms : list M) : Z :=
  key_len tag * Z.of_nat (length ms) +
  foldr (fun m acc => encoded_len m + encoded_len_varint (encoded_len m) + acc) 0 ms.
Definition repeated_message_merge (recurse_count : nat) (w : WireType) (ms : list M) (l : bytes) : read (list M) :=
  try _ := check_wire_type LengthDelimited w in
  try (m, l) := message_merge recurse_count LengthDelimited message_default l in Ok (ms ++ [m], l).
End Message.

Arguments message_merge : simpl never.
Arguments optional_message_merge : simpl never.
Arguments repeated_message_merge : simpl never.

Lemma optional_message_merge_none {M} `{Message M} n w l (f : M) l' :
  message_merge n w message_default l = Ok (f, l') -> optional_message_merge n w None l = Ok (Some f, l').
Proof. intros Hm. unfold optional_message_merge. simpl. by rewrite Hm. Qed.

(** The templates for a scalar: a plain field is left out at its default. *)
Definition plain_encode {A} `{EqDecision A} (c : Scalar A) (tag : Z) (v : A) : bytes :=
  if bool_decide (v = s_default c) then [] else scalar_encode c tag v.
Definition plain_len {A} `{EqDecision A} (c : Scalar A) (tag : Z) (v : A) : Z :=
  if bool_decide (v = s_default c) then 0 else scalar_len c tag v.
Definition optional_encode {A} (c : Scalar A) (tag : Z) (o : option A) : bytes := from_option (scalar_encode c tag) [] o.
Definition optional_len {A} (c : Scalar A) (tag : Z) (o : option A) : Z := from_option (scalar_len c tag) 0 o.

(** What [merge_field] does with the result of a field. *)
Definition in_field {A B} (message field : string) (set : A -> B) (r : read A) : read B :=
  match r with
  | Ok (a, l) => Ok (set a, l)
  | Err e => Err (DecodeError_push message field e)
  end.

(** ** Reading back *)

Definition tag_ok (tag : Z) : Prop := MIN_TAG <= tag <= MAX_TAG.

Lemma key_split tag w :
  tag_ok tag -> let key := Z.lor (Z.shiftl tag 3) (wire_value w) in
  0 <= key <= U32_MAX /\ Z.land key 7 = wire_value w /\ Z.shiftr key 3 = tag.
Proof.
  intros [Hlo Hhi]. change MIN_TAG with 1 in *. change MAX_TAG with 536870911 in *. cbv zeta. rewrite Z.lor_comm.
  assert (0 <= wire_value w < 8) as Hw by (destruct w; simpl; lia).
  rewrite lor_shiftl by lia. change 7 with (Z.ones 3). rewrite Z.land_ones, Z.shiftr_div_pow2 by lia.
  unfold U32_MAX. change (2 ^ 3) with 8. rewrite Z.mod_add, Z.div_add by lia.
  rewrite Z.mod_small, Z.div_small by lia. split_and!; lia.
Qed.

Lemma decode_encode_key tag w rest : tag_ok tag -> decode_key (encode_key tag w ++ rest) = Ok ((tag, w), rest).
Proof.
  intros Ht. destruct (key_split tag w Ht) as (Hr & Hw & Hk). unfold decode_key, encode_key.
  rewrite decode_encode_varint by (unfold U32_MAX, U64_MAX in *; lia).
  replace (U32_MAX <? _) with false by lia. change 0x07 with 7. rewrite Hw, Hk.
  destruct Ht. replace (tag <? MIN_TAG) with false by lia. by destruct w.
Qed.

Lemma decode_key_shrinks l k l' : decode_key l = Ok (k, l') -> (length l' < length l)%nat.
Proof.
  unfold decode_key. destruct (decode_varint l) as [[key l1]|] eqn:Hd; [|done]. apply decode_varint_inv in Hd as [_ Hd].
  destruct (_ <? _); [done|]. destruct (wire_type_of _); [|done]. destruct (_ <? _); [done|]. by intros [= _ <-].
Qed.

Lemma key_len_ok tag w : tag_ok tag -> key_len tag = remaining (encode_key tag w).
Proof.
  intros Ht. destruct (key_split tag w Ht) as (Hr & _ & _). destruct Ht as [Hlo Hhi]. change MIN_TAG with 1 in *. change MAX_TAG with 536870911 in *.
  unfold encode_key, remaining. rewrite <-encoded_len_varint_ok by (unfold U32_MAX, U64_MAX in *; lia).
  unfold key_len, encoded_len_varint. do 3 f_equal.
  assert (0 <= wire_value w < 8) as Hw by (destruct w; simpl; lia).
  assert (3 <= Z.log2 (Z.shiftl tag 3)) by (apply (Z.log2_le_pow2 _ 3); rewrite Z.shiftl_mul_pow2; lia).
  assert (Z.log2 (wire_value w) <= 2) by (destruct w; simpl; lia).
  assert (0 <= Z.shiftl tag 3) by (apply Z.shiftl_nonneg; lia).
  rewrite !Z.log2_lor by (try apply Z.lor_nonneg; lia). change (Z.log2 1) with 0. lia.
Qed.

(** *** Scalars *)

(** What a scalar promises the messages it is a field of: values of its type
    are read back, their length is computed right, and whatever is read has
    the type. *)
Record scalar_ok {A} (c : Scalar A) (typed : A -> Prop) : Prop := {
  scalar_reads v rest :
    typed v -> remaining (s_body c v) <= U64_MAX -> s_read c (s_body c v ++ rest) = Ok (v, rest);
  scalar_len_ok v : typed v -> remaining (s_body c v) <= U64_MAX -> s_body_len c v = remaining (s_body c v);
  scalar_inv l v l' : s_read c l = Ok (v, l') -> typed v /\ (length l' <= length l)%nat;
  scalar_default : typed (s_default c);
}.

Lemma remaining_app a b : remaining (a ++ b) = remaining a + remaining b.
Proof. unfold remaining. rewrite length_app. lia. Qed.

Lemma remaining_nonneg l : 0 <= remaining l.
Proof. unfold remaining. lia. Qed.

Lemma varint_ok {A} (to_uint64 : A -> Z) from_uint64 d (typed : A -> Prop) :
  (forall v, typed v -> 0 <= to_uint64 v <= U64_MAX /\ from_uint64 (to_uint64 v) = v) ->
  (forall x, 0 <= x <= U64_MAX -> typed (from_uint64 x)) -> typed d ->
  scalar_ok (varint to_uint64 from_uint64 d) typed.
Proof.
  intros Hto Hfrom Hd. split; cbn [s_read s_body s_body_len s_default varint].
  - intros v rest Hv _. destruct (Hto v Hv) as [Hr Heq]. by rewrite decode_encode_varint, Heq.
  - intros v Hv _. by apply encoded_len_varint_ok, Hto.
  - intros l v l'. destruct (decode_varint l) as [[x l1]|] eqn:Hl; [|done]. intros [= <- <-].
    apply decode_varint_inv in Hl as [Hx Hlen]. split; [by apply Hfrom|lia].
  - done.
Qed.

Definition is_i32 (z : Z) : Prop := - I32_MAX - 1 <= z <= I32_MAX.
Definition is_i64 (z : Z) : Prop := I64_MIN <= z <= I64_MAX.
Definition is_u32 (z : Z) : Prop := 0 <= z <= U32_MAX.
Definition is_u64 (z : Z) : Prop := 0 <= z <= U64_MAX.
Definition is_str (s : string) : Prop := utf8_valid (chars s) = true.

Lemma bool_ok : scalar_ok bool_ (fun _ => True).
Proof. apply varint_ok; [|done..]. intros []; unfold U64_MAX; (split; [lia|done]). Qed.

Lemma pow2_half bits : 1 <= bits -> 2 ^ bits = 2 * 2 ^ (bits - 1).
Proof. intros Hb. rewrite <-Z.pow_succ_r by lia. f_equal. lia. Qed.

Lemma as_signed_range bits x : 1 <= bits -> - 2 ^ (bits - 1) <= as_signed bits x < 2 ^ (bits - 1).
Proof.
  intros Hb. unfold as_signed. pose proof (Z.mod_pos_bound x (2 ^ bits) ltac:(lia)).
  pose proof (pow2_half bits ltac:(lia)).
  case_match; lia.
Qed.

Lemma as_signed_to_u64 bits z :
  1 <= bits <= 64 -> - 2 ^ (bits - 1) <= z < 2 ^ (bits - 1) -> as_signed bits (to_u64 z) = z.
Proof.
  intros Hb Hz. unfold as_signed, to_u64. change (U64_MAX + 1) with (2 ^ 64).
  pose proof (pow2_half bits ltac:(lia)).
  assert (2 ^ 64 = 2 ^ (64 - bits) * 2 ^ bits) as H64 by (rewrite <-Z.pow_add_r by lia; f_equal; lia).
  rewrite Z.mod_mod_divide by (by exists (2 ^ (64 - bits))).
  destruct (Z.ltb_spec z 0).
  - replace (z mod 2 ^ bits) with (z + 2 ^ bits); [case_match; lia|].
    apply Z.mod_unique with (-1); lia.
  - rewrite Z.mod_small by lia. case_match; lia.
Qed.

Lemma to_u64_range z : 0 <= to_u64 z <= U64_MAX.
Proof. unfold to_u64. pose proof (Z.mod_pos_bound z (U64_MAX + 1) eq_refl). lia. Qed.

Lemma int32_ok : scalar_ok int32 is_i32.
Proof.
  apply varint_ok; [|intros x _; pose proof (as_signed_range 32 x); unfold is_i32, I32_MAX; lia|done].
  intros v Hv. split; [apply to_u64_range|]. unfold is_i32, I32_MAX in Hv. apply as_signed_to_u64; lia.
Qed.

Lemma int64_ok : scalar_ok int64 is_i64.
Proof.
  apply varint_ok; [|intros x _; pose proof (as_signed_range 64 x); unfold is_i64, I64_MIN, I64_MAX; lia|done].
  intros v Hv. split; [apply to_u64_range|]. unfold is_i64, I64_MIN, I64_MAX in Hv. apply as_signed_to_u64; lia.
Qed.

Lemma uint32_ok : scalar_ok uint32 is_u32.
Proof.
  apply varint_ok; unfold is_u32, U64_MAX, as_u32, U32_MAX; [|intros x _; Z.to_euclidean_division_equations; lia|done].
  intros v Hv. unfold id. split; [lia|]. apply Z.mod_small. lia.
Qed.

Lemma uint64_ok : scalar_ok uint64 is_u64.
Proof. by apply varint_ok. Qed.

Lemma bytes_read_ok b rest :
  remaining (encode_varint (remaining b) ++ b) <= U64_MAX ->
  bytes_read (encode_varint (remaining b) ++ b ++ rest) = Ok (b, rest).
Proof.
  rewrite remaining_app. intros Hb. pose proof (remaining_nonneg b). pose proof (remaining_nonneg (encode_varint (remaining b))).
  unfold bytes_read. rewrite decode_encode_varint by lia. rewrite remaining_app. pose proof (remaining_nonneg rest).
  replace (remaining b + remaining rest <? remaining b) with false by lia. unfold remaining.
  rewrite Nat2Z.id. by rewrite take_app_length, drop_app_length.
Qed.

Lemma bytes_read_shrinks l b l' : bytes_read l = Ok (b, l') -> (length l' <= length l)%nat.
Proof.
  unfold bytes_read. destruct (decode_varint l) as [[n l1]|] eqn:Hn; [|done]. apply decode_varint_inv in Hn as [_ Hn].
  destruct (_ <? _); [done|]. intros [= _ <-]. rewrite length_drop. lia.
Qed.

Lemma delimited_len b :
  remaining (encode_varint (remaining b) ++ b) <= U64_MAX ->
  encoded_len_varint (remaining b) + remaining b = remaining (encode_varint (remaining b) ++ b).
Proof.
  rewrite remaining_app. intros Hb. pose proof (remaining_nonneg b). pose proof (remaining_nonneg (encode_varint (remaining b))).
  by rewrite encoded_len_varint_ok by lia.
Qed.

Lemma bytes_ok : scalar_ok bytes_ (fun _ => True).
Proof.
  split; cbn [s_read s_body s_body_len s_default bytes_]; [| | |done].
  - intros v rest _ Hv. rewrite <-app_assoc. by apply bytes_read_ok.
  - intros v _ Hv. by apply delimited_len.
  - intros l v l' Hl. split; [done|by eapply bytes_read_shrinks].
Qed.

Lemma string_ok : scalar_ok string_ is_str.
Proof.
  split; cbn [s_read s_body s_body_len s_default string_]; [| | |done].
  - intros v rest Hv Hs. rewrite <-app_assoc, bytes_read_ok by done. rewrite Hv. by rewrite of_chars_chars.
  - intros v _ Hv. by apply delimited_len.
  - intros l v l'. destruct (bytes_read l) as [[b l1]|] eqn:Hb; [|done]. apply bytes_read_shrinks in Hb.
    destruct (utf8_valid b) eqn:Hu; [|done]. intros [= <- <-]. split; [|done]. unfold is_str. by rewrite chars_of_chars.
Qed.

(** *** Loops *)

Section Loop.
Context {T : Type} (merge : T -> bytes -> read T).
Hypothesis merge_shrinks : forall v l v' l', merge v l = Ok (v', l') -> (length l' < length l)%nat.

Lemma merge_while_fuel fuel limit v l :
  0 <= limit -> (length l <= fuel)%nat -> merge_while merge fuel limit v l = merge_while merge (length l) limit v l.
Proof using merge_shrinks.
  intros Hlim. revert v l. induction fuel as [fuel IH] using lt_wf_ind. intros v l Hl.
  destruct fuel as [|fuel].
  { by replace (length l) with 0%nat by lia. }
  destruct l as [|c l]; cbn [merge_while length].
  { change (remaining []) with 0. by destruct (Z.ltb_spec limit 0); [lia|]. }
  destruct (_ <? _); [|done]. destruct (merge v (c :: l)) as [[v1 l1]|] eqn:Hm; [|done].
  apply merge_shrinks in Hm. cbn [length] in *. rewrite (IH fuel) by lia. symmetry. apply IH; lia.
Qed.

Lemma merge_while_inv (P : T -> Prop) fuel limit v l v' l' :
  (forall v l v' l', P v -> merge v l = Ok (v', l') -> P v') ->
  P v -> merge_while merge fuel limit v l = Ok (v', l') -> P v' /\ (length l' <= length l)%nat.
Proof using merge_shrinks.
  intros HP. revert v l. induction fuel as [|fuel IH]; intros v l Hv; cbn [merge_while]; destruct (_ <? _); try done;
    try (intros [= <- <-]; by split).
  destruct (merge v l) as [[v1 l1]|] eqn:Hm; [|done]. intros Hw. apply IH in Hw as [? ?]; [|by eapply HP].
  apply merge_shrinks in Hm. split; [done|lia].
Qed.

Lemma merge_loop_inv (P : T -> Prop) v l v' l' :
  (forall v l v' l', P v -> merge v l = Ok (v', l') -> P v') ->
  P v -> merge_loop merge v l = Ok (v', l') -> P v' /\ (length l' <= length l)%nat.
Proof using merge_shrinks.
  intros HP Hv. unfold merge_loop. destruct (decode_varint l) as [[len l1]|] eqn:Hd; [|done].
  apply decode_varint_inv in Hd as [_ Hd]. destruct (_ <? _); [done|].
  destruct (merge_while _ _ _ _ _) as [[v2 l2]|] eqn:Hw; [|done].
  eapply merge_while_inv in Hw as [? ?]; [|done..]. destruct (_ =? _); [|done]. intros [= <- <-]. split; [done|lia].
Qed.

(** Rounds that go from one buffer to another. *)
Definition merge_step (s s' : T * bytes) : Prop := merge s.1 s.2 = Ok s'.

Lemma merge_steps_shrink s s' : rtc merge_step s s' -> (length s'.2 <= length s.2)%nat.
Proof using merge_shrinks.
  induction 1 as [|[v l] [v1 l1] s' Hs _ IH]; [done|]. apply merge_shrinks in Hs. simpl in *. lia.
Qed.

Lemma merge_while_steps fuel limit v l v' l' :
  rtc merge_step (v, l) (v', l') -> remaining l' = limit -> (length l <= fuel)%nat ->
  merge_while merge fuel limit v l = Ok (v', l').
Proof using merge_shrinks.
  intros Hr Hlim. revert fuel. remember (v, l) as s eqn:Hs. remember (v', l') as s' eqn:Hs'.
  revert v l Hs. induction Hr as [s|s [v1 l1] s' Hs1 Hr IH]; intros v l -> fuel Hf.
  - injection Hs' as -> ->. destruct fuel; cbn [merge_while]; by replace (limit <? remaining l') with false by lia.
  - subst s'. pose proof (merge_shrinks _ _ _ _ Hs1) as Hlt. apply merge_steps_shrink in Hr as Hle. simpl in *.
    unfold remaining in *. destruct fuel as [|fuel]; cbn [merge_while]; [lia|]. unfold remaining.
    replace (limit <? _) with true by lia. unfold merge_step in Hs1. simpl in Hs1. rewrite Hs1. apply IH; [done..|lia].
Qed.
End Loop.

(** *** Messages *)

(** [b] takes the fields of [m] to those of [m'], whatever comes after it. *)
Definition takes {M} `{Message M} (recurse_count : nat) (m : M) (b : bytes) (m' : M) : Prop :=
  forall rest, rtc (merge_step (merge_one recurse_count)) (m, b ++ rest) (m', rest).

Lemma takes_nil {M} `{Message M} n (m : M) : takes n m [] m.
Proof. by intros rest. Qed.

Lemma takes_app {M} `{Message M} n (m m1 m2 : M) b1 b2 : takes n m b1 m1 -> takes n m1 b2 m2 -> takes n m (b1 ++ b2) m2.
Proof. intros H1 H2 rest. rewrite <-app_assoc. etrans; [apply H1|apply H2]. Qed.

Lemma takes_field {M} `{Message M} n (m m' : M) tag w body :
  tag_ok tag -> (forall rest, merge_field n m tag w (body ++ rest) = Ok (m', rest)) -> takes n m (encode_key tag w ++ body) m'.
Proof.
  intros Ht Hm rest. apply rtc_once. unfold merge_step, merge_one. cbn [fst snd].
  rewrite <-app_assoc, decode_encode_key by done. apply Hm.
Qed.

(** What a message promises its users: [typed] values of at most [height]
    levels are read back from their bytes, and whatever is read is typed. *)
Class MessageLaws (M : Type) `{Message M} := {
  typed : M -> Prop;
  height : nat;
  default_typed : typed message_default;
  encoded_len_ok m : typed m -> remaining (encode_raw m) <= U64_MAX -> encoded_len m = remaining (encode_raw m);
  merge_field_shrinks n m tag w l m' l' : merge_field n m tag w l = Ok (m', l') -> (length l' <= length l)%nat;
  merge_field_typed n m tag w l m' l' : typed m -> merge_field n m tag w l = Ok (m', l') -> typed m';
  encode_takes n m : typed m -> remaining (encode_raw m) <= U64_MAX -> (height <= n)%nat ->
    takes n message_default (encode_raw m) m;
}.

Lemma skip_group_shrinks skip fuel tag l l' :
  (forall w tag l l', skip w tag l = Ok l' -> (length l' <= length l)%nat) ->
  skip_group skip fuel tag l = Ok l' -> (length l' <= length l)%nat.
Proof.
  intros Hs. revert l. induction fuel as [|fuel IH]; intros l; [done|]. cbn [skip_group].
  destruct (decode_key l) as [[[t w] l1]|] eqn:Hk; [|done]. apply decode_key_shrinks in Hk.
  destruct w; try (destruct (skip _ t l1) as [l2|] eqn:H2; [|done]; apply Hs in H2; intros H3%IH; lia).
  destruct (_ =? _); [|done]. intros [= <-]. lia.
Qed.

Lemma skip_field_shrinks n w tag l l' : skip_field n w tag l = Ok l' -> (length l' <= length l)%nat.
Proof.
  revert w tag l l'. induction n as [|n IH]; intros w tag l l'; [done|]. cbn [skip_field].
  assert (forall len l1, (length l1 <= length l)%nat ->
    (if remaining l1 <? len then decode_error BufferUnderflow else Ok (drop (Z.to_nat len) l1)) = Ok l' ->
    (length l' <= length l)%nat) as Hend.
  { intros len l1 Hl. destruct (_ <? _); [done|]. intros [= <-]. rewrite length_drop. lia. }
  destruct w; try (by apply Hend); try done.
  - destruct (decode_varint l) as [[v l1]|] eqn:Hv; [|done]. apply decode_varint_inv in Hv as [_ Hv]. apply Hend. lia.
  - destruct (decode_varint l) as [[v l1]|] eqn:Hv; [|done]. apply decode_varint_inv in Hv as [_ Hv]. apply Hend. lia.
  - destruct (skip_group _ _ _ _) as [l1|] eqn:Hg; [|done]. apply skip_group_shrinks in Hg; [by apply Hend|apply IH].
Qed.

Section Laws.
Context {M} `{MessageLaws M}.

Lemma merge_one_shrinks n m l m' l' : merge_one n m l = Ok (m', l') -> (length l' < length l)%nat.
Proof.
  unfold merge_one. destruct (decode_key l) as [[[t w] l1]|] eqn:Hk; [|done]. apply decode_key_shrinks in Hk.
  intros Hm%merge_field_shrinks. lia.
Qed.

Lemma merge_one_typed n m l m' l' : typed m -> merge_one n m l = Ok (m', l') -> typed m'.
Proof.
  unfold merge_one. destruct (decode_key l) as [[[t w] l1]|]; [|done]. apply merge_field_typed.
Qed.

Lemma message_merge_inv n w m l m' l' :
  typed m -> message_merge n w m l = Ok (m', l') -> typed m' /\ (length l' <= length l)%nat.
Proof.
  intros Hm. unfold message_merge. destruct (check_wire_type _ _); [|done]. destruct n as [|n]; [done|].
  apply merge_loop_inv; [apply merge_one_shrinks|apply merge_one_typed|done].
Qed.

Lemma message_merge_shrinks n w m l m' l' : message_merge n w m l = Ok (m', l') -> (length l' <= length l)%nat.
Proof.
  unfold message_merge. destruct (check_wire_type _ _); [|done]. destruct n as [|n]; [done|].
  intros Hl. eapply (merge_loop_inv _ (merge_one_shrinks n) (fun _ => True)) in Hl; [|done..]. apply Hl.
Qed.

Lemma message_merge_takes n m b m' rest :
  takes n m b m' -> remaining b <= U64_MAX ->
  message_merge (S n) LengthDelimited m (encode_varint (remaining b) ++ b ++ rest) = Ok (m', rest).
Proof.
  intros Ht Hb. unfold message_merge, check_wire_type. rewrite bool_decide_eq_true_2 by done. unfold merge_loop.
  pose proof (remaining_nonneg b). rewrite decode_encode_varint by lia. rewrite remaining_app.
  pose proof (remaining_nonneg rest). replace (_ <? remaining b) with false by lia.
  replace (remaining b + remaining rest - remaining b) with (remaining rest) by lia.
  rewrite (merge_while_steps _ (merge_one_shrinks n) _ _ _ _ _ _ (Ht rest)) by done. by rewrite Z.eqb_refl.
Qed.

(** A message as a field: the value, after whatever the field had before. *)
Lemma message_reads n m rest :
  typed m -> remaining (encode_raw m) <= U64_MAX -> (height <= n)%nat ->
  message_merge (S n) LengthDelimited message_default (encode_varint (encoded_len m) ++ encode_raw m ++ rest) = Ok (m, rest).
Proof.
  intros Hm Hs Hn. rewrite encoded_len_ok by done. apply message_merge_takes; [|done]. by apply encode_takes.
Qed.

Lemma message_encode_size tag m : remaining (encode_raw m) <= remaining (message_encode tag m).
Proof.
  unfold message_encode. rewrite !remaining_app.
  pose proof (remaining_nonneg (encode_key tag LengthDelimited)). pose proof (remaining_nonneg (encode_varint (encoded_len m))). lia.
Qed.

Lemma message_len_ok tag m :
  tag_ok tag -> typed m -> remaining (message_encode tag m) <= U64_MAX ->
  message_len tag m = remaining (message_encode tag m).
Proof.
  intros Ht Hm Hs. pose proof (message_encode_size tag m). pose proof (remaining_nonneg (encode_raw m)).
  unfold message_len, message_encode. rewrite encoded_len_ok by (done || lia).
  rewrite !remaining_app, (key_len_ok _ LengthDelimited), encoded_len_varint_ok by (done || lia). unfold remaining. lia.
Qed.

Lemma decode_takes l m : takes RECURSION_LIMIT message_default l m -> decode l = Ok m.
Proof.
  intros Ht. specialize (Ht []). rewrite app_nil_r in Ht. unfold decode.
  by rewrite (merge_while_steps _ (merge_one_shrinks RECURSION_LIMIT) _ _ _ _ _ _ Ht).
Qed.

Lemma decode_encode m :
  typed m -> remaining (encode_raw m) <= U64_MAX -> (height <= RECURSION_LIMIT)%nat -> decode (encode_to_vec m) = Ok m.
Proof. intros Hm Hs Hh. by apply decode_takes, encode_takes. Qed.

Lemma decode_typed l m : decode l = Ok m -> typed m.
Proof.
  unfold decode. destruct (merge_while _ _ _ _ _) as [[m1 l1]|] eqn:Hw; [|done]. intros [= <-].
  eapply (merge_while_inv _ (merge_one_shrinks RECURSION_LIMIT) typed) in Hw; [apply Hw| |apply default_typed].
  intros v l0 v' l'. apply merge_one_typed.
Qed.

(** Decoding ends by itself: more fuel changes nothing. *)
Lemma decode_fuel fuel l :
  (length l <= fuel)%nat ->
  decode (M := M) l = try (m, _) := merge_while (merge_one RECURSION_LIMIT) fuel 0 message_default l in Ok m.
Proof. intros Hf. unfold decode. by rewrite (merge_while_fuel _ (merge_one_shrinks RECURSION_LIMIT) fuel). Qed.
End Laws.

(** *** Fields *)

Lemma scalar_encode_size {A} (c : Scalar A) tag v : remaining (s_body c v) <= remaining (scalar_encode c tag v).
Proof. unfold scalar_encode. rewrite remaining_app. pose proof (remaining_nonneg (encode_key tag (s_wire c))). lia. Qed.

Section Fields.
Context {A} {c : Scalar A} {ty : A -> Prop} (Hc : scalar_ok c ty).

Lemma scalar_merge_reads v rest :
  ty v -> remaining (s_body c v) <= U64_MAX -> scalar_merge c (s_wire c) (s_body c v ++ rest) = Ok (v, rest).
Proof using Hc.
  intros Hv Hs. unfold scalar_merge, check_wire_type. rewrite bool_decide_eq_true_2 by done. by apply Hc.
Qed.

Lemma scalar_merge_inv w l v l' : scalar_merge c w l = Ok (v, l') -> ty v /\ (length l' <= length l)%nat.
Proof using Hc. unfold scalar_merge. destruct (check_wire_type _ _); [|done]. by apply Hc. Qed.

Lemma scalar_field_len tag v :
  tag_ok tag -> ty v -> remaining (scalar_encode c tag v) <= U64_MAX -> scalar_len c tag v = remaining (scalar_encode c tag v).
Proof using Hc.
  intros Ht Hv Hs. pose proof (scalar_encode_size c tag v). unfold scalar_len, scalar_encode.
  rewrite remaining_app, (key_len_ok _ (s_wire c)) by done. f_equal. apply (scalar_len_ok _ _ Hc); [done|lia].
Qed.

Lemma plain_field_len `{EqDecision A} tag v :
  tag_ok tag -> ty v -> remaining (plain_encode c tag v) <= U64_MAX -> plain_len c tag v = remaining (plain_encode c tag v).
Proof using Hc. unfold plain_len, plain_encode. case_bool_decide; [done|]. apply scalar_field_len. Qed.

Lemma optional_field_len tag o :
  tag_ok tag -> (forall v, o = Some v -> ty v) -> remaining (optional_encode c tag o) <= U64_MAX ->
  optional_len c tag o = remaining (optional_encode c tag o).
Proof using Hc. intros Ht Ho. destruct o as [v|]; [|done]. simpl. apply scalar_field_len; [done|by apply Ho]. Qed.

(** [m] is a message that takes the field into account by [set]. *)
Context {M} `{Message M} (n : nat) (m : M) (tag : Z) (set : A -> M).
Hypothesis Htag : tag_ok tag.
Hypothesis Hset : forall w l v l', scalar_merge c w l = Ok (v, l') -> merge_field n m tag w l = Ok (set v, l').

Lemma takes_scalar v : ty v -> remaining (scalar_encode c tag v) <= U64_MAX -> takes n m (scalar_encode c tag v) (set v).
Proof using Hc Htag Hset.
  intros Hv Hs. apply takes_field; [done|]. intros rest. apply Hset, scalar_merge_reads; [done|].
  pose proof (scalar_encode_size c tag v). lia.
Qed.

Lemma takes_plain `{EqDecision A} v :
  ty v -> remaining (plain_encode c tag v) <= U64_MAX -> set (s_default c) = m -> takes n m (plain_encode c tag v) (set v).
Proof using Hc Htag Hset.
  unfold plain_encode. case_bool_decide as Hd; [|by intros ???; apply takes_scalar].
  intros _ _ Heq. rewrite Hd, Heq. apply takes_nil.
Qed.
End Fields.

Lemma takes_optional {A} {c : Scalar A} {ty} (Hc : scalar_ok c ty) {M} `{Message M} n (m : M) tag (set : option A -> M) o :
  tag_ok tag -> (forall w l v l', scalar_merge c w l = Ok (v, l') -> merge_field n m tag w l = Ok (set (Some v), l')) ->
  (forall v, o = Some v -> ty v) -> remaining (optional_encode c tag o) <= U64_MAX -> set None = m ->
  takes n m (optional_encode c tag o) (set o).
Proof.
  intros Ht Hset Ho Hs Hn. destruct o as [v|]; simpl; [|rewrite Hn; apply takes_nil].
  by apply (takes_scalar Hc n m tag (fun v => set (Some v))); [| |apply Ho|].
Qed.

Section MessageFields.
Context {F} `{MessageLaws F} {M} `{Message M} (n : nat) (tag : Z).
Hypothesis Htag : tag_ok tag.

Lemma takes_message (m m' : M) (f : F) :
  (forall rest, message_merge n LengthDelimited message_default (encode_varint (encoded_len f) ++ encode_raw f ++ rest) = Ok (f, rest) ->
     merge_field n m tag LengthDelimited (encode_varint (encoded_len f) ++ encode_raw f ++ rest) = Ok (m', rest)) ->
  typed f -> remaining (message_encode tag f) <= U64_MAX -> (height (M := F) < n)%nat -> takes n m (message_encode tag f) m'.
Proof using Htag.
  intros Hset Hf Hs Hn. apply takes_field; [done|]. intros rest. rewrite <-app_assoc. apply Hset.
  destruct n as [|k]; [lia|]. pose proof (message_encode_size tag f). apply message_reads; [done|lia..].
Qed.

Lemma takes_optional_message (m : M) (set : option F -> M) o :
  (forall w l f l', message_merge n w message_default l = Ok (f, l') -> merge_field n m tag w l = Ok (set (Some f), l')) ->
  (forall f, o = Some f -> typed f) -> remaining (optional_message_encode tag o) <= U64_MAX -> (height (M := F) < n)%nat ->
  set None = m -> takes n m (optional_message_encode tag o) (set o).
Proof using Htag.
  intros Hset Ho Hs Hn Hnone. destruct o as [f|]; simpl; [|rewrite Hnone; apply takes_nil].
  apply takes_message; [|by apply Ho|done..]. intros rest. apply Hset.
Qed.

Lemma takes_repeated_message (set : list F -> M) (fs : list F) :
  (forall fs w l f l', check_wire_type LengthDelimited w = Ok tt -> message_merge n LengthDelimited message_default l = Ok (f, l') ->
     merge_field n (set fs) tag w l = Ok (set (fs ++ [f]), l')) ->
  Forall typed fs -> remaining (repeated_message_encode tag fs) <= U64_MAX -> (height (M := F) < n)%nat ->
  takes n (set []) (repeated_message_encode tag fs) (set fs).
Proof using Htag.
  intros Hset Hall Hs Hn.
  assert (forall pre, takes n (set pre) (repeated_message_encode tag fs) (set (pre ++ fs))) as Hgen; [|apply (Hgen [])].
  induction Hall as [|f fs Hf Hall IH]; intros pre; [rewrite app_nil_r; apply takes_nil|].
  unfold repeated_message_encode in *. cbn [fmap list_fmap concat] in *. rewrite remaining_app in Hs.
  pose proof (remaining_nonneg (message_encode tag f)). pose proof (remaining_nonneg (concat (message_encode tag <$> fs))).
  rewrite cons_middle, app_assoc. eapply takes_app; [|apply IH; lia].
  apply takes_message; [|done|lia|done]. intros rest. by apply Hset.
Qed.

Lemma optional_message_field_len (o : option F) :
  (forall f, o = Some f -> typed f) -> remaining (optional_message_encode tag o) <= U64_MAX ->
  optional_message_len tag o = remaining (optional_message_encode tag o).
Proof using Htag. intros Ho Hs. destruct o as [f|]; [|done]. apply message_len_ok; [done|by apply Ho|done]. Qed.

Lemma repeated_message_field_len (fs : list F) :
  Forall typed fs -> remaining (repeated_message_encode tag fs) <= U64_MAX ->
  repeated_message_len tag fs = remaining (repeated_message_encode tag fs).
Proof using Htag.
  intros Hall. unfold repeated_message_len, repeated_message_encode.
  induction Hall as [|f fs Hf Hall IH]; [intros _; cbn [foldr length]; change (remaining _) with 0; lia|]. cbn [fmap list_fmap concat foldr length].
  rewrite remaining_app. intros Hs. pose proof (remaining_nonneg (message_encode tag f)).
  pose proof (remaining_nonneg (concat (message_encode tag <$> fs))).
  rewrite <-IH by lia. rewrite <-message_len_ok by (done || lia). unfold message_len. lia.
Qed.
End MessageFields.

Lemma in_field_inv {A B} message field (set : A -> B) r b l :
  in_field message field set r = Ok (b, l) -> exists a, r = Ok (a, l) /\ b = set a.
Proof. destruct r as [[a l1]|]; [|done]. intros [= <- <-]. by exists a. Qed.

(** A field no message knows. *)
Definition skip_unknown {M} (n : nat) (m : M) (tag : Z) (w : WireType) (l : bytes) : read M :=
  try l := skip_field n w tag l in Ok (m, l).

Lemma skip_unknown_inv {M} n (m : M) tag w l m' l' :
  skip_unknown n m tag w l = Ok (m', l') -> m' = m /\ (length l' <= length l)%nat.
Proof.
  unfold skip_unknown. destruct (skip_field _ _ _ _) as [l1|] eqn:Hs; [|done]. apply skip_field_shrinks in Hs.
  intros [= <- <-]. by split.
Qed.

Existing Class scalar_ok.
#[export] Existing Instances bool_ok int32_ok int64_ok uint32_ok uint64_ok bytes_ok string_ok.
