(* ===== verification/Messages.v ===== *)
(** * [backup.proto]: the messages on the wire

    The [Message] of every message of the service, as [prost-derive] makes it
    from the fields and tags of [backup.proto] (and of
    [google.protobuf.Timestamp]), and the laws of each. *)

From Stdlib Require Import ZArith Lia Ascii.
From stdpp Require Import base numbers gmap sorting strings list relations.
From S2P Require Import Prelude RustStd Utf8 Chrono Core Ports Service Api Stream Prost.
Open Scope Z_scope.
Open Scope rust_scope.

(** ** Tactics for the laws *)

(** The branches of a [merge_field]: what a field read, or nothing. *)
Ltac merge_branch H :=
  repeat match type of H with (if ?b then _ else _) = _ => destruct b end;
  first [apply in_field_inv in H as (? & H & ->) | apply skip_unknown_inv in H as [-> H]].

Ltac merge_shrinks :=
  match goal with |- _ = Ok _ -> _ =>
    let H := fresh in intros H; merge_branch H;
    first [done | eapply scalar_merge_inv in H; [apply H|apply _]]
  end.

(** The parts of the bytes of a message are no longer than the whole. *)
Ltac sizes := repeat rewrite remaining_app in *; repeat match goal with
  | |- context [remaining ?l] => lazymatch goal with _ : 0 <= remaining l |- _ => fail | _ => pose proof (remaining_nonneg l) end
  | H : context [remaining ?l] |- _ => lazymatch goal with _ : 0 <= remaining l |- _ => fail | _ => pose proof (remaining_nonneg l) end
  end; lia.

Lemma small_tag tag : 1 <= tag <= 15 -> tag_ok tag.
Proof. unfold tag_ok. change MIN_TAG with 1. change MAX_TAG with 536870911. lia. Qed.

Ltac tag := apply small_tag; lia.

(** What the field template does, once the scalar is read. *)
Ltac sets := let H := fresh in intros ???? H; cbn; rewrite H; reflexivity.

(** The same for a message in a field that was empty. *)
Ltac sets_message :=
  let H := fresh in intros ???? H; apply optional_message_merge_none in H; cbn; rewrite H; reflexivity.

(** ** [google.protobuf.Timestamp] *)

Definition Timestamp_merge_field (n : nat) (m : Timestamp) (tag : Z) (w : WireType) (l : bytes) : read Timestamp :=
  if tag =? 1 then in_field "Timestamp" "seconds" (fun v => mkTimestamp v (nanos m)) (scalar_merge int64 w l)
  else if tag =? 2 then in_field "Timestamp" "nanos" (mkTimestamp (seconds m)) (scalar_merge int32 w l)
  else skip_unknown n m tag w l.

#[export] Instance Timestamp_message : Message Timestamp := {|
  message_default := mkTimestamp 0 0;
  encode_raw m := plain_encode int64 1 (seconds m) ++ plain_encode int32 2 (nanos m);
  encoded_len m := plain_len int64 1 (seconds m) + plain_len int32 2 (nanos m);
  merge_field := Timestamp_merge_field;
|}.

#[export, refine] Instance Timestamp_laws : MessageLaws Timestamp := {|
  typed m := is_i64 (seconds m) /\ is_i32 (nanos m);
  height := 0;
|}.
Proof.
  - done.
  - intros m [Hs Hn]. cbn [encode_raw encoded_len Timestamp_message]. intros Hsize.
    rewrite remaining_app in *. rewrite !(plain_field_len _) by (done || tag || sizes). done.
  - intros n m t w l m' l'. cbn [merge_field Timestamp_message]. unfold Timestamp_merge_field. merge_shrinks.
  - intros n m t w l m' l' [Hs Hn]. cbn [merge_field Timestamp_message]. unfold Timestamp_merge_field. intros Hm.
    merge_branch Hm; [..|done]; eapply scalar_merge_inv in Hm as [Hty _]; try apply _; by split.
  - intros n [s ns] [Hs Hn] Hsize _. cbn [encode_raw Timestamp_message seconds nanos message_default] in *.
    eapply takes_app.
    + apply (takes_plain _ n _ 1 (fun v => mkTimestamp v 0)); [tag|sets|done|sizes|done].
    + apply (takes_plain _ n _ 2 (fun v => mkTimestamp s v)); [tag|sets|done|sizes|done].
Defined.

(** ** [BackupInfo] *)

Definition BackupInfo_merge_field (n : nat) (m : ProtoInfo) (tag : Z) (w : WireType) (l : bytes) : read ProtoInfo :=
  let '(mkProtoInfo i nm at_ sz f k) := m in
  if tag =? 1 then in_field "BackupInfo" "id" (fun v => mkProtoInfo v nm at_ sz f k) (scalar_merge string_ w l)
  else if tag =? 2 then in_field "BackupInfo" "name" (fun v => mkProtoInfo i v at_ sz f k) (scalar_merge string_ w l)
  else if tag =? 3 then
    in_field "BackupInfo" "created_at" (fun v => mkProtoInfo i nm v sz f k) (optional_message_merge n w at_ l)
  else if tag =? 4 then
    in_field "BackupInfo" "size_bytes" (fun v => mkProtoInfo i nm at_ (Some v) f k) (scalar_merge uint64 w l)
  else if tag =? 5 then in_field "BackupInfo" "format" (fun v => mkProtoInfo i nm at_ sz v k) (scalar_merge int32 w l)
  else if tag =? 6 then in_field "BackupInfo" "kind" (fun v => mkProtoInfo i nm at_ sz f v) (scalar_merge int32 w l)
  else skip_unknown n m tag w l.

#[export] Instance BackupInfo_message : Message ProtoInfo := {|
  message_default := mkProtoInfo "" "" None None 0 0;
  encode_raw m :=
    plain_encode string_ 1 (p_id m) ++ plain_encode string_ 2 (p_name m) ++
    optional_message_encode 3 (p_created_at m) ++ optional_encode uint64 4 (p_size_bytes m) ++
    plain_encode int32 5 (p_format m) ++ plain_encode int32 6 (p_kind m);
  encoded_len m :=
    plain_len string_ 1 (p_id m) + (plain_len string_ 2 (p_name m) +
    (optional_message_len 3 (p_created_at m) + (optional_len uint64 4 (p_size_bytes m) +
    (plain_len int32 5 (p_format m) + plain_len int32 6 (p_kind m)))));
  merge_field := BackupInfo_merge_field;
|}.

(** A field that may be missing. *)
Definition opt_typed {A} (P : A -> Prop) (o : option A) : Prop := forall a, o = Some a -> P a.

Lemma opt_typed_some {A} (P : A -> Prop) a : P a -> opt_typed P (Some a).
Proof. by intros ? ? [= <-]. Qed.

Lemma optional_message_merge_inv {F} `{MessageLaws F} n w (o : option F) l o' l' :
  optional_message_merge n w o l = Ok (o', l') -> (length l' <= length l)%nat /\ (opt_typed typed o -> opt_typed typed o').
Proof.
  unfold optional_message_merge. destruct (message_merge _ _ _ _) as [[f l1]|] eqn:Hm; [|done]. intros [= <- <-].
  split; [by eapply message_merge_shrinks|]. intros Ho. apply opt_typed_some.
  eapply message_merge_inv; [|exact Hm]. destruct o; [by apply Ho|apply default_typed].
Qed.

(** The type of what a field read. *)
Ltac field_typed H :=
  first [eapply scalar_merge_inv in H as [H _]; [|apply _] | apply optional_message_merge_inv in H as [_ H]].

#[export, refine] Instance BackupInfo_laws : MessageLaws ProtoInfo := {|
  typed m := is_str (p_id m) /\ is_str (p_name m) /\ opt_typed typed (p_created_at m) /\
             opt_typed is_u64 (p_size_bytes m) /\ is_i32 (p_format m) /\ is_i32 (p_kind m);
  height := 1;
|}.
Proof.
  - by split_and!.
  - intros m (Hi & Hn & Ha & Hz & Hf & Hk). cbn [encode_raw encoded_len BackupInfo_message]. intros Hsize.
    rewrite !remaining_app in *. rewrite !(plain_field_len _), optional_message_field_len, (optional_field_len _)
      by (done || tag || sizes). done.
  - intros n [] t w l m' l'. cbn [merge_field BackupInfo_message]. unfold BackupInfo_merge_field.
    intros Hm. merge_branch Hm; first [done | eapply scalar_merge_inv in Hm; [apply Hm|apply _]
      | by apply optional_message_merge_inv in Hm as [? _]].
  - intros n [] t w l m' l' (Hi & Hn & Ha & Hz & Hf & Hk). cbn [merge_field BackupInfo_message].
    unfold BackupInfo_merge_field. intros Hm. merge_branch Hm; [..|done]; field_typed Hm;
      split_and!; try done; simpl; first [by apply Hm | by apply opt_typed_some].
  - intros n [i nm at_ sz f k] (Hi & Hn & Ha & Hz & Hf & Hk) Hsize Hh.
    cbn [encode_raw BackupInfo_message p_id p_name p_created_at p_size_bytes p_format p_kind message_default] in *.
    repeat eapply takes_app.
    + apply (takes_plain _ n _ 1 (fun v => mkProtoInfo v "" None None 0 0)); [tag|sets|done|sizes|done].
    + apply (takes_plain _ n _ 2 (fun v => mkProtoInfo i v None None 0 0)); [tag|sets|done|sizes|done].
    + apply (takes_optional_message (F := Timestamp) n 3 ltac:(tag) _ (fun v => mkProtoInfo i nm v None 0 0)); [|done|sizes|simpl; lia|done].
      sets_message.
    + apply (takes_optional _ n _ 4 (fun v => mkProtoInfo i nm at_ v 0 0)); [tag|sets|done|sizes|done].
    + apply (takes_plain _ n _ 5 (fun v => mkProtoInfo i nm at_ sz v 0)); [tag|sets|done|sizes|done].
    + apply (takes_plain _ n _ 6 (fun v => mkProtoInfo i nm at_ sz f v)); [tag|sets|done|sizes|done].
Defined.

(** ** Messages without fields *)

Inductive CreateBackupRequest := mkCreateBackupRequest.
Inductive HealthcheckRequest := mkHealthcheckRequest.

#[export] Instance CreateBackupRequest_message : Message CreateBackupRequest :=
  {| message_default := mkCreateBackupRequest; encode_raw _ := []; encoded_len _ := 0; merge_field := skip_unknown |}.
#[export] Instance HealthcheckRequest_message : Message HealthcheckRequest :=
  {| message_default := mkHealthcheckRequest; encode_raw _ := []; encoded_len _ := 0; merge_field := skip_unknown |}.

Ltac empty_laws :=
  first [done | by intros n m t w l m' l' [_ H]%skip_unknown_inv | by intros n [] _ _ _; apply takes_nil].

#[export, refine] Instance CreateBackupRequest_laws : MessageLaws CreateBackupRequest :=
  {| typed _ := True; height := 0 |}.
Proof. all: empty_laws. Defined.
#[export, refine] Instance HealthcheckRequest_laws : MessageLaws HealthcheckRequest :=
  {| typed _ := True; height := 0 |}.
Proof. all: empty_laws. Defined.

(** ** [HealthcheckReply] *)

Record HealthcheckReply := mkHealthcheckReply { is_ok_ : bool }.

Definition HealthcheckReply_merge_field (n : nat) (m : HealthcheckReply) (tag : Z) (w : WireType) (l : bytes)
    : read HealthcheckReply :=
  if tag =? 1 then in_field "HealthcheckReply" "is_ok" mkHealthcheckReply (scalar_merge bool_ w l)
  else skip_unknown n m tag w l.

#[export] Instance HealthcheckReply_message : Message HealthcheckReply := {|
  message_default := mkHealthcheckReply false;
  encode_raw m := plain_encode bool_ 1 (is_ok_ m);
  encoded_len m := plain_len bool_ 1 (is_ok_ m);
  merge_field := HealthcheckReply_merge_field;
|}.

#[export, refine] Instance HealthcheckReply_laws : MessageLaws HealthcheckReply := {| typed _ := True; height := 0 |}.
Proof.
  - done.
  - intros m _. cbn [encode_raw encoded_len HealthcheckReply_message]. apply (plain_field_len _); [tag|done].
  - intros n m t w l m' l'. cbn [merge_field HealthcheckReply_message]. unfold HealthcheckReply_merge_field. merge_shrinks.
  - done.
  - intros n [b] _ Hsize _. apply (takes_plain _ n _ 1 mkHealthcheckReply); [tag|sets|done|done|done].
Defined.

(** ** [ListBackupsRequest] and [ListBackupsReply] *)

Definition ListBackupsRequest_merge_field (n : nat) (m : ListBackupsRequest) (tag : Z) (w : WireType) (l : bytes)
    : read ListBackupsRequest :=
  if tag =? 1 then
    in_field "ListBackupsRequest" "page_size" (fun v => mkListBackupsRequest v (lr_page_token m)) (scalar_merge uint32 w l)
  else if tag =? 2 then
    in_field "ListBackupsRequest" "page_token" (mkListBackupsRequest (lr_page_size m)) (scalar_merge string_ w l)
  else skip_unknown n m tag w l.

#[export] Instance ListBackupsRequest_message : Message ListBackupsRequest := {|
  message_default := mkListBackupsRequest 0 "";
  encode_raw m := plain_encode uint32 1 (lr_page_size m) ++ plain_encode string_ 2 (lr_page_token m);
  encoded_len m := plain_len uint32 1 (lr_page_size m) + plain_len string_ 2 (lr_page_token m);
  merge_field := ListBackupsRequest_merge_field;
|}.

#[export, refine] Instance ListBackupsRequest_laws : MessageLaws ListBackupsRequest := {|
  typed m := is_u32 (lr_page_size m) /\ is_str (lr_page_token m);
  height := 0;
|}.
Proof.
  - done.
  - intros m [Hs Hn]. cbn [encode_raw encoded_len ListBackupsRequest_message]. intros Hsize.
    rewrite remaining_app in *. rewrite !(plain_field_len _) by (done || tag || sizes). done.
  - intros n m t w l m' l'. cbn [merge_field ListBackupsRequest_message]. unfold ListBackupsRequest_merge_field. merge_shrinks.
  - intros n m t w l m' l' [Hs Hn]. cbn [merge_field ListBackupsRequest_message].
    unfold ListBackupsRequest_merge_field. intros Hm. merge_branch Hm; [..|done]; field_typed Hm; by split.
  - intros n [s t] [Hs Hn] Hsize _. cbn [encode_raw ListBackupsRequest_message message_default lr_page_size lr_page_token] in *.
    eapply takes_app.
    + apply (takes_plain _ n _ 1 (fun v => mkListBackupsRequest v "")); [tag|sets|done|sizes|done].
    + apply (takes_plain _ n _ 2 (fun v => mkListBackupsRequest s v)); [tag|sets|done|sizes|done].
Defined.

Definition ListBackupsReply_merge_field (n : nat) (m : ListBackupsReply) (tag : Z) (w : WireType) (l : bytes)
    : read ListBackupsReply :=
  if tag =? 1 then
    in_field "ListBackupsReply" "backups" (fun v => mkListBackupsReply v (reply_next_page_token m))
      (repeated_message_merge n w (backups m) l)
  else if tag =? 2 then
    in_field "ListBackupsReply" "next_page_token" (mkListBackupsReply (backups m)) (scalar_merge string_ w l)
  else skip_unknown n m tag w l.

#[export] Instance ListBackupsReply_message : Message ListBackupsReply := {|
  message_default := mkListBackupsReply [] "";
  encode_raw m := repeated_message_encode 1 (backups m) ++ plain_encode string_ 2 (reply_next_page_token m);
  encoded_len m := repeated_message_len 1 (backups m) + plain_len string_ 2 (reply_next_page_token m);
  merge_field := ListBackupsReply_merge_field;
|}.

Lemma repeated_message_merge_inv {F} `{MessageLaws F} n w (fs : list F) l fs' l' :
  repeated_message_merge n w fs l = Ok (fs', l') -> (length l' <= length l)%nat /\ (Forall typed fs -> Forall typed fs').
Proof.
  unfold repeated_message_merge. destruct (check_wire_type _ _); [|done].
  destruct (message_merge _ _ _ _) as [[f l1]|] eqn:Hm; [|done]. intros [= <- <-].
  split; [by eapply message_merge_shrinks|]. intros Hall. apply Forall_app. split; [done|]. apply Forall_singleton.
  eapply message_merge_inv; [apply default_typed|exact Hm].
Qed.

#[export, refine] Instance ListBackupsReply_laws : MessageLaws ListBackupsReply := {|
  typed m := Forall typed (backups m) /\ is_str (reply_next_page_token m);
  height := 2;
|}.
Proof.
  - by split.
  - intros m [Hb Ht]. cbn [encode_raw encoded_len ListBackupsReply_message]. intros Hsize. rewrite remaining_app in *.
    rewrite repeated_message_field_len, (plain_field_len _) by (done || tag || sizes). done.
  - intros n m t w l m' l'. cbn [merge_field ListBackupsReply_message]. unfold ListBackupsReply_merge_field. intros Hm.
    merge_branch Hm; first [done | by apply repeated_message_merge_inv in Hm as [? _]
      | eapply scalar_merge_inv in Hm; [apply Hm|apply _]].
  - intros n m t w l m' l' [Hb Ht]. cbn [merge_field ListBackupsReply_message]. unfold ListBackupsReply_merge_field. intros Hm.
    merge_branch Hm; [apply repeated_message_merge_inv in Hm as [_ Hm]; split; [by apply Hm|done]
      |field_typed Hm; by split|done].
  - intros n [bs t] [Hb Ht] Hsize Hh. cbn [encode_raw ListBackupsReply_message message_default backups reply_next_page_token] in *.
    eapply takes_app.
    + apply (takes_repeated_message (F := ProtoInfo) n 1 ltac:(tag) (fun v => mkListBackupsReply v "")); [|done|sizes|simpl; lia].
      intros fs w l f l' Hw Hm. cbn. unfold repeated_message_merge. rewrite Hw, Hm. done.
    + apply (takes_plain _ n _ 2 (fun v => mkListBackupsReply bs v)); [tag|sets|done|sizes|done].
Defined.

(** ** [BackupRef] *)

(** [Target::encode] and [Target::merge] of the oneof. *)
Definition Target_encode (t : RefTarget) : bytes :=
  match t with TargetId i => scalar_encode string_ 1 i | TargetLatest b => scalar_encode bool_ 2 b end.
Definition Target_len (t : RefTarget) : Z :=
  match t with TargetId i => scalar_len string_ 1 i | TargetLatest b => scalar_len bool_ 2 b end.
Definition Target_merge (tag : Z) (w : WireType) (l : bytes) : read RefTarget :=
  if tag =? 1 then try (i, l) := scalar_merge string_ w l in Ok (TargetId i, l)
  else try (b, l) := scalar_merge bool_ w l in Ok (TargetLatest b, l).

Definition BackupRef_merge_field (n : nat) (m : BackupRef) (tag : Z) (w : WireType) (l : bytes) : read BackupRef :=
  if (tag =? 1) || (tag =? 2) then
    in_field "BackupRef" "target" (fun t => mkBackupRef (Some t)) (Target_merge tag w l)
  else skip_unknown n m tag w l.

#[export] Instance BackupRef_message : Message BackupRef := {|
  message_default := mkBackupRef None;
  encode_raw m := from_option Target_encode [] (ref_target m);
  encoded_len m := from_option Target_len 0 (ref_target m);
  merge_field := BackupRef_merge_field;
|}.

Definition target_typed (t : RefTarget) : Prop := match t with TargetId i => is_str i | TargetLatest _ => True end.

Lemma Target_merge_inv tag w l t l' : Target_merge tag w l = Ok (t, l') -> target_typed t /\ (length l' <= length l)%nat.
Proof.
  unfold Target_merge. destruct (tag =? 1).
  - destruct (scalar_merge string_ w l) as [[i l1]|] eqn:Hi; [|done]. eapply scalar_merge_inv in Hi; [|apply _].
    by intros [= <- <-].
  - destruct (scalar_merge bool_ w l) as [[b l1]|] eqn:Hb; [|done]. eapply scalar_merge_inv in Hb; [|apply _].
    by intros [= <- <-].
Qed.

#[export, refine] Instance BackupRef_laws : MessageLaws BackupRef := {|
  typed m := opt_typed target_typed (ref_target m);
  height := 0;
|}.
Proof.
  - done.
  - intros [[[i|b]|]] Ht; cbn [encode_raw encoded_len BackupRef_message ref_target from_option Target_encode Target_len];
      [apply (scalar_field_len _); [tag|by apply (Ht (TargetId i))]|by apply (scalar_field_len _); [tag|]|done].
  - intros n m t w l m' l'. cbn [merge_field BackupRef_message]. unfold BackupRef_merge_field. intros Hm.
    merge_branch Hm; [by apply Target_merge_inv in Hm as [_ ?]|done].
  - intros n m t w l m' l' Hty. cbn [merge_field BackupRef_message]. unfold BackupRef_merge_field. intros Hm.
    merge_branch Hm; [apply Target_merge_inv in Hm as [? _]; by apply opt_typed_some|done].
  - intros n [[[i|b]|]] Ht Hsize _; cbn [encode_raw BackupRef_message ref_target from_option Target_encode message_default] in *;
      [| |apply takes_nil].
    + by apply (takes_scalar _ n _ 1 (fun v => mkBackupRef (Some (TargetId v)))); [tag|sets|apply (Ht (TargetId i))|].
    + by apply (takes_scalar _ n _ 2 (fun v => mkBackupRef (Some (TargetLatest v)))); [tag|sets|..].
Defined.

(** ** [DownloadChunk] *)

(** The message; its payload is the oneof. *)
Record DownloadMessage := mkDownloadMessage { payload : option DownloadChunk }.

Definition Payload_encode (p : DownloadChunk) : bytes :=
  match p with PayloadInfo i => message_encode 1 i | PayloadData d => scalar_encode bytes_ 2 d end.
Definition Payload_len (p : DownloadChunk) : Z :=
  match p with PayloadInfo i => message_len 1 i | PayloadData d => scalar_len bytes_ 2 d end.
(** A header is merged into the one that is there. *)
Definition Payload_merge (n : nat) (field : option DownloadChunk) (tag : Z) (w : WireType) (l : bytes) : read DownloadChunk :=
  if tag =? 1 then
    let value := match field with Some (PayloadInfo i) => i | _ => message_default end in
    try (i, l) := message_merge n w value l in Ok (PayloadInfo i, l)
  else try (d, l) := scalar_merge bytes_ w l in Ok (PayloadData d, l).

Definition DownloadChunk_merge_field (n : nat) (m : DownloadMessage) (tag : Z) (w : WireType) (l : bytes)
    : read DownloadMessage :=
  if (tag =? 1) || (tag =? 2) then
    in_field "DownloadChunk" "payload" (fun p => mkDownloadMessage (Some p)) (Payload_merge n (payload m) tag w l)
  else skip_unknown n m tag w l.

#[export] Instance DownloadChunk_message : Message DownloadMessage := {|
  message_default := mkDownloadMessage None;
  encode_raw m := from_option Payload_encode [] (payload m);
  encoded_len m := from_option Payload_len 0 (payload m);
  merge_field := DownloadChunk_merge_field;
|}.

Definition payload_typed (p : DownloadChunk) : Prop := match p with PayloadInfo i => typed i | PayloadData _ => True end.

Lemma Payload_merge_inv n field tag w l p l' :
  Payload_merge n field tag w l = Ok (p, l') ->
  (length l' <= length l)%nat /\ (opt_typed payload_typed field -> payload_typed p).
Proof.
  unfold Payload_merge. destruct (tag =? 1).
  - destruct (message_merge _ _ _ _) as [[i l1]|] eqn:Hi; [|done]. intros [= <- <-].
    split; [exact (message_merge_shrinks _ _ _ _ _ _ Hi)|]. intros Hf. eapply message_merge_inv; [|exact Hi].
    destruct field as [[j|d]|]; [by apply (Hf (PayloadInfo j))|apply default_typed..].
  - destruct (scalar_merge bytes_ w l) as [[d l1]|] eqn:Hd; [|done]. eapply scalar_merge_inv in Hd; [|apply _].
    intros [= <- <-]. by split; [apply Hd|].
Qed.

#[export, refine] Instance DownloadChunk_laws : MessageLaws DownloadMessage := {|
  typed m := opt_typed payload_typed (payload m);
  height := 2;
|}.
Proof.
  - done.
  - intros [[[i|d]|]] Ht; cbn [encode_raw encoded_len DownloadChunk_message payload from_option Payload_encode Payload_len];
      [apply message_len_ok; [tag|by apply (Ht (PayloadInfo i))]|by apply (scalar_field_len _); [tag|]|done].
  - intros n m t w l m' l'. cbn [merge_field DownloadChunk_message]. unfold DownloadChunk_merge_field. intros Hm.
    merge_branch Hm; [by apply Payload_merge_inv in Hm as [? _]|done].
  - intros n m t w l m' l' Hty. cbn [merge_field DownloadChunk_message]. unfold DownloadChunk_merge_field. intros Hm.
    merge_branch Hm; [apply Payload_merge_inv in Hm as [_ Hm]; by apply opt_typed_some, Hm|done].
  - intros n [[[i|d]|]] Ht Hsize Hh; cbn [encode_raw DownloadChunk_message payload from_option Payload_encode message_default] in *;
      [| |apply takes_nil].
    + apply takes_message; [tag| |by apply (Ht (PayloadInfo i))|done|simpl; lia].
      intros rest Hm. cbn [merge_field DownloadChunk_message]. unfold DownloadChunk_merge_field, Payload_merge.
      cbn [Z.eqb Pos.eqb orb payload]. by rewrite Hm.
    + by apply (takes_scalar _ n _ 2 (fun v => mkDownloadMessage (Some (PayloadData v)))); [tag|sets|..].
Defined.

(** ** [RestoreRequest] and [RestoreReply] *)

Definition RestoreRequest_merge_field (n : nat) (m : RestoreRequest) (tag : Z) (w : WireType) (l : bytes)
    : read RestoreRequest :=
  if tag =? 1 then
    in_field "RestoreRequest" "backup" (fun v => mkRestoreRequest v (rr_confirm_db_name m))
      (optional_message_merge n w (rr_backup m) l)
  else if tag =? 2 then
    in_field "RestoreRequest" "confirm_db_name" (mkRestoreRequest (rr_backup m)) (scalar_merge string_ w l)
  else skip_unknown n m tag w l.

#[export] Instance RestoreRequest_message : Message RestoreRequest := {|
  message_default := mkRestoreRequest None "";
  encode_raw m := optional_message_encode 1 (rr_backup m) ++ plain_encode string_ 2 (rr_confirm_db_name m);
  encoded_len m := optional_message_len 1 (rr_backup m) + plain_len string_ 2 (rr_confirm_db_name m);
  merge_field := RestoreRequest_merge_field;
|}.

#[export, refine] Instance RestoreRequest_laws : MessageLaws RestoreRequest := {|
  typed m := opt_typed typed (rr_backup m) /\ is_str (rr_confirm_db_name m);
  height := 1;
|}.
Proof.
  - done.
  - intros m [Hb Ht]. cbn [encode_raw encoded_len RestoreRequest_message]. intros Hsize. rewrite remaining_app in *.
    rewrite optional_message_field_len, (plain_field_len _) by (done || tag || sizes). done.
  - intros n m t w l m' l'. cbn [merge_field RestoreRequest_message]. unfold RestoreRequest_merge_field. intros Hm.
    merge_branch Hm; first [done | by apply optional_message_merge_inv in Hm as [? _]
      | eapply scalar_merge_inv in Hm; [apply Hm|apply _]].
  - intros n m t w l m' l' [Hb Ht]. cbn [merge_field RestoreRequest_message]. unfold RestoreRequest_merge_field. intros Hm.
    merge_branch Hm; [field_typed Hm; split; [by apply Hm|done]|field_typed Hm; by split|done].
  - intros n [b t] [Hb Ht] Hsize Hh. cbn [encode_raw RestoreRequest_message message_default rr_backup rr_confirm_db_name] in *.
    eapply takes_app.
    + apply (takes_optional_message (F := BackupRef) n 1 ltac:(tag) _ (fun v => mkRestoreRequest v ""));
        [sets_message|done|sizes|simpl; lia|done].
    + apply (takes_plain _ n _ 2 (fun v => mkRestoreRequest b v)); [tag|sets|done|sizes|done].
Defined.

Definition RestoreReply_merge_field (n : nat) (m : RestoreReply) (tag : Z) (w : WireType) (l : bytes) : read RestoreReply :=
  if tag =? 1 then
    in_field "RestoreReply" "restored" (fun v => mkRestoreReply v (reply_pre_restore m))
      (optional_message_merge n w (reply_restored m) l)
  else if tag =? 2 then
    in_field "RestoreReply" "pre_restore_backup" (mkRestoreReply (reply_restored m))
      (optional_message_merge n w (reply_pre_restore m) l)
  else skip_unknown n m tag w l.

#[export] Instance RestoreReply_message : Message RestoreReply := {|
  message_default := mkRestoreReply None None;
  encode_raw m := optional_message_encode 1 (reply_restored m) ++ optional_message_encode 2 (reply_pre_restore m);
  encoded_len m := optional_message_len 1 (reply_restored m) + optional_message_len 2 (reply_pre_restore m);
  merge_field := RestoreReply_merge_field;
|}.

#[export, refine] Instance RestoreReply_laws : MessageLaws RestoreReply := {|
  typed m := opt_typed typed (reply_restored m) /\ opt_typed typed (reply_pre_restore m);
  height := 2;
|}.
Proof.
  - done.
  - intros m [Hb Ht]. cbn [encode_raw encoded_len RestoreReply_message]. intros Hsize. rewrite remaining_app in *.
    rewrite !optional_message_field_len by (done || tag || sizes). done.
  - intros n m t w l m' l'. cbn [merge_field RestoreReply_message]. unfold RestoreReply_merge_field. intros Hm.
    merge_branch Hm; first [done | by apply optional_message_merge_inv in Hm as [? _]].
  - intros n m t w l m' l' [Hb Ht]. cbn [merge_field RestoreReply_message]. unfold RestoreReply_merge_field. intros Hm.
    merge_branch Hm; [field_typed Hm; by split; [apply Hm|]|field_typed Hm; by split; [|apply Hm]|done].
  - intros n [b p] [Hb Ht] Hsize Hh. cbn [encode_raw RestoreReply_message message_default reply_restored reply_pre_restore] in *.
    eapply takes_app.
    + apply (takes_optional_message (F := ProtoInfo) n 1 ltac:(tag) _ (fun v => mkRestoreReply v None));
        [sets_message|done|sizes|simpl; lia|done].
    + apply (takes_optional_message (F := ProtoInfo) n 2 ltac:(tag) _ (fun v => mkRestoreReply b v));
        [sets_message|done|sizes|simpl; lia|done].
Defined.

(** ** What the handlers send *)

Lemma backup_info_typed info :
  is_str (id info) -> is_str (name info) -> is_i64 (timestamp (created_at info)) ->
  opt_typed is_u64 (size_bytes info) -> typed (backup_info info).
Proof.
  intros Hi Hn Ht Hs. split_and!; [done..| |done| |].
  - apply opt_typed_some. split; [done|]. cbn [nanos].
    destruct (try_from _ _ _) as [n|] eqn:Hf; [|by vm_compute]. apply try_from_Some in Hf as [-> Hf]. exact Hf.
  - cbn [backup_info p_format]. by destruct (format info).
  - cbn [backup_info p_kind]. by destruct (kind info).
Qed.

(** ** Theorems *)

(** Values of the type are read back from their bytes, whose number is known
    beforehand; and whatever is read from any bytes has the type. *)
Definition wire_format (M : Type) `{MessageLaws M} : Prop :=
  (forall m : M, typed m -> remaining (encode_to_vec m) <= U64_MAX ->
     encoded_len m = remaining (encode_to_vec m) /\ decode (encode_to_vec m) = Ok m) /\
  (forall l (m : M), decode l = Ok m -> typed m).

Lemma laws_wire_format M `{MessageLaws M} : (height (M := M) <= RECURSION_LIMIT)%nat -> wire_format M.
Proof.
  intros Hh. split; [|apply decode_typed]. intros m Hm Hs. split; [by apply encoded_len_ok|by apply decode_encode].
Qed.

(** C16. The messages of the service survive the wire: every request and reply
    whose strings are UTF-8 and whose numbers fit their types is decoded from
    its encoding as it was, in exactly the number of bytes computed for it; and
    whatever bytes a client sends, a message that is decoded from them has valid
    strings and numbers in range. *)
Theorem messages_roundtrip :
  wire_format CreateBackupRequest /\ wire_format ListBackupsRequest /\ wire_format ListBackupsReply /\
  wire_format BackupRef /\ wire_format ProtoInfo /\ wire_format DownloadMessage /\ wire_format RestoreRequest /\
  wire_format RestoreReply /\ wire_format HealthcheckRequest /\ wire_format HealthcheckReply.
Proof. split_and!; apply laws_wire_format; unfold RECURSION_LIMIT; simpl; lia. Qed.

(** A message with a name outside ASCII, and what is made of bytes that are not
    one: a wire type that does not fit, a string that is not UTF-8, a length
    beyond the end, a field of a group, a missing end of a group. *)
Example decode_examples :
  decode (encode_to_vec (mkProtoInfo "b1" (of_chars [chr 195; chr 164]) (Some (mkTimestamp (-1) 5)) (Some 0) 1 2)) =
    Ok (mkProtoInfo "b1" (of_chars [chr 195; chr 164]) (Some (mkTimestamp (-1) 5)) (Some 0) 1 2) /\
  result_map_err DecodeError_display (decode (M := BackupRef) [chr 8; chr 1]) =
    Err "failed to decode Protobuf message: BackupRef.target: invalid wire type: Varint (expected LengthDelimited)" /\
  result_map_err DecodeError_display (decode (M := BackupRef) [chr 10; chr 1; chr 255]) =
    Err "failed to decode Protobuf message: BackupRef.target: invalid string value: data is not UTF-8 encoded" /\
  result_map_err DecodeError_display (decode (M := RestoreRequest) [chr 10; chr 4; chr 10; chr 9]) =
    Err "failed to decode Protobuf message: RestoreRequest.backup: buffer underflow" /\
  decode (M := CreateBackupRequest) [chr 11; chr 8; chr 1; chr 12] = Ok mkCreateBackupRequest /\
  result_map_err DecodeError_display (decode (M := CreateBackupRequest) [chr 11; chr 8; chr 1]) =
    Err "failed to decode Protobuf message: invalid varint".
Proof. by vm_compute. Qed.

(** ** Messages of a newer version *)

(** What may follow the key of a field: a number, four or eight bytes, or bytes
    with their length. *)
Inductive field_body : WireType -> bytes -> Prop :=
| VarintBody v : is_u64 v -> field_body Varint (encode_varint v)
| FixedBody32 b : length b = 4%nat -> field_body ThirtyTwoBit b
| FixedBody64 b : length b = 8%nat -> field_body SixtyFourBit b
| DelimitedBody b : remaining b <= U64_MAX -> field_body LengthDelimited (encode_varint (remaining b) ++ b).

Lemma drop_sized (b rest : bytes) k : Z.of_nat (length b) = k ->
  (if remaining (b ++ rest) <? k then decode_error BufferUnderflow else Ok (drop (Z.to_nat k) (b ++ rest))) = Ok rest.
Proof.
  intros Hk. rewrite remaining_app, (proj2 (Z.ltb_ge _ _)) by (unfold remaining; lia).
  replace (Z.to_nat k) with (length b) by lia. by rewrite drop_app_length.
Qed.

Lemma skip_field_body n w tag body rest : field_body w body -> skip_field (S n) w tag (body ++ rest) = Ok rest.
Proof.
  destruct 1 as [v Hv|b Hb|b Hb|b Hb]; cbn [skip_field].
  - rewrite decode_encode_varint by done. cbn match. apply (drop_sized []). done.
  - by rewrite drop_sized by (by rewrite Hb).
  - by rewrite drop_sized by (by rewrite Hb).
  - pose proof (remaining_nonneg b). rewrite <-app_assoc, decode_encode_varint by done. cbn match. by apply drop_sized.
Qed.

(** No field of the messages has a tag above 6. *)
Definition unknown_above (last : Z) (M : Type) `{Message M} : Prop :=
  forall n (m : M) tag w l, last < tag -> merge_field n m tag w l = skip_unknown n m tag w l.

Ltac unknown_tag := intros n m tag w l Ht;
  (cbv [merge_field Timestamp_merge_field BackupInfo_merge_field HealthcheckReply_merge_field ListBackupsRequest_merge_field
    ListBackupsReply_merge_field BackupRef_merge_field DownloadChunk_merge_field RestoreRequest_merge_field
    RestoreReply_merge_field Timestamp_message BackupInfo_message CreateBackupRequest_message HealthcheckRequest_message
    HealthcheckReply_message ListBackupsRequest_message ListBackupsReply_message BackupRef_message
    DownloadChunk_message RestoreRequest_message RestoreReply_message]);
  repeat (rewrite (proj2 (Z.eqb_neq tag _)) by lia); by try destruct m.

(** The fields of [M] have the tags up to [last]. *)
Definition ignores_new_fields (last : Z) (M : Type) `{MessageLaws M} : Prop :=
  forall (m : M) tag w body, typed m -> remaining (encode_raw m) <= U64_MAX ->
    last < tag <= MAX_TAG -> field_body w body ->
    decode (encode_raw m ++ encode_key tag w ++ body) = Ok m /\
    decode ((encode_key tag w ++ body) ++ encode_raw m) = Ok m.

Lemma laws_ignore_new_fields last M `{MessageLaws M} :
  0 <= last -> (height (M := M) <= RECURSION_LIMIT)%nat -> unknown_above last M -> ignores_new_fields last M.
Proof.
  intros Hlast Hh Hu m tag w body Hm Hs Ht Hb.
  assert (forall x : M, takes RECURSION_LIMIT x (encode_key tag w ++ body) x) as Hskip.
  { intros x. apply takes_field.
    - unfold tag_ok. change MIN_TAG with 1. lia.
    - intros rest. rewrite Hu by lia. unfold skip_unknown. change RECURSION_LIMIT with (S 99). by rewrite skip_field_body. }
  pose proof (encode_takes RECURSION_LIMIT m Hm Hs Hh) as Hm'.
  split; apply decode_takes; by eapply takes_app.
Qed.

(** C25. A client may be newer than the server, or the other way round: a field
    that a message does not have (any tag after those of its own fields, and any
    wire type but the obsolete groups), before or after the others, changes
    nothing. *)
Theorem new_fields_ignored :
  ignores_new_fields 0 CreateBackupRequest /\ ignores_new_fields 2 ListBackupsRequest /\
  ignores_new_fields 2 ListBackupsReply /\ ignores_new_fields 2 BackupRef /\ ignores_new_fields 6 ProtoInfo /\
  ignores_new_fields 2 Timestamp /\ ignores_new_fields 2 DownloadMessage /\ ignores_new_fields 2 RestoreRequest /\
  ignores_new_fields 2 RestoreReply /\ ignores_new_fields 0 HealthcheckRequest /\
  ignores_new_fields 1 HealthcheckReply.
Proof.
  split_and!; (apply laws_ignore_new_fields; [done|unfold RECURSION_LIMIT; simpl; lia|unknown_tag]).
Qed.
