(* ===== verification/Grpc.v ===== *)
(** * [tonic]: gRPC over HTTP/2

    How calls travel: messages in frames of five header bytes and a body
    ([codec/encode.rs], [codec/decode.rs]), statuses in headers and trailers
    ([status.rs]), the server's and the client's halves of a call
    ([server/grpc.rs], [client/grpc.rs]).  Compression is a feature of the crate
    that the program does not enable, so that no encoding is known.  A body is
    the sequence of the frames HTTP/2 delivers; a status keeps its code and its
    message (the server sends neither details nor metadata). *)

From Stdlib Require Import ZArith Lia Ascii.
From stdpp Require Import base numbers gmap sorting strings list.
From S2P Require Import Prelude RustStd Url Utf8 Chrono Core Ports Service Api Prost.
Open Scope Z_scope.
Open Scope rust_scope.

(** ** Headers *)

(** Names are lower case; a value is a byte string. *)
Abbreviation HeaderMap := (list (string * string)).

Definition header_get (name : string) (h : HeaderMap) : option string :=
  snd <$> List.find (fun p => String.eqb p.1 name) h.
Definition header_insert (name value : string) (h : HeaderMap) : HeaderMap :=
  List.filter (fun p => negb (String.eqb p.1 name)) h ++ [(name, value)].

Definition GRPC_STATUS : string := "grpc-status".
Definition GRPC_MESSAGE : string := "grpc-message".
Definition CONTENT_TYPE : string := "content-type".
Definition GRPC_CONTENT_TYPE : string := "application/grpc".
Definition ENCODING_HEADER : string := "grpc-encoding".

(** ** Statuses *)

Definition Code_to_i32 (c : Code) : Z :=
  match c with
  | CodeOk => 0 | CodeCancelled => 1 | CodeUnknown => 2 | CodeInvalidArgument => 3 | CodeDeadlineExceeded => 4
  | CodeNotFound => 5 | CodeAlreadyExists => 6 | CodePermissionDenied => 7 | CodeResourceExhausted => 8
  | CodeFailedPrecondition => 9 | CodeAborted => 10 | CodeOutOfRange => 11 | CodeUnimplemented => 12
  | CodeInternal => 13 | CodeUnavailable => 14 | CodeDataLoss => 15 | CodeUnauthenticated => 16
  end.

Definition to_header_value (c : Code) : string :=
  match c with
  | CodeOk => "0" | CodeCancelled => "1" | CodeUnknown => "2" | CodeInvalidArgument => "3"
  | CodeDeadlineExceeded => "4" | CodeNotFound => "5" | CodeAlreadyExists => "6" | CodePermissionDenied => "7"
  | CodeResourceExhausted => "8" | CodeFailedPrecondition => "9" | CodeAborted => "10" | CodeOutOfRange => "11"
  | CodeUnimplemented => "12" | CodeInternal => "13" | CodeUnavailable => "14" | CodeDataLoss => "15"
  | CodeUnauthenticated => "16"
  end.

Definition Code_from_bytes (bytes : list ascii) : Code :=
  match code <$> bytes with
  | [48] => CodeOk | [49] => CodeCancelled | [50] => CodeUnknown | [51] => CodeInvalidArgument
  | [52] => CodeDeadlineExceeded | [53] => CodeNotFound | [54] => CodeAlreadyExists | [55] => CodePermissionDenied
  | [56] => CodeResourceExhausted | [57] => CodeFailedPrecondition
  | [49; 48] => CodeAborted | [49; 49] => CodeOutOfRange | [49; 50] => CodeUnimplemented | [49; 51] => CodeInternal
  | [49; 52] => CodeUnavailable | [49; 53] => CodeDataLoss | [49; 54] => CodeUnauthenticated
  | _ => CodeUnknown
  end.

(* space, quote, hash, percent, <, >, backquote, ?, braces *)
Definition ENCODING_SET (c : ascii) : bool := CONTROLS c || one_of [32; 34; 35; 37; 60; 62; 96; 63; 123; 125] c.

(** A percent-encoded message is always a header value. *)
Definition add_header (st : Status) (h : HeaderMap) : HeaderMap :=
  let h := header_insert GRPC_STATUS (to_header_value (status_code st)) h in
  if str_is_empty (status_message st) then h
  else header_insert GRPC_MESSAGE (of_chars (percent_encode ENCODING_SET (chars (status_message st)))) h.

Definition to_header_map (st : Status) : HeaderMap := add_header st [].

(** [Display] of [Utf8Error] for bytes that are not UTF-8: where the first
    error starts and how long it is, unless the text ends within a character. *)
Fixpoint first_error (pos : nat) (cs : list (bool * list ascii)) : nat * list ascii :=
  match cs with
  | [] => (pos, [])
  | (true, c) :: cs => first_error (pos + length c) cs
  | (false, c) :: _ => (pos, c)
  end.
Definition Utf8Error_display (l : list ascii) : string :=
  let '(pos, c) := first_error 0 (utf8_chunks (length l) l) in
  let at_ := int_to_string (Z.of_nat pos) in
  if bool_decide (pos + length c = length l)%nat && (2 <=? utf8_char_width (safe_get l pos))%nat
  then "incomplete utf-8 byte sequence from index " +:+ at_
  else "invalid utf-8 sequence of " +:+ int_to_string (Z.of_nat (length c)) +:+ " bytes from index " +:+ at_.

Definition from_header_map (h : HeaderMap) : option Status :=
  value ← header_get GRPC_STATUS h;
  let code := Code_from_bytes (chars value) in
  Some match header_get GRPC_MESSAGE h with
       | None => mkStatus code ""
       | Some m =>
           let text := percent_decode (chars m) in
           if utf8_valid text then mkStatus code (of_chars text)
           else mkStatus CodeUnknown ("Error deserializing status message header: " +:+ Utf8Error_display text)
       end.

(** [canonical_reason] of the [http] crate. *)
Definition canonical_reasons : list (Z * string) :=
  [(100, "Continue"); (101, "Switching Protocols"); (102, "Processing"); (103, "Early Hints"); (200, "OK");
   (201, "Created"); (202, "Accepted"); (203, "Non Authoritative Information"); (204, "No Content");
   (205, "Reset Content"); (206, "Partial Content"); (207, "Multi-Status"); (208, "Already Reported");
   (226, "IM Used"); (300, "Multiple Choices"); (301, "Moved Permanently"); (302, "Found"); (303, "See Other");
   (304, "Not Modified"); (305, "Use Proxy"); (307, "Temporary Redirect"); (308, "Permanent Redirect");
   (400, "Bad Request"); (401, "Unauthorized"); (402, "Payment Required"); (403, "Forbidden");
   (404, "Not Found"); (405, "Method Not Allowed"); (406, "Not Acceptable");
   (407, "Proxy Authentication Required"); (408, "Request Timeout"); (409, "Conflict"); (410, "Gone");
   (411, "Length Required"); (412, "Precondition Failed"); (413, "Payload Too Large"); (414, "URI Too Long");
   (415, "Unsupported Media Type"); (416, "Range Not Satisfiable"); (417, "Expectation Failed");
   (418, "I'm a teapot"); (421, "Misdirected Request"); (422, "Unprocessable Entity"); (423, "Locked");
   (424, "Failed Dependency"); (425, "Too Early"); (426, "Upgrade Required"); (428, "Precondition Required");
   (429, "Too Many Requests"); (431, "Request Header Fields Too Large");
   (451, "Unavailable For Legal Reasons"); (500, "Internal Server Error"); (501, "Not Implemented");
   (502, "Bad Gateway"); (503, "Service Unavailable"); (504, "Gateway Timeout");
   (505, "HTTP Version Not Supported"); (506, "Variant Also Negotiates"); (507, "Insufficient Storage");
   (508, "Loop Detected"); (510, "Not Extended"); (511, "Network Authentication Required")].

Definition StatusCode_display (n : Z) : string :=
  int_to_string n +:+ " " +:+
  from_option snd "<unknown status code>" (List.find (fun p => p.1 =? n) canonical_reasons).

(** No error, or the one the trailers or else the HTTP status tell. *)
Definition infer_grpc_status (trailers : option HeaderMap) (status_code_ : Z) : result unit Status :=
  match trailers ≫= from_header_map with
  | Some st => if bool_decide (status_code st = CodeOk) then Ok tt else Err st
  | None =>
      let mapped c := Err (mkStatus c ("grpc-status header missing, mapped from HTTP status code " +:+
                                       int_to_string status_code_)) in
      if status_code_ =? 400 then mapped CodeInternal
      else if status_code_ =? 401 then mapped CodeUnauthenticated
      else if status_code_ =? 403 then mapped CodePermissionDenied
      else if status_code_ =? 404 then mapped CodeUnimplemented
      else if existsb (Z.eqb status_code_) [429; 502; 503; 504] then mapped CodeUnavailable
      else if status_code_ =? 200 then
        Err (mkStatus CodeUnknown ("protocol error: missing grpc-status trailer, stream was terminated without a "
          +:+ "final status (possible truncation by a proxy or load balancer)"))
      else mapped CodeUnknown
  end.

(** ** Bodies *)

Inductive Frame := FData (data : bytes) | FTrailers (trailers : HeaderMap) | FError (st : Status).

Definition HEADER_SIZE : Z := 5.
Definition DEFAULT_MAX_RECV_MESSAGE_SIZE : Z := 4 * 1024 * 1024.
Definition DEFAULT_MAX_SEND_MESSAGE_SIZE : Z := USIZE_MAX.
Definition DEFAULT_YIELD_THRESHOLD : Z := 32 * 1024.

(** Big endian. *)
Definition put_u32 (n : Z) : bytes :=
  [chr (n / 2 ^ 24 mod 256); chr (n / 2 ^ 16 mod 256); chr (n / 2 ^ 8 mod 256); chr (n mod 256)].
Definition get_u32 (l : bytes) : Z :=
  safe_get l 0 * 2 ^ 24 + safe_get l 1 * 2 ^ 16 + safe_get l 2 * 2 ^ 8 + safe_get l 3.

(** *** Sending *)

(** The header of a message of [len] bytes. *)
Definition finish_encoding (max_message_size : option Z) (len : Z) : result bytes Status :=
  let limit := default DEFAULT_MAX_SEND_MESSAGE_SIZE max_message_size in
  if limit <? len then
    Err (mkStatus CodeOutOfRange ("Error, encoded message length too large: found " +:+ int_to_string len +:+
                                  " bytes, the limit is: " +:+ int_to_string limit +:+ " bytes"))
  else if U32_MAX <? len then
    Err (mkStatus CodeResourceExhausted ("Cannot return body with more than 4GB of data but got " +:+
                                         int_to_string len +:+ " bytes"))
  else Ok (chr 0 :: put_u32 len).

Inductive Role := RoleClient | RoleServer.

Section Send.
Context {T} `{Message T} (role : Role) (max_message_size : option Z).

(** The message appended to the buffer, behind its header. *)
Definition encode_item (buf : bytes) (item : T) : result bytes Status :=
  let body := encode_raw item in
  try header := finish_encoding max_message_size (remaining body) in
  Ok (buf ++ header ++ body).

(** The end of a body: [EncodeState::trailers], and a status as [poll_frame]
    turns it into a frame. *)
Definition end_frames : list Frame :=
  match role with RoleClient => [] | RoleServer => [FTrailers (to_header_map (mkStatus CodeOk ""))] end.
Definition error_frames (st : Status) : list Frame :=
  match role with RoleClient => [FError st] | RoleServer => [FTrailers (to_header_map st)] end.

Definition flush (buf : bytes) : list Frame := match buf with [] => [] | _ => [FData buf] end.

(** [EncodedBytes::poll_next] and [EncodeBody::poll_frame] until the body ends.
    The source is what its polls answer: [None] is [Pending], the end of the
    list the end of the source. *)
Fixpoint encode_body (buf : bytes) (source : list (option (result T Status))) : list Frame :=
  match source with
  | [] => flush buf ++ end_frames
  | None :: source => flush buf ++ encode_body [] source
  | Some (Ok item) :: source =>
      match encode_item buf item with
      | Err st => error_frames st
      | Ok buf =>
          if DEFAULT_YIELD_THRESHOLD <=? remaining buf then FData buf :: encode_body [] source
          else encode_body buf source
      end
  | Some (Err st) :: _ => flush buf ++ error_frames st
  end.
End Send.

(** *** Receiving *)

Inductive State := ReadHeader | ReadBody (len : Z).
Inductive Direction := DirRequest | DirResponse (status : Z) | DirEmptyResponse.

(** [from_decode_error]: the decoder of [tonic-prost]. *)
Definition from_decode_error (e : DecodeError) : Status := mkStatus CodeInternal (DecodeError_display e).

Definition invalid_flag (direction : Direction) (f : Z) : Status :=
  mkStatus CodeInternal
    ("protocol error: received message with invalid compression flag: " +:+ int_to_string f +:+
     " (valid flags are 0 and 1)" +:+
     match direction with
     | DirResponse status => " while receiving response with status: " +:+ StatusCode_display status
     | _ => ", while sending request"
     end).

Section Receive.
Context {T} `{Message T} (direction : Direction) (max_message_size : option Z).

(** The first five bytes: the flag and the length. *)
Definition read_header (buf : bytes) : result Z Status :=
  let flag := safe_get buf 0 in
  if flag =? 0 then
    let len := get_u32 (drop 1 buf) in
    let limit := default DEFAULT_MAX_RECV_MESSAGE_SIZE max_message_size in
    if limit <? len then
      Err (mkStatus CodeOutOfRange ("Error, decoded message length too large: found " +:+ int_to_string len +:+
                                    " bytes, the limit is: " +:+ int_to_string limit +:+ " bytes"))
    else Ok len
  else if flag =? 1 then
    Err (mkStatus CodeInternal
      "protocol error: received message with compressed-flag but no grpc-encoding was specified")
  else Err (invalid_flag direction flag).

(** [StreamingInner::decode_chunk] up to the state [ReadBody]. *)
Definition start_chunk (buf : bytes) (state : State) : result (bytes * State) Status :=
  match state with
  | ReadHeader =>
      if remaining buf <? HEADER_SIZE then Ok (buf, ReadHeader)
      else try len := read_header buf in Ok (drop (Z.to_nat HEADER_SIZE) buf, ReadBody len)
  | ReadBody len => Ok (buf, ReadBody len)
  end.

(** [decode_chunk]: a message if the buffer holds a whole one. *)
Definition decode_chunk (buf : bytes) (state : State) : result (option T * bytes * State) Status :=
  try (buf, state) := start_chunk buf state in
  match state with
  | ReadHeader => Ok (None, buf, ReadHeader)
  | ReadBody len =>
      if remaining buf <? len then Ok (None, buf, ReadBody len)
      else
        try m := result_map_err from_decode_error (decode (take (Z.to_nat len) buf)) in
        Ok (Some m, drop (Z.to_nat len) buf, ReadHeader)
  end.

(** The messages the buffer holds, and what is left; a message takes a byte at
    least of the buffer or ends the state [ReadBody]. *)
Fixpoint decode_chunks (fuel : nat) (buf : bytes) (state : State) : list T * result (bytes * State) Status :=
  match fuel with
  | O => ([], Ok (buf, state))
  | S fuel =>
      match decode_chunk buf state with
      | Err st => ([], Err st)
      | Ok (None, buf, state) => ([], Ok (buf, state))
      | Ok (Some m, buf, state) => let '(ms, r) := decode_chunks fuel buf state in (m :: ms, r)
      end
  end.

Definition buffered (buf : bytes) (state : State) : list T * result (bytes * State) Status :=
  decode_chunks (S (S (length buf))) buf state.

(** [response]: what the end of a body means. *)
Definition response (trailers : option HeaderMap) : result unit Status :=
  match direction with
  | DirResponse status => infer_grpc_status trailers status
  | _ => Ok tt
  end.

(** [poll_frame] on a frame that is no data, or the end of the body. *)
Definition last_frame (buf : bytes) (frame : option Frame) : result unit Status :=
  match frame with
  | None =>
      if 0 <? remaining buf then Err (mkStatus CodeInternal "Unexpected EOF decoding stream.") else response None
  | Some (FError st) =>
      if bool_decide (status_code st = CodeCancelled) && match direction with DirRequest => true | _ => false end
      then response None else Err st
  | Some (FTrailers t) => response (Some t)
  | Some (FData _) => Ok tt
  end.

(** [Streaming::poll_next] until it gives an error or the end: the messages and
    how the stream ended. *)
Fixpoint streaming (frames : list Frame) (buf : bytes) (state : State) : list T * result unit Status :=
  match buffered buf state with
  | (ms, Err st) => (ms, Err st)
  | (ms, Ok (buf, state)) =>
      match frames with
      | FData d :: frames => let '(ms', r) := streaming frames (buf ++ d) state in (ms ++ ms', r)
      | frames => (ms, last_frame buf (head frames))
      end
  end.

(** A stream from its start. *)
Definition read_stream (frames : list Frame) : list T * result unit Status := streaming frames [] ReadHeader.

(** [try_next], and [trailers], which reads the stream to its end: how both
    sides read a call with one message. *)
Definition read_single (missing : string) (frames : list Frame) : result T Status :=
  match read_stream frames with
  | (_, Err st) => Err st
  | ([], Ok _) => Err (mkStatus CodeInternal missing)
  | (m :: _, Ok _) => Ok m
  end.
End Receive.

(** ** The server's half of a call *)

Record GrpcRequest := mkGrpcRequest { req_path : string; req_headers : HeaderMap; req_body : list Frame }.
Record GrpcResponse := mkGrpcResponse { resp_status : Z; resp_headers : HeaderMap; resp_body : list Frame }.

(** [{:?}] of a byte slice. *)
Fixpoint join_bytes (l : list ascii) : string :=
  match l with
  | [] => ""
  | [c] => int_to_string (code c)
  | c :: l => int_to_string (code c) +:+ ", " +:+ join_bytes l
  end.

(** [CompressionEncoding::from_encoding_header], no encoding being enabled. *)
Definition from_encoding_header (h : HeaderMap) : result unit Status :=
  match header_get ENCODING_HEADER h with
  | None => Ok tt
  | Some v =>
      if String.eqb v "identity" then Ok tt
      else
        let other := if utf8_valid (chars v) then v else "[" +:+ join_bytes (chars v) +:+ "]" in
        Err (mkStatus CodeUnimplemented ("Content is compressed with `" +:+ other +:+ "` which isn't supported"))
  end.

(** [Status::into_http]: a response of headers only. *)
Definition into_http (st : Status) : GrpcResponse :=
  mkGrpcResponse 200 (add_header st [(CONTENT_TYPE, GRPC_CONTENT_TYPE)]) [].

Definition map_request_unary {T} `{Message T} (req : GrpcRequest) : result T Status :=
  try _ := from_encoding_header (req_headers req) in
  read_single DirRequest None "Missing request message." (req_body req).

Definition map_response {T} `{Message T} (r : result (list (option (result T Status))) Status) : GrpcResponse :=
  match r with
  | Err st => into_http st
  | Ok source => mkGrpcResponse 200 [(CONTENT_TYPE, GRPC_CONTENT_TYPE)] (encode_body RoleServer None [] source)
  end.

(** [tokio_stream::once]: the source of a reply with one message. *)
Definition once {T} (r : result T Status) : result (list (option (result T Status))) Status :=
  match r with Ok m => Ok [Some (Ok m)] | Err st => Err st end.

(** ** The client's half *)

(** [prepare_request] for the call [path] with one message. *)
Definition client_request {T} `{Message T} (path : string) (m : T) : GrpcRequest :=
  mkGrpcRequest path [("te", "trailers"); (CONTENT_TYPE, GRPC_CONTENT_TYPE)]
    (encode_body RoleClient None [] [Some (Ok m)]).

(** [create_response]: how the body is to be read. *)
Definition create_response (resp : GrpcResponse) : result Direction Status :=
  try _ := from_encoding_header (resp_headers resp) in
  match from_header_map (resp_headers resp) with
  | Some st => if bool_decide (status_code st = CodeOk) then Ok DirEmptyResponse else Err st
  | None => Ok (DirResponse (resp_status resp))
  end.

Definition client_unary {T} `{Message T} (resp : GrpcResponse) : result T Status :=
  try direction := create_response resp in
  read_single direction None "Missing response message." (resp_body resp).

(** A streaming call: the messages, and how the stream ended. *)
Definition client_stream {T} `{Message T} (resp : GrpcResponse) : list T * result unit Status :=
  match create_response resp with
  | Err st => ([], Err st)
  | Ok direction => read_stream direction None (resp_body resp)
  end.

(** ** Transport *)

(** HTTP/2 delivers the bytes of a body in pieces of its own; what is not data
    comes last and as it is. *)
Inductive transported : list Frame -> list Frame -> Prop :=
| Transported ds ds' tail :
    concat ds = concat ds' -> (forall d, FData d ∉ tail) ->
    transported ((FData <$> ds) ++ tail) ((FData <$> ds') ++ tail).

(** ** Facts: statuses *)

Lemma percent_decode_encode set l : set "%"%char = true -> percent_decode (percent_encode set l) = l.
Proof.
  intros Hset. induction l as [|c l IH]; [done|]. unfold percent_encode in *. cbn [flat_map].
  unfold percent_encode_one at 1. destruct ((128 <=? code c) || set c) eqn:Hc.
  - transitivity (chr (16 * (code c / 16) + code c mod 16) :: percent_decode (flat_map (percent_encode_one set) l)).
    2:{ by rewrite <-Z.div_mod, chr_code, IH by lia. }
    clear IH. revert Hc. generalize (flat_map (percent_encode_one set) l). intros k _.
    by destruct c as [[] [] [] [] [] [] [] []].
  - apply orb_false_iff in Hc as [_ Hc]. assert (Ascii.eqb c "%" = false) as Hp.
    { destruct (Ascii.eqb_spec c "%") as [->|]; [congruence|done]. }
    simpl. rewrite Hp. destruct (flat_map _ l) as [|h [|k rest]] eqn:Hk; rewrite <-?IH; try done.
Qed.

Lemma code_header_roundtrip c : Code_from_bytes (chars (to_header_value c)) = c.
Proof. by destruct c. Qed.

Lemma header_get_insert name v h : header_get name (header_insert name v h) = Some v.
Proof.
  unfold header_get, header_insert. induction h as [|[n w] h IH]; simpl; [by rewrite String.eqb_refl|].
  destruct (String.eqb n name) eqn:Hn; simpl; [done|by rewrite Hn].
Qed.

Lemma header_get_insert_ne name n v h : n <> name -> header_get name (header_insert n v h) = header_get name h.
Proof.
  intros Hne. unfold header_get, header_insert. induction h as [|[m w] h IH]; simpl.
  - by rewrite (proj2 (String.eqb_neq n name)).
  - destruct (String.eqb_spec m n) as [->|]; simpl.
    + by rewrite (proj2 (String.eqb_neq n name)).
    + by destruct (String.eqb m name).
Qed.

Lemma from_header_map_add st h :
  is_str (status_message st) -> header_get GRPC_MESSAGE h = None -> from_header_map (add_header st h) = Some st.
Proof.
  intros Hs Hm. unfold from_header_map, add_header. destruct st as [c m]; cbn [status_code status_message] in *.
  destruct m as [|a m]; cbn [str_is_empty].
  - rewrite header_get_insert, header_get_insert_ne, Hm by done. cbn. by rewrite code_header_roundtrip.
  - rewrite (header_get_insert_ne GRPC_STATUS GRPC_MESSAGE), !header_get_insert by done.
    cbn [mbind option_bind]. rewrite code_header_roundtrip.
    rewrite chars_of_chars, percent_decode_encode by done. unfold is_str in Hs. by rewrite Hs, of_chars_chars.
Qed.

(** ** Facts: bodies *)

Section Framing.
Context {T} `{Message T} (direction : Direction) (limit : option Z).

Abbreviation decode_chunk := (decode_chunk (T := T) direction limit).
Abbreviation decode_chunks := (decode_chunks (T := T) direction limit).
Abbreviation buffered := (buffered (T := T) direction limit).
Abbreviation streaming := (streaming (T := T) direction limit).

Definition weight (buf : bytes) (state : State) : nat :=
  length buf + match state with ReadHeader => 0 | ReadBody _ => 1 end.

Lemma decode_chunk_progress buf state m buf' state' :
  decode_chunk buf state = Ok (Some m, buf', state') -> (weight buf' state' < weight buf state)%nat.
Proof.
  unfold Grpc.decode_chunk, start_chunk, weight. destruct state as [|len].
  - destruct (remaining buf <? HEADER_SIZE) eqn:Hr; [done|]. destruct (read_header _ _ _) as [len|]; [|done].
    cbn -[drop]. apply Z.ltb_ge in Hr. unfold remaining, HEADER_SIZE in Hr. destruct (_ <? len); [done|].
    destruct (result_map_err _ _); [|done]. intros [= <- <- <-].
    rewrite !length_drop. unfold HEADER_SIZE. lia.
  - cbn. destruct (_ <? len); [done|]. destruct (result_map_err _ _); [|done]. intros [= <- <- <-].
    rewrite length_drop. lia.
Qed.

Lemma decode_chunks_fuel n k buf state :
  (weight buf state < n)%nat -> (n <= k)%nat -> decode_chunks n buf state = decode_chunks k buf state.
Proof.
  revert k buf state. induction n as [|n IH]; [lia|]. intros [|k] buf state Hn Hk; [lia|]. cbn.
  destruct (decode_chunk buf state) as [[[[m|] buf'] state']|st] eqn:Hd; [|done..].
  apply decode_chunk_progress in Hd. by rewrite (IH k) by lia.
Qed.

(** The fuel is enough: [buffered] does what the loop of [poll_next] does. *)
Lemma buffered_step buf state :
  buffered buf state =
  match decode_chunk buf state with
  | Err st => ([], Err st)
  | Ok (None, buf, state) => ([], Ok (buf, state))
  | Ok (Some m, buf, state) => let '(ms, r) := buffered buf state in (m :: ms, r)
  end.
Proof.
  transitivity (match decode_chunk buf state with
    | Err st => ([], Err st)
    | Ok (None, buf, state) => ([], Ok (buf, state))
    | Ok (Some m, b, state) => let '(ms, r) := decode_chunks (S (length buf)) b state in (m :: ms, r)
    end); [done|]. unfold Grpc.buffered.
  destruct (decode_chunk buf state) as [[[[m|] buf'] state']|st] eqn:Hd; [|done..].
  apply decode_chunk_progress in Hd. assert (weight buf state <= S (length buf))%nat by (unfold weight; destruct state; lia).
  assert (weight buf' state' < S (S (length buf')))%nat by (unfold weight; destruct state'; lia).
  rewrite <-(decode_chunks_fuel (S (weight buf' state')) (S (length buf))) by lia.
  by rewrite <-(decode_chunks_fuel (S (weight buf' state')) (S (S (length buf')))) by lia.
Qed.

(** More data changes nothing of what was decided without it. *)
Lemma read_header_app buf d : HEADER_SIZE <= remaining buf ->
  read_header direction limit (buf ++ d) = read_header direction limit buf.
Proof.
  unfold remaining, HEADER_SIZE, read_header, get_u32. intros Hl. rewrite drop_app_le by lia.
  assert (forall i, (i < 4)%nat -> safe_get (drop 1 buf ++ d) i = safe_get (drop 1 buf) i) as Hg.
  { intros i Hi. apply safe_get_app_l. rewrite length_drop. lia. }
  rewrite !Hg by lia. by rewrite safe_get_app_l by lia.
Qed.

Lemma decode_body_app len buf d r :
  (if remaining buf <? len then Ok (None, buf, ReadBody len)
   else try m := result_map_err from_decode_error (decode (take (Z.to_nat len) buf)) in
        Ok (Some m, drop (Z.to_nat len) buf, ReadHeader)) = r ->
  decode_chunk (buf ++ d) (ReadBody len) =
  match r with
  | Ok (Some m, buf, state) => Ok (Some m, buf ++ d, state)
  | Ok (None, buf, state) => decode_chunk (buf ++ d) state
  | Err st => Err st
  end.
Proof.
  intros <-. destruct (remaining buf <? len) eqn:Hr; [done|]. unfold Grpc.decode_chunk. cbn.
  apply Z.ltb_ge in Hr. rewrite remaining_app, (proj2 (Z.ltb_ge _ _)) by (unfold remaining in *; lia).
  unfold remaining in Hr. rewrite take_app_le, drop_app_le by lia. by destruct (result_map_err _ _).
Qed.

Lemma decode_chunk_app buf state d :
  decode_chunk (buf ++ d) state =
  match decode_chunk buf state with
  | Ok (Some m, buf, state) => Ok (Some m, buf ++ d, state)
  | Ok (None, buf, state) => decode_chunk (buf ++ d) state
  | Err st => Err st
  end.
Proof.
  destruct state as [|len]; [|by apply decode_body_app].
  unfold Grpc.decode_chunk at 2, start_chunk. destruct (remaining buf <? HEADER_SIZE) eqn:Hr; [done|].
  apply Z.ltb_ge in Hr. unfold Grpc.decode_chunk at 1, start_chunk.
  rewrite remaining_app, (proj2 (Z.ltb_ge _ _)), read_header_app by (unfold remaining in *; lia).
  destruct (read_header direction limit buf) as [len|e]; [|done]. cbn match.
  rewrite drop_app_le by (unfold remaining, HEADER_SIZE in *; lia). by apply decode_body_app.
Qed.

Lemma buffered_app buf state d :
  buffered (buf ++ d) state =
  match buffered buf state with
  | (ms, Err st) => (ms, Err st)
  | (ms, Ok (buf, state)) => let '(ms', r) := buffered (buf ++ d) state in (ms ++ ms', r)
  end.
Proof.
  remember (weight buf state) as w eqn:Hw. revert buf state Hw.
  induction w as [w IH] using lt_wf_ind. intros buf state ->.
  rewrite (buffered_step buf), (buffered_step (buf ++ d)), decode_chunk_app.
  destruct (decode_chunk buf state) as [[[[m|] buf'] state']|st] eqn:Hd; [|by rewrite <-buffered_step; destruct (buffered _ _)|done].
  rewrite (IH (weight buf' state')) by (done || by eapply decode_chunk_progress).
  destruct (buffered buf' state') as [ms [[b s]|st]]; [|done]. by destruct (buffered (b ++ d) s).
Qed.

Definition no_data (tail : list Frame) : Prop := forall d, FData d ∉ tail.

(** What follows the last data. *)
Definition finish (tail : list Frame) (p : list T * result (bytes * State) Status) : list T * result unit Status :=
  match p with
  | (ms, Err st) => (ms, Err st)
  | (ms, Ok (buf, _)) => (ms, last_frame direction buf (head tail))
  end.

(** The messages and the end of a body are those of its bytes taken together. *)
Lemma streaming_concat ds tail buf state : no_data tail ->
  streaming ((FData <$> ds) ++ tail) buf state = finish tail (buffered (buf ++ concat ds) state).
Proof.
  intros Ht. revert buf state. induction ds as [|d ds IH]; intros buf state; cbn [fmap list_fmap app concat].
  - rewrite app_nil_r. destruct tail as [|[d| |] tail]; [| destruct (Ht d); by left|..]; cbn;
      by destruct (buffered buf state) as [ms [[b s]|?]].
  - cbn [Grpc.streaming]. rewrite buffered_app. destruct (buffered buf state) as [ms [[b s]|st]]; [|done].
    rewrite IH, <-app_assoc. by destruct (buffered (b ++ d ++ concat ds) s) as [ms' [[b' s']|st]].
Qed.

Lemma read_body_transported fs fs' : transported fs fs' -> read_stream (T := T) direction limit fs = read_stream direction limit fs'.
Proof.
  intros [ds ds' tail Hc Ht]. unfold read_stream. rewrite !streaming_concat by done. by rewrite Hc.
Qed.
End Framing.

Section RoundTrip.
Context {T} `{MessageLaws T} (Hheight : (height (M := T) <= RECURSION_LIMIT)%nat).

(** A message that a side with the default limits takes. *)
Definition fits (m : T) : Prop := typed m /\ remaining (encode_raw m) <= DEFAULT_MAX_RECV_MESSAGE_SIZE.

Definition frame_of (m : T) : bytes := (chr 0 :: put_u32 (remaining (encode_raw m))) ++ encode_raw m.

(** What the polls of a source yield up to its first error. *)
Fixpoint yields (source : list (option (result T Status))) : list T * result unit Status :=
  match source with
  | [] => ([], Ok tt)
  | None :: source => yields source
  | Some (Ok m) :: source => let '(ms, r) := yields source in (m :: ms, r)
  | Some (Err st) :: _ => ([], Err st)
  end.

Lemma get_put_u32 n l : 0 <= n <= U32_MAX -> get_u32 (put_u32 n ++ l) = n.
Proof.
  clear Hheight. intros Hn. unfold get_u32, put_u32, safe_get. cbn [app lookup list_lookup from_option].
  rewrite !code_chr by (pose proof (Z.mod_pos_bound (n / 2 ^ 24) 256); pose proof (Z.mod_pos_bound (n / 2 ^ 16) 256);
    pose proof (Z.mod_pos_bound (n / 2 ^ 8) 256); pose proof (Z.mod_pos_bound n 256); lia).
  unfold U32_MAX in Hn. change (2 ^ 24) with 16777216. change (2 ^ 16) with 65536. change (2 ^ 8) with 256.
  pose proof (Z.div_mod n 256). pose proof (Z.div_mod (n / 256) 256). pose proof (Z.div_mod (n / 256 / 256) 256).
  rewrite !Z.div_div in * by lia. change (256 * 256) with 65536 in *. change (65536 * 256) with 16777216 in *.
  assert (n / 16777216 < 256) by (apply Z.div_lt_upper_bound; lia). pose proof (Z.div_pos n 16777216).
  rewrite (Z.mod_small (n / 16777216)) by lia. lia.
Qed.

Lemma decode_chunk_frame direction m k : fits m ->
  decode_chunk direction None (frame_of m ++ k) ReadHeader = Ok (Some m, k, ReadHeader).
Proof.
  intros [Ht Hf]. assert (0 <= remaining (encode_raw m) <= U32_MAX) as Hr.
  { unfold DEFAULT_MAX_RECV_MESSAGE_SIZE, U32_MAX in *. unfold remaining in *. lia. }
  unfold decode_chunk, start_chunk, frame_of. rewrite !remaining_app. set (b := encode_raw m) in *.
  rewrite (proj2 (Z.ltb_ge _ _)) by (unfold remaining, HEADER_SIZE, put_u32; simpl length; lia).
  assert (read_header direction None (((chr 0 :: put_u32 (remaining b)) ++ b) ++ k) = Ok (remaining b)) as ->.
  { unfold read_header. change (drop 1 (((chr 0 :: put_u32 (remaining b)) ++ b) ++ k)) with ((put_u32 (remaining b) ++ b) ++ k).
    rewrite <-(app_assoc (put_u32 _)), get_put_u32 by done. cbn.
    by rewrite (proj2 (Z.ltb_ge _ _)). }
  cbn match. change (drop (Z.to_nat HEADER_SIZE) (((chr 0 :: put_u32 (remaining b)) ++ b) ++ k)) with (b ++ k).
  rewrite remaining_app, (proj2 (Z.ltb_ge _ _)) by (unfold remaining; lia). 
  replace (Z.to_nat (remaining b)) with (length b) by (unfold remaining; lia).
  rewrite take_app_length, drop_app_length. assert (decode b = Ok m) as ->; [|done].
  apply (decode_encode m); [done| |done]. fold b. unfold U64_MAX, U32_MAX in *. lia.
Qed.

Lemma buffered_frames direction ms : Forall fits ms ->
  buffered direction None (concat (frame_of <$> ms)) ReadHeader = (ms, Ok ([], ReadHeader)).
Proof.
  induction 1 as [|m ms Hm _ IH]; [done|]. cbn [fmap list_fmap concat].
  by rewrite buffered_step, decode_chunk_frame, IH.
Qed.

Lemma finish_encoding_fits m : fits m ->
  finish_encoding None (remaining (encode_raw m)) = Ok (chr 0 :: put_u32 (remaining (encode_raw m))).
Proof.
  clear Hheight. intros [_ Hf]. unfold finish_encoding, DEFAULT_MAX_RECV_MESSAGE_SIZE in *. cbn [default from_option].
  rewrite !(proj2 (Z.ltb_ge _ _)); [done|unfold U32_MAX; lia|].
  unfold DEFAULT_MAX_SEND_MESSAGE_SIZE, USIZE_MAX, U64_MAX. lia.
Qed.

Definition end_of (role : Role) (r : result unit Status) : list Frame :=
  match r with Ok _ => end_frames role | Err st => error_frames role st end.

Lemma encode_body_frames role buf source : Forall fits (yields source).1 ->
  exists ds, encode_body role None buf source = (FData <$> ds) ++ end_of role (yields source).2 /\
    concat ds = buf ++ concat (frame_of <$> (yields source).1).
Proof.
  clear Hheight. assert (forall b, exists ds, flush b = FData <$> ds /\ concat ds = b) as Hflush.
  { intros [|c b]; [by exists []|]. exists [c :: b]. cbn. by rewrite app_nil_r. }
  revert buf. induction source as [|[[m|st]|] source IH]; intros buf Hf; cbn [yields encode_body] in *.
  - destruct (Hflush buf) as (ds & -> & Hc). exists ds. cbn. by rewrite app_nil_r.
  - destruct (yields source) as [ms r]. cbn in Hf |- *. inversion_clear Hf as [|? ? Hm Hms].
    unfold encode_item. rewrite finish_encoding_fits by done. cbn match.
    destruct (_ <=? _); [destruct (IH [] Hms) as (ds & -> & Hc)|destruct (IH (buf ++ frame_of m) Hms) as (ds & He & Hc)].
    + exists ((buf ++ frame_of m) :: ds). cbn. rewrite Hc. by rewrite <-app_assoc.
    + exists ds. rewrite <-app_assoc in Hc. by split.
  - destruct (Hflush buf) as (ds & -> & Hc). exists ds. cbn. by rewrite app_nil_r.
  - destruct (Hflush buf) as (ds & -> & Hc). destruct (IH [] Hf) as (ds' & -> & Hc'). exists (ds ++ ds').
    by rewrite fmap_app, concat_app, Hc, Hc', <-app_assoc.
Qed.

(** What is decoded has its type, whatever the bytes. *)
Lemma decode_chunks_typed direction limit fuel buf state :
  Forall typed (decode_chunks (T := T) direction limit fuel buf state).1.
Proof.
  revert buf state. induction fuel as [|fuel IH]; intros buf state; [constructor|]. cbn [decode_chunks].
  destruct (decode_chunk direction limit buf state) as [[[[m|] buf'] state']|st] eqn:Hd; [|constructor..].
  specialize (IH buf' state'). destruct (decode_chunks _ _ _ _ _) as [ms r]. constructor; [|done]. clear IH.
  unfold decode_chunk in Hd. destruct (start_chunk _ _ _ _) as [[b [|len]]|]; [done| |done].
  destruct (_ <? len); [done|]. destruct (decode _) as [x|] eqn:Hx; [|done]. cbn in Hd. simplify_eq. by eapply decode_typed.
Qed.

Lemma read_body_typed direction limit fs : Forall typed (read_stream (T := T) direction limit fs).1.
Proof.
  unfold read_stream. generalize (@nil ascii) ReadHeader. induction fs as [|f fs IH]; intros buf state; cbn [streaming].
  - pose proof (decode_chunks_typed direction limit (S (S (length buf))) buf state) as Hms. unfold buffered.
    by destruct (decode_chunks _ _ _ _ _) as [ms [[b s]|st]].
  - pose proof (decode_chunks_typed direction limit (S (S (length buf))) buf state) as Hms. unfold buffered.
    destruct (decode_chunks _ _ _ _ _) as [ms [[b s]|st]]; [|done]. destruct f as [d| |]; [|done..].
    specialize (IH (b ++ d) s). destruct (streaming _ _ _ _ _) as [ms' r]. by apply Forall_app.
Qed.

Lemma map_request_typed req (m : T) : map_request_unary req = Ok m -> typed m.
Proof.
  unfold map_request_unary, read_single. destruct (from_encoding_header _); [|done].
  pose proof (read_body_typed DirRequest None (req_body req)) as Ht.
  destruct (read_stream _ _ _) as [[|m' ms] [[]|st]]; try done. intros [= <-]. by inversion Ht.
Qed.

(** A status that headers carry as it is: an error with a UTF-8 message. *)
Definition error_status (st : Status) : Prop := is_str (status_message st) /\ status_code st <> CodeOk.

Lemma from_header_map_status st : is_str (status_message st) -> from_header_map (to_header_map st) = Some st.
Proof. intros Hs. by apply from_header_map_add. Qed.

Lemma infer_trailers st status : error_status st -> infer_grpc_status (Some (to_header_map st)) status = Err st.
Proof.
  intros [Hs Hne]. unfold infer_grpc_status. cbn [mbind option_bind]. rewrite from_header_map_status by done.
  by rewrite bool_decide_false.
Qed.

Lemma end_of_no_data role r : no_data (end_of role r).
Proof. intros d. destruct role, r; cbn; rewrite ?list_elem_of_singleton; try done. by intros ?%elem_of_nil. Qed.

(** What a server sends is what a client that takes it reads. *)
Lemma server_body_read status source frames :
  Forall fits (yields source).1 -> (forall st, (yields source).2 = Err st -> error_status st) ->
  transported (encode_body RoleServer None [] source) frames ->
  read_stream (DirResponse status) None frames = yields source.
Proof.
  intros Hf He Ht. rewrite <-(read_body_transported _ _ _ _ Ht).
  destruct (encode_body_frames RoleServer [] source Hf) as (ds & -> & Hc). unfold read_stream.
  rewrite streaming_concat, Hc by apply end_of_no_data. cbn [app]. rewrite buffered_frames by done.
  destruct (yields source) as [ms [[]|st]]; cbn [finish fst snd end_of] in *; [done|].
  cbn [error_frames head last_frame response]. by rewrite infer_trailers by auto.
Qed.

(** And what a client sends is what the server reads. *)
Lemma client_body_read source frames :
  Forall fits (yields source).1 -> (yields source).2 = Ok tt ->
  transported (encode_body RoleClient None [] source) frames ->
  read_stream DirRequest None frames = yields source.
Proof.
  intros Hf He Ht. rewrite <-(read_body_transported _ _ _ _ Ht).
  destruct (encode_body_frames RoleClient [] source Hf) as (ds & -> & Hc). unfold read_stream.
  rewrite streaming_concat, Hc by apply end_of_no_data. cbn [app]. rewrite buffered_frames by done.
  destruct (yields source) as [ms r]. cbn [fst snd] in *. by subst r.
Qed.

(** The response a client gets when the server answers [resp]. *)
Definition delivered_as (resp resp' : GrpcResponse) : Prop :=
  resp_status resp' = resp_status resp /\ resp_headers resp' = resp_headers resp /\
  transported (resp_body resp) (resp_body resp').

Lemma delivered_direction resp resp' :
  delivered_as resp resp' -> create_response resp' = create_response resp.
Proof. intros (Hs & Hh & _). unfold create_response. by rewrite Hs, Hh. Qed.

Lemma create_response_error st : error_status st -> create_response (into_http st) = Err st.
Proof.
  intros [Hs Hne]. unfold create_response, into_http. cbn [resp_headers resp_status].
  rewrite from_header_map_add by done. rewrite bool_decide_false by done.
  unfold from_encoding_header, add_header. destruct (str_is_empty _);
    by rewrite !header_get_insert_ne by done.
Qed.

Lemma client_stream_yields source resp :
  Forall fits (yields source).1 -> (forall st, (yields source).2 = Err st -> error_status st) ->
  delivered_as (map_response (Ok source)) resp -> client_stream resp = yields source.
Proof.
  intros Hf He Hd. unfold client_stream. rewrite (delivered_direction _ _ Hd).
  apply server_body_read; [done..|]. apply Hd.
Qed.

Lemma client_stream_error st resp :
  error_status st -> delivered_as (map_response (T := T) (Err st)) resp -> client_stream (T := T) resp = ([], Err st).
Proof. intros Hs Hd. unfold client_stream. rewrite (delivered_direction _ _ Hd). cbn [map_response]. by rewrite create_response_error. Qed.

(** One message each way. *)
Lemma client_unary_reply r resp :
  match r with Ok m => fits m | Err st => error_status st end ->
  delivered_as (map_response (once r)) resp -> client_unary resp = r.
Proof.
  intros Hr Hd. unfold client_unary. rewrite (delivered_direction _ _ Hd). destruct r as [m|st].
  - cbn. unfold read_single. rewrite (server_body_read 200 [Some (Ok m)]); [done|by apply Forall_singleton|done|apply Hd].
  - cbn [once map_response]. by rewrite create_response_error.
Qed.

Lemma request_read path m req :
  fits m -> req_headers req = req_headers (client_request path m) ->
  transported (req_body (client_request path m)) (req_body req) -> map_request_unary req = Ok m.
Proof.
  intros Hm Hh Ht. unfold map_request_unary, read_single. rewrite Hh. cbn -[read_stream].
  rewrite (client_body_read [Some (Ok m)]); [done|by apply Forall_singleton|done..].
Qed.

(** A message over the limit is refused by its header alone, before any of it
    is buffered or decoded. *)
Lemma oversized_refused n rest req :
  DEFAULT_MAX_RECV_MESSAGE_SIZE < n <= U32_MAX -> from_encoding_header (req_headers req) = Ok tt ->
  transported [FData ((chr 0 :: put_u32 n) ++ rest)] (req_body req) ->
  exists text, map_request_unary (T := T) req = Err (mkStatus CodeOutOfRange text).
Proof.
  clear Hheight. intros Hn He Ht. unfold map_request_unary, read_single. rewrite He.
  rewrite <-(read_body_transported _ _ _ _ Ht). eexists. unfold read_stream. cbn [streaming].
  change (buffered (T := T) DirRequest None [] ReadHeader) with (@nil T, @Ok (bytes * State) Status ([], ReadHeader)).
  cbn match. cbn [app]. rewrite buffered_step. unfold decode_chunk, start_chunk.
  rewrite (proj2 (Z.ltb_ge _ _)) by (unfold remaining, HEADER_SIZE, put_u32; cbn [length app]; lia).
  unfold read_header. change (drop 1 (chr 0 :: put_u32 n ++ rest)) with (put_u32 n ++ rest).
  unfold DEFAULT_MAX_RECV_MESSAGE_SIZE in Hn. rewrite get_put_u32 by lia. cbn.
  rewrite (proj2 (Z.ltb_lt _ _)) by (unfold DEFAULT_MAX_RECV_MESSAGE_SIZE; lia). reflexivity.
Qed.

(** C17. A stream of messages arrives as it was sent: whatever the pauses of its
    source, whatever the buffering of the server and however HTTP/2 cuts the
    bytes, a client gets the messages in order and then the end, or the status
    the source failed with, code and text; a call that is refused before it
    streams gives the client its status alone. *)
Theorem stream_over_http :
  (forall source resp,
     Forall fits (yields source).1 -> (forall st, (yields source).2 = Err st -> error_status st) ->
     delivered_as (map_response (Ok source)) resp -> client_stream resp = yields source) /\
  (forall st resp, error_status st -> delivered_as (map_response (T := T) (Err st)) resp ->
     client_stream (T := T) resp = ([], Err st)).
Proof. split; [exact client_stream_yields|exact client_stream_error]. Qed.
End RoundTrip.

(** C23. How HTTP/2 cuts a body into pieces makes no difference to its reader,
    for requests and responses alike: the same messages and the same end or
    error, also for bodies that no encoder wrote. *)
Theorem body_pieces {T} `{Message T} direction limit fs fs' :
  transported fs fs' -> read_stream (T := T) direction limit fs = read_stream (T := T) direction limit fs'.
Proof. apply read_body_transported. Qed.
