(* ===== verification/Rpc.v ===== *)
(** * The service over the wire

    The paths of the service and its dispatch, as [tonic-build] makes them from
    [backup.proto], a client's calls, and what the whole of it shows: requests
    reach the handlers of [Api.v] as the client made them, answers and
    downloads reach the client as the handlers gave them. *)

From Stdlib Require Import ZArith Lia Ascii.
From stdpp Require Import base numbers gmap sorting strings list relations.
From S2P Require Import Prelude RustStd Utf8 Chrono Core Ports Service Fakes ServiceWorld Api Discipline Concurrency.
From S2P Require Import Server Stream Delivery Prost Messages Grpc.
Open Scope Z_scope.
Open Scope rust_scope.

(** ** Calls *)

(** [/package.Service/Method]. *)
Definition method_path (method : string) : string := "/backup.Backup/" +:+ method.

(** The generated client: one method per call. *)
Definition client_call (r : Request) : GrpcRequest :=
  match r with
  | CreateBackup => client_request (method_path "CreateBackup") mkCreateBackupRequest
  | ListBackups m => client_request (method_path "ListBackups") m
  | GetBackup m => client_request (method_path "GetBackup") m
  | DownloadBackup m => client_request (method_path "DownloadBackup") m
  | Restore m => client_request (method_path "Restore") m
  | Healthcheck => client_request (method_path "Healthcheck") mkHealthcheckRequest
  end.

(** A response, or the header and the file of a download that is streamed. *)
Inductive Answer := Answered (resp : GrpcResponse) | Downloading (header : ProtoInfo) (file : path).

(** How the answer of a handler is sent. *)
Definition answer (r : Reply) : Answer :=
  match r with
  | InfoReply r => Answered (map_response (once r))
  | ListReply r => Answered (map_response (once r))
  | RestoreReply_ r => Answered (map_response (once r))
  | HealthReply r =>
      Answered (map_response (once match r with Ok b => Ok (mkHealthcheckReply b) | Err st => Err st end))
  | DownloadReply (Ok (header, file)) => Downloading header file
  | DownloadReply (Err st) => Answered (map_response (T := DownloadMessage) (Err st))
  end.

Section Dispatch.
Context `{RustFmt} (deps : ServiceDeps).

(** [Grpc::unary] and [Grpc::server_streaming] around the handler of a call. *)
Definition handle {T} `{Message T} (call_ : T -> Request) (req : GrpcRequest) : M Answer :=
  match map_request_unary req with
  | Err st => Ret (Answered (into_http st))
  | Ok m => let* r := serve deps (call_ m) in Ret (answer r)
  end.

(** [BackupServer::call]. *)
Definition backup_server (req : GrpcRequest) : M Answer :=
  let is_ method := String.eqb (req_path req) (method_path method) in
  if is_ "CreateBackup" then handle (fun _ : CreateBackupRequest => CreateBackup) req
  else if is_ "ListBackups" then handle ListBackups req
  else if is_ "GetBackup" then handle GetBackup req
  else if is_ "DownloadBackup" then handle DownloadBackup req
  else if is_ "Restore" then handle Restore req
  else if is_ "Healthcheck" then handle (fun _ : HealthcheckRequest => Healthcheck) req
  else Ret (Answered (mkGrpcResponse 200
         [(GRPC_STATUS, int_to_string (Code_to_i32 CodeUnimplemented)); (CONTENT_TYPE, GRPC_CONTENT_TYPE)] [])).

(** [Routes]: the service under its name, and the fallback. *)
Definition routes (req : GrpcRequest) : M Answer :=
  if String.prefix (method_path "") (req_path req) && negb (String.eqb (req_path req) (method_path ""))
  then backup_server req
  else Ret (Answered (into_http (mkStatus CodeUnimplemented ""))).
End Dispatch.

(** ** Tactics *)

(** Compares the paths of methods. *)
Ltac decide_paths := repeat match goal with |- context [String.eqb (method_path ?a) (method_path ?b)] =>
  let v := eval vm_compute in (String.eqb (method_path a) (method_path b)) in
  change (String.eqb (method_path a) (method_path b)) with v; cbn match end.

(** The messages are not nested as deeply as the decoder allows. *)
Ltac depth := unfold RECURSION_LIMIT; cbn; lia.

(** ** Requests *)

(** What a client may send with the default limits. *)
Definition request_fits (r : Request) : Prop :=
  match r with
  | ListBackups m => fits m
  | GetBackup m | DownloadBackup m => fits m
  | Restore m => fits m
  | CreateBackup | Healthcheck => True
  end.

(** The types of the fields. *)
Definition request_typed (r : Request) : Prop :=
  match r with
  | ListBackups m => is_u32 (lr_page_size m) /\ is_str (lr_page_token m)
  | GetBackup m | DownloadBackup m => opt_typed target_typed (ref_target m)
  | Restore m => opt_typed (fun b => opt_typed target_typed (ref_target b)) (rr_backup m) /\ is_str (rr_confirm_db_name m)
  | CreateBackup | Healthcheck => True
  end.

(** The request the server gets when the client sends [sent_]. *)
Definition arrives_as (sent_ req : GrpcRequest) : Prop :=
  req_path req = req_path sent_ /\ req_headers req = req_headers sent_ /\
  transported (req_body sent_) (req_body req).

Section Calls.
Context `{RustFmt} (deps : ServiceDeps).

Lemma routes_method req m :
  req_path req = method_path m -> m <> "" -> routes deps req = backup_server deps req.
Proof.
  intros Hp Hm. unfold routes. rewrite Hp.
  assert (String.prefix (method_path "") (method_path m) = true) as -> by (by destruct m).
  destruct (String.eqb_spec (method_path m) (method_path "")) as [He|_]; [|done].
  by apply str_app_inv_l in He.
Qed.

Lemma handle_read {T} `{MessageLaws T} (c : T -> Request) path m req :
  (height (M := T) <= RECURSION_LIMIT)%nat -> fits m -> arrives_as (client_request path m) req ->
  handle deps c req = (let* r := serve deps (c m) in Ret (answer r)).
Proof.
  intros Hh Hm (_ & Hhd & Ht). unfold handle. by rewrite (request_read Hh path m req Hm Hhd Ht).
Qed.

Lemma empty_fits {T} `{MessageLaws T} (m : T) : typed m -> encode_raw m = [] -> fits m.
Proof. intros Ht He. split; [done|]. by rewrite He. Qed.

(** The call a client makes is the call the server handles. *)
Lemma call_reaches_handler r req :
  request_fits r -> arrives_as (client_call r) req ->
  routes deps req = (let* x := serve deps r in Ret (answer x)).
Proof.
  intros Hf Ha. pose proof Ha as (Hp & _ & _).
  destruct r as [|m|m|m|m|]; cbn [client_call client_request req_path request_fits] in *;
    (erewrite routes_method by (exact Hp || done)); unfold backup_server; rewrite Hp; decide_paths.
  - refine (handle_read (fun _ : CreateBackupRequest => CreateBackup) _ _ _ _ (empty_fits mkCreateBackupRequest I eq_refl) Ha); depth.
  - refine (handle_read ListBackups _ _ _ _ Hf Ha); depth.
  - refine (handle_read GetBackup _ _ _ _ Hf Ha); depth.
  - refine (handle_read DownloadBackup _ _ _ _ Hf Ha); depth.
  - refine (handle_read Restore _ _ _ _ Hf Ha); depth.
  - refine (handle_read (fun _ : HealthcheckRequest => Healthcheck) _ _ _ _ (empty_fits mkHealthcheckRequest I eq_refl) Ha); depth.
Qed.

Lemma handle_typed {T} `{MessageLaws T} (c : T -> Request) req :
  (exists m, typed m /\ handle deps c req = (let* x := serve deps (c m) in Ret (answer x))) \/
  (exists resp, handle deps c req = Ret (Answered resp)).
Proof.
  unfold handle. destruct (map_request_unary req) as [m|st] eqn:Hm; [left|right; eauto].
  exists m. split; [by eapply map_request_typed|done].
Qed.

(** C18. Any HTTP request is safe to serve: whatever its path, headers and
    bytes, it either reaches one handler, the one of its path, with strings
    that are UTF-8 and numbers in range, or is answered without calling any;
    a path outside the service is answered with [Unimplemented]. *)
Theorem any_request_served req :
  (exists r, request_typed r /\ req_path req = req_path (client_call r) /\
     routes deps req = (let* x := serve deps r in Ret (answer x))) \/
  (exists resp, routes deps req = Ret (Answered resp) /\
     ((forall r, req_path req <> req_path (client_call r)) ->
      create_response resp = Err (mkStatus CodeUnimplemented ""))).
Proof.
  unfold routes. destruct (String.prefix _ _ && _); [|right; eexists; split; [done|by intros _; apply create_response_error]].
  unfold backup_server.
  repeat match goal with |- context [if String.eqb (req_path req) (method_path ?m) then handle deps ?c req else _] =>
    destruct (String.eqb_spec (req_path req) (method_path m)) as [Hp|_];
      [destruct (handle_typed c req) as [(x & Hx & ->)|[resp ->]];
         [left; exists (c x); split_and!; [exact Hx || exact I|exact Hp|done]
         |right; exists resp; split; [done|intros Hne; by destruct (Hne (c message_default))]]|] end.
  right. eexists. split; [done|]. by intros _.
Qed.

(** ** Replies *)

Definition result_fits {T} `{MessageLaws T} (r : result T Status) : Prop :=
  match r with Ok m => fits m | Err st => error_status st end.

(** Answers a client takes with the default limits. *)
Definition reply_fits (x : Reply) : Prop :=
  match x with
  | InfoReply r => result_fits r
  | ListReply r => result_fits r
  | RestoreReply_ r => result_fits r
  | HealthReply (Ok _) => True
  | HealthReply (Err st) | DownloadReply (Err st) => error_status st
  | DownloadReply (Ok (header, _)) => fits (mkDownloadMessage (Some (PayloadInfo header)))
  end.

(** What the client's method returns for a response. *)
Definition client_reads (x : Reply) (resp : GrpcResponse) : Prop :=
  match x with
  | InfoReply r => client_unary resp = r
  | ListReply r => client_unary resp = r
  | RestoreReply_ r => client_unary resp = r
  | HealthReply r => client_unary resp = match r with Ok b => Ok (mkHealthcheckReply b) | Err st => Err st end
  | DownloadReply (Err st) => client_stream (T := DownloadMessage) resp = ([], Err st)
  | DownloadReply (Ok _) => True
  end.

Lemma reply_reaches_client x resp resp' :
  answer x = Answered resp -> reply_fits x -> delivered_as resp resp' -> client_reads x resp'.
Proof.
  destruct x as [r|r|[[h file]|st]|r|r]; cbn [answer reply_fits client_reads]; intros [= <-] Hf Hd.
  - apply (client_unary_reply (T := ProtoInfo)); [depth|done..].
  - apply (client_unary_reply (T := ListBackupsReply)); [depth|done..].
  - by apply (client_stream_error st).
  - apply (client_unary_reply (T := RestoreReply)); [depth|done..].
  - apply (client_unary_reply (T := HealthcheckReply)); [depth| |done].
    destruct r as [[]|st]; [..|done]; (split; [done|]); unfold DEFAULT_MAX_RECV_MESSAGE_SIZE; by vm_compute.
Qed.

(** C7. A call over the wire is the call of the handler: however HTTP/2 cuts
    the bytes of the request, the server runs the handler on the message the
    client gave, and however it cuts the bytes of the response, the client
    gets the message or the status (code and text) the handler answered. *)
Theorem call_over_http r req :
  request_fits r -> arrives_as (client_call r) req ->
  routes deps req = (let* x := serve deps r in Ret (answer x)) /\
  forall x resp resp', answer x = Answered resp -> reply_fits x -> delivered_as resp resp' -> client_reads x resp'.
Proof. intros Hf Ha. split; [by apply call_reaches_handler|exact reply_reaches_client]. Qed.
End Calls.

(** ** Downloads *)

(** An item of the channel as the item of the response stream. *)
Definition item_message (i : Item) : result DownloadMessage Status :=
  match i with Ok c => Ok (mkDownloadMessage (Some c)) | Err st => Err st end.

(** What the polls of the receiving end answer when it gives [items]. *)
Definition polls_of (source : list (option (result DownloadMessage Status))) (items : list Item) : Prop :=
  omap (fun p => p) source = item_message <$> items.

Lemma encode_varint_short v : remaining (encode_varint v) <= 10.
Proof.
  unfold encode_varint, remaining. assert (forall n u, (length (encode_varint_loop n u) <= n)%nat) as Hl.
  { induction n as [|n IH]; intros u; cbn; [done|]. destruct (_ <? _); cbn; [lia|]. specialize (IH (Z.shiftr u 7)). lia. }
  specialize (Hl 10%nat v). lia.
Qed.

(** No chunk comes near the limit of the client. *)
Lemma chunk_fits d : chunk_ok d -> fits (mkDownloadMessage (Some (PayloadData d))).
Proof.
  intros [_ Hd]. split; [by apply opt_typed_some|].
  change (remaining ((encode_key 2 LengthDelimited) ++ encode_varint (remaining d) ++ d) <= DEFAULT_MAX_RECV_MESSAGE_SIZE).
  rewrite !remaining_app. pose proof (encode_varint_short (remaining d)).
  pose proof (encode_varint_short (Z.lor (Z.shiftl 2 3) (wire_value LengthDelimited))).
  assert (remaining d <= CHUNK_SIZE) by done. unfold encode_key, DEFAULT_MAX_RECV_MESSAGE_SIZE, CHUNK_SIZE in *. lia.
Qed.

(** What the polls yield: the items before the first error, and the error. *)
Fixpoint items_yield (items : list (result DownloadMessage Status)) : list DownloadMessage * result unit Status :=
  match items with
  | [] => ([], Ok tt)
  | Ok m :: items => let '(ms, r) := items_yield items in (m :: ms, r)
  | Err st :: _ => ([], Err st)
  end.

Lemma yields_omap source : yields source = items_yield (omap (fun p => p) source).
Proof.
  induction source as [|[[m|st]|] source IH]; cbn [yields omap list_omap]; [done| |done|done].
  cbn. by rewrite IH.
Qed.

Definition chunk_message (c : DownloadChunk) : DownloadMessage := mkDownloadMessage (Some c).

Lemma items_yield_data cs end_ :
  items_yield (item_message <$> data_items cs ++ end_) =
  let '(ms, r) := items_yield (item_message <$> end_) in ((chunk_message ∘ PayloadData <$> cs) ++ ms, r).
Proof.
  induction cs as [|d cs IH]; cbn [data_items fmap list_fmap app]; [by destruct (items_yield _)|].
  cbn. fold (data_items cs). rewrite IH. by destruct (items_yield (item_message <$> end_)).
Qed.

Lemma stream_yields h cs r source :
  polls_of source (Ok (PayloadInfo h) :: data_items cs ++ match r with Ok _ => [] | Err st => [Err st] end) ->
  yields source = (chunk_message <$> PayloadInfo h :: (PayloadData <$> cs), r).
Proof.
  intros Hp. rewrite yields_omap, Hp. cbn [fmap list_fmap items_yield item_message].
  rewrite items_yield_data, <-list_fmap_compose. destruct r as [[]|st]; cbn; by rewrite app_nil_r.
Qed.

(** A stream that ended, as its client reads it. *)
Lemma stream_read h c s source resp :
  phase_inv h c Finished (received s) true ->
  fits (mkDownloadMessage (Some (PayloadInfo h))) -> (forall st, Err st ∈ received s -> is_str (status_message st)) ->
  polls_of source (received s) -> delivered_as (map_response (Ok source)) resp ->
  exists cs r, client_stream resp = (chunk_message <$> PayloadInfo h :: (PayloadData <$> cs), r) /\
    match r with Ok _ => concat cs = c | Err st => status_code st = CodeInternal end.
Proof.
  intros [[? _]|(cs & Hok & _ & Hi)] Hh He Hp Hd; [done|].
  assert (Forall fits (chunk_message <$> PayloadInfo h :: (PayloadData <$> cs))) as Hf.
  { rewrite fmap_cons, <-list_fmap_compose. constructor; [done|]. apply Forall_fmap. eapply Forall_impl; [exact Hok|]. by apply chunk_fits. }
  assert (exists r, yields source = (chunk_message <$> PayloadInfo h :: (PayloadData <$> cs), r) /\
    match r with Ok _ => concat cs = c | Err st => status_code st = CodeInternal /\ is_str (status_message st) end)
    as (r & Hy & Hr).
  { destruct Hi as [[Hi Hall]|(st & Hst & Hi)].
    - exists (Ok tt). split; [|by apply Hall]. apply stream_yields. by rewrite app_nil_r, <-Hi.
    - exists (Err st). split; [|split; [done|apply He; rewrite Hi; set_solver]]. apply stream_yields. by rewrite <-Hi. }
  exists cs, r. split; [|by destruct r; [|apply Hr]]. rewrite <-Hy. apply client_stream_yields; [depth|by rewrite Hy| |done].
  intros st. rewrite Hy. cbn. intros ->. destruct Hr as [Hc Hs]. by split; [|rewrite Hc].
Qed.

Section Downloads.
Context `{PgFormat, RustFmt} (deps : ServiceDeps).

(** C6. A download is whole at the other end of the wire.  While requests run
    side by side, prune, restore and fail, a client whose stream of a finished
    download ended without an error has the header of a backup that was in
    the storage and exactly the bytes that were stored under the id of that
    backup at a moment of the run (decompressed for a legacy one); no message
    was too large for it, and a stream that was cut short ended with an
    error. *)
Theorem download_over_http w L f source resp :
  unique_ids w -> live_reaches deps w L -> f ∈ flows L ->
  phase (flow_stream f) = Finished -> rx_open (flow_stream f) = true -> buffer (flow_stream f) = [] ->
  fits (mkDownloadMessage (Some (PayloadInfo (flow_header f)))) ->
  (forall st, Err st ∈ received (flow_stream f) -> is_str (status_message st)) ->
  polls_of source (received (flow_stream f)) -> delivered_as (map_response (Ok source)) resp ->
  exists info cs r,
    client_stream resp = (chunk_message <$> PayloadInfo (backup_info info) :: (PayloadData <$> cs), r) /\
    match r with
    | Ok _ => came_from (passed deps (live_start w) L) info (concat cs)
    | Err st => status_code st = CodeInternal
    end.
Proof.
  intros Hu Hr Hf Hph Hrx Hbuf Hh He Hp Hd.
  destruct (flow_of_run deps w L f Hu Hr Hf) as (info & c & Hi & Hc & [Hs _] & _).
  rewrite Hph, Hrx in Hs. unfold sent in Hs. rewrite Hbuf, app_nil_r in Hs.
  destruct (stream_read _ _ _ _ _ Hs Hh He Hp Hd) as (cs & r & Hcl & Hend).
  exists info, cs, r. rewrite <-Hi. split; [done|]. destruct r; [by rewrite Hend|done].
Qed.
End Downloads.

(** ** Witnesses *)

#[local] Existing Instance plain_pg.
#[local] Existing Instance plain_fmt.

Lemma transported_self {T} `{MessageLaws T} role (source : list (option (result T Status))) :
  Forall fits (yields source).1 ->
  transported (encode_body role None [] source) (encode_body role None [] source).
Proof. intros (ds & -> & _)%(encode_body_frames role []). constructor; [done|apply end_of_no_data]. Qed.

Lemma delivered_self {T} `{MessageLaws T} (source : list (option (result T Status))) :
  Forall fits (yields source).1 -> delivered_as (map_response (Ok source)) (map_response (Ok source)).
Proof. intros Hf. split_and!; [done..|by apply transported_self]. Qed.

(** The bytes of a request, one by one. *)
Lemma body_pieces_witness :
  read_stream (T := BackupRef) DirRequest None (FData <$> [[chr 0; chr 0; chr 0; chr 0; chr 2; chr 16; chr 1]]) =
  read_stream (T := BackupRef) DirRequest None
    (FData <$> [[chr 0]; [chr 0]; [chr 0]; []; [chr 0]; [chr 2]; [chr 16]; [chr 1]]).
Proof.
  apply (body_pieces DirRequest None). rewrite <-(app_nil_r (_ <$> [_])), <-(app_nil_r (_ <$> [chr 0] :: _)).
  constructor; [done|]. by intros d ?%not_elem_of_nil.
Defined.

Definition chunk_source : list (option (result DownloadMessage Status)) :=
  [Some (Ok (chunk_message (PayloadData (chars "ab")))); None; Some (Ok (chunk_message (PayloadData (chars "c"))));
   Some (Err (mkStatus CodeInternal "gone"))].

Lemma chunk_source_ok :
  Forall fits (yields chunk_source).1 /\ forall st, (yields chunk_source).2 = Err st -> error_status st.
Proof.
  split; [|by intros st [= <-]]. cbn [chunk_source yields fst].
  by apply Forall_cons; split; [|apply Forall_singleton]; (split; [apply opt_typed_some|]).
Qed.

Lemma download_height : (height (M := DownloadMessage) <= RECURSION_LIMIT)%nat.
Proof. depth. Qed.

Lemma stream_over_http_witness :
  client_stream (map_response (Ok chunk_source)) =
    ([chunk_message (PayloadData (chars "ab")); chunk_message (PayloadData (chars "c"))],
     Err (mkStatus CodeInternal "gone")).
Proof.
  destruct chunk_source_ok as [Hf He].
  apply (proj1 (stream_over_http (T := DownloadMessage) download_height) chunk_source _ Hf He).
  by apply delivered_self.
Defined.

Definition get_b1 : Request := GetBackup (mkBackupRef (Some (TargetId "b1"))).

Lemma get_b1_fits : request_fits get_b1.
Proof. split; [by apply opt_typed_some|by vm_compute]. Qed.

Lemma call_over_http_witness :
  routes (sample_deps None) (client_call get_b1) =
    (let* x := serve (sample_deps None) get_b1 in Ret (answer x)).
Proof.
  apply (call_over_http (sample_deps None) get_b1 (client_call get_b1)).
  - exact get_b1_fits.
  - split_and!; [done..|]. by apply transported_self, Forall_singleton, get_b1_fits.
Defined.

Lemma b1_header_fits : fits (mkDownloadMessage (Some (PayloadInfo b1_header))).
Proof.
  split; [|by vm_compute]. apply opt_typed_some. by apply backup_info_typed.
Qed.

Lemma b1_chunk_ok : chunk_ok b1_dump.
Proof. vm_compute. split; [repeat constructor|discriminate]. Qed.

Lemma download_over_http_witness :
  exists L info cs r, live_reaches (sample_deps None) sample_world L /\
    client_stream (map_response (Ok (Some ∘ item_message <$> received b1_stream))) =
      (chunk_message <$> PayloadInfo (backup_info info) :: (PayloadData <$> cs), r) /\
    match r with
    | Ok _ => came_from (passed (sample_deps None) (live_start sample_world) L) info (concat cs)
    | Err st => status_code st = CodeInternal
    end.
Proof.
  destruct b1_downloaded as (L & file & Hr & Hf). exists L.
  destruct (download_over_http (sample_deps None) sample_world L (mkFlow b1_header file b1_stream true)
    (Some ∘ item_message <$> received b1_stream) (map_response (Ok (Some ∘ item_message <$> received b1_stream))))
    as (info & cs & r & Hc & Hr'); [exact sample_ids|exact Hr|rewrite Hf; by left|reflexivity..| | |reflexivity| |].
  4: { exists info, cs, r. split_and!; [exact Hr|exact Hc|exact Hr']. }
  - exact b1_header_fits.
  - intros st [?|[?|?%not_elem_of_nil]%elem_of_cons]%elem_of_cons; done.
  - apply delivered_self, Forall_cons. split; [exact b1_header_fits|]. apply Forall_singleton, chunk_fits. exact b1_chunk_ok.
Defined.

(** ** Examples: what becomes of bodies no encoder wrote *)

Definition read_ref (body : list Frame) : result BackupRef Status :=
  map_request_unary (mkGrpcRequest (method_path "GetBackup") [] body).

Example bad_requests :
  read_ref [] = Err (mkStatus CodeInternal "Missing request message.") /\
  read_ref [FData [chr 0; chr 0]] = Err (mkStatus CodeInternal "Unexpected EOF decoding stream.") /\
  read_ref [FData [chr 1; chr 0; chr 0; chr 0; chr 0]] = Err (mkStatus CodeInternal
    "protocol error: received message with compressed-flag but no grpc-encoding was specified") /\
  read_ref [FData [chr 7; chr 0; chr 0; chr 0; chr 0]] = Err (mkStatus CodeInternal
    "protocol error: received message with invalid compression flag: 7 (valid flags are 0 and 1), while sending request") /\
  read_ref [FData [chr 0; chr 0; chr 64; chr 0; chr 1]] = Err (mkStatus CodeOutOfRange
    "Error, decoded message length too large: found 4194305 bytes, the limit is: 4194304 bytes") /\
  read_ref [FData [chr 0; chr 0; chr 0; chr 0; chr 1; chr 60]] = Err (mkStatus CodeInternal
    "failed to decode Protobuf message: unexpected end group tag") /\
  map_request_unary (T := BackupRef) (mkGrpcRequest "" [(ENCODING_HEADER, "gzip")] []) =
    Err (mkStatus CodeUnimplemented "Content is compressed with `gzip` which isn't supported").
Proof. by vm_compute. Qed.

Example bad_responses :
  client_unary (T := BackupRef) (mkGrpcResponse 200 [] [FData [chr 0; chr 0; chr 0; chr 0; chr 0]]) =
    Err (mkStatus CodeUnknown ("protocol error: missing grpc-status trailer, stream was terminated without a "
      +:+ "final status (possible truncation by a proxy or load balancer)")) /\
  client_unary (T := BackupRef) (mkGrpcResponse 503 [] []) =
    Err (mkStatus CodeUnavailable "grpc-status header missing, mapped from HTTP status code 503") /\
  client_unary (T := BackupRef) (mkGrpcResponse 200 [] [FTrailers [(GRPC_STATUS, "5"); (GRPC_MESSAGE, "no%20%C3%A4")]]) =
    Err (mkStatus CodeNotFound ("no " +:+ of_chars [chr 195; chr 164])) /\
  client_unary (T := BackupRef) (mkGrpcResponse 200 [] [FTrailers [(GRPC_STATUS, "5"); (GRPC_MESSAGE, "%C3")]]) =
    Err (mkStatus CodeUnknown
      "Error deserializing status message header: incomplete utf-8 byte sequence from index 0").
Proof. by vm_compute. Qed.
