(* ===== verification/Pg.v ===== *)
(** * [backup-pg]: PostgreSQL's client programs

    Command lines ([args.rs]), compression levels ([level.rs]), the runner
    ([command.rs]) and [PgTools] ([tools.rs]), with the properties of its
    command lines and error texts, and that it meets the contract of the
    database ports. *)

From Stdlib Require Import ZArith Lia Ascii.
From stdpp Require Import base numbers gmap sorting strings list.
From S2P Require Import Prelude RustStd Utf8 Chrono Core Ports.
Open Scope Z_scope.
Open Scope rust_scope.

(** ** [level.rs] *)

Definition DEFAULT_LEVEL : Z := 3.

(** [ZstdLevel(u8)]. *)
Record ZstdLevel := mkZstdLevel { level_value : Z }.

Definition ZstdLevel_new (level : Z) : Result ZstdLevel :=
  match try_from 0 U8_MAX level with
  | Some l =>
      if (1 <=? l) && (l <=? 22) then Ok (mkZstdLevel l)
      else Err (Config ("zstd level must be in 1..=22, " +:+ int_to_string level +:+ " found"))
  | None => Err (Config ("zstd level must be in 1..=22, " +:+ int_to_string level +:+ " found"))
  end.

Definition ZstdLevel_default : ZstdLevel := mkZstdLevel DEFAULT_LEVEL.

Definition ZstdLevel_display (l : ZstdLevel) : string := int_to_string (level_value l).

(** ** [command.rs] *)

Record PgCommand := mkPgCommand {
  program : string;
  args : list string;
  env : list (string * string);
}.

Record CommandOutput := mkCommandOutput {
  success : bool;
  status : string;
  stdout : string;
  stderr : string;
}.

(** [std::process::Output]; [raw_status] is what [ExitStatus] prints. *)
Record Output := mkOutput {
  raw_success : bool;
  raw_status : string;
  raw_stdout : list ascii;
  raw_stderr : list ascii;
}.

(** What [TokioCommandRunner::run] makes of the outcome of the process. *)
Definition runner_result (cmd : PgCommand) (r : result Output string) : Result CommandOutput :=
  try output := result_map_err (Error_io ("Could not run `" +:+ program cmd +:+ "`")) r in
  Ok {| success := raw_success output;
        status := raw_status output;
        stdout := from_utf8_lossy (raw_stdout output);
        stderr := from_utf8_lossy (raw_stderr output) |}.

(** ** [args.rs] *)

Definition PG_DUMP : string := "pg_dump".
Definition PG_RESTORE : string := "pg_restore".
Definition PSQL : string := "psql".
Definition CONNECT_TIMEOUT_SECS : string := "10".

Definition connection_args (target : DbTarget) : list string :=
  ["--host"; host target; "--port"; int_to_string (port target); "--username"; user target;
   "--dbname"; db target; "--no-password"].

Definition connection_env (target : DbTarget) : list (string * string) :=
  [("PGPASSWORD", expose (password target)); ("PGCONNECT_TIMEOUT", CONNECT_TIMEOUT_SECS)].

Definition command (program : string) (flags : list string) (target : DbTarget) (tail : list string)
    : PgCommand :=
  {| program := program;
     args := flags ++ connection_args target ++ tail;
     env := connection_env target |}.

Definition dump_command (target : DbTarget) (level : ZstdLevel) (dst : path) : PgCommand :=
  let compress := "--compress=zstd:" +:+ ZstdLevel_display level in
  command PG_DUMP ["--format=custom"; compress; "--no-owner"; "--no-privileges"] target
    ["--file"; dst].

Definition restore_command (target : DbTarget) (src : path) : PgCommand :=
  command PG_RESTORE
    ["--clean"; "--if-exists"; "--no-owner"; "--no-privileges"; "--single-transaction";
     "--exit-on-error"]
    target [src].

Definition query_command (target : DbTarget) (sql : string) : PgCommand :=
  command PSQL ["--no-psqlrc"; "--tuples-only"; "--no-align"; "--set=ON_ERROR_STOP=1"] target
    ["--command"; sql].

(** ** [tools.rs] *)

Definition STDERR_LIMIT : nat := Z.to_nat 4096.
Definition PING_TIMEOUT : Duration := from_secs 10.

(** The [while] loop of [tail]: [n] positions are left before the end. *)
Fixpoint next_boundary (n : nat) (l : list ascii) (start : nat) : nat :=
  match n with
  | O => start
  | S n => if is_char_boundary l start then start else next_boundary n l (S start)
  end.

Definition tail (s : string) (limit : nat) : string :=
  let l := trim_end_chars (chars s) in
  let start := (length l - limit)%nat in
  of_chars (drop (next_boundary (length l - start) l start) l).

Record PgTools := mkPgTools {
  target : DbTarget;
  level : ZstdLevel;
  command_timeout : Duration;
}.

(** The calls of [PgTools].  [RunWithin] is [timeout(limit, runner.run(cmd))]
    with the process of [TokioCommandRunner]: [None] when the limit passed
    first, and the child was killed. *)
Inductive PgE : Type -> Type :=
| RunWithin (limit : Duration) (cmd : PgCommand) : PgE (option (result Output string))
| PgInstant : PgE Z
| PgLog (lv : Level) (msg : string) : PgE unit.

Definition execute (cmd : PgCommand) (limit : Duration) : prog PgE (Result string) :=
  let* r := call (RunWithin limit cmd) in
  match r with
  | None => Ret (Err (Timeout (program cmd) limit))
  | Some r =>
      match runner_result cmd r with
      | Err e => Ret (Err e)
      | Ok out =>
          if negb (success out) then
            Ret (Err (Process (program cmd) (status out) (tail (stderr out) STDERR_LIMIT)))
          else
            let* _ :=
              if negb (str_is_empty (trim (stderr out))) then
                call (PgLog Warn ("`" +:+ program cmd +:+ "` stderr: " +:+ tail (stderr out) STDERR_LIMIT))
              else Ret tt in
            Ret (Ok (stdout out))
      end
  end.

Section Tools.
Context `{RustFmt}.

Definition PgTools_query (t : PgTools) (sql : string) : prog PgE (Result string) :=
  execute (query_command (target t) sql) (command_timeout t).

Definition PgTools_ping (t : PgTools) : prog PgE (Result unit) :=
  let? out := execute (query_command (target t) "SELECT 1") PING_TIMEOUT in
  Ret (if String.eqb (trim out) "1" then Ok tt
       else Err (FailedPrecondition ("unexpected healthcheck result: '" +:+ trim out +:+ "'"))).

Definition PgTools_dump (t : PgTools) (dst : path) : prog PgE (Result unit) :=
  let* _ := call (PgLog Info ("Dumping database '" +:+ db (target t) +:+ "' to " +:+ str_debug dst)) in
  let* start := call PgInstant in
  let? _ := execute (dump_command (target t) (level t) dst) (command_timeout t) in
  let* now := call PgInstant in
  let* _ := call (PgLog Info ("Database '" +:+ db (target t) +:+ "' dumped for " +:+
                              duration_debug (now - start))) in
  Ret (Ok tt).

Definition PgTools_restore (t : PgTools) (src : path) : prog PgE (Result unit) :=
  let* _ := call (PgLog Info ("Restoring database '" +:+ db (target t) +:+ "' from " +:+ str_debug src)) in
  let* start := call PgInstant in
  let? _ := execute (restore_command (target t) src) (command_timeout t) in
  let* now := call PgInstant in
  let* _ := call (PgLog Info ("Database '" +:+ db (target t) +:+ "' restored for " +:+
                              duration_debug (now - start))) in
  Ret (Ok tt).
End Tools.

(** ** Specification: how the programs read their arguments

    [getopt_long]: a long option that takes a value takes the next argument,
    whatever it looks like; other arguments that start with [-] are options;
    the rest are operands. *)

Definition takes_value (a : string) : bool :=
  bool_decide (a ∈ ["--host"; "--port"; "--username"; "--dbname"; "--file"; "--command"]).

Definition starts_with_dash (a : string) : bool :=
  match a with String c _ => bool_decide (c = "-"%char) | _ => false end.

Inductive Argument := Flag (a : string) | Value (a v : string) | Operand (a : string).

#[global] Instance Argument_eq_dec : EqDecision Argument.
Proof. solve_decision. Defined.

Fixpoint getopt (l : list string) : option (list Argument) :=
  match l with
  | [] => Some []
  | a :: l =>
      if takes_value a then
        match l with
        | [] => None
        | v :: l => cons (Value a v) <$> getopt l
        end
      else cons (if starts_with_dash a then Flag a else Operand a) <$> getopt l
  end.

(** The values given to an option, and the operands. *)
Definition option_values (a : string) (opts : list Argument) : list string :=
  omap (fun o => match o with Value b v => if String.eqb a b then Some v else None | _ => None end) opts.

Definition operands (opts : list Argument) : list string :=
  omap (fun o => match o with Operand a => Some a | _ => None end) opts.

(** The options name the database of [target]. *)
Definition connects_to (target : DbTarget) (opts : list Argument) : Prop :=
  option_values "--host" opts = [host target] /\
  option_values "--port" opts = [int_to_string (port target)] /\
  option_values "--username" opts = [user target] /\
  option_values "--dbname" opts = [db target].

(** The connection as a list of arguments. *)
Definition connection (target : DbTarget) : list Argument :=
  [Value "--host" (host target); Value "--port" (int_to_string (port target));
   Value "--username" (user target); Value "--dbname" (db target); Flag "--no-password"].

(** ** Error texts *)

Lemma next_boundary_spec n l start :
  (start + n = length l)%nat ->
  (start <= next_boundary n l start <= length l)%nat /\
  is_char_boundary l (next_boundary n l start) = true /\
  forall j, (start <= j)%nat -> is_char_boundary l j = true -> (next_boundary n l start <= j)%nat.
Proof.
  revert start. induction n as [|n IH]; intros start Hn; simpl.
  { split_and!; [lia..| |lia]. unfold is_char_boundary. rewrite lookup_ge_None_2 by lia.
    apply Nat.eqb_eq. lia. }
  destruct (is_char_boundary l start) eqn:Hb; [split_and!; [lia..|done|lia]|].
  destruct (IH (S start)) as (H1 & H2 & H3); [lia|]. split_and!; [lia..|done|].
  intros j Hj Hbj. apply H3; [|done]. destruct (decide (j = start)); [congruence|lia].
Qed.

(** The text kept of a program's error output is the end of it, without
    trailing white space: at most [limit] bytes, cut at a character boundary,
    and as long as such a cut can be.  The loop that looks for the boundary
    ends. *)
Theorem tail_spec s limit :
  exists k, trim_end_chars (chars s) = k ++ chars (tail s limit) /\
    (length (chars (tail s limit)) <= limit)%nat /\
    is_char_boundary (trim_end_chars (chars s)) (length k) = true /\
    forall j, (length (trim_end_chars (chars s)) - limit <= j)%nat ->
      is_char_boundary (trim_end_chars (chars s)) j = true -> (length k <= j)%nat.
Proof.
  unfold tail. rewrite chars_of_chars. set (l := trim_end_chars (chars s)).
  set (start := (length l - limit)%nat).
  destruct (next_boundary_spec (length l - start) l start) as (Hr & Hb & Hm); [lia|].
  set (n := next_boundary _ l start) in *. exists (take n l). rewrite take_drop, length_drop, length_take.
  rewrite Nat.min_l by lia. split_and!; [done|lia|done..].
Qed.

(** ** Command lines *)

Lemma compress_flag level :
  takes_value ("--compress=zstd:" +:+ level) = false.
Proof. apply bool_decide_false. intros H. repeat (apply elem_of_cons in H as [H|H]; [done|]). by apply not_elem_of_nil in H. Qed.

Lemma no_dash_no_value a : starts_with_dash a = false -> takes_value a = false.
Proof.
  intros Ha. apply bool_decide_false. intros H.
  repeat (apply elem_of_cons in H as [->|H]; [done|]). by apply not_elem_of_nil in H.
Qed.

Lemma getopt_command prog_ flags target tl opts1 opts2 :
  Forall (fun f => takes_value f = false /\ starts_with_dash f = true) flags ->
  opts1 = Flag <$> flags -> getopt tl = Some opts2 ->
  getopt (args (command prog_ flags target tl)) = Some (opts1 ++ connection target ++ opts2).
Proof.
  intros Hf -> Htl. simpl. induction Hf as [|f flags [Hv Hd] Hf IH].
  - simpl. by rewrite Htl.
  - cbn [app getopt fmap list_fmap]. rewrite Hv, Hd.
    change ("--host" :: host target :: "--port" :: int_to_string (port target) :: "--username" ::
      user target :: "--dbname" :: db target :: "--no-password" :: tl)
      with (connection_args target ++ tl) in *. by rewrite IH.
Qed.

Ltac flags_ok := repeat constructor; try apply compress_flag.

Definition dump_options (t : DbTarget) (lv : ZstdLevel) (dst : path) : list Argument :=
  [Flag "--format=custom"; Flag ("--compress=zstd:" +:+ int_to_string (level_value lv));
   Flag "--no-owner"; Flag "--no-privileges"] ++ connection t ++ [Value "--file" dst].

Definition restore_options (t : DbTarget) (src : path) : list Argument :=
  [Flag "--clean"; Flag "--if-exists"; Flag "--no-owner"; Flag "--no-privileges";
   Flag "--single-transaction"; Flag "--exit-on-error"] ++ connection t ++ [Operand src].

Definition query_options (t : DbTarget) (sql : string) : list Argument :=
  [Flag "--no-psqlrc"; Flag "--tuples-only"; Flag "--no-align"; Flag "--set=ON_ERROR_STOP=1"]
  ++ connection t ++ [Value "--command" sql].

Lemma getopt_dump t lv dst : getopt (args (dump_command t lv dst)) = Some (dump_options t lv dst).
Proof. apply getopt_command; [flags_ok|done|done]. Qed.

Lemma getopt_restore t src :
  starts_with_dash src = false -> getopt (args (restore_command t src)) = Some (restore_options t src).
Proof.
  intros Hsrc. apply getopt_command; [flags_ok|done|].
  simpl. by rewrite (no_dash_no_value _ Hsrc), Hsrc.
Qed.

Lemma getopt_query t sql : getopt (args (query_command t sql)) = Some (query_options t sql).
Proof. apply getopt_command; [flags_ok|done|done]. Qed.

(** C33. The programs read back exactly the arguments that were meant, whatever
    the host, user, database, SQL text or dump path look like (also if they
    look like options): the connection, the flags the service relies on, the
    file of a dump, the statement of a query, and the file of a restore as the
    one operand, provided its path does not start with a dash. *)
Theorem command_lines_read_back t lv dst src sql :
  starts_with_dash src = false ->
  getopt (args (dump_command t lv dst)) = Some (dump_options t lv dst) /\
  getopt (args (restore_command t src)) = Some (restore_options t src) /\
  getopt (args (query_command t sql)) = Some (query_options t sql).
Proof. intros Hsrc. auto using getopt_dump, getopt_restore, getopt_query. Qed.

Definition sample_target : DbTarget :=
  mkDbTarget "--port" 5432 "--command" (Secret_new "hunter2") "tracker".

Lemma command_lines_read_back_witness :
  getopt (args (restore_command sample_target "/data/backup_1.pgdump")) =
    Some (restore_options sample_target "/data/backup_1.pgdump").
Proof. by apply (command_lines_read_back sample_target ZstdLevel_default "" _ ""). Defined.

(** ** The password *)

Definition with_password (pw : string) (t : PgTools) : PgTools :=
  mkPgTools (mkDbTarget (host (target t)) (port (target t)) (user (target t)) (Secret_new pw)
    (db (target t))) (level t) (command_timeout t).

(** What can be seen of a call without reading the child's environment. *)
Definition hide_env (T : Type) (e : PgE T) : prog PgE T :=
  match e with
  | RunWithin limit cmd => call (RunWithin limit (mkPgCommand (program cmd) (args cmd) []))
  | PgInstant => call PgInstant
  | PgLog lv msg => call (PgLog lv msg)
  end.

(** C34. The password is seen by the child process's environment only: with
    another password every operation makes the same calls, with the same
    arguments, the same log lines and the same results, apart from the
    environment of the child; and it is not in what [Debug] prints. *)
Theorem password_only_in_child_env `{RustFmt} t pw pw' p sql :
  interp hide_env (PgTools_dump (with_password pw t) p) =
    interp hide_env (PgTools_dump (with_password pw' t) p) /\
  interp hide_env (PgTools_restore (with_password pw t) p) =
    interp hide_env (PgTools_restore (with_password pw' t) p) /\
  interp hide_env (PgTools_ping (with_password pw t)) =
    interp hide_env (PgTools_ping (with_password pw' t)) /\
  interp hide_env (PgTools_query (with_password pw t) sql) =
    interp hide_env (PgTools_query (with_password pw' t) sql) /\
  DbTarget_debug (target (with_password pw t)) = DbTarget_debug (target (with_password pw' t)).
Proof. by split_and!. Qed.

(** ** The contract of the database ports *)

(** How a child process ended. *)
Inductive Exit := Exited (ok : bool) | Killed | NotStarted.

Definition exit_of (r : option (result Output string)) : Exit :=
  match r with
  | Some (Ok out) => Exited (raw_success out)
  | Some (Err _) => NotStarted
  | None => Killed
  end.

(** The statements [pg_restore --clean --if-exists] makes for an archive. *)
Section Restoring.
Context `{PgFormat}.

Inductive Sql := DropIfExists (x : string) | CreateObject (x : string) (o : Obj).

(** A [DROP] takes along what belongs to the object; a [CREATE] needs the name
    to be free. *)
Inductive sql_step (d : Db) : Sql -> Db -> Prop :=
| DropStep x d' : d' ⊆ delete x d -> sql_step d (DropIfExists x) d'
| CreateStep x o : d !! x = None -> sql_step d (CreateObject x o) (<[x := o]> d).

Inductive sql_run (d : Db) : list Sql -> Db -> Prop :=
| sql_done : sql_run d [] d
| sql_next q qs d1 d' : sql_step d q d1 -> sql_run d1 qs d' -> sql_run d (q :: qs) d'.

(** All objects of the archive are dropped, then made again. *)
Definition restore_script (a : Db) : list Sql :=
  (DropIfExists <$> (map_to_list a).*1) ++ ((fun '(x, o) => CreateObject x o) <$> map_to_list a).

(** The whole script for the archive in [src] is run. *)
Definition restores (src : path) (w w' : World) : Prop :=
  exists content a d, w_files w !! src = Some content /\ pg_restore_bytes content = Some a /\
    sql_run (w_db w) (restore_script a) d /\ w' = mkWorld _ d (w_store w) (w_files w) (w_others w).

Lemma sql_run_app d qs qs' d' :
  sql_run d (qs ++ qs') d' <-> exists d1, sql_run d qs d1 /\ sql_run d1 qs' d'.
Proof.
  revert d. induction qs as [|q qs IH]; intros d; simpl.
  - split; [intros Hr; exists d; split; [constructor|done]|]. intros (d1 & Hd & Hr). by inversion Hd; subst.
  - split.
    + intros Hr. inversion Hr as [|q' qs1 d1 d2 Hq Hqs]; subst. apply IH in Hqs as (d3 & H1 & H2).
      exists d3. split; [by econstructor|done].
    + intros (d1 & Hd & Hr). inversion Hd as [|q' qs1 d2 d3 Hq Hqs]; subst. econstructor; [done|]. apply IH. eauto.
Qed.

Lemma drops_run d xs d' :
  sql_run d (DropIfExists <$> xs) d' -> d' ⊆ d /\ forall x, x ∈ xs -> d' !! x = None.
Proof.
  revert d. induction xs as [|x xs IH]; intros d Hr; cbn in Hr.
  - inversion Hr; subst. split; [done|]. by intros x ?%not_elem_of_nil.
  - inversion Hr as [|q qs d1 d2 Hq Hqs]; subst. inversion Hq as [y d2 Hd|]; subst.
    apply IH in Hqs as [Hsub Hnone]. split.
    + etrans; [exact Hsub|]. etrans; [exact Hd|]. apply delete_subseteq.
    + intros y [->|Hy]%elem_of_cons; [|by apply Hnone].
      eapply lookup_weaken_None; [|exact Hsub]. eapply lookup_weaken_None; [|exact Hd]. apply lookup_delete_eq.
Qed.

Lemma creates_run d l d' :
  NoDup l.*1 -> sql_run d ((fun '(x, o) => CreateObject x o) <$> l) d' -> d' = list_to_map l ∪ d.
Proof.
  revert d. induction l as [|[x o] l IH]; intros d Hnd Hr; cbn in Hr.
  - inversion Hr; subst. cbn. by rewrite (left_id_L ∅ (∪)).
  - apply NoDup_cons in Hnd as [Hx Hnd]. inversion Hr as [|q qs d1 d2 Hq Hqs]; subst.
    inversion Hq as [|y p Hy]; subst. apply IH in Hqs as ->; [|done]. cbn.
    rewrite <-insert_union_r, <-insert_union_l; [done|]. by apply not_elem_of_list_to_map_1.
Qed.

(** The whole script restores the archive over the database. *)
Lemma script_restores a d d' : sql_run d (restore_script a) d' -> restored_over a d d'.
Proof.
  intros (d1 & Hdrop & Hmake)%sql_run_app. apply drops_run in Hdrop as [Hsub _].
  apply creates_run in Hmake as ->; [|apply NoDup_fst_map_to_list]. rewrite list_to_map_to_list.
  split; [apply map_union_subseteq_l|]. by apply map_union_mono_l.
Qed.

Lemma restores_replaces src w w' : restores src w w' -> replaces_db src w w'.
Proof. intros (c & a & d & Hc & Ha & Hd%script_restores & ->). by exists c, a, d. Qed.

(** Where nothing belongs to the objects of the archive, the script runs through
    and all other objects stay. *)
Definition dropped (d : Db) (xs : list string) : Db := foldl (fun d x => delete x d) d xs.

Lemma lookup_dropped d xs y : dropped d xs !! y = if decide (y ∈ xs) then None else d !! y.
Proof.
  revert d. induction xs as [|x xs IH]; intros d; cbn; [done|]. fold (dropped (delete x d) xs). rewrite IH.
  destruct (decide (y ∈ xs)) as [Hy|Hy]; [by rewrite decide_True by (by right)|].
  destruct (decide (y = x)) as [->|Hne]; [by rewrite lookup_delete_eq, decide_True by left|].
  rewrite lookup_delete_ne, decide_False; [done| |done]. rewrite elem_of_cons. naive_solver.
Qed.

Lemma run_drops d xs : sql_run d (DropIfExists <$> xs) (dropped d xs).
Proof.
  revert d. induction xs as [|x xs IH]; intros d; cbn; [constructor|].
  econstructor; [by apply DropStep|]. apply IH.
Qed.

Lemma run_creates d l :
  NoDup l.*1 -> (forall x, x ∈ l.*1 -> d !! x = None) ->
  sql_run d ((fun '(x, o) => CreateObject x o) <$> l) (list_to_map l ∪ d).
Proof.
  revert d. induction l as [|[x o] l IH]; intros d Hnd Hnone; cbn.
  - rewrite (left_id_L ∅ (∪)). constructor.
  - apply NoDup_cons in Hnd as [Hx Hnd]. econstructor; [apply CreateStep, Hnone; left|].
    rewrite <-insert_union_l, insert_union_r by (by apply not_elem_of_list_to_map_1).
    apply IH; [done|]. intros y Hy. rewrite lookup_insert_ne by (by intros ->). apply Hnone. by right.
Qed.

Lemma script_runs a d : sql_run d (restore_script a) (a ∪ d).
Proof.
  apply sql_run_app. exists (dropped d (map_to_list a).*1). split; [apply run_drops|].
  replace (a ∪ d) with (list_to_map (map_to_list a) ∪ dropped d (map_to_list a).*1).
  - apply run_creates; [apply NoDup_fst_map_to_list|]. intros x Hx. by rewrite lookup_dropped, decide_True.
  - rewrite list_to_map_to_list. apply map_eq. intros y. rewrite !lookup_union, lookup_dropped.
    case_decide as Hy; [|done]. apply list_elem_of_fmap in Hy as ([z o] & -> & Hz%elem_of_map_to_list).
    simpl. rewrite Hz. by destruct (d !! z).
Qed.
End Restoring.

(** What the documentation of PostgreSQL's programs says about a run with the
    options [opts] against the database of the world: a dump in custom format
    goes to [--file]; a restore with [--clean --if-exists] runs the script of
    its archive, to the end if it exits with success and, in a single
    transaction, to the end or not at all; [SELECT 1] changes nothing. *)
Class PgPrograms `{PgFormat} (server : DbTarget) := {
  child : World -> PgCommand -> Exit -> World -> Prop;
  child_dump : forall w cmd opts dst x w',
    program cmd = "pg_dump" -> getopt (args cmd) = Some opts -> connects_to server opts ->
    ("PGPASSWORD", expose (password server)) ∈ env cmd ->
    Flag "--format=custom" ∈ opts -> option_values "--file" opts = [dst] ->
    is_Some (w_files w !! dst) ->
    child w cmd x w' ->
    match x with
    | Exited true => exists c, pg_dumps (w_db w) c /\ writes_file dst c w w'
    | _ => only_file dst w w'
    end;
  child_restore : forall w cmd opts src x w',
    program cmd = "pg_restore" -> getopt (args cmd) = Some opts -> connects_to server opts ->
    ("PGPASSWORD", expose (password server)) ∈ env cmd ->
    Flag "--clean" ∈ opts -> Flag "--if-exists" ∈ opts -> Flag "--exit-on-error" ∈ opts ->
    operands opts = [src] -> child w cmd x w' ->
    match x with
    | Exited true => restores src w w'
    | _ => Flag "--single-transaction" ∈ opts -> w' = w \/ restores src w w'
    end;
  child_select : forall w cmd opts x w',
    program cmd = "psql" -> getopt (args cmd) = Some opts -> option_values "--command" opts = ["SELECT 1"] ->
    child w cmd x w' -> w' = w;
}.

Section Contract.
Context `{RustFmt, PgFormat} (t : PgTools) `{!PgPrograms (target t)}.

Definition pg_step (w : World) (e : event PgE) (w' : World) : Prop :=
  match e with
  | Ev op r =>
      match op in PgE T return T -> Prop with
      | RunWithin _ cmd => fun r => child w cmd (exit_of r) w'
      | PgInstant | PgLog _ _ => fun _ => w' = w
      end r
  end.

Definition pg_any (w : World) (T : Type) (e : PgE T) : Prop := True.

(** A command succeeds exactly when its process did. *)
Lemma execute_wp cmd limit w (Q : Result string -> World -> Prop) :
  (forall x w' r, child w cmd x w' -> (x = Exited true <-> exists out, r = Ok out) -> Q r w') ->
  wp pg_any pg_step (execute cmd limit) Q w.
Proof.
  intros HQ. split; [done|]. intros r w' Hs. simpl in Hs.
  destruct r as [[out|e]|]; simpl in *; [|eapply HQ; [exact Hs|naive_solver]..].
  destruct (raw_success out) eqn:Ho; simpl; [|eapply HQ; [exact Hs|naive_solver]].
  destruct (negb _); simpl; [split; [done|]; intros _ w2 ->|]; (eapply HQ; [exact Hs|naive_solver]).
Qed.

Lemma dump_exit w dst x w' :
  is_Some (w_files w !! dst) -> child w (dump_command (target t) (level t) dst) x w' ->
  match x with
  | Exited true => exists c, pg_dumps (w_db w) c /\ writes_file dst c w w'
  | _ => only_file dst w w'
  end.
Proof.
  intros Hf Hc.
  refine (child_dump w (dump_command (target t) (level t) dst) _ dst x w' eq_refl
    (getopt_dump _ _ _) _ _ _ _ Hf Hc); [by split_and!|left|left|done].
Qed.

Lemma restore_exit w src x w' :
  starts_with_dash src = false -> child w (restore_command (target t) src) x w' ->
  match x with
  | Exited true => replaces_db src w w'
  | _ => w' = w \/ replaces_db src w w'
  end.
Proof.
  intros Hsrc Hc.
  pose proof (child_restore w (restore_command (target t) src) _ src x w' eq_refl
    (getopt_restore _ _ Hsrc)) as Hl.
  assert (Flag "--single-transaction" ∈ restore_options (target t) src) as Hst by (simpl; do 4 right; left).
  specialize (Hl ltac:(by split_and!) ltac:(left) ltac:(left) ltac:(simpl; right; left)
    ltac:(simpl; do 5 right; left) eq_refl Hc).
  destruct x as [[]| |]; [by apply restores_replaces|..];
    (destruct (Hl Hst) as [->|Hr]; [by left|right; by apply restores_replaces]).
Qed.

(** What a dump or restore does after its process is left to [Q]. *)
Lemma pg_operation_wp cmd limit m1 (m2 : Z -> Z -> string) w (Q : Result unit -> World -> Prop) :
  (forall x w' r, child w cmd x w' -> (x = Exited true <-> r = Ok tt) -> Q r w') ->
  wp pg_any pg_step
    (let* _ := call (PgLog Info m1) in
     let* start := call PgInstant in
     let? _ := execute cmd limit in
     let* now := call PgInstant in
     let* _ := call (PgLog Info (m2 start now)) in
     Ret (Ok tt)) Q w.
Proof.
  intros HQ. cbn [bind trigger]. split; [done|]. intros _ w1 ->. split; [done|]. intros start w1 ->.
  cbn beta. rewrite wp_bind. apply execute_wp. intros x w1 r Hc Hx. destruct r as [out|e].
  - split; [done|]. intros now w2 ->. split; [done|]. intros _ w2 ->. eapply HQ; [exact Hc|naive_solver].
  - eapply HQ; [exact Hc|naive_solver].
Qed.

Lemma pg_dump_wp w p :
  is_Some (w_files w !! p) -> starts_with_dash p = false ->
  wp pg_any pg_step (PgTools_dump t p) (fun r w' => port_step w (EDump p r) w') w.
Proof.
  intros Hf Hp. apply (pg_operation_wp _ _ _ (fun start now => _)). intros x w1 r Hc%dump_exit Hx; [|done..].
  destruct r as [[]|e]; [by replace x with (Exited true) in Hc by (symmetry; by apply Hx)|].
  destruct x as [[]| |]; [discriminate (proj1 Hx eq_refl)|exact Hc..].
Qed.

Lemma pg_restore_wp w p :
  is_Some (w_files w !! p) -> starts_with_dash p = false ->
  wp pg_any pg_step (PgTools_restore t p) (fun r w' => port_step w (ERestore p r) w') w.
Proof.
  intros Hf Hp. apply (pg_operation_wp _ _ _ (fun start now => _)). intros x w1 r Hc%restore_exit Hx; [|done..].
  destruct r as [[]|e]; [by replace x with (Exited true) in Hc by (symmetry; by apply Hx)|].
  destruct x as [[]| |]; [discriminate (proj1 Hx eq_refl)|exact Hc..].
Qed.

Lemma pg_ping_wp w : wp pg_any pg_step (PgTools_ping t) (fun r w' => port_step w (EPing r) w') w.
Proof.
  unfold PgTools_ping. rewrite wp_bind. apply execute_wp. intros x w1 r Hc _.
  eapply child_select in Hc; [|done|apply getopt_query|done]. subst w1.
  by destruct r.
Qed.

(** C11. [PgTools] implements the database ports: whatever the processes do
    within PostgreSQL's documented behaviour (success, failure, timeout, or no
    process at all), a dump, a restore and a ping return what the contract of
    the ports allows.  A restore that succeeds leaves the objects of the archive
    as the archive has them and, of the others, nothing that was not there; one
    that fails leaves the database alone or has done the same, which relies on
    the restore being one transaction. *)
Theorem pg_tools_meet_contract w p :
  is_Some (w_files w !! p) -> starts_with_dash p = false ->
  wp pg_any pg_step (PgTools_dump t p) (fun r w' => port_step w (EDump p r) w') w /\
  wp pg_any pg_step (PgTools_restore t p) (fun r w' => port_step w (ERestore p r) w') w /\
  wp pg_any pg_step (PgTools_ping t) (fun r w' => port_step w (EPing r) w') w.
Proof.
  intros Hf Hp. split_and!; [by apply pg_dump_wp|by apply pg_restore_wp|apply pg_ping_wp].
Qed.
End Contract.

(** ** Witness: programs that do what they say, or nothing *)

Section Programs.
Context `{PgFormat}.

Definition plain_child (w : World) (cmd : PgCommand) (x : Exit) (w' : World) : Prop :=
  match x, getopt (args cmd) with
  | Exited true, Some opts =>
      if String.eqb (program cmd) "pg_dump" then
        match option_values "--file" opts with
        | [dst] => exists c, pg_dumps (w_db w) c /\ writes_file dst c w w'
        | _ => False
        end
      else if String.eqb (program cmd) "pg_restore" then
        match operands opts with [src] => restores src w w' | _ => False end
      else w' = w
  | _, _ => w' = w
  end.

#[local] Program Instance plain_programs server : PgPrograms server := {| child := plain_child |}.
Next Obligation.
  intros server w cmd opts dst x w' Hp Ho _ _ _ Hd Hf. unfold plain_child. rewrite Ho, Hp, Hd.
  destruct x as [[]| |]; simpl; [done|intros ->; by split_and!..].
Qed.
Next Obligation.
  intros server w cmd opts src x w' Hp Ho _ _ _ _ _ Hs. unfold plain_child. rewrite Ho, Hp, Hs.
  destruct x as [[]| |]; simpl; auto.
Qed.
Next Obligation.
  intros server w cmd opts x w' Hp Ho _. unfold plain_child. rewrite Ho, Hp.
  by destruct x as [[]| |].
Qed.
End Programs.

#[local] Instance byte_pg : PgFormat := text_pg Some.
#[local] Instance byte_fmt : RustFmt := {| str_debug := fun s => s |}.
#[local] Instance byte_programs : PgPrograms sample_target := plain_programs sample_target.

Definition sample_pg : PgTools := mkPgTools sample_target ZstdLevel_default (from_secs 60).

(** A database with a table the archive in the file does not have. *)
Definition sample_pg_world : World :=
  mkWorld _ {["users" := chars "old"; "tags" := chars "t"]} []
    {["/data/x" := text_dump {["users" := chars "new"]}]} [].

Lemma pg_tools_meet_contract_witness :
  wp pg_any (pg_step sample_pg) (PgTools_dump sample_pg "/data/x")
    (fun r w' => port_step sample_pg_world (EDump "/data/x" r) w') sample_pg_world /\
  wp pg_any (pg_step sample_pg) (PgTools_restore sample_pg "/data/x")
    (fun r w' => port_step sample_pg_world (ERestore "/data/x" r) w') sample_pg_world.
Proof.
  destruct (pg_tools_meet_contract sample_pg sample_pg_world "/data/x") as (Hd & Hr & _);
    [by eexists|reflexivity|]. split; [exact Hd|exact Hr].
Defined.
