(* ===== verification/Drive.v ===== *)
(** * [backup-gdrive]: errors, retries, queries and file metadata

    [errors.rs], [retry.rs], [query.rs] and [mapping.rs].  The calls of the
    Drive client library are calls of [DriveE]; [GoogleApis.v] has what they do. *)

From Stdlib Require Import ZArith Lia Ascii.
From stdpp Require Import base numbers gmap sorting strings list.
From S2P Require Import Prelude RustStd Json Chrono Core Ports.
Open Scope Z_scope.
Open Scope rust_scope.

(** ** [errors.rs] *)

(** [google_drive3::Error], with the texts its members print. *)
Inductive DriveError :=
| HttpError (e : string)
| DriveIo (e : string)
| MissingToken (e : string)
| DriveBadRequest (body : Value)
| Failure (status : Z)
| OtherDriveError (display : string).

Inductive CallError := Transient (msg : string) | BadRequest (msg : string) | Permanent (err : Error).

Definition into_error (e : CallError) : Error :=
  match e with
  | Transient msg => Unavailable msg
  | BadRequest msg => StorageError msg
  | Permanent err => err
  end.

Definition RATE_LIMIT_REASONS : list string := ["rateLimitExceeded"; "userRateLimitExceeded"].

Definition classify_status (op : string) (status : Z) (reason : option string) (detail : string)
    : CallError :=
  let msg := op +:+ ": HTTP " +:+ int_to_string status +:+ ": " +:+ detail in
  if status =? 400 then BadRequest msg
  else if status =? 404 then Permanent (NotFound msg)
  else if (status =? 429) || ((500 <=? status) && (status <=? 599)) then Transient msg
  else if (status =? 403) &&
          match reason with Some r => bool_decide (r ∈ RATE_LIMIT_REASONS) | None => false end
  then Transient msg
  else Permanent (StorageError msg).

Definition classify_json (op : string) (body : Value) : CallError :=
  let error := index_key body "error" in
  match as_u64 (index_key error "code") ≫= try_from 0 U16_MAX with
  | None => Permanent (StorageError (op +:+ ": " +:+ value_display body))
  | Some status =>
      let reason := as_str (index_key (index_pos (index_key error "errors") 0) "reason") in
      let detail := default "" (as_str (index_key error "message")) in
      classify_status op status reason detail
  end.

Definition classify (op : string) (err : DriveError) : CallError :=
  match err with
  | HttpError e => Transient (op +:+ ": transport error: " +:+ e)
  | DriveIo e => Transient (op +:+ ": io error: " +:+ e)
  | MissingToken e => Transient (op +:+ ": token error: " +:+ e)
  | DriveBadRequest body => classify_json op body
  | Failure status => classify_status op status None "no details"
  | OtherDriveError d => Permanent (StorageError (op +:+ ": " +:+ d))
  end.

(** [timed], on the outcome of the bounded call: [None] when the limit passed. *)
Definition timed {A} (op : string) (limit : Duration) (r : option (result A DriveError))
    : result A CallError :=
  match r with
  | None => Err (Transient (op +:+ " timed out after " +:+ duration_debug limit))
  | Some res => result_map_err (classify op) res
  end.

(** ** [mapping.rs]: [google_drive3::api::File] *)

Record File := mkFile {
  f_id : option string;
  f_name : option string;
  f_created_time : option DateTime;
  f_size : option Z;
  f_md5_checksum : option string;
  f_app_properties : option (gmap string string);
  f_parents : option (list string);
  f_trashed : option bool;
  f_mime_type : option string;
}.

Record FileList := mkFileList { l_files : option (list File); l_next_page_token : option string }.

Definition PROP_FORMAT : string := "format".
Definition PROP_KIND : string := "kind".
Definition PROP_DB_NAME : string := "db_name".

Definition required {A} (value : option A) (field : string) : Result A :=
  ok_or value (StorageError ("Drive file has no '" +:+ field +:+ "'")).

Definition to_backup_info (file : File) : Result BackupInfo :=
  try i := required (f_id file) "id" in
  try n := required (f_name file) "name" in
  try t := required (f_created_time file) "createdTime" in
  let props := default ∅ (f_app_properties file) in
  try fmt := detect_format n (props !! PROP_FORMAT) in
  let size := f_size file ≫= try_from 0 U64_MAX in
  try k := BackupKind_parse (props !! PROP_KIND) in
  Ok {| id := i; name := n; created_at := t; size_bytes := size; md5 := f_md5_checksum file;
        format := fmt; kind := k |}.

Definition is_in_folder (file : File) (folder_id : string) : bool :=
  bool_decide (f_trashed file <> Some true) &&
  match f_parents file with Some p => existsb (fun i => String.eqb i folder_id) p | None => false end.

Definition upload_metadata (req : UploadRequest) (folder_id : string) : File :=
  let props : gmap string string :=
    <[PROP_DB_NAME := req_db_name req]>
      (<[PROP_KIND := BackupKind_as_str (req_kind req)]>
        (<[PROP_FORMAT := BackupFormat_as_str (req_format req)]> ∅)) in
  mkFile None (Some (req_name req)) None None None (Some props) (Some [folder_id]) None
    (Some "application/octet-stream").

(** ** [query.rs] *)

Definition FILE_FIELDS : string := "id,name,createdTime,size,md5Checksum,appProperties,parents,trashed".
Definition NEWEST_FIRST : string := "createdTime desc".
Definition FOLDER_MIME : string := "application/vnd.google-apps.folder".

Definition list_fields : string := "nextPageToken,files(" +:+ FILE_FIELDS +:+ ")".

Definition escape (value : string) : string := str_replace "'" "\'" (str_replace "\" "\\" value).

Definition folder_query (folder_id : string) : string :=
  "'" +:+ escape folder_id +:+ "' in parents and trashed = false and mimeType != '" +:+
  FOLDER_MIME +:+ "'".

Definition latest_query (folder_id : string) : string :=
  folder_query folder_id +:+ " and not appProperties has { key='" +:+ PROP_KIND +:+
  "' and value='" +:+ BackupKind_as_str PreRestore +:+ "' }".

(** ** The calls of the storage *)

(** What one [body.frame()] of a download gives; the stream ends after the
    last one. *)
Inductive Frame :=
| Stalled
| Interrupted (e : string)
| Data (data : bytes)
| Trailers.

(** Calls to the Drive API carry their time limit and answer [None] when it
    passes. *)
Inductive DriveE : Type -> Type :=
| ListFiles (limit : Duration) (q order_by : string) (page_size : Z) (fields : string)
    (page_token : option string) : DriveE (option (result FileList DriveError))
| GetFile (limit : Duration) (i fields : string) : DriveE (option (result File DriveError))
| GetMedia (limit : Duration) (i : string) : DriveE (option (result (list Frame) DriveError))
| CreateFile (limit : Duration) (meta : File) (fields : string) (src : path)
    : DriveE (option (result File DriveError))
| DeleteFile (limit : Duration) (i : string) : DriveE (option (result unit DriveError))
(* local files: [File::open], [File::create], [write_all], [flush] *)
| OpenLocal (p : path) : DriveE (result unit string)
| CreateLocal (p : path) : DriveE (result unit string)
| WriteLocal (p : path) (data : bytes) : DriveE (result unit string)
| FlushLocal (p : path) : DriveE (result unit string)
(* [tokio::time::sleep], [Instant::now], the log, a panic *)
| Sleep (d : Duration) : DriveE unit
| DriveInstant : DriveE Z
| DriveLog (lv : Level) (msg : string) : DriveE unit
| Panic (msg : string) : DriveE Empty_set.

(** ** [retry.rs] *)

Record RetryPolicy := mkRetryPolicy { attempts : Z; base_delay : Duration; max_delay : Duration }.

Definition RetryPolicy_default : RetryPolicy := mkRetryPolicy 4 (from_millis 500) (from_secs 8).

(** [Duration * u32] panics on overflow. *)
Definition duration_mul (d : Duration) (k : Z) : prog DriveE Duration :=
  if d * k <=? DURATION_MAX then Ret (d * k)
  else Vis (Panic "overflow when multiplying duration by scalar") (fun e : Empty_set => match e with end).

(** The loop of [retry]; [fuel] bounds its rounds. *)
Fixpoint retry_loop {A} (fuel : nat) (policy : RetryPolicy) (op : string)
    (body : prog DriveE (result A CallError)) (delay : Duration) (attempt : Z)
    : prog DriveE (Result A) :=
  let* r := body in
  match r with
  | Ok value => Ret (Ok value)
  | Err (Transient msg) =>
      if attempts policy <=? attempt then Ret (Err (into_error (Transient msg)))
      else
        let* _ := call (DriveLog Warn (op +:+ " failed (attempt " +:+ int_to_string attempt +:+ "/" +:+
                          int_to_string (attempts policy) +:+ "): " +:+ msg)) in
        let* _ := call (Sleep delay) in
        let* doubled := duration_mul delay 2 in
        match fuel with
        | O => Ret (Err (into_error (Transient msg)))
        | S fuel => retry_loop fuel policy op body (Z.min doubled (max_delay policy)) (attempt + 1)
        end
  | Err err => Ret (Err (into_error err))
  end.

Definition retry {A} (policy : RetryPolicy) (op : string) (body : prog DriveE (result A CallError))
    : prog DriveE (Result A) :=
  retry_loop (Z.to_nat (attempts policy)) policy op body (base_delay policy) 1.

(** ** Specification: how Drive reads a query literal

    After the opening quote, a backslash takes the next character as it is and
    a quote ends the literal. *)
Fixpoint read_literal (l : list ascii) : option (list ascii * list ascii) :=
  match l with
  | [] => None
  | c :: l =>
      if bool_decide (c = "'"%char) then Some ([], l)
      else if bool_decide (c = "\"%char) then
        match l with
        | [] => None
        | d :: l => '(v, rest) ← read_literal l; Some (d :: v, rest)
        end
      else '(v, rest) ← read_literal l; Some (c :: v, rest)
  end.

(** The [i]-th pause of [retry]. *)
Definition pause (policy : RetryPolicy) (i : nat) : Duration :=
  match i with
  | O => base_delay policy
  | _ => Z.min (base_delay policy * 2 ^ Z.of_nat i) (max_delay policy)
  end.

(** An attempt that failed, with its log line and the pause after it. *)
Definition failed_round (policy : RetryPolicy) (op : string) (i : nat)
    (f : list (event DriveE) * string) : list (event DriveE) :=
  f.1 ++ [Ev (DriveLog Warn (op +:+ " failed (attempt " +:+ int_to_string (Z.of_nat i + 1) +:+ "/" +:+
                int_to_string (attempts policy) +:+ "): " +:+ f.2)) tt;
          Ev (Sleep (pause policy i)) tt].

(** Doubling the pauses of the policy does not overflow. *)
Definition policy_ok (policy : RetryPolicy) : Prop :=
  0 <= base_delay policy /\ 0 <= max_delay policy /\
  base_delay policy * 2 <= DURATION_MAX /\ max_delay policy * 2 <= DURATION_MAX.

(** A program that never panics. *)
Definition is_panic {T} (op : DriveE T) : bool := match op with Panic _ => true | _ => false end.

Fixpoint no_panic {A} (p : prog DriveE A) : Prop :=
  match p with
  | Ret _ => True
  | Vis op k => is_panic op = false /\ forall r, no_panic (k r)
  end.

(** ** Queries *)

Lemma read_escape v rest :
  read_literal (chars (escape v) ++ "'"%char :: rest) = Some (chars v, rest).
Proof.
  unfold escape, str_replace. rewrite !chars_of_chars. induction (chars v) as [|c l IH]; [done|].
  cbn [flat_map]. rewrite flat_map_app, <-app_assoc. set (tl := flat_map _ (flat_map _ l)) in *.
  destruct (Ascii.eqb_spec c "\"%char) as [->|Hb].
  { simpl. by rewrite IH. }
  cbn [flat_map]. rewrite app_nil_r. destruct (Ascii.eqb_spec c "'"%char) as [->|Hq].
  { simpl. by rewrite IH. }
  cbn [app read_literal]. rewrite !bool_decide_false by done. by rewrite IH.
Qed.

(** C32. A folder id cannot change a query: Drive reads back, as the literal of
    the query, exactly the configured folder id, whatever quotes or
    backslashes it has, and after it the fixed conditions. *)
Theorem queries_read_back folder_id :
  (exists q, chars (folder_query folder_id) = "'"%char :: q /\
     read_literal q = Some (chars folder_id, chars (" in parents and trashed = false and mimeType != '"
       +:+ FOLDER_MIME +:+ "'"))) /\
  (exists q, chars (latest_query folder_id) = "'"%char :: q /\
     read_literal q = Some (chars folder_id, chars (" in parents and trashed = false and mimeType != '"
       +:+ FOLDER_MIME +:+ "' and not appProperties has { key='kind' and value='pre_restore' }"))).
Proof.
  split; unfold latest_query, folder_query; rewrite ?str_app_assoc, chars_app; eexists; (split; [reflexivity|]);
    rewrite chars_app; apply read_escape.
Qed.

(** ** Metadata *)

(** What Drive makes of uploaded metadata: it adds the id, the time, the size
    and the checksum. *)
Definition drive_file (meta : File) (i : string) (t : DateTime) (size : Z) (sum : string) : File :=
  mkFile (Some i) (f_name meta) (Some t) (Some size) (Some sum) (f_app_properties meta)
    (f_parents meta) (Some false) (f_mime_type meta).

(** What is uploaded is found again: the file Drive stores for an upload
    maps to a backup with the name, format and kind of the request and Drive's
    id, time, size and checksum, and it counts as a file of the folder. *)
Theorem upload_metadata_roundtrip req folder_id i t size sum :
  0 <= size <= U64_MAX ->
  to_backup_info (drive_file (upload_metadata req folder_id) i t size sum) =
    Ok {| id := i; name := req_name req; created_at := t; size_bytes := Some size; md5 := Some sum;
          format := req_format req; kind := req_kind req |} /\
  is_in_folder (drive_file (upload_metadata req folder_id) i t size sum) folder_id = true.
Proof.
  intros Hs. split.
  - unfold to_backup_info, upload_metadata, drive_file. cbn [f_id f_name f_created_time f_size
      f_md5_checksum f_app_properties required ok_or default from_option Datatypes.id].
    rewrite lookup_insert_ne, lookup_insert_ne, lookup_insert_eq by done.
    rewrite lookup_insert_ne, lookup_insert_eq by done. unfold detect_format.
    rewrite BackupFormat_roundtrip. cbn [ok_or]. rewrite BackupKind_roundtrip. simpl.
    by rewrite try_from_in.
  - unfold is_in_folder. simpl. by rewrite String.eqb_refl.
Qed.

Lemma upload_metadata_roundtrip_witness :
  is_in_folder (drive_file (upload_metadata (UploadRequest_pg_dump "/data/x" "tracker" PreRestore
    (mkDateTime 1767225600 0)) "folder") "f1" (mkDateTime 1767225601 0) 5 "abc") "folder" = true.
Proof.
  apply (upload_metadata_roundtrip (UploadRequest_pg_dump "/data/x" "tracker" PreRestore
    (mkDateTime 1767225600 0)) "folder" "f1" (mkDateTime 1767225601 0) 5 "abc").
  unfold U64_MAX. lia.
Defined.

(** ** Retries *)

Lemma pause_step policy i :
  0 <= base_delay policy -> 0 <= max_delay policy ->
  Z.min (pause policy i * 2) (max_delay policy) = pause policy (S i).
Proof.
  intros Hb Hm. destruct i as [|i]; cbn [pause]; [f_equal; lia|].
  rewrite (Nat2Z.inj_succ (S i)), Z.pow_succ_r by lia. nia.
Qed.

Lemma duration_mul_ok policy i :
  policy_ok policy -> duration_mul (pause policy i) 2 = Ret (pause policy i * 2).
Proof.
  intros (Hb & Hm & H1 & H2). unfold duration_mul. rewrite (proj2 (Z.leb_le _ _)); [done|].
  destruct i as [|i]; cbn [pause]; lia.
Qed.

(** After an attempt: the loop ends with its outcome, or goes on after a log
    line and a pause. *)
Lemma retry_loop_round {A} policy op (body : prog DriveE (result A CallError)) fuel i tr r :
  policy_ok policy ->
  steps (retry_loop fuel policy op body (pause policy i) (Z.of_nat i + 1)) tr (Ret r) ->
  (exists out, steps body tr (Ret out) /\ r = result_map_err into_error out /\
     forall msg, out = Err (Transient msg) -> attempts policy <= Z.of_nat i + 1) \/
  (exists tr1 msg tr2, tr = failed_round policy op i (tr1, msg) ++ tr2 /\
     steps body tr1 (Ret (Err (Transient msg))) /\ Z.of_nat i + 1 < attempts policy /\
     match fuel with
     | O => True
     | S fuel => steps (retry_loop fuel policy op body (pause policy (S i)) (Z.of_nat (S i) + 1)) tr2 (Ret r)
     end).
Proof.
  intros Hp H.
  assert (exists out tr1 tr2, tr = tr1 ++ tr2 /\ steps body tr1 (Ret out) /\
    steps (match out with
      | Ok value => Ret (Ok value)
      | Err (Transient msg) =>
          if attempts policy <=? Z.of_nat i + 1 then Ret (Err (into_error (Transient msg)))
          else
            let* _ := call (DriveLog Warn (op +:+ " failed (attempt " +:+ int_to_string (Z.of_nat i + 1)
                              +:+ "/" +:+ int_to_string (attempts policy) +:+ "): " +:+ msg)) in
            let* _ := call (Sleep (pause policy i)) in
            let* doubled := duration_mul (pause policy i) 2 in
            match fuel with
            | O => Ret (Err (into_error (Transient msg)))
            | S fuel => retry_loop fuel policy op body (Z.min doubled (max_delay policy)) (Z.of_nat i + 1 + 1)
            end
      | Err err => Ret (Err (into_error err))
      end) tr2 (Ret r)) as (out & tr1 & tr2 & -> & Hb & Hk).
  { destruct fuel; by apply steps_bind_Ret in H. }
  clear H.
  assert (forall v : Result A, steps (Ret v) tr2 (Ret r) -> tr2 = [] /\ r = v) as Hret.
  { intros v Hs. destruct tr2; [split; [done|by injection Hs as ->]|done]. }
  destruct out as [value|[msg|msg|err]]; [left|destruct (Z.leb_spec (attempts policy) (Z.of_nat i + 1));
    [left|right]|left|left].
  1,2,4,5: apply Hret in Hk as [-> ->]; rewrite app_nil_r; eexists; by split_and!.
  cbn [bind trigger] in Hk. rewrite duration_mul_ok in Hk by done. cbn [bind] in Hk.
  destruct tr2 as [|e1 [|e2 tr2]]; [done| |].
  { destruct Hk as ([] & -> & Hk). done. }
  destruct Hk as ([] & -> & [] & -> & Hk). exists tr1, msg, tr2. split_and!; [|done|done|].
  - unfold failed_round. simpl. by rewrite <-app_assoc.
  - destruct fuel as [|fuel]; [done|]. destruct Hp as (Hb0 & Hm0 & _).
    rewrite pause_step in Hk by done. by replace (Z.of_nat (S i) + 1) with (Z.of_nat i + 1 + 1) by lia.
Qed.

(** From the [i]-th attempt on. *)
Lemma retry_loop_spec {A} policy op (body : prog DriveE (result A CallError)) fuel i tr r :
  policy_ok policy -> attempts policy <= Z.of_nat i + Z.of_nat fuel ->
  steps (retry_loop fuel policy op body (pause policy i) (Z.of_nat i + 1)) tr (Ret r) ->
  exists fails last out,
    tr = concat (imap (fun j => failed_round policy op (i + j)) fails) ++ last /\
    (Z.of_nat i + Z.of_nat (length fails) < Z.max (Z.of_nat i + 1) (attempts policy)) /\
    Forall (fun f => steps body f.1 (Ret (Err (Transient f.2)))) fails /\
    steps body last (Ret out) /\ r = result_map_err into_error out /\
    forall msg, out = Err (Transient msg) ->
      Z.of_nat i + Z.of_nat (length fails) + 1 = Z.max (Z.of_nat i + 1) (attempts policy).
Proof.
  intros Hp. revert i tr. induction fuel as [|fuel IH]; intros i tr Hfuel H;
    apply retry_loop_round in H as [(out & Hb & -> & Hout)|(tr1 & msg & tr2 & -> & Hb & Hlt & H)];
    [|lia|done| | |done].
  1,2: exists [], tr, out; simpl; split_and!; try done; [lia|];
    intros msg Hm; specialize (Hout msg Hm); lia.
  apply IH in H as (fails & last & out & -> & Hlen & Hf & Hl & -> & Hout); [|lia].
  exists ((tr1, msg) :: fails), last, out. split_and!; [|simpl; lia|by constructor|done|done|].
  - rewrite imap_cons. cbn [concat]. rewrite Nat.add_0_r, <-app_assoc. do 3 f_equal.
    apply imap_ext. intros j f _. simpl. by rewrite Nat.add_succ_r.
  - intros m Hm. specialize (Hout m Hm). simpl. lia.
Qed.

(** C29. [retry] makes at most [attempts] attempts, and at least one.  Every
    attempt but the last failed with a transient error and is followed by a
    log line and a pause, which doubles from [base_delay] up to [max_delay];
    the outcome is that of the last attempt, so a permanent error or a bad
    request is returned at once; a transient error is returned only when no
    attempt is left. *)
Theorem retry_attempts {A} policy op (body : prog DriveE (result A CallError)) tr r :
  policy_ok policy -> steps (retry policy op body) tr (Ret r) ->
  exists fails last out,
    tr = concat (imap (failed_round policy op) fails) ++ last /\
    Z.of_nat (length fails) + 1 <= Z.max 1 (attempts policy) /\
    Forall (fun f => steps body f.1 (Ret (Err (Transient f.2)))) fails /\
    steps body last (Ret out) /\ r = result_map_err into_error out /\
    forall msg, out = Err (Transient msg) ->
      Z.of_nat (length fails) + 1 = Z.max 1 (attempts policy).
Proof.
  intros Hp H.
  destruct (retry_loop_spec policy op body (Z.to_nat (attempts policy)) 0 tr r Hp) as
    (fails & last & out & Htr & Hlen & Hf & Hl & Hr & Hout); [lia|exact H|].
  exists fails, last, out. split_and!; [done|lia|done..|]. intros msg Hm. specialize (Hout msg Hm). lia.
Qed.

Lemma no_panic_bind {A B} (p : prog DriveE A) (f : A -> prog DriveE B) :
  no_panic p -> (forall a, no_panic (f a)) -> no_panic (bind p f).
Proof.
  intros Hp Hf. induction p as [a|T op k IH]; simpl in *; [done|]. destruct Hp. split; auto.
Qed.

Lemma retry_loop_no_panic {A} policy op (body : prog DriveE (result A CallError)) fuel i attempt :
  policy_ok policy -> no_panic body ->
  no_panic (retry_loop fuel policy op body (pause policy i) attempt).
Proof.
  intros Hp Hb. revert i attempt. induction fuel as [|fuel IH]; intros i attempt; cbn [retry_loop];
    (apply no_panic_bind; [done|]); intros [v|[msg|msg|err]]; try done;
    (destruct (_ <=? _); [done|]); cbn [bind trigger]; rewrite duration_mul_ok by done;
    cbn [bind no_panic is_panic]; split_and!; try done.
  intros _. split; [done|]. intros _. destruct Hp as (Hb0 & Hm0 & ?).
  rewrite pause_step by done. apply IH.
Qed.

Lemma retry_no_panic {A} policy op (body : prog DriveE (result A CallError)) :
  policy_ok policy -> no_panic body -> no_panic (retry policy op body).
Proof. intros Hp Hb. by apply (retry_loop_no_panic policy op body _ 0). Qed.

(** Which HTTP failures are worth a retry: 429, the 5xx, and 403 when the
    reason is one of Drive's two rate limits; 404 is a missing backup, 400 a
    bad request, and every other status a storage error. *)
Lemma classify_status_spec op status reason detail :
  match classify_status op status reason detail with
  | Transient _ => status = 429 \/ 500 <= status <= 599 \/
      (status = 403 /\ exists r, reason = Some r /\ r ∈ RATE_LIMIT_REASONS)
  | BadRequest _ => status = 400
  | Permanent (NotFound _) => status = 404
  | Permanent (StorageError _) => status <> 429 /\ ~ 500 <= status <= 599 /\ status <> 400 /\
      status <> 404 /\ (status = 403 -> forall r, reason = Some r -> r ∉ RATE_LIMIT_REASONS)
  | Permanent _ => False
  end.
Proof.
  unfold classify_status.
  destruct (Z.eqb_spec status 400); [done|]. destruct (Z.eqb_spec status 404); [done|].
  destruct (Z.eqb_spec status 429); simpl; [by left|].
  destruct (Z.leb_spec 500 status), (Z.leb_spec status 599); simpl; [by auto|..];
    (destruct (Z.eqb_spec status 403); simpl; [|split_and!; try done; lia]);
    (destruct reason as [r|]; [case_bool_decide|]); try (right; right; eauto; done);
    split_and!; naive_solver lia.
Qed.

(** ** Witness: a call that fails once *)

Definition flaky_body : prog DriveE (result Z CallError) :=
  let* now := call DriveInstant in
  Ret (if now =? 0 then Err (Transient "flaky") else Ok now).

Definition flaky_trace : list (event DriveE) :=
  [Ev DriveInstant 0;
   Ev (DriveLog Warn "op failed (attempt 1/4): flaky") tt; Ev (Sleep (from_millis 500)) tt;
   Ev DriveInstant 7].

Lemma default_policy_ok : policy_ok RetryPolicy_default.
Proof. repeat split; by vm_compute. Qed.

Lemma flaky_steps : steps (retry RetryPolicy_default "op" flaky_body) flaky_trace (Ret (Ok 7)).
Proof. do 4 (eexists; split; [reflexivity|]). reflexivity. Qed.

Lemma retry_attempts_witness :
  exists fails, (length fails <= 3)%nat /\
    Forall (fun f => steps flaky_body f.1 (Ret (Err (Transient f.2)))) fails.
Proof.
  destruct (retry_attempts RetryPolicy_default "op" flaky_body flaky_trace (Ok 7) default_policy_ok flaky_steps)
    as (fails & last & out & _ & Hlen & Hf & _).
  exists fails. split; [simpl in Hlen; lia|exact Hf].
Defined.
