(* ===== verification/DriveStorage.v ===== *)
(** * [backup-gdrive/src/storage.rs]: backups in one Drive folder

    [GoogleDriveStorage] implements the storage port: its operations are
    programs over the calls of [Drive.v], against the interface of [Md5.v]; the
    body of a download is the finite list of its frames. *)

From Stdlib Require Import ZArith Lia Ascii.
From stdpp Require Import base numbers gmap sorting strings list.
From S2P Require Import Prelude RustStd Chrono Core Ports Md5 Drive.
Open Scope Z_scope.
Open Scope rust_scope.

(** [hex::encode]. *)
Definition hex_encode (l : bytes) : string :=
  of_chars (flat_map (fun c => [hex_digit (code c / 16); hex_digit (code c mod 16)]) l).

Definition LATEST_PAGE_SIZE : Z := 10.
Definition LATEST_MAX_PAGES : nat := 10.

Record DriveOptions := mkDriveOptions {
  request_timeout : Duration;
  upload_timeout : Duration;
  read_idle_timeout : Duration;
  retry_policy : RetryPolicy;
}.

Definition DriveOptions_default : DriveOptions :=
  mkDriveOptions (from_secs 60) (from_secs (30 * 60)) (from_secs 60) RetryPolicy_default.

Record GoogleDriveStorage := mkGoogleDriveStorage { folder_id : string; opts : DriveOptions }.

Section Storage.
Context `{RustFmt, Md5}.

(** The [filter_map] of [list_once]. *)
Fixpoint keep_backups (l : list File) : prog DriveE (list BackupInfo) :=
  match l with
  | [] => Ret []
  | file :: l =>
      match to_backup_info file with
      | Ok info => let* rest := keep_backups l in Ret (info :: rest)
      | Err e =>
          let* _ := call (DriveLog Warn ("Skipping '" +:+ default "" (f_name file) +:+ "': " +:+
                                         Error_display e)) in
          keep_backups l
      end
  end.

Definition list_once (s : GoogleDriveStorage) (query : string) (page_size : Z)
    (page_token : option string) : prog DriveE (result (Page BackupInfo) CallError) :=
  let page_size := default I32_MAX (try_from (- I32_MAX - 1) I32_MAX page_size) in
  let limit := request_timeout (opts s) in
  let* r := call (ListFiles limit query NEWEST_FIRST page_size list_fields page_token) in
  match timed "Listing backups" limit r with
  | Err e => Ret (Err e)
  | Ok list =>
      let* items := keep_backups (default [] (l_files list)) in
      Ret (Ok (mkPage items (l_next_page_token list)))
  end.

(** The loop over the frames of a body, with the hasher and the number of bytes
    so far. *)
Fixpoint write_frames (frames : list Frame) (dst : path) (idle : Duration) (hasher : Hasher) (size : Z)
    : prog DriveE (result (Hasher * Z) CallError) :=
  match frames with
  | [] => Ret (Ok (hasher, size))
  | Stalled :: _ => Ret (Err (Transient ("No download data for " +:+ duration_debug idle)))
  | Interrupted e :: _ => Ret (Err (Transient ("Download interrupted: " +:+ e)))
  | Trailers :: frames => write_frames frames dst idle hasher size
  | Data data :: frames =>
      let* r := call (WriteLocal dst data) in
      match r with
      | Err e => Ret (Err (Permanent (Error_io "Could not write download file" e)))
      | Ok _ =>
          write_frames frames dst idle (Md5_update hasher data)
            ((size + Z.of_nat (length data)) mod (U64_MAX + 1))
      end
  end.

Definition download_once (s : GoogleDriveStorage) (backup : BackupInfo) (dst : path)
    : prog DriveE (result Z CallError) :=
  let limit := request_timeout (opts s) in
  let* r := call (GetMedia limit (id backup)) in
  match timed "Downloading backup" limit r with
  | Err e => Ret (Err e)
  | Ok body =>
      let* r := call (CreateLocal dst) in
      match r with
      | Err e => Ret (Err (Permanent (Error_io "Could not create download file" e)))
      | Ok _ =>
          let? (hasher, size) := write_frames body dst (read_idle_timeout (opts s)) Md5_new 0 in
          let* r := call (FlushLocal dst) in
          match r with
          | Err e => Ret (Err (Permanent (Error_io "Could not write download file" e)))
          | Ok _ =>
              match md5 backup with
              | Some expected =>
                  let actual := hex_encode (Md5_finalize hasher) in
                  if negb (eq_ignore_ascii_case actual expected) then
                    Ret (Err (Transient ("Checksum mismatch for '" +:+ name backup +:+ "': expected " +:+
                                         expected +:+ ", got " +:+ actual)))
                  else Ret (Ok size)
              | None => Ret (Ok size)
              end
          end
      end
  end.

Definition drive_upload (s : GoogleDriveStorage) (req : UploadRequest) : prog DriveE (Result BackupInfo) :=
  let* _ := call (DriveLog Info ("Uploading '" +:+ req_name req +:+ "'")) in
  let* start := call DriveInstant in
  let* r := call (OpenLocal (req_path req)) in
  match result_map_err (Error_io ("Could not open " +:+ str_debug (req_path req))) r with
  | Err e => Ret (Err e)
  | Ok _ =>
      let limit := upload_timeout (opts s) in
      let* r := call (CreateFile limit (upload_metadata req (folder_id s)) FILE_FIELDS (req_path req)) in
      match result_map_err into_error (timed "Uploading backup" limit r) with
      | Err e => Ret (Err e)
      | Ok created =>
          match to_backup_info created with
          | Err e => Ret (Err e)
          | Ok info =>
              let* now := call DriveInstant in
              let* _ := call (DriveLog Info ("Uploaded '" +:+ name info +:+ "' as '" +:+ id info +:+
                                             "' for " +:+ duration_debug (now - start))) in
              Ret (Ok info)
          end
      end
  end.

Definition drive_list (s : GoogleDriveStorage) (page_size : Z) (page_token : option string)
    : prog DriveE (Result (Page BackupInfo)) :=
  retry (retry_policy (opts s)) "Listing backups" (
    let* r := list_once s (folder_query (folder_id s)) page_size page_token in
    Ret (result_map_err (fun e =>
      match e with
      | BadRequest msg =>
          if bool_decide (is_Some page_token) then Permanent (InvalidArgument "invalid page_token")
          else BadRequest msg
      | other => other
      end) r)).

(** The loop of [latest]: [n] pages may still be read. *)
Fixpoint latest_pages (s : GoogleDriveStorage) (n : nat) (token : option string)
    : prog DriveE (Result (option BackupInfo)) :=
  match n with
  | O =>
      Ret (Err (FailedPrecondition ("no backup among the newest " +:+
        int_to_string (LATEST_PAGE_SIZE * Z.of_nat LATEST_MAX_PAGES) +:+ " files in the folder")))
  | S n =>
      let? page := retry (retry_policy (opts s)) "Getting latest backup"
                     (list_once s (latest_query (folder_id s)) LATEST_PAGE_SIZE token) in
      match items page with
      | newest :: _ => Ret (Ok (Some newest))
      | [] =>
          match next_page_token page with
          | Some next => if str_is_empty next then Ret (Ok None) else latest_pages s n (Some next)
          | None => Ret (Ok None)
          end
      end
  end.

Definition drive_latest (s : GoogleDriveStorage) : prog DriveE (Result (option BackupInfo)) :=
  latest_pages s LATEST_MAX_PAGES None.

Definition drive_get (s : GoogleDriveStorage) (i : string) : prog DriveE (Result BackupInfo) :=
  let limit := request_timeout (opts s) in
  let? file := retry (retry_policy (opts s)) "Getting backup" (
    let* r := call (GetFile limit i FILE_FIELDS) in
    Ret (timed "Getting backup" limit r)) in
  if negb (is_in_folder file (folder_id s)) then Ret (Err (NotFound ("backup '" +:+ i +:+ "'")))
  else Ret (to_backup_info file).

Definition drive_download (s : GoogleDriveStorage) (backup : BackupInfo) (dst : path)
    : prog DriveE (Result unit) :=
  let* _ := call (DriveLog Info ("Downloading '" +:+ name backup +:+ "' (" +:+ id backup +:+ ")")) in
  let* start := call DriveInstant in
  let? size := retry (retry_policy (opts s)) "Downloading backup" (download_once s backup dst) in
  let* now := call DriveInstant in
  let* _ := call (DriveLog Info ("Downloaded '" +:+ name backup +:+ "', " +:+ int_to_string size +:+
                                 " bytes for " +:+ duration_debug (now - start))) in
  Ret (Ok tt).

Definition drive_delete (s : GoogleDriveStorage) (i : string) : prog DriveE (Result unit) :=
  let limit := request_timeout (opts s) in
  let* res := retry (retry_policy (opts s)) "Deleting backup" (
    let* r := call (DeleteFile limit i) in
    Ret (timed "Deleting backup" limit r)) in
  match res with
  | Ok _ | Err (NotFound _) =>
      let* _ := call (DriveLog Info ("Deleted backup '" +:+ i +:+ "'")) in
      Ret (Ok tt)
  | Err e => Ret (Err e)
  end.
End Storage.
