(* ===== verification/DriveContract.v ===== *)
(** * The Drive storage meets the contract of the storage port

    [DriveServer] states what Drive's documentation promises about the calls
    [GoogleDriveStorage] makes; under it every operation of the storage does
    what [port_step] asks of the port, seen through [abs]: the backups of the
    port are the files of the folder that map to one. *)

From Stdlib Require Import ZArith Lia Ascii.
From stdpp Require Import base numbers gmap sorting strings list.
From S2P Require Import Prelude RustStd Json Md5 Url Chrono Core Ports Drive DriveStorage.
Open Scope Z_scope.
Open Scope rust_scope.

(** ** Drive and the local disk *)

Record Stored := mkStored { s_file : File; s_mime : string; s_content : bytes }.

Record DWorld := mkDWorld { d_stored : list Stored; d_local : gmap path bytes }.

Definition stored_id (s : Stored) : string := default "" (f_id (s_file s)).

Definition without (i : string) (l : list Stored) : list Stored :=
  List.filter (fun s => negb (bool_decide (stored_id s = i))) l.

(** The bytes of a body, and a body that arrived whole. *)
Definition body_bytes (frames : list Frame) : bytes :=
  concat (omap (fun f => match f with Data d => Some d | _ => None end) frames).

Definition whole (frames : list Frame) : Prop :=
  Forall (fun f => match f with Stalled | Interrupted _ => False | _ => True end) frames.

(** The HTTP status an error reports. *)
Definition http_status (e : DriveError) : option Z :=
  match e with
  | DriveBadRequest body => as_u64 (index_key (index_key body "error") "code")
  | Failure status => Some status
  | _ => None
  end.

Definition newer_file (f g : File) : Prop :=
  match f_created_time f, f_created_time g with
  | Some t, Some u => dt_le u t
  | _, _ => True
  end.

Definition app_property (f : File) (k : string) : option string :=
  default ∅ (f_app_properties f) !! k.

(** [f] is stored, with [content], for the metadata [meta], under a new id. *)
Definition creates (w : DWorld) (meta f : File) (content : bytes) (w' : DWorld) : Prop :=
  f_name f = f_name meta /\ f_app_properties f = f_app_properties meta /\
  f_parents f = f_parents meta /\ f_trashed f <> Some true /\ is_Some (f_created_time f) /\
  (exists i, f_id f = Some i /\ plain i = true) /\ (default "" (f_id f) ∉ (stored_id <$> d_stored w)) /\
  w' = mkDWorld (mkStored f (default "" (f_mime_type meta)) content :: d_stored w) (d_local w).

(** What Drive's API does: [api w op r w'] when the call [op] may answer [r]
    and take the files from [w] to [w']. *)
Class DriveApi := { api : forall T, DWorld -> DriveE T -> T -> DWorld -> Prop }.

Section Steps.
Context `{DriveApi}.

(** One call: Drive answers the API calls, the disk the others. *)
Definition dstep (w : DWorld) (e : event DriveE) (w' : DWorld) : Prop :=
  match e with
  | Ev op r =>
      match op in DriveE T return T -> Prop with
      | OpenLocal p => fun r => w' = w /\ (r = Ok tt -> is_Some (d_local w !! p))
      | CreateLocal p => fun r =>
          w' = match r with Ok _ => mkDWorld (d_stored w) (<[p := []]> (d_local w)) | Err _ => w end
      | WriteLocal p data => fun r =>
          match r with
          | Ok _ => w' = mkDWorld (d_stored w) (<[p := default ([] : bytes) (d_local w !! p) ++ data]> (d_local w))
          | Err _ => exists c, w' = mkDWorld (d_stored w) (<[p := c]> (d_local w))
          end
      | FlushLocal p => fun r =>
          match r with
          | Ok _ => w' = w
          | Err _ => exists c, w' = mkDWorld (d_stored w) (<[p := c]> (d_local w))
          end
      | Sleep _ | DriveInstant | DriveLog _ _ | Panic _ => fun _ => w' = w
      | op => fun r => api _ w op r w'
      end r
  end.

Definition d_any (w : DWorld) (T : Type) (e : DriveE T) : Prop := True.

Abbreviation wpd := (wp d_any dstep).

(** ** Rules *)

Lemma wpd_Vis {A T} (op : DriveE T) (k : T -> prog DriveE A) Q w :
  (forall r w', dstep w (Ev op r) w' -> wpd (k r) Q w') -> wpd (Vis op k) Q w.
Proof. done. Qed.

Lemma wpd_bind {A B} (p : prog DriveE A) (f : A -> prog DriveE B) (P : A -> DWorld -> Prop) Q w :
  wpd p P w -> (forall a w', P a w' -> wpd (f a) Q w') -> wpd (bind p f) Q w.
Proof. apply wp_bind_2. Qed.

Lemma wpd_Ret {A} (a : A) (Q : A -> DWorld -> Prop) w : Q a w -> wpd (Ret a) Q w.
Proof. done. Qed.

#[local] Arguments wp : simpl never.

Lemma duration_mul_wpd d k Q w : (forall x, Q x w) -> wpd (duration_mul d k) Q w.
Proof.
  intros HQ. unfold duration_mul. destruct (_ <=? _); [by apply wpd_Ret|].
  apply wpd_Vis. intros [].
Qed.

(** [I] holds before every attempt. *)
Lemma retry_wpd {A} (I : DWorld -> Prop) policy op (body : prog DriveE (result A CallError)) Q w :
  I w ->
  (forall w, I w -> wpd body (fun r w' => I w' /\ Q (result_map_err into_error r) w') w) ->
  wpd (retry policy op body) Q w.
Proof.
  intros HI Hb. unfold retry. generalize (base_delay policy) as delay, 1 as attempt.
  revert w HI. induction (Z.to_nat (attempts policy)) as [|fuel IH]; intros w HI delay attempt;
    cbn [retry_loop]; (eapply wpd_bind; [by apply Hb|]); intros [v|[msg|msg|err]] w' [HI' HQ];
    try by apply wpd_Ret.
  all: destruct (_ <=? _); [by apply wpd_Ret|]; cbn [bind trigger].
  all: apply wpd_Vis; intros _ w1 ->; apply wpd_Vis; intros _ w1 ->.
  all: eapply wpd_bind; [by apply (duration_mul_wpd _ _ (fun _ w'' => w'' = w'))|]; intros x w1 ->.
  - by apply wpd_Ret.
  - by apply IH.
Qed.

Lemma timed_ok {A} op limit (r : option (result A DriveError)) a :
  timed op limit r = Ok a -> r = Some (Ok a).
Proof. destruct r as [[x|e]|]; simpl; congruence. Qed.

End Steps.

Abbreviation wpd := (wp d_any dstep).

#[local] Arguments wp : simpl never.

(** ** Downloading *)

Section Download.
Context `{RustFmt, Md5, DriveApi} (s : GoogleDriveStorage).
Hypothesis media_reads : forall w limit i r w', api _ w (GetMedia limit i) r w' -> w' = w.

(** Only the local file [dst] differs. *)
Definition touched (dst : path) (w w' : DWorld) : Prop :=
  d_stored w' = d_stored w /\ exists c, d_local w' = <[dst := c]> (d_local w).

Lemma touched_trans dst w w1 c :
  touched dst w w1 -> touched dst w (mkDWorld (d_stored w1) (<[dst := c]> (d_local w1))).
Proof. intros [Hs [c1 Hl]]. split; [done|]. exists c. simpl. by rewrite Hl, insert_insert_eq. Qed.

(** The checksum of the backup is that of [c]. *)
Definition checksum_ok (b : BackupInfo) (c : bytes) : Prop :=
  forall h, md5 b = Some h -> eq_ignore_ascii_case (hex_encode (md5_digest c)) h = true.

Lemma write_frames_wpd frames dst idle hashed size w w1 :
  touched dst w w1 -> d_local w1 !! dst = Some hashed ->
  wpd (write_frames frames dst idle (Md5_update Md5_new hashed) size) (fun r w' => touched dst w w' /\
    match r with
    | Ok (h, _) => d_local w' !! dst = Some (hashed ++ body_bytes frames) /\
                   h = Md5_update Md5_new (hashed ++ body_bytes frames) /\ whole frames
    | Err _ => True
    end) w1.
Proof.
  revert hashed size w1. induction frames as [|[|e|d|] frames IH]; intros hashed size w1 Ht Hl;
    cbn [write_frames]; try by apply wpd_Ret.
  - apply wpd_Ret. unfold body_bytes. cbn [flat_map]. rewrite app_nil_r. split_and!; [done..|constructor].
  - apply wpd_Vis. intros [[]|e] w2 Hs; cbn [dstep] in Hs.
    + subst w2. rewrite Hl, Md5_update_app. simpl. eapply wp_mono; [|apply IH].
      * intros [[h sz]|e] w' [Ht' Hr]; [|done]. unfold body_bytes in *. simpl. rewrite <-app_assoc in Hr.
        destruct Hr as (Hh & -> & Hwh). split_and!; [done..|by constructor].
      * by apply touched_trans.
      * simpl. apply lookup_insert_eq.
    + destruct Hs as [c ->]. apply wpd_Ret. split; [by apply touched_trans|done].
  - eapply wp_mono; [|by apply IH]. intros [[h sz]|e] w' [Ht' Hr]; [|done].
    destruct Hr as (Hh & -> & Hwh). split_and!; [done..|]. by constructor.
Qed.

(** [c] is the content of a body Drive sent for [b], arrived whole and
    checked. *)
Definition received (b : BackupInfo) (w : DWorld) (c : bytes) : Prop :=
  exists w1 limit frames w2, api _ w1 (GetMedia limit (id b)) (Some (Ok frames)) w2 /\
    d_stored w1 = d_stored w /\ whole frames /\ c = body_bytes frames /\ checksum_ok b c.

Lemma download_once_wpd b dst w w1 :
  touched dst w w1 ->
  wpd (download_once s b dst) (fun r w' => touched dst w w' /\
    (forall n, r = Ok n -> exists c, d_local w' !! dst = Some c /\ received b w c)) w1.
Proof.
  intros Ht. unfold download_once. cbn [bind trigger]. apply wpd_Vis. intros r w2 Hs.
  cbn [dstep] in Hs. pose proof (media_reads _ _ _ _ _ Hs) as ->.
  destruct (timed _ _ r) as [body|e] eqn:Hr; [|by apply wpd_Ret]. apply timed_ok in Hr as ->.
  apply wpd_Vis. intros [[]|e] w2 Hs2; cbn [dstep] in Hs2; subst w2; [|by apply wpd_Ret].
  rewrite <-Md5_update_nil.
  eapply wpd_bind; [apply (write_frames_wpd _ _ _ _ _ w); [by apply touched_trans|apply lookup_insert_eq]|].
  intros [[hasher size]|e] w2 [Ht2 Hw]; [|by apply wpd_Ret]. destruct Hw as (Hl & -> & Hwhole).
  cbn [app bind trigger] in *. apply wpd_Vis. intros [[]|e] w3 Hs3; cbn [dstep] in Hs3;
    [|destruct Hs3 as [c ->]; apply wpd_Ret; split; [by apply touched_trans|done]].
  subst w3.
  assert (checksum_ok b (body_bytes body) -> exists c, d_local w2 !! dst = Some c /\ received b w c) as Hok.
  { intros Hsum. eexists. split; [exact Hl|]. exists w1, (request_timeout (opts s)), body, w1.
    split_and!; [done|apply Ht|done..]. }
  destruct (md5 b) as [expected|] eqn:Hm.
  - destruct (eq_ignore_ascii_case _ expected) eqn:Heq; simpl; apply wpd_Ret; (split; [done|]); [|done].
    intros n _. apply Hok. intros h Hh. rewrite Hm in Hh. by injection Hh as <-.
  - apply wpd_Ret. split; [done|]. intros n _. apply Hok. intros h Hh. by rewrite Hm in Hh.
Qed.

Lemma drive_download_wpd b dst w :
  is_Some (d_local w !! dst) ->
  wpd (drive_download s b dst) (fun r w' => touched dst w w' /\
    (r = Ok tt -> exists c, d_local w' !! dst = Some c /\ received b w c)) w.
Proof.
  intros [c Hc]. unfold drive_download. cbn [bind trigger]. apply wpd_Vis. intros _ w1 ->.
  apply wpd_Vis. intros start w1 ->. eapply wpd_bind.
  { apply (retry_wpd (touched dst w) _ _ _ (fun r w' => touched dst w w' /\
      (forall n, r = Ok n -> exists c, d_local w' !! dst = Some c /\ received b w c))).
    - split; [done|]. exists c. by rewrite insert_id.
    - intros w1 Ht. eapply wp_mono; [|by apply download_once_wpd]. intros r w' [Ht' Hr].
      split_and!; [done..|]. intros n Hn. apply (Hr n). destruct r; simpl in Hn; congruence. }
  intros [n|e] w1 [Ht Hr]; [|by apply wpd_Ret]. cbn [bind trigger]. apply wpd_Vis. intros now w2 ->.
  apply wpd_Vis. intros _ w2 ->. apply wpd_Ret. split; [done|]. intros _. by apply (Hr n).
Qed.

(** C27. A damaged download is never accepted, whatever Drive or the network
    send: when a download of a backup with a known checksum succeeds, the MD5
    of the local file is that checksum (up to the case of its hex digits),
    after whatever number of broken or corrupted attempts; and no other local
    file has changed. *)
Theorem download_is_verified b dst w h :
  is_Some (d_local w !! dst) -> md5 b = Some h ->
  wpd (drive_download s b dst) (fun r w' =>
    delete dst (d_local w') = delete dst (d_local w) /\
    (r = Ok tt -> exists c, d_local w' !! dst = Some c /\
       eq_ignore_ascii_case (hex_encode (md5_digest c)) h = true)) w.
Proof.
  intros Hdst Hh. eapply wp_mono; [|by apply drive_download_wpd]. intros r w' [[_ [c0 Hl0]] Hr].
  split; [by rewrite Hl0, delete_insert_eq|]. intros Hok.
  destruct (Hr Hok) as (c & Hl & (_ & _ & _ & _ & _ & _ & _ & _ & Hsum)). exists c. split; [done|]. by apply Hsum.
Qed.
End Download.

(** The files of the folder: not its subfolders. *)
Definition listed (folder : string) (x : Stored) : bool :=
  is_in_folder (s_file x) folder && negb (String.eqb (s_mime x) FOLDER_MIME).

Lemma listed_spec folder x :
  listed folder x = true <-> is_in_folder (s_file x) folder = true /\ s_mime x <> FOLDER_MIME.
Proof. unfold listed. by rewrite andb_true_iff, negb_true_iff, String.eqb_neq. Qed.

(** What Drive promises.  [matches w q] are the files a query selects, newest
    first, and [position] says where a page token continues.  A lookup with an
    id Drive could have given out answers with the file of that id; whatever is
    looked up, an answer that is in the folder is a stored file. *)
Class DriveServer `{DriveApi} (folder : string) := {
  matches : DWorld -> string -> list File;
  position : DWorld -> string -> option string -> nat;
  matches_folder : forall w,
    matches w (folder_query folder) ≡ₚ s_file <$> List.filter (listed folder) (d_stored w);
  matches_latest : forall w f, f ∈ matches w (latest_query folder) <->
    (exists s, s ∈ d_stored w /\ s_file s = f /\ is_in_folder f folder = true /\ s_mime s <> FOLDER_MIME)
    /\ app_property f "kind" <> Some "pre_restore";
  matches_sorted : forall w q, StronglySorted newer_file (matches w q);
  position_start : forall w q, position w q None = 0%nat;
  api_list : forall w limit q n tok r w',
    api _ w (ListFiles limit q "createdTime desc" n list_fields tok) r w' ->
    w' = w /\ forall l, r = Some (Ok l) -> exists k,
      default [] (l_files l) = take k (drop (position w q tok) (matches w q)) /\
      match l_next_page_token l with
      | Some t => if str_is_empty t then (length (matches w q) <= position w q tok + k)%nat
                  else position w q (Some t) = (position w q tok + k)%nat
      | None => (length (matches w q) <= position w q tok + k)%nat
      end;
  api_get : forall w limit i r w',
    api _ w (GetFile limit i FILE_FIELDS) r w' ->
    w' = w /\ forall f, r = Some (Ok f) ->
      (is_in_folder f folder = true -> exists s, s ∈ d_stored w /\ s_file s = f) /\
      (plain i = true -> f_id f = Some i);
  api_media : forall w limit i r w',
    api _ w (GetMedia limit i) r w' ->
    w' = w /\ forall frames, r = Some (Ok frames) -> whole frames ->
      exists s, s ∈ d_stored w /\ f_id (s_file s) = Some i /\ s_content s = body_bytes frames;
  api_create : forall w limit meta src r w',
    api _ w (CreateFile limit meta FILE_FIELDS src) r w' ->
    match r with
    | Some (Ok f) => exists content, d_local w !! src = Some content /\ creates w meta f content w'
    | _ => w' = w \/ exists f content, d_local w !! src = Some content /\ creates w meta f content w'
    end;
  api_delete : forall w limit i r w',
    api _ w (DeleteFile limit i) r w' ->
    match r with
    | Some (Ok _) => w' = mkDWorld (without i (d_stored w)) (d_local w)
    | Some (Err e) =>
        if bool_decide (http_status e = Some 404) then w' = w /\ i ∉ (stored_id <$> d_stored w)
        else w' = w \/ w' = mkDWorld (without i (d_stored w)) (d_local w)
    | None => w' = w \/ w' = mkDWorld (without i (d_stored w)) (d_local w)
    end;
}.

Section Contract.
Context `{RustFmt, Md5, PgFormat, DriveApi} (s : GoogleDriveStorage).
Context `{!DriveServer (folder_id s)}.
Context (d0 : Db).

(** The backup a stored file is. *)
Definition backup_of (x : Stored) : option (BackupInfo * bytes) :=
  if is_in_folder (s_file x) (folder_id s) then
    match to_backup_info (s_file x) with Ok info => Some (info, s_content x) | Err _ => None end
  else None.

(** The files of the account that are no backups of the folder. *)
Definition other_files (l : list Stored) : list Stored :=
  List.filter (fun x => bool_decide (backup_of x = None)) l.

(** The world of the port. *)
Definition abs (w : DWorld) : World :=
  mkWorld _ d0 (omap backup_of (d_stored w)) (d_local w) (stored_id <$> other_files (d_stored w)).

(** Files have distinct ids, and folders do not look like backups. *)
Definition d_ok (w : DWorld) : Prop :=
  Forall (fun x => is_Some (f_id (s_file x))) (d_stored w) /\
  NoDup (stored_id <$> d_stored w) /\
  Forall (fun x => s_mime x = FOLDER_MIME -> forall info, to_backup_info (s_file x) <> Ok info) (d_stored w).

(** ** The backups of the folder *)

Lemma try_Ok {A B} (r : Result A) (f : A -> Result B) b :
  (try x := r in f x) = Ok b -> exists a, r = Ok a /\ f a = Ok b.
Proof. destruct r; naive_solver. Qed.

Lemma to_backup_info_ok f info :
  to_backup_info f = Ok info ->
  f_id f = Some (id info) /\ f_name f = Some (name info) /\ f_created_time f = Some (created_at info) /\
  BackupKind_parse (app_property f "kind") = Ok (kind info) /\
  detect_format (name info) (app_property f "format") = Ok (format info).
Proof.
  unfold to_backup_info, required, app_property. intros Hf.
  destruct (f_id f), (f_name f), (f_created_time f); simpl in *; try done.
  apply try_Ok in Hf as (fmt & Hfmt & Hf). apply try_Ok in Hf as (k & Hk & [= <-]). simpl. auto.
Qed.

Lemma elem_of_abs b c w :
  (b, c) ∈ w_store (abs w) <->
  exists x, x ∈ d_stored w /\ is_in_folder (s_file x) (folder_id s) = true /\
    to_backup_info (s_file x) = Ok b /\ s_content x = c.
Proof.
  unfold abs. simpl. rewrite list_elem_of_omap. unfold backup_of. split.
  - intros (x & Hx & Hb). exists x. destruct (is_in_folder _ _); [|done].
    destruct (to_backup_info _); naive_solver.
  - intros (x & Hx & Hin & Hb & <-). exists x. by rewrite Hin, Hb.
Qed.

Lemma elem_of_abs_1 b w :
  b ∈ (w_store (abs w)).*1 <->
  exists x, x ∈ d_stored w /\ is_in_folder (s_file x) (folder_id s) = true /\
    to_backup_info (s_file x) = Ok b.
Proof.
  rewrite list_elem_of_fmap. split.
  - intros ([b' c] & -> & Hb). apply elem_of_abs in Hb. naive_solver.
  - intros (x & Hx & Hin & Hb). exists (b, s_content x). split; [done|]. apply elem_of_abs. eauto.
Qed.

Lemma stored_unique w x y :
  d_ok w -> x ∈ d_stored w -> y ∈ d_stored w -> f_id (s_file x) = f_id (s_file y) -> x = y.
Proof.
  intros (_ & Hnd & _) Hx Hy Hid. eapply (NoDup_key stored_id); [done..|]. unfold stored_id. by rewrite Hid.
Qed.

(** A backup of the folder is no other file. *)
Lemma elem_of_others i w :
  i ∈ w_others (abs w) <-> exists x, x ∈ d_stored w /\ stored_id x = i /\ backup_of x = None.
Proof.
  unfold abs, other_files. cbn [w_others]. rewrite list_elem_of_fmap. split.
  - intros (x & -> & Hx). rewrite list_elem_of_In, filter_In, bool_decide_eq_true, <-list_elem_of_In in Hx. naive_solver.
  - intros (x & Hx & <- & Hb). exists x. split; [done|].
    by rewrite list_elem_of_In, filter_In, bool_decide_eq_true, <-list_elem_of_In.
Qed.

Lemma backup_not_other w b : d_ok w -> b ∈ (w_store (abs w)).*1 -> id b ∉ w_others (abs w).
Proof.
  intros Hok (x & Hx & Hin & Hb)%elem_of_abs_1 (y & Hy & Hid & Hno)%elem_of_others.
  pose proof (to_backup_info_ok _ _ Hb) as (Hxid & _).
  assert (x = y) as <-.
  { destruct Hok as (_ & Hnd & _). eapply (NoDup_key stored_id); [done..|]. rewrite Hid. unfold stored_id. by rewrite Hxid. }
  unfold backup_of in Hno. by rewrite Hin, Hb in Hno.
Qed.

(** ** Listing *)

Lemma elem_of_matches_folder w f :
  f ∈ matches w (folder_query (folder_id s)) <->
  exists x, x ∈ d_stored w /\ s_file x = f /\ is_in_folder f (folder_id s) = true /\ s_mime x <> FOLDER_MIME.
Proof.
  rewrite matches_folder, list_elem_of_fmap. split.
  - intros (x & -> & Hx). exists x. rewrite list_elem_of_In, filter_In, listed_spec, <-list_elem_of_In in Hx.
    naive_solver.
  - intros (x & Hx & <- & Hin & Hm). exists x. split; [done|].
    by rewrite list_elem_of_In, filter_In, listed_spec, <-list_elem_of_In.
Qed.

Definition backups_in (l : list File) : list BackupInfo := omap (fun f => result_ok (to_backup_info f)) l.

Lemma keep_backups_wpd l w : wpd (keep_backups l) (fun r w' => w' = w /\ r = backups_in l) w.
Proof.
  induction l as [|f l IH]; [done|]. cbn [keep_backups].
  destruct (to_backup_info f) as [info|e] eqn:Hf.
  - eapply wpd_bind; [exact IH|]. intros rest w' [-> ->]. apply wpd_Ret. split; [done|].
    unfold backups_in. simpl. by rewrite Hf.
  - apply wpd_Vis. intros _ w' ->. eapply wp_mono; [|exact IH]. intros r w' [-> ->]. split; [done|].
    unfold backups_in. simpl. by rewrite Hf.
Qed.

(** A page of the query [q]. *)
Definition page_of (w : DWorld) (q : string) (tok : option string) (page : Page BackupInfo) : Prop :=
  exists k, items page = backups_in (take k (drop (position w q tok) (matches w q))) /\
    match next_page_token page with
    | Some t => if str_is_empty t then (length (matches w q) <= position w q tok + k)%nat
                else position w q (Some t) = (position w q tok + k)%nat
    | None => (length (matches w q) <= position w q tok + k)%nat
    end.

Lemma list_once_wpd q n tok w :
  wpd (list_once s q n tok)
    (fun r w' => w' = w /\ forall page, r = Ok page -> page_of w q tok page) w.
Proof.
  unfold list_once. cbn [bind trigger]. apply wpd_Vis. intros r w' Hs. cbn [dstep] in Hs.
  apply api_list in Hs as [-> Hl]. destruct (timed _ _ r) as [l|e] eqn:Ht.
  - apply timed_ok in Ht as ->. destruct (Hl l eq_refl) as (k & Hk & Hnext).
    eapply wpd_bind; [apply keep_backups_wpd|]. intros its w' [-> ->]. apply wpd_Ret. split; [done|].
    intros page [= <-]. exists k. by rewrite <-Hk.
  - apply wpd_Ret. split; [done|]. done.
Qed.

Lemma elem_of_backups_in b l : b ∈ backups_in l <-> exists f, f ∈ l /\ to_backup_info f = Ok b.
Proof.
  unfold backups_in. rewrite list_elem_of_omap. split; intros (f & Hf & Hb); exists f; (split; [done|]);
    destruct (to_backup_info f); naive_solver.
Qed.

Lemma page_item_in_store w tok page b :
  page_of w (folder_query (folder_id s)) tok page -> b ∈ items page -> b ∈ (w_store (abs w)).*1.
Proof.
  intros (k & -> & _) (f & Hf & Hb)%elem_of_backups_in. apply elem_of_abs_1.
  assert (f ∈ matches w (folder_query (folder_id s))) as Hm.
  { eapply (subseteq_drop _ _ _), (subseteq_take _ _ _). exact Hf. }
  apply elem_of_matches_folder in Hm as (x & Hx & <- & Hin & _). eauto.
Qed.

Lemma drive_list_page n tok w :
  wpd (drive_list s n tok)
    (fun r w' => w' = w /\ forall page, r = Ok page -> page_of w (folder_query (folder_id s)) tok page) w.
Proof.
  unfold drive_list. apply (retry_wpd (fun w' => w' = w)); [done|]. intros w' ->.
  eapply wpd_bind; [apply list_once_wpd|]. intros r w' [-> Hr]. apply wpd_Ret. split; [done|].
  split; [done|]. destruct r as [page|e]; simpl; [|done]. intros page' [= <-]. by apply Hr.
Qed.

Lemma drive_list_wpd n tok w :
  wpd (drive_list s n tok) (fun r w' => w' = w /\ port_step (abs w) (EList n tok r) (abs w')) w.
Proof.
  eapply wp_mono; [|apply drive_list_page]. intros r w' [-> Hr]. split; [done|].
  destruct r as [page|e]; [|done]. split; [done|]. intros b Hb. eapply page_item_in_store; [by apply Hr|done].
Qed.

(** The backups of the folder, newest first. *)
Definition all_backups (w : DWorld) : list BackupInfo :=
  backups_in (matches w (folder_query (folder_id s))).

Lemma backups_in_perm l l' : l ≡ₚ l' -> backups_in l ≡ₚ backups_in l'.
Proof. apply omap_Permutation. Qed.

Lemma all_backups_store w : d_ok w -> all_backups w ≡ₚ (w_store (abs w)).*1.
Proof.
  intros (_ & _ & Hmime). unfold all_backups. rewrite (backups_in_perm _ _ (matches_folder w)).
  unfold abs, backups_in. cbn [w_store]. induction Hmime as [|x l Hx _ IH]; [done|]. simpl.
  unfold backup_of at 1, listed at 1. destruct (is_in_folder (s_file x) (folder_id s)) eqn:Hin; simpl; [|exact IH].
  destruct (String.eqb_spec (s_mime x) FOLDER_MIME) as [Hm|Hm]; simpl.
  - destruct (to_backup_info (s_file x)) as [b|e] eqn:Hb; [by destruct (Hx Hm b)|exact IH].
  - destruct (to_backup_info (s_file x)) as [b|e] eqn:Hb; simpl; [by rewrite IH|exact IH].
Qed.

Lemma all_backups_sorted w : StronglySorted newer (all_backups w).
Proof.
  unfold all_backups. pose proof (matches_sorted w (folder_query (folder_id s))) as Hs.
  induction Hs as [|f l Hl IH Hf]; [constructor|]. unfold backups_in. simpl.
  destruct (to_backup_info f) as [b|e] eqn:Hb; simpl; [|exact IH]. constructor; [exact IH|].
  apply Forall_forall. intros b' (g & Hg & Hb')%elem_of_backups_in. rewrite Forall_forall in Hf.
  specialize (Hf g Hg). apply to_backup_info_ok in Hb as (_ & _ & Hc & _), Hb' as (_ & _ & Hc' & _).
  unfold newer_file in Hf. rewrite Hc, Hc' in Hf. exact Hf.
Qed.

(** ** The newest backup *)

Lemma kind_pre_restore f info :
  to_backup_info f = Ok info ->
  kind info = PreRestore <-> app_property f "kind" = Some "pre_restore".
Proof.
  intros (_ & _ & _ & Hk & _)%to_backup_info_ok. unfold BackupKind_parse in Hk.
  destruct (app_property f "kind") as [v|]; [|split; [congruence|done]].
  destruct (String.eqb_spec v "regular") as [Hv|]; [subst v; split; congruence|].
  destruct (String.eqb_spec v "pre_restore") as [Hv|]; [subst v; split; congruence|done].
Qed.

Lemma backups_in_app l1 l2 : backups_in (l1 ++ l2) = backups_in l1 ++ backups_in l2.
Proof. apply omap_app. Qed.

Lemma backups_in_first l b rest :
  backups_in l = b :: rest ->
  exists pre f post, l = pre ++ f :: post /\ backups_in pre = [] /\ to_backup_info f = Ok b.
Proof.
  induction l as [|f l IH]; [done|]. unfold backups_in. simpl.
  destruct (to_backup_info f) as [info|e] eqn:Hf; simpl.
  - intros [= <- _]. by exists [], f, l.
  - intros (pre & g & post & -> & Hpre & Hg)%IH. exists (f :: pre), g, post. split_and!; [done| |done].
    unfold backups_in. simpl. by rewrite Hf.
Qed.

Lemma latest_pages_wpd n tok w :
  let q := latest_query (folder_id s) in
  backups_in (take (position w q tok) (matches w q)) = [] ->
  wpd (latest_pages s n tok) (fun r w' => w' = w /\ match r with
    | Ok (Some info) => exists pre f post,
        matches w q = pre ++ f :: post /\ backups_in pre = [] /\ to_backup_info f = Ok info
    | Ok None => backups_in (matches w q) = []
    | Err _ => True
    end) w.
Proof.
  intros q. revert tok. induction n as [|n IH]; intros tok Hseen; [done|]. cbn [latest_pages].
  eapply wpd_bind; [apply (retry_wpd (fun w' => w' = w) _ _ _ (fun r w' => w' = w /\
    forall page, r = Ok page -> page_of w q tok page)); [done|]|].
  { intros w' ->. eapply wp_mono; [|apply list_once_wpd]. intros r w' [-> Hr]. split_and!; [done..|].
    intros page Hp. apply Hr. destruct r; simpl in Hp; congruence. }
  intros [page|e] w' [-> Hpage]; [|by apply wpd_Ret].
  destruct (Hpage page eq_refl) as (k & Hits & Hnext).
  set (m := matches w q) in *. set (p := position w q tok) in *.
  assert (backups_in (take (p + k) m) = items page) as Hall.
  { by rewrite <-take_take_drop, backups_in_app, Hseen, Hits. }
  destruct (items page) as [|newest rest] eqn:Hi.
  - assert ((length m <= p + k)%nat -> backups_in m = []) as Hend.
    { intros Hlen. by rewrite take_ge in Hall. }
    destruct (next_page_token page) as [next|]; [|apply wpd_Ret; auto].
    destruct (str_is_empty next); [apply wpd_Ret; auto|]. apply IH. by rewrite Hnext.
  - apply wpd_Ret. split; [done|].
    destruct (backups_in_first _ _ _ Hall) as (pre & f & post & Htk & Hpre & Hf).
    exists pre, f, (post ++ drop (p + k) m). split_and!; [|done..].
    by rewrite <-(take_drop (p + k) m), Htk, <-app_assoc at 1.
Qed.

Lemma drive_latest_wpd w :
  d_ok w ->
  wpd (drive_latest s) (fun r w' => w' = w /\ port_step (abs w) (ELatest r) (abs w')) w.
Proof.
  intros Hok. pose proof Hok as (_ & _ & Hmime).
  assert (forall b, b ∈ (w_store (abs w)).*1 -> kind b <> PreRestore ->
    exists f, f ∈ matches w (latest_query (folder_id s)) /\ to_backup_info f = Ok b) as Hcomplete.
  { intros b (x & Hx & Hin & Hb)%elem_of_abs_1 Hk. exists (s_file x). split; [|done].
    apply matches_latest. split.
    - exists x. split_and!; [done..|]. intros Hm. rewrite Forall_forall in Hmime.
      by apply (Hmime x Hx Hm b).
    - by rewrite <-(kind_pre_restore _ _ Hb). }
  eapply wp_mono; [|apply latest_pages_wpd; by rewrite position_start].
  intros [[info|]|e] w' [-> Hr]; (split; [done|]); simpl; [|split; [done|]|done].
  - destruct Hr as (pre & f & post & Hm & Hpre & Hf).
    assert (f ∈ matches w (latest_query (folder_id s))) as Hfm by (rewrite Hm; set_solver).
    apply matches_latest in Hfm as [(x & Hx & <- & Hin & _) Hk].
    rewrite <-(kind_pre_restore _ _ Hf) in Hk. assert (info ∈ (w_store (abs w)).*1) as Hinfo by (apply elem_of_abs_1; eauto).
    split_and!; [done|done|by apply backup_not_other|done|].
    intros b Hb Hkb. destruct (Hcomplete b Hb Hkb) as (g & Hg & Hgb). rewrite Hm in Hg.
    pose proof (matches_sorted w (latest_query (folder_id s))) as Hsort. rewrite Hm in Hsort.
    apply elem_of_app in Hg as [Hg|Hg].
    + assert (b ∈ backups_in pre) as Hbad by (apply elem_of_backups_in; eauto).
      rewrite Hpre in Hbad. by apply not_elem_of_nil in Hbad.
    + apply elem_of_cons in Hg as [->|Hg]; [replace info with b by congruence; reflexivity|].
      apply StronglySorted_app_1_r in Hsort. apply StronglySorted_inv in Hsort as [_ Hs].
      rewrite Forall_forall in Hs. specialize (Hs g Hg). unfold newer_file in Hs.
      apply to_backup_info_ok in Hf as (_ & _ & Ht & _), Hgb as (_ & _ & Ht' & _).
      by rewrite Ht, Ht' in Hs.
  - intros b Hb. destruct (decide (kind b = PreRestore)) as [|Hk]; [done|].
    destruct (Hcomplete b Hb Hk) as (g & Hg & Hgb).
    assert (b ∈ backups_in (matches w (latest_query (folder_id s)))) as Hbad
      by (apply elem_of_backups_in; eauto).
    rewrite Hr in Hbad. by apply not_elem_of_nil in Hbad.
Qed.

(** ** One backup *)

Lemma drive_get_wpd i w :
  d_ok w ->
  wpd (drive_get s i) (fun r w' => w' = w /\ port_step (abs w) (EGet i r) (abs w')) w.
Proof.
  intros Hok. unfold drive_get. eapply wpd_bind; [apply (retry_wpd (fun w' => w' = w) _ _ _ (fun r w' => w' = w /\
    forall f, r = Ok f -> (is_in_folder f (folder_id s) = true -> exists x, x ∈ d_stored w /\ s_file x = f) /\
      (plain i = true -> f_id f = Some i))); [done|]|].
  { intros w' ->. cbn [bind trigger]. apply wpd_Vis. intros r w' Hs. apply api_get in Hs as [-> Hr].
    apply wpd_Ret. split_and!; [done..|]. intros f Hf.
    destruct (timed _ _ r) as [g|e] eqn:Ht; [|done]. apply timed_ok in Ht.
    simpl in Hf. apply Hr. congruence. }
  intros [f|e] w' [-> Hf]; [|by apply wpd_Ret].
  destruct (Hf f eq_refl) as [Hx Hid].
  destruct (is_in_folder f (folder_id s)) eqn:Hin; simpl; apply wpd_Ret; (split; [done|]); [|done].
  destruct (Hx eq_refl) as (x & Hst & <-).
  destruct (to_backup_info (s_file x)) as [info|e] eqn:Hb; [|done]. simpl.
  assert (info ∈ (w_store (abs w)).*1) as Hinfo by (apply elem_of_abs_1; eauto).
  split_and!; [done|done|by apply backup_not_other|].
  - intros Hp%Hid. apply to_backup_info_ok in Hb as (Hb & _). congruence.
Qed.

(** ** Deleting *)

Lemma omap_backup_without i l :
  Forall (fun x => is_Some (f_id (s_file x))) l ->
  omap backup_of (without i l) =
  List.filter (fun f : BackupInfo * bytes => negb (bool_decide (id f.1 = i))) (omap backup_of l).
Proof.
  induction 1 as [|x l [j Hj] _ IH]; [done|]. cbn [without List.filter].
  assert (stored_id x = j) as -> by (unfold stored_id; by rewrite Hj).
  assert (forall info c, backup_of x = Some (info, c) -> id info = j) as Hid.
  { intros info c Hb. unfold backup_of in Hb. destruct (is_in_folder _ _); [|done].
    destruct (to_backup_info (s_file x)) eqn:Hf; [|done]. injection Hb as -> _.
    apply to_backup_info_ok in Hf as (Hf & _). congruence. }
  simpl. destruct (backup_of x) as [[info c]|] eqn:Hb; simpl.
  - rewrite (Hid _ _ eq_refl). destruct (bool_decide (j = i)); simpl; [done|].
    rewrite Hb. by f_equal.
  - destruct (bool_decide (j = i)); simpl; [done|]. by rewrite Hb.
Qed.

Lemma others_without i l :
  stored_id <$> other_files (without i l) =
  List.filter (fun j => negb (bool_decide (j = i))) (stored_id <$> other_files l).
Proof.
  induction l as [|x l IH]; [done|]. unfold without, other_files. cbn [List.filter].
  destruct (bool_decide (stored_id x = i)) eqn:Hi, (bool_decide (backup_of x = None)) eqn:Hb;
    cbn [negb List.filter fmap list_fmap]; rewrite ?Hb; cbn [fmap list_fmap List.filter]; rewrite ?Hi; cbn [negb]; try exact IH.
  f_equal. exact IH.
Qed.

Lemma without_absent i l : i ∉ (stored_id <$> l) -> without i l = l.
Proof.
  induction l as [|x l IH]; [done|]. cbn [fmap list_fmap]. intros [Hne Hl]%not_elem_of_cons.
  unfold without. simpl. rewrite bool_decide_false by done. simpl. f_equal. by apply IH.
Qed.

Lemma without_idemp i l : without i (without i l) = without i l.
Proof.
  apply without_absent. intros (x & Hx & Hin)%list_elem_of_fmap.
  apply list_elem_of_In, filter_In in Hin as [_ Hn].
  apply negb_true_iff, bool_decide_eq_false in Hn. done.
Qed.

Lemma d_ok_without i w : d_ok w -> d_ok (mkDWorld (without i (d_stored w)) (d_local w)).
Proof.
  intros (Hids & Hnd & Hmi). unfold d_ok. simpl. split_and!.
  - apply Forall_forall. intros x Hx. rewrite Forall_forall in Hids. apply Hids.
    by apply list_elem_of_In, filter_In in Hx as [Hx%list_elem_of_In _].
  - induction (d_stored w) as [|x l IH]; [done|]. cbn [fmap list_fmap] in Hnd.
    apply NoDup_cons in Hnd as [Hx Hnd]. apply Forall_cons in Hids as [_ Hids], Hmi as [_ Hmi].
    unfold without. simpl. destruct (bool_decide (stored_id x = i)); simpl; [by apply IH|].
    apply NoDup_cons. split; [|by apply IH]. intros (y & Hy & Hin)%list_elem_of_fmap.
    apply list_elem_of_In, filter_In in Hin as [Hin _]. apply Hx, list_elem_of_fmap.
    exists y. split; [done|]. by apply list_elem_of_In.
  - apply Forall_forall. intros x Hx. rewrite Forall_forall in Hmi. apply Hmi.
    by apply list_elem_of_In, filter_In in Hx as [Hx%list_elem_of_In _].
Qed.

(** A missing file is what HTTP 404 means. *)
Lemma classify_not_found op e m : classify op e = Permanent (NotFound m) -> http_status e = Some 404.
Proof.
  assert (forall st reason detail, classify_status op st reason detail = Permanent (NotFound m) -> st = 404) as Hst.
  { intros st reason detail. unfold classify_status.
    destruct (Z.eqb_spec st 400); [done|]. destruct (Z.eqb_spec st 404); [done|]. by repeat case_match. }
  destruct e; simpl; try done.
  - unfold classify_json. destruct (as_u64 _) as [z|]; simpl; [|done].
    destruct (try_from 0 U16_MAX z) as [st|] eqn:Ht; [|done]. intros ->%Hst.
    apply try_from_Some in Ht as [<- _]. done.
  - by intros ->%Hst.
Qed.

Lemma drive_delete_wpd i w :
  d_ok w ->
  wpd (drive_delete s i) (fun r w' => d_ok w' /\ port_step (abs w) (EDelete i r) (abs w')) w.
Proof.
  intros Hok. set (gone := mkDWorld (without i (d_stored w)) (d_local w)).
  assert (removes_id i (abs w) (abs gone)) as Habs.
  { unfold removes_id, abs, gone. cbn [d_stored d_local w_db w_store w_files w_others].
    rewrite omap_backup_without, others_without; [done|apply Hok]. }
  set (Q := fun (r : Result unit) (w' : DWorld) => (w' = w \/ w' = gone) /\
    match r with Ok _ | Err (NotFound _) => w' = gone | _ => True end).
  unfold drive_delete. apply (wpd_bind _ _ Q).
  { apply (retry_wpd (fun w' => w' = w \/ w' = gone)); [by left|]. intros w1 Hw1.
    assert (mkDWorld (without i (d_stored w1)) (d_local w1) = gone) as Hgone
      by (destruct Hw1 as [-> | ->]; [done|]; unfold gone; simpl; by rewrite without_idemp).
    cbn [bind trigger]. apply wpd_Vis. intros r w2 Hs. cbn [dstep] in Hs. apply api_delete in Hs.
    apply wpd_Ret. rewrite Hgone in Hs. unfold Q. destruct r as [[[]|e]|]; simpl.
    - subst. auto.
    - case_bool_decide as H404.
      + destruct Hs as [-> Hni]. split_and!; [done..|].
        assert (w1 = gone) as ->; [|by repeat case_match].
        destruct Hw1 as [-> | ->]; [|done]. unfold gone. rewrite without_absent by done. by destruct w.
      + assert (w2 = w \/ w2 = gone) as Hw2 by naive_solver. split_and!; [done..|].
        destruct (classify _ e) as [|m|[]] eqn:Hc; try done. by apply classify_not_found in Hc.
    - assert (w2 = w \/ w2 = gone) as Hw2 by naive_solver. auto. }
  intros r w' [Hw' Hr].
  assert (d_ok w') as Hok' by (destruct Hw' as [-> | ->]; [done|by apply d_ok_without]).
  destruct r as [[]|[]]; cbn [bind trigger];
    try (apply wpd_Vis; intros _ w1 ->; apply wpd_Ret; subst w'; by split);
    apply wpd_Ret; (split; [done|]); simpl; destruct Hw' as [-> | ->]; auto.
Qed.

(** ** Uploading *)

Lemma creates_abs w meta f content w' req :
  d_ok w -> meta = upload_metadata req (folder_id s) -> creates w meta f content w' ->
  exists info, to_backup_info f = Ok info /\ name info = req_name req /\ kind info = req_kind req /\
    format info = req_format req /\ (id info ∉ (id <$> (w_store (abs w)).*1)) /\ (id info ∉ w_others (abs w)) /\
    plain (id info) = true /\ d_ok w' /\
    abs w' = mkWorld _ d0 ((info, content) :: w_store (abs w)) (w_files (abs w)) (w_others (abs w)).
Proof.
  intros Hok -> (Hn & Hp & Hpar & Htr & [t Ht] & (i & Hi & Hpl) & Hfresh & ->).
  assert (exists info, to_backup_info f = Ok info /\ name info = req_name req /\ kind info = req_kind req /\
    format info = req_format req /\ id info = i) as (info & Hb & Hnm & Hk & Hf & Hid).
  { unfold to_backup_info. rewrite Hi, Hn, Hp, Ht. unfold upload_metadata.
    cbn [f_name f_app_properties required ok_or default from_option Datatypes.id].
    rewrite lookup_insert_ne, lookup_insert_ne, lookup_insert_eq by done.
    rewrite lookup_insert_ne, lookup_insert_eq by done. unfold detect_format.
    rewrite BackupFormat_roundtrip. cbn [ok_or]. rewrite BackupKind_roundtrip. eexists. by split_and!. }
  assert (is_in_folder f (folder_id s) = true) as Hin.
  { unfold is_in_folder. rewrite bool_decide_true, Hpar by done. simpl. by rewrite String.eqb_refl. }
  exists info. split_and!; [done..| | |by rewrite Hid| |].
  - intros (b & Hb' & Hbin)%list_elem_of_fmap. apply elem_of_abs_1 in Hbin as (x & Hx & _ & Hxb).
    apply Hfresh. rewrite Hi. simpl. apply list_elem_of_fmap. exists x. split; [|done].
    apply to_backup_info_ok in Hxb as (Hxid & _). unfold stored_id. rewrite Hxid. simpl. congruence.
  - intros (x & Hx & Hxid & _)%elem_of_others. apply Hfresh. rewrite Hi. simpl. apply list_elem_of_fmap.
    exists x. split; [congruence|done].
  - destruct Hok as (Hids & Hnd & Hmi). unfold d_ok. simpl. split_and!.
    + constructor; [by eexists|done].
    + apply NoDup_cons. split; [|done]. unfold stored_id at 1. simpl. by rewrite Hi in *.
    + constructor; [done|done].
  - assert (backup_of (mkStored f (default "" (f_mime_type (upload_metadata req (folder_id s)))) content) = Some (info, content)) as Hnew
      by (unfold backup_of; simpl; by rewrite Hin, Hb).
    unfold abs, other_files. cbn [d_stored d_local w_store w_files w_others List.filter omap list_omap].
    by rewrite Hnew.
Qed.

Lemma drive_upload_wpd req w :
  d_ok w ->
  wpd (drive_upload s req) (fun r w' => d_ok w' /\ port_step (abs w) (EUpload req r) (abs w')) w.
Proof.
  intros Hok. unfold drive_upload. cbn [bind trigger].
  apply wpd_Vis. intros _ w1 ->. apply wpd_Vis. intros start w1 ->.
  apply wpd_Vis. intros [[]|e] w1 [-> _]; cbn [result_map_err];
    [|apply wpd_Ret; split; [done|by left]].
  apply wpd_Vis. intros r w1 Hs. cbn [dstep] in Hs. apply api_create in Hs.
  destruct (timed "Uploading backup" _ r) as [f|e] eqn:Ht; cbn [result_map_err].
  - apply timed_ok in Ht as ->. destruct Hs as (content & Hc & Hcr).
    destruct (creates_abs _ _ _ _ _ req Hok eq_refl Hcr)
      as (info & Hb & Hn & Hk & Hf & Hid & Hot & Hpl & Hok' & Habs).
    rewrite Hb. apply wpd_Vis. intros now w2 ->. apply wpd_Vis. intros _ w2 ->. apply wpd_Ret.
    split; [done|]. exists content. by split_and!.
  - apply wpd_Ret.
    assert (w1 = w \/ exists f content, d_local w !! req_path req = Some content /\
      creates w (upload_metadata req (folder_id s)) f content w1) as Hs'.
    { destruct r as [[f|e']|]; simpl in *; try done. }
    destruct Hs' as [-> |(f & content & Hc & Hcr)]; [split; [done|by left]|].
    destruct (creates_abs _ _ _ _ _ req Hok eq_refl Hcr) as (info & _ & Hn & Hk & Hf & Hid & Hot & Hpl & Hok' & Habs).
    split; [done|]. right. exists info, content. by split_and!.
Qed.

Lemma touched_only_file dst w w' : touched dst w w' -> only_file dst (abs w) (abs w').
Proof.
  intros [Hs [c Hl]]. unfold abs. split_and!; simpl; [done|by rewrite Hs|by rewrite Hs| |].
  - rewrite Hl, lookup_insert_eq. eauto.
  - by rewrite Hl, delete_insert_eq.
Qed.

Lemma drive_download_contract w b dst :
  d_ok w -> is_Some (d_local w !! dst) ->
  wpd (drive_download s b dst) (fun r w' => d_ok w' /\ port_step (abs w) (EDownload b dst r) (abs w')) w.
Proof.
  intros Hok Hdst.
  assert (forall w limit i r w', api _ w (GetMedia limit i) r w' -> w' = w) as Hreads
    by (intros ????? Hm; by apply api_media in Hm as [-> _]).
  eapply wp_mono; [|by apply drive_download_wpd].
  intros r w' [Ht Hr]. assert (d_ok w') by (unfold d_ok; by rewrite (proj1 Ht)). split; [done|].
  apply touched_only_file in Ht. destruct r as [[]|e]; [|done]. split; [done|].
  intros Hot. destruct (Hr eq_refl) as (c & Hl & (w1 & limit & frames & w2 & Hm & Hst & Hwh & -> & _)).
  apply api_media in Hm as [_ Hm]. destruct (Hm frames eq_refl Hwh) as (x & Hx & Hid & Hc).
  rewrite Hst in Hx. rewrite <-Hc in Hl.
  destruct (backup_of x) as [[info c]|] eqn:Hb.
  - assert (to_backup_info (s_file x) = Ok info /\ c = s_content x) as [Hinfo ->].
    { unfold backup_of in Hb. destruct (is_in_folder _ _); [|done]. destruct (to_backup_info (s_file x)); naive_solver. }
    exists (info, s_content x). split_and!; [|cbn|done].
    + unfold abs. cbn [w_store]. apply list_elem_of_omap. by exists x.
    + apply to_backup_info_ok in Hinfo as (Hinfo & _). congruence.
  - destruct Hot. apply elem_of_others. exists x. split_and!; [done| |done]. unfold stored_id. by rewrite Hid.
Qed.

(** C10. [GoogleDriveStorage] implements the storage port: whatever Drive
    answers within its documented behaviour, with any number of transient
    failures and retries, an upload, a listing, the search for the newest
    backup, a lookup, a download and a delete do to the folder, and return,
    what the contract of the port allows. *)
Theorem drive_meets_contract w :
  d_ok w ->
  (forall req, wpd (drive_upload s req) (fun r w' => d_ok w' /\ port_step (abs w) (EUpload req r) (abs w')) w) /\
  (forall n tok, wpd (drive_list s n tok) (fun r w' => w' = w /\ port_step (abs w) (EList n tok r) (abs w')) w) /\
  wpd (drive_latest s) (fun r w' => w' = w /\ port_step (abs w) (ELatest r) (abs w')) w /\
  (forall i, wpd (drive_get s i) (fun r w' => w' = w /\ port_step (abs w) (EGet i r) (abs w')) w) /\
  (forall b dst, is_Some (d_local w !! dst) ->
    wpd (drive_download s b dst) (fun r w' => d_ok w' /\ port_step (abs w) (EDownload b dst r) (abs w')) w) /\
  (forall i, wpd (drive_delete s i) (fun r w' => d_ok w' /\ port_step (abs w) (EDelete i r) (abs w')) w).
Proof.
  intros Hok. split_and!.
  - intros req. by apply drive_upload_wpd.
  - intros n tok. apply drive_list_wpd.
  - by apply drive_latest_wpd.
  - intros i. by apply drive_get_wpd.
  - intros b dst Hdst. by apply drive_download_contract.
  - intros i. by apply drive_delete_wpd.
Qed.

End Contract.

(** ** Witness: a server that answers every listing with one page *)

Definition file_time (f : File) : DateTime := default (mkDateTime 0 0) (f_created_time f).
Definition file_newer (f g : File) : Prop := dt_le (file_time g) (file_time f).

#[local] Instance file_newer_dec : RelDecision file_newer.
Proof. intros f g. apply dt_le_dec. Defined.
#[local] Instance file_newer_trans : Transitive file_newer.
Proof. intros f g h Hfg Hgh. unfold file_newer in *. by etrans. Qed.
#[local] Instance file_newer_total : Total file_newer.
Proof. intros f g. apply (total dt_le). Qed.

Section OnePage.
Context (folder : string).

Definition selects (q : string) (x : Stored) : bool :=
  is_in_folder (s_file x) folder && negb (String.eqb (s_mime x) FOLDER_MIME) &&
  (negb (String.eqb q (latest_query folder)) ||
   bool_decide (app_property (s_file x) "kind" <> Some "pre_restore")).

Definition selected (w : DWorld) (q : string) : list File :=
  merge_sort file_newer (s_file <$> List.filter (selects q) (d_stored w)).

Definition page_api (T : Type) (w : DWorld) (op : DriveE T) : T -> DWorld -> Prop :=
  match op in DriveE T return T -> DWorld -> Prop with
  | ListFiles _ q _ _ _ _ => fun r w' => w' = w /\ r = Some (Ok (mkFileList (Some (selected w q)) None))
  | GetFile _ i _ => fun r w' => w' = w /\
      (r = Some (Err (Failure 404)) \/
       exists x, x ∈ d_stored w /\ f_id (s_file x) = Some i /\ r = Some (Ok (s_file x)))
  | GetMedia _ i => fun r w' => w' = w /\
      (r = None \/ exists x, x ∈ d_stored w /\ f_id (s_file x) = Some i /\ r = Some (Ok [Data (s_content x)]))
  | CreateFile _ meta _ src => fun r w' =>
      r = None /\ w' = w \/
      exists f content, r = Some (Ok f) /\ d_local w !! src = Some content /\ creates w meta f content w'
  | DeleteFile _ i => fun r w' =>
      r = Some (Ok tt) /\ w' = mkDWorld (without i (d_stored w)) (d_local w)
  | _ => fun _ _ => False
  end.

#[local] Instance page_drive : DriveApi := {| api := page_api |}.

Lemma elem_of_selected w q f :
  f ∈ selected w q <-> exists x, x ∈ d_stored w /\ s_file x = f /\ selects q x = true.
Proof.
  unfold selected. rewrite merge_sort_Permutation, list_elem_of_fmap. split.
  - intros (x & -> & Hx). apply list_elem_of_In, filter_In in Hx as [Hx Hs]. exists x.
    split_and!; [by apply list_elem_of_In|done..].
  - intros (x & Hx & <- & Hs). exists x. split; [done|]. apply list_elem_of_In, filter_In.
    split; [by apply list_elem_of_In|done].
Qed.

Lemma folder_not_latest : folder_query folder <> latest_query folder.
Proof.
  unfold latest_query. intros Heq%(f_equal String.length).
  rewrite <-!length_chars, !chars_app, !length_app in Heq. simpl in Heq. lia.
Qed.

#[local] Program Instance page_server : DriveServer folder :=
  {| matches := selected; position := fun _ _ _ => 0%nat |}.
Next Obligation.
  intros w. unfold selected. rewrite merge_sort_Permutation. apply fmap_Permutation.
  assert (forall l, List.filter (selects (folder_query folder)) l = List.filter (listed folder) l) as ->; [|done].
  apply List.filter_ext. intros x. unfold selects. rewrite (proj2 (String.eqb_neq _ _) folder_not_latest). simpl.
  by rewrite andb_true_r.
Qed.
Next Obligation.
  intros w f. rewrite elem_of_selected. unfold selects. rewrite String.eqb_refl. simpl.
  split.
  - intros (x & Hx & <- & Hs). rewrite !andb_true_iff in Hs. destruct Hs as [[Hin Hm] Hk].
    split; [|by apply bool_decide_eq_true in Hk]. exists x. split_and!; try done.
    intros Hmime. by rewrite Hmime in Hm.
  - intros ((x & Hx & <- & Hin & Hm) & Hk). exists x. split_and!; [done..|].
    rewrite Hin, (proj2 (String.eqb_neq _ _) Hm), bool_decide_true; done.
Qed.
Next Obligation.
  intros w q. assert (StronglySorted file_newer (selected w q)) as Hs by apply (StronglySorted_merge_sort _).
  induction Hs as [|f l Hl IH Hf]; constructor; [done|]. eapply Forall_impl; [exact Hf|].
  intros g Hg. unfold file_newer, file_time in Hg. unfold newer_file.
  by destruct (f_created_time f), (f_created_time g).
Qed.
Next Obligation. done. Qed.
Next Obligation.
  intros w limit q n tok r w' [-> ->]. split; [done|]. intros l [= <-].
  exists (length (selected w q)). simpl. by rewrite take_ge.
Qed.
Next Obligation.
  intros w limit i r w' [-> Hr]. split; [done|]. intros f ->.
  destruct Hr as [?|(x & Hx & Hid & [= ->])]; [done|]. eauto.
Qed.
Next Obligation.
  intros w limit i r w' [-> Hr]. split; [done|]. intros frames -> _.
  destruct Hr as [?|(x & Hx & Hid & [= ->])]; [done|]. exists x. split_and!; [done..|].
  unfold body_bytes. simpl. by rewrite app_nil_r.
Qed.
Next Obligation.
  intros w limit meta src r w' [[-> ->]|(f & content & -> & Hl & Hc)]; [by left|]. eauto.
Qed.
Next Obligation. intros w limit i r w' [-> ->]. done. Qed.
End OnePage.

#[local] Instance plain_str : RustFmt := {| str_debug := fun s => s |}.
#[local] Instance plain_db : PgFormat := text_pg Some.
#[local] Instance sample_api : DriveApi := page_drive "folder".
#[local] Instance sample_server : DriveServer "folder" := page_server "folder".

Definition sample_storage : GoogleDriveStorage := mkGoogleDriveStorage "folder" DriveOptions_default.

Definition sample_file : File :=
  drive_file (upload_metadata (UploadRequest_pg_dump "/data/x" "tracker" Regular (mkDateTime 1767225600 0))
    "folder") "f1" (mkDateTime 1767225601 0) 2 "444bcb3a3fcf8389296c49467f27e1d6".

Definition sample_drive : DWorld :=
  mkDWorld [mkStored sample_file "application/octet-stream" (chars "ok")] {["/data/y" := []]}.

Lemma sample_drive_ok : d_ok sample_drive.
Proof.
  unfold d_ok, sample_drive. simpl. split_and!.
  - repeat constructor. by eexists.
  - apply NoDup_singleton.
  - by repeat constructor.
Qed.

Definition sample_db : Db := ∅.

Lemma drive_meets_contract_witness :
  wpd (drive_latest sample_storage)
    (fun r w' => w' = sample_drive /\
       port_step (abs sample_storage sample_db sample_drive) (ELatest r) (abs sample_storage sample_db w')) sample_drive.
Proof.
  destruct (drive_meets_contract sample_storage (DriveServer0 := sample_server) sample_db sample_drive sample_drive_ok)
    as (_ & _ & Hl & _).
  exact Hl.
Defined.

Definition sample_download_info : BackupInfo :=
  mkBackupInfo "f1" "x" (mkDateTime 1767225601 0) (Some 2) (Some "444BCB3A3FCF8389296C49467F27E1D6") PgCustom Regular.

Lemma download_is_verified_witness :
  wpd (drive_download sample_storage sample_download_info "/data/y") (fun r w' =>
    delete "/data/y" (d_local w') = delete "/data/y" (d_local sample_drive) /\
    (r = Ok tt -> exists c, d_local w' !! "/data/y" = Some c /\
       eq_ignore_ascii_case (hex_encode (md5_digest c)) "444BCB3A3FCF8389296C49467F27E1D6" = true)) sample_drive.
Proof.
  apply (download_is_verified sample_storage); [by intros ????? [-> _]|by eexists|done].
Defined.

(** ** No panics *)

Section NoPanic.
Context `{RustFmt, Md5}.

Lemma keep_backups_no_panic l : no_panic (keep_backups l).
Proof.
  induction l as [|f l IH]; [done|]. cbn [keep_backups]. destruct (to_backup_info f).
  - by apply no_panic_bind.
  - by split.
Qed.

Lemma list_once_no_panic s q n tok : no_panic (list_once s q n tok).
Proof.
  unfold list_once. cbn [bind trigger]. split; [done|]. intros r. destruct (timed _ _ r); [|done].
  apply no_panic_bind; [apply keep_backups_no_panic|done].
Qed.

Lemma write_frames_no_panic frames dst idle hashed size :
  no_panic (write_frames frames dst idle hashed size).
Proof.
  revert hashed size. induction frames as [|[|e|d|] frames IH]; intros hashed size; cbn [write_frames]; try done.
  split; [done|]. intros [[]|e]; [apply IH|done].
Qed.

Lemma download_once_no_panic s b dst : no_panic (download_once s b dst).
Proof.
  unfold download_once. cbn [bind trigger]. split; [done|]. intros r. destruct (timed _ _ r); [|done].
  split; [done|]. intros [[]|e]; [|done]. apply no_panic_bind; [apply write_frames_no_panic|].
  intros [[h n]|e]; [|done]. split; [done|]. intros [[]|e]; [|done]. by repeat case_match.
Qed.

(** The storage never panics with a retry policy whose delays can be
    doubled, as those of the default options can: the arithmetic of the
    backoff does not overflow in any operation. *)
Theorem drive_never_panics s :
  policy_ok (retry_policy (opts s)) ->
  (forall req, no_panic (drive_upload s req)) /\ (forall n tok, no_panic (drive_list s n tok)) /\
  no_panic (drive_latest s) /\ (forall i, no_panic (drive_get s i)) /\
  (forall b dst, no_panic (drive_download s b dst)) /\ (forall i, no_panic (drive_delete s i)).
Proof.
  intros Hp. split_and!.
  - intros req. unfold drive_upload. cbn [bind trigger]. do 3 (split; [done|]; intros ?).
    repeat (case_match || done || (split; [done|]; intros ?)).
  - intros n tok. apply retry_no_panic; [done|]. apply no_panic_bind; [apply list_once_no_panic|done].
  - unfold drive_latest. generalize (None : option string) as tok.
    induction LATEST_MAX_PAGES as [|n IH]; intros tok; [done|]. cbn [latest_pages].
    apply no_panic_bind; [apply retry_no_panic; [done|apply list_once_no_panic]|].
    intros [page|e]; [|done]. repeat case_match; done || apply IH.
  - intros i. apply no_panic_bind; [by apply retry_no_panic|]. intros [f|e]; [|done]. by case_match.
  - intros b dst. unfold drive_download. cbn [bind trigger]. do 2 (split; [done|]; intros ?).
    apply no_panic_bind; [apply retry_no_panic; [done|apply download_once_no_panic]|].
    by intros [n|e].
  - intros i. apply no_panic_bind; [by apply retry_no_panic|]. by intros [[]|[]].
Qed.
End NoPanic.

Lemma drive_never_panics_witness : no_panic (drive_latest sample_storage).
Proof. apply (drive_never_panics sample_storage default_policy_ok). Defined.
