(* ===== verification/GoogleApis.v ===== *)
(** * [google-drive3] and [google-apis-common]: API calls as HTTP requests

    The five calls [GoogleDriveStorage] makes to the client library, as the
    requests the library sends and what it makes of the responses.  The token
    source, hyper and [serde_json] are outside.  The library runs with its
    default delegate, which never retries and never cancels, so that its
    loops end after one round; the chunks of a resumable upload go on while
    the server answers 308. *)

From Stdlib Require Import ZArith Lia Ascii.
From stdpp Require Import base numbers gmap sorting strings list.
From S2P Require Import Prelude RustStd Json Md5 Utf8 Chrono Core Ports Url Drive DriveStorage.
Open Scope Z_scope.
Open Scope rust_scope.

(** ** The interface *)

Inductive Method := GET | POST | DELETE.

(** The text of a URL that was built, or a text of the server. *)
Record HttpRequest := mkHttpRequest {
  req_method : Method;
  req_url : list ascii;
  req_headers : list (string * string);
  req_content : bytes;
}.

Record HttpResponse := mkHttpResponse {
  res_status : Z;
  res_headers : list (string * string);
  res_frames : list Frame;
}.

(** Answers are [None] when the time limit of the API call passed. *)
Inductive HttpE : Type -> Type :=
| GetToken (scopes : list string) : HttpE (option (result (option string) string))
| Send (r : HttpRequest) : HttpE (option (result HttpResponse string))
(* the file that is uploaded: its size, and a part of it *)
| SourceSize (p : path) : HttpE (result Z string)
| SourceRead (p : path) (start len : Z) : HttpE (result bytes string)
| LibraryPanic (msg : string) : HttpE Empty_set
(* the calls that are not to the API *)
| Local {T} (e : DriveE T) : HttpE T.

(** [serde_json] on the types of the API, the text chrono serializes a time as,
    and [http::Uri] on any text. *)
Class ClientLibs := {
  #[global] libs_floats :: F64;
  parse_file : string -> result File string;
  parse_file_list : string -> result FileList string;
  datetime_text : DateTime -> string;
  uri_text_ok : list ascii -> bool;
}.

(** The URLs of a hub: [origin] followed by paths. *)
Record Hub := mkHub { hub_origin : string; base_path : string; root_path : string; user_agent : string }.

Definition USER_AGENT_TEXT : string := "google-api-rust-client/7.0.0".
Definition DriveHub_new : Hub := mkHub "https://www.googleapis.com" "/drive/v3/" "/" USER_AGENT_TEXT.

Definition SCOPE_FULL : string := "https://www.googleapis.com/auth/drive".
Definition UPLOAD_LIMIT : Z := 5497558138880.
Definition CHUNK : Z := Z.shiftl 1 23.

Section Library.
Context `{ClientLibs} (hub : Hub).

Definition panic {A} (msg : string) : prog HttpE A :=
  Vis (LibraryPanic msg) (fun e : Empty_set => match e with end).

(** [HeaderValue]: from a string, and back. *)
Definition header_valid (v : string) : bool :=
  forallb (fun c => ((32 <=? code c) && negb (code c =? 127)) || (code c =? 9)) (chars v).
Definition header_visible (v : string) : bool :=
  forallb (fun c => ((32 <=? code c) && (code c <? 127)) || (code c =? 9)) (chars v).

Definition header (name : string) (r : HttpResponse) : option string :=
  snd <$> List.find (fun h => eq_ignore_ascii_case h.1 name) (res_headers r).

(** [Request::builder()..body(..)], [unwrap] and [client.request]. *)
Definition send (ok : bool) (r : HttpRequest) : prog HttpE (option (result HttpResponse string)) :=
  if ok && forallb (fun h => header_valid h.2) (req_headers r) then call (Send r)
  else panic "called `Result::unwrap()` on an `Err` value".

Definition send_url (m : Method) (u : Url) (headers : list (string * string)) (content : bytes) :=
  send (uri_ok u) (mkHttpRequest m (url_as_str u) headers content).

(** [to_bytes(body).await.unwrap_or_default()]; a body that stalls runs into
    the time limit. *)
Fixpoint collect (acc : bytes) (frames : list Frame) : option bytes :=
  match frames with
  | [] => Some acc
  | Stalled :: _ => None
  | Interrupted _ :: _ => Some []
  | Trailers :: frames => collect acc frames
  | Data d :: frames => collect (acc ++ d) frames
  end.

Definition is_success (status : Z) : bool := (200 <=? status) && (status <=? 299).

Abbreviation Outcome A := (option (result A DriveError)).

(** A response that is not a success. *)
Definition failure {A} (res : HttpResponse) : Outcome A :=
  match collect [] (res_frames res) with
  | None => None
  | Some b =>
      Some (Err match from_str (from_utf8_lossy b) with
                | Ok v => DriveBadRequest v
                | Err _ => Failure (res_status res)
                end)
  end.

(** [serde_json::from_str] of the body, with the text of [JsonDecodeError]. *)
Definition decode {A} (from_str : string -> result A string) (res : HttpResponse) : Outcome A :=
  match collect [] (res_frames res) with
  | None => None
  | Some b =>
      let text := from_utf8_lossy b in
      Some (result_map_err (fun e => OtherDriveError (e +:+ ": " +:+ text +:+ of_chars [chr 10])) (from_str text))
  end.

(** The token, the request and the check of the status. *)
Definition authorized {A} (m : Method) (u : Url) (headers : list (string * string)) (content : bytes)
    (k : option string -> HttpResponse -> prog HttpE (Outcome A)) : prog HttpE (Outcome A) :=
  let* token := call (GetToken [SCOPE_FULL]) in
  match token with
  | None => Ret None
  | Some (Err e) => Ret (Some (Err (MissingToken e)))
  | Some (Ok token) =>
      let auth := match token with Some t => [("authorization", "Bearer " +:+ t)] | None => [] end in
      let* r := send_url m u (("user-agent", user_agent hub) :: auth ++ headers) content in
      match r with
      | None => Ret None
      | Some (Err e) => Ret (Some (Err (HttpError e)))
      | Some (Ok res) => if is_success (res_status res) then k token res else Ret (failure res)
      end
  end.

Definition no_content : list (string * string) := [("content-length", "0")].

Definition hub_url (path : string) (params : list (string * string)) : Url :=
  parse_with_params (chars (hub_origin hub)) (chars path) params.

(** *** [FileListCall::doit] *)
Definition list_url (q order_by : string) (page_size : Z) (fields : string) (page_token : option string) : Url :=
  hub_url (base_path hub +:+ "files")
    ([("q", q)] ++ match page_token with Some t => [("pageToken", t)] | None => [] end ++
     [("pageSize", int_to_string page_size); ("orderBy", order_by); ("fields", fields); ("alt", "json")]).

Definition files_list (q order_by : string) (page_size : Z) (fields : string) (page_token : option string)
    : prog HttpE (Outcome FileList) :=
  authorized GET (list_url q order_by page_size fields page_token) no_content []
    (fun _ res => Ret (decode parse_file_list res)).

(** *** [FileGetCall::doit]: the id goes into the path as it is *)
Definition file_url (i : string) (params : list (string * string)) : Url :=
  hub_url (base_path hub +:+ "files/" +:+ i) params.

Definition files_get (i fields : string) : prog HttpE (Outcome File) :=
  authorized GET (file_url i [("fields", fields); ("alt", "json")]) no_content []
    (fun _ res => Ret (decode parse_file res)).

(** With [alt=media] the body is handed on. *)
Definition files_get_media (i : string) : prog HttpE (Outcome (list Frame)) :=
  authorized GET (file_url i [("acknowledgeAbuse", "true"); ("alt", "media")]) no_content []
    (fun _ res => Ret (Some (Ok (res_frames res)))).

(** *** [FileDeleteCall::doit] *)
Definition files_delete (i : string) : prog HttpE (Outcome unit) :=
  authorized DELETE (file_url i []) no_content [] (fun _ _ => Ret (Some (Ok tt))).

(** *** [FileCreateCall::upload_resumable] *)

Definition value_of {A} (f : A -> Value) (o : option A) : Value := match o with Some a => f a | None => Null end.

(** [Serialize for File]; the fields that no file of the storage has are
    [null], like the others that are not set. *)
Definition file_to_value (f : File) : Value :=
  object_of
    [("appProperties", value_of (fun m => object_of (prod_map Datatypes.id Str <$> map_to_list m)) (f_app_properties f));
     ("createdTime", value_of (fun t => Str (datetime_text t)) (f_created_time f));
     ("id", value_of Str (f_id f));
     ("md5Checksum", value_of Str (f_md5_checksum f));
     ("mimeType", value_of Str (f_mime_type f));
     ("name", value_of Str (f_name f));
     ("parents", value_of (fun l => Array (Str <$> l)) (f_parents f));
     ("size", value_of (fun n => Str (int_to_string n)) (f_size f));
     ("trashed", value_of Bool (f_trashed f))].

Definition is_null (v : Value) : bool := match v with Null => true | _ => false end.

Fixpoint remove_json_null_values (v : Value) : Value :=
  match v with
  | Object l => Object (flat_map (fun kv => if is_null kv.2 then [] else [(kv.1, remove_json_null_values kv.2)]) l)
  | Array l => Array (flat_map (fun v => if is_null v then [] else [remove_json_null_values v]) l)
  | v => v
  end.

Definition file_to_json (f : File) : string := value_display (remove_json_null_values (file_to_value f)).

Definition create_url (fields : string) : Url :=
  hub_url (root_path hub +:+ "resumable/upload/drive/v3/files")
    [("fields", fields); ("alt", "json"); ("uploadType", "resumable")].

(** [ContentRange::header_value]; [last] wraps around for an empty file. *)
Definition content_range (start len total : Z) : string :=
  "bytes " +:+ int_to_string start +:+ "-" +:+ int_to_string ((start + len - 1) mod (U64_MAX + 1)) +:+ "/" +:+
  int_to_string total.

(** [ResumableUploadHelper::upload]: [rounds] is as many chunks as there is
    time for. *)
Fixpoint upload_chunks (rounds : nat) (url src : string) (total start : Z) : prog HttpE (Outcome File) :=
  match rounds with
  | O => Ret None
  | S rounds =>
      let size := if CHUNK <? total - start then CHUNK else total - start in
      let* data := call (SourceRead src start size) in
      match data with
      | Err _ => panic "called `Result::unwrap()` on an `Err` value"
      | Ok data =>
          let* r := send (uri_text_ok (chars url))
            (mkHttpRequest POST (chars url)
               [("content-range", content_range start size total); ("content-type", "application/octet-stream");
                ("user-agent", user_agent hub)] data) in
          match r with
          | None => Ret None
          | Some (Err e) => Ret (Some (Err (HttpError e)))
          | Some (Ok res) =>
              if res_status res =? 308 then upload_chunks rounds url src total (start + size)
              else if is_success (res_status res) then Ret (decode parse_file res)
              else Ret (match collect [] (res_frames res) with
                        | None => None
                        | Some _ => Some (Err (Failure (res_status res)))
                        end)
          end
      end
  end.

Definition files_create (rounds : nat) (meta : File) (fields : string) (src : path) : prog HttpE (Outcome File) :=
  authorized POST (create_url fields)
    [("x-upload-content-type", "application/octet-stream"); ("content-type", "application/json")]
    (chars (file_to_json meta))
    (fun token res =>
       let* size := call (SourceSize src) in
       match size with
       | Err _ => panic "called `Result::unwrap()` on an `Err` value"
       | Ok size =>
           if UPLOAD_LIMIT <? size then
             Ret (Some (Err (OtherDriveError ("The media size " +:+ int_to_string size +:+
               " exceeds the maximum allowed upload size of " +:+ int_to_string UPLOAD_LIMIT +:+ of_chars [chr 10]))))
           else
             match header "location" res with
             | None => panic "LOCATION header is part of protocol"
             | Some url =>
                 if negb (header_visible url) then panic "called `Result::unwrap()` on an `Err` value"
                 else
                   match token with
                   | None => Ret (Some (Err (MissingToken "resumable upload requires token")))
                   | Some _ => upload_chunks rounds url src size 0
                   end
             end
       end).

(** ** The API calls *)

Definition drive_http (rounds : nat) (T : Type) (e : DriveE T) : prog HttpE T :=
  match e in DriveE T return prog HttpE T with
  | ListFiles _ q order_by page_size fields token => files_list q order_by page_size fields token
  | GetFile _ i fields => files_get i fields
  | GetMedia _ i => files_get_media i
  | CreateFile _ meta fields src => files_create rounds meta fields src
  | DeleteFile _ i => files_delete i
  | e => trigger (Local e)
  end.

(** An operation of the storage over HTTP. *)
Definition over_http {A} (rounds : nat) (p : prog DriveE A) : prog HttpE A := interp (drive_http rounds) p.
End Library.
