(* ===== verification/DriveHttp.v ===== *)
(** * The storage over HTTP: what is requested, and what becomes of responses

    Theorems on [GoogleApis.v]: the requests read back as the calls they come
    from, the ways an id from a client can bend or break a request, what an
    upload says of a backup, and its chunks. *)

From Stdlib Require Import ZArith Lia Ascii.
From stdpp Require Import base numbers gmap sorting strings list.
From S2P Require Import Prelude RustStd Json Md5 Utf8 Chrono Core Ports Service Api Url Drive DriveStorage GoogleApis.
Open Scope Z_scope.
Open Scope rust_scope.

(** ** Requests *)

(** [r] asks for [path] with [params] at the Drive API. *)
Definition reads_as (m : Method) (path : string) (params : list (string * string)) (r : HttpRequest) : Prop :=
  req_method r = m /\ exists query,
    req_url r = chars ("https://www.googleapis.com" +:+ path +:+ "?") ++ query /\ form_parse query = params.

Definition sends (P : HttpRequest -> Prop) (T : Type) (op : HttpE T) : Prop :=
  match op with Send r => P r | _ => True end.

Section Requests.
Context `{ClientLibs}.

Lemma panic_calls {A} (P : forall T, HttpE T -> Prop) msg :
  P _ (LibraryPanic msg) -> calls P (panic (A := A) msg).
Proof. intros HP. split; [done|]. intros []. Qed.

Lemma send_calls P ok r : P r -> calls (sends P) (send ok r).
Proof. intros HP. unfold send. destruct (_ && _); [by split|by apply panic_calls]. Qed.

Lemma authorized_calls {A} P hub m u headers content (k : option string -> HttpResponse -> prog HttpE (option (result A DriveError))) :
  (forall hs, P (mkHttpRequest m (url_as_str u) hs content)) -> (forall t res, calls (sends P) (k t res)) ->
  calls (sends P) (authorized hub m u headers content k).
Proof.
  intros HP Hk. unfold authorized. cbn [bind trigger]. split; [done|]. intros [[token|e]|]; [|done..].
  cbv zeta. eapply calls_bind; [by apply send_calls|]. intros [[res|e]|]; [|done..].
  by destruct (is_success _).
Qed.

(** A URL that is a path and parameters. *)
Lemma reads_as_url m path rest params hs content :
  parse_url (chars "https://www.googleapis.com") (chars rest) =
    mkUrl (chars "https://www.googleapis.com") (chars path) None None ->
  reads_as m path params (mkHttpRequest m (url_as_str (hub_url DriveHub_new rest params)) hs content).
Proof.
  intros Hp. split; [done|]. unfold hub_url. cbn [DriveHub_new hub_origin].
  pose proof (params_read_back (chars "https://www.googleapis.com") (chars rest) params) as Hr.
  rewrite Hp in Hr. unfold parse_with_params in Hr |- *. rewrite Hp in Hr |- *.
  unfold extend_pairs in *. cbn [url_query origin url_path url_fragment default from_option] in *.
  exists (foldl append_pair [] params). split; [|exact Hr].
  cbn [req_url]. unfold url_as_str, target. cbn [url_query origin url_path url_fragment].
  rewrite !chars_app, app_nil_r, <-!app_assoc. done.
Qed.

Lemma trim_end_plain l k : forallb plain_char k = true -> k <> [] -> trim_end_c0 (l ++ k) = l ++ k.
Proof.
  intros Hk Hne. unfold trim_end_c0. rewrite rev_app_distr.
  destruct (rev k) as [|c r] eqn:Hr; [by apply (f_equal (@rev ascii)) in Hr; rewrite rev_involutive in Hr|].
  assert (plain_char c = true) as Hc.
  { rewrite forallb_forall in Hk. apply Hk. rewrite in_rev, Hr. by left. }
  apply plain_char_path in Hc as (_ & _ & _ & _ & _ & _ & Hc). cbn [app trim_front]. rewrite Hc.
  by rewrite app_comm_cons, <-Hr, rev_app_distr, !rev_involutive.
Qed.

(** The path of a file with a plain id. *)
Lemma parse_file_path o i :
  plain i = true -> i <> ""%string ->
  parse_url o (chars ("/drive/v3/files/" +:+ i)) = mkUrl o (chars ("/drive/v3/files/" +:+ i)) None None.
Proof.
  intros Hi Hne. unfold parse_url. rewrite chars_app, trim_end_plain; [|done|by destruct i].
  change (chars "/drive/v3/files/" ++ chars i) with
    (slash :: chars "drive/v3/files/" ++ chars i). unfold parse_path_start.
  replace (is_slash slash) with true by done.
  assert (forall k, parse_path [slash] [] (chars "drive/v3/files/" ++ k) =
    parse_path (chars "/drive/v3/files/") [] k) as ->.
  { intros k. reflexivity. }
  rewrite parse_path_plain by (done || set_solver). cbn. done.
Qed.

(** The requests an API call may make; [session] is the address Drive gave an
    upload, once it has. *)
Definition expected {T} (e : DriveE T) (session : option string) (r : HttpRequest) : Prop :=
  match e with
  | ListFiles _ q order_by n fields token =>
      reads_as GET "/drive/v3/files"
        ([("q", q)] ++ match token with Some t => [("pageToken", t)] | None => [] end ++
         [("pageSize", int_to_string n); ("orderBy", order_by); ("fields", fields); ("alt", "json")]) r
  | GetFile _ i fields => reads_as GET ("/drive/v3/files/" +:+ i) [("fields", fields); ("alt", "json")] r
  | GetMedia _ i => reads_as GET ("/drive/v3/files/" +:+ i) [("acknowledgeAbuse", "true"); ("alt", "media")] r
  | DeleteFile _ i => reads_as DELETE ("/drive/v3/files/" +:+ i) [] r
  | CreateFile _ meta fields _ =>
      match session with
      | None =>
          reads_as POST "/resumable/upload/drive/v3/files"
            [("fields", fields); ("alt", "json"); ("uploadType", "resumable")] r /\
          req_content r = chars (file_to_json meta)
      | Some url =>
          req_method r = POST /\ req_url r = chars url /\
          exists start len total, ("content-range"%string, content_range start len total) ∈ req_headers r
      end
  | _ => False
  end.

(** The session an upload is in: the first answer names it. *)
Definition session_step (session : option string) (e : event HttpE) (session' : option string) : Prop :=
  match e with
  | Ev op r =>
      match op in HttpE T return T -> Prop with
      | Send _ => fun r =>
          session' = match session, r with
                     | None, Some (Ok res) => header "location" res
                     | _, _ => session
                     end
      | _ => fun _ => session' = session
      end r
  end.

Definition sends_expected {T} (e : DriveE T) (session : option string) (U : Type) (op : HttpE U) : Prop :=
  sends (expected e session) U op.

(** The id of an API call that names a file. *)
Definition file_id {T} (e : DriveE T) : option string :=
  match e with GetFile _ i _ | GetMedia _ i | DeleteFile _ i => Some i | _ => None end.

Abbreviation wpq e := (wp (sends_expected e) session_step).

Lemma panic_wpq {T A} (e : DriveE T) msg Q s : wpq e (panic (A := A) msg) Q s.
Proof. split; [done|]. intros []. Qed.

Lemma send_wpq {T} (e : DriveE T) ok r Q s :
  expected e s r ->
  (forall a, Q a match s, a with None, Some (Ok res) => header "location" res | _, _ => s end) ->
  wpq e (send ok r) Q s.
Proof.
  intros He HQ. unfold send. destruct (_ && _); [|by apply panic_wpq]. split; [exact He|].
  intros a s' Hs. cbn in Hs. subst s'. exact (HQ a).
Qed.

(** The request of a call, and what follows it. *)
Lemma authorized_wpq {T A} (e : DriveE T) m u headers content
    (k : option string -> HttpResponse -> prog HttpE (option (result A DriveError))) :
  (forall hs, expected e None (mkHttpRequest m (url_as_str u) hs content)) ->
  (forall t res, wpq e (k t res) (fun _ _ => True) (header "location" res)) ->
  wpq e (authorized DriveHub_new m u headers content k) (fun _ _ => True) None.
Proof.
  intros He Hk. unfold authorized. cbn [bind trigger]. split; [done|]. intros [[token|er]|] s' Hs; cbn in Hs; subst s';
    [|done..]. cbv zeta. eapply wp_bind_2; [by apply (send_wpq e _ _ (fun a s => s = match a with
      Some (Ok res) => header "location" res | _ => None end))|].
  intros [[res|er]|] s ->; [|done..]. by destruct (is_success _).
Qed.

Lemma upload_chunks_wpq limit meta fields src url rounds total start :
  wpq (CreateFile limit meta fields src) (upload_chunks DriveHub_new rounds url src total start)
    (fun _ _ => True) (Some url).
Proof.
  revert start. induction rounds as [|rounds IH]; intros start; [done|]. cbn [upload_chunks bind trigger].
  split; [done|]. intros [data|er] s Hs; cbn in Hs; subst s; [|by apply panic_wpq].
  eapply wp_bind_2; [apply (send_wpq _ _ _ (fun _ s => s = Some url)); [|by intros a]|].
  - split_and!; [done..|]. eexists _, _, _. by left.
  - intros [[res|er]|] s ->; [|done..]. destruct (_ =? 308); [apply IH|]. by destruct (is_success _).
Qed.

End Requests.

(** ** Ids of clients *)

Section ClientIds.
Context `{ClientLibs}.

(** A GET to the host the Drive API is on. *)
Definition to_origin (r : HttpRequest) : Prop :=
  req_method r = GET /\ exists path rest, rooted path /\
    req_url r = chars "https://www.googleapis.com" ++ path ++ "?"%char :: rest.

(** Looking up an id only reads. *)
Lemma any_id_only_reads rounds limit i fields :
  calls (sends to_origin) (drive_http DriveHub_new rounds _ (GetFile limit i fields)).
Proof.
  cbn [drive_http]. apply authorized_calls; [|done]. intros hs. split; [done|].
  unfold file_url, hub_url. cbn [DriveHub_new hub_origin base_path req_url].
  destruct (parse_with_params_ok (chars "https://www.googleapis.com") (chars ("/drive/v3/" +:+ "files/" +:+ i))
    [("fields", fields); ("alt", "json")]) as (Ho & Hr & _ & q & Hq & _).
  eexists _, _. split; [exact Hr|]. unfold url_as_str, target. rewrite Ho, Hq, <-app_assoc. done.
Qed.

Lemma parse_path_dir path seg l rest :
  forallb plain_char l = true -> "."%char ∉ seg -> "%"%char ∉ seg ->
  parse_path path seg (l ++ slash :: rest) = parse_path (path ++ seg ++ l ++ [slash]) [] rest.
Proof.
  revert seg. induction l as [|c l IH]; intros seg; cbn [forallb app].
  - intros _ Hd Hp. cbn [parse_path]. replace (tab_or_new_line slash) with false by done.
    replace (is_slash slash) with true by done. unfold end_segment.
    destruct (no_dots seg Hd Hp) as [-> ->]. done.
  - intros [Hc Hl]%andb_true_iff Hd Hp. cbn [parse_path].
    destruct (plain_char_path c Hc) as (-> & -> & -> & -> & ? & ? & _).
    rewrite IH; [by rewrite <-app_assoc|done|set_solver..].
Qed.

(** The library puts the id into the path as it is. *)
Lemma id_leaves_path i n params :
  plain i = true -> plain n = true -> i <> ""%string -> n <> ""%string ->
  url_path (file_url DriveHub_new ("../" +:+ i) params) = chars ("/drive/v3/" +:+ i) /\
  url_path (file_url DriveHub_new ("../../../" +:+ i +:+ "/" +:+ n) params) = chars ("/" +:+ i +:+ "/" +:+ n) /\
  url_path (file_url DriveHub_new (i +:+ "?" +:+ n) params) = chars ("/drive/v3/files/" +:+ i).
Proof.
  intros Hi Hn Hie Hne. unfold file_url, hub_url, parse_with_params, parse_url.
  cbn [DriveHub_new base_path extend_pairs url_path]. split_and!.
  - change (chars ("/drive/v3/" +:+ "files/" +:+ "../" +:+ i)) with (chars "/drive/v3/files/../" ++ chars i).
    rewrite trim_end_plain by (done || by destruct i).
    change (parse_path_start (chars "/drive/v3/files/../" ++ chars i)) with
      (parse_path (chars "/drive/v3/") [] (chars i)).
    rewrite parse_path_plain by (done || set_solver). done.
  - change (chars ("/drive/v3/" +:+ "files/" +:+ "../../../" +:+ i +:+ "/" +:+ n)) with
      (chars "/drive/v3/files/../../../" ++ chars (i +:+ "/" +:+ n)).
    rewrite !chars_app, app_assoc, app_assoc, trim_end_plain by (done || by destruct n).
    rewrite <-!app_assoc.
    change (parse_path_start (chars "/drive/v3/files/../../../" ++ chars i ++ chars "/" ++ chars n)) with
      (parse_path (chars "/") [] (chars i ++ slash :: chars n)).
    rewrite parse_path_dir, parse_path_plain by (done || set_solver). cbn. by rewrite <-app_assoc.
  - change (chars ("/drive/v3/" +:+ "files/" +:+ i +:+ "?" +:+ n)) with
      (chars "/drive/v3/files/" ++ chars (i +:+ "?" +:+ n)).
    rewrite !chars_app, app_assoc, app_assoc, trim_end_plain by (done || by destruct n).
    rewrite <-!app_assoc.
    change (parse_path_start (chars "/drive/v3/files/" ++ chars i ++ chars "?" ++ chars n)) with
      (parse_path (chars "/drive/v3/files/") [] (chars i ++ "?"%char :: chars n)).
    rewrite parse_path_segment by (done || set_solver). cbn.
    destruct (parse_query (chars n)). done.
Qed.


(** *** Long requests *)

Definition no_panic (s : unit) (T : Type) (op : HttpE T) : Prop :=
  match op with LibraryPanic _ => False | _ => True end.

(** Tokens fit a header. *)
Definition good_tokens (s : unit) (e : event HttpE) (s' : unit) : Prop :=
  match e with
  | Ev op r =>
      match op in HttpE T return T -> Prop with
      | GetToken _ => fun r => forall t, r = Some (Ok (Some t)) -> header_valid t = true
      | _ => fun _ => True
      end r
  end.

(** The URL of the calls that make one request. *)
Definition request_url {T} (e : DriveE T) : option Url :=
  match e with
  | ListFiles _ q order_by n fields token => Some (list_url DriveHub_new q order_by n fields token)
  | GetFile _ i fields => Some (file_url DriveHub_new i [("fields", fields); ("alt", "json")])
  | GetMedia _ i => Some (file_url DriveHub_new i [("acknowledgeAbuse", "true"); ("alt", "media")])
  | DeleteFile _ i => Some (file_url DriveHub_new i [])
  | _ => None
  end.

Lemma authorized_no_panic {A} m path params (k : option string -> HttpResponse -> prog HttpE (option (result A DriveError))) :
  Z.of_nat (length (url_as_str (hub_url DriveHub_new path params))) <= MAX_LEN ->
  (forall t res, exists r, k t res = Ret r) ->
  wp no_panic good_tokens (authorized DriveHub_new m (hub_url DriveHub_new path params) no_content [] k)
    (fun _ _ => True) tt.
Proof.
  intros Hlen Hk. unfold authorized. cbn [bind trigger]. split; [done|].
  intros [[token|e]|] [] Ht; [|done..].
  assert (uri_ok (hub_url DriveHub_new path params) = true) as Hok.
  { unfold hub_url. rewrite uri_ok_length. by apply Z.leb_le. }
  unfold send_url, send. rewrite Hok. cbv zeta. cbn [req_headers andb].
  assert (forallb (fun h : string * string => header_valid h.2)
    (("user-agent", user_agent DriveHub_new) ::
      match token with Some t => [("authorization", "Bearer " +:+ t)] | None => [] end ++ no_content) = true) as Hh.
  { destruct token as [t|]; [|done]. cbn [forallb app no_content snd]. unfold header_valid at 2.
    rewrite chars_app, forallb_app. specialize (Ht t eq_refl). unfold header_valid in Ht. by rewrite Ht. }
  rewrite Hh. cbn [bind trigger]. split; [done|]. intros [[res|e]|] [] _; [|done..].
  destruct (is_success _); [|done]. by destruct (Hk token res) as [r ->].
Qed.

Lemma short_requests_do_not_panic rounds T (e : DriveE T) u :
  request_url e = Some u -> Z.of_nat (length (url_as_str u)) <= 65534 ->
  wp no_panic good_tokens (drive_http DriveHub_new rounds T e) (fun _ _ => True) tt.
Proof.
  destruct e; intros Hu Hlen; try discriminate Hu; apply (inj Some) in Hu; subst u; cbn [drive_http].
  - unfold files_list. eapply authorized_no_panic; [exact Hlen|eauto].
  - unfold files_get. eapply authorized_no_panic; [exact Hlen|eauto].
  - unfold files_get_media. eapply authorized_no_panic; [exact Hlen|eauto].
  - unfold files_delete. eapply authorized_no_panic; [exact Hlen|eauto].
Qed.

Lemma append_pair_length q p : (length q + String.length p.2 <= length (append_pair q p))%nat.
Proof.
  assert (forall l, length l <= length (byte_serialize l))%nat as Hser.
  { induction l as [|c l IH]; [done|]. cbn [byte_serialize flat_map]. rewrite length_app.
    fold (byte_serialize l). destruct (byte_serialized_unchanged c), (code c =? 32); cbn; lia. }
  unfold append_pair. rewrite !length_app. specialize (Hser (chars p.2)). rewrite length_chars in Hser. lia.
Qed.

Lemma foldl_append_length params q p :
  p ∈ params -> (String.length p.2 <= length (foldl append_pair q params))%nat.
Proof.
  assert (forall params q, length q <= length (foldl append_pair q params))%nat as Hmono.
  { induction params0 as [|x l IH]; intros k; simpl; [done|].
    pose proof (append_pair_length k x). specialize (IH (append_pair k x)). lia. }
  revert q. induction params as [|x l IH]; intros q; [by intros ?%not_elem_of_nil|].
  intros [->|Hp]%elem_of_cons; simpl; [|by apply IH].
  pose proof (append_pair_length q x). specialize (Hmono l (append_pair q x)). lia.
Qed.

Lemma long_url u : 65534 < Z.of_nat (length (url_as_str u)) -> uri_ok u = false.
Proof. intros Hlen. unfold uri_ok, MAX_LEN. replace (_ <=? _) with false by lia. done. Qed.

(** The program gets a token and then panics, whatever the token is. *)
Definition panics_with_token {A} (p : prog HttpE A) : Prop :=
  exists scopes k, p = Vis (GetToken scopes) k /\
    forall token, exists msg k', k (Some (Ok token)) = Vis (LibraryPanic msg) k'.

Lemma authorized_panics {A B} hub m u headers content
    (k : option string -> HttpResponse -> prog HttpE (option (result A DriveError))) (f : _ -> prog HttpE B) :
  65534 < Z.of_nat (length (url_as_str u)) -> panics_with_token (bind (authorized hub m u headers content k) f).
Proof.
  intros Hlen. eexists _, _. split; [reflexivity|]. intros token. unfold send_url, send. rewrite long_url by done.
  by eexists _, _.
Qed.

Lemma long_file_url i params :
  plain i = true -> 65534 < Z.of_nat (String.length i) ->
  65534 < Z.of_nat (length (url_as_str (file_url DriveHub_new i params))).
Proof.
  intros Hi Hlen. assert (i <> ""%string) as Hne by (by intros ->).
  unfold file_url, hub_url, parse_with_params. cbn [DriveHub_new base_path hub_origin].
  change ("/drive/v3/" +:+ "files/" +:+ i) with ("/drive/v3/files/" +:+ i). rewrite parse_file_path by done.
  unfold extend_pairs, url_as_str, target. cbn [url_path]. pose proof (length_chars i).
  rewrite !length_app, !chars_app, !length_app. lia.
Qed.

Lemma long_list_url q order_by n fields token :
  65534 < Z.of_nat (String.length token) ->
  65534 < Z.of_nat (length (url_as_str (list_url DriveHub_new q order_by n fields (Some token)))).
Proof.
  intros Hlen. unfold list_url, hub_url, parse_with_params, extend_pairs, url_as_str, target.
  cbn [url_query]. rewrite !length_app. cbn [length].
  match goal with |- context [foldl append_pair ?q ?params] =>
    pose proof (foldl_append_length params q ("pageToken", token) ltac:(set_solver)) as Hle end.
  cbn [snd] in Hle. lia.
Qed.

End ClientIds.

(** ** What an upload says about the backup *)

Section Metadata.
Context `{ClientLibs}.

(** The metadata of a backup, without the fields that are not set. *)
Definition metadata_value (req : UploadRequest) (folder : string) : Value :=
  Object [("appProperties", Object [("db_name", Str (req_db_name req));
                                    ("format", Str (BackupFormat_as_str (req_format req)));
                                    ("kind", Str (BackupKind_as_str (req_kind req)))]);
          ("mimeType", Str "application/octet-stream");
          ("name", Str (req_name req));
          ("parents", Array [Str folder])].

(** The body that opens an upload says what the backup is: it is JSON that
    reads back as the name, the folder as the only parent, and the format, the
    kind and the name of the database as properties, and nothing else, whatever
    characters the names consist of. *)
Theorem upload_describes_backup req folder :
  from_str (file_to_json (upload_metadata req folder)) = Ok (metadata_value req folder).
Proof.
  assert (remove_json_null_values (file_to_value (upload_metadata req folder)) = metadata_value req folder) as Hv.
  { destruct req as [p n db f k]. unfold upload_metadata. generalize (BackupFormat_as_str f), (BackupKind_as_str k).
    intros sf sk. vm_compute. reflexivity. }
  unfold file_to_json. rewrite Hv. apply from_str_display; [done|]. unfold REMAINING_DEPTH. simpl. lia.
Qed.
End Metadata.

(** ** The chunks of an upload *)

Section Upload.
Context `{ClientLibs} (content : bytes) (url : string) (src : path).

Abbreviation total := (Z.of_nat (length content)).

Definition slice (start len : Z) : bytes := take (Z.to_nat len) (drop (Z.to_nat start) content).

(** The bytes the server has, and how many the client has sent. *)
Abbreviation Session := (bytes * Z)%type.

(** Every request has the next part of the file and says so; nothing is read
    beyond the end. *)
Definition chunk_pre (s : Session) (T : Type) (op : HttpE T) : Prop :=
  match op with
  | SourceRead p start len => p = src /\ 0 <= start /\ 0 <= len <= CHUNK /\ start + len <= total
  | Send r =>
      let len := Z.of_nat (length (req_content r)) in
      req_method r = POST /\ req_url r = chars url /\ req_content r = slice s.2 len /\
      ("content-range"%string, content_range s.2 len total) ∈ req_headers r
  | _ => False
  end.

(** What a part that starts at [pos] adds to the bytes [got]: nothing when it
    leaves a gap. *)
Definition continues (got : bytes) (pos : Z) (part : bytes) : bytes :=
  if Z.of_nat (length got) <? pos then [] else drop (length got - Z.to_nat pos) part.

(** The file is what it was.  The server keeps as much of a part as it likes,
    whether its answer arrives or not; it asks for more only while something is
    missing, and answers with the file only when it has the declared length. *)
Definition chunk_step (s : Session) (e : event HttpE) (s' : Session) : Prop :=
  match e with
  | Ev op r =>
      match op in HttpE T return T -> Prop with
      | SourceRead _ start len => fun r => r = Ok (slice start len) /\ s' = s
      | Send req => fun r =>
          (exists k, s'.1 = s.1 ++ take k (continues s.1 s.2 (req_content req))) /\
          s'.2 = s.2 + Z.of_nat (length (req_content req)) /\
          match r with
          | Some (Ok res) =>
              (res_status res = 308 -> Z.of_nat (length s'.1) < total) /\
              (is_success (res_status res) = true -> Z.of_nat (length s'.1) = total)
          | _ => True
          end
      | _ => fun _ => False
      end r
  end.

(** A server that answers in time and whose 308 means that it has the part. *)
Definition whole_step (s : Session) (e : event HttpE) (s' : Session) : Prop :=
  chunk_step s e s' /\
  match e with
  | Ev op r =>
      match op in HttpE T return T -> Prop with
      | Send req => fun r =>
          match r with
          | Some (Ok res) =>
              collect [] (res_frames res) <> None /\
              (res_status res = 308 -> s'.1 = s.1 ++ continues s.1 s.2 (req_content req))
          | Some (Err _) => True
          | None => False
          end
      | _ => fun _ => True
      end r
  end.

Lemma digits_header_valid n : 0 <= n -> header_valid (int_to_string n) = true.
Proof.
  intros Hd%int_to_string_digits. rewrite Forall_forall in Hd. apply forallb_forall.
  intros c Hc%list_elem_of_In%Hd. lia.
Qed.

Lemma header_valid_app a b : header_valid (a +:+ b) = header_valid a && header_valid b.
Proof. unfold header_valid. by rewrite chars_app, forallb_app. Qed.

Lemma content_range_valid start len : 0 <= start -> header_valid (content_range start len total) = true.
Proof.
  intros Hs. unfold content_range. pose proof (Z.mod_pos_bound (start + len - 1) (U64_MAX + 1) ltac:(done)).
  by rewrite !header_valid_app, !digits_header_valid by lia.
Qed.

Lemma slice_length start len :
  0 <= start -> 0 <= len -> start + len <= total -> Z.of_nat (length (slice start len)) = len.
Proof. intros. unfold slice. rewrite length_take, length_drop. lia. Qed.

Lemma slice_prefix got len :
  got `prefix_of` content -> got ++ slice (Z.of_nat (length got)) len `prefix_of` content.
Proof.
  intros [rest Hc]. unfold slice. rewrite Nat2Z.id, Hc, drop_app_length.
  exists (drop (Z.to_nat len) rest). by rewrite <-app_assoc, take_drop.
Qed.

(** The server has the beginning of the file, and no more than was sent. *)
Definition behind (s : Session) : Prop :=
  s.1 `prefix_of` content /\ Z.of_nat (length s.1) <= s.2 <= total.

Lemma continues_here got part : continues got (Z.of_nat (length got)) part = part.
Proof. unfold continues. rewrite Z.ltb_irrefl, Nat2Z.id, Nat.sub_diag. done. Qed.

Lemma continues_gap got pos part : Z.of_nat (length got) < pos -> continues got pos part = [].
Proof. intros Hlt. unfold continues. by destruct (Z.ltb_spec (Z.of_nat (length got)) pos); [|lia]. Qed.

Lemma behind_step got pos len k :
  behind (got, pos) -> 0 <= len -> pos + len <= total ->
  behind (got ++ take k (continues got pos (slice pos len)), pos + len).
Proof.
  intros [Hpre Hpos] Hlen Hend. cbn [fst snd] in *. split; cbn [fst snd].
  - destruct (decide (pos = Z.of_nat (length got))) as [->|].
    + rewrite continues_here. etrans; [|by apply (slice_prefix got len)]. apply prefix_app, prefix_take.
    + rewrite continues_gap, take_nil, app_nil_r by lia. done.
  - rewrite length_app, length_take. destruct (decide (pos = Z.of_nat (length got))) as [->|].
    + rewrite continues_here. pose proof (slice_length (Z.of_nat (length got)) len ltac:(lia) Hlen Hend). lia.
    + rewrite continues_gap by lia. simpl. lia.
Qed.

Lemma prefix_full (got : bytes) : got `prefix_of` content -> Z.of_nat (length got) = total -> got = content.
Proof.
  intros [rest Hc] Hlen. rewrite Hc, length_app in Hlen. destruct rest; [by rewrite Hc, app_nil_r|simpl in Hlen; lia].
Qed.

(** One round: a part is sent, and the answer decides. *)
Lemma chunk_round step rounds got pos Q :
  (forall s e s', step s e s' -> chunk_step s e s') ->
  uri_text_ok (chars url) = true -> behind (got, pos) ->
  let size := if CHUNK <? total - pos then CHUNK else total - pos in
  0 <= size -> pos + size <= total ->
  (forall r s' req, req_content req = slice pos size -> step (got, pos) (Ev (Send req) r) s' ->
     behind s' -> s'.2 = pos + size ->
     match r with
     | Some (Ok res) =>
         if res_status res =? 308 then wp chunk_pre step (upload_chunks DriveHub_new rounds url src total (pos + size)) Q s'
         else if is_success (res_status res) then Q (decode parse_file res) s'
         else Q (match collect [] (res_frames res) with
                 | None => None
                 | Some _ => Some (Err (Failure (res_status res)))
                 end) s'
     | Some (Err e) => Q (Some (Err (HttpError e))) s'
     | None => Q None s'
     end) ->
  wp chunk_pre step (upload_chunks DriveHub_new (S rounds) url src total pos) Q (got, pos).
Proof.
  intros Hst Huri Hb size Hs Hend Hk. cbn [upload_chunks bind trigger]. cbv zeta. fold size.
  assert (0 <= pos) as Hpos by (destruct Hb as [_ ?]; simpl in *; lia).
  assert (size <= CHUNK) by (unfold size; destruct (Z.ltb_spec CHUNK (total - pos)); lia).
  split; [split_and!; try done; lia|]. intros r s1 Hr. destruct (Hst _ _ _ Hr) as [-> ->].
  unfold send. rewrite Huri. cbn [req_headers forallb snd andb]. rewrite content_range_valid by lia.
  cbn [andb]. change (header_valid _ && _) with true. cbn [bind trigger].
  pose proof (slice_length pos size Hpos Hs Hend) as Hlen.
  split; [unfold chunk_pre; cbn [req_content snd]; rewrite Hlen; split_and!; try done; by left|].
  intros r [got' pos'] Hsend. pose proof (Hst _ _ _ Hsend) as ([k Hgot] & Hpos' & _).
  cbn [fst snd req_content] in *. rewrite Hlen in Hpos'. subst.
  specialize (Hk r _ (mkHttpRequest _ _ _ _) eq_refl Hsend (behind_step got pos size k Hb Hs Hend) eq_refl).
  destruct r as [[res|e]|]; [|exact Hk..].
  destruct (res_status res =? 308); [exact Hk|]. by destruct (is_success (res_status res)).
Qed.

(** The size of a part. *)
Lemma chunk_size pos :
  pos <= total ->
  let size := if CHUNK <? total - pos then CHUNK else total - pos in 0 <= size /\ pos + size <= total.
Proof. intros. assert (0 < CHUNK) by done. subst size. destruct (Z.ltb_spec CHUNK (total - pos)); lia. Qed.

Lemma upload_whole_file rounds got pos :
  uri_text_ok (chars url) = true -> behind (got, pos) ->
  wp chunk_pre chunk_step (upload_chunks DriveHub_new rounds url src total pos)
    (fun r s => forall f, r = Some (Ok f) -> s.1 = content /\ Z.of_nat (length got) = pos) (got, pos).
Proof.
  intros Huri. revert got pos. induction rounds as [|rounds IH]; intros got pos Hb; [done|].
  pose proof (chunk_size pos ltac:(apply Hb)) as [Hs Hend].
  apply chunk_round; [done..|]. intros r [got' pos'] req Hreq ([k Hgot] & _ & Hr) Hb' Hp. simpl in Hgot, Hp. subst pos'.
  assert (Z.of_nat (length got) = pos \/ got' = got /\ Z.of_nat (length got) < pos) as Hgap.
  { destruct (decide (Z.of_nat (length got) = pos)) as [|Hne]; [by left|]. right.
    destruct Hb as [_ Hle]. cbn [fst snd] in *. rewrite Hgot, continues_gap, take_nil, app_nil_r by lia. split; [done|lia]. }
  destruct r as [[res|e]|]; [|done..]. destruct (Z.eqb_spec (res_status res) 308) as [H308|].
  - eapply wp_mono; [|by apply IH]. intros o [g p] Ho f Hf. destruct (Ho f Hf) as [-> Hf']. split; [done|].
    destruct Hgap as [|[-> ?]]; [done|lia].
  - destruct (is_success (res_status res)).
    + intros f _. destruct Hr as [_ Hr]. specialize (Hr eq_refl). cbn [fst] in *. split.
      * apply prefix_full; [apply Hb'|done].
      * destruct Hgap as [|[-> ?]]; [done|]. destruct Hb as [_ Hb]. simpl in Hb. lia.
    + by destruct (collect [] (res_frames res)).
Qed.

Lemma upload_answers rounds got :
  uri_text_ok (chars url) = true -> behind (got, Z.of_nat (length got)) ->
  (total - Z.of_nat (length got)) / CHUNK < Z.of_nat rounds ->
  wp chunk_pre whole_step (upload_chunks DriveHub_new rounds url src total (Z.of_nat (length got)))
    (fun r _ => r <> None) (got, Z.of_nat (length got)).
Proof.
  intros Huri. revert got. induction rounds as [|rounds IH]; intros got Hb Hr.
  { destruct Hb as [_ Hb]. simpl in Hb.
    pose proof (Z.div_pos (total - Z.of_nat (length got)) CHUNK ltac:(lia) ltac:(done)). lia. }
  pose proof (chunk_size (Z.of_nat (length got)) ltac:(apply Hb)) as [Hs Hend].
  apply chunk_round; [by intros ??? []|done..|]. intros r [got' pos'] req Hreq [(_ & _ & Hc) Hw] Hb' Hp. cbn [fst snd] in *.
  destruct r as [[res|e]|]; [|done..]. destruct Hw as [Hcol Hw]. destruct (Z.eqb_spec (res_status res) 308) as [H308|].
  - specialize (Hw H308). rewrite continues_here, Hreq in Hw. destruct Hc as [Hc _]. specialize (Hc H308).
    pose proof (slice_length (Z.of_nat (length got)) _ ltac:(lia) Hs Hend) as Hlen.
    assert (Z.of_nat (length got') = pos') as Hg by (rewrite Hw, length_app; lia). rewrite <-Hp, <-Hg.
    rewrite <-Hg in Hb'. apply IH; [done|].
    destruct (Z.ltb_spec CHUNK (total - Z.of_nat (length got))); [|lia].
    replace (total - Z.of_nat (length got')) with (total - Z.of_nat (length got) + (-1) * CHUNK) by lia.
    rewrite Z.div_add by done. lia.
  - unfold decode. destruct (collect [] (res_frames res)); [|done]. destruct (is_success _); [|done].
    by destruct (parse_file _).
Qed.

(** C20. An upload carries the file.  Every request has the next part of it and
    the range that says which part that is.  Whatever the server keeps of the
    parts and however it answers, an upload that succeeds has left exactly the
    content there.  With a server that takes the parts whole, as many rounds as
    the file has chunks are enough for an answer.  But a server may keep only
    the beginning of a part, and the library ignores the range such an answer
    confirms: once a byte is missing the next part leaves a gap, and the upload
    cannot succeed any more. *)
Theorem upload_carries_file rounds :
  uri_text_ok (chars url) = true ->
  wp chunk_pre chunk_step (upload_chunks DriveHub_new rounds url src total 0)
    (fun r s => forall f, r = Some (Ok f) -> s.1 = content) ([], 0) /\
  (total / CHUNK < Z.of_nat rounds ->
   wp chunk_pre whole_step (upload_chunks DriveHub_new rounds url src total 0) (fun r _ => r <> None) ([], 0)) /\
  (forall got pos, got `prefix_of` content -> Z.of_nat (length got) < pos <= total ->
   wp chunk_pre chunk_step (upload_chunks DriveHub_new rounds url src total pos)
     (fun r _ => forall f, r <> Some (Ok f)) (got, pos)).
Proof.
  intros Huri. assert (behind ([], 0)) as Hb by (split; [apply prefix_nil|simpl; lia]). split_and!.
  - eapply wp_mono; [|by apply upload_whole_file]. intros r s Hr f Hf. by destruct (Hr f Hf).
  - intros Hr. apply (upload_answers rounds [] Huri Hb). by rewrite Z.sub_0_r.
  - intros got pos Hpre Hpos. eapply wp_mono; [|apply (upload_whole_file rounds got pos Huri); split; simpl; [done|lia]].
    intros r s Hr f Hf. destruct (Hr f Hf) as [_ ?]. lia.
Qed.
End Upload.

(** ** Witnesses *)

Definition plain_libs : ClientLibs :=
  {| libs_floats := {| f64_from_parts := fun _ _ _ => None; f64_neg := fun _ => "-0.0"; f64_zero := fun _ => "0.0" |};
     parse_file := fun _ => Err "no JSON"; parse_file_list := fun _ => Err "no JSON";
     datetime_text := fun _ => "1970-01-01T00:00:00Z"; uri_text_ok := fun _ => true |}.

Definition sample_metadata : File :=
  mkFile None (Some "a.pgdump") None None None None (Some ["folder"]) None None.



(** A file of two bytes, of which the server has kept one. *)
Definition two_bytes : bytes := [chr 1; chr 2].

Lemma upload_carries_file_witness :
  wp (chunk_pre two_bytes "u" "f") (chunk_step two_bytes)
    (upload_chunks (H := plain_libs) DriveHub_new 1 "u" "f" 2 0) (fun r s => forall f, r = Some (Ok f) -> s.1 = two_bytes) ([], 0) /\
  wp (chunk_pre two_bytes "u" "f") (whole_step two_bytes)
    (upload_chunks (H := plain_libs) DriveHub_new 1 "u" "f" 2 0) (fun r _ => r <> None) ([], 0) /\
  wp (chunk_pre two_bytes "u" "f") (chunk_step two_bytes)
    (upload_chunks (H := plain_libs) DriveHub_new 1 "u" "f" 2 2) (fun r _ => forall f, r <> Some (Ok f)) ([chr 1], 2).
Proof.
  destruct (upload_carries_file (H := plain_libs) two_bytes "u" "f" 1 eq_refl) as (Hw & Ha & Hg).
  split_and!; [exact Hw|by apply Ha|]. apply (Hg [chr 1] 2); [by exists [chr 2]|simpl; lia].
Defined.

