(* ===== verification/HttpFake.v ===== *)
(** * [backup-gdrive/src/fake.rs]: the HTTP server of the tests

    It reads requests from a socket, piece by piece as they arrive, logs their
    first lines and replays the given replies in order.  The theorems: how a
    request is cut into pieces does not matter, and the reply it writes
    announces exactly its body. *)

From Stdlib Require Import ZArith Lia Ascii.
From stdpp Require Import base numbers gmap sorting strings list.
From S2P Require Import Prelude RustStd Json Utf8 Chrono Core Ports Drive.
Open Scope Z_scope.
Open Scope rust_scope.

Definition CR : ascii := chr 13.
Definition LF : ascii := chr 10.

(** ** [str::lines], [split_once], [rsplitn] *)

(** The lines of [l]; a line loses its LF, and the CR before it. *)
Definition strip_cr (r : list ascii) : list ascii :=
  match r with c :: r => if Ascii.eqb c CR then r else c :: r | [] => [] end.

(** [r] is the current line, backwards. *)
Fixpoint lines_from (r l : list ascii) : list (list ascii) :=
  match l with
  | [] => match r with [] => [] | _ => [rev r] end
  | c :: l => if Ascii.eqb c LF then rev (strip_cr r) :: lines_from [] l else lines_from (c :: r) l
  end.

Definition lines (s : string) : list (list ascii) := lines_from [] (chars s).

Fixpoint split_once (c : ascii) (l : list ascii) : option (list ascii * list ascii) :=
  match l with
  | [] => None
  | x :: l => if Ascii.eqb x c then Some ([], l) else '(k, v) ← split_once c l; Some (x :: k, v)
  end.

(** [l.rsplitn(2, c).last()]: what is before the last [c], or all of it. *)
Definition before_last (c : ascii) (l : list ascii) : list ascii :=
  match split_once c (rev l) with Some (_, r) => rev r | None => l end.

(** ** Reading a request *)

(** The answer of one [stream.read]: at most 4096 bytes, none at the end. *)
Inductive Read := Chunk (b : bytes) | ReadError.

(** [find_map] over the lines. *)
Fixpoint find_length (ls : list (list ascii)) : option Z :=
  match ls with
  | [] => None
  | l :: ls =>
      let found :=
        '(k, v) ← split_once ":"%char l;
        if eq_ignore_ascii_case (of_chars k) "content-length"
        then result_ok (parse_usize (trim (of_chars v))) else None in
      match found with Some n => Some n | None => find_length ls end
  end.

Definition content_length (head : string) : Z := default 0 (find_length (lines head)).

(** [buf.windows(4).position(|w| w == b"\r\n\r\n")]. *)
Fixpoint blank_line (l : bytes) : option nat :=
  if bool_decide (take 4 l = [CR; LF; CR; LF]) then Some 0%nat
  else match l with [] => None | _ :: l => S <$> blank_line l end.

(** The first loop: the bytes read, the end of the head in them, and the reads
    that are left. *)
Fixpoint read_head (buf : bytes) (reads : list Read) : option (bytes * nat * list Read) :=
  match reads with
  | [] | ReadError :: _ => None
  | Chunk c :: reads =>
      if (length c =? 0)%nat then None
      else
        let buf := buf ++ c in
        match blank_line buf with
        | Some pos => Some (buf, (pos + 4)%nat, reads)
        | None => read_head buf reads
        end
  end.

(** The second loop. *)
Fixpoint read_body (remaining : Z) (reads : list Read) : option (list Read) :=
  if remaining =? 0 then Some reads
  else
    match reads with
    | [] => Some []
    | ReadError :: _ => None
    | Chunk c :: reads =>
        if (length c =? 0)%nat then Some reads
        else read_body (Z.max 0 (remaining - Z.of_nat (length c))) reads
    end.

(** The request line without the protocol. *)
Definition request_line (head : string) : option string :=
  (fun l => of_chars (before_last " "%char l)) <$> hd_error (lines head).

Definition read_request (reads : list Read) : option (string * list Read) :=
  '(buf, head_end, reads) ← read_head [] reads;
  let head := from_utf8_lossy (take head_end buf) in
  let remaining := Z.max 0 (content_length head - Z.of_nat (length buf - head_end)) in
  reads ← read_body remaining reads;
  line ← request_line head;
  Some (line, reads).

(** ** Replies *)

Record Reply := mkReply { status : Z; headers : list (string * string); body : bytes }.

Definition Reply_json (status : Z) (body : Value) : Reply :=
  mkReply status [("Content-Type", "application/json")] (chars (value_display body)).
Definition Reply_bytes (body : bytes) : Reply :=
  mkReply 200 [("Content-Type", "application/octet-stream")] body.

Definition crlf : string := of_chars [CR; LF].

Definition reply_head (r : Reply) : string :=
  let head := "HTTP/1.1 " +:+ int_to_string (status r) +:+ " X" +:+ crlf +:+
              "Content-Length: " +:+ int_to_string (Z.of_nat (length (body r))) +:+ crlf in
  foldl (fun head '(k, v) => head +:+ k +:+ ": " +:+ v +:+ crlf) head (headers r) +:+ crlf.

(** ** The server *)

(** A connection: what arrives on it, and which replies can be written. *)
Record Connection := mkConnection { conn_reads : list Read; conn_writes : list bool }.

Record FakeDrive := mkFakeDrive {
  requests : list string;
  replies : list Reply;
  written : list bytes;
}.

(** The inner loop; [false] when the task returns for want of a reply.  Every
    round takes at least one read, so that their number bounds the rounds. *)
Fixpoint serve_connection (rounds : nat) (reads : list Read) (writes : list bool) (f : FakeDrive) : bool * FakeDrive :=
  match rounds with
  | O => (true, f)
  | S rounds =>
      match read_request reads with
      | None => (true, f)
      | Some (line, reads) =>
          let log := requests f ++ [line] in
          match replies f with
          | [] => (false, mkFakeDrive log [] (written f))
          | reply :: rest =>
              match writes with
              | true :: writes =>
                  serve_connection rounds reads writes
                    (mkFakeDrive log rest (written f ++ [chars (reply_head reply) ++ body reply]))
              | _ => (true, mkFakeDrive log rest (written f))
              end
          end
      end
  end.

(** The outer loop: one connection after the other. *)
Fixpoint serve_connections (conns : list Connection) (f : FakeDrive) : FakeDrive :=
  match conns with
  | [] => f
  | c :: conns =>
      let '(go_on, f) := serve_connection (length (conn_reads c)) (conn_reads c) (conn_writes c) f in
      if go_on then serve_connections conns f else f
  end.

Definition start (replies : list Reply) (conns : list Connection) : FakeDrive :=
  serve_connections conns (mkFakeDrive [] replies []).

(** ** Requests in pieces *)

Lemma blank_line_bound l p : blank_line l = Some p -> (p + 4 <= length l)%nat.
Proof.
  revert p. induction l as [|c l IH]; intros p; [done|]. cbn [blank_line].
  - case_bool_decide as Ht.
    + intros [= <-]. apply (f_equal length) in Ht. rewrite length_take in Ht. cbn [length] in *. lia.
    + intros (q & Hq & ->)%fmap_Some. apply IH in Hq. cbn [length]. lia.
Qed.

Lemma blank_line_app l k p : blank_line l = Some p -> blank_line (l ++ k) = Some p.
Proof.
  revert p. induction l as [|c l IH]; intros p Hp; [done|].
  - pose proof (blank_line_bound _ _ Hp) as Hlen. cbn [app blank_line] in *.
    assert (take 4 (c :: l ++ k) = take 4 (c :: l)) as ->.
    { change (c :: l ++ k) with ((c :: l) ++ k). apply take_app_le. lia. }
    case_bool_decide; [done|]. apply fmap_Some in Hp as (q & Hq & ->). by rewrite (IH q Hq).
Qed.

(** A proper prefix of the head has no blank line yet. *)
Lemma blank_line_before head b k :
  blank_line head = Some (length head - 4)%nat -> head = b ++ k -> k <> [] -> blank_line b = None.
Proof.
  intros Hh -> Hk. destruct (blank_line b) as [q|] eqn:Hq; [|done]. exfalso.
  pose proof (blank_line_bound _ _ Hq). rewrite (blank_line_app _ k _ Hq), length_app in Hh. injection Hh as Hh.
  destruct k; [done|]. simpl in Hh. lia.
Qed.

Lemma read_body_chunks cs rest :
  Forall (fun c : bytes => c <> []) cs ->
  read_body (Z.of_nat (length (concat cs))) ((Chunk <$> cs) ++ rest) = Some rest.
Proof.
  induction 1 as [|c cs Hc _ IH]; [by destruct rest|]. cbn [concat fmap list_fmap app read_body].
  assert (0 < length c)%nat by (destruct c; simpl; [done|lia]). rewrite length_app.
  rewrite (proj2 (Z.eqb_neq _ _)) by lia. rewrite (proj2 (Nat.eqb_neq _ _)) by lia.
  rewrite <-IH. f_equal. lia.
Qed.

Lemma read_head_chunks head body cs buf rest :
  blank_line head = Some (length head - 4)%nat -> blank_line buf = None ->
  Forall (fun c : bytes => c <> []) cs -> buf ++ concat cs = head ++ body ->
  exists buf' cs', read_head buf ((Chunk <$> cs) ++ rest) = Some (buf', length head, (Chunk <$> cs') ++ rest) /\
    Forall (fun c : bytes => c <> []) cs' /\ buf' ++ concat cs' = head ++ body /\ (length head <= length buf')%nat.
Proof.
  intros Hh Hb Hcs. revert buf Hb. pose proof (blank_line_bound _ _ Hh) as Hlen.
  induction Hcs as [|c cs Hc Hcs IH]; intros buf Hb Heq.
  - exfalso. rewrite app_nil_r in Heq. subst. by rewrite (blank_line_app _ _ _ Hh) in Hb.
  - cbn [fmap list_fmap app read_head]. rewrite (proj2 (Nat.eqb_neq _ _)) by (by destruct c).
    cbn [concat] in Heq. rewrite app_assoc in Heq.
    destruct (decide (length head <= length (buf ++ c))%nat) as [Hle|Hlt].
    + assert (exists k, buf ++ c = head ++ k) as [k Hk].
      { destruct (app_eq_inv _ _ _ _ Heq) as [(k & Hk & _)|(k & Hk & _)]; [eauto|].
        exists []. rewrite app_nil_r. apply (f_equal length) in Hk as Hkl. rewrite length_app in Hkl.
        assert (k = []) as -> by (destruct k; [done|cbn [length] in Hkl; lia]). by rewrite app_nil_r in Hk. }
      rewrite Hk, (blank_line_app _ _ _ Hh). exists (head ++ k), cs. split_and!.
      * by replace (length head - 4 + 4)%nat with (length head) by lia.
      * done.
      * by rewrite <-Hk.
      * rewrite length_app. lia.
    + assert (exists k, head = (buf ++ c) ++ k /\ k <> []) as (k & Hk & Hne).
      { destruct (app_eq_inv _ _ _ _ Heq) as [(k & Hk & _)|(k & Hk & _)].
        - rewrite Hk, length_app in Hlt. lia.
        - exists k. split; [done|]. intros ->. rewrite app_nil_r in Hk. subst. lia. }
      rewrite (blank_line_before _ _ _ Hh Hk Hne). apply IH; [by eapply blank_line_before|done].
Qed.

(** A request is read the same however it arrives: cut into pieces of any
    sizes, in the middle of the head, of the blank line or of the body, it
    gives its request line, and exactly its bytes are taken from the
    socket. *)
Lemma read_request_any_pieces head body cs rest :
  blank_line head = Some (length head - 4)%nat ->
  content_length (from_utf8_lossy head) = Z.of_nat (length body) ->
  Forall (fun c : bytes => c <> []) cs -> concat cs = head ++ body ->
  read_request ((Chunk <$> cs) ++ rest) =
    (fun line => (line, rest)) <$> request_line (from_utf8_lossy head).
Proof.
  intros Hh Hlen Hcs Hcat.
  destruct (read_head_chunks head body cs [] rest Hh) as (buf & cs' & Hr & Hcs' & Hcat' & Hle); [done..|].
  unfold read_request. rewrite Hr. cbn [mbind option_bind].
  assert (take (length head) buf = head) as ->.
  { rewrite <-(take_app_le buf (concat cs')), Hcat' by done. apply take_app_length. }
  replace (Z.max 0 (content_length (from_utf8_lossy head) - Z.of_nat (length buf - length head)))
    with (Z.of_nat (length (concat cs'))).
  - rewrite read_body_chunks by done. cbn [mbind option_bind]. by destruct (request_line _).
  - apply (f_equal length) in Hcat'. rewrite !length_app in Hcat'. rewrite Hlen. lia.
Qed.

(** ** Replies in order *)

(** The pieces of one request with this request line. *)
Definition pieces_of (line : string) (cs : list bytes) : Prop :=
  exists head body, blank_line head = Some (length head - 4)%nat /\
    content_length (from_utf8_lossy head) = Z.of_nat (length body) /\
    Forall (fun c : bytes => c <> []) cs /\ concat cs = head ++ body /\
    request_line (from_utf8_lossy head) = Some line.

Definition reply_data (r : Reply) : bytes := chars (reply_head r) ++ body r.

Lemma pieces_nonempty line cs : pieces_of line cs -> cs <> [].
Proof.
  intros (head & b & Hh & _ & _ & Hcat & _) ->. apply blank_line_bound in Hh. symmetry in Hcat.
  apply app_eq_nil in Hcat as [-> _]. simpl in Hh. lia.
Qed.

Lemma read_request_pieces line cs rest :
  pieces_of line cs -> read_request ((Chunk <$> cs) ++ rest) = Some (line, rest).
Proof.
  intros (head & b & Hh & Hlen & Hne & Hcat & Hline).
  by rewrite (read_request_any_pieces head b), Hline.
Qed.

(** The test server replays: a client that sends requests one after the
    other, each cut into any pieces, gets the prepared replies in their order,
    and the log has the request lines in the order of arrival. *)
Theorem replies_in_order lines css rs f rounds :
  Forall2 pieces_of lines css -> length rs = length lines -> (length lines <= rounds)%nat -> replies f = rs ->
  serve_connection rounds (concat (map (fun cs => Chunk <$> cs) css)) (replicate (length lines) true) f =
    (true, mkFakeDrive (requests f ++ lines) [] (written f ++ map reply_data rs)).
Proof.
  intros Hp. revert rs f rounds. induction Hp as [|line cs lines css Hline _ IH]; intros rs f rounds Hlen Hr Hrs.
  - destruct rs; [|done]. assert (read_request [] = None) as Hnone by done.
    destruct rounds; simpl; rewrite ?app_nil_r; by destruct f; simpl in *; subst.
  - destruct rs as [|r rs]; [done|]. destruct rounds as [|rounds]; [simpl in Hr; lia|].
    cbn [serve_connection map concat length replicate]. rewrite (read_request_pieces line) by done. rewrite Hrs.
    rewrite (IH rs); [|by injection Hlen|simpl in Hr; lia|done]. cbn [requests written].
    by rewrite <-!app_assoc.
Qed.

(** ** The reply reads back *)

Lemma digit_not (c d : ascii) : 48 <= code d <= 57 -> ~ 48 <= code c <= 57 -> c <> d.
Proof. intros Hd Hc ->. done. Qed.

Lemma int_to_string_nonneg n : 0 <= n -> chars (int_to_string n) = nat_digits n.
Proof. intros Hn. unfold int_to_string. rewrite (proj2 (Z.ltb_ge _ _)) by lia. apply chars_of_chars. Qed.

Lemma nat_digits_decimal n : 0 <= n -> Forall (fun c => 48 <= code c <= 57) (nat_digits n).
Proof. apply digits_decimal. Qed.

Lemma lines_crlf l rest : LF ∉ l -> lines_from [] (l ++ CR :: LF :: rest) = l :: lines_from [] rest.
Proof.
  intros Hl. assert (forall r, lines_from r (l ++ CR :: LF :: rest) = (rev r ++ l) :: lines_from [] rest) as Hgen.
  { induction l as [|c l IH]; intros r.
    - cbn [app lines_from]. change (Ascii.eqb CR LF) with false. change (Ascii.eqb LF LF) with true. cbn [strip_cr].
      change (Ascii.eqb CR CR) with true. by rewrite app_nil_r.
    - apply not_elem_of_cons in Hl as [Hc Hl]. cbn [app lines_from].
      destruct (Ascii.eqb_spec c LF) as [->|_]; [done|]. rewrite IH by done. cbn [rev]. by rewrite <-app_assoc. }
  apply (Hgen []).
Qed.

Lemma split_once_notin c l : c ∉ l -> split_once c l = None.
Proof.
  induction l as [|x l IH]; [done|]. intros [Hx Hl]%not_elem_of_cons. simpl.
  destruct (Ascii.eqb_spec x c) as [->|_]; [done|]. by rewrite IH.
Qed.

Lemma white_space_digits l : Forall (fun c => 48 <= code c <= 57) l -> white_space l = false.
Proof.
  intros Hl. unfold white_space. destruct l as [|a [|b [|c [|d l]]]]; cbn [fmap list_fmap]; [done|..|done];
    apply Forall_cons in Hl as [Ha _]; unfold in_range; lia.
Qed.

Lemma trim_digits l :
  l <> [] -> Forall (fun c => 48 <= code c <= 57) l -> trim (of_chars (" "%char :: l)) = of_chars l.
Proof.
  intros Hne Hl. unfold trim. rewrite chars_of_chars, <-length_chars, chars_of_chars. cbn [length trim_front take].
  change (white_space [" "%char]) with true. cbn [drop].
  assert (forall n, trim_front n l = l) as ->.
  { intros [|n]; [done|]. cbn [trim_front].
    by rewrite !white_space_digits by (by apply Forall_take). }
  unfold trim_end_chars. assert (forall n, trim_back n (reverse l) = reverse l) as ->.
  { intros [|n]; [done|]. cbn [trim_back].
    by rewrite !white_space_digits by (apply Forall_reverse, Forall_take, Forall_reverse; done). }
  by rewrite reverse_involutive.
Qed.

(** The lines of a reply. *)
Definition status_line (r : Reply) : list ascii :=
  chars "HTTP/1.1 " ++ chars (int_to_string (status r)) ++ chars " X".
Definition length_line (r : Reply) : list ascii :=
  chars "Content-Length: " ++ chars (int_to_string (Z.of_nat (length (body r)))).
Definition header_line (h : string * string) : list ascii := chars h.1 ++ chars ": " ++ chars h.2.

Definition header_block (hs : list (string * string)) : list ascii :=
  concat (map (fun h => header_line h ++ [CR; LF]) hs) ++ [CR; LF].

Lemma reply_head_lines r :
  chars (reply_head r) = status_line r ++ CR :: LF :: length_line r ++ CR :: LF :: header_block (headers r).
Proof.
  assert (forall hs h0, chars (foldl (fun head '(k, v) => head +:+ k +:+ ": " +:+ v +:+ crlf) h0 hs +:+ crlf) =
    chars h0 ++ header_block hs) as Hf.
  { induction hs as [|[k v] hs IH]; intros h0; cbn [foldl].
    - by rewrite chars_app.
    - rewrite IH, !chars_app. unfold header_block, header_line. cbn [map concat fst snd].
      unfold crlf. rewrite chars_of_chars, <-!app_assoc. done. }
  unfold reply_head. rewrite Hf, !chars_app. unfold crlf. rewrite !chars_of_chars. unfold status_line, length_line.
  by rewrite <-!app_assoc.
Qed.

Lemma notin_digits c n : 0 <= n -> ~ 48 <= code c <= 57 -> c ∉ chars (int_to_string n).
Proof.
  intros Hn Hc Hin. rewrite int_to_string_nonneg in Hin by done. pose proof (nat_digits_decimal n Hn) as Hd.
  rewrite Forall_forall in Hd. by apply Hd in Hin.
Qed.


Lemma blank_line_skip l k : CR ∉ l -> blank_line (l ++ k) = (fun p => (length l + p)%nat) <$> blank_line k.
Proof.
  induction l as [|c l IH]; intros Hl; [cbn [app]; by destruct (blank_line k)|]. apply not_elem_of_cons in Hl as [Hc Hl].
  cbn [app blank_line]. rewrite bool_decide_false by (cbn [take]; congruence). rewrite IH by done.
  by destruct (blank_line k).
Qed.

Lemma blank_line_crlf x k :
  x <> CR -> blank_line (CR :: LF :: x :: k) = (fun p => S (S p)) <$> blank_line (x :: k).
Proof.
  intros Hx. cbn [blank_line]. rewrite bool_decide_false by (cbn [take]; congruence).
  rewrite bool_decide_false by (cbn [take]; discriminate). by destruct (blank_line (x :: k)) eqn:Hb; cbn [blank_line] in Hb; rewrite Hb.
Qed.

(** [c] is none of the fixed characters of the first two lines. *)
Ltac fixed_chars := apply (bool_decide_unpack _); by vm_compute.

Lemma status_line_ok r : 0 <= status r -> (CR ∉ status_line r) /\ (LF ∉ status_line r) /\ ":"%char ∉ status_line r.
Proof.
  intros Hs. unfold status_line. rewrite !not_elem_of_app.
  split_and!; try fixed_chars; (apply notin_digits; [done|by vm_compute; intros []]).
Qed.

Lemma length_line_ok r : (CR ∉ length_line r) /\ LF ∉ length_line r.
Proof.
  unfold length_line. rewrite !not_elem_of_app.
  split_and!; try fixed_chars; (apply notin_digits; [lia|by vm_compute; intros []]).
Qed.

Lemma header_block_blank hs :
  Forall (fun h => CR ∉ chars h.1 ++ chars h.2) hs ->
  blank_line (CR :: LF :: header_block hs) = Some (length (header_block hs) - 2)%nat.
Proof.
  intros Hhs. induction Hhs as [|h hs Hh _ IH]; [done|].
  assert (CR ∉ header_line h) as Hcr.
  { unfold header_line. rewrite !not_elem_of_app in *. destruct Hh. split_and!; [done| |done]. fixed_chars. }
  assert (exists x k, header_line h = x :: k) as (x & k & Hl).
  { unfold header_line. destruct (chars h.1) as [|x k]; [by exists ":"%char, (" "%char :: chars h.2)|by eexists x, _]. }
  assert (header_block (h :: hs) = header_line h ++ CR :: LF :: header_block hs) as ->.
  { unfold header_block. cbn [map concat]. by rewrite <-!app_assoc. }
  rewrite Hl in *. cbn [app]. rewrite blank_line_crlf by set_solver.
  change (x :: k ++ CR :: LF :: header_block hs) with ((x :: k) ++ CR :: LF :: header_block hs).
  rewrite blank_line_skip, IH by done. cbn [fmap option_fmap option_map]. f_equal.
  assert (2 <= length (header_block hs))%nat by (unfold header_block; rewrite length_app; simpl; lia).
  rewrite length_app. cbn [length]. lia.
Qed.

(** What the test server writes reads back: in the bytes of a reply the
    head ends exactly where the body starts, and the head announces the
    length of the body. *)
Theorem reply_reads_back r :
  0 <= status r -> Z.of_nat (length (body r)) <= USIZE_MAX ->
  Forall (fun h => CR ∉ chars h.1 ++ chars h.2) (headers r) ->
  blank_line (reply_data r) = Some (length (chars (reply_head r)) - 4)%nat /\
  content_length (reply_head r) = Z.of_nat (length (body r)).
Proof.
  intros Hs Hb Hh. destruct (status_line_ok r Hs) as (Hcr & Hlf & Hcolon), (length_line_ok r) as (Hcr' & Hlf').
  split.
  - unfold reply_data. apply blank_line_app. rewrite reply_head_lines, blank_line_skip by done.
    assert (exists k, length_line r = "C"%char :: k) as [k Hk] by (by eexists).
    rewrite Hk in *. cbn [app]. rewrite blank_line_crlf by done.
    change ("C"%char :: k ++ CR :: LF :: header_block (headers r))
      with (("C"%char :: k) ++ CR :: LF :: header_block (headers r)).
    rewrite blank_line_skip, header_block_blank by done. cbn [fmap option_fmap option_map]. f_equal.
    assert (2 <= length (header_block (headers r)))%nat by (unfold header_block; rewrite length_app; simpl; lia).
    rewrite !length_app. cbn [length]. rewrite !length_app. cbn [length]. lia.
  - unfold content_length, lines. rewrite reply_head_lines, lines_crlf, lines_crlf by done. cbn [find_length].
    rewrite split_once_notin by done. cbn [mbind option_bind].
    assert (split_once ":"%char (length_line r) =
      Some (chars "Content-Length", " "%char :: nat_digits (Z.of_nat (length (body r))))) as ->.
    { unfold length_line. rewrite int_to_string_nonneg by lia. done. }
    cbn [mbind option_bind]. change (eq_ignore_ascii_case _ _) with true. cbv iota.
    assert (nat_digits (Z.of_nat (length (body r))) <> []) as Hne by apply digits_nonempty.
    rewrite trim_digits by (done || apply nat_digits_decimal; lia).
    replace (of_chars (nat_digits (Z.of_nat (length (body r))))) with (int_to_string (Z.of_nat (length (body r))))
      by (apply chars_inj; rewrite int_to_string_nonneg, chars_of_chars by lia; done).
    unfold parse_usize. rewrite int_to_string_roundtrip; [done|by vm_compute|lia].
Qed.

(** ** Witnesses *)

(** A request with a body, cut inside the blank line and inside the body. *)
Definition sample_head : bytes :=
  chars "POST /upload/session-1 HTTP/1.1" ++ [CR; LF] ++ chars "content-length: 5" ++ [CR; LF; CR; LF].
Definition sample_pieces : list bytes :=
  [take 20 sample_head; take 31 (drop 20 sample_head); drop 51 sample_head ++ chars "du"; chars "mp!"].

Lemma sample_pieces_ok : pieces_of "POST /upload/session-1" sample_pieces.
Proof.
  exists sample_head, (chars "dump!"). split_and!; [by vm_compute..| |by vm_compute|by vm_compute].
  by repeat constructor.
Qed.

Lemma replies_in_order_witness :
  serve_connection 4 (Chunk <$> sample_pieces) [true] (mkFakeDrive [] [Reply_bytes (chars "ok")] []) =
    (true, mkFakeDrive ["POST /upload/session-1"] [] [reply_data (Reply_bytes (chars "ok"))]).
Proof.
  apply (replies_in_order ["POST /upload/session-1"] [sample_pieces] [Reply_bytes (chars "ok")]
    (mkFakeDrive [] [Reply_bytes (chars "ok")] []) 4); [|done|simpl; lia|done].
  constructor; [exact sample_pieces_ok|constructor].
Defined.

Lemma reply_reads_back_witness :
  content_length (reply_head (Reply_bytes (chars "pgdump-bytes"))) = 12.
Proof.
  apply (reply_reads_back (Reply_bytes (chars "pgdump-bytes"))); [done|by vm_compute|].
  constructor; [apply (bool_decide_unpack _); by vm_compute|constructor].
Defined.
