(* ===== verification/Compression.v ===== *)
(** * [backup-core/src/compression.rs]: decompressing legacy backups

    [decompress_file] as a program over the file system, what it leaves, and
    what happens when the request that waits for it is cancelled. *)

From Stdlib Require Import ZArith Lia Ascii.
From stdpp Require Import base numbers gmap sorting strings list relations.
From S2P Require Import Prelude RustStd Chrono Core Ports.
Open Scope Z_scope.
Open Scope rust_scope.

(** [File::open], [File::create], [zstd::stream::copy_decode] from the one to
    the other, and [flush]; errors are their texts. *)
Inductive FsE : Type -> Type :=
| FsOpen (p : path) : FsE (result unit string)
| FsCreate (p : path) : FsE (result unit string)
| FsCopyDecode (src dst : path) : FsE (result unit string)
| FsFlush (p : path) : FsE (result unit string).

Definition decompress_file `{RustFmt} (src dst : path) : prog FsE (Result unit) :=
  let* r := call (FsOpen src) in
  match result_map_err (Error_io ("Could not open " +:+ str_debug src)) r with
  | Err e => Ret (Err e)
  | Ok _ =>
      let* r := call (FsCreate dst) in
      match result_map_err (Error_io ("Could not create " +:+ str_debug dst)) r with
      | Err e => Ret (Err e)
      | Ok _ =>
          let* r := call (FsCopyDecode src dst) in
          match result_map_err (Error_io "Could not decompress legacy backup") r with
          | Err e => Ret (Err e)
          | Ok _ =>
              let* r := call (FsFlush dst) in
              Ret (result_map_err (Error_io "Could not write decompressed backup") r)
          end
      end
  end.

Section Files.
Context `{RustFmt, PgFormat}.

(** The local files after a call. *)
Definition fs_step (w : gmap path bytes) (e : event FsE) (w' : gmap path bytes) : Prop :=
  match e with
  | Ev op r =>
      match op in FsE T return T -> Prop with
      | FsOpen p => fun r => w' = w /\ (r = Ok tt -> is_Some (w !! p))
      | FsCreate p => fun r => w' = match r with Ok _ => <[p := []]> w | Err _ => w end
      | FsCopyDecode src dst => fun r =>
          match r with
          | Ok _ => exists c j, w !! src = Some c /\ zstd_decode c = Some j /\ w' = <[dst := j]> w
          | Err _ => exists c, w' = <[dst := c]> w
          end
      | FsFlush p => fun r => match r with Ok _ => w' = w | Err _ => exists c, w' = <[p := c]> w end
      end r
  end.

Definition fs_any (w : gmap path bytes) (T : Type) (e : FsE T) : Prop := True.

Lemma fs_Vis {A T} (op : FsE T) (k : T -> prog FsE A) Q w :
  (forall r w', fs_step w (Ev op r) w' -> wp fs_any fs_step (k r) Q w') ->
  wp fs_any fs_step (Vis op k) Q w.
Proof. done. Qed.

(** What the contract of the port asks of a decompression. *)
Lemma decompress_wp src dst w :
  is_Some (w !! dst) -> src <> dst ->
  wp fs_any fs_step (decompress_file src dst) (fun r w' =>
    is_Some (w' !! dst) /\ delete dst w' = delete dst w /\
    (r = Ok tt -> exists c j, w !! src = Some c /\ zstd_decode c = Some j /\ w' = <[dst := j]> w)) w.
Proof.
  intros Hdst Hne. unfold decompress_file. cbn [bind trigger].
  assert (forall c, is_Some (<[dst := c]> w !! dst) /\ delete dst (<[dst := c]> w) = delete dst w) as Hins.
  { intros c. rewrite lookup_insert_eq, delete_insert_eq. eauto. }
  apply fs_Vis. intros [[]|e] w1 [-> _]; [|by split_and!].
  apply fs_Vis. intros [[]|e] w1 ->; [|by split_and!].
  apply fs_Vis. intros [[]|e] w1 Hs; cbn [fs_step] in Hs.
  - destruct Hs as (c & j & Hc & Hj & ->). rewrite lookup_insert_ne in Hc by done.
    rewrite insert_insert_eq. apply fs_Vis. intros [[]|e] w2 Hs; cbn [fs_step] in Hs.
    + subst w2. destruct (Hins j) as [H1 H2]. split_and!; [done..|]. intros _. eauto 10.
    + destruct Hs as [c' ->]. rewrite insert_insert_eq. destruct (Hins c') as [H1 H2]. by split_and!.
  - destruct Hs as [c ->]. rewrite insert_insert_eq. destruct (Hins c) as [H1 H2]. by split_and!.
Qed.

(** ** Cancellation

    [spawn_blocking] runs [decompress_file] on another thread, which goes on
    when the future that awaits it is dropped.  [task] is what the thread has
    left to do; [waiting] until the request is cancelled, which drops, and so
    removes, both temporary files. *)
Record Blocking := mkBlocking { task : prog FsE (Result unit); waiting : bool; disk : gmap path bytes }.

Inductive blocking_step (src dst : path) : Blocking -> Blocking -> Prop :=
| TaskStep T (op : FsE T) k b disk r disk' :
    fs_step disk (Ev op r) disk' ->
    blocking_step src dst (mkBlocking (Vis op k) b disk) (mkBlocking (k r) b disk')
| CancelRequest p disk :
    blocking_step src dst (mkBlocking p true disk) (mkBlocking p false (delete dst (delete src disk))).

(** The paths of a cancelled request, once its task has ended, are gone. *)
Definition cleaned_up (src dst : path) (b : Blocking) : Prop :=
  waiting b = false -> (exists r, task b = Ret r) -> disk b !! src = None /\ disk b !! dst = None.

(** C38. A cancelled download of a legacy backup can leave a file behind: the
    task has opened the compressed file when the request is cancelled and both
    temporary files are removed; it then creates its output again, which
    nobody owns any more. *)
Theorem cancelled_decompression_leaks src dst disk0 :
  src <> dst -> is_Some (disk0 !! src) -> is_Some (disk0 !! dst) ->
  exists b, rtc (blocking_step src dst) (mkBlocking (decompress_file src dst) true disk0) b /\
    ~ cleaned_up src dst b.
Proof.
  intros Hne Hsrc Hdst. unfold decompress_file. cbn [bind trigger]. eexists. split.
  - eapply rtc_l; [apply (TaskStep _ _ _ (FsOpen src) _ _ _ (Ok tt) disk0); done|].
    cbn [result_map_err bind trigger].
    eapply rtc_l; [apply CancelRequest|].
    eapply rtc_l; [apply (TaskStep _ _ _ (FsCreate dst) _ _ _ (Ok tt)); reflexivity|].
    cbn [result_map_err bind trigger].
    eapply rtc_l; [apply (TaskStep _ _ _ (FsCopyDecode src dst) _ _ _ (Err "unexpected end of file"));
      exists []; reflexivity|].
    apply rtc_refl.
  - intros Hclean. destruct Hclean as [_ Hd]; [done|by eexists|]. simpl in Hd.
    by rewrite lookup_insert_eq in Hd.
Qed.
End Files.

#[local] Instance race_fmt : RustFmt := {| str_debug := fun s => s |}.
#[local] Instance race_pg : PgFormat := text_pg Some.

Lemma cancelled_decompression_leaks_witness :
  exists b, rtc (blocking_step "/data/a" "/data/b")
    (mkBlocking (decompress_file "/data/a" "/data/b") true (<["/data/a" := []]> {["/data/b" := []]})) b /\
    ~ cleaned_up "/data/a" "/data/b" b.
Proof. apply cancelled_decompression_leaks; [done|by eexists|by eexists]. Defined.
