(* ===== verification/SocketAddr.v ===== *)
(** * [std::net::SocketAddr]: parsing and printing of socket addresses

    As [core::net::parser] and [core::net::ip_addr] do it, for IPv4 and IPv6;
    addresses are read back as they are printed. *)

From Stdlib Require Import ZArith Lia Ascii.
From stdpp Require Import base numbers strings list sets.
From S2P Require Import Prelude RustStd.
Open Scope Z_scope.
Open Scope rust_scope.

Inductive SocketAddr :=
| V4 (octets : list Z) (port : Z)
| V6 (segments : list Z) (scope_id : Z) (port : Z).

(** A parser reads a prefix of its input, or fails and reads nothing. *)
Definition parser (A : Type) : Type := list ascii -> option (A * list ascii).

Definition char_to_digit (radix : Z) (c : ascii) : option Z :=
  let z := code c in
  let d := if (48 <=? z) && (z <=? 57) then z - 48
           else if (97 <=? z) && (z <=? 122) then z - 87
           else if (65 <=? z) && (z <=? 90) then z - 55 else radix in
  if d <? radix then Some d else None.

Definition read_given_char (c : ascii) : parser unit := fun l =>
  match l with d :: l => if Ascii.eqb c d then Some (tt, l) else None | [] => None end.

(** The digits of a number: its value, how many digits, and the rest. *)
Fixpoint read_digits (radix acc : Z) (count : nat) (l : list ascii) : Z * nat * list ascii :=
  match l with
  | [] => (acc, count, [])
  | c :: l' =>
      match char_to_digit radix c with
      | Some d => read_digits radix (acc * radix + d) (S count) l'
      | None => (acc, count, l)
      end
  end.

(** [read_number]: at most [max_digits] digits, a value of at most [hi]. *)
Definition read_number (radix hi : Z) (max_digits : option nat) (allow_zero_prefix : bool) : parser Z :=
  fun l =>
    let '(value, count, rest) := read_digits radix 0 0 l in
    let has_leading_zero := match l with c :: _ => Ascii.eqb c "0" | [] => false end in
    if (count =? 0)%nat then None
    else if match max_digits with Some m => (m <? count)%nat | None => false end then None
    else if negb allow_zero_prefix && has_leading_zero && (1 <? count)%nat then None
    else if hi <? value then None
    else Some (value, rest).

(** [read_separator]. *)
Definition read_separator {A} (sep : ascii) (index : nat) (inner : parser A) : parser A := fun l =>
  match index with
  | O => inner l
  | _ => '(_, l) ← read_given_char sep l; inner l
  end.

Definition read_octet (i : nat) : parser Z :=
  read_separator "." i (read_number 10 255 (Some 3%nat) false).

Definition read_ipv4_addr : parser (list Z) := fun l =>
  '(a, l) ← read_octet 0 l;
  '(b, l) ← read_octet 1 l;
  '(c, l) ← read_octet 2 l;
  '(d, l) ← read_octet 3 l;
  Some ([a; b; c; d], l).

(** [read_groups]: group [i] of [limit], the groups read, whether they end in
    an IPv4 address, and the rest; [n] is [limit - i]. *)
Fixpoint read_groups (n i : nat) (acc : list Z) (l : list ascii) : list Z * bool * list ascii :=
  match n with
  | O => (acc, false, l)
  | S n =>
      match (if (n =? 0)%nat then None else read_separator ":" i read_ipv4_addr l) with
      | Some ([a; b; c; d], l) => (acc ++ [a * 256 + b; c * 256 + d], true, l)
      | _ =>
          match read_separator ":" i (read_number 16 65535 (Some 4%nat) true) l with
          | Some (g, l) => read_groups n (S i) (acc ++ [g]) l
          | None => (acc, false, l)
          end
      end
  end.

Definition read_ipv6_addr : parser (list Z) := fun l =>
  let '(head, head_ipv4, l) := read_groups 8 0 [] l in
  if (length head =? 8)%nat then Some (head, l)
  else if head_ipv4 then None
  else
    '(_, l) ← read_given_char ":" l;
    '(_, l) ← read_given_char ":" l;
    let '(tail, _, l) := read_groups (8 - (length head + 1)) 0 [] l in
    Some (head ++ replicate (8 - length head - length tail) 0 ++ tail, l).

Definition read_port : parser Z := fun l =>
  '(_, l) ← read_given_char ":" l;
  read_number 10 U16_MAX None true l.

Definition read_scope_id : parser Z := fun l =>
  '(_, l) ← read_given_char "%" l;
  read_number 10 U32_MAX None true l.

Definition read_socket_addr_v4 : parser SocketAddr := fun l =>
  '(ip, l) ← read_ipv4_addr l;
  '(p, l) ← read_port l;
  Some (V4 ip p, l).

Definition read_socket_addr_v6 : parser SocketAddr := fun l =>
  '(_, l) ← read_given_char "[" l;
  '(ip, l) ← read_ipv6_addr l;
  let '(scope, l) := default (0, l) (read_scope_id l) in
  '(_, l) ← read_given_char "]" l;
  '(p, l) ← read_port l;
  Some (V6 ip scope p, l).

(** [SocketAddr::from_str]; its error prints as a fixed text. *)
Definition parse_socket_addr (s : string) : result SocketAddr string :=
  let r := match read_socket_addr_v4 (chars s) with
           | Some r => Some r
           | None => read_socket_addr_v6 (chars s)
           end in
  match r with
  | Some (a, []) => Ok a
  | _ => Err "invalid socket address syntax"%string
  end.

(** [Display for Ipv4Addr] and [SocketAddrV4]. *)
Definition ipv4_to_string (a b c d : Z) : string :=
  int_to_string a +:+ "." +:+ int_to_string b +:+ "." +:+ int_to_string c +:+ "." +:+ int_to_string d.

Definition v4_to_string (octets : list Z) (port : Z) : string :=
  match octets with
  | [a; b; c; d] => ipv4_to_string a b c d +:+ ":" +:+ int_to_string port
  | _ => ""
  end.

(** [{:x}] of a 16-bit segment. *)
Definition segment_to_string (n : Z) : string :=
  of_chars (if n <? 16 then [hex_digit n]
            else if n <? 256 then hex_digit <$> [n / 16; n mod 16]
            else if n <? 4096 then hex_digit <$> [n / 256; n / 16 mod 16; n mod 16]
            else hex_digit <$> [n / 4096; n / 256 mod 16; n / 16 mod 16; n mod 16]).

Fixpoint fmt_subslice (l : list Z) : string :=
  match l with
  | [] => ""
  | [x] => segment_to_string x
  | x :: l => segment_to_string x +:+ ":" +:+ fmt_subslice l
  end.

(** Start and length of the first longest run of zero segments. *)
Fixpoint longest_zeroes (i : nat) (current longest : nat * nat) (l : list Z) : nat * nat :=
  match l with
  | [] => longest
  | x :: l =>
      if x =? 0 then
        let current := ((if (current.2 =? 0)%nat then i else current.1), S current.2) in
        longest_zeroes (S i) current (if (longest.2 <? current.2)%nat then current else longest) l
      else longest_zeroes (S i) (0, 0)%nat longest l
  end.

(** [Ipv6Addr::to_ipv4_mapped]. *)
Definition to_ipv4_mapped (segments : list Z) : option (Z * Z) :=
  match segments with
  | [a; b; c; d; e; f; ab; cd] =>
      if forallb (Z.eqb 0) [a; b; c; d; e] && (f =? 65535) then Some (ab, cd) else None
  | _ => None
  end.

Definition ipv6_to_string (segments : list Z) : string :=
  match to_ipv4_mapped segments with
  | Some (ab, cd) => "::ffff:" +:+ ipv4_to_string (ab / 256) (ab mod 256) (cd / 256) (cd mod 256)
  | None =>
      let '(start, len) := longest_zeroes 0 (0, 0)%nat (0, 0)%nat segments in
      if (1 <? len)%nat
      then fmt_subslice (take start segments) +:+ "::" +:+ fmt_subslice (drop (start + len) segments)
      else fmt_subslice segments
  end.

(** [Display for SocketAddr]. *)
Definition SocketAddr_display (a : SocketAddr) : string :=
  match a with
  | V4 octets port => v4_to_string octets port
  | V6 segments scope port =>
      "[" +:+ ipv6_to_string segments +:+ (if scope =? 0 then "" else "%" +:+ int_to_string scope) +:+ "]:" +:+
      int_to_string port
  end.

(** ** Round trip *)

(** What follows a number does not go on with a digit. *)
Definition ends_number (l : list ascii) : Prop :=
  match l with c :: _ => char_to_digit 10 c = None | [] => True end.

Lemma read_digits_end acc n l : ends_number l -> read_digits 10 acc n l = (acc, n, l).
Proof. destruct l as [|c l]; simpl; [done|]. by intros ->. Qed.

Lemma char_to_digit_char d : 0 <= d < 10 -> char_to_digit 10 (digit_char d) = Some d.
Proof.
  intros Hd. unfold char_to_digit, digit_char. rewrite code_chr by lia.
  replace ((48 <=? 48 + d) && (48 + d <=? 57)) with true by lia.
  replace (48 + d - 48) with d by lia. by replace (d <? 10) with true by lia.
Qed.

Lemma read_digits_digits fuel n l :
  0 <= n < 2 ^ Z.of_nat fuel ->
  read_digits 10 0 0 (digits fuel n ++ l) = read_digits 10 n (length (digits fuel n)) l.
Proof.
  revert n l. induction fuel as [|fuel IH]; intros n l Hn.
  { change (2 ^ Z.of_nat 0) with 1 in Hn. by assert (n = 0) as -> by lia. }
  rewrite Nat2Z.inj_succ, Z.pow_succ_r in Hn by lia. cbn [digits]. destruct (Z.ltb_spec n 10).
  - cbn [app read_digits length]. rewrite char_to_digit_char by lia. f_equal; lia.
  - pose proof (Z.div_mod n 10 ltac:(lia)). pose proof (Z.mod_pos_bound n 10 ltac:(lia)).
    rewrite <-app_assoc, IH by lia. cbn [app read_digits]. rewrite char_to_digit_char by lia.
    rewrite length_app. cbn [length]. f_equal; lia.
Qed.

Definition leading_zero (l : list ascii) : bool :=
  match l with c :: _ => Ascii.eqb c "0" | [] => false end.

Lemma read_number_digits hi m z n l :
  0 <= n <= hi -> ends_number l ->
  match m with Some m => (length (nat_digits n) <= m)%nat | None => True end ->
  z = true \/ leading_zero (nat_digits n) = false \/ length (nat_digits n) = 1%nat ->
  read_number 10 hi m z (chars (int_to_string n) ++ l) = Some (n, l).
Proof.
  intros Hn Hl Hm Hz. unfold read_number, int_to_string.
  replace (n <? 0) with false by lia. rewrite chars_of_chars. unfold nat_digits at 1.
  rewrite read_digits_digits, read_digits_end by (done || apply nat_digits_fuel; lia).
  fold (nat_digits n). destruct (nat_digits n) as [|c k] eqn:Hd; [by destruct (digits_nonempty _ _ Hd)|].
  cbn [length app leading_zero] in *. rewrite (proj2 (Nat.eqb_neq _ _)) by lia.
  assert (match m with Some m => (m <? S (length k))%nat | None => false end = false) as ->
    by (destruct m; [apply Nat.ltb_ge; lia|done]).
  assert (negb z && Ascii.eqb c "0" && (1 <? S (length k))%nat = false) as ->.
  { destruct Hz as [->|[->|[= ->]]]; [done|by rewrite andb_false_r|by rewrite andb_false_r]. }
  by replace (hi <? n) with false by lia.
Qed.

(** At most three digits, the first of them zero only in [0]. *)
Definition octet_digits (n : Z) : bool :=
  (length (nat_digits n) <=? 3)%nat && (negb (leading_zero (nat_digits n)) || (length (nat_digits n) =? 1)%nat).

Lemma octet_digits_ok n : 0 <= n <= 255 -> octet_digits n = true.
Proof.
  intros Hn. assert (forallb (fun k => octet_digits (Z.of_nat k)) (seq 0 256) = true) as Hall by by vm_compute.
  rewrite forallb_forall in Hall. specialize (Hall (Z.to_nat n)). rewrite Z2Nat.id in Hall by lia.
  apply Hall, in_seq. lia.
Qed.

Lemma read_octet_number n l :
  0 <= n <= 255 -> ends_number l ->
  read_number 10 255 (Some 3%nat) false (chars (int_to_string n) ++ l) = Some (n, l).
Proof.
  intros Hn Hl. pose proof (octet_digits_ok n Hn) as Ho. unfold octet_digits in Ho.
  apply andb_true_iff in Ho as [Hlen Hz]. apply Nat.leb_le in Hlen. apply read_number_digits; try done.
  right. apply orb_true_iff in Hz as [Hz|Hz]; [left; by apply negb_true_iff|right; by apply Nat.eqb_eq].
Qed.

Lemma read_ipv4_printed a b c d l :
  Forall (fun n => 0 <= n <= 255) [a; b; c; d] -> ends_number l ->
  read_ipv4_addr (chars (ipv4_to_string a b c d) ++ l) = Some ([a; b; c; d], l).
Proof.
  rewrite !Forall_cons. intros (Ha & Hb & Hc & Hd & _) Hl. unfold ipv4_to_string. rewrite !chars_app, <-!app_assoc.
  unfold read_ipv4_addr, read_octet, read_separator.
  do 3 (rewrite read_octet_number by done;
    cbn [mbind option_bind chars String.list_ascii_of_string app read_given_char Ascii.eqb Bool.eqb]).
  by rewrite read_octet_number.
Qed.

Lemma read_port_printed p : 0 <= p <= U16_MAX -> read_port (":"%char :: chars (int_to_string p)) = Some (p, []).
Proof.
  intros Hp. unfold read_port. cbn [mbind option_bind read_given_char Ascii.eqb Bool.eqb].
  rewrite <-(app_nil_r (chars (int_to_string p))). apply read_number_digits; try done. by left.
Qed.

(** An address that [SocketAddrV4] prints is read back. *)
Lemma socket_addr_v4_roundtrip a b c d port :
  Forall (fun n => 0 <= n <= 255) [a; b; c; d] -> 0 <= port <= U16_MAX ->
  parse_socket_addr (v4_to_string [a; b; c; d] port) = Ok (V4 [a; b; c; d] port).
Proof.
  intros Hs Hp. unfold parse_socket_addr, v4_to_string, read_socket_addr_v4. rewrite chars_app.
  rewrite read_ipv4_printed by done. cbn [mbind option_bind].
  change (chars (":" +:+ int_to_string port)) with (":"%char :: chars (int_to_string port)).
  by rewrite read_port_printed.
Qed.

(** *** IPv6 *)

(** What follows a group does not go on with a hex digit. *)
Definition ends_group (l : list ascii) : Prop :=
  match l with c :: _ => char_to_digit 16 c = None | [] => True end.

Lemma read_digits_app radix acc n l k :
  match k with c :: _ => char_to_digit radix c = None | [] => True end ->
  read_digits radix acc n (l ++ k) = let '(v, m, rest) := read_digits radix acc n l in (v, m, rest ++ k).
Proof.
  intros Hk. revert acc n. induction l as [|c l IH]; intros acc n; cbn [app read_digits].
  - destruct k as [|c k]; [done|]. cbn [read_digits]. by rewrite Hk.
  - destruct (char_to_digit radix c); [apply IH|done].
Qed.

Lemma hex_digit_value d : 0 <= d < 16 -> char_to_digit 16 (hex_digit d) = Some d /\ hex_digit d <> "."%char.
Proof.
  intros Hd. assert (d ∈ seqZ 0 16) as Hin by (apply elem_of_seqZ; lia). revert Hin.
  change (seqZ 0 16) with [0; 1; 2; 3; 4; 5; 6; 7; 8; 9; 10; 11; 12; 13; 14; 15]. rewrite !elem_of_cons.
  intros Hin. repeat destruct Hin as [->|Hin]; try done. by apply not_elem_of_nil in Hin.
Qed.

Lemma read_hex_digits ds acc n :
  Forall (fun d => 0 <= d < 16) ds ->
  read_digits 16 acc n (hex_digit <$> ds) = (foldl (fun a d => a * 16 + d) acc ds, (n + length ds)%nat, []).
Proof.
  intros Hds. revert acc n. induction Hds as [|d ds Hd _ IH]; intros acc n; cbn [fmap list_fmap read_digits foldl length].
  - by rewrite Nat.add_0_r.
  - rewrite (proj1 (hex_digit_value d Hd)), IH. by rewrite Nat.add_succ_comm.
Qed.

(** A printed group: one to four digits with its value. *)
Lemma segment_digits n :
  0 <= n <= 65535 -> exists ds, chars (segment_to_string n) = hex_digit <$> ds /\
    Forall (fun d => 0 <= d < 16) ds /\ (1 <= length ds <= 4)%nat /\ foldl (fun a d => a * 16 + d) 0 ds = n.
Proof.
  intros Hn. unfold segment_to_string. rewrite chars_of_chars.
  destruct (Z.ltb_spec n 16); [exists [n]|destruct (Z.ltb_spec n 256); [exists [n / 16; n mod 16]|
    destruct (Z.ltb_spec n 4096); [exists [n / 256; n / 16 mod 16; n mod 16]|
      exists [n / 4096; n / 256 mod 16; n / 16 mod 16; n mod 16]]]].
  all: split; [done|]; rewrite ?Forall_cons, ?Forall_nil; cbn [length foldl].
  all: split_and!; try lia; try done; Z.div_mod_to_equations; lia.
Qed.

Lemma read_group n l :
  0 <= n <= 65535 -> ends_group l ->
  read_number 16 65535 (Some 4%nat) true (chars (segment_to_string n) ++ l) = Some (n, l).
Proof.
  intros Hn Hl. destruct (segment_digits n Hn) as (ds & -> & Hds & Hlen & Hv). unfold read_number.
  rewrite read_digits_app, read_hex_digits, Hv by done.
  rewrite (proj2 (Nat.eqb_neq _ _)) by lia. rewrite (proj2 (Nat.ltb_ge _ _)) by lia.
  cbn [negb andb app]. by replace (65535 <? n) with false by lia.
Qed.

Lemma group_no_dot n : 0 <= n <= 65535 -> "."%char ∉ chars (segment_to_string n).
Proof.
  intros Hn. destruct (segment_digits n Hn) as (ds & -> & Hds & _).
  intros (d & Hd & Hin)%list_elem_of_fmap. rewrite Forall_forall in Hds. by destruct (hex_digit_value d (Hds _ Hin)).
Qed.

Lemma read_digits_rest radix acc n l c : c ∉ l -> c ∉ (read_digits radix acc n l).2.
Proof.
  revert acc n. induction l as [|d l IH]; intros acc n Hl; [done|]. cbn [read_digits].
  destruct (char_to_digit radix d); [|done]. apply IH. set_solver.
Qed.

(** No IPv4 address without dots. *)
Lemma read_ipv4_no_dot l : "."%char ∉ l -> read_ipv4_addr l = None.
Proof.
  intros Hl. unfold read_ipv4_addr, read_octet, read_separator.
  destruct (read_number 10 255 (Some 3%nat) false l) as [[a rest]|] eqn:Ha; [|done]. cbn [mbind option_bind].
  assert ("."%char ∉ rest) as Hr.
  { unfold read_number in Ha. pose proof (read_digits_rest 10 0 0 l _ Hl) as Hr.
    destruct (read_digits 10 0 0 l) as [[v m] r]. cbn [snd] in Hr. repeat case_match; by simplify_eq. }
  destruct rest as [|c rest]; [done|]. cbn [read_given_char].
  destruct (Ascii.eqb_spec "." c) as [<-|_]; [set_solver|done].
Qed.

Lemma read_separator_no_dot i l : "."%char ∉ l -> read_separator ":" i read_ipv4_addr l = None.
Proof.
  intros Hl. destruct i as [|i]; [by apply read_ipv4_no_dot|]. cbn [read_separator].
  destruct l as [|c l]; [done|]. cbn [read_given_char]. destruct (Ascii.eqb ":" c); [|done].
  cbn [mbind option_bind]. apply read_ipv4_no_dot. set_solver.
Qed.

(** The text of groups, the first of which is number [i] of its address. *)
Fixpoint group_text (i : nat) (segs : list Z) : list ascii :=
  match segs with
  | [] => []
  | x :: segs => (match i with O => [] | _ => [":"%char] end) ++ chars (segment_to_string x) ++ group_text (S i) segs
  end.

Lemma group_text_later i segs : group_text (S i) segs = group_text 1 segs.
Proof.
  revert i. induction segs as [|x segs IH]; intros i; [done|]. cbn [group_text]. by rewrite (IH (S i)), (IH 1%nat).
Qed.

Lemma group_text_subslice segs : chars (fmt_subslice segs) = group_text 0 segs.
Proof.
  destruct segs as [|x segs]; [done|]. cbn [group_text app]. revert x. induction segs as [|y segs IH]; intros x.
  - cbn. by rewrite app_nil_r.
  - change (fmt_subslice (x :: y :: segs)) with (segment_to_string x +:+ ":" +:+ fmt_subslice (y :: segs)).
    rewrite !chars_app, IH. cbn [group_text]. by rewrite (group_text_later 1).
Qed.

Lemma group_text_no_dot i segs : Forall (fun n => 0 <= n <= 65535) segs -> "."%char ∉ group_text i segs.
Proof.
  intros Hs. revert i. induction Hs as [|x segs Hx _ IH]; intros i; [set_solver|]. cbn [group_text].
  rewrite !not_elem_of_app. split_and!; [by destruct i; set_solver|by apply group_no_dot|apply IH].
Qed.

(** Printed groups are read up to their end, when nothing that looks like
    another group follows or there is no room for one. *)
Lemma read_groups_printed n i acc segs rest :
  Forall (fun n => 0 <= n <= 65535) segs -> (length segs <= n)%nat -> ("."%char ∉ rest) -> ends_group rest ->
  ((length segs < n)%nat -> read_separator ":" (i + length segs) (read_number 16 65535 (Some 4%nat) true) rest = None) ->
  read_groups n i acc (group_text i segs ++ rest) = (acc ++ segs, false, rest).
Proof.
  intros Hs. revert n i acc. induction Hs as [|x segs Hx Hs IH]; intros n i acc Hn Hdot Hend Hstop.
  - rewrite app_nil_r. cbn [group_text app]. destruct n as [|n]; [done|]. cbn [read_groups].
    rewrite read_separator_no_dot by done. cbn [length] in Hstop. rewrite Nat.add_0_r in Hstop.
    rewrite Hstop by lia. by destruct (n =? 0)%nat.
  - destruct n as [|n]; [simpl in Hn; lia|]. cbn [read_groups].
    assert (ends_group (group_text (S i) segs ++ rest)) as He by (by destruct segs).
    rewrite read_separator_no_dot.
    2:{ rewrite not_elem_of_app. split; [|done]. apply group_text_no_dot. by constructor. }
    assert (read_separator ":" i (read_number 16 65535 (Some 4%nat) true) (group_text i (x :: segs) ++ rest) =
      Some (x, group_text (S i) segs ++ rest)) as ->.
    { cbn [group_text]. rewrite <-!app_assoc. destruct i as [|i]; cbn [read_separator app read_given_char Ascii.eqb Bool.eqb];
        cbn [mbind option_bind]; by apply read_group. }
    assert ((if (n =? 0)%nat then None else None : option (list Z * list ascii)) = None) as -> by (by destruct n).
    rewrite IH; [by rewrite <-app_assoc|simpl in Hn; lia|done..|].
    intros Hlt. rewrite Nat.add_succ_comm. apply Hstop. simpl. lia.
Qed.

(** A run of zeros at [start]. *)
Definition zero_run (l : list Z) (r : nat * nat) : Prop :=
  (r.1 + r.2 <= length l)%nat /\ take r.2 (drop r.1 l) = replicate r.2 0.

Lemma zero_run_app l k r : zero_run l r -> zero_run (l ++ k) r.
Proof.
  intros [Hle Hr]. split; [rewrite length_app; lia|].
  rewrite drop_app_le, take_app_le by (rewrite ?length_drop; lia). done.
Qed.

Lemma longest_zeroes_run l seen current longest :
  zero_run seen current -> (current.2 = 0%nat \/ current.1 + current.2 = length seen)%nat -> zero_run seen longest ->
  zero_run (seen ++ l) (longest_zeroes (length seen) current longest l).
Proof.
  revert seen current longest. induction l as [|x l IH]; intros seen current longest Hc He Hl.
  { by rewrite app_nil_r. }
  cbn [longest_zeroes].
  assert (length (seen ++ [x]) = S (length seen)) as Hlen by (rewrite length_app; simpl; lia).
  replace (seen ++ x :: l) with ((seen ++ [x]) ++ l) by (by rewrite <-app_assoc). rewrite <-Hlen.
  destruct (Z.eqb_spec x 0) as [->|Hx].
  - set (current' := (if (current.2 =? 0)%nat then length seen else current.1, S current.2)).
    assert (zero_run (seen ++ [0]) current' /\ (current'.1 + current'.2 = length (seen ++ [0%Z]))%nat) as [Hc' He'].
    { unfold current', zero_run. cbn [fst snd]. rewrite Hlen. destruct Hc as [Hle Hr].
      destruct (Nat.eqb_spec current.2 0) as [H0|H0].
      - rewrite H0. split; [|lia]. split; [lia|]. by rewrite drop_app_length.
      - destruct He as [?|He]; [done|]. split; [|lia]. split; [lia|].
        rewrite drop_app_le, take_app by lia. rewrite length_drop. replace (S current.2 - _)%nat with 1%nat by lia.
        rewrite take_ge by (rewrite length_drop; lia).
        rewrite <-(take_ge (drop current.1 seen) current.2) by (rewrite length_drop; lia). rewrite Hr.
        rewrite replicate_S_end. done. }
    apply IH; [done|by right|]. destruct (longest.2 <? current'.2)%nat; [done|by apply zero_run_app].
  - apply IH; [|by left|by apply zero_run_app]. split; simpl; [lia|done].
Qed.

Lemma zero_run_split l start len :
  zero_run l (start, len) -> l = take start l ++ replicate len 0 ++ drop (start + len) l.
Proof.
  intros [_ Hr]. cbn [fst snd] in Hr. rewrite <-Hr, <-drop_drop, take_drop. by rewrite take_drop.
Qed.

Definition is_group (n : Z) : Prop := 0 <= n <= 65535.

(** What comes after an address: the scope or the bracket. *)
Definition ends_address (l : list ascii) : Prop :=
  exists c r, l = c :: r /\ (c = "]"%char \/ c = "%"%char) /\ "."%char ∉ l.

Lemma ends_address_group l i :
  ends_address l -> ends_group l /\ ("."%char ∉ l) /\
    read_separator ":" i (read_number 16 65535 (Some 4%nat) true) l = None.
Proof. intros (c & r & -> & [-> | ->] & Hd); (split_and!; [done..|]); by destruct i. Qed.

Lemma colons_group i l :
  read_separator ":" i (read_number 16 65535 (Some 4%nat) true) (":"%char :: ":"%char :: l) = None.
Proof. by destruct i. Qed.

(** All eight groups. *)
Lemma read_ipv6_full segs l :
  Forall is_group segs -> length segs = 8%nat -> ends_address l ->
  read_ipv6_addr (chars (fmt_subslice segs) ++ l) = Some (segs, l).
Proof.
  intros Hs Hlen Hl. destruct (ends_address_group l 0 Hl) as (He & Hd & _). unfold read_ipv6_addr.
  rewrite group_text_subslice, read_groups_printed; try done; [|lia..]. cbn [app]. by rewrite Hlen.
Qed.

(** Groups on both sides of a [::]. *)
Lemma read_ipv6_short head tail n l :
  Forall is_group head -> Forall is_group tail -> (length head + n + length tail = 8)%nat -> (1 < n)%nat ->
  ends_address l ->
  read_ipv6_addr (chars (fmt_subslice head +:+ "::" +:+ fmt_subslice tail) ++ l) = Some (head ++ replicate n 0 ++ tail, l).
Proof.
  intros Hh Ht Hlen Hn Hl. rewrite !chars_app, !group_text_subslice, <-!app_assoc.
  destruct (ends_address_group l (0 + length tail) Hl) as (He & Hd & Hstop). unfold read_ipv6_addr.
  rewrite (read_groups_printed 8 0 []); [|done|lia| |done|by intros _; apply colons_group].
  2:{ rewrite !not_elem_of_app. split_and!; [set_solver|by apply group_text_no_dot|done]. }
  cbn [app]. rewrite (proj2 (Nat.eqb_neq _ _)) by lia.
  cbn [chars String.list_ascii_of_string app read_given_char Ascii.eqb Bool.eqb mbind option_bind].
  rewrite read_groups_printed; [|done|lia|done..|by intros _]. cbn [app]. do 2 f_equal. do 2 f_equal. f_equal. lia.
Qed.

Lemma read_groups_v4 n i acc l a b c d l' :
  read_separator ":" i read_ipv4_addr l = Some ([a; b; c; d], l') -> n <> 0%nat ->
  read_groups (S n) i acc l = (acc ++ [a * 256 + b; c * 256 + d], true, l').
Proof. intros Hv4 Hn. cbn [read_groups]. rewrite Hv4. by destruct n. Qed.

Lemma read_groups_next n i acc l g l' :
  read_separator ":" i read_ipv4_addr l = None ->
  read_separator ":" i (read_number 16 65535 (Some 4%nat) true) l = Some (g, l') ->
  read_groups (S n) i acc l = read_groups n (S i) (acc ++ [g]) l'.
Proof. intros Hv4 Hg. cbn [read_groups]. rewrite Hv4, Hg. by destruct (n =? 0)%nat. Qed.

(** An IPv4 address mapped to IPv6. *)
Lemma read_ipv6_mapped a b c d l :
  Forall (fun n => 0 <= n <= 255) [a; b; c; d] -> ends_address l ->
  read_ipv6_addr (chars ("::ffff:" +:+ ipv4_to_string a b c d) ++ l) =
    Some ([0; 0; 0; 0; 0; 65535; a * 256 + b; c * 256 + d], l).
Proof.
  intros Ho Hl. assert (ends_number l) as He by (by destruct Hl as (? & ? & -> & [-> | ->] & _)).
  rewrite chars_app, <-app_assoc.
  pose proof (read_ipv4_printed a b c d l Ho He) as Hv4.
  revert Hv4. generalize (chars (ipv4_to_string a b c d) ++ l). intros rest Hv4.
  assert (forall n acc k, read_groups (S n) 0 acc (":"%char :: k) = (acc, false, ":"%char :: k)) as Hnone
    by (by intros [|n] acc k).
  assert (read_groups 7 0 [] (chars "ffff:" ++ rest) = ([65535; a * 256 + b; c * 256 + d], true, l)) as Htail.
  { rewrite (read_groups_next _ _ _ _ 65535 (":"%char :: rest)) by done.
    rewrite (read_groups_v4 _ _ _ _ a b c d l); [done| |done].
    cbn [read_separator read_given_char Ascii.eqb Bool.eqb mbind option_bind]. exact Hv4. }
  unfold read_ipv6_addr. change (chars "::ffff:" ++ rest) with (":"%char :: ":"%char :: chars "ffff:" ++ rest).
  rewrite Hnone. cbn [length Nat.eqb read_given_char Ascii.eqb Bool.eqb mbind option_bind Nat.sub Nat.add].
  by rewrite Htail.
Qed.

Lemma to_ipv4_mapped_Some segs ab cd :
  to_ipv4_mapped segs = Some (ab, cd) -> segs = [0; 0; 0; 0; 0; 65535; ab; cd].
Proof.
  unfold to_ipv4_mapped. destruct segs as [|a [|b [|c [|d [|e [|f [|g [|h [|]]]]]]]]]; try done.
  cbn [forallb]. destruct (Z.eqb_spec 0 a), (Z.eqb_spec 0 b), (Z.eqb_spec 0 c), (Z.eqb_spec 0 d), (Z.eqb_spec 0 e),
    (Z.eqb_spec f 65535); cbn [andb]; try done. by intros [= <- <-]; subst.
Qed.

Lemma read_ipv6_printed segs l :
  Forall is_group segs -> length segs = 8%nat -> ends_address l ->
  read_ipv6_addr (chars (ipv6_to_string segs) ++ l) = Some (segs, l).
Proof.
  intros Hs Hlen Hl. unfold ipv6_to_string. destruct (to_ipv4_mapped segs) as [[ab cd]|] eqn:Hm.
  - apply to_ipv4_mapped_Some in Hm as ->. rewrite !Forall_cons in Hs. destruct Hs as (_ & _ & _ & _ & _ & _ & Hab & Hcd & _).
    unfold is_group in *. rewrite read_ipv6_mapped; [|rewrite !Forall_cons; split_and!; try done; Z.div_mod_to_equations; lia|done].
    replace (ab / 256 * 256 + ab mod 256) with ab by (Z.div_mod_to_equations; lia).
    by replace (cd / 256 * 256 + cd mod 256) with cd by (Z.div_mod_to_equations; lia).
  - pose proof (longest_zeroes_run segs [] (0, 0)%nat (0, 0)%nat) as Hz. cbn [length app] in Hz.
    destruct (longest_zeroes 0 _ _ segs) as [start len]. destruct Hz as [Hle Hz]; [by repeat split|by left|by repeat split|].
    cbn [fst snd] in *. destruct (Nat.ltb_spec 1 len); [|by apply read_ipv6_full].
    rewrite (zero_run_split segs start len) at 3 by done. apply read_ipv6_short; try done.
    + by apply Forall_take.
    + by apply Forall_drop.
    + rewrite length_take, length_drop. lia.
Qed.

(** The addresses there are. *)
Definition addr_ok (a : SocketAddr) : Prop :=
  match a with
  | V4 octets port => length octets = 4%nat /\ Forall (fun n => 0 <= n <= 255) octets /\ 0 <= port <= U16_MAX
  | V6 segments scope port =>
      length segments = 8%nat /\ Forall is_group segments /\ 0 <= scope <= U32_MAX /\ 0 <= port <= U16_MAX
  end.

Lemma digits_no_dot n : 0 <= n -> "."%char ∉ chars (int_to_string n).
Proof.
  intros Hn Hin. pose proof (int_to_string_digits n Hn) as Hd. rewrite Forall_forall in Hd.
  apply Hd in Hin. change (code ".") with 46 in Hin. lia.
Qed.

Lemma read_v4_bracket l : read_socket_addr_v4 ("["%char :: l) = None.
Proof. done. Qed.

Lemma read_v6_parts l ip l1 scope l2 port :
  read_ipv6_addr l = Some (ip, l1) -> default (0, l1) (read_scope_id l1) = (scope, "]"%char :: l2) ->
  read_port l2 = Some (port, []) -> read_socket_addr_v6 ("["%char :: l) = Some (V6 ip scope port, []).
Proof.
  unfold read_socket_addr_v6. generalize read_ipv6_addr. intros read Hip Hscope Hport.
  cbn [read_given_char Ascii.eqb Bool.eqb mbind option_bind]. rewrite Hip. cbn [mbind option_bind]. rewrite Hscope. cbn [read_given_char Ascii.eqb Bool.eqb mbind option_bind].
  by rewrite Hport.
Qed.

(** What [SocketAddrV6] prints after the address. *)
Definition scope_text (scope : Z) : list ascii :=
  if scope =? 0 then [] else "%"%char :: chars (int_to_string scope).

Lemma read_scope_printed scope port (tail := scope_text scope ++ "]"%char :: ":"%char :: chars (int_to_string port)) :
  0 <= scope <= U32_MAX -> 0 <= port ->
  ends_address tail /\
  default (0, tail) (read_scope_id tail) = (scope, "]"%char :: ":"%char :: chars (int_to_string port)).
Proof.
  intros Hs Hp. pose proof (digits_no_dot port Hp) as Hdp. unfold tail, scope_text. clear tail.
  destruct (Z.eqb_spec scope 0) as [->|Hne].
  - split; [|done]. eexists _, _. split; [done|]. split; [by left|]. cbn [app]. by rewrite !not_elem_of_cons.
  - pose proof (digits_no_dot scope ltac:(lia)) as Hds. split.
    + eexists _, _. split; [done|]. split; [by right|]. cbn [app]. by rewrite !not_elem_of_cons, not_elem_of_app, !not_elem_of_cons.
    + unfold read_scope_id. cbn [app read_given_char Ascii.eqb Bool.eqb mbind option_bind].
      by rewrite read_number_digits; [|lia|..|left].
Qed.

Lemma v6_display_chars segs scope port :
  chars (SocketAddr_display (V6 segs scope port)) =
  "["%char :: chars (ipv6_to_string segs) ++ scope_text scope ++ "]"%char :: ":"%char :: chars (int_to_string port).
Proof.
  unfold SocketAddr_display, scope_text. rewrite !chars_app. by destruct (scope =? 0); rewrite ?chars_app.
Qed.

Lemma socket_addr_v6_roundtrip segs scope port :
  length segs = 8%nat -> Forall is_group segs -> 0 <= scope <= U32_MAX -> 0 <= port <= U16_MAX ->
  parse_socket_addr (SocketAddr_display (V6 segs scope port)) = Ok (V6 segs scope port).
Proof.
  intros Hlen Hs Hsc Hp. destruct (read_scope_printed scope port) as [He Hscope]; [done|lia|].
  pose proof (read_v6_parts _ _ _ _ _ _ (read_ipv6_printed segs _ Hs Hlen He) Hscope (read_port_printed port Hp)) as Hr.
  rewrite <-v6_display_chars in Hr. unfold parse_socket_addr. rewrite Hr.
  assert (read_socket_addr_v4 (chars (SocketAddr_display (V6 segs scope port))) = None) as ->; [|done].
  rewrite v6_display_chars. apply read_v4_bracket.
Qed.

(** Every address is read back as it is printed. *)
Lemma socket_addr_roundtrip a : addr_ok a -> parse_socket_addr (SocketAddr_display a) = Ok a.
Proof.
  destruct a as [octets port|segs scope port].
  - intros (Hlen & Ho & Hp). destruct octets as [|a [|b [|c [|d [|]]]]]; try discriminate Hlen.
    by apply socket_addr_v4_roundtrip.
  - intros (Hlen & Hs & Hsc & Hp). by apply socket_addr_v6_roundtrip.
Qed.

(** *** What is read is an address *)

Lemma char_to_digit_range radix c d : 0 <= radix -> char_to_digit radix c = Some d -> 0 <= d < radix.
Proof.
  intros Hr. unfold char_to_digit. pose proof (code_range c).
  repeat match goal with |- context [if ?b then _ else _] => destruct b eqn:? end; intros; simplify_eq; lia.
Qed.

Lemma read_digits_nonneg radix acc n l : 0 <= radix -> 0 <= acc -> 0 <= (read_digits radix acc n l).1.1.
Proof.
  intros Hr. revert acc n. induction l as [|c l IH]; intros acc n Hacc; [done|]. cbn [read_digits].
  destruct (char_to_digit radix c) as [d|] eqn:Hd; [|done]. apply char_to_digit_range in Hd; [|done]. apply IH. nia.
Qed.

Lemma read_number_range radix hi m z l v rest :
  0 <= radix -> read_number radix hi m z l = Some (v, rest) -> 0 <= v <= hi.
Proof.
  intros Hr. unfold read_number. pose proof (read_digits_nonneg radix 0 0 l Hr ltac:(lia)) as Hv.
  destruct (read_digits radix 0 0 l) as [[w n] r]. cbn [fst] in Hv.
  destruct (n =? 0)%nat; [done|]. destruct (match m with Some _ => _ | None => _ end); [done|].
  destruct (_ && _ && _); [done|]. destruct (Z.ltb_spec hi w); [done|]. intros [= <- <-]. lia.
Qed.

Lemma read_separator_inner {A} sep i (p : parser A) l a rest :
  read_separator sep i p l = Some (a, rest) -> exists l', p l' = Some (a, rest).
Proof.
  destruct i as [|i]; cbn [read_separator]; [eauto|]. destruct (read_given_char sep l) as [[[] l']|]; [|done].
  cbn. eauto.
Qed.

Lemma read_octet_range i l v rest : read_octet i l = Some (v, rest) -> 0 <= v <= 255.
Proof. intros [l' Hl]%read_separator_inner. by apply read_number_range in Hl. Qed.

Lemma read_ipv4_ok l o rest :
  read_ipv4_addr l = Some (o, rest) -> length o = 4%nat /\ Forall (fun n => 0 <= n <= 255) o.
Proof.
  unfold read_ipv4_addr. intros ([a l1] & Ha & ([b l2] & Hb & ([c l3] & Hc & ([d l4] & Hd & Ho)%bind_Some)
    %bind_Some)%bind_Some)%bind_Some.
  injection Ho as <- _. split; [done|]. rewrite !Forall_cons. split_and!; [by eapply read_octet_range..|done].
Qed.

Lemma read_groups_ok n i acc l :
  Forall is_group acc ->
  Forall is_group (read_groups n i acc l).1.1 /\ (length (read_groups n i acc l).1.1 <= length acc + n)%nat.
Proof.
  revert i acc l. induction n as [|n IH]; intros i acc l Hacc; cbn [read_groups]; [split; [done|simpl; lia]|].
  destruct (if (n =? 0)%nat then None else read_separator ":" i read_ipv4_addr l) as [[o l']|] eqn:Hv4.
  - destruct (Nat.eqb_spec n 0) as [|Hn]; [done|]. apply read_separator_inner in Hv4 as [l0 [Hlen Ho]%read_ipv4_ok].
    destruct o as [|a [|b [|c [|d [|]]]]]; try discriminate Hlen. cbn [fst]. rewrite !Forall_cons in Ho.
    rewrite length_app, Forall_app, !Forall_cons. unfold is_group. cbn [length]. split; [|lia]. split_and!; try done; lia.
  - destruct (read_separator ":" i (read_number 16 65535 (Some 4%nat) true) l) as [[g l']|] eqn:Hg; [|split; [done|simpl; lia]].
    apply read_separator_inner in Hg as [l0 Hg%read_number_range]; [|lia].
    destruct (IH (S i) (acc ++ [g]) l') as [Hf Hlen].
    + apply Forall_app. split; [done|]. by constructor.
    + rewrite length_app in Hlen. cbn [length] in Hlen. split; [done|lia].
Qed.

Lemma read_ipv6_ok l o rest : read_ipv6_addr l = Some (o, rest) -> length o = 8%nat /\ Forall is_group o.
Proof.
  unfold read_ipv6_addr. pose proof (read_groups_ok 8 0 [] l ltac:(done)) as [Hh Hlen].
  destruct (read_groups 8 0 [] l) as [[head v4] l1]. cbn [fst length] in *.
  destruct (Nat.eqb_spec (length head) 8); [by intros [= <- _]|]. destruct v4; [done|].
  intros ([[] l2] & _ & ([[] l3] & _ & Ho)%bind_Some)%bind_Some.
  pose proof (read_groups_ok (8 - (length head + 1)) 0 [] l3 ltac:(done)) as [Ht Htl].
  destruct (read_groups _ 0 [] l3) as [[tail v4'] l4]. cbn [fst length] in *. injection Ho as <- _.
  rewrite !length_app, length_replicate, !Forall_app. split; [lia|]. split_and!; [done| |done].
  apply Forall_replicate. unfold is_group. lia.
Qed.

Lemma read_port_range l p rest : read_port l = Some (p, rest) -> 0 <= p <= U16_MAX.
Proof. intros ([[] l'] & _ & Hp)%bind_Some. by apply read_number_range in Hp. Qed.

(** Whatever is accepted is an address. *)
Lemma parse_socket_addr_ok s a : parse_socket_addr s = Ok a -> addr_ok a.
Proof.
  unfold parse_socket_addr. destruct (read_socket_addr_v4 (chars s)) as [[a' rest]|] eqn:H4.
  - destruct rest; [|done]. intros [= <-].
    apply bind_Some in H4 as ([ip l] & Hip & ([p l'] & Hp & [= <- _])%bind_Some).
    apply read_ipv4_ok in Hip as [? ?]. by apply read_port_range in Hp.
  - destruct (read_socket_addr_v6 (chars s)) as [[a' rest]|] eqn:H6; [|done]. destruct rest; [|done]. intros [= <-].
    apply bind_Some in H6 as ([[] l] & _ & ([ip l1] & Hip & H6)%bind_Some).
    destruct (default (0, l1) (read_scope_id l1)) as [scope l2] eqn:Hs.
    apply bind_Some in H6 as ([[] l3] & _ & ([p l4] & Hp & [= <- _])%bind_Some).
    apply read_ipv6_ok in Hip as [? ?]. apply read_port_range in Hp.
    assert (0 <= scope <= U32_MAX) as Hscope; [|by do 3 (split; [done|])].
    destruct (read_scope_id l1) as [[sc r]|] eqn:Hr; simpl in Hs; injection Hs as <- _; [|done].
    apply bind_Some in Hr as ([[] r0] & _ & Hr). by apply read_number_range in Hr.
Qed.
