(* ===== verification/Settings.v ===== *)
(** * [backup-server/src/settings.rs]: configuration from the environment

    [from_source] over any source of variables, the ranges of the settings it
    accepts, and what its errors may say. *)

From Stdlib Require Import ZArith Lia Ascii.
From stdpp Require Import base numbers gmap sorting strings list.
From S2P Require Import Prelude RustStd Core SocketAddr Ports Pg.
Open Scope Z_scope.
Open Scope rust_scope.

Definition DEFAULT_DATA_FOLDER : string := "data".
Definition DEFAULT_DB_PORT : Z := 5432.
Definition DEFAULT_LISTEN_ADDR : string := "0.0.0.0:50051".
Definition DEFAULT_PG_TIMEOUT_SECS : Z := 60 * 60.

Record Settings := mkSettings {
  listen_addr : SocketAddr;
  set_db : DbTarget;
  comp_level : ZstdLevel;
  drive_creds : Secret;
  drive_folder_id : string;
  set_data_folder : path;
  set_retention : option Z;
  pg_timeout : Duration;
}.

(** [parse]: [from_str] with the text of its error. *)
Definition parse {A} (from_str : string -> result A string) (key value : string) : Result A :=
  result_map_err (fun e => Config (key +:+ ": invalid value '" +:+ value +:+ "': " +:+ e)) (from_str value).

Definition int_from_str (p : string -> result Z IntErrorKind) (s : string) : result Z string :=
  result_map_err IntErrorKind_display (p s).

Section Source.
Context (get : string -> option string).

Definition required (key : string) : Result string := ok_or (get key) (Config (key +:+ " is required")).

Definition from_source : Result Settings :=
  try db_host := required "DB_HOST" in
  try db_port := match get "DB_PORT" with
                 | Some v => parse (int_from_str parse_u16) "DB_PORT" v
                 | None => Ok DEFAULT_DB_PORT
                 end in
  try db_user := required "DB_USERNAME" in
  try db_password := required "DB_PASSWORD" in
  try db_name := required "DB_NAME" in
  let db := mkDbTarget db_host db_port db_user (Secret_new db_password) db_name in
  try level := match get "COMPRESSION_LEVEL" with
               | Some v =>
                   try n := parse (int_from_str parse_i64) "COMPRESSION_LEVEL" v in
                   ZstdLevel_new n
               | None => Ok ZstdLevel_default
               end in
  try keep := match get "DRIVE_RETENTION_COUNT" with
              | None => Ok None
              | Some v =>
                  try n := parse (int_from_str parse_usize) "DRIVE_RETENTION_COUNT" v in
                  if n =? 0 then Err (Config "DRIVE_RETENTION_COUNT must be positive") else Ok (Some n)
              end in
  try timeout := match get "PG_TIMEOUT_SECS" with
                 | None => Ok DEFAULT_PG_TIMEOUT_SECS
                 | Some v =>
                     try n := parse (int_from_str parse_u64) "PG_TIMEOUT_SECS" v in
                     if n =? 0 then Err (Config "PG_TIMEOUT_SECS must be positive") else Ok n
                 end in
  let addr := default DEFAULT_LISTEN_ADDR (get "LISTEN_ADDR") in
  try listen := parse parse_socket_addr "LISTEN_ADDR" addr in
  try creds := required "DRIVE_CREDS" in
  try folder := required "DRIVE_FOLDER_ID" in
  Ok {| listen_addr := listen;
        set_db := db;
        comp_level := level;
        drive_creds := Secret_new creds;
        drive_folder_id := folder;
        set_data_folder := default DEFAULT_DATA_FOLDER (get "DATA_FOLDER");
        set_retention := keep;
        pg_timeout := from_secs timeout |}.
End Source.

(** ** Facts *)

Lemma parse_digits_range neg lo hi acc l n :
  lo <= acc <= hi -> parse_digits neg lo hi acc l = Ok n -> lo <= n <= hi.
Proof.
  revert acc. induction l as [|c l IH]; intros acc Hacc; simpl; [congruence|].
  destruct (to_digit c) as [d|]; [|done].
  destruct (try_from lo hi (acc * 10)) as [m|]; [|done].
  destruct (try_from lo hi (if neg then m - d else m + d)) as [acc'|] eqn:Ht; [|done].
  apply try_from_Some in Ht as [-> Ht]. by apply IH.
Qed.

Lemma parse_int_range lo hi s n : lo <= 0 <= hi -> parse_int lo hi s = Ok n -> lo <= n <= hi.
Proof.
  intros H0. unfold parse_int. repeat case_match; intros; simplify_eq; by eapply parse_digits_range.
Qed.

Lemma parse_ok {A} (f : string -> result A string) key v a : parse f key v = Ok a -> f v = Ok a.
Proof. unfold parse. destruct (f v); simpl; congruence. Qed.

Lemma int_from_str_ok p v n : int_from_str p v = Ok n -> p v = Ok n.
Proof. unfold int_from_str. destruct (p v); simpl; congruence. Qed.

Lemma parsed_range lo hi key v n :
  lo <= 0 <= hi -> parse (int_from_str (parse_int lo hi)) key v = Ok n -> lo <= n <= hi.
Proof. intros H0 Hp. apply parse_ok, int_from_str_ok in Hp. by apply parse_int_range in Hp. Qed.

(** The value of a required key. *)
Lemma required_ok get key v : required get key = Ok v -> get key = Some v.
Proof. unfold required. destruct (get key); simpl; congruence. Qed.

Lemma level_range n l : ZstdLevel_new n = Ok l -> level_value l = n /\ 1 <= n <= 22.
Proof.
  unfold ZstdLevel_new. destruct (try_from 0 U8_MAX n) as [m|] eqn:Ht; [|done].
  apply try_from_Some in Ht as [-> _]. destruct (_ && _) eqn:Hr; [|done]. intros [= <-]. simpl.
  split; [done|lia].
Qed.

(** The steps of [from_source] that succeeded, one [try] at a time. *)
Ltac invert_try H :=
  lazymatch type of H with
  | (match ?r with Ok _ => _ | Err _ => _ end) = Ok _ =>
      let x := fresh "x" in let Hx := fresh "Hx" in
      destruct r as [x|] eqn:Hx; [cbv beta iota in H|discriminate H]; invert_try H
  | _ => idtac
  end.

(** Settings the server can work with: an address, a port, a zstd level that
    pg_dump accepts, a retention count of at least one, so that retention never
    deletes everything, and a time limit of whole seconds, at least one. *)
Definition settings_ok (s : Settings) : Prop :=
  addr_ok (listen_addr s) /\ 0 <= port (set_db s) <= 65535 /\ 1 <= level_value (comp_level s) <= 22 /\
  (forall n, set_retention s = Some n -> 1 <= n <= USIZE_MAX) /\
  exists secs, 1 <= secs <= U64_MAX /\ pg_timeout s = from_secs secs.

(** Settings that are accepted are usable: they are ones the server can
    work with, the required keys were given and are taken as they are, there
    is no retention only if its key is absent, and the time limit is a valid
    duration. *)
Theorem settings_valid get s :
  from_source get = Ok s ->
  get "DB_HOST" = Some (host (set_db s)) /\ get "DB_USERNAME" = Some (user (set_db s)) /\
  get "DB_PASSWORD" = Some (expose (password (set_db s))) /\ get "DB_NAME" = Some (db (set_db s)) /\
  get "DRIVE_CREDS" = Some (expose (drive_creds s)) /\ get "DRIVE_FOLDER_ID" = Some (drive_folder_id s) /\
  settings_ok s /\ (set_retention s = None -> get "DRIVE_RETENTION_COUNT" = None) /\
  from_secs 1 <= pg_timeout s <= DURATION_MAX.
Proof.
  intros H. unfold from_source in H. invert_try H. injection H as <-. simpl.
  repeat match goal with Hr : required _ _ = Ok _ |- _ => apply required_ok in Hr end.
  assert (0 <= x0 <= 65535).
  { destruct (get "DB_PORT"); [|by simplify_eq]. by apply (parsed_range 0 U16_MAX) in Hx0. }
  assert (1 <= level_value x4 <= 22).
  { destruct (get "COMPRESSION_LEVEL"); [|by simplify_eq]. invert_try Hx4.
    apply level_range in Hx4 as [-> ?]. done. }
  assert (1 <= x6 <= U64_MAX).
  { destruct (get "PG_TIMEOUT_SECS"); [invert_try Hx6|by simplify_eq].
    apply (parsed_range 0 U64_MAX) in Hx10; [|done]. destruct (Z.eqb_spec x10 0); [done|].
    injection Hx6 as ->. lia. }
  apply parse_ok, parse_socket_addr_ok in Hx7.
  assert ((forall n, x5 = Some n -> 1 <= n <= USIZE_MAX) /\ (x5 = None -> get "DRIVE_RETENTION_COUNT" = None)) as [Hkeep Hnone].
  { destruct (get "DRIVE_RETENTION_COUNT"); [invert_try Hx5|by simplify_eq].
    apply (parsed_range 0 USIZE_MAX) in Hx10; [|done]. destruct (Z.eqb_spec x10 0); [done|].
    injection Hx5 as <-. split; [|done]. intros n' [= <-]. lia. }
  do 6 (split; [done|]). split; [|split; [done|unfold from_secs, DURATION_MAX, NANOS_PER_SEC; lia]].
  do 4 (split; [done|]). by exists x6.
Qed.

Definition config_error {A} (r : Result A) : Prop :=
  match r with Ok _ | Err (Config _) => True | Err _ => False end.

Lemma try_config {A B} (r : Result A) (f : A -> Result B) :
  config_error r -> (forall a, config_error (f a)) -> config_error (try a := r in f a).
Proof. destruct r; auto. Qed.

Lemma required_config get key : config_error (required get key).
Proof. unfold required. by destruct (get key). Qed.

Lemma parse_config {A} (f : string -> result A string) key v : config_error (parse f key v).
Proof. unfold parse. by destruct (f v). Qed.

Lemma level_config n : config_error (ZstdLevel_new n).
Proof. unfold ZstdLevel_new. by repeat case_match. Qed.

Lemma from_source_config get : config_error (from_source get).
Proof.
  unfold from_source.
  repeat first
    [ apply try_config; [|intros ?] | apply required_config | apply parse_config | apply level_config
    | done | case_match ].
Qed.

(** The same failure, or both succeed. *)
Definition same_error {A} (r r' : Result A) : Prop :=
  match r, r' with Err e, Err e' => e = e' | Ok _, Ok _ => True | _, _ => False end.

Lemma same_try {A B} (r : Result A) (f f' : A -> Result B) :
  (forall a, same_error (f a) (f' a)) -> same_error (try a := r in f a) (try a := r in f' a).
Proof. destruct r; simpl; auto. Qed.

Lemma same_try_secret {A B} (o o' : option A) e (f f' : A -> Result B) :
  (is_Some o' <-> is_Some o) -> (forall a a', same_error (f a) (f' a')) ->
  same_error (try a := ok_or o e in f a) (try a := ok_or o' e in f' a).
Proof.
  rewrite <-!not_eq_None_Some. destruct o, o'; simpl; auto; intros [H1 H2]; exfalso;
    [by apply H2|by apply H1].
Qed.

(** C36. A variable that is missing or malformed is reported as such and without
    secrets: whenever [from_source] fails it is with a configuration error, whose
    message does not depend on the database password or the Drive credentials.
    (The credentials are taken as they are here; [build_hub] parses them later,
    with an error of its own.) *)
Theorem settings_errors get e :
  from_source get = Err e ->
  (exists m, e = Config m) /\
  forall get',
    (forall k, k <> "DB_PASSWORD" -> k <> "DRIVE_CREDS" -> get' k = get k) ->
    (is_Some (get' "DB_PASSWORD") <-> is_Some (get "DB_PASSWORD")) ->
    (is_Some (get' "DRIVE_CREDS") <-> is_Some (get "DRIVE_CREDS")) ->
    from_source get' = Err e.
Proof.
  intros He. split.
  { pose proof (from_source_config get) as Hc. rewrite He in Hc. destruct e; try done. eauto. }
  intros get' Hsame Hpw Hcr.
  assert (same_error (from_source get) (from_source get')) as Hs.
  { unfold from_source, required.
    rewrite (Hsame "DB_HOST"), (Hsame "DB_PORT"), (Hsame "DB_USERNAME"), (Hsame "DB_NAME"),
      (Hsame "COMPRESSION_LEVEL"), (Hsame "DRIVE_RETENTION_COUNT"), (Hsame "PG_TIMEOUT_SECS"),
      (Hsame "LISTEN_ADDR"), (Hsame "DRIVE_FOLDER_ID"), (Hsame "DATA_FOLDER") by done.
    repeat first [apply same_try; intros ?|apply same_try_secret; [done|intros ? ?]]. done. }
  rewrite He in Hs. destruct (from_source get') as [s|e']; simpl in Hs; [done|]. by subst.
Qed.

(** ** Settings written out *)

(** The variables that stand for [s]. *)
Definition env_of (s : Settings) (k : string) : option string :=
  if String.eqb k "DB_HOST" then Some (host (set_db s))
  else if String.eqb k "DB_PORT" then Some (int_to_string (port (set_db s)))
  else if String.eqb k "DB_USERNAME" then Some (user (set_db s))
  else if String.eqb k "DB_PASSWORD" then Some (expose (password (set_db s)))
  else if String.eqb k "DB_NAME" then Some (db (set_db s))
  else if String.eqb k "COMPRESSION_LEVEL" then Some (ZstdLevel_display (comp_level s))
  else if String.eqb k "DRIVE_RETENTION_COUNT" then int_to_string <$> set_retention s
  else if String.eqb k "PG_TIMEOUT_SECS" then Some (int_to_string (pg_timeout s / NANOS_PER_SEC))
  else if String.eqb k "LISTEN_ADDR" then Some (SocketAddr_display (listen_addr s))
  else if String.eqb k "DRIVE_CREDS" then Some (expose (drive_creds s))
  else if String.eqb k "DRIVE_FOLDER_ID" then Some (drive_folder_id s)
  else if String.eqb k "DATA_FOLDER" then Some (set_data_folder s)
  else None.

Lemma parse_printed lo hi key n :
  lo <= 0 <= hi -> lo <= n <= hi -> parse (int_from_str (parse_int lo hi)) key (int_to_string n) = Ok n.
Proof. intros H0 Hn. unfold parse, int_from_str. by rewrite int_to_string_roundtrip. Qed.

Lemma level_new_value l : 1 <= level_value l <= 22 -> ZstdLevel_new (level_value l) = Ok l.
Proof.
  intros Hl. unfold ZstdLevel_new. rewrite try_from_in by (unfold U8_MAX; lia).
  replace ((1 <=? level_value l) && (level_value l <=? 22)) with true by lia. by destruct l.
Qed.

Lemma parse_keep keep :
  (forall n, keep = Some n -> 1 <= n <= USIZE_MAX) ->
  match int_to_string <$> keep with
  | None => Ok None
  | Some v =>
      try n := parse (int_from_str parse_usize) "DRIVE_RETENTION_COUNT" v in
      if n =? 0 then Err (Config "DRIVE_RETENTION_COUNT must be positive") else Ok (Some n)
  end = Ok keep.
Proof.
  destruct keep as [n|]; simpl; [|done]. intros Hn. specialize (Hn n eq_refl). unfold parse_usize.
  rewrite parse_printed by lia. by replace (n =? 0) with false by lia.
Qed.

(** C35. Every configuration can be expressed: settings with any texts, any
    IPv4 or IPv6 address, any port, a level from 1 to 22, any positive
    retention count or none and any positive time limit in seconds are read
    back exactly from the variables they are printed to. *)
Theorem settings_roundtrip s : settings_ok s -> from_source (env_of s) = Ok s.
Proof.
  intros (Haddr & Hport & Hlevel & Hkeep & secs & Hsecs & Ht). unfold from_source, required.
  cbn [env_of String.eqb Ascii.eqb Bool.eqb ok_or default from_option Datatypes.id].
  unfold parse_u16, parse_u64, parse_i64, ZstdLevel_display.
  rewrite parse_keep by done. rewrite Ht. unfold from_secs at 1. rewrite Z.div_mul by done.
  assert (parse parse_socket_addr "LISTEN_ADDR" (SocketAddr_display (listen_addr s)) = Ok (listen_addr s)) as ->
    by (unfold parse; by rewrite socket_addr_roundtrip).
  rewrite !parse_printed by (unfold U16_MAX, U64_MAX, I64_MIN, I64_MAX in *; lia).
  rewrite level_new_value by done. replace (secs =? 0) with false by lia.
  destruct s as [addr [h pt u [pw] n] lv [cr] fo da ke ti]; cbn in *. by subst.
Qed.

Lemma settings_roundtrip_witness :
  exists s, from_source (env_of s) = Ok s /\ env_of s "LISTEN_ADDR" = Some "[fe80::1%2]:50051" /\ set_retention s = Some 7.
Proof.
  exists (mkSettings (V6 [65152; 0; 0; 0; 0; 0; 0; 1] 2 50051) (mkDbTarget "db" 5432 "me" (Secret_new "pw") "tracker")
    (mkZstdLevel 19) (Secret_new "{}") "folder" "data" (Some 7) (from_secs 3600)).
  split; [|by vm_compute]. apply settings_roundtrip.
  split; [|split; [simpl; lia|split; [simpl; lia|split; [by intros n [= <-]|by exists 3600]]]].
  split; [done|]. split; [|done]. unfold is_group. rewrite !Forall_cons, Forall_nil. lia.
Defined.

Definition sample_env (k : string) : option string :=
  if String.eqb k "LISTEN_ADDR" then Some "127.0.0.1:6000"
  else if String.eqb k "COMPRESSION_LEVEL" then Some "9"
  else if bool_decide (k ∈ ["DB_PORT"; "DRIVE_RETENTION_COUNT"; "PG_TIMEOUT_SECS"; "DATA_FOLDER"]) then None
  else Some "x".

Lemma settings_valid_witness :
  exists s, from_source sample_env = Ok s /\ 1 <= level_value (comp_level s) <= 22.
Proof.
  destruct (from_source sample_env) as [s|e] eqn:Hs; [|by vm_compute in Hs].
  exists s. split; [done|]. by destruct (settings_valid sample_env s Hs) as (_ & _ & _ & _ & _ & _ & (_ & _ & Hl & _) & _).
Defined.

Definition bad_env (k : string) : option string :=
  if String.eqb k "COMPRESSION_LEVEL" then Some "42" else sample_env k.

Lemma settings_errors_witness : exists m, from_source bad_env = Err (Config m).
Proof.
  destruct (from_source bad_env) as [s|e] eqn:Hs; [by vm_compute in Hs|].
  destruct (settings_errors bad_env e Hs) as [[m ->] _]. by exists m.
Defined.
