(* ===== verification/System.v ===== *)
(** * [main.rs]: the parts put together

    The use cases run over [PgTools], [GoogleDriveStorage] and the operating
    system, as [main] wires them from the settings.  Every call of a port is
    replaced by the code that implements it, and the theorems on the use cases
    carry over to the whole. *)

From Stdlib Require Import ZArith Lia Ascii.
From stdpp Require Import base numbers gmap sorting strings list.
From S2P Require Import Prelude RustStd Md5 Url Chrono Core Ports Service Fakes ServiceWorld Api Discipline.
From S2P Require Import Pg Drive DriveStorage DriveContract Compression SocketAddr Settings.
Open Scope Z_scope.
Open Scope rust_scope.

(** ** The interface of the whole *)

(** What the service itself asks of the operating system. *)
Inductive OsE : Type -> Type :=
| OsTryLock : OsE bool
| OsUnlock : OsE unit
| OsNewTemp (prefix suffix : string) (dir : path) : OsE (result path string)
| OsDropTemp (p : path) : OsE unit
| OsClock : OsE DateTime
| OsInstant : OsE Z
(* the error of the task's [JoinHandle], if it did not end normally *)
| OsJoin : OsE (option string)
| OsLog (lv : Level) (msg : string) : OsE unit.

Inductive SysE : Type -> Type :=
| SPg {T} (e : PgE T) : SysE T
| SDrive {T} (e : DriveE T) : SysE T
| SFs {T} (e : FsE T) : SysE T
| SOs {T} (e : OsE T) : SysE T.

Definition lift {E T} (inj : forall T, E T -> SysE T) (p : prog E T) : prog SysE T :=
  interp (fun T e => trigger (inj T e)) p.

Section Wiring.
Context `{RustFmt, Md5} (pg : PgTools) (drive : GoogleDriveStorage).

(** The code behind each port. *)
Definition wire (T : Type) (e : PortE T) : prog SysE T :=
  match e in PortE T return prog SysE T with
  | TryLock => trigger (SOs OsTryLock)
  | Unlock => trigger (SOs OsUnlock)
  | NewTempFile prefix suffix dir => trigger (SOs (OsNewTemp prefix suffix dir))
  | DropTempFile p => trigger (SOs (OsDropTemp p))
  | Dumper_dump dst => lift (@SPg) (PgTools_dump pg dst)
  | Restorer_restore src => lift (@SPg) (PgTools_restore pg src)
  | DbHealth_ping => lift (@SPg) (PgTools_ping pg)
  | Storage_upload req => lift (@SDrive) (drive_upload drive req)
  | Storage_list n tok => lift (@SDrive) (drive_list drive n tok)
  | Storage_latest => lift (@SDrive) (drive_latest drive)
  | Storage_get i => lift (@SDrive) (drive_get drive i)
  | Storage_download b dst => lift (@SDrive) (drive_download drive b dst)
  | Storage_delete i => lift (@SDrive) (drive_delete drive i)
  | Clock_now => trigger (SOs OsClock)
  | Instant_now => trigger (SOs OsInstant)
  | DecompressTask src dst =>
      bind (lift (@SFs) (decompress_file src dst)) (fun r =>
      bind (trigger (SOs OsJoin)) (fun j =>
      Ret (match j with Some e => Err e | None => Ok r end)))
  | Log lv msg => trigger (SOs (OsLog lv msg))
  end.
End Wiring.

(** What [main] builds from the settings. *)
Definition pg_of (cfg : Settings) : PgTools :=
  mkPgTools (set_db cfg) (comp_level cfg) (pg_timeout cfg).
Definition drive_of (cfg : Settings) : GoogleDriveStorage :=
  mkGoogleDriveStorage (drive_folder_id cfg) DriveOptions_default.
Definition deps_of (cfg : Settings) : ServiceDeps :=
  mkServiceDeps (db (target (pg_of cfg))) (db (target (pg_of cfg))) (set_data_folder cfg)
    (Z.to_nat <$> set_retention cfg).

(** A use case of the server with these settings. *)
Definition system `{RustFmt, Md5} (cfg : Settings) {A} (use_case : ServiceDeps -> M A) : prog SysE A :=
  interp (wire (pg_of cfg) (drive_of cfg)) (use_case (deps_of cfg)).

(** ** The world of the whole *)

Record SysWorld `{PgFormat} := mkSysWorld { sys_db : Db; sys_drive : DWorld }.

Section Sound.
Context `{RustFmt, Md5, PgFormat, DriveApi} (cfg : Settings).
Context `{!PgPrograms (target (pg_of cfg))} `{!DriveServer (folder_id (drive_of cfg))}.

Definition sabs (sw : SysWorld) : World := abs (drive_of cfg) (sys_db sw) (sys_drive sw).

Definition set_local (sw : SysWorld) (files : gmap path bytes) : SysWorld :=
  mkSysWorld _ (sys_db sw) (mkDWorld (d_stored (sys_drive sw)) files).

(** Processes change the database and local files, Drive its files, the file
    system local files.  A temporary path starts as its folder does. *)
Definition sys_step (sw : SysWorld) (e : event SysE) (sw' : SysWorld) : Prop :=
  match e with
  | Ev op r =>
      match op in SysE T return T -> Prop with
      | SPg e => fun r => exists w', pg_step (pg_of cfg) (sabs sw) (Ev e r) w' /\
          w_store w' = w_store (sabs sw) /\ w_others w' = w_others (sabs sw) /\
          sw' = mkSysWorld _ (w_db w') (mkDWorld (d_stored (sys_drive sw)) (w_files w'))
      | SDrive e => fun r => sys_db sw' = sys_db sw /\ dstep (sys_drive sw) (Ev e r) (sys_drive sw')
      | SFs e => fun r => exists files, fs_step (d_local (sys_drive sw)) (Ev e r) files /\
          sw' = set_local sw files
      | SOs e => fun r =>
          match e in OsE T return T -> Prop with
          | OsNewTemp _ _ dir => fun r =>
              match r with
              | Ok p => d_local (sys_drive sw) !! p = None /\ starts_with_dash p = starts_with_dash dir /\
                  sw' = set_local sw (<[p := []]> (d_local (sys_drive sw)))
              | Err _ => sw' = sw
              end
          | OsDropTemp p => fun _ => sw' = set_local sw (delete p (d_local (sys_drive sw)))
          | _ => fun _ => sw' = sw
          end r
      end r
  end.

Definition sys_any (sw : SysWorld) (T : Type) (e : SysE T) : Prop := True.

Abbreviation wps := (wp sys_any sys_step).

(** ** Lifting the parts *)

Lemma wps_pg {A} (p : prog PgE A) (Q : A -> World -> Prop) sw :
  wp pg_any (pg_step (pg_of cfg)) p Q (sabs sw) ->
  wps (lift (@SPg) p) (fun a sw' => Q a (sabs sw') /\
    d_stored (sys_drive sw') = d_stored (sys_drive sw)) sw.
Proof.
  revert sw. induction p as [a|T e k IH]; intros sw; simpl; [done|].
  intros [_ Hk]. split; [done|]. intros r sw' (w' & Hs & Hst & Hot & ->). cbn [bind].
  eapply wp_mono; [|apply IH].
  - intros a sw2 [HQ Hd]. by split.
  - assert (sabs (mkSysWorld _ (w_db w') (mkDWorld (d_stored (sys_drive sw)) (w_files w'))) = w') as ->.
    { unfold sabs, abs in *. simpl in *. rewrite <-Hst, <-Hot. by destruct w'. }
    by apply Hk.
Qed.

Lemma wps_drive {A} (p : prog DriveE A) (Q : A -> DWorld -> Prop) sw :
  wp d_any dstep p Q (sys_drive sw) ->
  wps (lift (@SDrive) p) (fun a sw' => Q a (sys_drive sw') /\ sys_db sw' = sys_db sw) sw.
Proof.
  revert sw. induction p as [a|T e k IH]; intros sw; simpl; [done|].
  intros [_ Hk]. split; [done|]. intros r sw' [Hdb Hs]. cbn [bind].
  eapply wp_mono; [|apply IH; by apply Hk]. intros a sw2 [HQ Hd]. split; [done|congruence].
Qed.

Lemma wps_fs {A} (p : prog FsE A) (Q : A -> gmap path bytes -> Prop) sw :
  wp fs_any fs_step p Q (d_local (sys_drive sw)) ->
  wps (lift (@SFs) p) (fun a sw' => exists files, Q a files /\ sw' = set_local sw files) sw.
Proof.
  revert sw. induction p as [a|T e k IH]; intros sw; simpl.
  - intros HQ. exists (d_local (sys_drive sw)). split; [done|]. by destruct sw as [? []].
  - intros [_ Hk]. split; [done|]. intros r sw' (files & Hs & ->). cbn [bind].
    eapply wp_mono; [|apply (IH r (set_local sw files)); by apply Hk].
    intros a sw2 (files' & HQ & ->). eauto.
Qed.

(** ** The files a request owns exist *)

Lemma only_file_live p w w' q :
  only_file p w w' -> is_Some (w_files w !! q) -> is_Some (w_files w' !! q).
Proof.
  intros (_ & _ & _ & Hp & Hd) Hq. destruct (decide (q = p)) as [->|Hne]; [done|].
  by rewrite <-(lookup_delete_ne (w_files w') p q), Hd, lookup_delete_ne by done.
Qed.

Lemma writes_file_live p c w w' q :
  writes_file p c w w' -> is_Some (w_files w !! q) -> is_Some (w_files w' !! q).
Proof.
  intros -> Hq. simpl. destruct (decide (q = p)) as [->|Hne]; [rewrite lookup_insert_eq; eauto|].
  by rewrite lookup_insert_ne.
Qed.

Lemma elem_of_drop_path q p l : q ∈ drop_path p l -> q ∈ l /\ p <> q.
Proof.
  unfold drop_path. intros Hq. apply list_elem_of_In, filter_In in Hq as [Hq Hn].
  split; [by apply list_elem_of_In|]. apply negb_true_iff, String.eqb_neq in Hn. done.
Qed.

Lemma live_kept w o e w' :
  port_step w e w' -> (forall p, p ∈ live o -> is_Some (w_files w !! p)) ->
  forall p, p ∈ live (own o e) -> is_Some (w_files w' !! p).
Proof.
  intros Hs Hlive. destruct e as [[]| |suf [q|er]|q|q [[]|er]|q [[]|er]|[[]|er]|req [info|er]|n tok [page|er]
    |[[info|]|er]|i [info|er]|b q [[]|er]|i [[]|er]|t|t|src q [[[]|er]|er]|lv m]; cbn [own live port_step] in *;
    intros p Hp; try (subst; by apply Hlive).
  - destruct Hs as [_ Hs]. apply elem_of_cons in Hp as [->|Hp]; [|by eapply writes_file_live, Hlive].
    rewrite Hs. simpl. rewrite lookup_insert_eq. eauto.
  - apply elem_of_drop_path in Hp as [Hp Hne]. subst. simpl. rewrite lookup_delete_ne by done. auto.
  - destruct Hs as (c & _ & Hs). by eapply writes_file_live, Hlive.
  - by eapply only_file_live, Hlive.
  - destruct Hs as (? & ? & ? & _ & _ & _ & ->). by apply Hlive.
  - destruct Hs as [-> |(? & ? & ? & _ & _ & _ & ->)]; by apply Hlive.
  - destruct Hs as (? & _ & _ & _ & _ & _ & _ & _ & ->). by apply Hlive.
  - destruct Hs as [-> |(? & ? & _ & _ & _ & _ & _ & _ & _ & ->)]; by apply Hlive.
  - destruct Hs as [-> _]. by apply Hlive.
  - destruct Hs as [-> _]. by apply Hlive.
  - destruct Hs as [-> _]. by apply Hlive.
  - destruct Hs as [-> _]. by apply Hlive.
  - destruct Hs as [Hs _]. by eapply only_file_live, Hlive.
  - by eapply only_file_live, Hlive.
  - rewrite Hs. by apply Hlive.
  - destruct Hs as [-> |Hs]; [|rewrite Hs]; by apply Hlive.
  - destruct Hs as (? & ? & _ & _ & Hs). by eapply writes_file_live, Hlive.
  - by eapply only_file_live, Hlive.
  - by eapply only_file_live, Hlive.
Qed.

(** ** Each port is implemented *)

Definition temp_dir_ok (T : Type) (op : PortE T) : Prop :=
  match op with NewTempFile _ _ dir => starts_with_dash dir = false | _ => True end.

Definition hpre (s : World * Owned) (T : Type) (op : PortE T) : Prop :=
  mon_pre own_allowed s.2 T op /\ temp_dir_ok T op.

Definition hstep (s : World * Owned) (e : event PortE) (s' : World * Owned) : Prop :=
  world_step s.1 e s'.1 /\ mon_step fresh_temp own s.2 e s'.2.

(** The port's view of the whole, and the files the request owns. *)
Definition linked (s : World * Owned) (sw : SysWorld) : Prop :=
  s.1 = sabs sw /\ d_ok (sys_drive sw) /\
  forall p : path, p ∈ live s.2 -> is_Some (w_files s.1 !! p) /\ starts_with_dash p = false.

Lemma linked_step o sw sw' T (op : PortE T) r :
  linked (sabs sw, o) sw -> d_ok (sys_drive sw') -> port_step (sabs sw) (obs (Ev op r)) (sabs sw') ->
  match obs (Ev op r) with
  | ENewTemp _ (Ok p) => starts_with_dash p = false
  | _ => True
  end ->
  exists s', hstep (sabs sw, o) (Ev op r) s' /\ linked s' sw'.
Proof.
  intros (_ & _ & Hlive) Hok Hs Hdash. exists (sabs sw', own o (obs (Ev op r))).
  cbn [fst snd] in Hlive. split.
  - split; [exact Hs|]. split; [|done]. cbn [snd].
    destruct (obs (Ev op r)) as [| |suf [p|er]| | | | | | | | | | | | | |]; try done.
    cbn [fresh_temp]. intros Hp. destruct (Hlive p Hp) as [Hp' _]. destruct Hs as [Hn _]. rewrite Hn in Hp'.
    by destruct Hp'.
  - split; [done|]. split; [done|]. cbn [fst snd]. intros p Hp. split.
    + eapply live_kept; [exact Hs| |exact Hp]. intros q Hq. by apply Hlive.
    + destruct (obs (Ev op r)) as [[]| |suf [q|er]|q| | | | | | | | | | | | |]; simpl in Hp; try by apply Hlive.
      * apply elem_of_cons in Hp as [->|Hp]; [done|by apply Hlive].
      * apply elem_of_drop_path in Hp as [Hp _]. by apply Hlive.
Qed.

Lemma owned_path o p sw :
  linked (sabs sw, o) sw -> p ∈ live o -> is_Some (d_local (sys_drive sw) !! p) /\ starts_with_dash p = false.
Proof. intros (_ & _ & Hlive) Hp. exact (Hlive p Hp). Qed.

(** A port served by PostgreSQL's programs. *)
Lemma wire_pg o sw (op : PortE (Result unit)) (p : prog PgE (Result unit)) :
  linked (sabs sw, o) sw ->
  match op with NewTempFile _ _ _ => False | _ => True end ->
  wp pg_any (pg_step (pg_of cfg)) p (fun r w' => port_step (sabs sw) (obs (Ev op r)) w') (sabs sw) ->
  wps (lift (@SPg) p) (fun r sw' => exists s', hstep (sabs sw, o) (Ev op r) s' /\ linked s' sw') sw.
Proof.
  intros Hl Hop Hp. eapply wp_mono; [|by apply wps_pg]. intros r sw' [Hs Hst].
  apply linked_step; [done| |done|].
  - destruct Hl as (_ & Hok & _). unfold d_ok in *. cbn [snd] in *. by rewrite Hst.
  - by destruct op.
Qed.

(** A port served by Drive. *)
Lemma wire_drive {A} o sw (op : PortE (Result A)) (p : prog DriveE (Result A)) :
  linked (sabs sw, o) sw -> (forall r, match obs (Ev op r) with ENewTemp _ _ => False | _ => True end) ->
  wp d_any dstep p (fun r w' => d_ok w' /\
    port_step (sabs sw) (obs (Ev op r)) (abs (drive_of cfg) (sys_db sw) w')) (sys_drive sw) ->
  wps (lift (@SDrive) p) (fun r sw' => exists s', hstep (sabs sw, o) (Ev op r) s' /\ linked s' sw') sw.
Proof.
  intros Hl Hop Hp. eapply wp_mono; [|by apply wps_drive]. intros r sw' [[Hok Hs] Hdb].
  apply linked_step; [done|done| |].
  - unfold sabs at 2. by rewrite Hdb.
  - specialize (Hop r). by destruct (obs (Ev op r)).
Qed.

(** A port served by one call to the operating system. *)
Lemma wire_os {T} o sw (op : PortE T) (e : OsE T) :
  linked (sabs sw, o) sw ->
  (forall r sw', sys_step sw (Ev (SOs e) r) sw' ->
     d_ok (sys_drive sw') /\ port_step (sabs sw) (obs (Ev op r)) (sabs sw') /\
     match obs (Ev op r) with ENewTemp _ (Ok p) => starts_with_dash p = false | _ => True end) ->
  wps (trigger (SOs e)) (fun r sw' => exists s', hstep (sabs sw, o) (Ev op r) s' /\ linked s' sw') sw.
Proof.
  intros Hl He. split; [done|]. intros r sw' Hs. destruct (He r sw' Hs) as (Hok & Hp & Hd).
  by apply linked_step.
Qed.

Lemma decompress_linked o sw src dst :
  linked (sabs sw, o) sw -> src ∈ live o /\ dst ∈ live o /\ src <> dst ->
  wps (wire (pg_of cfg) (drive_of cfg) _ (DecompressTask src dst))
    (fun r sw' => exists s', hstep (sabs sw, o) (Ev (DecompressTask src dst) r) s' /\ linked s' sw') sw.
Proof.
  intros Hl (Hsrc & Hdst & Hne). destruct (owned_path _ _ _ Hl Hdst) as [Hd _]. cbn [wire].
  eapply wp_bind_2; [apply wps_fs, decompress_wp; [exact Hd|exact Hne]|].
  intros r sw' (files & (Hf & Hdel & Hok) & ->). split; [done|]. intros j sw2 ->.
  assert (d_ok (sys_drive (set_local sw files))) by (destruct Hl as (_ & Hok' & _); exact Hok').
  assert (only_file dst (sabs sw) (sabs (set_local sw files))) as Honly by (by split_and!).
  apply linked_step; [done|done| |done]. cbn [obs port_step].
  destruct j as [e|]; [done|]. destruct r as [[]|e]; [|done].
  destruct (Hok eq_refl) as (c & js & Hc & Hj & ->). by exists c, js.
Qed.

Lemma wire_ok T (op : PortE T) s sw :
  hpre s T op -> linked s sw ->
  wps (wire (pg_of cfg) (drive_of cfg) T op)
    (fun r sw' => exists s', hstep s (Ev op r) s' /\ linked s' sw') sw.
Proof.
  destruct s as [w o]. intros [Hpre Hdir] Hl. assert (w = sabs sw) as -> by apply Hl.
  pose proof Hl as (_ & Hok & _). unfold mon_pre in Hpre. cbn [snd] in *.
  destruct op; cbn [obs own_allowed temp_dir_ok] in Hpre, Hdir.
  - apply wire_os; [done|]. by intros r sw' ->.
  - apply wire_os; [done|]. by intros r sw' ->.
  - apply wire_os; [done|]. intros [p|e] sw' Hs; cbn [sys_step] in Hs; [|by subst].
    destruct Hs as (Hn & Hd & ->). split_and!; [done| |exact (eq_trans Hd Hdir)]. by split.
  - apply wire_os; [done|]. by intros r sw' ->.
  - destruct (owned_path _ _ _ Hl (proj2 (Hpre (Ok tt)))). apply wire_pg; [done..|].
    by apply pg_dump_wp.
  - destruct (owned_path _ _ _ Hl (proj2 (Hpre (Ok tt)))). apply wire_pg; [done..|]. by apply pg_restore_wp.
  - apply wire_pg; [done..|]. apply pg_ping_wp.
  - apply wire_drive; [done..|]. by apply drive_upload_wpd.
  - apply wire_drive; [done..|]. eapply wp_mono; [|by apply drive_list_wpd].
    by intros r w' [-> Hs].
  - apply wire_drive; [done..|]. eapply wp_mono; [|by apply drive_latest_wpd]. by intros r w' [-> Hs].
  - apply wire_drive; [done..|]. eapply wp_mono; [|by apply drive_get_wpd]. by intros r w' [-> Hs].
  - destruct (owned_path _ _ _ Hl (Hpre (Ok tt))). apply wire_drive; [done..|]. by apply drive_download_contract.
  - apply wire_drive; [done..|]. by apply drive_delete_wpd.
  - apply wire_os; [done|]. by intros r sw' ->.
  - apply wire_os; [done|]. by intros r sw' ->.
  - apply decompress_linked; [done|]. exact (Hpre (Err "")).
  - apply wire_os; [done|]. by intros r sw' ->.
Qed.

(** ** Every request *)

Create HintDb calls.

Lemma with_temp_calls {A} p (body : M A) : calls temp_dir_ok body -> calls temp_dir_ok (with_temp p body).
Proof. intros Hb. by apply calls_bind. Qed.

Lemma with_guard_calls {A} (body : M A) : calls temp_dir_ok body -> calls temp_dir_ok (with_guard body).
Proof. intros Hb. by apply calls_bind. Qed.

Ltac calls_step :=
  repeat first
    [ exact I | done | solve [auto with calls nocore]
    | apply with_temp_calls | apply with_guard_calls | apply calls_for_each; intros ?
    | apply calls_bind; [|intros ?]
    | progress cbn [bind trigger calls]
    | match goal with |- _ /\ _ => split | |- forall _, _ => intros ? end
    | case_match ].

Context (Hdata : starts_with_dash (set_data_folder cfg) = false).

Lemma resolve_calls target : calls temp_dir_ok (resolve target).
Proof. unfold resolve. calls_step. Qed.

Lemma dump_calls k : calls temp_dir_ok (dump_and_upload (deps_of cfg) k).
Proof. unfold dump_and_upload, temp_file. calls_step. Qed.

Lemma list_pages_calls n all tok : calls temp_dir_ok (list_pages n all tok).
Proof. revert all tok. induction n as [|n IH]; intros all tok; cbn [list_pages]; calls_step; apply IH. Qed.

#[local] Hint Resolve resolve_calls dump_calls list_pages_calls : calls.

Lemma create_backup_calls : calls temp_dir_ok (create_backup (deps_of cfg)).
Proof. unfold create_backup, lock, prune_old_backups, list_all, prune_one. calls_step. Qed.

Lemma download_calls target : calls temp_dir_ok (download (deps_of cfg) target).
Proof. unfold download, temp_file. calls_step. Qed.

Lemma restore_calls target confirm : calls temp_dir_ok (restore (deps_of cfg) target confirm).
Proof. unfold restore, lock, temp_file. calls_step. Qed.

#[local] Hint Resolve create_backup_calls download_calls restore_calls : calls.

Lemma serve_calls req : calls temp_dir_ok (serve (deps_of cfg) req).
Proof.
  destruct req; unfold serve, map_prog, grpc_create_backup, grpc_list_backups, list_backups, grpc_get_backup,
    grpc_download_backup, grpc_restore, grpc_healthcheck, healthcheck, or_status, to_status; calls_step.
Qed.

(** A program that keeps the discipline does to the whole what it may do to
    the ports. *)
Lemma system_refines {A} (p : M A) Q sw :
  calls temp_dir_ok p -> wpo p Q nothing_owned -> d_ok (sys_drive sw) ->
  wps (interp (wire (pg_of cfg) (drive_of cfg)) p) (fun a sw' =>
    completes p (sabs sw) a (sabs sw') /\ d_ok (sys_drive sw')) sw.
Proof.
  intros Hc Ho Hok.
  assert (linked (sabs sw, nothing_owned) sw) as Hl by (by split_and!; [..|intros p' ?%elem_of_nil]).
  assert (wp (fun w _ _ => True) world_step p (completes p (sabs sw)) (sabs sw)) as Hw by apply wp_reaches.
  pose proof (calls_wp _ _ _ _ _ _ Hc (wp_both _ _ _ _ _ _ _ _ _ Hw Ho)) as Hp.
  eapply wp_mono; [|eapply (wp_interp _ _ _ _ _ linked); [|exact Hp|exact Hl]].
  - intros a sw' ([w o] & [Hcomp _] & (Hw' & Hok' & _)). cbn [fst] in *. by subst w.
  - intros T op s sw1 [[_ Hpre] Hdir] Hl1. by apply wire_ok.
Qed.

(** C3. The server as [main] puts it together implements the contract the use
    cases are proved against.  Run any of the six requests over [pg_dump],
    [pg_restore] and [psql] processes, the Drive API and the file system,
    whatever they answer within their documented behaviour: the answer and
    the effect on the database, the stored backups and the files are those of
    a run of the request over the ports, and the folder stays well formed. *)
Theorem system_refines_ports req sw :
  d_ok (sys_drive sw) ->
  wps (system cfg (fun deps => serve deps req)) (fun r sw' =>
    completes (serve (deps_of cfg) req) (sabs sw) r (sabs sw') /\ d_ok (sys_drive sw')) sw.
Proof. eapply system_refines; [apply serve_calls|apply serve_wpo]. Qed.

(** C4. A restore is all or nothing through every layer, from the RPC's use case
    down to the command lines, the calls to Drive with their retries and the
    files.  When it succeeds, every object of the chosen backup is in the
    database as the backup has it, every other object in it is one that was
    there before, unchanged ([restored_over]: [--clean] drops only what the
    archive has), and a dump of the old database is stored.  When it reports an
    error, either the database is as it was and the storage has at most gained
    a dump of it, or all of the above holds and only the confirmation is
    missing.  No local file is left. *)
Theorem system_restore_atomic target confirm sw :
  d_ok (sys_drive sw) ->
  wps (system cfg (fun deps => restore deps target confirm)) (fun r sw' =>
    restored_to (sabs sw) target r (sabs sw')) sw.
Proof.
  intros Hok. eapply wp_mono; [|eapply system_refines; [apply restore_calls|apply restore_wpo|done]].
  intros r sw' [Hc _]. eapply wpi_completes, Hc. apply restore_wpi.
Qed.
End Sound.

(** ** Witness: an executable environment *)

#[local] Instance sys_fmt : RustFmt := {| str_debug := fun s => s |}.
#[local] Instance sys_pg : PgFormat := text_pg Some.
#[local] Instance sys_dump : PgDump := text_pg_dump _.

Definition sys_cfg : Settings :=
  mkSettings (V4 [127; 0; 0; 1] 6000) (mkDbTarget "db" 5432 "me" (Secret_new "hunter2") "tracker")
    ZstdLevel_default (Secret_new "{}") "folder" "data" (Some 3) (from_secs 3600).

#[local] Instance sys_api : DriveApi := page_drive "folder".
#[local] Instance sys_server : DriveServer (folder_id (drive_of sys_cfg)) := page_server "folder".
#[local] Instance sys_programs : PgPrograms (target (pg_of sys_cfg)) := plain_programs (target (pg_of sys_cfg)).

Definition finished : option (result Output string) := Some (Ok (mkOutput true "exit status: 0" [] [])).

(** The outcome of a process that succeeds. *)
Definition run_child (w : World) (cmd : PgCommand) : option World :=
  opts ← getopt (args cmd);
  if String.eqb (program cmd) "pg_dump" then
    match option_values "--file" opts with
    | [dst] => Some (mkWorld _ (w_db w) (w_store w) (<[dst := pg_dump_bytes (w_db w)]> (w_files w)) (w_others w))
    | _ => None
    end
  else if String.eqb (program cmd) "pg_restore" then
    match operands opts with
    | [src] => content ← w_files w !! src; a ← pg_restore_bytes content;
               Some (mkWorld _ (a ∪ w_db w) (w_store w) (w_files w) (w_others w))
    | _ => None
    end
  else Some w.

Lemma run_child_sound w cmd w' :
  run_child w cmd = Some w' ->
  plain_child w cmd (Exited true) w' /\ w_store w' = w_store w /\ w_others w' = w_others w.
Proof.
  unfold run_child, plain_child. destruct (getopt (args cmd)) as [opts|]; [|done]. cbn [mbind option_bind].
  destruct (String.eqb _ _).
  { destruct (option_values _ _) as [|dst []]; try done. intros [= <-]. split; [|done].
    eexists. split; [apply pg_dump_bytes_ok|reflexivity]. }
  destruct (String.eqb _ _); [|naive_solver]. destruct (operands opts) as [|src []]; try done.
  destruct (w_files w !! src) as [c|] eqn:Hc; [|done]. cbn [mbind option_bind].
  destruct (pg_restore_bytes c) as [a|] eqn:Ha; [|done]. cbn [mbind option_bind].
  intros [= <-]. split; [|done]. exists c, a, (a ∪ w_db w). split_and!; [done..|apply script_runs|done].
Qed.

Definition find_stored (i : string) (w : DWorld) : option Stored :=
  List.find (fun x => bool_decide (f_id (s_file x) = Some i)) (d_stored w).

Lemma find_stored_sound i w x : find_stored i w = Some x -> x ∈ d_stored w /\ f_id (s_file x) = Some i.
Proof.
  intros [Hx Hi]%find_some. split; [by apply list_elem_of_In|]. by apply bool_decide_eq_true in Hi.
Qed.

(** The id Drive gives the next file. *)
Definition next_id (w : DWorld) : string := "id" +:+ int_to_string (Z.of_nat (length (d_stored w))).

Definition run_drive (T : Type) (op : DriveE T) (w : DWorld) : option (T * DWorld) :=
  match op in DriveE T return option (T * DWorld) with
  | ListFiles _ q _ _ _ _ => Some (Some (Ok (mkFileList (Some (selected "folder" w q)) None)), w)
  | GetFile _ i _ =>
      Some (Some match find_stored i w with Some x => Ok (s_file x) | None => Err (Failure 404) end, w)
  | GetMedia _ i => x ← find_stored i w; Some (Some (Ok [Data (s_content x)]), w)
  | CreateFile _ meta _ src =>
      content ← d_local w !! src;
      let f := drive_file meta (next_id w) (mkDateTime 1767225700 0) (Z.of_nat (length content))
                 (hex_encode (md5_digest content)) in
      if bool_decide (next_id w ∈ (stored_id <$> d_stored w)) then None
      else Some (Some (Ok f), mkDWorld (mkStored f (default "" (f_mime_type meta)) content :: d_stored w) (d_local w))
  | DeleteFile _ i => Some (Some (Ok tt), mkDWorld (without i (d_stored w)) (d_local w))
  | OpenLocal p => _ ← d_local w !! p; Some (Ok tt, w)
  | CreateLocal p => Some (Ok tt, mkDWorld (d_stored w) (<[p := []]> (d_local w)))
  | WriteLocal p data =>
      Some (Ok tt, mkDWorld (d_stored w) (<[p := default ([] : bytes) (d_local w !! p) ++ data]> (d_local w)))
  | FlushLocal p => Some (Ok tt, w)
  | Sleep _ => Some (tt, w)
  | DriveInstant => Some (0, w)
  | DriveLog _ _ => Some (tt, w)
  | Panic _ => None
  end.

Lemma run_drive_sound T (op : DriveE T) w r w' : run_drive T op w = Some (r, w') -> dstep w (Ev op r) w'.
Proof.
  destruct op; cbn [run_drive dstep api page_drive page_api]; try (by intros [= <- <-]).
  - destruct (find_stored _ _) as [x|] eqn:Hx; intros [= <- <-]; split; [done| |done|by left].
    apply find_stored_sound in Hx as [Hx Hi]. right. eauto.
  - destruct (find_stored _ _) as [x|] eqn:Hx; simpl; [|done]. intros [= <- <-].
    apply find_stored_sound in Hx as [Hx Hi]. split; [done|right; eauto].
  - destruct (d_local w !! src) as [c|] eqn:Hc; simpl; [|done]. case_bool_decide as Hn; [done|].
    intros [= <- <-]. right. eexists _, c. split_and!; [done..|].
    split_and!; try done. exists (next_id w). split; [done|].
    unfold next_id. rewrite plain_app, int_to_string_plain by lia. done.
  - destruct (d_local w !! p) eqn:Hp; [|done]. intros [= <- <-]. eauto.
Qed.

Definition temp_path (prefix suffix : string) (dir : path) (files : gmap path bytes) : path :=
  dir +:+ "/" +:+ prefix +:+ int_to_string (Z.of_nat (size files)) +:+ suffix.

Definition run_sys (T : Type) (op : SysE T) (sw : SysWorld) : option (T * SysWorld) :=
  match op in SysE T return option (T * SysWorld) with
  | SPg e =>
      match e in PgE T return option (T * SysWorld) with
      | RunWithin _ cmd =>
          w ← run_child (sabs sys_cfg sw) cmd;
          Some (finished, mkSysWorld _ (w_db w) (mkDWorld (d_stored (sys_drive sw)) (w_files w)))
      | PgInstant => Some (0, sw)
      | PgLog _ _ => Some (tt, sw)
      end
  | SDrive e => '(r, d) ← run_drive _ e (sys_drive sw); Some (r, mkSysWorld _ (sys_db sw) d)
  | SFs _ => None
  | SOs e =>
      match e in OsE T return option (T * SysWorld) with
      | OsTryLock => Some (true, sw)
      | OsUnlock => Some (tt, sw)
      | OsNewTemp prefix suffix dir =>
          let files := d_local (sys_drive sw) in
          let p := temp_path prefix suffix dir files in
          if bool_decide (files !! p = None /\ starts_with_dash p = starts_with_dash dir)
          then Some (Ok p, set_local sw (<[p := []]> files)) else None
      | OsDropTemp p => Some (tt, set_local sw (delete p (d_local (sys_drive sw))))
      | OsClock => Some (mkDateTime 1767225699 0, sw)
      | OsInstant => Some (0, sw)
      | OsJoin => Some (None, sw)
      | OsLog _ _ => Some (tt, sw)
      end
  end.

Lemma sys_world_eta (sw : SysWorld) :
  mkSysWorld _ (w_db (sabs sys_cfg sw)) (mkDWorld (d_stored (sys_drive sw)) (w_files (sabs sys_cfg sw))) = sw.
Proof. by destruct sw as [? []]. Qed.

Lemma run_sys_sound T (op : SysE T) sw r sw' :
  run_sys T op sw = Some (r, sw') -> sys_step sys_cfg sw (Ev op r) sw'.
Proof.
  destruct op as [T e|T e|T e|T e]; cbn [run_sys sys_step].
  - destruct e; cbn [pg_step].
    + destruct (run_child _ _) as [w|] eqn:Hw; simpl; [|done]. intros [= <- <-].
      apply run_child_sound in Hw as (Hw & Hst & Hot). by exists w.
    + intros [= <- <-]. exists (sabs sys_cfg sw). by rewrite sys_world_eta.
    + intros [= <- <-]. exists (sabs sys_cfg sw). by rewrite sys_world_eta.
  - destruct (run_drive T e _) as [[a d]|] eqn:Hd; simpl; [|done]. intros [= <- <-].
    split; [done|]. by apply run_drive_sound.
  - done.
  - destruct e; try (by intros [= <- <-]). case_bool_decide as Hp; [|done]. intros [= <- <-].
    destruct Hp. by split_and!.
Qed.

(** A folder with one backup, taken when a table was different and another one
    did not exist. *)
Definition sys_old : Db := {["users" := chars "old"; "tags" := chars "t"]}.
Definition sys_backup : Db := {["users" := chars "new"]}.
Definition sys_new : Db := {["users" := chars "new"; "tags" := chars "t"]}.

Definition sys_world : SysWorld :=
  mkSysWorld _ sys_old
    (mkDWorld [mkStored (drive_file (upload_metadata
       (UploadRequest_pg_dump "x" "tracker" Regular (mkDateTime 1767225600 0)) "folder")
       "f1" (mkDateTime 1767225601 0) (Z.of_nat (length (pg_dump_bytes sys_backup)))
       (hex_encode (md5_digest (pg_dump_bytes sys_backup)))) "application/octet-stream" (pg_dump_bytes sys_backup)] ∅).

Lemma sys_world_ok : d_ok (sys_drive sys_world).
Proof.
  unfold d_ok, sys_world. simpl. split_and!.
  - repeat constructor. by eexists.
  - apply NoDup_singleton.
  - by repeat constructor.
Qed.

Definition sys_restore : prog SysE (Result RestoreOutcome) :=
  system sys_cfg (fun deps => restore deps (Id "f1") "tracker").

Lemma sys_restore_runs :
  match run_partial run_sys sys_restore sys_world with
  | Some (Ok _, sw') => bool_decide (sys_db sw' = sys_new)
  | _ => false
  end = true.
Proof. vm_compute. reflexivity. Qed.

(** The restore succeeds in this environment; the table the backup does not
    have stays. *)
Lemma system_restore_atomic_witness :
  exists out tr sw', wsteps (sys_step sys_cfg) sys_restore sys_world tr (Ret (Ok out)) sw' /\
    sys_db sw' = sys_new /\ restored_to (sabs sys_cfg sys_world) (Id "f1") (Ok out) (sabs sys_cfg sw').
Proof.
  pose proof sys_restore_runs as Hok.
  destruct (run_partial run_sys sys_restore sys_world) as [[[out|e] sw']|] eqn:Hr; try discriminate Hok.
  apply bool_decide_eq_true in Hok.
  destruct (run_partial_reaches _ _ _ _ _ _ run_sys_sound Hr) as [tr Htr].
  exists out, tr, sw'. split_and!; [exact Htr|exact Hok|].
  exact (wp_wsteps _ _ _ _ _ _ _ _ (system_restore_atomic sys_cfg eq_refl (Id "f1") "tracker" sys_world sys_world_ok) Htr).
Defined.

Definition sys_restore_call : Request :=
  Restore (mkRestoreRequest (Some (mkBackupRef (Some (TargetId "f1")))) "tracker").

Lemma sys_request_runs :
  match run_partial run_sys (system sys_cfg (fun deps => serve deps sys_restore_call)) sys_world with
  | Some (RestoreReply_ (Ok _), sw') => bool_decide (sys_db sw' = sys_new)
  | _ => false
  end = true.
Proof. vm_compute. reflexivity. Qed.

Lemma system_refines_ports_witness :
  exists r tr sw', wsteps (sys_step sys_cfg) (system sys_cfg (fun deps => serve deps sys_restore_call)) sys_world tr
      (Ret r) sw' /\ sys_db sw' = sys_new /\
    completes (serve (deps_of sys_cfg) sys_restore_call) (sabs sys_cfg sys_world) r (sabs sys_cfg sw').
Proof.
  pose proof sys_request_runs as Hok.
  destruct (run_partial run_sys (system sys_cfg (fun deps => serve deps sys_restore_call)) sys_world)
    as [[r sw']|] eqn:Hr; [|discriminate Hok].
  assert (sys_db sw' = sys_new) as Hnew.
  { destruct r as [[i|e]|r|r|[r|e]|r]; try discriminate Hok. by apply bool_decide_eq_true in Hok. }
  destruct (run_partial_reaches _ _ _ _ _ _ run_sys_sound Hr) as [tr Htr].
  exists r, tr, sw'. split_and!; [exact Htr|exact Hnew|].
  apply (wp_wsteps _ _ _ _ _ _ _ _ (system_refines_ports sys_cfg eq_refl sys_restore_call sys_world sys_world_ok) Htr).
Defined.
