(* ===== verification/SystemSafety.v ===== *)
(** * The whole server at every instant, and retention through Drive

    [System.v] relates what a request has done when it has answered.  Here
    the process may stop anywhere, between any two calls to PostgreSQL's
    programs, Drive or the file system: no database is lost.  And retention,
    with its listing page by page over HTTP, keeps the newest backups. *)

From Stdlib Require Import ZArith Lia Ascii.
From stdpp Require Import base numbers gmap sorting strings list.
From S2P Require Import Prelude RustStd Md5 Chrono Core Ports Service Fakes ServiceWorld Api Discipline Concurrency Server.
From S2P Require Import Pg Drive DriveStorage DriveContract Compression SocketAddr Settings System.
Open Scope Z_scope.
Open Scope rust_scope.

#[local] Arguments wp : simpl never.

(** ** The calls of the storage *)

(** Calls as Drive documents them; only files of [l] are deleted. *)
Definition documented (l : list string) (T : Type) (op : DriveE T) : Prop :=
  match op with
  | ListFiles _ _ order _ fields _ => order = NEWEST_FIRST /\ fields = list_fields
  | GetFile _ _ fields => fields = FILE_FIELDS
  | CreateFile _ _ fields _ => fields = FILE_FIELDS
  | DeleteFile _ i => i ∈ l
  | _ => True
  end.

Section Calls.
Context `{RustFmt, Md5} (s : GoogleDriveStorage).

Create HintDb drive_calls.

Lemma retry_calls {A} (P : forall T, DriveE T -> Prop) policy op (body : prog DriveE (result A CallError)) :
  (forall lv m, P _ (DriveLog lv m)) -> (forall d, P _ (Sleep d)) -> (forall m, P _ (Panic m)) ->
  calls P body -> calls P (retry policy op body).
Proof.
  intros Hlog Hsleep Hpanic Hb. unfold retry. generalize (base_delay policy), 1.
  induction (Z.to_nat (attempts policy)) as [|fuel IH]; intros d a; cbn [retry_loop];
    (apply calls_bind; [done|]); intros [v|[msg|msg|err]]; try done.
  all: destruct (_ <=? _); [done|]; cbn [bind trigger calls]; split; [done|]; intros _; split; [done|]; intros _.
  all: apply calls_bind; [unfold duration_mul; destruct (_ <=? _); [done|by split]|intros x].
  - done.
  - apply IH.
Qed.

Ltac storage_calls :=
  repeat first
    [ exact I | done | solve [eauto with drive_calls nocore]
    | apply retry_calls; [done..|]
    | apply calls_bind; [|intros ?]
    | progress cbn [bind trigger calls]
    | match goal with |- _ /\ _ => split | |- forall _, _ => intros ? end
    | case_match ].

Lemma keep_backups_calls l files : calls (documented l) (keep_backups files).
Proof. induction files as [|f files IH]; cbn [keep_backups]; storage_calls; exact IH. Qed.

#[local] Hint Resolve keep_backups_calls : drive_calls.

Lemma list_once_calls l q n tok : calls (documented l) (list_once s q n tok).
Proof. unfold list_once. storage_calls. Qed.

#[local] Hint Resolve list_once_calls : drive_calls.

Lemma latest_pages_calls l n tok : calls (documented l) (latest_pages s n tok).
Proof. revert tok. induction n as [|n IH]; intros tok; cbn [latest_pages]; storage_calls; apply IH. Qed.

Lemma write_frames_calls l frames dst idle hashed size : calls (documented l) (write_frames frames dst idle hashed size).
Proof.
  revert hashed size. induction frames as [|[] frames IH]; intros hashed size; cbn [write_frames]; storage_calls; apply IH.
Qed.

#[local] Hint Resolve latest_pages_calls write_frames_calls : drive_calls.

Lemma drive_upload_calls l req : calls (documented l) (drive_upload s req).
Proof. unfold drive_upload. storage_calls. Qed.

Lemma drive_list_calls l n tok : calls (documented l) (drive_list s n tok).
Proof. unfold drive_list. storage_calls. Qed.

Lemma drive_get_calls l i : calls (documented l) (drive_get s i).
Proof. unfold drive_get. storage_calls. Qed.

Lemma drive_download_calls l b dst : calls (documented l) (drive_download s b dst).
Proof. unfold drive_download, download_once. storage_calls. Qed.

Lemma drive_delete_calls i : calls (documented [i]) (drive_delete s i).
Proof. unfold drive_delete. storage_calls. left. Qed.
End Calls.

(** ** No database is lost at any instant *)

Section Safety.
Context `{RustFmt, Md5, PgFormat, DriveApi} (cfg : Settings).
Context `{!PgPrograms (target (pg_of cfg))} `{!DriveServer (folder_id (drive_of cfg))}.
Context (Hdata : starts_with_dash (set_data_folder cfg) = false).

Abbreviation sabs := (sabs cfg).
Abbreviation sys_step := (sys_step cfg).

(** What a call to Drive leaves in the folder. *)
Lemma documented_keeps l T (op : DriveE T) w r w' x :
  documented l T op -> dstep w (Ev op r) w' -> x ∈ d_stored w -> x ∈ d_stored w' \/ stored_id x ∈ l.
Proof.
  assert (forall i, x ∈ d_stored w -> x ∈ without i (d_stored w) \/ stored_id x = i) as Hwithout.
  { intros i Hx. destruct (decide (stored_id x = i)) as [|Hne]; [by right|left]. unfold without.
    apply list_elem_of_In, filter_In. split; [by apply list_elem_of_In|]. by rewrite bool_decide_false. }
  destruct op; cbn [documented dstep]; intros Hd Hs Hx.
  - destruct Hd as [-> ->]. apply api_list in Hs as [-> _]. by left.
  - subst. apply api_get in Hs as [-> _]. by left.
  - apply api_media in Hs as [-> _]. by left.
  - subst. apply api_create in Hs. left.
    assert (w' = w \/ exists f content, creates w meta f content w') as [-> |(f & content & Hc)];
      [destruct r as [[]|]; [right|..]; naive_solver|done|].
    destruct Hc as (_ & _ & _ & _ & _ & _ & _ & ->). by right.
  - apply api_delete in Hs.
    assert (w' = w \/ w' = mkDWorld (without i (d_stored w)) (d_local w)) as [-> | ->]; [|by left|].
    + destruct r as [[u|e]|]; [by right| |done]. case_bool_decide; [left; apply Hs|done].
    + destruct (Hwithout i Hx) as [?| ->]; [by left|by right].
  - destruct Hs as [-> _]. by left.
  - destruct r as [u|e]; subst; by left.
  - destruct r as [u|e]; [by subst; left|]. destruct Hs as [c ->]. by left.
  - destruct r as [u|e]; [by subst; left|]. destruct Hs as [c ->]. by left.
  - subst. by left.
  - subst. by left.
  - subst. by left.
  - by destruct r.
Qed.

(** [d] is the database, or a copy outside [l] is stored. *)
Definition copy_stored (d : Db) (l : list string) (w : World) : Prop :=
  exists info c, (info, c) ∈ w_store w /\ pg_dumps d c /\ kind info = PreRestore /\ id info ∉ l.

Definition safe (d : Db) (l : list string) (w : World) : Prop := w_db w = d \/ copy_stored d l w.

Lemma safe_recoverable d l w : safe d l w -> recoverable d w.
Proof. intros [?|(info & c & Hi & Hc & Hk & _)]; [by left|right; eauto]. Qed.

Lemma recoverable_safe d w : recoverable d w -> safe d [] w.
Proof. intros [?|(info & c & Hi & Hc & Hk)]; [by left|right]. exists info, c. by split_and!; [..|apply not_elem_of_nil]. Qed.

Lemma drive_keeps_copy d l T (op : DriveE T) (sw sw' : SysWorld) r :
  documented l T op -> sys_step sw (Ev (SDrive op) r) sw' ->
  copy_stored d l (sabs sw) -> copy_stored d l (sabs sw').
Proof.
  intros Hd [Hdb Hs] (info & c & Hi & Hdump & Hk & Hl). exists info, c. split_and!; [|done..].
  apply elem_of_abs in Hi as (x & Hx & Hin & Hb & Hc). apply elem_of_abs. exists x. split_and!; [|done..].
  destruct (documented_keeps _ _ _ _ _ _ _ Hd Hs Hx) as [?|Hx']; [done|].
  destruct Hl. apply to_backup_info_ok in Hb as (Hb & _). unfold stored_id in Hx'. by rewrite Hb in Hx'.
Qed.

(** The calls of lifted code. *)
Lemma lift_calls {E A} (inj : forall T, E T -> SysE T) (P : forall T, E T -> Prop) (P' : forall T, SysE T -> Prop)
    (p : prog E A) :
  (forall T e, P T e -> P' T (inj T e)) -> calls P p -> calls P' (lift inj p).
Proof. intros HP. induction p as [a|T e k IH]; [done|]. intros [He Hk]. split; [by apply HP|]. intros r. by apply IH. Qed.

(** The code of a port over Drive. *)
Lemma drive_safe d l {A} (p : prog DriveE A) Q sw :
  calls (documented l) p -> wp sys_any sys_step (lift (@SDrive) p) Q sw -> safe d l (sabs sw) ->
  wp (fun sw _ _ => recoverable d (sabs sw)) sys_step (lift (@SDrive) p)
    (fun a sw' => Q a sw' /\ recoverable d (sabs sw')) sw.
Proof.
  intros Hc Hp Hs.
  apply (wp_inv (fun sw => safe d l (sabs sw)) _
    (fun T e => match e with SDrive e => documented l _ e | _ => False end) sys_any); [| | |done..].
  - intros sw1. apply safe_recoverable.
  - intros sw1 T e r sw2 HP [Hdb|Hcopy] Hstep; destruct e as [T e|T e|T e|T e]; try done.
    + left. destruct Hstep as [Hdb' _]. unfold System.sabs, abs in *. simpl in *. congruence.
    + right. by eapply drive_keeps_copy.
  - by eapply lift_calls, Hc.
Qed.

(** The code of a port over the programs of PostgreSQL: they leave the storage
    alone. *)
Lemma pg_safe d (I : World -> Prop) {A} (P : forall T, PgE T -> Prop) (p : prog PgE A) Q sw :
  (forall w, I w -> recoverable d w) ->
  (forall w T (e : PgE T) r w', P T e -> I w -> pg_step (pg_of cfg) w (Ev e r) w' -> w_store w' = w_store w -> I w') ->
  calls P p -> wp sys_any sys_step (lift (@SPg) p) Q sw -> I (sabs sw) ->
  wp (fun sw _ _ => recoverable d (sabs sw)) sys_step (lift (@SPg) p)
    (fun a sw' => Q a sw' /\ recoverable d (sabs sw')) sw.
Proof.
  intros HI Hstep Hc Hp Hs.
  apply (wp_inv (fun sw => I (sabs sw)) _
    (fun T e => match e with SPg e => P _ e | _ => False end) sys_any); [auto| | |done..].
  - intros sw1 T e r sw2 HP HI1 Hs1. destruct e as [T e|T e|T e|T e]; try done.
    destruct Hs1 as (w' & Hpg & Hst & Hot & ->).
    assert (sabs (mkSysWorld _ (w_db w') (mkDWorld (d_stored (sys_drive sw1)) (w_files w'))) = w') as ->.
    { unfold System.sabs, abs in *. simpl in *. rewrite <-Hst, <-Hot. by destruct w'. }
    by eapply Hstep.
  - by eapply lift_calls, Hc.
Qed.

(** Calls that concern neither. *)
Lemma local_safe d {A} (p : prog SysE A) Q sw :
  calls (fun T e => match e with SFs _ | SOs _ => True | _ => False end) p ->
  wp sys_any sys_step p Q sw -> recoverable d (sabs sw) ->
  wp (fun sw _ _ => recoverable d (sabs sw)) sys_step p (fun a sw' => Q a sw' /\ recoverable d (sabs sw')) sw.
Proof.
  intros Hc Hp Hs. eapply (wp_inv (fun sw => recoverable d (sabs sw))); [done| |exact Hc|exact Hp|done].
  intros sw1 T e r sw2 HP Hr Hstep. destruct e as [T e|T e|T e|T e]; try done.
  - by destruct Hstep as (files & _ & ->).
  - destruct e; try (by cbn in Hstep; subst). destruct r as [p'|err]; [|by cbn in Hstep; subst].
    by destruct Hstep as (_ & _ & ->).
Qed.

(** The processes of [PgTools]: one command. *)
Definition runs_only (cmd : PgCommand) (T : Type) (op : PgE T) : Prop :=
  match op with RunWithin _ cmd' => cmd' = cmd | _ => True end.

Lemma execute_calls cmd limit : calls (runs_only cmd) (execute cmd limit).
Proof.
  unfold execute. cbn [bind trigger calls]. split; [done|]. intros r.
  repeat (done || case_match || (cbn [bind trigger calls]; split; [done|intros ?])).
Qed.

Lemma operation_calls cmd limit m1 (m2 : Z -> Z -> string) :
  calls (runs_only cmd)
    (let* _ := call (PgLog Info m1) in
     let* start := call PgInstant in
     let? _ := execute cmd limit in
     let* now := call PgInstant in
     let* _ := call (PgLog Info (m2 start now)) in
     Ret (Ok tt)).
Proof.
  cbn [bind trigger calls]. split; [done|]. intros _. split; [done|]. intros start.
  apply calls_bind; [apply execute_calls|]. by intros [].
Qed.

Lemma dump_safe d o sw dst Q :
  linked cfg (sabs sw, o) sw -> dst ∈ live o ->
  wp sys_any sys_step (lift (@SPg) (PgTools_dump (pg_of cfg) dst)) Q sw -> recoverable d (sabs sw) ->
  wp (fun sw _ _ => recoverable d (sabs sw)) sys_step (lift (@SPg) (PgTools_dump (pg_of cfg) dst))
    (fun a sw' => Q a sw' /\ recoverable d (sabs sw')) sw.
Proof.
  intros Hl Hdst Hp Hr. destruct (owned_path _ _ _ _ Hl Hdst) as [Hf _].
  apply (pg_safe d (fun w => recoverable d w /\ is_Some (w_files w !! dst))
    (runs_only (dump_command (target (pg_of cfg)) (Pg.level (pg_of cfg)) dst))); [by intros w [? _]| | |done|done].
  - intros w T e r w' HP [Hw Hfile] Hs Hst. destruct e; [|by cbn in Hs; subst..]. cbn in HP, Hs. subst cmd.
    apply (dump_exit (pg_of cfg)) in Hs; [|done].
    assert (only_file dst w w') as Ho.
    { destruct (exit_of r) as [[]| |]; try done. destruct Hs as (c & _ & ->). split_and!; simpl; [done..| |].
      - rewrite lookup_insert_eq. eauto.
      - by rewrite delete_insert_eq. }
    destruct Ho as (Hd & Hs' & _ & Hsome & _). split; [|done]. unfold recoverable. by rewrite Hd, Hs'.
  - apply (operation_calls _ _ _ (fun start now => _)).
Qed.

Lemma ping_safe d sw Q :
  wp sys_any sys_step (lift (@SPg) (PgTools_ping (pg_of cfg))) Q sw -> recoverable d (sabs sw) ->
  wp (fun sw _ _ => recoverable d (sabs sw)) sys_step (lift (@SPg) (PgTools_ping (pg_of cfg)))
    (fun a sw' => Q a sw' /\ recoverable d (sabs sw')) sw.
Proof.
  intros Hp Hr. apply (pg_safe d (recoverable d) (runs_only (query_command (target (pg_of cfg)) "SELECT 1"))); [done| | |done|done].
  - intros w T e r w' HP Hw Hs Hst. destruct e; [|by cbn in Hs; subst..]. cbn in HP, Hs. subst cmd.
    eapply (child_select (server := target (pg_of cfg))) in Hs; [by subst|done|apply getopt_query|done].
  - unfold PgTools_ping. apply calls_bind; [apply execute_calls|]. by intros [].
Qed.

Lemma restore_safe d sw src Q :
  obligation (sabs sw) _ (Restorer_restore src) ->
  wp sys_any sys_step (lift (@SPg) (PgTools_restore (pg_of cfg) src)) Q sw -> recoverable d (sabs sw) ->
  wp (fun sw _ _ => recoverable d (sabs sw)) sys_step (lift (@SPg) (PgTools_restore (pg_of cfg) src))
    (fun a sw' => Q a sw' /\ recoverable d (sabs sw')) sw.
Proof.
  intros [(pre & c & Hpre & Hc & Hk) _] Hp Hr.
  apply (pg_safe d (copy_stored d []) (fun _ _ => True)); [| | |done|].
  - intros w Hcopy. eapply (safe_recoverable d []). by right.
  - intros w T e r w' _ (info & c' & Hi & Hc' & Hk' & Hl) _ Hst. exists info, c'. by rewrite Hst.
  - eapply calls_mono; [|apply (operation_calls _ _ _ (fun start now => _))]. done.
  - destruct Hr as [<-|(info & c' & Hi & Hc' & Hk')]; [exists pre, c|exists info, c']; (split_and!; [done..|apply not_elem_of_nil]).
Qed.

Lemma delete_safe_start d sw i :
  obligation (sabs sw) _ (Storage_delete i) -> recoverable d (sabs sw) -> safe d [i] (sabs sw).
Proof.
  intros Ho [?|(info & c & Hi & Hc & Hk)]; [by left|right]. exists info, c. split_and!; [done..|].
  intros Heq%list_elem_of_singleton. specialize (Ho _ Hi Heq). apply prunable_spec in Ho as [Ho _].
  simpl in Ho. congruence.
Qed.

Lemma wire_safe d T (op : PortE T) s sw :
  hpre s T op -> obligation s.1 T op -> linked cfg s sw -> recoverable d (sabs sw) ->
  wp (fun sw _ _ => recoverable d (sabs sw)) sys_step (wire (pg_of cfg) (drive_of cfg) T op)
    (fun r sw' => (exists s', hstep s (Ev op r) s' /\ linked cfg s' sw') /\ recoverable d (sabs sw')) sw.
Proof.
  intros Hpre Hob Hl Hr. pose proof (wire_ok cfg T op s sw Hpre Hl) as Hok.
  destruct s as [w o]. assert (w = sabs sw) as -> by apply Hl. cbn [fst] in Hob.
  destruct Hpre as [Hpre _]. unfold mon_pre in Hpre. cbn [snd] in Hpre.
  destruct op; cbn [wire] in *; cbn [obs own_allowed] in Hpre; try (by apply local_safe).
  - eapply dump_safe; [exact Hl|apply (Hpre (Ok tt))|done..].
  - by apply restore_safe.
  - by apply ping_safe.
  - apply (drive_safe d []); [apply drive_upload_calls|done|by apply recoverable_safe].
  - apply (drive_safe d []); [apply drive_list_calls|done|by apply recoverable_safe].
  - apply (drive_safe d []); [apply latest_pages_calls|done|by apply recoverable_safe].
  - apply (drive_safe d []); [apply drive_get_calls|done|by apply recoverable_safe].
  - apply (drive_safe d []); [apply drive_download_calls|done|by apply recoverable_safe].
  - apply (drive_safe d [i]); [apply drive_delete_calls|done|by apply delete_safe_start].
  - apply local_safe; [|done..]. apply calls_bind; [|by intros r].
    eapply (lift_calls (@SFs) (fun _ _ => True)); [done|apply calls_any].
Qed.

(** A request alone keeps the discipline and meets its obligations. *)
Lemma request_safe {A} (p : M A) Q R w o :
  calls temp_dir_ok p -> wpo p Q o -> wp rpre rstep p R (w, o) -> unique_ids w ->
  wp (fun s T op => hpre s T op /\ obligation s.1 T op) hstep p (fun _ _ => True) (w, o).
Proof.
  revert w o. induction p as [a|T op k IH]; intros w o; [done|].
  intros [Hdir Hc] [Hpre Ho] [Hob Hr] Hu. split; [by split_and!|]. intros r [w' o'] [Hs Hm].
  cbn [fst snd] in *. pose proof (port_step_unique _ _ _ Hs Hu) as Hu'.
  apply IH; [done|by apply Ho| |done]. apply Hr. exists w'. destruct Hm as [Hf ->]. by split_and!.
Qed.

Lemma abs_unique w d0 : d_ok w -> unique_ids (abs (drive_of cfg) d0 w).
Proof.
  intros (_ & Hnd & _). unfold unique_ids, stored_ids, abs. cbn [w_store].
  induction (d_stored w) as [|x l IH]; [apply NoDup_nil_2|]. apply NoDup_cons in Hnd as [Hx Hnd].
  simpl. unfold backup_of at 1. destruct (is_in_folder _ _); [|by apply IH].
  destruct (to_backup_info (s_file x)) as [b|e] eqn:Hb; [|by apply IH]. simpl. apply NoDup_cons.
  split; [|by apply IH]. intros Hin. apply Hx. apply list_elem_of_fmap in Hin as (b' & Hid & Hin).
  apply list_elem_of_fmap in Hin as ([b2 c] & -> & Hin). apply list_elem_of_omap in Hin as (y & Hy & Hby).
  unfold backup_of in Hby. destruct (is_in_folder _ _); [|done].
  destruct (to_backup_info (s_file y)) as [b3|] eqn:Hb3; [|done]. injection Hby as -> _.
  apply list_elem_of_fmap. exists y. split; [|done]. apply to_backup_info_ok in Hb as (Hb & _), Hb3 as (Hb3 & _).
  unfold stored_id. simpl in Hid. by rewrite Hb, Hb3, Hid.
Qed.

(** C1. The server can stop at any instant of any request, between any two
    calls to PostgreSQL's programs, to Drive or to the file system: a database
    that was there when the request came is the current one or the storage has
    a pre-restore copy of it. *)
Theorem system_never_loses_database req sw tr q sw' d :
  d_ok (sys_drive sw) -> recoverable d (sabs sw) ->
  wsteps sys_step (system cfg (fun deps => serve deps req)) sw tr q sw' ->
  recoverable d (sabs sw').
Proof.
  intros Hok Hr Hs.
  assert (linked cfg (sabs sw, nothing_owned) sw) as Hl by (by split_and!; [..|intros p' ?%elem_of_nil]).
  assert (wp (fun sw _ _ => recoverable d (sabs sw)) sys_step (system cfg (fun deps => serve deps req))
    (fun _ sw' => recoverable d (sabs sw')) sw) as Hwp.
  { eapply wp_mono; [|eapply (wp_interp _ _ _ _ _ (fun s sw => linked cfg s sw /\ recoverable d (sabs sw)));
      [|eapply request_safe; [by apply serve_calls|apply serve_wpo|apply (serve_wpr (deps_of cfg))|by apply abs_unique]|by split]].
    - by intros a sw1 (s1 & _ & _ & Hrec).
    - intros T op s1 sw1 [Hpre Hob] [Hl1 Hr1]. eapply wp_mono; [|by apply wire_safe].
      intros r sw2 [(s2 & Hs2 & Hl2) Hr2]. eauto. }
  pose proof (wp_wsteps _ _ _ _ _ _ _ _ Hwp Hs) as Hq. destruct q as [a|T op k]; [exact Hq|exact (proj1 Hq)].
Qed.
End Safety.

(** ** Listing and retention *)

Section Retention.
Context `{RustFmt, Md5, PgFormat, DriveApi} (cfg : Settings).
Context `{!PgPrograms (target (pg_of cfg))} `{!DriveServer (folder_id (drive_of cfg))}.

Abbreviation sabs := (sabs cfg).
Abbreviation wps := (wp sys_any (sys_step cfg)).
Abbreviation drive_code := (wire (pg_of cfg) (drive_of cfg)).
Abbreviation folder := (folder_query (folder_id (drive_of cfg))).

(** The backups from a page token on. *)
Definition listing_from (w : DWorld) (tok : option string) : list BackupInfo :=
  backups_in (drop (position w folder tok) (matches w folder)).

Lemma page_splits w tok page :
  page_of (drive_of cfg) w folder tok page ->
  listing_from w tok = items page ++
    match next_page_token page with
    | Some t => if str_is_empty t then [] else listing_from w (Some t)
    | None => []
    end.
Proof.
  intros (k & Hits & Hnext). unfold listing_from. rewrite Hits.
  assert (drop (position w folder tok) (matches w folder) =
    take k (drop (position w folder tok) (matches w folder)) ++
    drop (position w folder tok + k) (matches w folder)) as Hd by (by rewrite <-drop_drop, take_drop).
  rewrite Hd at 1. rewrite backups_in_app. f_equal.
  destruct (next_page_token page) as [t|]; [destruct (str_is_empty t)|].
  - by rewrite drop_ge by lia.
  - by rewrite Hnext.
  - by rewrite drop_ge by lia.
Qed.

Lemma same_world (sw sw' : SysWorld) : sys_drive sw' = sys_drive sw -> sys_db sw' = sys_db sw -> sw' = sw.
Proof. destruct sw, sw'. simpl. by intros -> ->. Qed.

Lemma list_pages_system n acc tok sw :
  acc ++ listing_from (sys_drive sw) tok = all_backups (drive_of cfg) (sys_drive sw) ->
  wps (interp drive_code (list_pages n acc tok))
    (fun r sw' => sw' = sw /\ forall all, r = Ok all -> all = all_backups (drive_of cfg) (sys_drive sw)) sw.
Proof.
  revert acc tok. induction n as [|n IH]; intros acc tok Hacc; cbn [list_pages]; [done|].
  cbn [bind trigger interp wire]. eapply wp_bind_2; [apply wps_drive, drive_list_page|].
  intros [page|e] sw' [[Hd Hp] Hdb]; pose proof (same_world _ _ Hd Hdb) as ->; [|done].
  specialize (Hp page eq_refl). rewrite (page_splits _ _ _ Hp), app_assoc in Hacc. cbn [bind].
  destruct (next_page_token page) as [t|]; [destruct (str_is_empty t)|].
  - split; [done|]. intros all [= <-]. by rewrite app_nil_r in Hacc.
  - by apply IH.
  - split; [done|]. intros all [= <-]. by rewrite app_nil_r in Hacc.
Qed.

(** C9. Reading the listing page by page, over HTTP with retries, gives what one
    listing of the whole folder would: [list_all] returns exactly the stored
    backups, each once, newest first, or an error, and changes nothing. *)
Theorem list_all_is_whole_folder sw :
  d_ok (sys_drive sw) ->
  wps (interp drive_code list_all) (fun r sw' => sw' = sw /\
    forall all, r = Ok all -> all ≡ₚ (w_store (sabs sw)).*1 /\ StronglySorted newer all) sw.
Proof.
  intros Hok. eapply wp_mono; [|apply list_pages_system].
  - intros r sw' [-> Hall]. split; [done|]. intros all ->%Hall.
    split; [by apply all_backups_store|apply all_backups_sorted].
  - unfold listing_from, all_backups. by rewrite position_start.
Qed.

(** The server logged an error. *)
Definition error_logged (e : event SysE) : bool :=
  match e with
  | Ev op _ => match op with SOs e => match e with OsLog Error_ _ => true | _ => false end | _ => false end
  end.

Abbreviation wpe := (wp (fun s => sys_any s.1) (flag_step (sys_step cfg) error_logged)).

Lemma lift_drive_quiet {A} (p : prog DriveE A) :
  calls (fun T op => forall r, error_logged (Ev op r) = false) (lift (@SDrive) p).
Proof. by apply (calls_interp (fun _ _ => True)); [apply calls_any|]. Qed.

Lemma wpe_drive {A} (p : prog DriveE A) Q sw ok :
  wps (lift (@SDrive) p) Q sw -> wpe (lift (@SDrive) p) (fun a s => Q a s.1 /\ s.2 = ok) (sw, ok).
Proof. apply wp_flag, lift_drive_quiet. Qed.

Lemma list_pages_quiet n acc tok :
  calls (fun T op => forall r, error_logged (Ev op r) = false) (interp drive_code (list_pages n acc tok)).
Proof.
  apply (calls_interp (fun T op => match op with Storage_list _ _ => True | _ => False end)).
  - revert acc tok. induction n as [|n IH]; intros acc tok; cbn [list_pages bind trigger]; [done|].
    split; [done|]. intros [page|e]; [|done]. by destruct (next_page_token page) as [t|]; [destruct (str_is_empty t)|].
  - intros T []; try done. intros _. apply lift_drive_quiet.
Qed.

(** Only backups with an id of [l] are gone, and all of them if [all]. *)
Definition removes (l : list string) (all : bool) (w w' : World) : Prop :=
  forall f, (f ∈ w_store w' -> f ∈ w_store w /\ (all = true -> id f.1 ∉ l)) /\
    (f ∈ w_store w -> f ∈ w_store w' \/ id f.1 ∈ l).

Lemma removes_delete i r w w' : port_step w (EDelete i r) w' -> removes [i] (match r with Ok _ => true | Err _ => false end) w w'.
Proof.
  intros Hs.
  assert (w_store w' = List.filter (no_such_id i) (w_store w) -> forall all, removes [i] all w w') as Hfilter.
  { intros Heq all f. rewrite Heq, list_elem_of_In, filter_In, <-list_elem_of_In. unfold no_such_id.
    rewrite negb_true_iff, bool_decide_eq_false. split.
    - intros [Hf Hne]. split; [done|]. intros _ Hi%list_elem_of_singleton; by destruct Hne.
    - intros Hf. destruct (decide (id f.1 = i)) as [<-|Hne]; [right; by left|by left]. }
  destruct r as [[]|e]; cbn [port_step] in Hs; [apply Hfilter; by rewrite Hs|].
  destruct Hs as [-> |Hs]; [|apply Hfilter; by rewrite Hs]. intros f. split; [by split|by left].
Qed.

Lemma prune_one_system b sw ok :
  d_ok (sys_drive sw) ->
  wpe (interp drive_code (prune_one b))
    (fun _ s => d_ok (sys_drive s.1) /\ (s.2 = true -> ok = true) /\ removes [id b] s.2 (sabs sw) (sabs s.1)) (sw, ok).
Proof.
  intros Hok. unfold prune_one. cbn [bind trigger interp wire].
  eapply wp_bind_2; [by apply wpe_drive, wps_drive, (drive_delete_wpd (drive_of cfg) (sys_db sw))|].
  intros r [sw' ok'] [[[Hok' Hs] Hdb] Hf]. cbn [fst snd] in *. subst ok'.
  change (abs (drive_of cfg) (sys_db sw) (sys_drive sw)) with (sabs sw) in Hs.
  rewrite <-Hdb in Hs. apply removes_delete in Hs.
  destruct r as [[]|e]; (split; [done|]); intros [] [sw2 ok2] [Hsw Hfl]; cbn in Hsw, Hfl; subst sw2 ok2; cbn [fst snd];
    (split_and!; [done|..]).
  - by rewrite andb_true_r.
  - rewrite andb_true_r. intros f. destruct (Hs f) as [Hin Hout]. split; [|done]. intros Hf%Hin. naive_solver.
  - by rewrite andb_false_r.
  - by rewrite andb_false_r.
Qed.

Lemma removes_trans i l all1 all2 w w1 w2 :
  removes [i] all1 w w1 -> removes l all2 w1 w2 -> (all2 = true -> all1 = true) -> removes (i :: l) all2 w w2.
Proof.
  intros Ha Hb Hall f. destruct (Ha f) as [Hin1 Hout1], (Hb f) as [Hin2 Hout2]. split.
  - intros [Hf1 Hn2]%Hin2. destruct (Hin1 Hf1) as [Hf Hn1]. split; [done|]. intros Ht. rewrite not_elem_of_cons. specialize (Hn1 (Hall Ht)). split; [set_solver|auto].
  - intros [Hf1| ->%list_elem_of_singleton]%Hout1; [|set_solver]. destruct (Hout2 Hf1); [by left|right; by right].
Qed.

Lemma prune_loop_system l sw ok :
  d_ok (sys_drive sw) ->
  wpe (interp drive_code (for_each l prune_one))
    (fun _ s => d_ok (sys_drive s.1) /\ (s.2 = true -> ok = true) /\ removes (id <$> l) s.2 (sabs sw) (sabs s.1)) (sw, ok).
Proof.
  revert sw ok. induction l as [|b l IH]; intros sw ok Hok; cbn [for_each].
  - split_and!; [done..|]. intros f. split; [by split; [|intros _ ?%elem_of_nil]|by left].
  - eapply wp_interp_bind; [by apply prune_one_system|]. intros _ [sw1 ok1] (Hok1 & Hm1 & Hr1).
    eapply wp_mono; [|by apply IH]. intros _ [sw2 ok2] (Hok2 & Hm2 & Hr2). cbn [fst snd] in *.
    split_and!; [done|auto|]. by eapply removes_trans.
Qed.

(** What retention leaves, when only its candidates are gone. *)
Definition retained (keep : nat) (all : bool) (w w' : World) : Prop :=
  exists kept : list BackupInfo,
    NoDup (id <$> kept) /\
    length kept = (keep `min` length (List.filter prunable (w_store w).*1))%nat /\
    (forall b, b ∈ kept -> b ∈ (w_store w).*1) /\
    (forall f, f ∈ w_store w -> f.1 ∈ kept -> f ∈ w_store w') /\
    (forall f, f ∈ w_store w' -> f ∈ w_store w) /\
    (forall f, f ∈ w_store w -> f ∉ w_store w' ->
       prunable f.1 = true /\ forall b, b ∈ kept -> dt_le (created_at f.1) (created_at b)) /\
    (all = true -> forall f, f ∈ w_store w' -> prunable f.1 = true -> f.1 ∈ kept).

Lemma removes_retained keep all ok w w' :
  unique_ids w -> all ≡ₚ (w_store w).*1 ->
  removes (id <$> retention_candidates all keep) ok w w' -> retained keep ok w w'.
Proof.
  intros Hu Hall Hr. destruct (retention_split all keep) as (kept & Hsort & Hlen).
  assert (kept ++ retention_candidates all keep ≡ₚ List.filter prunable all) as Hperm
    by (rewrite Hsort; apply sort_newest_first_perm).
  assert (NoDup (id <$> all)) as Hnd by (rewrite Hall; exact Hu).
  assert (NoDup (id <$> kept ++ retention_candidates all keep)) as Hnd2.
  { rewrite Hperm. eapply sublist_NoDup; [exact Hnd|]. apply fmap_sublist, filter_sublist. }
  rewrite fmap_app in Hnd2. apply NoDup_app in Hnd2 as (Hndk & Hdisj & _).
  assert (forall b, b ∈ kept \/ b ∈ retention_candidates all keep -> b ∈ all /\ prunable b = true) as Hin.
  { intros b Hb. rewrite <-elem_of_app, Hperm, elem_of_filter_prunable, <-prunable_spec in Hb. done. }
  assert (forall f, f ∈ w_store w -> id f.1 ∈ (id <$> retention_candidates all keep) ->
    f.1 ∈ retention_candidates all keep) as Hcand.
  { intros f Hf (b & Hid & Hb)%list_elem_of_fmap. replace f.1 with b; [done|].
    apply (NoDup_key id all); [done|by apply Hin; right| |done].
    rewrite Hall. by apply list_elem_of_fmap_2. }
  exists kept. split_and!; [done| |intros b Hb; rewrite <-Hall; by apply Hin; left| | | |].
  - rewrite Hlen. f_equal. by rewrite Hall.
  - intros f Hf Hk. destruct (proj2 (Hr f) Hf) as [?|Hc]; [done|].
    destruct (Hdisj (id f.1)); [by apply list_elem_of_fmap_2|done].
  - intros f Hf. by apply Hr.
  - intros f Hf Hnot. destruct (proj2 (Hr f) Hf) as [?|Hc%Hcand]; [done| |done].
    split; [apply Hin; by right|]. intros b Hb. by eapply retention_newer.
  - intros Hok f Hf Hp. destruct (proj1 (Hr f) Hf) as [Hf0 Hnot]. specialize (Hnot Hok).
    assert (f.1 ∈ kept ++ retention_candidates all keep) as [?|Hc]%elem_of_app; [|done|].
    + rewrite Hperm, elem_of_filter_prunable, <-prunable_spec. split; [|done]. rewrite Hall. by apply list_elem_of_fmap_2.
    + by destruct Hnot; apply list_elem_of_fmap_2.
Qed.

(** C14. Retention through Drive keeps the newest: as many regular [pg_dump]
    backups as the limit says, or all of them when there are fewer, are in the
    folder with their content afterwards; whatever was removed is a regular
    [pg_dump] backup no newer than any of these; nothing was added.  When no
    error was logged, the limit holds: these are all regular [pg_dump] backups
    that are left. *)
Theorem retention_keeps_newest_stored keep sw tr sw' :
  set_retention cfg = Some keep -> d_ok (sys_drive sw) ->
  wsteps (sys_step cfg) (system cfg prune_old_backups) sw tr (Ret tt) sw' ->
  retained (Z.to_nat keep) (forallb (fun e => negb (error_logged e)) tr) (sabs sw) (sabs sw').
Proof.
  intros Hkeep Hok Hrun. apply (wsteps_flag _ error_logged _ _ _ _ _ true) in Hrun.
  assert (wpe (system cfg prune_old_backups)
    (fun _ s => retained (Z.to_nat keep) s.2 (sabs sw) (sabs s.1)) (sw, true)) as Hwp;
    [|exact (wp_wsteps _ _ _ _ _ _ _ _ Hwp Hrun)].
  unfold system, prune_old_backups, deps_of. cbn [retention]. rewrite Hkeep. cbn [fmap option_fmap option_map].
  pose proof (abs_unique cfg _ (sys_db sw) Hok) as Hu.
  eapply wp_interp_bind.
  { apply wp_flag; [apply list_pages_quiet|]. apply list_pages_system. unfold listing_from. by rewrite position_start. }
  pose proof (all_backups_store (drive_of cfg) (sys_db sw) _ Hok) as Hperm.
  intros [all|e] [sw1 ok1] [[Hsw Hall] Hfl]; cbn in Hsw, Hfl; subst sw1 ok1.
  - rewrite (Hall all eq_refl). eapply wp_mono; [|by apply prune_loop_system].
    intros _ s (_ & _ & Hr). by eapply removes_retained.
  - split; [done|]. intros [] [sw2 ok2] [Hsw Hfl]. cbn in Hsw, Hfl. subst sw2 ok2.
    eapply removes_retained; [done|exact Hperm|].
    intros f. split; [by split|by left].
Qed.
End Retention.

(** ** Witnesses *)

#[local] Existing Instance sys_fmt.
#[local] Existing Instance sys_pg.
#[local] Existing Instance sys_api.
#[local] Existing Instance sys_server.
#[local] Existing Instance sys_programs.

Lemma system_never_loses_database_witness :
  exists r tr sw', wsteps (sys_step sys_cfg) (system sys_cfg (fun deps => serve deps sys_restore_call)) sys_world tr (Ret r) sw' /\
    sys_db sw' = sys_new /\ recoverable sys_old (sabs sys_cfg sw').
Proof.
  pose proof sys_request_runs as Hok.
  destruct (run_partial run_sys (system sys_cfg (fun deps => serve deps sys_restore_call)) sys_world)
    as [[r sw']|] eqn:Hr; [|discriminate Hok].
  assert (sys_db sw' = sys_new) as Hnew.
  { destruct r as [[i|e]|r|r|[r|e]|r]; try discriminate Hok. by apply bool_decide_eq_true in Hok. }
  destruct (run_partial_reaches _ _ _ _ _ _ run_sys_sound Hr) as [tr Htr].
  exists r, tr, sw'. split_and!; [exact Htr|exact Hnew|].
  eapply (system_never_loses_database sys_cfg eq_refl sys_restore_call sys_world tr _ sw');
    [apply sys_world_ok|left; reflexivity|exact Htr].
Defined.

Lemma listing_runs :
  match run_partial run_sys (interp (wire (pg_of sys_cfg) (drive_of sys_cfg)) list_all) sys_world with
  | Some (Ok _, _) => true
  | _ => false
  end = true.
Proof. vm_compute. reflexivity. Qed.

Lemma list_all_is_whole_folder_witness :
  exists all tr, wsteps (sys_step sys_cfg) (interp (wire (pg_of sys_cfg) (drive_of sys_cfg)) list_all) sys_world tr
      (Ret (Ok all)) sys_world /\ all ≡ₚ (w_store (sabs sys_cfg sys_world)).*1.
Proof.
  pose proof listing_runs as Hok.
  destruct (run_partial run_sys (interp (wire (pg_of sys_cfg) (drive_of sys_cfg)) list_all) sys_world)
    as [[[all|e] sw']|] eqn:Hr; try discriminate Hok.
  destruct (run_partial_reaches _ _ _ _ _ _ run_sys_sound Hr) as [tr Htr].
  destruct (wp_wsteps _ _ _ _ _ _ _ _ (list_all_is_whole_folder sys_cfg sys_world sys_world_ok) Htr) as [-> Hall].
  exists all, tr. split; [exact Htr|]. by apply Hall.
Defined.

Lemma pruning_runs :
  match run_partial run_sys (system sys_cfg prune_old_backups) sys_world with Some _ => true | None => false end = true.
Proof. vm_compute. reflexivity. Qed.

Lemma retention_keeps_newest_stored_witness :
  exists tr sw', wsteps (sys_step sys_cfg) (system sys_cfg prune_old_backups) sys_world tr (Ret tt) sw' /\
    retained 3 (forallb (fun e => negb (error_logged e)) tr) (sabs sys_cfg sys_world) (sabs sys_cfg sw').
Proof.
  pose proof pruning_runs as Hok.
  destruct (run_partial run_sys (system sys_cfg prune_old_backups) sys_world) as [[[] sw']|] eqn:Hr; [|discriminate Hok].
  destruct (run_partial_reaches _ _ _ _ _ _ run_sys_sound Hr) as [tr Htr].
  exists tr, sw'. split; [exact Htr|].
  exact (retention_keeps_newest_stored sys_cfg 3 sys_world tr sw' eq_refl sys_world_ok Htr).
Defined.
