(* ===== verification/Timing.v ===== *)
(** * How long a request can take

    Every call that leaves the process has a time limit, every loop a bound:
    the calls to Drive ([request_timeout], [upload_timeout] and
    [read_idle_timeout] in [storage.rs], the attempts and pauses of [retry.rs],
    the pages of [latest] and [list_all]) and the processes
    ([command_timeout] and [PING_TIMEOUT] in [tools.rs]).  Together they bound
    the time each of the six requests waits for the outside; a download is
    limited from one frame of its body to the next only, so that its bound
    depends on the number of frames. *)

From Stdlib Require Import ZArith Lia Ascii.
From stdpp Require Import base numbers gmap sorting strings list.
From S2P Require Import Prelude RustStd Md5 Chrono Core Ports Service Fakes ServiceWorld Api Discipline.
From S2P Require Import Pg Drive DriveStorage DriveContract Compression SocketAddr Settings System.
Open Scope Z_scope.
Open Scope rust_scope.

(** ** Time as a cost of calls *)

Section Takes.
Context {E : Type -> Type} (cost : event E -> Z) (fine : event E -> Prop).

(** The clock after a call, when the answers keep to [fine]. *)
Definition tick (t : Z) (e : event E) (t' : Z) : Prop := fine e /\ t' <= t + cost e.

(** [p] takes at most [c] and its result satisfies [Q]. *)
Definition takes {A} (p : prog E A) (c : Z) (Q : A -> Prop) : Prop :=
  forall t, wp (fun _ _ _ => True) tick p (fun a t' => t' <= t + c /\ Q a) t.

Definition total (tr : list (event E)) : Z := foldr (fun e t => cost e + t) 0 tr.

Lemma takes_Ret {A} (a : A) (Q : A -> Prop) c : 0 <= c -> Q a -> takes (Ret a) c Q.
Proof. intros Hc HQ t. simpl. split; [lia|done]. Qed.

Lemma takes_mono {A} (p : prog E A) c c' (P Q : A -> Prop) :
  c <= c' -> (forall a, P a -> Q a) -> takes p c P -> takes p c' Q.
Proof. intros Hc HPQ Hp t. eapply wp_mono; [|apply Hp]. intros a t' [Ht Ha]. split; [lia|auto]. Qed.

Lemma takes_any {A} (p : prog E A) c Q : takes p c Q -> takes p c (fun _ => True).
Proof. by apply takes_mono. Qed.

Lemma takes_bind {A B} (p : prog E A) (f : A -> prog E B) c1 c2 (P : A -> Prop) Q :
  takes p c1 P -> (forall a, P a -> takes (f a) c2 Q) -> takes (bind p f) (c1 + c2) Q.
Proof.
  intros Hp Hf t. eapply wp_bind_2; [apply Hp|]. intros a t1 [Ht1 Ha].
  eapply wp_mono; [|by apply Hf]. intros b t2 [Ht2 Hb]. split; [lia|done].
Qed.

Lemma takes_Vis {A T} (op : E T) (k : T -> prog E A) c c' Q :
  (forall r, fine (Ev op r) -> cost (Ev op r) <= c /\ takes (k r) c' Q) -> takes (Vis op k) (c + c') Q.
Proof.
  intros Hk t. split; [done|]. intros r t1 [Hf Ht1]. destruct (Hk r Hf) as [Hc Hr].
  eapply wp_mono; [|apply Hr]. intros a t2 [Ht2 Ha]. split; [lia|done].
Qed.

Lemma takes_for_each {A} (l : list A) (body : A -> prog E unit) c :
  (forall x, takes (body x) c (fun _ => True)) ->
  takes (for_each l body) (Z.of_nat (length l) * c) (fun _ => True).
Proof.
  intros Hb. induction l as [|x l IH]; [by apply takes_Ret|]. cbn [for_each length].
  eapply takes_mono; [|done|eapply takes_bind; [apply Hb|intros _ _; exact IH]]. lia.
Qed.

Lemma takes_steps {A} (p : prog E A) c Q tr a :
  takes p c Q -> steps p tr (Ret a) -> Forall fine tr -> total tr <= c /\ Q a.
Proof.
  intros Hp Hs Hf. assert (forall t, wsteps tick p t tr (Ret a) (t + total tr)) as Hw.
  { clear Hp. revert p Hs. induction Hf as [|e tr He Hf IH]; intros p Hs t.
    - simpl in *. split; [done|lia].
    - destruct p as [|T op k]; [done|]. destruct Hs as (r & -> & Hs). simpl.
      exists r, (t + cost (Ev op r)). split_and!; [done|split; [done|lia]|].
      rewrite Z.add_assoc. by apply IH. }
  destruct (wp_wsteps _ _ _ _ _ _ _ _ (Hp 0) (Hw 0)) as [Ht HQ]. split; [lia|done].
Qed.
End Takes.

(** Programs whose calls are replaced by code. *)
Lemma takes_interp {E F A} cost1 fine1 cost2 fine2 (h : forall T, E T -> prog F T) (p : prog E A) c Q :
  (forall T (op : E T) t,
     wp (fun _ _ _ => True) (tick cost2 fine2) (h T op) (fun r t' => tick cost1 fine1 t (Ev op r) t') t) ->
  takes cost1 fine1 p c Q -> takes cost2 fine2 (interp h p) c Q.
Proof.
  intros Hh Hp t. eapply wp_mono; [|eapply (wp_interp _ _ _ _ h eq); [|apply Hp|reflexivity]].
  - by intros a t' (t1 & HQ & ->).
  - intros T op t1 ? _ <-. eapply wp_mono; [|apply Hh]. intros r t' Ht. by exists t'.
Qed.

(** ** The use cases *)

(** Time limits of the ports. *)
Record Limits := mkLimits {
  api_limit : Z;
  latest_limit : Z;
  download_limit : Z;
  upload_limit : Z;
  process_limit : Z;
}.

Definition limits_ok (L : Limits) : Prop :=
  0 <= api_limit L <= latest_limit L /\ 0 <= download_limit L /\ 0 <= upload_limit L /\ 0 <= process_limit L.

Definition port_cost (L : Limits) (e : event PortE) : Z :=
  match e with
  | Ev op _ =>
      match op with
      | Dumper_dump _ | Restorer_restore _ => process_limit L
      | DbHealth_ping => PING_TIMEOUT
      | Storage_upload _ => upload_limit L
      | Storage_list _ _ | Storage_get _ | Storage_delete _ => api_limit L
      | Storage_latest => latest_limit L
      | Storage_download _ _ => download_limit L
      | _ => 0
      end
  end.

(** A page has at most the items asked for. *)
Definition port_fine (e : event PortE) : Prop :=
  match e with
  | Ev op r =>
      match op in PortE T return T -> Prop with
      | Storage_list n _ => fun r => forall page, r = Ok page -> 0 <= n -> Z.of_nat (length (items page)) <= n
      | _ => fun _ => True
      end r
  end.

(** The most backups [list_all] can return. *)
Definition MAX_LISTED : Z := Z.of_nat MAX_RETENTION_PAGES * MAX_PAGE_SIZE.

Definition retention_time (L : Limits) (deps : ServiceDeps) : Z :=
  match retention deps with
  | None => 0
  | Some _ => (Z.of_nat MAX_RETENTION_PAGES + MAX_LISTED) * api_limit L
  end.

(** The time each request may wait. *)
Definition request_time (L : Limits) (deps : ServiceDeps) (req : Request) : Z :=
  match req with
  | CreateBackup => process_limit L + upload_limit L + retention_time L deps
  | ListBackups _ => api_limit L
  | GetBackup _ => latest_limit L
  | DownloadBackup _ => latest_limit L + download_limit L
  | Restore _ => latest_limit L + download_limit L + (process_limit L + upload_limit L) + process_limit L
  | Healthcheck => PING_TIMEOUT
  end.

Section UseCases.
Context `{RustFmt} (L : Limits) (HL : limits_ok L) (deps : ServiceDeps).

Abbreviation takes := (takes (port_cost L) port_fine).

(** A call with a limit, then a program. *)
Lemma takes_call {A T} (op : PortE T) (k : T -> M A) d c Q :
  (forall r, port_cost L (Ev op r) = d) -> (forall r, port_fine (Ev op r) -> takes (k r) (c - d) Q) ->
  takes (Vis op k) c Q.
Proof.
  intros Hd Hk. eapply takes_mono; [|done|apply (takes_Vis _ _ _ _ d (c - d) Q)]; [lia|].
  intros r Hr. rewrite Hd. split; [lia|auto].
Qed.

Lemma takes_scope {A B} (p : M A) (op : PortE B) c (Q : A -> Prop) :
  (forall r, port_cost L (Ev op r) = 0) -> takes p c Q ->
  takes (bind p (fun r => bind (trigger op) (fun _ => Ret r))) c Q.
Proof.
  intros Hop Hp. replace c with (c + 0) by lia. eapply takes_bind; [exact Hp|]. intros a Ha.
  apply (takes_call op _ 0); [done|]. intros _ _. by apply takes_Ret.
Qed.

(** One call after the other, on every branch. *)
Ltac time_steps :=
  cbn [bind trigger];
  repeat first
    [ apply takes_Ret; [lia|done]
    | eapply takes_call; [intros ?; cbn [port_cost]; reflexivity|intros ? ?; cbn [bind trigger result_map_err]]
    | progress case_match ].

Lemma dump_takes k : takes (dump_and_upload deps k) (process_limit L + upload_limit L) (fun _ => True).
Proof.
  destruct HL as (? & ? & ? & ?). unfold dump_and_upload, temp_file. time_steps.
Qed.

Lemma resolve_takes target : takes (resolve target) (latest_limit L) (fun _ => True).
Proof. destruct HL as (? & ? & ? & ?). destruct target; unfold resolve; time_steps. Qed.

Lemma list_pages_takes n all tok :
  takes (list_pages n all tok) (Z.of_nat n * api_limit L)
    (fun r => forall all', r = Ok all' -> Z.of_nat (length all') <= Z.of_nat (length all) + Z.of_nat n * MAX_PAGE_SIZE).
Proof.
  destruct HL as (? & ? & ? & ?). revert all tok. induction n as [|n IH]; intros all tok; cbn [list_pages].
  - apply takes_Ret; [lia|done].
  - cbn [bind trigger]. eapply takes_call; [intros ?; cbn [port_cost]; reflexivity|]. intros [page|e] Hr; cbn [bind].
    + cbn [port_fine] in Hr. specialize (Hr page eq_refl). unfold MAX_PAGE_SIZE in *.
      assert (Z.of_nat (length (all ++ items page)) <= Z.of_nat (length all) + 100) as Hlen
        by (rewrite length_app; lia).
      assert (takes (Ret (Ok (all ++ items page)) : M (Result (list BackupInfo))) (Z.of_nat n * api_limit L)
        (fun r => forall all', r = Ok all' -> Z.of_nat (length all') <= Z.of_nat (length all) + 100)) as Hret
        by (apply takes_Ret; [nia|by intros all' [= <-]]).
      destruct (next_page_token page) as [next|]; [destruct (str_is_empty next)|].
      1,3: eapply takes_mono; [| |exact Hret]; [lia|intros r Hq all' Heq; specialize (Hq all' Heq); lia].
      eapply takes_mono; [| |apply IH]; [lia|]. intros r Hq all' Heq. specialize (Hq all' Heq). lia.
    + apply takes_Ret; [nia|done].
Qed.

Lemma retention_bound (all : list BackupInfo) keep : (length (retention_candidates all keep) <= length all)%nat.
Proof.
  unfold retention_candidates. rewrite length_drop, sort_newest_first_perm.
  pose proof (List.filter_length_le prunable all). lia.
Qed.

Lemma prune_takes : takes (prune_old_backups deps) (retention_time L deps) (fun _ => True).
Proof.
  destruct HL as (? & ? & ? & ?). unfold prune_old_backups, retention_time.
  destruct (retention deps) as [keep|]; [|by apply takes_Ret].
  rewrite Z.mul_add_distr_r. eapply takes_bind; [apply list_pages_takes|]. intros [all|e] Hr; cbn beta.
  - specialize (Hr all eq_refl). pose proof (retention_bound all keep).
    eapply takes_mono; [|done|apply (takes_for_each _ _ _ _ (api_limit L))].
    + unfold MAX_LISTED, MAX_PAGE_SIZE in *. simpl in Hr. nia.
    + intros b. unfold prune_one. time_steps.
  - assert (0 <= MAX_LISTED * api_limit L) by (unfold MAX_LISTED, MAX_PAGE_SIZE; nia). time_steps.
Qed.

Lemma create_backup_takes :
  takes (create_backup deps) (process_limit L + upload_limit L + retention_time L deps) (fun _ => True).
Proof.
  destruct HL as (? & ? & ? & ?).
  assert (0 <= retention_time L deps).
  { unfold retention_time, MAX_LISTED, MAX_PAGE_SIZE. destruct (retention deps); nia. }
  unfold create_backup, lock. cbn [bind trigger]. eapply takes_call; [intros ?; cbn [port_cost]; reflexivity|].
  intros [] _; cbn [bind]; [|time_steps]. unfold with_guard. apply takes_scope; [done|].
  replace (process_limit L + upload_limit L + retention_time L deps - 0)
    with (process_limit L + upload_limit L + (retention_time L deps + 0)) by lia.
  eapply takes_bind; [apply dump_takes|]. intros [info|e] _; [|time_steps].
  eapply takes_bind; [apply prune_takes|]. intros _ _. time_steps.
Qed.

Lemma download_takes target :
  takes (download deps target) (latest_limit L + download_limit L) (fun _ => True).
Proof.
  destruct HL as (? & ? & ? & ?). unfold download, temp_file.
  eapply takes_bind; [apply resolve_takes|]. intros [info|e] _; time_steps.
Qed.

Lemma restore_takes target confirm :
  takes (restore deps target confirm)
    (latest_limit L + download_limit L + (process_limit L + upload_limit L) + process_limit L) (fun _ => True).
Proof.
  destruct HL as (? & ? & ? & ?). unfold restore, lock. destruct (negb _); [time_steps|].
  cbn [bind trigger]. eapply takes_call; [intros ?; cbn [port_cost]; reflexivity|].
  intros [] _; cbn [bind]; [|time_steps]. unfold with_guard. apply takes_scope; [done|].
  eapply takes_call; [intros ?; cbn [port_cost]; reflexivity|]. intros start _.
  eapply (takes_mono _ _ _ _ _ (fun _ => True)); [|done|eapply (takes_bind _ _ _ _ _ (download_limit L + (process_limit L + upload_limit L) + process_limit L));
    [apply resolve_takes|]]; [lia|].
  intros [info|e] _; [|time_steps]. destruct (bool_decide _); [time_steps|]. unfold temp_file. cbn [bind trigger].
  eapply takes_call; [intros ?; cbn [port_cost]; reflexivity|]. intros [file|e] _; cbn [bind result_map_err]; [|time_steps].
  unfold with_temp. apply takes_scope; [done|].
  eapply takes_call; [intros ?; cbn [port_cost]; reflexivity|]. intros [[]|e] _; cbn [bind]; [|time_steps].
  eapply (takes_mono _ _ _ _ _ (fun _ => True)); [|done|eapply (takes_bind _ _ _ _ _ (process_limit L)); [apply dump_takes|]]; [lia|].
  intros [pre|e] _; time_steps.
Qed.

Lemma serve_takes req : takes (serve deps req) (request_time L deps req) (fun _ => True).
Proof.
  assert (forall A B (p : M A) (f : A -> B) c, takes p c (fun _ => True) -> takes (map_prog f p) c (fun _ => True)) as Hmap.
  { intros A B p f c Hp. unfold map_prog. replace c with (c + 0) by lia.
    eapply takes_bind; [exact Hp|]. intros a _. by apply takes_Ret. }
  assert (forall A B ctx (p : M (Result A)) (k : A -> M (result B Status)) c,
    takes p c (fun _ => True) -> (forall a, takes (k a) 0 (fun _ => True)) ->
    takes (let? a := or_status ctx p in k a) c (fun _ => True)) as Hstatus.
  { intros A B ctx p k c Hp Hk. unfold or_status. replace c with (c + 0 + 0) by lia.
    eapply (takes_bind _ _ _ _ _ _ (fun _ => True)); [eapply takes_bind; [exact Hp|]|].
    - intros [a|e] _; [by apply takes_Ret|]. unfold to_status. time_steps.
    - intros [a|e] _; [apply Hk|by apply takes_Ret]. }
  destruct HL as (? & ? & ? & ?).
  destruct req as [|r|r|r|r|]; apply Hmap; cbn [request_time].
  - unfold grpc_create_backup. cbn [bind trigger]. eapply takes_call; [intros ?; cbn [port_cost]; reflexivity|].
    intros _ _. rewrite Z.sub_0_r. apply Hstatus; [apply create_backup_takes|]. intros info. time_steps.
  - unfold grpc_list_backups. apply Hstatus; [unfold list_backups; time_steps|]. intros info. time_steps.
  - unfold grpc_get_backup. case_match; [|time_steps]. apply Hstatus; [apply resolve_takes|]. intros info. time_steps.
  - unfold grpc_download_backup. case_match; [|time_steps]. apply Hstatus; [apply download_takes|].
    intros []. time_steps.
  - unfold grpc_restore. case_match; [|time_steps]. cbn [bind trigger].
    eapply takes_call; [intros ?; cbn [port_cost]; reflexivity|].
    intros _ _. rewrite Z.sub_0_r. apply Hstatus; [apply restore_takes|]. intros info. time_steps.
  - unfold grpc_healthcheck, healthcheck. time_steps.
Qed.
End UseCases.

(** ** Drive *)

(** The pauses of [n] rounds, from round [i] on. *)
Fixpoint pauses (policy : RetryPolicy) (i n : nat) : Z :=
  match n with O => 0 | S n => pause policy i + pauses policy (S i) n end.

Definition retry_time (policy : RetryPolicy) (c : Z) : Z :=
  Z.max 1 (attempts policy) * c + pauses policy 0 (Z.to_nat (attempts policy - 1)).

(** The body of a download arrives frame by frame, each within [idle]. *)
Definition drive_cost (idle : Duration) (e : event DriveE) : Z :=
  match e with
  | Ev op r =>
      match op in DriveE T return T -> Z with
      | ListFiles limit _ _ _ _ _ => fun _ => limit
      | GetFile limit _ _ => fun _ => limit
      | GetMedia limit _ => fun r =>
          limit + match r with Some (Ok body) => idle * (Z.of_nat (length body) + 1) | _ => 0 end
      | CreateFile limit _ _ _ => fun _ => limit
      | DeleteFile limit _ => fun _ => limit
      | Sleep d => fun _ => d
      | _ => fun _ => 0
      end r
  end.

(** Drive keeps to the page size, and a body has at most [frames] frames. *)
Definition drive_fine (frames : nat) (e : event DriveE) : Prop :=
  match e with
  | Ev op r =>
      match op in DriveE T return T -> Prop with
      | ListFiles _ _ _ n _ _ => fun r => forall l, r = Some (Ok l) -> Z.of_nat (length (default [] (l_files l))) <= n
      | GetMedia _ _ => fun r => forall body, r = Some (Ok body) -> (length body <= frames)%nat
      | _ => fun _ => True
      end r
  end.

Section DriveTime.
Context `{RustFmt, Md5} (s : GoogleDriveStorage) (frames : nat).

Abbreviation policy := (retry_policy (opts s)).
Abbreviation takes := (takes (drive_cost (read_idle_timeout (opts s))) (drive_fine frames)).

Definition options_ok : Prop :=
  policy_ok policy /\ 0 <= request_timeout (opts s) /\ 0 <= upload_timeout (opts s) /\
  0 <= read_idle_timeout (opts s).
Context (Hopts : options_ok).

Definition media_time : Z :=
  request_timeout (opts s) + read_idle_timeout (opts s) * (Z.of_nat frames + 1).

Lemma pause_nonneg i : 0 <= pause policy i.
Proof. destruct Hopts as ((? & ? & _) & _). destruct i; cbn [pause]; lia. Qed.

Lemma pauses_nonneg i n : 0 <= pauses policy i n.
Proof. revert i. induction n as [|n IH]; intros i; simpl; [lia|]. pose proof (pause_nonneg i). specialize (IH (S i)). lia. Qed.

Lemma drive_call_takes {A T} (op : DriveE T) (k : T -> prog DriveE A) d c Q :
  (forall r, drive_fine frames (Ev op r) -> drive_cost (read_idle_timeout (opts s)) (Ev op r) <= d) ->
  (forall r, drive_fine frames (Ev op r) -> takes (k r) (c - d) Q) ->
  takes (Vis op k) c Q.
Proof.
  intros Hd Hk. eapply takes_mono; [|done|apply (takes_Vis _ _ _ _ d (c - d) Q)]; [lia|]. auto.
Qed.

Lemma retry_takes {A} op (body : prog DriveE (result A CallError)) c (Q : Result A -> Prop) :
  0 <= c -> takes body c (fun r => Q (result_map_err into_error r)) ->
  takes (retry policy op body) (retry_time policy c) Q.
Proof.
  intros Hc Hb. unfold retry, retry_time.
  assert (forall fuel i n, (Z.max 1 (attempts policy - Z.of_nat i) <= Z.of_nat (S n)) ->
    takes (retry_loop fuel policy op body (pause policy i) (Z.of_nat i + 1))
      (Z.of_nat (S n) * c + pauses policy i n) Q) as Hloop.
  { induction fuel as [|fuel IH]; intros i n Hn; pose proof (pauses_nonneg i n);
      (replace (Z.of_nat (S n) * c + pauses policy i n) with (c + (Z.of_nat n * c + pauses policy i n)) by lia);
      cbn [retry_loop]; (eapply takes_bind; [exact Hb|]);
      intros [v|[msg|msg|err]] HQ; cbn [result_map_err] in HQ; try (apply takes_Ret; [nia|done]).
    all: destruct (Z.leb_spec (attempts policy) (Z.of_nat i + 1)); [apply takes_Ret; [nia|done]|].
    all: destruct n as [|n]; [lia|]; cbn [bind trigger pauses]; pose proof (pause_nonneg i); pose proof (pauses_nonneg (S i) n).
    all: apply (drive_call_takes _ _ 0); [done|]; intros _ _.
    all: apply (drive_call_takes _ _ (pause policy i)); [done|]; intros _ _.
    all: rewrite duration_mul_ok by apply Hopts; cbn [bind].
    - apply takes_Ret; [nia|done].
    - rewrite pause_step by apply Hopts. replace (Z.of_nat i + 1 + 1) with (Z.of_nat (S i) + 1) by lia.
      eapply takes_mono; [|done|apply (IH (S i) n); lia]. lia. }
  specialize (Hloop (Z.to_nat (attempts policy)) 0%nat (Z.to_nat (attempts policy - 1))).
  eapply takes_mono; [|done|apply Hloop; lia]. nia.
Qed.

Lemma retry_time_nonneg c : 0 <= c -> 0 <= retry_time policy c.
Proof. intros Hc. unfold retry_time. pose proof (pauses_nonneg 0 (Z.to_nat (attempts policy - 1))). nia. Qed.

(** One retried request. *)
Definition api_time : Z := retry_time policy (request_timeout (opts s)).

Ltac drive_steps :=
  cbn [bind trigger];
  repeat first
    [ apply takes_Ret; [lia|done]
    | eapply drive_call_takes; [intros ? ?; cbn [drive_cost]; reflexivity|intros ? ?; cbn [bind trigger result_map_err]]
    | progress case_match ].

Lemma keep_backups_takes l : takes (keep_backups l) 0 (fun its => (length its <= length l)%nat).
Proof.
  induction l as [|f l IH]; [by apply takes_Ret|]. cbn [keep_backups length]. destruct (to_backup_info f) as [info|e].
  - replace 0 with (0 + 0) by lia. eapply takes_bind; [exact IH|]. intros its Hits. cbn beta in Hits. apply takes_Ret; [lia|simpl; lia].
  - apply (drive_call_takes _ _ 0); [done|]. intros _ _. cbn [bind]. eapply takes_mono; [| |exact IH]; [lia|]. intros its Hits. cbn beta in *. lia.
Qed.

Lemma list_once_takes q n tok :
  takes (list_once s q n tok) (request_timeout (opts s))
    (fun r => forall page, r = Ok page -> 0 <= n -> Z.of_nat (length (items page)) <= n).
Proof.
  destruct Hopts as (_ & HR & _ & _). unfold list_once. cbn [bind trigger].
  eapply drive_call_takes; [intros ? ?; cbn [drive_cost]; reflexivity|]. intros r Hr. cbn [drive_fine] in Hr.
  destruct (timed _ _ r) as [l|e] eqn:Ht; [|by apply takes_Ret; [lia|]].
  apply timed_ok in Ht. specialize (Hr l Ht).
  rewrite Z.sub_diag, <-(Z.add_0_r 0). eapply takes_bind; [apply keep_backups_takes|].
  intros its Hits. apply takes_Ret; [lia|]. intros page [= <-] Hn. cbn [items].
  assert (default I32_MAX (try_from (- I32_MAX - 1) I32_MAX n) <= n) as Hd.
  { unfold try_from. destruct (_ && _) eqn:Hb; simpl; [lia|]. unfold I32_MAX in *. lia. }
  cbn beta in Hits. lia.
Qed.

Lemma drive_list_takes n tok :
  takes (drive_list s n tok) api_time
    (fun r => forall page, r = Ok page -> 0 <= n -> Z.of_nat (length (items page)) <= n).
Proof.
  pose proof Hopts as (_ & HR & _ & _). apply retry_takes; [lia|].
  rewrite <-(Z.add_0_r (request_timeout (opts s))).
  eapply takes_bind; [apply list_once_takes|]. intros [page|e] Hr; apply takes_Ret; [lia| |lia|].
  - intros page' [= <-]. by apply Hr.
  - intros page'. by destruct e; simpl; try case_match.
Qed.

Lemma latest_pages_takes n tok :
  takes (latest_pages s n tok) (Z.of_nat n * api_time) (fun _ => True).
Proof.
  pose proof Hopts as (_ & HR & _ & _). pose proof (retry_time_nonneg _ HR) as Hapi. fold api_time in Hapi.
  revert tok. induction n as [|n IH]; intros tok; cbn [latest_pages]; [by apply takes_Ret|].
  replace (Z.of_nat (S n) * api_time) with (api_time + Z.of_nat n * api_time) by lia.
  eapply (takes_bind _ _ _ _ _ _ (fun _ => True)).
  - apply retry_takes; [lia|]. eapply takes_any, list_once_takes.
  - intros [page|e] _; [|apply takes_Ret; [nia|done]].
    destruct (items page); [|apply takes_Ret; [nia|done]].
    destruct (next_page_token page) as [next|]; [destruct (str_is_empty next)|]; try (apply takes_Ret; [nia|done]).
    apply IH.
Qed.

Lemma drive_get_takes i : takes (drive_get s i) api_time (fun _ => True).
Proof.
  pose proof Hopts as (_ & HR & _ & _). unfold drive_get. replace api_time with (api_time + 0) by lia.
  eapply (takes_bind _ _ _ _ _ _ (fun _ => True)); [apply retry_takes; [lia|]|]; [drive_steps|].
  intros [f|e] _; [case_match|]; by apply takes_Ret.
Qed.

Lemma drive_delete_takes i : takes (drive_delete s i) api_time (fun _ => True).
Proof.
  pose proof Hopts as (_ & HR & _ & _). unfold drive_delete. replace api_time with (api_time + 0) by lia.
  eapply (takes_bind _ _ _ _ _ _ (fun _ => True)); [apply retry_takes; [lia|]|]; [drive_steps|].
  intros [[]|[]] _; drive_steps.
Qed.

Lemma drive_upload_takes req : takes (drive_upload s req) (upload_timeout (opts s)) (fun _ => True).
Proof. pose proof Hopts as (_ & _ & HU & _). unfold drive_upload. drive_steps. Qed.

Lemma write_frames_takes l dst hashed size :
  takes (write_frames l dst (read_idle_timeout (opts s)) hashed size) 0 (fun _ => True).
Proof.
  revert hashed size. induction l as [|[|e|d|] l IH]; intros hashed size; cbn [write_frames]; try by apply takes_Ret.
  - cbn [bind trigger]. apply (drive_call_takes _ _ 0); [done|]. intros [[]|e] _; [apply IH|by apply takes_Ret].
  - apply IH.
Qed.

Lemma download_once_takes b dst : takes (download_once s b dst) media_time (fun _ => True).
Proof.
  pose proof Hopts as (_ & HR & _ & HI). unfold download_once. cbn [bind trigger].
  apply (drive_call_takes _ _ media_time).
  { intros r Hr. cbn [drive_cost drive_fine] in *. unfold media_time. destruct r as [[l|e]|]; [|nia..].
    specialize (Hr l eq_refl). nia. }
  intros r _. rewrite Z.sub_diag. case_match; [|drive_steps].
  apply (drive_call_takes _ _ 0); [done|]. intros [[]|e] _; [|drive_steps].
  replace (0 - 0) with (0 + 0) by lia. eapply takes_bind; [apply write_frames_takes|].
  intros [[hashed size]|e] _; drive_steps.
Qed.

Lemma drive_download_takes b dst : takes (drive_download s b dst) (retry_time policy media_time) (fun _ => True).
Proof.
  pose proof Hopts as (_ & HR & _ & HI). assert (0 <= media_time) as Hm by (unfold media_time; nia).
  unfold drive_download. cbn [bind trigger].
  apply (drive_call_takes _ _ 0); [done|]. intros _ _. apply (drive_call_takes _ _ 0); [done|]. intros start _.
  replace (retry_time policy media_time - 0 - 0) with (retry_time policy media_time + 0) by lia.
  eapply (takes_bind _ _ _ _ _ _ (fun _ => True)); [apply retry_takes; [lia|apply download_once_takes]|].
  intros [size|e] _; drive_steps.
Qed.
End DriveTime.

(** ** The whole *)

Definition pg_cost (e : event PgE) : Z :=
  match e with Ev op _ => match op with RunWithin limit _ => limit | _ => 0 end end.

Definition sys_cost (idle : Duration) (e : event SysE) : Z :=
  match e with
  | Ev op r =>
      match op in SysE T return T -> Z with
      | SPg e => fun r => pg_cost (Ev e r)
      | SDrive e => fun r => drive_cost idle (Ev e r)
      | SFs _ | SOs _ => fun _ => 0
      end r
  end.

Definition sys_fine (frames : nat) (e : event SysE) : Prop :=
  match e with
  | Ev op r =>
      match op in SysE T return T -> Prop with SDrive e => fun r => drive_fine frames (Ev e r) | _ => fun _ => True end r
  end.

Section SystemTime.
Context `{RustFmt, Md5} (cfg : Settings) (frames : nat).
Context (Hpg : 0 <= pg_timeout cfg).

Abbreviation s := (drive_of cfg).
Abbreviation idle := (read_idle_timeout (opts s)).
Abbreviation takes := (takes (sys_cost idle) (sys_fine frames)).

(** The limits the settings and the defaults of the storage give. *)
Definition limits : Limits :=
  mkLimits (api_time s) (Z.of_nat LATEST_MAX_PAGES * api_time s)
    (retry_time (retry_policy (opts s)) (media_time s frames)) (upload_timeout (opts s)) (pg_timeout cfg).

Lemma default_options_ok : options_ok s.
Proof. unfold options_ok, policy_ok. vm_compute. by split_and!. Qed.

Lemma limits_fine : limits_ok limits.
Proof.
  assert (0 <= api_time s) by by vm_compute. unfold limits_ok.
  cbn [limits api_limit latest_limit download_limit upload_limit process_limit].
  change (Z.of_nat LATEST_MAX_PAGES) with 10. split_and!; [lia|lia| |by vm_compute|lia].
  apply retry_time_nonneg; [apply default_options_ok|].
  unfold media_time. cbn [opts drive_of DriveOptions_default request_timeout read_idle_timeout].
  assert (0 <= from_secs 60) by by vm_compute. nia.
Qed.

Lemma takes_pg {A} (p : prog PgE A) c Q :
  Timing.takes pg_cost (fun _ => True) p c Q -> takes (lift (@SPg) p) c Q.
Proof.
  apply takes_interp. intros T op t. split; [done|]. intros r t' [_ Ht]. by split.
Qed.

Lemma takes_drive {A} (p : prog DriveE A) c Q :
  Timing.takes (drive_cost idle) (drive_fine frames) p c Q -> takes (lift (@SDrive) p) c Q.
Proof.
  apply takes_interp. intros T op t. split; [done|]. intros r t' [Hf Ht]. by split.
Qed.

Lemma takes_fs {A} (p : prog FsE A) : takes (lift (@SFs) p) 0 (fun _ => True).
Proof.
  eapply (takes_interp (fun _ => 0) (fun _ => True)).
  - intros T op t. split; [done|]. intros r t' [_ Ht]. by split.
  - induction p as [a|T op k IH]; [by apply takes_Ret|]. apply (takes_Vis _ _ _ _ 0 0). intros r _. by split.
Qed.

Lemma execute_takes cmd limit :
  0 <= limit -> Timing.takes pg_cost (fun _ => True) (execute cmd limit) limit (fun _ => True).
Proof.
  intros Hl. unfold execute. cbn [bind trigger]. apply (takes_mono _ _ _ (limit + 0) _ (fun _ => True)); [lia|done|].
  apply takes_Vis. intros r _. split; [done|].
  assert (forall A (a : A), Timing.takes pg_cost (fun _ => True) (Ret a) 0 (fun _ => True)) as Hret
    by (intros A a; by apply takes_Ret).
  destruct r as [r|]; [|apply Hret]. destruct (runner_result cmd r) as [out|e]; [|apply Hret].
  destruct (negb (success out)); [apply Hret|]. destruct (negb _); cbn [bind trigger]; [|apply Hret].
  apply (takes_Vis _ _ _ _ 0 0). intros [] _. split; [done|apply Hret].
Qed.

Lemma operation_takes cmd m1 (m2 : Z -> Z -> string) :
  Timing.takes pg_cost (fun _ => True)
    (let* _ := call (PgLog Info m1) in
     let* start := call PgInstant in
     let? _ := execute cmd (pg_timeout cfg) in
     let* now := call PgInstant in
     let* _ := call (PgLog Info (m2 start now)) in
     Ret (Ok tt)) (pg_timeout cfg) (fun _ : Result unit => True).
Proof.
  cbn [bind trigger]. apply (takes_Vis _ _ _ _ 0 (pg_timeout cfg)). intros [] _. split; [done|].
  apply (takes_Vis _ _ _ _ 0 (pg_timeout cfg)). intros start _. split; [done|].
  apply (takes_mono _ _ _ (pg_timeout cfg + 0) _ (fun _ => True)); [lia|done|].
  eapply takes_bind; [by apply execute_takes|].
  intros [out|e] _; [|by apply takes_Ret]. apply (takes_Vis _ _ _ _ 0 0). intros now _. split; [done|].
  apply (takes_Vis _ _ _ _ 0 0). intros [] _. split; [done|]. by apply takes_Ret.
Qed.

(** Each port keeps its limit. *)
Lemma wire_takes T (op : PortE T) t :
  wp (fun _ _ _ => True) (tick (sys_cost idle) (sys_fine frames)) (wire (pg_of cfg) (drive_of cfg) T op)
    (fun r t' => tick (port_cost limits) port_fine t (Ev op r) t') t.
Proof.
  pose proof default_options_ok as Ho.
  assert (forall (p : prog SysE T) c, takes p c (fun r => port_fine (Ev op r)) -> (forall r, port_cost limits (Ev op r) = c) ->
    wp (fun _ _ _ => True) (tick (sys_cost idle) (sys_fine frames)) p
      (fun r t' => tick (port_cost limits) port_fine t (Ev op r) t') t) as Htakes.
  { intros p c Hp Hc. eapply wp_mono; [|apply Hp]. intros r t' [Ht Hf]. split; [done|]. by rewrite Hc. }
  assert (forall (e : OsE T), (forall r, port_fine (Ev op r)) -> (forall r, port_cost limits (Ev op r) = 0) ->
    wp (fun _ _ _ => True) (tick (sys_cost idle) (sys_fine frames)) (trigger (SOs e))
      (fun r t' => tick (port_cost limits) port_fine t (Ev op r) t') t) as Hos.
  { intros e Hf Hc. split; [done|]. intros r t' [_ Ht]. split; [done|]. by rewrite Hc. }
  destruct op; cbn [wire]; try (by apply Hos).
  - apply (Htakes _ (process_limit limits)); [|done]. apply takes_pg. apply (operation_takes _ _ (fun start now => _)).
  - apply (Htakes _ (process_limit limits)); [|done]. apply takes_pg. apply (operation_takes _ _ (fun start now => _)).
  - apply (Htakes _ (PING_TIMEOUT)); [|done]. apply takes_pg. unfold PgTools_ping. apply (takes_mono _ _ _ (PING_TIMEOUT + 0) _ (fun _ => True)); [done|done|].
    eapply takes_bind; [by apply execute_takes|]. intros [out|e] _; by apply takes_Ret.
  - apply (Htakes _ (upload_limit limits)); [|done]. by apply takes_drive, drive_upload_takes.
  - apply (Htakes _ (api_limit limits)); [|done]. by apply takes_drive, drive_list_takes.
  - apply (Htakes _ (latest_limit limits)); [|done]. by apply takes_drive, latest_pages_takes.
  - apply (Htakes _ (api_limit limits)); [|done]. by apply takes_drive, drive_get_takes.
  - apply (Htakes _ (download_limit limits)); [|done]. by apply takes_drive, drive_download_takes.
  - apply (Htakes _ (api_limit limits)); [|done]. by apply takes_drive, drive_delete_takes.
  - eapply (Htakes _ (0 + 0)); [|done]. eapply takes_bind; [apply takes_fs|]. intros r _. cbn [bind trigger].
    apply (takes_Vis _ _ _ _ 0 0). intros j _. split; [done|]. by apply takes_Ret.
Qed.

Lemma serve_time req tr r :
  steps (system cfg (fun deps => serve deps req)) tr (Ret r) -> Forall (sys_fine frames) tr ->
  total (sys_cost idle) tr <= request_time limits (deps_of cfg) req.
Proof.
  intros Hs Hf. refine (proj1 (takes_steps _ _ _ _ (fun _ => True) _ _ _ Hs Hf)). eapply takes_interp; [apply wire_takes|].
  apply serve_takes, limits_fine.
Qed.
End SystemTime.

(** ** What Drive chooses *)

(** A page of Drive has at most the files asked for. *)
Definition keeps_page_size (e : event SysE) : bool :=
  match e with
  | Ev op r =>
      match op in SysE T return T -> bool with
      | SDrive op => fun r =>
          match op in DriveE T return T -> bool with
          | ListFiles _ _ _ n _ _ => fun r =>
              match r with Some (Ok l) => Z.of_nat (length (default [] (l_files l))) <=? n | _ => true end
          | _ => fun _ => true
          end r
      | _ => fun _ => true
      end r
  end.

(** The frames in which the body of a download arrives. *)
Definition body_frames (e : event SysE) : nat :=
  match e with
  | Ev op r =>
      match op in SysE T return T -> nat with
      | SDrive op => fun r =>
          match op in DriveE T return T -> nat with
          | GetMedia _ _ => fun r => match r with Some (Ok body) => length body | _ => O end
          | _ => fun _ => O
          end r
      | _ => fun _ => O
      end r
  end.

Definition most_frames (tr : list (event SysE)) : nat := foldr (fun e n => Nat.max (body_frames e) n) O tr.

Lemma sys_fine_le n m e : (n <= m)%nat -> sys_fine n e -> sys_fine m e.
Proof.
  intros Hle. destruct e as [T op r]. destruct op as [T op|T op|T op|T op]; try done. destruct op; try done.
  cbn. intros Hb body Heq. specialize (Hb body Heq). lia.
Qed.

Lemma run_fine tr : forallb keeps_page_size tr = true -> Forall (sys_fine (most_frames tr)) tr.
Proof.
  induction tr as [|e tr IH]; [done|]. cbn [forallb]. intros [He Htr]%andb_true_iff. cbn [most_frames foldr]. constructor.
  - apply (sys_fine_le (body_frames e)); [lia|]. destruct e as [T op r]. destruct op as [T op|T op|T op|T op]; try done.
    destruct op; try done; cbn in *; [|by intros body ->]. intros l ->. by apply Z.leb_le in He.
  - eapply Forall_impl; [by apply IH|]. intros x. apply sys_fine_le. fold (most_frames tr). lia.
Qed.

(** The requests that fetch the file of a backup. *)
Definition fetches (req : Request) : bool :=
  match req with DownloadBackup _ | Restore _ => true | _ => false end.

Lemma frames_irrelevant `{RustFmt} cfg n req :
  fetches req = false -> request_time (limits cfg n) (deps_of cfg) req = request_time (limits cfg 0) (deps_of cfg) req.
Proof. by destruct req. Qed.

Section RequestTime.
Context `{RustFmt, Md5} (cfg : Settings).
Context (Hpg : 0 <= pg_timeout cfg).

(** C13. No request waits longer than its bound for PostgreSQL's programs, for
    Drive and in the pauses of the retries: in a complete run of the whole
    server on any of the six requests in which Drive keeps to the page size,
    the time limits of the calls add up to at most [request_time], whatever
    else is answered.  For the requests that do not fetch a file that is a
    number of the settings and the defaults.  For [DownloadBackup] and
    [Restore] it grows with the number of frames in which Drive sends the file,
    since a download is limited from frame to frame only. *)
Theorem request_time_bounded req tr r :
  steps (system cfg (fun deps => serve deps req)) tr (Ret r) -> forallb keeps_page_size tr = true ->
  total (sys_cost (read_idle_timeout (opts (drive_of cfg)))) tr <=
    request_time (limits cfg (if fetches req then most_frames tr else 0%nat)) (deps_of cfg) req.
Proof.
  intros Hs Hf%run_fine. etrans; [by eapply serve_time|]. destruct (fetches req) eqn:Hreq; [done|].
  by rewrite frames_irrelevant.
Qed.
End RequestTime.

(** ** Witness *)

#[local] Existing Instance sys_fmt.

(** The bounds of [sys_cfg], whose commands may take an hour. *)
Lemma request_time_examples :
  request_time (limits sys_cfg 0) (deps_of sys_cfg) (ListBackups (mkListBackupsRequest 0 "")) = from_millis 243500 /\
  request_time (limits sys_cfg 0) (deps_of sys_cfg) (GetBackup (mkBackupRef None)) = from_millis 2435000 /\
  request_time (limits sys_cfg 0) (deps_of sys_cfg) Healthcheck = from_secs 10.
Proof. by vm_compute. Qed.

(** The calls of a run. *)
Fixpoint trace_partial {E S A} (h : forall T, E T -> S -> option (T * S)) (p : prog E A) (s : S) :
    option (list (event E) * A) :=
  match p with
  | Ret a => Some ([], a)
  | Vis e k =>
      match h _ e s with
      | Some (r, s') => (fun ta => (Ev e r :: ta.1, ta.2)) <$> trace_partial h (k r) s'
      | None => None
      end
  end.

Lemma trace_partial_steps {E S A} h (p : prog E A) (s : S) tr a :
  trace_partial h p s = Some (tr, a) -> steps p tr (Ret a).
Proof.
  revert s tr. induction p as [b|T e k IH]; intros s tr; simpl; [by intros [= <- <-]|].
  destruct (h T e s) as [[r s']|]; [|done]. destruct (trace_partial h (k r) s') as [[tr' a']|] eqn:Hk; [|done].
  intros [= <- <-]. exists r. split; [done|]. by apply (IH r s').
Qed.

(** A restore that fetches a backup, and a backup that is made. *)
Definition timed_run (req : Request) : option (list (event SysE) * Reply) :=
  trace_partial run_sys (system sys_cfg (fun deps => serve deps req)) sys_world.

Lemma timed_runs :
  match timed_run sys_restore_call, timed_run CreateBackup with
  | Some (tr1, RestoreReply_ (Ok _)), Some (tr2, InfoReply (Ok _)) =>
      forallb keeps_page_size tr1 && forallb keeps_page_size tr2 && (most_frames tr1 =? 1)%nat
  | _, _ => false
  end = true.
Proof. vm_compute. reflexivity. Qed.

Lemma request_time_bounded_witness :
  exists tr1 r1 tr2 r2,
    steps (system sys_cfg (fun deps => serve deps sys_restore_call)) tr1 (Ret (RestoreReply_ (Ok r1))) /\
    total (sys_cost (from_secs 60)) tr1 <= request_time (limits sys_cfg 1) (deps_of sys_cfg) sys_restore_call /\
    steps (system sys_cfg (fun deps => serve deps CreateBackup)) tr2 (Ret (InfoReply (Ok r2))) /\
    total (sys_cost (from_secs 60)) tr2 <= request_time (limits sys_cfg 0) (deps_of sys_cfg) CreateBackup.
Proof.
  pose proof timed_runs as Hok.
  destruct (timed_run sys_restore_call) as [[tr1 [i|l|d|[r1|e]|h]]|] eqn:H1; try discriminate Hok.
  destruct (timed_run CreateBackup) as [[tr2 [[r2|e]|l|d|r|h]]|] eqn:H2; try discriminate Hok.
  apply andb_true_iff in Hok as [[Hp1 Hp2]%andb_true_iff Hn%Nat.eqb_eq].
  pose proof (trace_partial_steps _ _ _ _ _ H1) as Hs1. pose proof (trace_partial_steps _ _ _ _ _ H2) as Hs2.
  exists tr1, r1, tr2, r2. split_and!; [exact Hs1| |exact Hs2|].
  - rewrite <-Hn. apply (request_time_bounded sys_cfg ltac:(by vm_compute) sys_restore_call tr1 _ Hs1 Hp1).
  - apply (request_time_bounded sys_cfg ltac:(by vm_compute) CreateBackup tr2 _ Hs2 Hp2).
Defined.
