(* ===== verification/Logger.v ===== *)
(** * [logger.rs]: what is logged and how

    The line a record gives, and which records are written: the filter that
    [env_logger] and [env_filter] make of the variable [RUST_LOG].  Regular
    expressions are a parameter. *)

From Stdlib Require Import ZArith Lia Ascii.
From stdpp Require Import base numbers gmap sorting strings list.
From S2P Require Import Prelude RustStd Utf8 Chrono Core Ports.
Open Scope Z_scope.
Open Scope rust_scope.

(** ** Lines *)

Definition TAB : ascii := chr 9.

Definition Level_display (lv : Level) : string :=
  match lv with Info => "INFO" | Warn => "WARN" | Error_ => "ERROR" end.

(** [%Y-%m-%d %H:%M:%S.%f] of a local time; [%f] is nine digits. *)
Definition format_log_time (t : DateTime) : string :=
  let date := date_of_days (timestamp t / 86400) in
  let sod := timestamp t mod 86400 in
  of_chars (write_year (year date) ++ ["-"%char] ++ write_two (month date) ++ ["-"%char] ++
            write_two (day date) ++ [" "%char] ++ write_two (sod / 3600) ++ [":"%char] ++
            write_two (sod / 60 mod 60) ++ [":"%char] ++
            write_two (sod mod 60 + timestamp_subsec_nanos t / NANOS_PER_SEC) ++ ["."%char] ++
            pad_zero 9 (nat_digits (timestamp_subsec_nanos t mod NANOS_PER_SEC))).

Record LogRecord := mkLogRecord { rec_level : Level; rec_target : string; rec_line : option Z; rec_args : string }.

Definition log_line (now : DateTime) (r : LogRecord) : string :=
  Level_display (rec_level r) +:+ String TAB ("[" +:+ format_log_time now +:+ "] [" +:+ rec_target r +:+ ":" +:+
  int_to_string (default 1 (rec_line r)) +:+ "]" +:+ String TAB (rec_args r +:+ String (chr 10) "")).

(** ** Levels *)

(** A [LevelFilter] by its number, from off (0) to trace (5). *)
Definition LOG_LEVEL_NAMES : list string := ["OFF"; "ERROR"; "WARN"; "INFO"; "DEBUG"; "TRACE"].
Definition MAX_LEVEL : Z := 5.
Definition level_number (lv : Level) : Z := match lv with Error_ => 1 | Warn => 2 | Info => 3 end.

Fixpoint level_index (idx : Z) (names : list string) (s : string) : option Z :=
  match names with
  | [] => None
  | n :: names => if eq_ignore_ascii_case n s then Some idx else level_index (idx + 1) names s
  end.
Definition LevelFilter_from_str (s : string) : option Z := level_index 0 LOG_LEVEL_NAMES s.

(** ** [env_filter] *)

Record Directive := mkDirective { d_name : option string; d_level : Z }.

Definition enabled (directives : list Directive) (level : Z) (target : string) : bool :=
  match List.find (fun d => match d_name d with Some n => String.prefix n target | None => true end) (rev directives) with
  | Some d => level <=? d_level d
  | None => false
  end.

Section Filter.
(** [Regex::new] and, for what it gives, [is_match]. *)
Context (regex_new : string -> result (string -> bool) string).

Record ParseResult := mkParseResult {
  p_directives : list Directive; p_filter : option (string -> bool); p_errors : list string }.

(** One part between commas, not empty. *)
Definition parse_part (s : string) : result Directive string :=
  match split_on "=" (chars s) with
  | [part0] =>
      match LevelFilter_from_str (of_chars part0) with
      | Some n => Ok (mkDirective None n)
      | None => Ok (mkDirective (Some (of_chars part0)) MAX_LEVEL)
      end
  | [part0; part1] =>
      let part1 := trim (of_chars part1) in
      if str_is_empty part1 then Ok (mkDirective (Some (of_chars part0)) MAX_LEVEL)
      else
        match LevelFilter_from_str part1 with
        | Some n => Ok (mkDirective (Some (of_chars part0)) n)
        | None => Err ("invalid logging spec '" +:+ part1 +:+ "'")
        end
  | _ => Err ("invalid logging spec '" +:+ s +:+ "'")
  end.

Fixpoint parse_parts (parts : list string) : list Directive * list string :=
  match parts with
  | [] => ([], [])
  | s :: parts =>
      let '(ds, es) := parse_parts parts in
      if str_is_empty s then (ds, es)
      else match parse_part s with Ok d => (d :: ds, es) | Err e => (ds, e :: es) end
  end.

Definition parse_spec (spec : string) : ParseResult :=
  let parse mods := parse_parts ((fun m => trim (of_chars m)) <$> split_on "," mods) in
  match split_on "/" (chars spec) with
  | [mods] => let '(ds, es) := parse mods in mkParseResult ds None es
  | [mods; filter] =>
      let '(ds, es) := parse mods in
      match regex_new (of_chars filter) with
      | Ok f => mkParseResult ds (Some f) es
      | Err e => mkParseResult ds None (es ++ ["invalid regex filter - " +:+ e])
      end
  | _ => mkParseResult [] None ["invalid logging spec '" +:+ spec +:+ "' (too many '/'s)"]
  end.

Fixpoint insert_directive (directives : list Directive) (d : Directive) : list Directive :=
  match directives with
  | [] => [d]
  | x :: l => if bool_decide (d_name x = d_name d) then d :: l else x :: insert_directive l d
  end.

(** [Vec::sort_by] keeps the order of equals. *)
Definition name_len (d : Directive) : nat := from_option String.length 0%nat (d_name d).
Fixpoint insert_sorted (d : Directive) (l : list Directive) : list Directive :=
  match l with
  | [] => [d]
  | x :: l' => if (name_len x <=? name_len d)%nat then x :: insert_sorted d l' else d :: l
  end.
Definition sort_directives (l : list Directive) : list Directive := foldl (fun acc d => insert_sorted d acc) [] l.

Record Filter := mkFilter { f_directives : list Directive; f_filter : option (string -> bool) }.

Definition build (directives : list Directive) (filter : option (string -> bool)) : Filter :=
  match directives with
  | [] => mkFilter [mkDirective None (level_number Error_)] filter
  | _ => mkFilter (sort_directives directives) filter
  end.

(** [Filter::filter]: the highest level of a directive. *)
Definition max_level (f : Filter) : Z := foldr (fun d => Z.max (d_level d)) 0 (f_directives f).

Definition matches (f : Filter) (r : LogRecord) : bool :=
  enabled (f_directives f) (level_number (rec_level r)) (rec_target r) &&
  match f_filter f with Some is_match => is_match (rec_args r) | None => true end.

(** ** [env_logger] *)

(** [Builder::new().parse_default_env().build()] with the value of [RUST_LOG]. *)
Definition directives_of (var : option string) : list Directive :=
  match var with
  | Some s => foldl insert_directive [] (p_directives (parse_spec s))
  | None => []
  end.
Definition logger (var : option string) : Filter :=
  build (directives_of var) (var ≫= fun s => p_filter (parse_spec s)).

(** The macros of [log] with the logger of [init]: what a record writes. *)
Definition write_record (var : option string) (now : DateTime) (r : LogRecord) : option string :=
  if level_number (rec_level r) <=? max_level (logger var) then
    if matches (logger var) r then Some (log_line now r) else None
  else None.
End Filter.

(** ** Facts *)

(** The directives that speak about a target. *)
Definition covers (d : Directive) (target : string) : bool :=
  match d_name d with Some n => String.prefix n target | None => true end.

Lemma insert_directive_names l d :
  NoDup (d_name <$> l) -> NoDup (d_name <$> insert_directive l d) /\
  forall n, n ∈ d_name <$> insert_directive l d <-> n ∈ d_name <$> l \/ n = d_name d.
Proof.
  induction l as [|x l IH]; intros Hn; cbn [insert_directive fmap list_fmap] in *.
  - split; [apply NoDup_singleton|]. intros n. rewrite list_elem_of_singleton, elem_of_nil. naive_solver.
  - apply NoDup_cons in Hn as [Hx Hn]. destruct (IH Hn) as [IH1 IH2]. case_bool_decide as Hd; cbn [fmap list_fmap].
    + rewrite <-Hd. split; [by apply NoDup_cons|]. intros n. rewrite elem_of_cons. tauto.
    + split; [apply NoDup_cons; split; [|done]; rewrite IH2; naive_solver|].
      intros n. rewrite !elem_of_cons, IH2. tauto.
Qed.

Lemma directives_names regex_new var : NoDup (d_name <$> directives_of regex_new var).
Proof.
  destruct var as [s|]; [|constructor]. unfold directives_of. generalize (p_directives (parse_spec regex_new s)). intros l.
  assert (forall acc, NoDup (d_name <$> acc) -> NoDup (d_name <$> foldl insert_directive acc l)) as H; [|apply H; constructor].
  induction l as [|d l IH]; intros acc Ha; [done|]. by apply IH, insert_directive_names.
Qed.

Abbreviation shorter := (fun x y => name_len x <= name_len y)%nat.

Lemma insert_sorted_ok d l :
  StronglySorted shorter l -> StronglySorted shorter (insert_sorted d l) /\ insert_sorted d l ≡ₚ d :: l.
Proof.
  induction 1 as [|x l Hl IH Hx]; cbn [insert_sorted]; [by repeat constructor|].
  destruct IH as [IH1 IH2]. destruct (Nat.leb_spec (name_len x) (name_len d)) as [Hle|Hlt].
  - split; [|by rewrite IH2, Permutation_swap]. constructor; [done|]. rewrite IH2. by constructor.
  - split; [|done]. repeat constructor; [done..|lia|]. eapply Forall_impl; [exact Hx|]. cbn. lia.
Qed.

Lemma sort_directives_ok l : StronglySorted shorter (sort_directives l) /\ sort_directives l ≡ₚ l.
Proof.
  unfold sort_directives. enough (forall acc, StronglySorted shorter acc ->
    StronglySorted shorter (foldl (fun acc d => insert_sorted d acc) acc l) /\
    foldl (fun acc d => insert_sorted d acc) acc l ≡ₚ l ++ acc) as H.
  { destruct (H []) as [H1 H2]; [constructor|]. rewrite app_nil_r in H2. by split. }
  induction l as [|d l IH]; intros acc Ha; [done|]. cbn [foldl]. destruct (insert_sorted_ok d acc Ha) as [H1 H2].
  destruct (IH _ H1) as [IH1 IH2]. split; [done|]. rewrite IH2, H2. cbn. by rewrite Permutation_middle.
Qed.

(** The directive found is one of the longest that speak about the target. *)
Lemma find_longest l target d :
  StronglySorted shorter l -> List.find (fun d => covers d target) (rev l) = Some d ->
  d ∈ l /\ covers d target = true /\ forall d', d' ∈ l -> covers d' target = true -> (name_len d' <= name_len d)%nat.
Proof.
  induction 1 as [|x l Hl IH Hx]; cbn [rev]; [done|].
  assert (forall k, List.find (fun d => covers d target) (k ++ [x]) =
    match List.find (fun d => covers d target) k with Some y => Some y | None => if covers x target then Some x else None end) as Happ.
  { induction k as [|y k IHk]; cbn; [done|]. by destruct (covers y target). }
  rewrite Happ. destruct (List.find _ (rev l)) as [y|] eqn:Hf.
  - intros [= ->]. destruct (IH eq_refl) as (Hin & Hc & Hmax). split_and!; [by right|done|].
    intros d' [->|Hd']%elem_of_cons Hcd; [|by apply Hmax]. rewrite Forall_forall in Hx. by apply Hx.
  - destruct (covers x target) eqn:Hc; [|done]. intros [= <-]. split_and!; [by left|done|].
    intros d' [->|Hd']%elem_of_cons Hcd; [done|]. exfalso.
    pose proof (List.find_none _ _ Hf d') as Hnone. cbn in Hnone. rewrite Hnone in Hcd; [done|].
    by apply List.in_rev; rewrite List.rev_involutive; apply list_elem_of_In.
Qed.

Lemma prefix_same a b t :
  String.prefix a t = true -> String.prefix b t = true -> String.length a = String.length b -> a = b.
Proof.
  revert b t. induction a as [|x a IH]; intros [|y b] [|z t]; cbn; try done.
  destruct (ascii_dec x z) as [->|], (ascii_dec y z) as [->|]; try done. intros Ha Hb [= Hl]. f_equal. by eapply IH.
Qed.

Lemma enabled_found l level target :
  enabled l level target = true -> exists d, d ∈ l /\ level <= d_level d.
Proof.
  unfold enabled. destruct (List.find _ _) as [d|] eqn:Hf; [|done]. intros Hl%Z.leb_le. exists d. split; [|done].
  apply List.find_some in Hf as [Hin _]. by apply list_elem_of_In, List.in_rev.
Qed.

(** The check of the macros against [max_level] never hides a record. *)
Lemma max_level_ok f level target : enabled (f_directives f) level target = true -> level <= max_level f.
Proof.
  intros (d & Hd & Hl)%enabled_found. unfold max_level. induction (f_directives f) as [|x l IH]; cbn.
  - by apply not_elem_of_nil in Hd.
  - apply elem_of_cons in Hd as [->|Hd]; [lia|]. specialize (IH Hd). lia.
Qed.

Lemma enabled_longest l level target :
  NoDup (d_name <$> l) -> (forall d, d ∈ l -> d_name d <> Some "") ->
  enabled (sort_directives l) level target = true <->
  exists d, d ∈ l /\ covers d target = true /\
    (forall d', d' ∈ l -> covers d' target = true -> (name_len d' <= name_len d)%nat) /\ level <= d_level d.
Proof.
  intros Hnd Hne. destruct (sort_directives_ok l) as [Hs Hp]. unfold enabled.
  change (fun d => match d_name d with Some n => String.prefix n target | None => true end) with (fun d => covers d target).
  destruct (List.find _ _) as [d|] eqn:Hf.
  - destruct (find_longest _ _ _ Hs Hf) as (Hin & Hc & Hmax). setoid_rewrite Hp in Hin. setoid_rewrite Hp in Hmax.
    rewrite Z.leb_le. split; [by exists d|]. intros (e & He & Hce & Hme & Hl).
    assert (name_len e = name_len d) as Hlen by (pose proof (Hmax e He Hce); pose proof (Hme d Hin Hc); lia).
    enough (d_name e = d_name d) by (by rewrite (NoDup_key d_name l d e)). unfold covers, name_len in *.
    pose proof (Hne d Hin) as Hd0. pose proof (Hne e He) as He0.
    destruct (d_name e) as [[|]|] eqn:Hdn, (d_name d) as [[|]|] eqn:Hen; cbn in Hlen; try done.
    f_equal. by eapply prefix_same; [done..|cbn; lia].
  - split; [done|]. intros (d & Hin & Hc & _). exfalso. pose proof (List.find_none _ _ Hf d) as Hn. cbn in Hn.
    rewrite Hn in Hc; [done|]. apply List.in_rev. rewrite List.rev_involutive. apply list_elem_of_In. by rewrite Hp.
Qed.

Lemma build_filter directives filter : f_filter (build directives filter) = filter.
Proof. by destruct directives. Qed.

(** ** Theorem *)

(** C31. Which records the server logs.  With [RUST_LOG] unset, or without a
    directive in it, exactly the errors; otherwise the longest directive that
    names a prefix of the record's target (the level without a name being the
    shortest) decides by its level, however often and in whatever order the
    variable names targets; a text filter must match as well. *)
Theorem log_filter regex_new var now r :
  (forall d, d ∈ directives_of regex_new var -> d_name d <> Some "") ->
  write_record regex_new var now r = Some (log_line now r) <->
  (forall s f, var = Some s -> p_filter (parse_spec regex_new s) = Some f -> f (rec_args r) = true) /\
  (directives_of regex_new var = [] /\ rec_level r = Error_ \/
   exists d, d ∈ directives_of regex_new var /\ covers d (rec_target r) = true /\
     (forall d', d' ∈ directives_of regex_new var -> covers d' (rec_target r) = true -> (name_len d' <= name_len d)%nat) /\
     level_number (rec_level r) <= d_level d).
Proof.
  intros Hne. pose proof (directives_names regex_new var) as Hnd.
  assert (write_record regex_new var now r = Some (log_line now r) <-> matches (logger regex_new var) r = true) as ->.
  { unfold write_record. destruct (matches _ r) eqn:Hm; [|by destruct (_ <=? _)].
    apply andb_true_iff in Hm as [Hm _]. apply max_level_ok, Z.leb_le in Hm. by rewrite Hm. }
  unfold matches. rewrite andb_true_iff.
  assert (match f_filter (logger regex_new var) with Some is_match => is_match (rec_args r) | None => true end = true <->
    (forall s f, var = Some s -> p_filter (parse_spec regex_new s) = Some f -> f (rec_args r) = true)) as ->.
  { unfold logger. rewrite build_filter.
    destruct var as [s|]; cbn; [|done]. destruct (p_filter _) as [f|] eqn:Hf; [|naive_solver].
    split; [|intros Hm; by eapply Hm]. intros Hm s' f' [= <-]. rewrite Hf. by intros [= <-]. }
  rewrite (and_comm (enabled _ _ _ = true)). apply and_iff_compat_l. unfold logger, build.
  destruct (directives_of regex_new var) as [|d l] eqn:Hds.
  - destruct (rec_level r); cbn; (split; [by auto|intros [[_ ?]|(d & Hd & _)]; [done|by apply not_elem_of_nil in Hd]]).
  - rewrite <-Hds in *. cbn [f_directives]. rewrite enabled_longest by done. rewrite Hds. naive_solver.
Qed.

(** ** Witness and examples *)

Definition no_regex (s : string) : result (string -> bool) string := Err s.

Definition quiet_drive : option string := Some "info, backup_gdrive=warn,backup_gdrive::storage= error".

Lemma log_filter_witness :
  exists d, d ∈ directives_of no_regex quiet_drive /\ covers d "backup_server" = true.
Proof.
  destruct (log_filter no_regex quiet_drive (mkDateTime 0 0) (mkLogRecord Info "backup_server" None "x")) as [H _].
  { intros d. vm_compute (directives_of _ _). intros Hd. repeat (apply elem_of_cons in Hd as [->|Hd]; [done|]).
    by apply not_elem_of_nil in Hd. }
  destruct H as [_ [[H _]|(d & Hd & Hc & _)]]; [by vm_compute|done|by exists d].
Defined.

Example quiet_drive_examples :
  let written lv target := bool_decide (is_Some (write_record no_regex quiet_drive (mkDateTime 0 0) (mkLogRecord lv target None "x"))) in
  written Info "backup_server::grpc" = true /\ written Info "backup_gdrive::retry" = false /\
  written Warn "backup_gdrive::retry" = true /\ written Warn "backup_gdrive::storage" = false /\
  p_errors (parse_spec no_regex "info/x/y") = ["invalid logging spec 'info/x/y' (too many '/'s)"] /\
  p_errors (parse_spec no_regex "a=b,c=d=e") = ["invalid logging spec 'b'"; "invalid logging spec 'c=d=e'"].
Proof. by vm_compute. Qed.

Example log_line_example :
  log_line (mkDateTime 1767225600 5000000) (mkLogRecord Warn "backup_server::service" (Some 42) "Could not prune") =
  "WARN" +:+ String TAB ("[2026-01-01 00:00:00.005000000] [backup_server::service:42]" +:+
    String TAB ("Could not prune" +:+ String (chr 10) "")).
Proof. by vm_compute. Qed.
