(* ===== verification/Startup.v ===== *)
(** * Start-up: [main.rs] and [client.rs]

    [main] from the environment of the process to the end of serving, the
    Drive client it builds and the wait for a shutdown signal.  The service-account key, the TLS roots, the authenticator
    and the gRPC transport are libraries: they are calls that may fail. *)

From Stdlib Require Import ZArith Lia Ascii.
From stdpp Require Import base numbers gmap sorting strings list.
From S2P Require Import Prelude RustStd Md5 Chrono Core Ports Service Pg Drive DriveStorage SocketAddr Settings System Logger.
Open Scope Z_scope.
Open Scope rust_scope.

(** ** The interface of [main] *)

Inductive SignalKind := SigTerminate | SigQuit.

(** What is served: the service over its collaborators. *)
Record Backend := mkBackend { be_pg : PgTools; be_storage : GoogleDriveStorage; be_deps : ServiceDeps }.

Inductive MainE (Key : Type) : Type -> Type :=
| InitLogger : MainE Key unit
(* [with_native_roots] *)
| NativeRoots : MainE Key (result unit string)
(* [ServiceAccountAuthenticator::with_client(..).build()] *)
| BuildAuth (secret : Key) : MainE Key (result unit string)
| Serve (addr : SocketAddr) (backend : Backend) : MainE Key (result unit string)
(* [signal(kind).is_ok()] *)
| Install (kind : SignalKind) : MainE Key bool
(* ctrl-c, or one of the installed signals *)
| AwaitSignal (installed : list SignalKind) : MainE Key unit
| MainLog (lv : Level) (msg : string) : MainE Key unit.
Arguments InitLogger {Key}.
Arguments NativeRoots {Key}.
Arguments BuildAuth {Key} secret.
Arguments Serve {Key} addr backend.
Arguments Install {Key} kind.
Arguments AwaitSignal {Key} installed.
Arguments MainLog {Key} lv msg.

(** [Box<dyn Error>]. *)
Inductive MainError := AppError (e : Error) | TransportError (e : string).

Section Startup.
Context {Key : Type} (parse_service_account_key : string -> result Key string).

Definition build_connector : prog (MainE Key) (Result unit) :=
  let* r := call NativeRoots in
  Ret (result_map_err (fun e => StorageError ("Could not load native TLS roots: " +:+ e)) r).

Definition build_hub (creds : string) : prog (MainE Key) (Result unit) :=
  match parse_service_account_key creds with
  | Err e => Ret (Err (Config ("Could not parse drive creds: " +:+ e)))
  | Ok secret =>
      let? _ := build_connector in
      let* auth := call (BuildAuth secret) in
      match auth with
      | Err e => Ret (Err (StorageError ("Could not build drive authenticator: " +:+ e)))
      | Ok _ => build_connector
      end
  end.

Definition connect (creds folder : string) (o : DriveOptions) : prog (MainE Key) (Result GoogleDriveStorage) :=
  let? _ := build_hub creds in
  Ret (Ok (mkGoogleDriveStorage folder o)).

Definition shutdown_signal : prog (MainE Key) unit :=
  let* term := call (Install SigTerminate) in
  let* quit := call (Install SigQuit) in
  if term && quit then
    let* _ := call (AwaitSignal [SigTerminate; SigQuit]) in
    call (MainLog Info "Received shutdown signal, terminating")
  else
    let* _ := call (MainLog Error_ "Could not install signal handlers, waiting for ctrl-c only") in
    call (AwaitSignal []).

Definition start_message (cfg : Settings) (deps : ServiceDeps) : string :=
  "Start gRPC server on " +:+ SocketAddr_display (listen_addr cfg) +:+ " for database '" +:+ db_name deps +:+ "'".

(** [env] is [std::env::var(key).ok()]. *)
Definition main (env : string -> option string) : prog (MainE Key) (result unit MainError) :=
  let* _ := call InitLogger in
  match from_source env with
  | Err e => Ret (Err (AppError e))
  | Ok cfg =>
      let* connected := connect (expose (drive_creds cfg)) (drive_folder_id cfg) DriveOptions_default in
      match connected with
      | Err e => Ret (Err (AppError e))
      | Ok storage =>
          let backend := mkBackend (pg_of cfg) storage (deps_of cfg) in
          let* _ := call (MainLog Info (start_message cfg (be_deps backend))) in
          let* served := call (Serve (listen_addr cfg) backend) in
          Ret (result_map_err TransportError served)
      end
  end.

(** ** What [main] does *)

(** The calls before serving, when nothing failed. *)
Definition ready (cfg : Settings) (key : Key) : list (event (MainE Key)) :=
  [Ev InitLogger tt; Ev NativeRoots (Ok tt); Ev (BuildAuth key) (Ok tt); Ev NativeRoots (Ok tt);
   Ev (MainLog Info (start_message cfg (deps_of cfg))) tt].

(** A call that neither serves nor logs. *)
Definition quiet (e : event (MainE Key)) : Prop :=
  match ev_op _ e with Serve _ _ | MainLog _ _ => False | _ => True end.

(** A complete run, one call at a time. *)
Ltac run_calls :=
  repeat lazymatch goal with
  | H : steps (Vis _ _) ?tr (Ret _) |- _ =>
      destruct tr as [|? tr]; cbn [steps] in H; [discriminate H|];
      destruct H as (? & -> & H); cbn [bind trigger] in H
  | H : steps (Ret _) ?tr (Ret _) |- _ =>
      destruct tr as [|? tr]; cbn [steps] in H; [injection H as ->|destruct H]
  | H : steps (match ?x with Ok _ => _ | Err _ => _ end) _ _ |- _ => destruct x; cbn [bind trigger] in H
  end.

(** A run of [build_hub] with a key that was read. *)
Lemma build_hub_runs creds key tr r :
  parse_service_account_key creds = Ok key -> steps (build_hub creds) tr (Ret r) ->
  Forall quiet tr /\
  ((exists m, r = Err (StorageError m)) \/
   r = Ok tt /\ tr = [Ev NativeRoots (Ok tt); Ev (BuildAuth key) (Ok tt); Ev NativeRoots (Ok tt)]).
Proof.
  unfold build_hub, build_connector. intros ->. cbn [bind trigger]. intros H.
  destruct tr as [|e tr]; cbn [steps] in H; [discriminate H|].
  destruct H as ([[]|m] & -> & H); cbn [bind trigger result_map_err] in H; run_calls.
  all: repeat match goal with x : unit |- _ => destruct x | x : result unit string |- _ => destruct x as [[]|] end.
  all: split; [by repeat constructor|]; cbn [result_map_err]; eauto.
Qed.

(** C30. [main] fails before it reaches the outside when its configuration or
    its Drive key is unusable, with a configuration error.  Otherwise it
    either fails with a storage error having served and logged nothing, or it
    loads the TLS roots, authenticates, loads the roots for the second client,
    logs the address and the database, and serves exactly once, on the
    configured address, the service over the tools and the folder of the
    settings; an error of the transport is its result. *)
Theorem main_outcome env tr r :
  steps (main env) tr (Ret r) ->
  match from_source env with
  | Err e => tr = [Ev InitLogger tt] /\ r = Err (AppError e)
  | Ok cfg =>
      match parse_service_account_key (expose (drive_creds cfg)) with
      | Err m => tr = [Ev InitLogger tt] /\ r = Err (AppError (Config ("Could not parse drive creds: " +:+ m)))
      | Ok key =>
          (Forall quiet tr /\ exists m, r = Err (AppError (StorageError m))) \/
          exists served,
            tr = ready cfg key ++
                 [Ev (Serve (listen_addr cfg) (mkBackend (pg_of cfg) (drive_of cfg) (deps_of cfg))) served] /\
            r = result_map_err TransportError served
      end
  end.
Proof.
  unfold main. intros ([] & t0 & tr' & -> & H0 & H)%steps_bind_Ret. cbn [trigger] in H0.
  destruct (from_source env) as [cfg|e]; run_calls; destruct x; [|done].
  apply steps_bind_Ret in H as (c & t1 & t2 & -> & Hc & H).
  unfold connect in Hc. apply steps_bind_Ret in Hc as (h & t3 & t4 & -> & Hh & Hc).
  destruct (parse_service_account_key _) as [key|m] eqn:Hkey.
  - destruct (build_hub_runs _ _ _ _ Hkey Hh) as [Hq [[m ->]|[-> ->]]]; run_calls.
    + left. split; [|eauto]. rewrite !app_nil_r. by constructor.
    + right. cbn [bind trigger] in H. run_calls.
      repeat match goal with u : unit |- _ => destruct u end. eexists. split; reflexivity.
  - unfold build_hub in Hh. rewrite Hkey in Hh. by run_calls.
Qed.

(** [main] logs where it listens and which database it serves, nothing else. *)
Lemma main_logs env :
  calls (fun _ (e : MainE Key _) =>
    match e with
    | MainLog lv m => exists cfg, from_source env = Ok cfg /\ lv = Info /\ m = start_message cfg (deps_of cfg)
    | _ => True
    end) (main env).
Proof.
  unfold main. cbn [bind trigger]. split; [done|]. intros _. destruct (from_source env) as [cfg|e]; [|done].
  apply calls_bind; [|intros [s|e]; cbn; eauto 10].
  unfold connect. apply calls_bind; [|by intros [|]]. unfold build_hub, build_connector.
  destruct (parse_service_account_key _); cbn; [|done].
  split; [done|]. intros [|]; cbn; [|done]. split; [done|]. intros [|]; cbn; done.
Qed.

(** The shutdown future ends only after a signal; with both handlers
    installed, any of the three signals ends it. *)
Lemma shutdown_waits tr :
  steps shutdown_signal tr (Ret tt) ->
  exists term quit, [Ev (Install SigTerminate) term; Ev (Install SigQuit) quit] `prefix_of` tr /\
    Ev (AwaitSignal (if term && quit then [SigTerminate; SigQuit] else [])) tt ∈ tr.
Proof.
  unfold shutdown_signal. cbn [bind trigger]. intros H.
  destruct tr as [|e tr]; cbn [steps] in H; [done|]. destruct H as (term & -> & H).
  destruct tr as [|e tr]; cbn [steps] in H; [done|]. destruct H as (quit & -> & H).
  exists term, quit. split; [by exists tr|]. destruct (term && quit); cbn [bind trigger] in H; run_calls.
  all: repeat match goal with x : unit |- _ => destruct x end; set_solver.
Qed.
End Startup.

(** ** On concrete inputs *)

(** An outside where everything is there. *)
Definition all_there (T : Type) (e : MainE string T) (_ : unit) : T * unit :=
  match e in MainE _ T return T * unit with
  | InitLogger => (tt, tt)
  | NativeRoots => (Ok tt, tt)
  | BuildAuth _ => (Ok tt, tt)
  | Serve _ _ => (Ok tt, tt)
  | Install _ => (true, tt)
  | AwaitSignal _ => (tt, tt)
  | MainLog _ _ => (tt, tt)
  end.

Lemma main_outcome_witness :
  exists cfg, from_source sample_env = Ok cfg /\
    exists served, trace all_there (main Ok sample_env) tt =
      ready cfg (expose (drive_creds cfg)) ++
      [Ev (Serve (listen_addr cfg) (mkBackend (pg_of cfg) (drive_of cfg) (deps_of cfg))) served].
Proof.
  pose proof (main_outcome Ok sample_env _ _ (trace_steps all_there (main Ok sample_env) tt)) as H.
  assert (Hr : (run all_there (main Ok sample_env) tt).1 = Ok tt) by (vm_compute; reflexivity).
  destruct (from_source sample_env) as [cfg|e] eqn:Hs; [|by vm_compute in Hs].
  exists cfg. split; [done|]. rewrite Hr in H. cbn [Prelude.result_map_err] in H.
  destruct H as [[_ [m [=]]]|(served & H & _)]. by exists served.
Defined.

Example socket_addr_display_examples :
  SocketAddr_display <$>
    [V4 [0; 0; 0; 0] 50051; V6 [0; 0; 0; 0; 0; 0; 0; 0] 0 80; V6 [8193; 3512; 0; 0; 1; 0; 0; 0] 3 80;
     V6 [0; 0; 0; 0; 0; 65535; 49152; 640] 0 80; V6 [1; 0; 2; 3; 4; 5; 6; 7] 0 80] =
  ["0.0.0.0:50051"; "[::]:80"; "[2001:db8:0:0:1::%3]:80"; "[::ffff:192.0.2.128]:80"; "[1:0:2:3:4:5:6:7]:80"].
Proof. by vm_compute. Qed.
