(* ===== verification/Assertions.v ===== *)
(** * What the unit tests of the repository share

    Assertions as booleans, and the dates the tests build with
    [Utc.with_ymd_and_hms]. *)

From Stdlib Require Import ZArith Lia Ascii.
From stdpp Require Import base numbers gmap sorting strings list.
From S2P Require Import Prelude RustStd Chrono Core.
Open Scope Z_scope.
Open Scope rust_scope.

(** [unwrap] and [unwrap_err], with the assertions on the value. *)
Definition unwrap {A E} (r : result A E) (k : A -> bool) : bool :=
  match r with Ok a => k a | Err _ => false end.
Definition unwrap_err {A E} (r : result A E) (k : E -> bool) : bool :=
  match r with Ok _ => false | Err e => k e end.
Definition is_ok {A E} (r : result A E) : bool := unwrap r (fun _ => true).
Definition is_err {A E} (r : result A E) : bool := unwrap_err r (fun _ => true).

(** [matches!] on an error. *)
Definition is_not_found (e : Error) : bool := match e with NotFound _ => true | _ => false end.
Definition is_failed_precondition (e : Error) : bool := match e with FailedPrecondition _ => true | _ => false end.
Definition is_busy (e : Error) : bool := match e with Busy _ => true | _ => false end.
Definition is_unavailable (e : Error) : bool := match e with Unavailable _ => true | _ => false end.
Definition is_process (e : Error) : bool := match e with Process _ _ _ => true | _ => false end.
Definition is_storage (e : Error) : bool := match e with StorageError _ => true | _ => false end.
Definition is_invalid_argument (e : Error) : bool := match e with InvalidArgument _ => true | _ => false end.

(** [str::contains] and [str::starts_with]. *)
Definition contains (s sub : string) : bool :=
  match String.index 0 sub s with Some _ => true | None => false end.
Definition starts_with (s p : string) : bool := String.prefix p s.

Definition with_ymd_and_hms (y m d h mi s : Z) : DateTime :=
  let days := 365 * y + year_delta y + ordinal_of (is_leap y) m d - 1 - EPOCH_DAY in
  mkDateTime (days * 86400 + h * 3600 + mi * 60 + s) 0.

Example with_ymd_and_hms_ok :
  with_ymd_and_hms 2026 11 6 12 0 0 = mkDateTime 1793966400 0 /\
  date_of_days (timestamp (with_ymd_and_hms 2024 2 29 0 0 0) / 86400) = mkDate 2024 2 29.
Proof. by vm_compute. Qed.

Definition all_pass (tests : list bool) : bool := forallb (fun b => b) tests.
