(* ===== verification/CoreTests.v ===== *)
(** * The unit tests of [backup-core]

    The tests of [backup.rs], [format.rs], [target.rs] and [compression.rs],
    as computations over the model, and that they pass. *)

From Stdlib Require Import ZArith Lia Ascii.
From stdpp Require Import base numbers gmap sorting strings list.
From S2P Require Import Prelude RustStd Chrono Core Assertions Ports Compression.
Open Scope Z_scope.
Open Scope rust_scope.

(** ** [backup.rs] *)

Definition backup (i : string) (day : Z) (f : BackupFormat) (k : BackupKind) : BackupInfo :=
  {| id := i; name := i +:+ ".pgdump"; created_at := with_ymd_and_hms 2026 1 day 0 0 0;
     size_bytes := None; md5 := None; format := f; kind := k |}.

Definition ids (l : list BackupInfo) : list string := id <$> l.

Definition test_kind_parse_defaults_to_regular : bool :=
  unwrap (BackupKind_parse None) (fun k => bool_decide (k = Regular)) &&
  forallb (fun kind => unwrap (BackupKind_parse (Some (BackupKind_as_str kind))) (fun k => bool_decide (k = kind)))
    [Regular; PreRestore].

Definition test_kind_parse_rejects_unknown_value : bool :=
  unwrap_err (BackupKind_parse (Some "manual")) is_failed_precondition.

Definition test_upload_request_derives_name_and_format : bool :=
  let now := with_ymd_and_hms 2026 1 2 3 4 5 in
  let req := UploadRequest_pg_dump "/tmp/x" "tracker" PreRestore now in
  bool_decide (req_name req = "pre_restore_backup_tracker_2026-01-02_03:04:05.pgdump") &&
  bool_decide (req_format req = PgCustom) &&
  bool_decide (req_kind req = PreRestore) &&
  bool_decide (req_db_name req = "tracker").

Definition test_retention_keeps_newest_regular_backups : bool :=
  let backups := [backup "d1" 1 PgCustom Regular; backup "d3" 3 PgCustom Regular;
                  backup "d2" 2 PgCustom Regular; backup "d4" 4 PgCustom Regular] in
  bool_decide (ids (retention_candidates backups 2) = ["d2"; "d1"]).

Definition test_retention_skips_legacy_and_pre_restore : bool :=
  let backups := [backup "legacy" 1 LegacyJsonZstd Regular; backup "safety" 2 PgCustom PreRestore;
                  backup "new" 3 PgCustom Regular] in
  bool_decide (retention_candidates backups 0 = [backup "new" 3 PgCustom Regular]).

Definition test_retention_with_fewer_backups_than_keep : bool :=
  bool_decide (retention_candidates [backup "d1" 1 PgCustom Regular] 5 = []).

(** ** [format.rs] *)

Definition test_backup_file_name_uses_clock_time_and_pgdump_extension : bool :=
  let now := with_ymd_and_hms 2026 11 6 12 30 5 in
  bool_decide (backup_file_name "tracker" Regular now = "backup_tracker_2026-11-06_12:30:05.pgdump").

Definition test_pre_restore_file_name_is_prefixed : bool :=
  let now := with_ymd_and_hms 2026 11 6 12 30 5 in
  bool_decide (backup_file_name "tracker" PreRestore now = "pre_restore_backup_tracker_2026-11-06_12:30:05.pgdump").

Definition test_format_roundtrips_through_str : bool :=
  forallb (fun f => bool_decide (BackupFormat_parse (BackupFormat_as_str f) = Some f)) [PgCustom; LegacyJsonZstd].

Definition test_detect_format_prefers_property_over_extension : bool :=
  unwrap (detect_format "backup_x.dump" (Some "pg_custom")) (fun f => bool_decide (f = PgCustom)).

Definition test_detect_format_by_extension : bool :=
  unwrap (detect_format "backup_tracker_2024-01-01_00:00:00.dump" None) (fun f => bool_decide (f = LegacyJsonZstd)) &&
  unwrap (detect_format "backup_tracker_2026-01-01_00:00:00.pgdump" None) (fun f => bool_decide (f = PgCustom)).

Definition test_detect_format_rejects_unknown : bool :=
  is_err (detect_format "notes.txt" None) && is_err (detect_format "backup.pgdump" (Some "tar")).

(** ** [target.rs] *)

(** The [Debug] text of a plain string is the string in quotes. *)
#[local] Instance quoted : RustFmt := {| str_debug := fun s => of_chars [chr 34] +:+ s +:+ of_chars [chr 34] |}.

Definition test_debug_does_not_leak_password : bool :=
  let target := mkDbTarget "db" 5432 "u" (Secret_new "hunter2") "tracker" in
  let printed := DbTarget_debug target in
  negb (contains printed "hunter2") && contains printed "Secret(***)".

(** ** [compression.rs] *)

(** A folder of files, with [decode] for [copy_decode]. *)
Definition folder (decode : bytes -> option bytes) : handler FsE (gmap path bytes) := fun T op =>
  match op in FsE T return gmap path bytes -> T * gmap path bytes with
  | FsOpen p => fun fs => (match fs !! p with Some _ => Ok tt | None => Err "not found" end, fs)
  | FsCreate p => fun fs => (Ok tt, <[p := []]> fs)
  | FsCopyDecode src dst => fun fs =>
      match decode (default [] (fs !! src)) with
      | Some out => (Ok tt, <[dst := out]> fs)
      | None => (Err "Unknown frame descriptor", fs)
      end
  | FsFlush _ => fun fs => (Ok tt, fs)
  end.

(** zstd is the pair [encode], [decode]. *)
Definition test_decompress_file_restores_encoded_input (encode : bytes -> bytes) (decode : bytes -> option bytes) : bool :=
  let input := concat (replicate 100 (chr 123 :: chr 34 :: chars "materials" ++ chr 34 :: chars ": []}")) in
  let '(r, fs) := run (folder decode) (decompress_file "in.zst" "out.json") {["in.zst" := encode input]} in
  is_ok r && bool_decide (fs !! "out.json" = Some input).

Definition test_decompress_file_rejects_garbage (decode : bytes -> option bytes) : bool :=
  is_err (run (folder decode) (decompress_file "in.zst" "out.json") {["in.zst" := chars "not zstd"]}).1.

(** ** They pass *)

(** A codec for the tests: a magic character before the content. *)
Definition toy_encode (b : bytes) : bytes := chr 40 :: b.
Definition toy_decode (b : bytes) : option bytes :=
  match b with c :: b => if bool_decide (c = chr 40) then Some b else None | [] => None end.

Example core_tests_pass :
  all_pass
    [test_kind_parse_defaults_to_regular; test_kind_parse_rejects_unknown_value;
     test_upload_request_derives_name_and_format; test_retention_keeps_newest_regular_backups;
     test_retention_skips_legacy_and_pre_restore; test_retention_with_fewer_backups_than_keep;
     test_backup_file_name_uses_clock_time_and_pgdump_extension; test_pre_restore_file_name_is_prefixed;
     test_format_roundtrips_through_str; test_detect_format_prefers_property_over_extension;
     test_detect_format_by_extension; test_detect_format_rejects_unknown; test_debug_does_not_leak_password;
     test_decompress_file_restores_encoded_input toy_encode toy_decode;
     test_decompress_file_rejects_garbage toy_decode] = true.
Proof. by vm_compute. Qed.
