(* ===== verification/PgTests.v ===== *)
(** * The unit tests of [backup-pg]

    The tests of [level.rs], [args.rs] and [tools.rs], the latter over the
    double [FakeRunner], as computations over the model, and that they
    pass. *)

From Stdlib Require Import ZArith Lia Ascii.
From stdpp Require Import base numbers gmap sorting strings list.
From S2P Require Import Prelude RustStd Utf8 Chrono Core Assertions Ports Pg.
Open Scope Z_scope.
Open Scope rust_scope.

#[local] Instance plain_debug : RustFmt := {| str_debug := fun s => s |}.

(** ** [level.rs] *)

Definition test_accepts_bounds : bool := is_ok (ZstdLevel_new 1) && is_ok (ZstdLevel_new 22).

Definition test_rejects_out_of_range : bool := forallb (fun level => is_err (ZstdLevel_new level)) [-1; 0; 23; 300].

(** ** [args.rs] *)

Definition args_target : DbTarget := mkDbTarget "tracker-db" 5433 "tracker" (Secret_new "hunter2") "tracker".

Definition test_dump_command : bool :=
  unwrap (ZstdLevel_new 5) (fun lv =>
    let cmd := dump_command args_target lv "/data/x.pgdump" in
    bool_decide (program cmd = "pg_dump") &&
    bool_decide (args cmd =
      ["--format=custom"; "--compress=zstd:5"; "--no-owner"; "--no-privileges"; "--host"; "tracker-db";
       "--port"; "5433"; "--username"; "tracker"; "--dbname"; "tracker"; "--no-password"; "--file";
       "/data/x.pgdump"])).

Definition test_restore_command_is_atomic_and_clean : bool :=
  let cmd := restore_command args_target "/data/x.pgdump" in
  bool_decide (program cmd = "pg_restore") &&
  forallb (fun flag => bool_decide (flag ∈ args cmd))
    ["--clean"; "--if-exists"; "--single-transaction"; "--exit-on-error"] &&
  bool_decide (last (args cmd) = Some "/data/x.pgdump").

Definition test_query_command_stops_on_error : bool :=
  let cmd := query_command args_target "SELECT 1" in
  bool_decide (program cmd = "psql") &&
  bool_decide ("--set=ON_ERROR_STOP=1" ∈ args cmd) &&
  bool_decide (drop (length (args cmd) - 2) (args cmd) = ["--command"; "SELECT 1"]).

Definition test_password_goes_to_env_not_args : bool :=
  forallb (fun cmd =>
    negb (existsb (fun a => contains a "hunter2") (args cmd)) &&
    bool_decide (("PGPASSWORD", "hunter2") ∈ env cmd))
    [dump_command args_target ZstdLevel_default "/x"; restore_command args_target "/x";
     query_command args_target "SELECT 1"].

(** ** [tools.rs] *)

Definition TIMEOUT : Duration := from_secs 60.

(** What the runner's process prints and how it ends, the commands so far,
    and whether it never ends.  The texts are ASCII, so that the conversion of
    [TokioCommandRunner] leaves them as they are. *)
Record FakeRunner := mkFakeRunner { runner_output : Output; runner_calls : list PgCommand; hangs : bool }.

Definition FakeRunner_new (success : bool) (stdout stderr : string) : FakeRunner :=
  mkFakeRunner (mkOutput success (if success then "exit status: 0" else "exit status: 1")
    (chars stdout) (chars stderr)) [] false.

Definition hanging : FakeRunner := mkFakeRunner (runner_output (FakeRunner_new true "" "")) [] true.

Definition programs (r : FakeRunner) : list string := program <$> runner_calls r.

Definition run_fake : handler PgE FakeRunner := fun T op =>
  match op in PgE T return FakeRunner -> T * FakeRunner with
  | RunWithin _ cmd => fun r =>
      let r := mkFakeRunner (runner_output r) (runner_calls r ++ [cmd]) (hangs r) in
      (if hangs r then None else Some (Ok (runner_output r)), r)
  | PgInstant => fun r => (0, r)
  | PgLog _ _ => fun r => (tt, r)
  end.

Definition tools : PgTools :=
  mkPgTools (mkDbTarget "db" 5432 "u" (Secret_new "p") "tracker") ZstdLevel_default TIMEOUT.

Definition test_dump_runs_pg_dump : bool :=
  let '(r, runner) := run run_fake (PgTools_dump tools "/tmp/x") (FakeRunner_new true "" "") in
  is_ok r && bool_decide (programs runner = ["pg_dump"]).

Definition test_restore_runs_pg_restore : bool :=
  let '(r, runner) := run run_fake (PgTools_restore tools "/tmp/x") (FakeRunner_new true "" "") in
  is_ok r && bool_decide (programs runner = ["pg_restore"]).

Definition test_failed_process_returns_stderr : bool :=
  let runner := FakeRunner_new false "" ("pg_dump: error: connection refused" +:+ of_chars [chr 10]) in
  unwrap_err (run run_fake (PgTools_dump tools "/tmp/x") runner).1 (fun e =>
    match e with
    | Process program _ stderr =>
        bool_decide (program = "pg_dump") && bool_decide (stderr = "pg_dump: error: connection refused")
    | _ => false
    end).

Definition test_ping_ok : bool :=
  is_ok (run run_fake (PgTools_ping tools) (FakeRunner_new true ("1" +:+ of_chars [chr 10]) "")).1.

Definition test_ping_rejects_unexpected_output : bool :=
  is_err (run run_fake (PgTools_ping tools) (FakeRunner_new true ("2" +:+ of_chars [chr 10]) "")).1.

Definition test_hung_dump_times_out : bool :=
  unwrap_err (run run_fake (PgTools_dump tools "/tmp/x") hanging).1 (fun e =>
    match e with
    | Timeout operation limit => bool_decide (operation = "pg_dump") && (limit =? TIMEOUT)
    | _ => false
    end).

Definition test_hung_ping_uses_short_limit : bool :=
  unwrap_err (run run_fake (PgTools_ping tools) hanging).1 (fun e =>
    match e with Timeout _ limit => limit =? PING_TIMEOUT | _ => false end).

(** The letter of the last case is U+044B, two bytes in UTF-8. *)
Definition test_tail_keeps_end_on_char_boundary : bool :=
  let y := of_chars [chr 209; chr 139] in
  bool_decide (tail ("abcdef" +:+ of_chars [chr 10]) 3 = "def") &&
  bool_decide (tail "ab" 10 = "ab") &&
  bool_decide (tail (y +:+ y +:+ y) 3 = y).

Example pg_tests_pass :
  all_pass
    [test_accepts_bounds; test_rejects_out_of_range; test_dump_command; test_restore_command_is_atomic_and_clean;
     test_query_command_stops_on_error; test_password_goes_to_env_not_args; test_dump_runs_pg_dump;
     test_restore_runs_pg_restore; test_failed_process_returns_stderr; test_ping_ok;
     test_ping_rejects_unexpected_output; test_hung_dump_times_out; test_hung_ping_uses_short_limit;
     test_tail_keeps_end_on_char_boundary] = true.
Proof. by vm_compute. Qed.
