(* ===== verification/DriveTests.v ===== *)
(** * The unit tests of [backup-gdrive]

    The tests of [errors.rs], [query.rs], [retry.rs] and [mapping.rs] as
    computations over the model, and that they pass. *)

From Stdlib Require Import ZArith Lia Ascii.
From stdpp Require Import base numbers gmap sorting strings list.
From S2P Require Import Prelude RustStd Json Md5 Chrono Core Assertions Ports Drive DriveStorage.
Open Scope Z_scope.
Open Scope rust_scope.

#[local] Instance plain_debug : RustFmt := {| str_debug := fun s => s |}.

(** ** [errors.rs] *)

Definition bad_request (code : Z) (reason : string) : DriveError :=
  DriveBadRequest (object_of
    [("error", object_of [("code", Num (PosInt code)); ("message", Str "boom");
                          ("errors", Array [object_of [("reason", Str reason)]])])]).

Definition is_transient (e : CallError) : bool := match e with Transient _ => true | _ => false end.
Definition is_permanent (f : Error -> bool) (e : CallError) : bool := match e with Permanent err => f err | _ => false end.
Definition is_bad_request (e : CallError) : bool := match e with BadRequest _ => true | _ => false end.

Definition test_not_found_is_permanent : bool :=
  match classify "Get" (bad_request 404 "notFound") with
  | Permanent (NotFound msg) => contains msg "404"
  | _ => false
  end.

Definition test_server_errors_and_rate_limits_are_transient : bool :=
  forallb (fun '(code, reason) => is_transient (classify "List" (bad_request code reason)))
    [(500, "backendError"); (503, "x"); (429, "x"); (403, "userRateLimitExceeded")].

Definition test_bad_request_is_a_storage_error_by_default : bool :=
  let err := classify "List" (bad_request 400 "invalid") in
  is_bad_request err && is_storage (into_error err).

Definition test_unauthorized_is_permanent : bool :=
  is_permanent is_storage (classify "List" (bad_request 401 "authError")).

Definition test_transport_and_token_errors_are_transient : bool :=
  forallb (fun err => is_transient (classify "List" err)) [DriveIo "reset"; MissingToken "oauth endpoint down"].

Definition test_exhausted_transient_error_is_unavailable : bool :=
  match into_error (Transient "down") with Unavailable msg => bool_decide (msg = "down") | _ => false end.

Definition test_forbidden_is_permanent : bool :=
  is_permanent is_storage (classify "List" (bad_request 403 "insufficientFilePermissions")).

Definition test_unparsable_body_is_permanent : bool :=
  is_permanent (fun _ => true) (classify "List" (DriveBadRequest (Object [("weird", Bool true)]))).

Definition test_timed_turns_hang_into_transient_error : bool :=
  match timed (A := unit) "Hanging op" (from_secs 10) None with
  | Err (Transient msg) => starts_with msg "Hanging op timed out"
  | _ => false
  end.

Definition test_timed_passes_result_through : bool :=
  unwrap (timed "Fast op" (from_secs 1) (Some (Ok 42))) (fun n => n =? 42).

(** ** [query.rs] *)

Definition test_escape_quotes_and_backslashes : bool := bool_decide (escape "a'b\c" = "a\'b\\c").

Definition test_folder_query_escapes_id : bool :=
  bool_decide (folder_query "x' or name contains 'y" =
    "'x\' or name contains \'y' in parents and trashed = false and mimeType != 'application/vnd.google-apps.folder'").

Definition test_latest_query_excludes_pre_restore_copies : bool :=
  bool_decide (latest_query "folder" =
    "'folder' in parents and trashed = false and mimeType != 'application/vnd.google-apps.folder' and not appProperties has { key='kind' and value='pre_restore' }").

(** ** [retry.rs] *)

Definition POLICY : RetryPolicy := mkRetryPolicy 3 (from_secs 1) (from_secs 2).

(** [DriveInstant] stands for [calls.fetch_add]; the state counts. *)
Definition counting (T : Type) (op : DriveE T) (calls : Z) : option (T * Z) :=
  match op in DriveE T return option (T * Z) with
  | DriveInstant => Some (calls, calls + 1)
  | Sleep _ => Some (tt, calls)
  | DriveLog _ _ => Some (tt, calls)
  | _ => None
  end.

Definition counted {A} (body : Z -> result A CallError) : prog DriveE (result A CallError) :=
  let* calls := call DriveInstant in Ret (body calls).

Definition test_retries_transient_until_success : bool :=
  match run_partial counting (retry POLICY "op" (counted (fun calls =>
      if (calls =? 0) || (calls =? 1) then Err (Transient "flaky") else Ok "done"))) 0 with
  | Some (res, calls) => unwrap res (fun v => bool_decide (v = "done")) && (calls =? 3)
  | None => false
  end.

Definition test_gives_up_after_attempts : bool :=
  match run_partial counting (retry (A := unit) POLICY "op" (counted (fun _ => Err (Transient "down")))) 0 with
  | Some (res, calls) =>
      unwrap_err res (fun e => match e with Unavailable msg => bool_decide (msg = "down") | _ => false end) && (calls =? 3)
  | None => false
  end.

Definition test_permanent_error_is_not_retried : bool :=
  match run_partial counting (retry (A := unit) POLICY "op" (counted (fun _ => Err (Permanent (NotFound "x"))))) 0 with
  | Some (res, calls) => unwrap_err res is_not_found && (calls =? 1)
  | None => false
  end.

(** ** [mapping.rs] *)

Definition file (n : string) (props : option (gmap string string)) : File :=
  mkFile (Some "id1") (Some n) (Some (with_ymd_and_hms 2026 1 1 0 0 0)) (Some 42) (Some "abc") props
    (Some ["folder"]) None None.

Definition test_legacy_file_without_properties : bool :=
  unwrap (to_backup_info (file "backup_tracker_2024-01-01_00:00:00.dump" None)) (fun info =>
    bool_decide (format info = LegacyJsonZstd) && bool_decide (kind info = Regular) &&
    bool_decide (size_bytes info = Some 42) && bool_decide (md5 info = Some "abc")).

Definition test_properties_define_format_and_kind : bool :=
  let props : gmap string string := {["format" := "pg_custom"; "kind" := "pre_restore"]} in
  unwrap (to_backup_info (file "anything" (Some props))) (fun info =>
    bool_decide (format info = PgCustom) && bool_decide (kind info = PreRestore)).

Definition test_unknown_kind_is_an_error : bool :=
  is_err (to_backup_info (file "x.pgdump" (Some {["kind" := "manual"]}))).

Definition test_missing_id_is_an_error : bool :=
  let f := file "x.pgdump" None in
  is_err (to_backup_info (mkFile None (f_name f) (f_created_time f) (f_size f) (f_md5_checksum f)
    (f_app_properties f) (f_parents f) (f_trashed f) (f_mime_type f))).

Definition test_is_in_folder : bool :=
  let f := file "x.pgdump" None in
  let trashed := mkFile (f_id f) (f_name f) (f_created_time f) (f_size f) (f_md5_checksum f)
    (f_app_properties f) (f_parents f) (Some true) (f_mime_type f) in
  is_in_folder f "folder" && negb (is_in_folder f "other") && negb (is_in_folder trashed "folder").

(** [now] is [Utc::now()]. *)
Definition test_upload_metadata_round_trips_through_mapping (now : DateTime) : bool :=
  let req := UploadRequest_pg_dump "/tmp/x" "tracker" PreRestore now in
  let meta := upload_metadata req "folder" in
  bool_decide (f_parents meta = Some ["folder"]) &&
  let meta := mkFile (Some "id") (f_name meta) (Some now) (f_size meta) (f_md5_checksum meta)
    (f_app_properties meta) (f_parents meta) (f_trashed meta) (f_mime_type meta) in
  unwrap (to_backup_info meta) (fun info =>
    bool_decide (format info = PgCustom) && bool_decide (kind info = PreRestore)).

Example drive_tests_pass :
  all_pass
    [test_not_found_is_permanent; test_server_errors_and_rate_limits_are_transient;
     test_bad_request_is_a_storage_error_by_default; test_unauthorized_is_permanent;
     test_transport_and_token_errors_are_transient; test_exhausted_transient_error_is_unavailable;
     test_forbidden_is_permanent; test_unparsable_body_is_permanent; test_timed_turns_hang_into_transient_error;
     test_timed_passes_result_through; test_escape_quotes_and_backslashes; test_folder_query_escapes_id;
     test_latest_query_excludes_pre_restore_copies; test_retries_transient_until_success;
     test_gives_up_after_attempts; test_permanent_error_is_not_retried; test_legacy_file_without_properties;
     test_properties_define_format_and_kind; test_unknown_kind_is_an_error; test_missing_id_is_an_error;
     test_is_in_folder;
     test_upload_metadata_round_trips_through_mapping (with_ymd_and_hms 2026 11 15 8 30 0)] = true.
Proof. by vm_compute. Qed.
