(* ===== verification/StorageTests.v ===== *)
(** * The unit tests of [storage.rs]

    The tests run the storage against the server of [fake.rs], which replays
    prepared replies.  Here as there the whole way is gone: the operation of the
    storage, the calls of the client library, the request on the wire, the
    server reading it, and the reply parsed as JSON.

    Three things stand in for libraries: the text of a request on the wire
    (hyper), the decoding of a parsed file (the derived [Deserialize]), and the
    two times of the tests (chrono). *)

From Stdlib Require Import ZArith Lia Ascii.
From stdpp Require Import base numbers gmap sorting strings list.
From S2P Require Import Prelude RustStd Json Md5 Chrono Core Assertions Ports Url Drive DriveStorage GoogleApis.
From S2P Require Import HttpFake DriveTests.
Open Scope Z_scope.
Open Scope rust_scope.

#[local] Existing Instance plain_debug.

(** ** Decoding *)

(** A field that may be missing or [null]. *)
Definition field {A} (f : Value -> option A) (v : Value) (k : string) : result (option A) string :=
  match index_key v k with
  | Null => Ok None
  | x => match f x with Some a => Ok (Some a) | None => Err ("invalid type for " +:+ k) end
  end.

Definition as_bool (v : Value) : option bool := match v with Bool b => Some b | _ => None end.
Definition as_list {A} (f : Value -> option A) (v : Value) : option (list A) :=
  match v with Array l => mapM f l | _ => None end.
Definition as_props (v : Value) : option (gmap string string) :=
  match v with Object l => list_to_map <$> mapM (fun kv => (pair kv.1) <$> as_str kv.2) l | _ => None end.

Definition time_of (v : Value) : option DateTime :=
  match v with
  | Str "2026-01-01T00:00:00Z" => Some (with_ymd_and_hms 2026 1 1 0 0 0)
  | Str "2026-02-01T00:00:00Z" => Some (with_ymd_and_hms 2026 2 1 0 0 0)
  | _ => None
  end.

Definition file_of_value (v : Value) : result File string :=
  try i := field as_str v "id" in
  try n := field as_str v "name" in
  try t := field time_of v "createdTime" in
  try size := field (fun x => s ← as_str x; result_ok (parse_i64 s)) v "size" in
  try sum := field as_str v "md5Checksum" in
  try props := field as_props v "appProperties" in
  try parents := field (as_list as_str) v "parents" in
  try trashed := field as_bool v "trashed" in
  try mime := field as_str v "mimeType" in
  Ok (mkFile i n t size sum props parents trashed mime).

Definition file_list_of_value (v : Value) : result FileList string :=
  try files := field (as_list (fun x => result_ok (file_of_value x))) v "files" in
  try token := field as_str v "nextPageToken" in
  Ok (mkFileList files token).

Definition decoded {A} (f : Value -> result A string) (s : string) : result A string :=
  match from_str (H := some_floats) s with Ok v => f v | Err _ => Err "syntax" end.

#[local] Instance test_libs : ClientLibs :=
  {| libs_floats := some_floats; parse_file := decoded file_of_value; parse_file_list := decoded file_list_of_value;
     datetime_text := fun _ => "2026-01-01T00:00:00Z"; uri_text_ok := fun _ => true |}.

(** ** The server and its client *)

(** [client.rs]: the hub of the tests and its token. *)
Definition test_hub (base : string) : Hub := mkHub base "/drive/v3/" "/" USER_AGENT_TEXT.
Definition static_token : string := "test-token".

(** The server; it is down once it had no reply to a request.  [sent] holds the
    headers of the requests. *)
Record Fake := mkFake {
  up : bool;
  server : FakeDrive;
  sent : list (list (string * string));
  local_files : gmap path bytes;
}.

Definition base : string := "http://127.0.0.1:41000".

Definition started (replies : list Reply) : Fake := mkFake true (mkFakeDrive [] replies []) [] ∅.

Definition method_text (m : Method) : string :=
  match m with GET => "GET" | POST => "POST" | DELETE => "DELETE" end.

(** A request on the wire, in pieces of what the server reads at once. *)
Definition request_bytes (r : HttpRequest) : list Read :=
  let request_target := of_chars (drop (String.length base) (req_url r)) in
  let head := method_text (req_method r) +:+ " " +:+ request_target +:+ " HTTP/1.1" +:+ crlf +:+
              String.concat "" (map (fun h => h.1 +:+ ": " +:+ h.2 +:+ crlf) (req_headers r)) +:+ crlf in
  let data := chars head ++ req_content r in
  Chunk <$> Md5.Crate.blocks 4096 (S (length data / 4096)) data.

(** One request over the connection. *)
Definition exchange (r : HttpRequest) (f : Fake) : result HttpResponse string * Fake :=
  if negb (up f) then (Err "connection refused", f)
  else
    let '(go_on, s) := serve_connection 1 (request_bytes r) [true] (server f) in
    let f' := mkFake go_on s (sent f ++ [req_headers r]) (local_files f) in
    match replies (server f) with
    | reply :: _ => (Ok (mkHttpResponse (status reply) (headers reply) [Data (body reply)]), f')
    | [] => (Err "connection closed", f')
    end.

Definition with_files (f : Fake) (files : gmap path bytes) : Fake := mkFake (up f) (server f) (sent f) files.

Definition local (T : Type) (op : DriveE T) (f : Fake) : option (T * Fake) :=
  match op in DriveE T return option (T * Fake) with
  | OpenLocal p => Some (match local_files f !! p with Some _ => Ok tt | None => Err "not found" end, f)
  | CreateLocal p => Some (Ok tt, with_files f (<[p := []]> (local_files f)))
  | WriteLocal p data =>
      Some (Ok tt, with_files f (<[p := default ([] : bytes) (local_files f !! p) ++ data]> (local_files f)))
  | FlushLocal _ => Some (Ok tt, f)
  | Sleep _ => Some (tt, f)
  | DriveInstant => Some (0, f)
  | DriveLog _ _ => Some (tt, f)
  | _ => None
  end.

Definition client (T : Type) (op : HttpE T) (f : Fake) : option (T * Fake) :=
  match op in HttpE T return option (T * Fake) with
  | GetToken _ => Some (Some (Ok (Some static_token)), f)
  | Send r => let '(res, f) := exchange r f in Some (Some res, f)
  | SourceSize p => Some (match local_files f !! p with Some b => Ok (Z.of_nat (length b)) | None => Err "not found" end, f)
  | SourceRead p start len =>
      Some (match local_files f !! p with
            | Some b => Ok (take (Z.to_nat len) (drop (Z.to_nat start) b))
            | None => Err "not found"
            end, f)
  | LibraryPanic _ => None
  | Local e => local _ e f
  end.

(** Run an operation and go on with its result; a panic fails the test.  The
    uploads of the tests have one chunk. *)
Definition against {A} (p : prog DriveE A) (f : Fake) (k : A -> Fake -> bool) : bool :=
  match run_partial client (over_http (test_hub base) 1 p) f with Some (a, f) => k a f | None => false end.

Definition FOLDER : string := "folder1".

Definition test_opts (attempts : Z) : DriveOptions :=
  mkDriveOptions (from_secs 5) (from_secs 5) (from_secs 5) (mkRetryPolicy attempts (from_millis 1) (from_millis 2)).

(** The hub is that of [against]. *)
Definition from_hub (folder_id : string) (opts : DriveOptions) : GoogleDriveStorage :=
  mkGoogleDriveStorage folder_id opts.

Definition test_storage (attempts : Z) : GoogleDriveStorage := from_hub FOLDER (test_opts attempts).

Definition md5_hex (data : bytes) : string := hex_encode (md5_digest data).

(** [json!]. *)
Definition file_json (i parent sum : string) : Value :=
  object_of
    [("id", Str i); ("name", Str ("backup_tracker_" +:+ i +:+ ".pgdump"));
     ("createdTime", Str "2026-01-01T00:00:00Z"); ("size", Str "5"); ("md5Checksum", Str sum);
     ("parents", Array [Str parent]);
     ("appProperties", object_of [("format", Str "pg_custom"); ("kind", Str "regular")])].

Definition foreign_file_json (i : string) : Value :=
  object_of [("id", Str i); ("name", Str "notes.txt"); ("createdTime", Str "2026-02-01T00:00:00Z");
             ("parents", Array [Str FOLDER])].

Definition files_json (files : list Value) : list (string * Value) := [("files", Array files)].

(** [value[key] = x]. *)
Definition set_key (v : Value) (k : string) (x : Value) : Value :=
  match v with Object l => Object (map_insert k x l) | v => v end.

Definition error_json (code : Z) (message reason : string) : Value :=
  object_of [("error", object_of [("code", Num (PosInt code)); ("message", Str message);
                                  ("errors", Array [object_of [("reason", Str reason)]])])].

Definition drive_error (code : Z) : Reply := Reply_json code (error_json code "boom" "x").

(** [fake.requests()]. *)
Definition fake_requests (f : Fake) : list string := requests (server f).
Definition request_count (f : Fake) (n : nat) : bool := (length (fake_requests f) =? n)%nat.
Definition request_is (f : Fake) (i : nat) (P : string -> bool) : bool :=
  match fake_requests f !! i with Some r => P r | None => false end.

(** ** The tests *)

Definition test_list_retries_transient_error : bool :=
  let fake := started [drive_error 503;
                       Reply_json 200 (object_of (files_json [file_json "f1" FOLDER "m"] ++ [("nextPageToken", Str "t2")]))] in
  against (drive_list (test_storage 3) 10 (Some "t1")) fake (fun r fake => unwrap r (fun page =>
    (length (items page) =? 1)%nat &&
    bool_decide (format <$> head (items page) = Some PgCustom) &&
    bool_decide (next_page_token page = Some "t2") &&
    request_count fake 2 &&
    request_is fake 1 (fun r => contains r "orderBy=createdTime") &&
    request_is fake 1 (fun r => contains r "pageToken=t1") &&
    request_is fake 1 (fun r => contains r "folder1"))).

Definition test_list_skips_files_that_are_not_backups : bool :=
  let foreign := set_key (set_key (file_json "x" FOLDER "m") "name" (Str "notes.txt")) "appProperties" Null in
  let fake := started [Reply_json 200 (object_of (files_json [foreign; file_json "f1" FOLDER "m"]))] in
  against (drive_list (test_storage 1) 10 None) fake (fun r _ => unwrap r (fun page =>
    bool_decide ((id <$> items page) = ["f1"]))).

Definition test_latest_skips_newer_foreign_files : bool :=
  let fake := started [Reply_json 200 (object_of (files_json [foreign_file_json "n1"] ++ [("nextPageToken", Str "t2")]));
                       Reply_json 200 (object_of (files_json [foreign_file_json "n2"; file_json "f1" FOLDER "m"]))] in
  against (drive_latest (test_storage 1)) fake (fun r fake => unwrap r (fun latest =>
    bool_decide (id <$> latest = Some "f1") && request_count fake 2 &&
    request_is fake 1 (fun r => contains r "pageToken=t2"))).

Definition test_latest_with_only_foreign_files : bool :=
  let fake := started [Reply_json 200 (object_of (files_json [foreign_file_json "n1"]))] in
  against (drive_latest (test_storage 1)) fake (fun r _ => unwrap r (fun latest => bool_decide (latest = None))).

Definition test_plain_text_forbidden_is_not_retried : bool :=
  let fake := started [mkReply 403 [("Content-Type", "text/plain")] (chars "forbidden")] in
  against (drive_list (test_storage 3) 10 None) fake (fun r fake =>
    unwrap_err r is_storage && request_count fake 1).

Definition test_rate_limited_forbidden_is_retried : bool :=
  let rate_limited := Reply_json 403 (error_json 403 "slow down" "rateLimitExceeded") in
  let fake := started [rate_limited; Reply_json 200 (object_of (files_json []))] in
  against (drive_list (test_storage 3) 10 None) fake (fun r fake => is_ok r && request_count fake 2).

Definition test_bad_page_token_is_invalid_argument : bool :=
  against (drive_list (test_storage 3) 10 (Some "junk")) (started [drive_error 400]) (fun r fake =>
    unwrap_err r is_invalid_argument && request_count fake 1).

Definition test_bad_request_without_client_token_is_internal : bool :=
  against (drive_delete (test_storage 3) "x") (started [drive_error 400]) (fun r fake =>
    unwrap_err r is_storage && request_count fake 1).

Definition test_exhausted_retries_are_unavailable : bool :=
  against (drive_list (test_storage 2) 10 None) (started [drive_error 503; drive_error 503]) (fun r _ =>
    unwrap_err r is_unavailable).

Definition test_latest_on_empty_folder : bool :=
  against (drive_latest (test_storage 1)) (started [Reply_json 200 (object_of (files_json []))]) (fun r fake =>
    unwrap r (fun latest => bool_decide (latest = None)) &&
    request_is fake 0 (fun r => contains r "pre_restore")).

Definition test_get_rejects_file_outside_folder : bool :=
  against (drive_get (test_storage 1) "f1") (started [Reply_json 200 (file_json "f1" "foreign" "m")]) (fun r _ =>
    unwrap_err r is_not_found).

Definition test_get_maps_404_without_retry : bool :=
  against (drive_get (test_storage 3) "missing") (started [drive_error 404; drive_error 404]) (fun r fake =>
    unwrap_err r is_not_found && request_count fake 1).

(** The test repeats its text 10,000 times. *)
Definition test_download_writes_content_and_checks_md5 (repeats : nat) : bool :=
  let content := concat (replicate repeats (chars "pgdump-bytes")) in
  let fake := started [Reply_json 200 (file_json "f1" FOLDER (md5_hex content)); Reply_bytes content] in
  against (drive_get (test_storage 1) "f1") fake (fun r fake => unwrap r (fun info =>
    against (drive_download (test_storage 1) info "x.pgdump") fake (fun r fake =>
      is_ok r && bool_decide (local_files fake !! "x.pgdump" = Some content) &&
      request_is fake 1 (fun r => contains r "alt=media")))).

Definition test_download_retries_on_checksum_mismatch : bool :=
  let fake := started [Reply_json 200 (file_json "f1" FOLDER (md5_hex (chars "good")));
                       Reply_bytes (chars "corrupted"); Reply_bytes (chars "good")] in
  against (drive_get (test_storage 2) "f1") fake (fun r fake => unwrap r (fun info =>
    against (drive_download (test_storage 2) info "x.pgdump") fake (fun r fake =>
      is_ok r && bool_decide (local_files fake !! "x.pgdump" = Some (chars "good"))))).

Definition test_download_fails_on_persistent_checksum_mismatch : bool :=
  let fake := started [Reply_json 200 (file_json "f1" FOLDER (md5_hex (chars "good")));
                       Reply_bytes (chars "bad"); Reply_bytes (chars "bad")] in
  against (drive_get (test_storage 2) "f1") fake (fun r fake => unwrap r (fun info =>
    against (drive_download (test_storage 2) info "x") fake (fun r _ =>
      unwrap_err r (fun e => contains (Error_display e) "Checksum mismatch")))).

Definition dump_file (f : Fake) : Fake := with_files f {["x.pgdump" := chars "dump!"]}.

(** [now] is [Utc::now()]. *)
Definition test_upload_resumable (now : DateTime) : bool :=
  let fake_session := base +:+ "/upload/session-1" in
  let fake := dump_file (started [mkReply 200 [("Location", fake_session)] [];
                                  Reply_json 200 (file_json "new1" FOLDER (md5_hex (chars "dump!")))]) in
  against (drive_upload (test_storage 1) (UploadRequest_pg_dump "x.pgdump" "tracker" Regular now)) fake (fun r fake =>
    unwrap r (fun info => bool_decide (id info = "new1")) &&
    request_is fake 0 (fun r => starts_with r "POST /resumable/upload/drive/v3/files") &&
    request_is fake 0 (fun r => contains r "uploadType=resumable") &&
    request_is fake 0 (fun r => contains r "md5Checksum") &&
    request_is fake 1 (fun r => String.eqb r "POST /upload/session-1")).

Definition test_failed_upload_is_not_retried (now : DateTime) : bool :=
  let fake := dump_file (started [drive_error 503]) in
  against (drive_upload (test_storage 3) (UploadRequest_pg_dump "x.pgdump" "tracker" Regular now)) fake (fun r fake =>
    unwrap_err r is_unavailable && request_count fake 1).

Definition test_delete_retries_transient_error : bool :=
  against (drive_delete (test_storage 3) "old") (started [drive_error 503; mkReply 204 [] []]) (fun r fake =>
    is_ok r && request_count fake 2).

Definition test_delete_forbidden_fails : bool :=
  against (drive_delete (test_storage 3) "old") (started [drive_error 403]) (fun r fake =>
    unwrap_err r is_storage && request_count fake 1).

Definition test_delete_treats_missing_file_as_deleted : bool :=
  against (drive_delete (test_storage 1) "gone") (started [drive_error 404]) (fun r _ => is_ok r).

Example storage_tests_pass :
  let now := with_ymd_and_hms 2026 11 15 8 30 0 in
  all_pass
    [test_list_retries_transient_error; test_list_skips_files_that_are_not_backups;
     test_latest_skips_newer_foreign_files; test_latest_with_only_foreign_files;
     test_plain_text_forbidden_is_not_retried; test_rate_limited_forbidden_is_retried;
     test_bad_page_token_is_invalid_argument; test_bad_request_without_client_token_is_internal;
     test_exhausted_retries_are_unavailable; test_latest_on_empty_folder; test_get_rejects_file_outside_folder;
     test_get_maps_404_without_retry; test_download_writes_content_and_checks_md5 100;
     test_download_retries_on_checksum_mismatch; test_download_fails_on_persistent_checksum_mismatch;
     test_upload_resumable now; test_failed_upload_is_not_retried now; test_delete_retries_transient_error;
     test_delete_forbidden_fails; test_delete_treats_missing_file_as_deleted] = true.
Proof. by vm_compute. Qed.
