(* ===== verification/ServiceTests.v ===== *)
(** * The unit tests of [service.rs]

    Each test is a computation over the doubles of [Fakes.v] that ends in the
    conjunction of its assertions; an [unwrap] of the wrong variant makes it
    [false].  That they all pass checks the model of the use cases against the
    behaviour the repository pins down. *)

From Stdlib Require Import ZArith Lia Ascii.
From stdpp Require Import base numbers gmap sorting strings list.
From S2P Require Import Prelude RustStd Chrono Core Assertions Ports Service Fakes.
Open Scope Z_scope.
Open Scope rust_scope.

(** ** The harness *)

Definition FakeDb_new : FakeDb := mkFakeDb (chars "current-db") [] true false false.

Definition harness_with (keep : option nat) (db : FakeDb -> FakeDb) : ServiceDeps * Harness :=
  (harness_deps keep, set_fdb (harness_files []) (db FakeDb_new)).

Definition harness : ServiceDeps * Harness := harness_with None (fun db => db).

Definition unhealthy (db : FakeDb) : FakeDb := mkFakeDb (content db) (db_restored db) false (fail_dump db) (fail_restore db).
Definition failing_dump (db : FakeDb) : FakeDb := mkFakeDb (content db) (db_restored db) (healthy db) true (fail_restore db).
Definition failing_restore (db : FakeDb) : FakeDb := mkFakeDb (content db) (db_restored db) (healthy db) (fail_dump db) true.

Definition storage_put (h : Harness) (b : BackupInfo) (content : string) : Harness :=
  set_storage h (put (storage h) (b, chars content)).
Definition storage_fails (h : Harness) (upload download list delete : bool) : Harness :=
  let s := storage h in
  set_storage h (mkFakeStorage (files s) (deleted s) (delete_calls s) upload download list delete).

Definition put_good_backup (h : Harness) : Harness :=
  storage_put h (fake_info "good" 1 PgCustom Regular) "backup-content".

Definition temp_files_left (h : Harness) : nat := size (fs h).

(** Run a task until its next call is [stop]: what is left of it. *)
Fixpoint run_until {A} (stop : forall T, PortE T -> bool) (p : M A) (h : Harness) : M A * Harness :=
  match p with
  | Ret a => (Ret a, h)
  | Vis op k =>
      if stop _ op then (p, h)
      else let '(r, h) := fake _ op h in run_until stop (k r) h
  end.

(** A dump waits for the gate. *)
Definition dump_gate (T : Type) (op : PortE T) : bool :=
  match op with Dumper_dump _ => true | _ => false end.

(** ** The tests *)

Definition test_create_backup_uploads_dump : bool :=
  let '(deps, h) := harness in
  let '(created, h) := run fake (create_backup deps) h in
  unwrap created (fun created =>
    bool_decide (name created = "backup_tracker_2026-11-06_12:00:00.pgdump") &&
    bool_decide (kind created = Regular) &&
    bool_decide (format created = PgCustom) &&
    bool_decide (snd <$> head (files (storage h)) = Some (chars "current-db")) &&
    (temp_files_left h =? 0)%nat).

Definition test_create_backup_prunes_only_regular_pg_backups : bool :=
  let '(deps, h) := harness_with (Some 2%nat) (fun db => db) in
  let h := foldl (fun h '(i, day) => storage_put h (fake_info i day PgCustom Regular) "x") h
             [("old1", 1); ("old2", 2); ("old3", 3)] in
  let h := storage_put h (fake_info "legacy" 1 LegacyJsonZstd Regular) "x" in
  let h := storage_put h (fake_info "safety" 1 PgCustom PreRestore) "x" in
  let '(r, h) := run fake (create_backup deps) h in
  unwrap r (fun _ => bool_decide (deleted (storage h) ≡ₚ ["old1"; "old2"])).

Definition test_concurrent_backup_is_rejected : bool :=
  let '(deps, h) := harness in
  let '(first, h) := run_until dump_gate (create_backup deps) h in
  (* [wait_until_locked] *)
  locked h &&
  let '(second, h) := run fake (create_backup deps) h in
  unwrap_err second is_busy &&
  let '(first, h) := run fake first h in
  unwrap first (fun _ => true).

Definition test_list_clamps_page_size : bool :=
  let '(deps, h) := harness in
  let h := foldl (fun h day => storage_put h (fake_info ("b" +:+ int_to_string day) day PgCustom Regular) "x") h
             (seqZ 1 25) in
  let '(default_page, h) := run fake (list_backups 0 None) h in
  let '(capped, h) := run fake (list_backups 1000 None) h in
  unwrap default_page (fun default_page => unwrap capped (fun capped =>
    (length (items default_page) =? 20)%nat &&
    bool_decide (id <$> head (items default_page) = Some "b25") &&
    (length (items capped) =? 25)%nat)).

(** zstd, as a parameter: [encode] compresses, [decode] decompresses. *)
Definition fake_zstd (decode : bytes -> option bytes) : handler PortE Harness := fun T op =>
  match op in PortE T return Harness -> T * Harness with
  | DecompressTask src dst => fun h =>
      match decode (default [] (fs h !! src)) with
      | Some json => (Ok (Ok tt), set_fs h (<[dst := json]> (fs h)))
      | None => (Ok (Err (IoError "Could not decompress" "zstd")), h)
      end
  | op => fake _ op
  end.

Definition test_download_decompresses_legacy_backup (encode : bytes -> bytes) (decode : bytes -> option bytes) : bool :=
  let '(deps, h) := harness in
  let json := chars (of_chars [chr 123; chr 34] +:+ "materials" +:+ of_chars [chr 34] +:+ ": []}") in
  let h := set_storage h (put (storage h) (fake_info "legacy" 1 LegacyJsonZstd Regular, encode json)) in
  let '(r, h) := run (fake_zstd decode) (download deps Latest) h in
  unwrap r (fun '(got, file) =>
    bool_decide (id got = "legacy") && bool_decide (fs h !! file = Some json)).

Definition test_download_unknown_id : bool :=
  let '(deps, h) := harness in
  unwrap_err (run fake (download deps (Id "nope")) h).1 is_not_found.

Definition test_restore_takes_pre_restore_copy_then_restores : bool :=
  let '(deps, h) := harness in
  let h := storage_put h (fake_info "good" 1 PgCustom Regular) "backup-content" in
  let '(outcome, h) := run fake (restore deps (Id "good") "tracker") h in
  unwrap outcome (fun outcome =>
    bool_decide (id (restored outcome) = "good") &&
    bool_decide (kind (pre_restore outcome) = PreRestore) &&
    String.prefix "pre_restore_backup_tracker_" (name (pre_restore outcome)) &&
    bool_decide (events h = ["dump"; "upload pre_restore"; "restore"]) &&
    bool_decide (head (db_restored (fdb h)) = Some (chars "backup-content")) &&
    (temp_files_left h =? 0)%nat).

Definition test_restore_requires_matching_db_name : bool :=
  let '(deps, h) := harness in
  let h := storage_put h (fake_info "good" 1 PgCustom Regular) "x" in
  let '(r, h) := run fake (restore deps Latest "other") h in
  unwrap_err r is_failed_precondition && bool_decide (events h = []).

Definition test_restore_rejects_legacy_backup : bool :=
  let '(deps, h) := harness in
  let h := storage_put h (fake_info "legacy" 1 LegacyJsonZstd Regular) "x" in
  let '(r, h) := run fake (restore deps Latest "tracker") h in
  unwrap_err r is_failed_precondition && bool_decide (events h = []).

Definition test_restore_aborts_when_pre_restore_dump_fails : bool :=
  let '(deps, h) := harness_with None failing_dump in
  let h := put_good_backup h in
  let '(r, h) := run fake (restore deps (Id "good") "tracker") h in
  unwrap_err r is_process &&
  negb (bool_decide ("restore" ∈ events h)) &&
  bool_decide (db_restored (fdb h) = []) &&
  (temp_files_left h =? 0)%nat.

Definition test_restore_aborts_when_pre_restore_upload_fails : bool :=
  let '(deps, h) := harness in
  let h := storage_fails (put_good_backup h) true false false false in
  let '(r, h) := run fake (restore deps (Id "good") "tracker") h in
  unwrap_err r is_unavailable &&
  bool_decide (events h = ["dump"]) &&
  bool_decide (db_restored (fdb h) = []) &&
  (temp_files_left h =? 0)%nat.

Definition test_restore_aborts_when_download_fails : bool :=
  let '(deps, h) := harness in
  let h := storage_fails (put_good_backup h) false true false false in
  let '(r, h) := run fake (restore deps (Id "good") "tracker") h in
  unwrap_err r is_unavailable &&
  bool_decide (events h = []) &&
  (temp_files_left h =? 0)%nat.

Definition test_failed_restore_keeps_pre_restore_copy_and_releases_lock : bool :=
  let '(deps, h) := harness_with None failing_restore in
  let h := put_good_backup h in
  let '(r, h) := run fake (restore deps (Id "good") "tracker") h in
  unwrap_err r is_process &&
  bool_decide (PreRestore ∈ (kind <$> infos (storage h))) &&
  (temp_files_left h =? 0)%nat &&
  unwrap (run fake (create_backup deps) h).1 (fun _ => true).

Definition test_restore_latest_without_regular_backups : bool :=
  let empty := harness in
  let only_safety := (harness.1, storage_put harness.2 (fake_info "safety" 1 PgCustom PreRestore) "x") in
  forallb (fun '(deps, h) =>
    let '(r, h) := run fake (restore deps Latest "tracker") h in
    unwrap_err r is_not_found && bool_decide (events h = [])) [empty; only_safety].

Definition test_writes_are_rejected_while_restore_runs : bool :=
  let '(deps, h) := harness in
  let h := put_good_backup h in
  let '(first, h) := run_until dump_gate (restore deps (Id "good") "tracker") h in
  locked h &&
  let '(backup, h) := run fake (create_backup deps) h in
  let '(second_restore, h) := run fake (restore deps Latest "tracker") h in
  unwrap_err backup is_busy &&
  unwrap_err second_restore is_busy &&
  let '(first, h) := run fake first h in
  unwrap first (fun _ => true).

Definition test_backup_survives_failed_retention_list : bool :=
  let '(deps, h) := harness_with (Some 1%nat) (fun db => db) in
  let h := storage_fails h false false true false in
  let '(r, h) := run fake (create_backup deps) h in
  unwrap r (fun _ => (delete_calls (storage h) =? 0)%nat).

Definition test_backup_survives_failed_retention_deletes : bool :=
  let '(deps, h) := harness_with (Some 1%nat) (fun db => db) in
  let h := foldl (fun h '(i, day) => storage_put h (fake_info i day PgCustom Regular) "x") h
             [("old1", 1); ("old2", 2)] in
  let h := storage_fails h false false false true in
  let '(r, h) := run fake (create_backup deps) h in
  unwrap r (fun _ => (delete_calls (storage h) =? 2)%nat).

Definition test_retention_reads_every_page : bool :=
  let '(deps, h) := harness_with (Some 2%nat) (fun db => db) in
  let h := foldl (fun h i =>
    let backup := fake_info ("b" +:+ int_to_string i) 1 PgCustom Regular in
    (* 2026-01-01 plus [i] minutes *)
    let backup := mkBackupInfo (id backup) (name backup) (mkDateTime (1767225600 + 60 * i) 0)
                    None None PgCustom Regular in
    storage_put h backup "x") h (seqZ 0 250) in
  let '(r, h) := run fake (create_backup deps) h in
  unwrap r (fun _ =>
    (length (deleted (storage h)) =? 249)%nat &&
    bool_decide ((id <$> infos (storage h)) = ["up250"; "b249"])).

Definition test_healthcheck : bool :=
  (run fake healthcheck harness.2).1 &&
  negb (run fake healthcheck (harness_with None unhealthy).2).1.

(** ** They pass *)

Example service_tests_pass :
  forallb (fun b => b)
    [test_create_backup_uploads_dump; test_create_backup_prunes_only_regular_pg_backups;
     test_concurrent_backup_is_rejected; test_list_clamps_page_size; test_download_unknown_id;
     test_restore_takes_pre_restore_copy_then_restores; test_restore_requires_matching_db_name;
     test_restore_rejects_legacy_backup; test_restore_aborts_when_pre_restore_dump_fails;
     test_restore_aborts_when_pre_restore_upload_fails; test_restore_aborts_when_download_fails;
     test_failed_restore_keeps_pre_restore_copy_and_releases_lock; test_restore_latest_without_regular_backups;
     test_writes_are_rejected_while_restore_runs; test_backup_survives_failed_retention_list;
     test_backup_survives_failed_retention_deletes; test_retention_reads_every_page; test_healthcheck] = true.
Proof. by vm_compute. Qed.

(** With any codec that round-trips on the file; here it is reversed. *)
Example legacy_download_test_passes :
  test_download_decompresses_legacy_backup (@rev ascii) (fun b => Some (rev b)) = true.
Proof. by vm_compute. Qed.
