(* ===== verification/ServerTests.v ===== *)
(** * The unit tests of [backup-server]

    The tests of [grpc.rs], [convert.rs], [status.rs] and [settings.rs], as
    computations over the model and the harness of [service.rs], and that they
    pass. *)

From Stdlib Require Import ZArith Lia Ascii.
From stdpp Require Import base numbers gmap sorting strings list.
From S2P Require Import Prelude RustStd Chrono Core Assertions Ports Service Fakes ServiceTests Api Stream Pg SocketAddr.
From S2P Require Import Settings.
Open Scope Z_scope.
Open Scope rust_scope.

#[local] Instance plain_debug : RustFmt := {| str_debug := fun s => s |}.

#[local] Instance BackupTarget_eq_dec : EqDecision BackupTarget.
Proof. solve_decision. Defined.

(** ** [grpc.rs] *)

Definition latest_ref : BackupRef := mkBackupRef (Some (TargetLatest true)).

Definition restore_request (backup : option BackupRef) : RestoreRequest := mkRestoreRequest backup "tracker".

(** The file of the test is left open, apart from its size, and reads fill the
    buffer, as those of regular files do. *)
Definition test_download_streams_info_then_chunks : Prop :=
  forall content : bytes, Z.of_nat (length content) = CHUNK_SIZE * 2 + 10 ->
  let '(deps, h) := harness in
  let h := set_storage h (put (storage h) (fake_info "big" 1 PgCustom Regular, content)) in
  match run fake (grpc_download_backup deps latest_ref) h with
  | (Ok (first, file), h) =>
      p_id first = "big" /\
      exists s sizes got, rtc (stream_step first (default ([] : bytes) (fs h !! file))) start s /\ phase s = Finished /\
        received s = Ok (PayloadInfo first) :: data_items got /\ concat got = content /\
        (Z.of_nat ∘ length) <$> got = sizes /\ sizes = [CHUNK_SIZE; CHUNK_SIZE; 10]
  | _ => False
  end.

(** A read of [n] bytes goes to the client. *)
Lemma chunk_delivered first content pos n got :
  (0 < n)%nat -> Z.of_nat n <= CHUNK_SIZE -> (pos + n <= length content)%nat ->
  rtc (stream_step first content)
    (mkStream (ReadChunk pos) [] got true)
    (mkStream (ReadChunk (pos + n)) [] (got ++ [Ok (PayloadData (take n (drop pos content)))]) true).
Proof.
  intros Hn Hc Hl. eapply rtc_l; [by apply (StepRead _ _ _ pos n)|]. cbn [buffer received rx_open].
  eapply rtc_l; [eapply StepSend; [done|by apply SendOk; [|unfold STREAM_BUFFER; cbn; lia]]|].
  cbn [buffer received app]. apply rtc_once. by apply (StepReceive _ _ (mkStream (ReadChunk (pos + n)) [_] got true) _ []).
Qed.

(** The header goes to the client, and the file is opened. *)
Lemma header_delivered first content :
  rtc (stream_step first content) start (mkStream (ReadChunk 0) [] [Ok (PayloadInfo first)] true).
Proof.
  eapply rtc_l; [eapply StepHeader; [done|by apply SendOk; [|unfold STREAM_BUFFER; cbn; lia]]|].
  eapply rtc_l; [by apply (StepReceive _ _ (mkStream OpenFile [Ok (PayloadInfo first)] [] true) (Ok (PayloadInfo first)) [])|].
  apply rtc_once. by apply (StepOpen _ _ (mkStream OpenFile [] [Ok (PayloadInfo first)] true)).
Qed.

Lemma big_download content :
  let h := set_storage harness.2 (put (storage harness.2) (fake_info "big" 1 PgCustom Regular, content)) in
  exists first file h', run fake (grpc_download_backup harness.1 latest_ref) h = (Ok (first, file), h') /\
    p_id first = "big" /\ fs h' !! file = Some content.
Proof. eexists _, _, _. split; [vm_compute; reflexivity|]. by split. Qed.

Lemma test_download_streams_info_then_chunks_ok : test_download_streams_info_then_chunks.
Proof.
  intros content Hlen. destruct (big_download content) as (first & file & h' & Hrun & Hid & Hfile).
  destruct harness as [deps h]. cbn [fst snd] in Hrun. cbv zeta. rewrite Hrun. split; [done|]. rewrite Hfile.
  change (default _ _) with content. set (n := Z.to_nat CHUNK_SIZE).
  assert (length content = (n + n + 10)%nat) as Hl by (unfold n, CHUNK_SIZE in *; lia).
  assert (Z.of_nat n = CHUNK_SIZE /\ 0 < n)%nat as [Hn Hpos] by (unfold n, CHUNK_SIZE; lia). clearbody n.
  exists (mkStream Finished []
    (Ok (PayloadInfo first) ::
     data_items [take n (drop 0 content); take n (drop (0 + n) content); take 10 (drop (0 + n + n) content)]) true).
  eexists _, _. split_and!; [|done|done| |done|].
  - etrans; [apply header_delivered|]. etrans; [apply (chunk_delivered _ _ 0 n); lia|].
    etrans; [apply (chunk_delivered _ _ (0 + n) n); lia|].
    etrans; [apply (chunk_delivered _ _ (0 + n + n) 10); unfold CHUNK_SIZE; lia|].
    apply rtc_once. refine (StepEof _ _ (mkStream _ _ _ _) _). cbn [phase]. by rewrite Hl.
  - cbn [concat]. rewrite app_nil_r, drop_0, Nat.add_0_l.
    rewrite <-(drop_drop content n n), (take_ge (drop n (drop n content)) 10) by (rewrite !length_drop; lia).
    by rewrite !take_drop.
  - cbn [fmap list_fmap]. unfold compose. rewrite !length_take, !length_drop.
    rewrite <-Hn. repeat f_equal; lia.
Qed.

Definition test_get_backup_latest_skips_pre_restore : bool :=
  let '(deps, h) := harness in
  let h := storage_put h (fake_info "legacy" 1 LegacyJsonZstd Regular) "x" in
  let h := storage_put h (fake_info "safety" 2 PgCustom PreRestore) "x" in
  unwrap (run fake (grpc_get_backup latest_ref) h).1 (fun got =>
    bool_decide (p_id got = "legacy") && (p_format got =? BACKUP_FORMAT_LEGACY_JSON_ZSTD)).

Definition test_download_missing_backup : bool :=
  let '(deps, h) := harness in
  unwrap_err (run fake (grpc_download_backup deps latest_ref) h).1 (fun err =>
    bool_decide (status_code err = CodeNotFound)).

Definition test_restore_wrong_db_name : bool :=
  let '(deps, h) := harness in
  let h := storage_put h (fake_info "b" 1 PgCustom Regular) "x" in
  unwrap_err (run fake (grpc_restore deps (mkRestoreRequest (Some latest_ref) "prod")) h).1 (fun err =>
    bool_decide (status_code err = CodeFailedPrecondition)).

Definition test_restore_returns_restored_and_pre_restore_backups : bool :=
  let '(deps, h) := harness in
  let h := storage_put h (fake_info "good" 1 PgCustom Regular) "x" in
  unwrap (run fake (grpc_restore deps (restore_request (Some (mkBackupRef (Some (TargetId "good")))))) h).1 (fun reply =>
    match reply_restored reply, reply_pre_restore reply with
    | Some restored, Some safety =>
        bool_decide (p_id restored = "good") &&
        (p_kind safety =? BACKUP_KIND_PRE_RESTORE) &&
        starts_with (p_name safety) "pre_restore_backup_tracker_"
    | _, _ => false
    end).

Definition test_restore_without_backup_ref_is_invalid : bool :=
  let '(deps, h) := harness in
  let '(r, h) := run fake (grpc_restore deps (restore_request None)) h in
  unwrap_err r (fun err => bool_decide (status_code err = CodeInvalidArgument)) &&
  bool_decide (events h = []).

Definition test_list_backups_pages_through_token : bool :=
  let '(deps, h) := harness in
  let h := foldl (fun h day => storage_put h (fake_info ("b" +:+ int_to_string day) day PgCustom Regular) "x") h
             (seqZ 1 25) in
  let list token := (run fake (grpc_list_backups (mkListBackupsRequest 0 token)) h).1 in
  unwrap (list "") (fun first =>
    unwrap (list (reply_next_page_token first)) (fun second =>
      (length (backups first) =? 20)%nat &&
      bool_decide (p_id <$> backups first !! 0%nat = Some "b25") &&
      negb (str_is_empty (reply_next_page_token first)) &&
      (length (backups second) =? 5)%nat &&
      bool_decide (p_id <$> backups second !! 4%nat = Some "b1") &&
      str_is_empty (reply_next_page_token second))).

Definition test_healthcheck_reports_database_state : bool :=
  forallb (fun is_healthy : bool =>
    let '(deps, h) := harness_with None (if is_healthy then (fun db => db) else unhealthy) in
    unwrap (run fake grpc_healthcheck h).1 (Bool.eqb is_healthy)) [true; false].

Definition test_create_backup_returns_info : bool :=
  let '(deps, h) := harness in
  unwrap (run fake (grpc_create_backup deps) h).1 (fun info =>
    (p_format info =? BACKUP_FORMAT_PG_CUSTOM) && (p_kind info =? BACKUP_KIND_REGULAR)).

(** ** [convert.rs] *)

Definition test_backup_info : bool :=
  let converted := backup_info (fake_info "id1" 2 LegacyJsonZstd PreRestore) in
  bool_decide (p_id converted = "id1") &&
  (p_format converted =? BACKUP_FORMAT_LEGACY_JSON_ZSTD) &&
  (p_kind converted =? BACKUP_KIND_PRE_RESTORE) &&
  bool_decide (seconds <$> p_created_at converted = Some 1767312000).

Definition test_backup_target : bool :=
  let target t := backup_target (Some (mkBackupRef t)) in
  let invalid r := unwrap_err r (fun st => bool_decide (status_code st = CodeInvalidArgument)) in
  unwrap (target (Some (TargetId "x"))) (fun t => bool_decide (t = Id "x")) &&
  unwrap (target (Some (TargetLatest true))) (fun t => bool_decide (t = Latest)) &&
  forallb (fun bad => invalid (target bad)) [None; Some (TargetId ""); Some (TargetLatest false)] &&
  invalid (backup_target None).

(** ** [status.rs] *)

(** The status alone; the log line is not looked at. *)
Definition status_of (context : string) (err : Error) : Status := (classify_error context err).2.

Definition test_codes : bool :=
  forallb (fun '(err, code) => bool_decide (status_code (status_of "ctx" err) = code))
    [(NotFound "x", CodeNotFound); (FailedPrecondition "x", CodeFailedPrecondition); (Busy "x", CodeAborted);
     (InvalidArgument "x", CodeInvalidArgument); (Unavailable "x", CodeUnavailable);
     (StorageError "x", CodeInternal); (Config "x", CodeInternal); (Error_io "x" "y", CodeInternal);
     (Timeout "x" (from_secs 1), CodeUnavailable); (Process "pg_dump" "1" "boom", CodeInternal)].

Definition test_message_has_context : bool :=
  bool_decide (status_message (status_of "Dump failed" (NotFound "db")) = "Dump failed: not found: db").

Definition test_internal_details_are_not_sent_to_client : bool :=
  forallb (fun err =>
    let status := status_of "Backup failed" err in
    forallb (fun secret => negb (contains (status_message status) secret))
      ["db-host"; "/app/data"; "sa@project"; "10.0.0.1"] &&
    starts_with (status_message status) "Backup failed: ")
    [Process "pg_dump" "1" ("connection to server at " +:+ of_chars [chr 34] +:+ "db-host" +:+ of_chars [chr 34] +:+ " failed");
     Error_io "Could not create /app/data/backup_x" "disk full";
     StorageError "HTTP 401: token for sa@project expired";
     Unavailable "HTTP 503: backend at 10.0.0.1"].

(** ** [settings.rs] *)

Definition REQUIRED : list (string * string) :=
  [("DB_HOST", "tracker-db"); ("DB_USERNAME", "tracker"); ("DB_PASSWORD", "secret"); ("DB_NAME", "tracker");
   ("DRIVE_CREDS", "{}"); ("DRIVE_FOLDER_ID", "folder")].

Definition parse_settings (extra : list (string * string)) (without : string) : Result Settings :=
  let map : gmap string string :=
    foldl (fun m '(k, v) => <[k := v]> m) ∅
      (List.filter (fun kv => negb (bool_decide (kv.1 = without))) (REQUIRED ++ extra)) in
  from_source (fun key => map !! key).

Definition test_defaults : bool :=
  unwrap (parse_settings [] "") (fun s =>
    (port (set_db s) =? 5432) &&
    bool_decide (db (set_db s) = "tracker") &&
    bool_decide (expose (password (set_db s)) = "secret") &&
    (level_value (comp_level s) =? level_value ZstdLevel_default) &&
    bool_decide (set_data_folder s = "data") &&
    bool_decide (set_retention s = None) &&
    match listen_addr s with V4 octets port => bool_decide (v4_to_string octets port = "0.0.0.0:50051") | _ => false end &&
    (pg_timeout s =? from_secs 3600)).

Definition test_overrides : bool :=
  unwrap (parse_settings
      [("DB_PORT", "5433"); ("COMPRESSION_LEVEL", "9"); ("DRIVE_RETENTION_COUNT", "30");
       ("LISTEN_ADDR", "127.0.0.1:6000"); ("PG_TIMEOUT_SECS", "600")] "") (fun s =>
    (port (set_db s) =? 5433) &&
    unwrap (ZstdLevel_new 9) (fun lv => level_value (comp_level s) =? level_value lv) &&
    bool_decide (set_retention s = Some 30) &&
    match listen_addr s with V4 _ port => port =? 6000 | _ => false end &&
    (pg_timeout s =? from_secs 600)).

Definition test_every_required_key_is_checked : bool :=
  forallb (fun '(key, _) => unwrap_err (parse_settings [] key) (fun err => contains (Error_display err) key)) REQUIRED.

Definition test_invalid_values : bool :=
  forallb (fun '(key, value) => is_err (parse_settings [(key, value)] ""))
    [("DB_PORT", "-1"); ("DB_PORT", "70000"); ("COMPRESSION_LEVEL", "3.14"); ("COMPRESSION_LEVEL", "42");
     ("DRIVE_RETENTION_COUNT", "0"); ("DRIVE_RETENTION_COUNT", "x"); ("LISTEN_ADDR", "nowhere");
     ("PG_TIMEOUT_SECS", "0"); ("PG_TIMEOUT_SECS", "1h")].

Example server_tests_pass :
  all_pass
    [test_get_backup_latest_skips_pre_restore; test_download_missing_backup; test_restore_wrong_db_name;
     test_restore_returns_restored_and_pre_restore_backups; test_restore_without_backup_ref_is_invalid;
     test_list_backups_pages_through_token; test_healthcheck_reports_database_state;
     test_create_backup_returns_info; test_backup_info; test_backup_target; test_codes; test_message_has_context;
     test_internal_details_are_not_sent_to_client; test_defaults; test_overrides;
     test_every_required_key_is_checked; test_invalid_values] = true.
Proof. by vm_compute. Qed.
