(* ===== verification/Integration.v ===== *)
(** * The integration tests

    [backup-pg/tests/roundtrip.rs], the test of [service.rs] with real pg tools
    and [backup-gdrive/tests/drive_smoke.rs].  PostgreSQL is a parameter: what
    [psql] answers to statements, and the dumps of [PgFormat]; a server has
    several databases, and the programs reach them by their options.  The tests
    on dumps are proved for any server that answers the statements of the tests
    as they expect; all are run against a scripted server, and the one of
    Drive against the environment of [System.v]. *)

From Stdlib Require Import ZArith Lia Ascii.
From stdpp Require Import base numbers gmap sorting strings list.
From S2P Require Import Prelude RustStd Md5 Utf8 Chrono Core Assertions Ports Service Fakes Pg Drive DriveStorage.
From S2P Require Import DriveContract System.
Open Scope Z_scope.
Open Scope rust_scope.

(** ** A PostgreSQL server *)

(** [psql --command] in a database: nothing when it fails. *)
Class Postgres `{PgFormat} := { psql : Db -> string -> option (Db * string) }.

Record Cluster `{PgFormat} := mkCluster { databases : gmap string Db; disk : gmap path bytes }.

Section Server.
Context `{PgFormat, !PgDump, !Postgres}.

Definition exited (ok : bool) (out : string) : option (result Output string) :=
  Some (Ok (mkOutput ok (if ok then "exit status: 0" else "exit status: 1") (chars out) [])).

Definition strip (pre s : string) : option string :=
  if String.prefix pre s then Some (of_chars (drop (String.length pre) (chars s))) else None.

(** A statement: databases are dropped and created by name. *)
Definition run_psql (c : Cluster) (name sql : string) : option (Cluster * string) :=
  match strip "CREATE DATABASE " sql, strip "DROP DATABASE IF EXISTS " sql with
  | Some n, _ => Some (mkCluster _ (<[n := (∅ : Db)]> (databases c)) (disk c), "")
  | _, Some n => Some (mkCluster _ (delete (of_chars (hd [] (split_on " "%char (chars n)))) (databases c)) (disk c), "")
  | _, _ =>
      d ← databases c !! name;
      '(d, out) ← psql d sql;
      Some (mkCluster _ (<[name := d]> (databases c)) (disk c), out)
  end.

Definition run_program (c : Cluster) (cmd : PgCommand) : option (Cluster * string) :=
  opts ← getopt (args cmd);
  match option_values "--dbname" opts with
  | [name] =>
      if String.eqb (program cmd) "psql" then
        match option_values "--command" opts with [sql] => run_psql c name sql | _ => None end
      else if String.eqb (program cmd) "pg_dump" then
        match option_values "--file" opts with
        | [dst] => d ← databases c !! name; Some (mkCluster _ (databases c) (<[dst := pg_dump_bytes d]> (disk c)), "")
        | _ => None
        end
      else if String.eqb (program cmd) "pg_restore" then
        match operands opts with
        | [src] =>
            d ← databases c !! name;
            a ← disk c !! src ≫= pg_restore_bytes;
            Some (mkCluster _ (<[name := a ∪ d]> (databases c)) (disk c), "")
        | _ => None
        end
      else None
  | _ => None
  end.

Definition run_pg (T : Type) (op : PgE T) (c : Cluster) : T * Cluster :=
  match op in PgE T return T * Cluster with
  | RunWithin _ cmd =>
      match run_program c cmd with Some (c, out) => (exited true out, c) | None => (exited false "", c) end
  | PgInstant => (0, c)
  | PgLog _ _ => (tt, c)
  end.

(** [expect] and [unwrap]. *)
Definition expect {A} (p : prog PgE (Result A)) (c : Cluster) (k : A -> Cluster -> bool) : bool :=
  let '(r, c) := run run_pg p c in unwrap r (fun a => k a c).

(** ** [roundtrip.rs] *)

Context `{RustFmt} (var : string -> option string).

Definition env_or (key d : string) : string := default d (var key).

(** Nothing when the port does not parse. *)
Definition tools_for (db_name : string) : option PgTools :=
  p ← result_ok (parse_u16 (env_or "PG_TEST_PORT" "5432"));
  Some (mkPgTools
    (mkDbTarget (env_or "PG_TEST_HOST" "localhost") p (env_or "PG_TEST_USER" "postgres")
       (Secret_new (env_or "PG_TEST_PASSWORD" "postgres")) db_name)
    ZstdLevel_default (from_secs 300)).

Definition fresh_db (name : string) (c : Cluster) (k : PgTools -> Cluster -> bool) : bool :=
  match tools_for (env_or "PG_TEST_ADMIN_DB" "postgres"), tools_for name with
  | Some admin, Some pg =>
      expect (PgTools_query admin ("DROP DATABASE IF EXISTS " +:+ name +:+ " WITH (FORCE)")) c (fun _ c =>
      expect (PgTools_query admin ("CREATE DATABASE " +:+ name)) c (fun _ c => k pg c))
  | _, _ => false
  end.

Definition dq : string := of_chars [chr 34].

Definition SCHEMA : string := "
CREATE TYPE materialtypesenum AS ENUM ('book', 'article', 'audiobook');
CREATE TABLE materials (
    material_id serial PRIMARY KEY,
    title text NOT NULL,
    material_type materialtypesenum NOT NULL,
    tags jsonb,
    added_at timestamp NOT NULL DEFAULT now()
);
INSERT INTO materials (title, material_type, tags) VALUES
    ('Dune', 'book', '[" +:+ dq +:+ "sf" +:+ dq +:+ "]'),
    ('Rust blog', 'article', NULL),
    ('Hobbit', 'audiobook', '{" +:+ dq +:+ "narrator" +:+ dq +:+ ": " +:+ dq +:+ "x" +:+ dq +:+ "}');
CREATE MATERIALIZED VIEW mvw_types AS
    SELECT material_type, count(*) AS cnt FROM materials GROUP BY material_type;
".

Definition CHANGES_AFTER_BACKUP : string := "
INSERT INTO materials (title, material_type) VALUES ('Lost', 'book');
DROP MATERIALIZED VIEW mvw_types;
ALTER TYPE materialtypesenum ADD VALUE 'course';
".

(** The queries after the restore, and what they must answer. *)
Definition ROUNDTRIP_ANSWERS : list (string * string) :=
  [("SELECT string_agg(title, ',' ORDER BY material_id) FROM materials", "Dune,Rust blog,Hobbit");
   ("SELECT nextval('materials_material_id_seq')", "4");
   ("SELECT string_agg(material_type || '=' || cnt, ',' ORDER BY material_type) FROM mvw_types",
    "book=1,article=1,audiobook=1");
   ("SELECT string_agg(enumlabel, ',' ORDER BY enumsortorder) FROM pg_enum WHERE enumtypid = 'materialtypesenum'::regtype",
    "book,article,audiobook");
   ("SELECT tags->>'narrator' FROM materials WHERE title = 'Hobbit'", "x")].

(** [assert_eq!(pg.query(sql).await.unwrap().trim(), answer)] for each. *)
Fixpoint assert_answers (pg : PgTools) (l : list (string * string)) (c : Cluster) : bool :=
  match l with
  | [] => true
  | (sql, answer) :: l =>
      expect (PgTools_query pg sql) c (fun out c => String.eqb (trim out) answer && assert_answers pg l c)
  end.

Definition test_dump_and_restore_roundtrip (c : Cluster) : bool :=
  fresh_db "backup_test_roundtrip" c (fun pg c =>
  expect (PgTools_ping pg) c (fun _ c =>
  expect (PgTools_query pg SCHEMA) c (fun _ c =>
  let dump := "/tmp/backup.pgdump" in
  expect (PgTools_dump pg dump) c (fun _ c =>
  match disk c !! dump with Some (_ :: _) => true | _ => false end &&
  expect (PgTools_query pg CHANGES_AFTER_BACKUP) c (fun _ c =>
  expect (PgTools_restore pg dump) c (fun _ c =>
  assert_answers pg ROUNDTRIP_ANSWERS c)))))).

Definition write_file (p : path) (b : bytes) (c : Cluster) : Cluster :=
  mkCluster _ (databases c) (<[p := b]> (disk c)).

Definition test_restore_of_broken_file_keeps_database_intact (c : Cluster) : bool :=
  fresh_db "backup_test_broken" c (fun pg c =>
  expect (PgTools_query pg SCHEMA) c (fun _ c =>
  let broken := "/tmp/broken.pgdump" in
  let '(r, c) := run run_pg (PgTools_restore pg broken) (write_file broken (chars "PGDMP but not really") c) in
  is_err r && assert_answers pg [("SELECT count(*) FROM materials", "3")] c)).

Definition test_restore_into_empty_database (c : Cluster) : bool :=
  fresh_db "backup_test_source" c (fun source c =>
  expect (PgTools_query source SCHEMA) c (fun _ c =>
  let dump := "/tmp/backup.pgdump" in
  expect (PgTools_dump source dump) c (fun _ c =>
  fresh_db "backup_test_empty" c (fun empty c =>
  expect (PgTools_restore empty dump) c (fun _ c =>
  assert_answers empty [("SELECT count(*) FROM mvw_types", "3")] c))))).

Fixpoint table_parts (pg : PgTools) (tables : list string) (c : Cluster) (k : list string -> Cluster -> bool) : bool :=
  match tables with
  | [] => k [] c
  | table :: tables =>
      let sql := "SELECT count(*) || ':' || coalesce(md5(string_agg(t::text, '|' ORDER BY t::text)), '-') FROM " +:+
                 dq +:+ table +:+ dq +:+ " t" in
      expect (PgTools_query pg sql) c (fun out c =>
        table_parts pg tables c (fun parts c => k ((table +:+ "=" +:+ trim out) :: parts) c))
  end.

Definition fingerprint (pg : PgTools) (c : Cluster) (k : string -> Cluster -> bool) : bool :=
  let nl := of_chars [chr 10] in
  expect (PgTools_query pg "SELECT string_agg(tablename, ',' ORDER BY tablename) FROM pg_tables WHERE schemaname = 'public'")
    c (fun tables c =>
  let tables := List.filter (fun t => negb (str_is_empty t)) (of_chars <$> split_on ","%char (chars (trim tables))) in
  table_parts pg tables c (fun parts c =>
  expect (PgTools_query pg "SELECT string_agg(sequencename || '=' || coalesce(last_value::text, 'null'), ',' ORDER BY sequencename) FROM pg_sequences WHERE schemaname = 'public'")
    c (fun sequences c =>
  expect (PgTools_query pg "SELECT string_agg(t.typname || '=' || e.enumlabel, ',' ORDER BY t.typname, e.enumsortorder) FROM pg_enum e JOIN pg_type t ON t.oid = e.enumtypid")
    c (fun enums c =>
  expect (PgTools_query pg "SELECT string_agg(matviewname, ',' ORDER BY matviewname) FROM pg_matviews WHERE schemaname = 'public'")
    c (fun matviews c =>
  k (String.concat nl parts +:+ nl +:+ "sequences: " +:+ trim sequences +:+ nl +:+ "enums: " +:+ trim enums +:+ nl +:+
     "matviews: " +:+ trim matviews) c))))).

(** Skipped, that is passed, when the variable is not set. *)
Definition test_real_database_roundtrip (c : Cluster) : bool :=
  match var "PG_TEST_SOURCE_DB" with
  | None => true
  | Some source_name =>
      match tools_for source_name with
      | None => false
      | Some source =>
          fingerprint source c (fun expected c =>
          let dump := "/tmp/real.pgdump" in
          expect (PgTools_dump source dump) c (fun _ c =>
          fresh_db "backup_test_real_copy" c (fun copy c =>
          expect (PgTools_restore copy dump) c (fun _ c =>
          fingerprint copy c (fun got c =>
          String.eqb got expected &&
          expect (PgTools_query copy "SELECT string_agg(format('DELETE FROM %I', tablename), '; ') FROM pg_tables WHERE schemaname = 'public'")
            c (fun tables c =>
          expect (PgTools_query copy (trim tables)) c (fun _ c =>
          expect (PgTools_query copy "DROP MATERIALIZED VIEW IF EXISTS mvw_repeat_notes") c (fun _ c =>
          fingerprint copy c (fun got c =>
          negb (String.eqb got expected) &&
          expect (PgTools_restore copy dump) c (fun _ c =>
          fingerprint copy c (fun got _ => String.eqb got expected)))))))))))
      end
  end.

(** *** For any server *)

Definition plain_sql (sql : string) : bool :=
  negb (String.prefix "CREATE DATABASE " sql || String.prefix "DROP DATABASE IF EXISTS " sql).

Lemma run_execute cmd limit c :
  run run_pg (execute cmd limit) c =
  match run_program c cmd with
  | Some (c', out) => (Ok (from_utf8_lossy (chars out)), c')
  | None => (Err (Process (program cmd) "exit status: 1" ""), c)
  end.
Proof. unfold execute. cbn [run bind trigger run_pg]. by destruct (run_program c cmd) as [[c' out]|]. Qed.

Lemma run_query pg sql c d d' out :
  plain_sql sql = true -> databases c !! db (target pg) = Some d -> psql d sql = Some (d', out) ->
  run_program c (query_command (target pg) sql) =
  Some (mkCluster _ (<[db (target pg) := d']> (databases c)) (disk c), out).
Proof.
  intros Hp Hd Hs. unfold run_program. rewrite getopt_query. cbn [mbind option_bind].
  change (option_values "--dbname" _) with [db (target pg)]. change (option_values "--command" _) with [sql].
  unfold run_psql, strip. unfold plain_sql in Hp. apply negb_true_iff, orb_false_iff in Hp as [-> ->].
  rewrite Hd. cbn [mbind option_bind]. by rewrite Hs.
Qed.

Lemma expect_query pg sql c d d' out k :
  plain_sql sql = true -> databases c !! db (target pg) = Some d -> psql d sql = Some (d', out) ->
  expect (PgTools_query pg sql) c k =
  k (from_utf8_lossy (chars out)) (mkCluster _ (<[db (target pg) := d']> (databases c)) (disk c)).
Proof.
  intros Hp Hd Hs. unfold expect, PgTools_query. by rewrite run_execute, (run_query pg sql c d d' out).
Qed.

Lemma expect_dump pg dst c d k :
  databases c !! db (target pg) = Some d ->
  expect (PgTools_dump pg dst) c k = k tt (mkCluster _ (databases c) (<[dst := pg_dump_bytes d]> (disk c))).
Proof.
  intros Hd. unfold expect, PgTools_dump. cbn [run bind trigger run_pg]. rewrite run_bind, run_execute.
  unfold run_program. rewrite getopt_dump. cbn [mbind option_bind].
  change (option_values "--dbname" _) with [db (target pg)]. change (option_values "--file" _) with [dst].
  cbn [dump_command command program String.eqb]. by rewrite Hd.
Qed.

Lemma expect_restore pg src c d b a k :
  starts_with_dash src = false -> databases c !! db (target pg) = Some d ->
  disk c !! src = Some b -> pg_restore_bytes b = Some a ->
  expect (PgTools_restore pg src) c k = k tt (mkCluster _ (<[db (target pg) := a ∪ d]> (databases c)) (disk c)).
Proof.
  intros Hsrc Hd Hb Ha. unfold expect, PgTools_restore. cbn [run bind trigger run_pg]. rewrite run_bind, run_execute.
  unfold run_program. rewrite getopt_restore by done. cbn [mbind option_bind].
  change (option_values "--dbname" _) with [db (target pg)]. change (operands _) with [src].
  cbn [restore_command command program String.eqb]. rewrite Hd. cbn [mbind option_bind]. rewrite Hb.
  cbn [mbind option_bind]. by rewrite Ha.
Qed.

Lemma expect_ping pg c d out k :
  databases c !! db (target pg) = Some d -> psql d "SELECT 1" = Some (d, out) ->
  trim (from_utf8_lossy (chars out)) = "1" -> expect (PgTools_ping pg) c k = k tt c.
Proof.
  intros Hd Hs Ht. unfold expect, PgTools_ping. rewrite run_bind, run_execute, (run_query pg _ c d d out) by done.
  cbn [run]. rewrite Ht, insert_id by done. by destruct c.
Qed.

Lemma strip_app pre s : strip pre (pre +:+ s) = Some s.
Proof.
  unfold strip. assert (String.prefix pre (pre +:+ s) = true) as ->.
  { induction pre as [|c pre IH]; [by destruct s|]. simpl. by destruct (ascii_dec c c). }
  by rewrite chars_app, <-length_chars, drop_app_length, of_chars_chars.
Qed.

Lemma run_create pg name c :
  run_program c (query_command (target pg) ("CREATE DATABASE " +:+ name)) =
  Some (mkCluster _ (<[name := (∅ : Db)]> (databases c)) (disk c), "").
Proof.
  unfold run_program. rewrite getopt_query. cbn [mbind option_bind].
  change (option_values "--dbname" _) with [db (target pg)].
  change (option_values "--command" _) with ["CREATE DATABASE " +:+ name].
  unfold run_psql. by rewrite strip_app.
Qed.

Lemma run_drop pg name c : exists c',
  run_program c (query_command (target pg) ("DROP DATABASE IF EXISTS " +:+ name)) = Some (c', "") /\ disk c' = disk c.
Proof.
  unfold run_program. rewrite getopt_query. cbn [mbind option_bind].
  change (option_values "--dbname" _) with [db (target pg)].
  change (option_values "--command" _) with ["DROP DATABASE IF EXISTS " +:+ name].
  unfold run_psql. rewrite strip_app. by eexists.
Qed.

Lemma expect_fresh name c k :
  (forall n, is_Some (tools_for n)) ->
  exists pg c', db (target pg) = name /\ databases c' !! name = Some (∅ : Db) /\ disk c' = disk c /\
    fresh_db name c k = k pg c'.
Proof.
  intros Hports. unfold fresh_db. destruct (Hports (env_or "PG_TEST_ADMIN_DB" "postgres")) as [admin ->].
  destruct (Hports name) as [pg Hpg]. rewrite Hpg. unfold expect, PgTools_query.
  destruct (run_drop admin (name +:+ " WITH (FORCE)") c) as (c1 & Hdrop & Hdisk).
  rewrite run_execute, Hdrop. cbn [unwrap]. rewrite run_execute, run_create. cbn [unwrap].
  exists pg, (mkCluster _ (<[name := (∅ : Db)]> (databases c1)) (disk c1)).
  split_and!; [|apply lookup_insert_eq|done|done].
  unfold tools_for in Hpg. destruct (parse_u16 _); [|done]. by injection Hpg as <-.
Qed.

(** The server answers the queries as the test expects, one after the other. *)
Fixpoint answers (d : Db) (l : list (string * string)) : Prop :=
  match l with
  | [] => True
  | (sql, answer) :: l =>
      exists d' out, psql d sql = Some (d', out) /\ trim (from_utf8_lossy (chars out)) = answer /\ answers d' l
  end.

Lemma assert_answers_ok pg l c d :
  Forall (fun q => plain_sql q.1 = true) l -> databases c !! db (target pg) = Some d -> answers d l ->
  assert_answers pg l c = true.
Proof.
  intros Hl. revert c d. induction Hl as [|[sql a] l Hq Hl IH]; intros c d Hd Ha; [done|].
  destruct Ha as (d' & out & Hs & <- & Ha). cbn [assert_answers]. erewrite expect_query by done.
  rewrite String.eqb_refl. eapply IH; [|exact Ha]. apply lookup_insert_eq.
Qed.

Hypothesis ports_parse : forall n, is_Some (tools_for n).

(** Restoring over a database that has no further objects gives the dump. *)
Lemma union_covers (d d' : Db) : dom d' ⊆ dom d -> d ∪ d' = d.
Proof.
  intros Hdom. apply map_eq. intros x. rewrite lookup_union. destruct (d !! x) as [o|] eqn:Hd; [by destruct (d' !! x)|].
  destruct (d' !! x) as [o|] eqn:Hd'; [|done]. apply elem_of_dom_2, Hdom, elem_of_dom in Hd' as [? ?]. congruence.
Qed.

(** The round trip holds for any server that answers the statements of the test
    as expected on the database the script makes, and whose changes after the
    dump make no new object: the restore undoes them. *)
Theorem roundtrip_test_passes c one d out d' out' :
  psql (∅ : Db) "SELECT 1" = Some ((∅ : Db), one) -> trim (from_utf8_lossy (chars one)) = "1" ->
  psql (∅ : Db) SCHEMA = Some (d, out) -> pg_dump_bytes d <> [] ->
  psql d CHANGES_AFTER_BACKUP = Some (d', out') -> dom d' ⊆ dom d -> answers d ROUNDTRIP_ANSWERS ->
  test_dump_and_restore_roundtrip c = true.
Proof.
  intros Hone Hping Hschema Hdump Hchanges Hdom Hanswers. unfold test_dump_and_restore_roundtrip.
  edestruct (expect_fresh "backup_test_roundtrip" c) as (pg & c1 & Hn & Hd & _ & ->); [done|].
  rewrite <-Hn in Hd. erewrite expect_ping by done. erewrite expect_query by done.
  erewrite expect_dump by apply lookup_insert_eq. cbn [disk databases]. rewrite lookup_insert_eq.
  destruct (pg_dump_bytes d) as [|b0 b] eqn:Hb; [done|]. cbn [andb].
  erewrite expect_query by (done || apply lookup_insert_eq). cbn [disk databases].
  erewrite expect_restore; [|done|apply lookup_insert_eq|apply lookup_insert_eq|rewrite <-Hb; apply pg_restore_dump, pg_dump_bytes_ok].
  rewrite (union_covers d d') by done.
  eapply assert_answers_ok; [by repeat constructor|apply lookup_insert_eq|done].
Qed.

(** A dump can be restored into another database. *)
Theorem empty_database_test_passes c d out :
  psql (∅ : Db) SCHEMA = Some (d, out) -> answers d [("SELECT count(*) FROM mvw_types", "3")] ->
  test_restore_into_empty_database c = true.
Proof.
  intros Hschema Hanswers. unfold test_restore_into_empty_database.
  edestruct (expect_fresh "backup_test_source" c) as (source & c1 & Hn & Hd & _ & ->); [done|].
  rewrite <-Hn in Hd. erewrite expect_query by done. erewrite expect_dump by apply lookup_insert_eq.
  cbn [disk databases].
  match goal with |- fresh_db _ ?c _ = _ => edestruct (expect_fresh "backup_test_empty" c) as (pg & c2 & Hn2 & Hd2 & Hf2 & ->) end;
    [done|].
  rewrite <-Hn2 in Hd2. cbn [disk] in Hf2.
  erewrite expect_restore; [|done|exact Hd2|rewrite Hf2; apply lookup_insert_eq|apply pg_restore_dump, pg_dump_bytes_ok].
  rewrite (right_id_L ∅ (∪)).
  eapply assert_answers_ok; [by repeat constructor|apply lookup_insert_eq|done].
Qed.

(** A file that is not a dump is refused and leaves the database alone. *)
Theorem broken_file_test_passes c d out :
  psql (∅ : Db) SCHEMA = Some (d, out) -> pg_restore_bytes (chars "PGDMP but not really") = None ->
  answers d [("SELECT count(*) FROM materials", "3")] ->
  test_restore_of_broken_file_keeps_database_intact c = true.
Proof.
  intros Hschema Hbroken Hanswers. unfold test_restore_of_broken_file_keeps_database_intact.
  edestruct (expect_fresh "backup_test_broken" c) as (pg & c1 & Hn & Hd & _ & ->); [done|].
  rewrite <-Hn in Hd. erewrite expect_query by done. unfold write_file. cbn [disk databases].
  unfold PgTools_restore. cbn [run bind trigger run_pg]. rewrite run_bind, run_execute. unfold run_program.
  rewrite getopt_restore by done. cbn [mbind option_bind].
  change (option_values "--dbname" _) with [db (target pg)]. change (operands _) with ["/tmp/broken.pgdump"].
  cbn [restore_command command program String.eqb databases disk]. rewrite !lookup_insert_eq. cbn [mbind option_bind].
  rewrite Hbroken. cbn [PG_RESTORE String.eqb Ascii.eqb Bool.eqb mbind option_bind run is_err unwrap_err andb].
  eapply assert_answers_ok; [by repeat constructor|apply lookup_insert_eq|done].
Qed.
End Server.

(** ** The test of [service.rs] with real pg tools *)

Section WithPostgres.
Context `{PgFormat, !PgDump, !Postgres, RustFmt}.

(** The harness whose database is a server. *)
Definition PgHarness : Type := Harness * gmap string Db.

Definition on_server {A} (p : prog PgE A) (s : PgHarness) : A * PgHarness :=
  let '(h, dbs) := s in
  let '(r, c) := run run_pg p (mkCluster _ dbs (fs h)) in (r, (set_fs h (disk c), databases c)).

Definition with_pg (pg : PgTools) : handler PortE PgHarness := fun T e =>
  match e in PortE T return PgHarness -> T * PgHarness with
  | Dumper_dump dst => on_server (PgTools_dump pg dst)
  | Restorer_restore src => on_server (PgTools_restore pg src)
  | DbHealth_ping => on_server (PgTools_ping pg)
  | e => fun s => let '(h, dbs) := s in let '(r, h) := fake _ e h in (r, (h, dbs))
  end.

Definition BODIES : string := "SELECT string_agg(body, ',' ORDER BY id) FROM notes".

(** [now] is [Utc::now()]; the data folder is the one of the harness. *)
Definition test_backup_and_restore_with_postgres (var : string -> option string) (now : DateTime)
    (dbs : gmap string Db) : bool :=
  let h := harness_files [] in
  let s := (mkHarness (storage h) (fdb h) [] false ∅ 0 now, dbs) in
  match tools_for var "postgres", tools_for var "backup_service_test" with
  | Some admin, Some pg =>
      let query t sql s k := let '(r, s) := on_server (PgTools_query t sql) s in unwrap r (fun a => k a s) in
      let service {A} (p : M (Result A)) s k := let '(r, s) := run (with_pg pg) p s in unwrap r (fun a => k a s) in
      let deps := mkServiceDeps "backup_service_test" "backup_service_test" "/data" None in
      query admin "DROP DATABASE IF EXISTS backup_service_test WITH (FORCE)" s (fun _ s =>
      query admin "CREATE DATABASE backup_service_test" s (fun _ s =>
      query pg "CREATE TABLE notes (id serial PRIMARY KEY, body text); INSERT INTO notes (body) VALUES ('a'), ('b')" s (fun _ s =>
      service (create_backup deps) s (fun backup s =>
      query pg "INSERT INTO notes (body) VALUES ('after backup')" s (fun _ s =>
      service (restore deps (Id (id backup)) "backup_service_test") s (fun outcome s =>
      query pg BODIES s (fun bodies s =>
      String.eqb (trim bodies) "a,b" && bool_decide (kind (pre_restore outcome) = PreRestore) &&
      service (restore deps (Id (id (pre_restore outcome))) "backup_service_test") s (fun safety s =>
      query pg BODIES s (fun bodies _ =>
      String.eqb (trim bodies) "a,b,after backup" &&
      bool_decide (id (restored safety) = id (pre_restore outcome)))))))))))
  | _, _ => false
  end.
End WithPostgres.

(** ** [drive_smoke.rs] *)

(** The test repeats its text 1000 times; [now] is [Utc::now()]. *)
Definition drive_smoke_upload_find_download_delete `{RustFmt} (repeats : nat) (now : DateTime) (w : DWorld) : bool :=
  let drive := mkGoogleDriveStorage "folder" DriveOptions_default in
  let content := concat (replicate repeats (chars "smoke test content ")) in
  let w := mkDWorld (d_stored w) (<["/tmp/src.pgdump" := content]> (d_local w)) in
  let drive_do {A} (p : prog DriveE A) w k := match run_partial run_drive p w with Some (r, w) => k r w | None => false end in
  drive_do (drive_upload drive (UploadRequest_pg_dump "/tmp/src.pgdump" "smoke" Regular now)) w (fun r w =>
  unwrap r (fun uploaded =>
  bool_decide (size_bytes uploaded = Some (Z.of_nat (length content))) &&
  drive_do (drive_latest drive) w (fun r w =>
  unwrap r (fun latest =>
  bool_decide (id <$> latest = Some (id uploaded)) &&
  drive_do (drive_get drive (id uploaded)) w (fun r w =>
  unwrap r (fun fetched =>
  bool_decide (format fetched = PgCustom) &&
  let dst := "/tmp/dst.pgdump" in
  drive_do (drive_download drive fetched dst) w (fun r w =>
  is_ok r && bool_decide (d_local w !! dst = Some content) &&
  drive_do (drive_delete drive (id uploaded)) w (fun r w =>
  is_ok r && drive_do (drive_get drive (id uploaded)) w (fun r _ => is_err r))))))))).

(** ** The scripted server

    A database has one object, the list of the statements that made it, and a
    query is looked up with the statements it can see. *)

#[local] Instance history_format : PgFormat := encoded_pg (list string) Some.
#[local] Instance history_dump : PgDump := encoded_pg_dump (list string) Some.

Definition made_by (l : list string) : Db := match l with [] => ∅ | _ => {["log" := l]} end.
Definition history (d : Db) : list string := default ([] : list string) (d !! "log").

Definition is_select (s : string) : bool := String.prefix "SELECT" s.

Definition scripted (table : list (list string * string * string)) : Postgres :=
  {| psql := fun (d : Db) sql =>
       if String.eqb sql "SELECT 1" then Some (d, "1" +:+ of_chars [chr 10])
       else if is_select sql then
         (fun x => (d, x.2 +:+ of_chars [chr 10])) <$> List.find (fun x => bool_decide (x.1 = (history d, sql))) table
       else Some (made_by (history d ++ [sql]), "") |}.

#[local] Instance plain_text : RustFmt := {| str_debug := fun s => s |}.

Definition NOTES : string :=
  "CREATE TABLE notes (id serial PRIMARY KEY, body text); INSERT INTO notes (body) VALUES ('a'), ('b')".

Definition TABLES : string := "SELECT string_agg(tablename, ',' ORDER BY tablename) FROM pg_tables WHERE schemaname = 'public'".
Definition COUNT_NOTES : string :=
  "SELECT count(*) || ':' || coalesce(md5(string_agg(t::text, '|' ORDER BY t::text)), '-') FROM " +:+ dq +:+ "notes" +:+ dq +:+ " t".
Definition SEQUENCES : string := "SELECT string_agg(sequencename || '=' || coalesce(last_value::text, 'null'), ',' ORDER BY sequencename) FROM pg_sequences WHERE schemaname = 'public'".
Definition ENUMS : string := "SELECT string_agg(t.typname || '=' || e.enumlabel, ',' ORDER BY t.typname, e.enumsortorder) FROM pg_enum e JOIN pg_type t ON t.oid = e.enumtypid".
Definition MATVIEWS : string := "SELECT string_agg(matviewname, ',' ORDER BY matviewname) FROM pg_matviews WHERE schemaname = 'public'".

(** What a server answers about these databases. *)
Definition script : list (list string * string * string) :=
  ((fun q => (([SCHEMA], q.1), q.2)) <$>
    ROUNDTRIP_ANSWERS ++ [("SELECT count(*) FROM materials", "3"); ("SELECT count(*) FROM mvw_types", "3")]) ++
  [([NOTES], BODIES, "a,b");
   ([NOTES; "INSERT INTO notes (body) VALUES ('after backup')"], BODIES, "a,b,after backup")] ++
  flat_map (fun '(d, rows) => [(d, TABLES, "notes"); (d, COUNT_NOTES, rows); (d, SEQUENCES, "notes_id_seq=2");
                               (d, ENUMS, ""); (d, MATVIEWS, "")])
    [([NOTES], "2:9dd4e461268c8034f5c8564e155c67a6");
     ([NOTES; "DELETE FROM notes"; "DROP MATERIALIZED VIEW IF EXISTS mvw_repeat_notes"], "0:-")] ++
  [([NOTES], "SELECT string_agg(format('DELETE FROM %I', tablename), '; ') FROM pg_tables WHERE schemaname = 'public'",
    "DELETE FROM notes")].

Definition source_var (key : string) : option string :=
  if String.eqb key "PG_TEST_SOURCE_DB" then Some "shop" else None.

Example integration_tests_pass :
  let server := scripted script in
  let c := mkCluster history_format {["postgres" := made_by []; "shop" := made_by [NOTES]]} ∅ in
  let now := with_ymd_and_hms 2026 11 16 8 30 0 in
  all_pass
    [test_dump_and_restore_roundtrip (H1 := server) (fun _ => None) c;
     test_restore_of_broken_file_keeps_database_intact (H1 := server) (fun _ => None) c;
     test_restore_into_empty_database (H1 := server) (fun _ => None) c;
     test_real_database_roundtrip (H1 := server) source_var c;
     test_backup_and_restore_with_postgres (H1 := server) (fun _ => None) now (databases c);
     drive_smoke_upload_find_download_delete 10 now (mkDWorld [] ∅)] = true.
Proof. by vm_compute. Qed.
